(* ===== verification/_CoqProject ===== *)
-Q . S2P
Prelude.v
RustStr.v
Order.v
Path.v
Lease.v
Idempotency.v
Rank.v
Link.v
Board.v
Task.v
Input.v
Agent.v
Registry.v
Identity.v
Readiness.v
Controllers.v
Permissions.v
Json.v
Elicitation.v
Url.v
Message.v
Topic.v
Conversation.v
Channel.v
Gate.v
Policy.v
Search.v
Rules.v
Usage.v
Memory.v
Journal.v
Handoff.v
Wait.v
Attention.v
Claims.v
Review.v
Contest.v
Handover.v
Mail.v
