(* ===== verification/Prelude.v ===== *)
(** * AgentDocker: a verification library for the coordination core

    AgentDocker is a daemon that lets several coding agents work on one machine
    without treading on each other. The crate [crates/core] holds what is
    decided; [crates/agentd] keeps the state behind a lock, stores it and acts;
    the command line, the host crate and the desktop talk to the daemon. This
    library models the core, and of the daemon the tick that keeps bound
    controllers running, the log of topic messages, the action of a board
    rule, the answering of claims, the bookkeeping of the screen judge, the
    path of a message and the handover from one daemon process to the next.
    All paths below are under [src/].

    ** The parts, and the files that model them

    - [Prelude], [RustStr], [Order]: what the sources use of Rust. [result]
      with [let?]; instants as integers of nanoseconds; [u64] sums that wrap;
      stable sorting; [HashMap] as [gmap] with the iteration order as a
      parameter (class [HashOrder]); strings as their UTF-8 bytes, with
      [chars], [trim], paths and number parsing computed from the bytes; [Ord]
      as a class with laws, [sort_by_key], [min_by_key], [BTreeMap] order.
      [Path]: components, prefixes and the order of [std::path].
    - [Lease] ([crates/core/src/lease.rs]): time-limited claims on resources.
      [ResourceKey] and its overlap; [LeaseTable] with [claim_as], [renew],
      [release], [release_held], [transfer], [transfer_selected], [expire],
      [restore] and the listings; the requests to release. Each operation
      takes the table and returns it with its answer.
    - [Idempotency] ([idempotency.rs]): the ledger that answers a repeated
      send with its first answer, bounded in number and in time.
    - [Link], [Rank], [Board], [Task] ([link.rs], [board.rs], [task.rs]): the
      board. Links beside cards; fractional ranks; lanes, categories,
      templates and the check of a board; a card's life from [file] through
      [pull], [move_to], [update] to [archive], with the walk that refuses
      dependency loops. [Board] calls [Link] and [Task] calls [Board], as the
      modules of the crate do.
    - [Agent] ([agent.rs], and the data an agent's record holds from
      [project.rs], [container.rs], [multiplexer.rs], [terminal.rs],
      [session.rs], [wait.rs], [judgment.rs], [provider.rs]): specs, roles,
      version control, the record with every field.
    - [Registry] ([registry.rs]): the agents by id, the aliases of retired
      identities, the index of provider blocks. [insert], [get_mut],
      [retire_into], [fold_into], [restore_aliases], [remove], the four ways
      to resolve a reference, and the listings.
    - [Identity] ([identity.rs]): when two records are one session, which one
      is kept, and when an ended session can come back.
    - [Input] ([input.rs], [typing.rs]): delivery evidence, receipts, the
      restart record of a bound controller ([controller_step],
      [note_controller_ended], [note_launch], [note_exhausted],
      [note_controller_bound]), the hold while a person types.
    - [Readiness] ([readiness.rs], [send_readiness.rs], [delivery.rs],
      [provider.rs] and the rest of [input.rs]): whether an agent can take a
      message now, which block counts against it, the one fix, and the shell
      command that brings a session back.
    - [Controllers] ([crates/agentd/src/daemon/binding.rs]): one pass of
      [tend_controllers] over one binding, as a function of the state under
      the lock and of an environment ([Env]: which processes run, whether a
      spawn and a write succeed) to the new state and the list of effects.

    - [Permissions], [Json], [Elicitation], [Url], [Message]
      ([permissions.rs], [elicitation.rs], [message.rs]): what agents say and
      ask. Destinations and envelopes; question forms with their check and the
      resolution of an answer against one; the presentations a person is shown
      (a form, a web address, a command, file changes, a permission profile, a
      list of choices), when each is valid and which answers it permits;
      messages held for the person. [Json] models [serde_json::Value] with its
      numbers as 64-bit floats. [Message] calls the other four, as the module
      does.
    - [Topic] ([topic.rs] and [crates/agentd/src/store/topics.rs]): the log of
      kept topic messages and the cursors, with the tables of the store as
      lists of rows and every operation of the store on them; the replay of a
      subscription through a bounded heap.
    - [Conversation], [Channel] ([conversation.rs], [channel.rs]): which
      conversation a message belongs to, mentions, channel names; the members
      and reviews of a channel and the decision on somebody's work.
    - [Gate] ([gate.rs]): verdicts on commits, the words that stand, what is
      forgotten at the cap, the gate.
    - [Policy] ([policy.rs]): globs, rules, quotas and inbound trust of the
      host's policy and a project's.
    - [Search] ([search.rs], [tag.rs]): finding cards by words; tags.
    - [Rules] ([rule.rs], [role.rs], [crates/agentd/src/daemon/tasks/rules.rs]):
      the rules of a board and what they do to a card; roles and their tools.

    - [Usage] ([usage.rs], [usage/report.rs], [usage/emission.rs]): token
      accounting. Running totals turned into contributions
      ([observe_cumulative]), the hourly bucket ([Aggregate] with [add],
      [remove], [price], [merge]), coverage, the range a query reads, the
      registration a sample belongs to, rows and totals.
    - [Memory] ([memory.rs]): what is kept and what reads like a secret, what
      is said to whom and when, supersession, the profile that fits a budget,
      the plan of a mirror, the ranked search over 64-bit floats.
    - [Journal] ([journal.rs]): entries and the line each is shown as, filters,
      digests within a budget, where a reader starts, summaries.

    - [Handoff] ([handoff.rs], [change.rs], [working_set.rs], the validations
      of [recovery.rs], the environments of [container.rs]): the ledger of
      changes and its overlaps, read marks, what a handoff carries and how a
      bundle from another host is taken in.
    - [Wait] ([wait.rs]): the queue of claims that wait ([WaitQueue] with
      [queue_join], [queue_leave], [break_ring], [queue_position]), the search
      for a ring of waits ([deadlock]), its [victim], what an agent is seen
      doing and the line shown for a wait.
    - [Attention] ([judgment.rs], [standing.rs] and
      [crates/agentd/src/daemon/judge.rs]): the screen as a terminal leaves
      it, the rule that promotes a quiet agent, how long a promotion stands,
      the daemon's budget and failures ([Judge]); where an agent stands for
      the person.
    - [Claims] ([crates/agentd/src/daemon/leases.rs], [daemon/waiting.rs], and
      [persist], [commit], [touch] of [daemon.rs]): a claim hold by hold over
      [Lease], [Registry], [Wait] and [Attention] together: one attempt under
      the lock ([claim_attempt]), the wake ([claim_wake]), the guard that
      gives a place up ([end_locked]), renewing, releasing, expiring; and the
      relation [sys_step], in which the claims of all agents interleave.
    - [Review] ([review.rs], [plan.rs]): what merging a branch would bring and
      what stops it, the readers of git's output; plans and project files.
    - [Contest] ([contest.rs], [crates/agentd/src/daemon/contests.rs]): several
      attempts at one task, ranked by a metric fixed beforehand.
    - [Handover] ([crates/agentd/src/daemon/reload.rs], the transfer row of
      [store.rs], and the admission, commit and start of [daemon.rs]): one
      daemon process replaced by another over the same database. The transfer
      row and its compare-and-set, the fence, the count of executing requests,
      the numbering of events, the recovery a successor defers; the relation
      [handover_step] lets any number of processes act and die anywhere.
    - [Mail] ([publish_routed], [catch_up] and the restoring of queues in
      [crates/agentd/src/daemon.rs], [daemon/humans.rs], [daemon/inbound.rs],
      [daemon/inbox.rs], [mark_read] of [daemon/conversations.rs], and the rows
      of the queues in [store.rs]): publishing to queues, questions opened,
      answered, expired, withdrawn and cancelled, messages held for the person,
      reading, acknowledging, catching up and starting again, each over memory
      and store together with writes that may fail ([mail_step]). It uses the
      questions of [Message].

    In each file [<Part>Facts] holds the invariant, the step relation of the
    part's histories and the shared lemmas, and [<Part>Props] the theorems,
    each followed by an instance on concrete data.

    ** What the theorems show

    - Exclusion. In every history of the lease table two holders of
      overlapping resources are both sharers; a claim is granted exactly when
      nothing alive blocks it; holders alone renew and release. A handoff of
      selected leases can break exclusion, which is proved with the condition
      under which it does not.
    - Identity. In every history of the registry aliases are flat, the index
      of provider blocks is exact, live names are distinct and resolve;
      folding redirects exactly what it should; the keeper of duplicates and
      every listing are independent of the hash order.
    - Once-only sends. The first answer survives until it expires or is pushed
      out; the ledger is bounded; a lookup remembers exactly what it should.
    - Controllers. One abstract look ([InputFacts.look]) is what the daemon's
      tick refines; a controller is started at most five times between two
      binds as long as the launches can be recorded, and a dying one is given
      up after at most twelve looks. With a latched storage failure every tick
      starts a process, which is proved too.
    - Readiness. An agent is called ready only on evidence of this very
      process that is fresh; the block shown is the earliest; the report sent
      reads back as the decision; the pasted command, read by a model of the
      POSIX shell, does what it says.
    - Boards. Ranks fall strictly between their neighbours; a board that
      passes its check places every card; a pull succeeds exactly on a free
      card; edits are all or nothing; the loop check terminates and decides
      reachability within its bound; links and roles read back as written.

    - Questions. An answer that was resolved resolves to itself; a number
      names its option on a form that passed its check; an accepted response
      meets its form, a parsed form is well formed, an accepted permission
      profile is unambiguous and shown whole, an accepted address is what it
      shows.
    - Topics and conversations. A replay is exactly the newest of what waits,
      though it is chosen with bounded memory and early stops; cursors never
      move back; a prune is bounded and takes the oldest; a conversation is a
      place, and the same place for the same parties.
    - Decisions. The gate and a channel's decision say what the latest words
      say; forgetting verdicts changes no gate; a verdict's line reads back;
      the glob matcher decides what patterns mean; a project only narrows what
      the host permits; the bounded edit distance is exact; a rule acts once
      in a stay, and a card whose record names no lane is never moved within
      its category, which is proved too; the catalog of roles and the tools a
      holder is offered are exact.

    - Usage. A bucket stands for its samples whatever was added, removed,
      priced later and merged, and refuses exactly what overflows; what it
      reports is what is known; contributions add up to the running total; the
      windows of registrations are the choice made sample by sample; a range
      covers what was asked.
    - Memory and journal. What is said is what stands for the reader, in the
      search too, whatever the hash order; a mirror holds what everyone is
      told and nothing else; the profile fits and wastes nothing. A line of
      the journal is one line; a digest accounts for everything new within
      its budget; a newcomer is told recent history; a summary ends at a word
      within its limit, except that a first word longer than the limit is
      kept whole when another follows, which is proved too.

    - Waiting. The queue is served by priority and arrival in every history;
      the search for a ring is exact; the victim is the least; breaking rings
      ends. Over all interleavings of claims, renewals, releases, expiries,
      lost clients and failing writes no ring of waits forms, exclusion holds,
      and every place in the queue belongs to an open claim. Two limits are
      proved as well: a newcomer may overtake a waiter, and a shared holder
      that is in nobody's way counts in the search.
    - Attention. A promotion names the likeliest need exactly when the rule
      says so, only makes an agent louder, and stands exactly while it is
      vouched for; the judge's calls stay within the budget of every minute;
      what is judged is small and clean; the line shown for a wait shows no
      argument of a command.
    - Handoffs. Overlaps are listed exactly; an imported bundle stays inside
      its checkout; a diff carried fits its cap; a read guard is cleared only
      by the reader's own changes.
    - Reviews and contests. A merge can be made exactly when nothing is in its
      way; git's output reads back; a kept file's name is one path component; a
      contest stays fair, and its standing is what its entries say.
    - Handover. At most one process serves a database, none while a transfer is
      offered, and the numbered events have no hole; a successor that took over
      ends where a plain start would; an offer that was not taken can be taken
      back. An offer whose two processes are dead fences the database for good,
      which is proved too.
    - Messages. Each queue in memory is its stored rows and stays within its
      limits, whatever fails; a queued message leaves only by its reader's
      word; a question closes once; a send is all or nothing. A held
      message whose card is closed by the person's own reply stays held until
      the next start, which is proved too.

    ** Parameters, bounds and fuel

    Random ids are arguments of the operations that draw them. The version 5
    UUID function is the class [Uuid], the Unicode tables the class [Unicode]
    (of which only the behaviour on ASCII characters is assumed), the hash
    order the class [HashOrder]; reading and printing JSON text the class
    [SerdeJson], the syntaxes of email, URI and dates the class [FormFormats],
    the authority parser of the http crate the class [HttpAuthority], reading
    RFC 3339 times and the range of dates the class [Chrono], the iteration
    order of a hash set the class [HashSetOrder]; each has an instance the
    witnesses run with. The natural logarithm of the memory search is a
    variable of its section.
    Recursion that is not structural takes a number of turns: [Rank.midpoint]
    gets the sum of the two lengths and two more ([midpoint_turns]), and
    [between_is_strictly_between] proves that this always suffices;
    [Ledger.drop_while] gets the length of the queue it pops; the walk of
    [Task.closes_cycle] visits at most its own limit of cards, and its
    theorem gives a number of turns after which it has answered; the reader of
    mentions gets one turn for each character, and
    [mentions_found_in_time] proves that more change nothing; the search of
    [Wait.deadlock] goes at most one step deeper than there are holders, and
    [deadlock_exact] covers every input; [Claims.break_rings] gets one turn
    for each queued wait and one more, which [breaking_rings_ends] proves
    enough; the walk of [Attention.descends] has the bound of the source;
    splitting at a
    string and replacing links get one turn for each byte. Instants are
    unbounded integers: chrono's own range (about 262,000 years) is not
    modelled. [u64] sums of budgets wrap, as the release profile has them.

    ** What is not modelled, and what comes next

    Sentences made for people ([Display] of errors, hints, guidance) and the
    serde forms are mostly left out, and so are failures of the store's
    own statements, except in [Claims], [Handover] and [Mail], where any write
    may fail. Each agent has one claim open at a time in [Claims], as a claim
    holds its connection; the
    checks before a claim's first attempt (priority, policy), the localising
    of paths and the journal entry of a release are left out. Of the judge,
    the questions, the network call and the reading of terminals are I/O; of
    [recovery.rs] checkpoints are data. Of a handover the candidate's build
    check, the passed descriptors and the reattachment of owners are left out;
    of a message the rooms, journal entries and leases staged with it, the
    archive, delivery records, notifications and the folding of one agent's
    queue into another's. The binding requests of the daemon, the sweep of its
    board rules over projects and the offer of a handoff to an agent are not
    modelled either: what they decide is in [Controllers], [Rules] and
    [Handoff], and the rest of them starts processes and reads checkouts.
    The printing of floats to a number of digits ([compact]
    and [dollars] of [usage.rs]) is left out. The rest of the store, the
    sockets, process supervision, the command line and the desktop are I/O
    around this core and stay out. *)

From stdpp Require Export base tactics numbers list gmap strings sorting.

(** ** Scope and basic notations *)

Declare Scope rust_scope.
Delimit Scope rust_scope with rust.

(** [DateTime<Utc>] and [TimeDelta] are integers of nanoseconds, chrono's
    resolution: an instant is its distance from the epoch. A [NaiveDate] is a
    number of days. *)
Abbreviation instant := Z (only parsing).
Abbreviation duration := Z (only parsing).

Definition millis (n : Z) : duration := (n * 1_000_000)%Z.
Definition seconds (n : Z) : duration := (n * 1_000_000_000)%Z.
Definition minutes (n : Z) : duration := seconds (n * 60).
Definition hours (n : Z) : duration := seconds (n * 3600).

(** ** Fallible code: Rust's [Result] *)

Inductive result (A E : Type) : Type :=
| Ok (a : A)
| Err (e : E).
Global Arguments Ok {A E} a.
Global Arguments Err {A E} e.

Notation "'let?' x ':=' c 'in' k" :=
  (match c with Ok x => k | Err e => Err e end)
  (at level 10, x pattern, c at level 100, k at level 200) : rust_scope.

Global Instance result_eq_dec `{EqDecision A, EqDecision E} : EqDecision (result A E).
Proof. solve_decision. Defined.

Definition is_ok {A E} (r : result A E) : bool :=
  match r with Ok _ => true | Err _ => false end.

Definition map_err {A E F} (f : E → F) (r : result A E) : result A F :=
  match r with Ok a => Ok a | Err e => Err (f e) end.

(** ** Boolean tests on options (the [Option] methods the sources use) *)

Definition is_some {A} (o : option A) : bool :=
  match o with Some _ => true | None => false end.
Definition is_none {A} (o : option A) : bool :=
  match o with Some _ => false | None => true end.
Definition is_some_and {A} (f : A → bool) (o : option A) : bool :=
  match o with Some a => f a | None => false end.
Definition is_none_or {A} (f : A → bool) (o : option A) : bool :=
  match o with Some a => f a | None => true end.
Definition unwrap_or {A} (d : A) (o : option A) : A :=
  match o with Some a => a | None => d end.

(** Equality as a [bool], so that guards read like the code's conditions. *)
Definition eqb {A} `{EqDecision A} (a b : A) : bool := bool_decide (a = b).
Global Arguments eqb : simpl never.
Infix "==" := eqb (at level 70) : rust_scope.
Notation "a != b" := (negb (eqb a b)) (at level 70) : rust_scope.

Lemma eqb_true `{EqDecision A} (a b : A) : eqb a b = true ↔ a = b.
Proof. apply bool_decide_eq_true. Qed.

Lemma eqb_false `{EqDecision A} (a b : A) : eqb a b = false ↔ a ≠ b.
Proof. apply bool_decide_eq_false. Qed.

Lemma eqb_refl `{EqDecision A} (a : A) : eqb a a = true.
Proof. by apply eqb_true. Qed.

Lemma eqb_sym `{EqDecision A} (a b : A) : eqb a b = eqb b a.
Proof. unfold eqb. apply bool_decide_ext. naive_solver. Qed.

(** ** Machine integers

    The shipped binary is built by [profile.release], which leaves the
    overflow checks off, so unsigned arithmetic wraps. *)

Definition u64_max : Z := (2 ^ 64 - 1)%Z.
Definition u64_wrap (n : Z) : Z := (n `mod` 2 ^ 64)%Z.
Definition u64_add (a b : Z) : Z := u64_wrap (a + b)%Z.
Definition u64_saturating_add (a b : Z) : Z := Z.min u64_max (a + b)%Z.
Definition u64_saturating_sub (a b : Z) : Z := Z.max 0 (a - b)%Z.

(** [Iterator::sum] on [u64]. *)
Definition u64_sum (l : list Z) : Z := foldl u64_add 0%Z l.

Definition Z_sum (l : list Z) : Z := foldr Z.add 0%Z l.

Lemma u64_wrap_small n : (0 ≤ n < 2 ^ 64)%Z → u64_wrap n = n.
Proof. apply Z.mod_small. Qed.

Lemma u64_wrap_range n : (0 ≤ u64_wrap n < 2 ^ 64)%Z.
Proof. unfold u64_wrap. apply Z.mod_pos_bound. lia. Qed.

Lemma Z_sum_nonneg l : Forall (Z.le 0) l → (0 ≤ Z_sum l)%Z.
Proof. induction 1; simpl; lia. Qed.

Lemma u64_sum_from_wrap a l : foldl u64_add (u64_wrap a) l = u64_wrap (a + Z_sum l)%Z.
Proof.
  revert a. induction l as [|x l IH]; intros a; simpl.
  { by rewrite Z.add_0_r. }
  unfold u64_add at 2. unfold u64_wrap at 2.
  replace (u64_wrap _) with (u64_wrap (a + x)%Z); last first.
  { unfold u64_wrap. by rewrite Zplus_mod_idemp_l. }
  rewrite IH. f_equal. lia.
Qed.

(** A [u64] sum is the true sum modulo 2^64. *)
Lemma u64_sum_wrap l : u64_sum l = u64_wrap (Z_sum l).
Proof.
  unfold u64_sum. pose proof (u64_sum_from_wrap 0 l) as H.
  by rewrite u64_wrap_small, Z.add_0_l in H by lia.
Qed.

Global Instance Z_sum_Permutation : Proper ((≡ₚ) ==> (=)) Z_sum.
Proof. induction 1; simpl; lia. Qed.

(** ** Stable sorting

    [slice::sort_by] is a stable sort; insertion from the right computes the
    same list for every total preorder. *)

Section SortBy.
Context {A : Type} (leb : A → A → bool).

Fixpoint insert_by (x : A) (l : list A) : list A :=
  match l with
  | [] => [x]
  | y :: l' => if leb x y then x :: y :: l' else y :: insert_by x l'
  end.

Definition sort_by (l : list A) : list A := foldr insert_by [] l.

Lemma insert_by_perm x l : insert_by x l ≡ₚ x :: l.
Proof.
  induction l as [|y l IH]; simpl; [done|].
  destruct (leb x y); [done|]. rewrite IH. apply perm_swap.
Qed.

Lemma sort_by_perm l : sort_by l ≡ₚ l.
Proof. induction l as [|x l IH]; simpl; [done|]. by rewrite insert_by_perm, IH. Qed.

Lemma elem_of_sort_by x l : x ∈ sort_by l ↔ x ∈ l.
Proof. by rewrite sort_by_perm. Qed.

Lemma length_sort_by l : length (sort_by l) = length l.
Proof. apply Permutation_length, sort_by_perm. Qed.

Context (Htotal : ∀ x y, leb x y = true ∨ leb y x = true).
Context (Htrans : ∀ x y z, leb x y = true → leb y z = true → leb x z = true).

Lemma insert_by_sorted x l :
  StronglySorted (λ a b, leb a b = true) l →
  StronglySorted (λ a b, leb a b = true) (insert_by x l).
Proof.
  induction 1 as [|y l Hs IH Hall]; simpl; [repeat constructor|].
  destruct (leb x y) eqn:E; constructor; try done.
  - by constructor.
  - constructor; [done|]. eapply Forall_impl; [exact Hall|]. naive_solver.
  - rewrite insert_by_perm. constructor; [|done].
    destruct (Htotal x y); congruence.
Qed.

Lemma sort_by_sorted l : StronglySorted (λ a b, leb a b = true) (sort_by l).
Proof. induction l; simpl; [constructor|]. by apply insert_by_sorted. Qed.

(** Where ties are impossible, the result does not depend on the order the
    elements came in: what makes a listing of a hash map deterministic. *)
Lemma sort_by_order_independent l k :
  l ≡ₚ k →
  (∀ x y, x ∈ l → y ∈ l → leb x y = true → leb y x = true → x = y) →
  sort_by l = sort_by k.
Proof.
  intros Hp Hanti. eapply StronglySorted_unique_strong.
  - intros x y Hx Hy. apply Hanti.
    + by apply elem_of_sort_by.
    + rewrite Hp. by apply elem_of_sort_by.
  - apply sort_by_sorted.
  - apply sort_by_sorted.
  - by rewrite !sort_by_perm.
Qed.
End SortBy.

(** ** Hash maps and their iteration order

    A [HashMap] is a [gmap]; iterating over it visits every entry once, in an
    order the program cannot rely on. The order is a parameter of every
    operation that iterates, and the theorems hold for all of them. *)

Class HashOrder (K V : Type) `{Countable K} := {
  hm_iter : gmap K V → list (K * V);
  hm_iter_perm : ∀ m, hm_iter m ≡ₚ map_to_list m;
}.

(** The order the witnesses run with. *)
Definition canonical_order {K V} `{Countable K} : HashOrder K V :=
  {| hm_iter := map_to_list; hm_iter_perm := λ m, reflexivity _ |}.

Section HashOrder.
Context `{Countable K} {V : Type} {HO : HashOrder K V}.
Implicit Types (m : gmap K V) (k : K) (v : V).

Definition hm_values (m : gmap K V) : list V := (hm_iter m).*2.
Definition hm_keys (m : gmap K V) : list K := (hm_iter m).*1.

Lemma elem_of_hm_iter m k v : (k, v) ∈ hm_iter m ↔ m !! k = Some v.
Proof. by rewrite hm_iter_perm, elem_of_map_to_list. Qed.

Lemma elem_of_hm_values m v : v ∈ hm_values m ↔ ∃ k, m !! k = Some v.
Proof.
  unfold hm_values. rewrite list_elem_of_fmap. split.
  - intros ([k w] & -> & Hin). exists k. by apply elem_of_hm_iter.
  - intros [k Hk]. exists (k, v). by rewrite elem_of_hm_iter.
Qed.

Lemma elem_of_hm_keys m k : k ∈ hm_keys m ↔ is_Some (m !! k).
Proof.
  unfold hm_keys. rewrite list_elem_of_fmap. split.
  - intros ([k' w] & -> & Hin). exists w. by apply elem_of_hm_iter.
  - intros [v Hk]. exists (k, v). by rewrite elem_of_hm_iter.
Qed.

Lemma NoDup_hm_keys m : NoDup (hm_keys m).
Proof. unfold hm_keys. rewrite hm_iter_perm. apply NoDup_fst_map_to_list. Qed.
End HashOrder.

(** ** Lists *)

Lemma list_omap_ext_elem {A B} (f g : A → option B) (l : list A) :
  (∀ x, x ∈ l → f x = g x) → omap f l = omap g l.
Proof.
  induction l as [|x l IH]; intros Hext; simpl; [done|].
  rewrite (Hext x) by set_solver. destruct (g x); [f_equal|]; apply IH; set_solver.
Qed.

Lemma list_fmap_ext_elem {A B} (f g : A → B) (l : list A) :
  (∀ x, x ∈ l → f x = g x) → f <$> l = g <$> l.
Proof.
  induction l as [|x l IH]; intros Hext; simpl; [done|].
  rewrite (Hext x) by set_solver. f_equal. apply IH. set_solver.
Qed.

Lemma list_filter_sublist {A} (P : A → Prop) `{∀ x, Decision (P x)} (l : list A) :
  filter P l `sublist_of` l.
Proof.
  induction l as [|x l IH]; [done|]. rewrite filter_cons. case_decide.
  - by apply sublist_skip.
  - by apply sublist_cons.
Qed.

Lemma list_filter_nil {A} (P : A → Prop) `{∀ x, Decision (P x)} (l : list A) :
  (∀ x, x ∈ l → ¬ P x) → filter P l = [].
Proof.
  induction l as [|x l IH]; intros HP; [done|]. rewrite filter_cons_False by (apply HP; left).
  apply IH. intros y Hy. apply HP. by right.
Qed.

Lemma list_filter_true {A} (P : A → Prop) `{∀ x, Decision (P x)} (l : list A) :
  (∀ x, x ∈ l → P x) → filter P l = l.
Proof.
  induction l as [|x l IH]; intros HP; [done|]. rewrite filter_cons_True by (apply HP; left).
  f_equal. apply IH. intros y Hy. apply HP. by right.
Qed.

Lemma NoDup_fmap_inj_elem {A B} (f : A → B) (l : list A) (x y : A) :
  NoDup (f <$> l) → x ∈ l → y ∈ l → f x = f y → x = y.
Proof.
  induction l as [|z l IH]; csimpl; [by intros _ ?%not_elem_of_nil|].
  rewrite NoDup_cons, !elem_of_cons. intros [Hz Hnd] [->|Hx] [->|Hy] Heq; try done.
  - destruct Hz. rewrite Heq. by apply list_elem_of_fmap_2.
  - destruct Hz. rewrite <-Heq. by apply list_elem_of_fmap_2.
  - by apply IH.
Qed.

(** [Vec::dedup]: one of each run of equal elements. *)
Fixpoint dedup {A} `{EqDecision A} (l : list A) : list A :=
  match l with
  | x :: (y :: _) as l' => if eqb x y then dedup l' else x :: dedup l'
  | _ => l
  end.

(** ** Automation *)

(** [rust] holds, for resolution, the lemmas that an operation preserves its
    component's invariant and the laws of the orders, and, for rewriting, the
    normal form of appended strings. *)
Create HintDb rust discriminated.
#[export] Hint Resolve sort_by_perm insert_by_perm hm_iter_perm NoDup_hm_keys : rust.
Create Rewrite HintDb rust.
#[export] Hint Rewrite @eqb_refl : rust.

(** What every step preserves holds of everything reached. *)
Lemma rtc_invariant {A} (R : relation A) (P : A → Prop) x y :
  (∀ a b, R a b → P a → P b) → P x → rtc R x y → P y.
Proof. intros Hstep HP. induction 1; eauto. Qed.

Ltac split_and_bool :=
  repeat match goal with
  | H : _ && _ = true |- _ => apply (proj1 (andb_true_iff _ _)) in H; destruct H
  | H : _ || _ = false |- _ => apply (proj1 (orb_false_iff _ _)) in H; destruct H
  | H : negb _ = true |- _ => apply (proj1 (negb_true_iff _)) in H
  | H : negb _ = false |- _ => apply (proj1 (negb_false_iff _)) in H
  | H : eqb _ _ = true |- _ => apply (proj1 (eqb_true _ _)) in H
  | H : eqb _ _ = false |- _ => apply (proj1 (eqb_false _ _)) in H
  | H : bool_decide _ = true |- _ => apply (proj1 (bool_decide_eq_true _)) in H
  | H : bool_decide _ = false |- _ => apply (proj1 (bool_decide_eq_false _)) in H
  end.

(** Case on the scrutinee of a match in a hypothesis or in the goal. *)
Ltac split_match_in H :=
  match type of H with
  | context [match ?x with _ => _ end] =>
      lazymatch x with
      | context [match _ with _ => _ end] => fail
      | _ => let E := fresh "E" in destruct x eqn:E
      end
  end.

Ltac split_match_goal :=
  match goal with
  | |- context [match ?x with _ => _ end] =>
      lazymatch x with
      | context [match _ with _ => _ end] => fail
      | _ => let E := fresh "E" in destruct x eqn:E
      end
  end.

(** Follow every branch of a handler's result equation. *)
Ltac branches H := repeat (split_match_in H; simplify_eq/=); simplify_eq/=.

(** ** Sorted lists without repetition *)

Section Dedup.
Context {A : Type} `{EqDecision A}.
Implicit Types (x : A) (l : list A).
Local Open Scope rust_scope.

Lemma elem_of_dedup x l : x ∈ dedup l ↔ x ∈ l.
Proof.
  induction l as [|a [|b l] IH]; [done|done|]. cbn [dedup] in *.
  destruct (a == b) eqn:E; split_and_bool; rewrite ?elem_of_cons in *; naive_solver.
Qed.

(** What is left of a sorted list is strictly sorted. *)
Lemma dedup_strict (R : relation A) l :
  AntiSymm (=) R → StronglySorted R l → StronglySorted (λ a b, R a b ∧ a ≠ b) (dedup l).
Proof.
  intros Hanti. induction l as [|a [|b l] IH]; intros Hs; [constructor|repeat constructor|].
  inversion Hs as [|?? Hs' Ha]; subst. cbn [dedup].
  destruct (a == b) eqn:E; split_and_bool; [by apply IH|].
  constructor; [by apply IH|]. apply Forall_forall. intros x Hx. change (x ∈ dedup (b :: l)) in Hx.
  rewrite elem_of_dedup in Hx. rewrite Forall_forall in Ha. split; [by apply Ha|]. intros <-.
  inversion Hs' as [|?? _ Hb]; subst. apply elem_of_cons in Hx as [->|Hx]; [done|].
  rewrite Forall_forall in Hb. apply E, (anti_symm R); [apply Ha; by left|by apply Hb].
Qed.

Lemma strict_NoDup (R : relation A) l : StronglySorted (λ a b, R a b ∧ a ≠ b) l → NoDup l.
Proof.
  induction 1 as [|x l _ IH Hx]; constructor; [|done]. intros Hin.
  rewrite Forall_forall in Hx. by destruct (Hx _ Hin).
Qed.

(** In a sorted list the earlier is related to the later. *)
Lemma StronglySorted_lookup (R : relation A) l i j a b :
  StronglySorted R l → l !! i = Some a → l !! j = Some b → (i < j)%nat → R a b.
Proof.
  intros Hs. revert i j. induction Hs as [|x l _ IH Hx]; intros i j; [done|].
  destruct i as [|i], j as [|j]; simpl; intros Hi Hj Hlt; [lia| |lia|by eapply IH; eauto with lia].
  simplify_eq. rewrite Forall_forall in Hx. by apply Hx, (list_elem_of_lookup_2 _ j).
Qed.
End Dedup.
