(* ===== verification/RustStr.v ===== *)
(** * Rust strings

    A [String] or [&str] is the Rocq [string] of its UTF-8 bytes, so [len],
    [starts_with], byte indexing and the byte-wise order are the functions on
    bytes. What the code says of characters ([chars], [trim], [split_whitespace])
    is computed from the UTF-8 encoding. The two Unicode tables the code
    consults ([to_lowercase], [char::is_alphanumeric]) are the class [Unicode]. *)

From Stdlib Require Import Ascii.
From stdpp Require Import pretty.
From S2P Require Import Prelude.

Local Open Scope string_scope.

(** ** Bytes *)

Definition byte_val (a : ascii) : N := N_of_ascii a.
Definition in_range (lo hi : N) (a : ascii) : bool := (lo <=? byte_val a)%N && (byte_val a <=? hi)%N.

Definition is_ascii_byte (a : ascii) : bool := (byte_val a <? 128)%N.
Definition is_continuation (a : ascii) : bool := in_range 128 191 a.
Definition is_ascii_lowercase (a : ascii) : bool := in_range 97 122 a.
Definition is_ascii_uppercase (a : ascii) : bool := in_range 65 90 a.
Definition is_ascii_digit (a : ascii) : bool := in_range 48 57 a.
Definition is_ascii_alphabetic (a : ascii) : bool := is_ascii_lowercase a || is_ascii_uppercase a.
Definition is_ascii_alphanumeric (a : ascii) : bool := is_ascii_alphabetic a || is_ascii_digit a.
Definition is_ascii_hexdigit (a : ascii) : bool :=
  is_ascii_digit a || in_range 97 102 a || in_range 65 70 a.

Definition to_ascii_lowercase_byte (a : ascii) : ascii :=
  if is_ascii_uppercase a then ascii_of_N (byte_val a + 32) else a.
Definition to_ascii_uppercase_byte (a : ascii) : ascii :=
  if is_ascii_lowercase a then ascii_of_N (byte_val a - 32) else a.

(** ** Bytes of a string *)

Fixpoint smap (f : ascii → ascii) (s : string) : string :=
  match s with "" => "" | String a s => String (f a) (smap f s) end.
Fixpoint sforall (f : ascii → bool) (s : string) : bool :=
  match s with "" => true | String a s => f a && sforall f s end.
Fixpoint sexists (f : ascii → bool) (s : string) : bool :=
  match s with "" => false | String a s => f a || sexists f s end.
Fixpoint sfilter (f : ascii → bool) (s : string) : string :=
  match s with
  | "" => ""
  | String a s => if f a then String a (sfilter f s) else sfilter f s
  end.
Fixpoint stake (n : nat) (s : string) : string :=
  match n, s with
  | S n, String a s => String a (stake n s)
  | _, _ => ""
  end.

Definition to_ascii_lowercase : string → string := smap to_ascii_lowercase_byte.
Definition to_ascii_uppercase : string → string := smap to_ascii_uppercase_byte.
Definition is_ascii : string → bool := sforall is_ascii_byte.

(** [s.contains(c)] for one ASCII character. *)
Definition contains_char (c : ascii) : string → bool := sexists (Ascii.eqb c).

(** [s.replace(c, d)] for ASCII characters. *)
Definition replace_char (c d : ascii) : string → string :=
  smap (λ a, if Ascii.eqb a c then d else a).

(** [s.split_once(c)]. *)
Fixpoint split_once (c : ascii) (s : string) : option (string * string) :=
  match s with
  | "" => None
  | String a s =>
      if Ascii.eqb a c then Some ("", s)
      else match split_once c s with
           | Some (l, r) => Some (String a l, r)
           | None => None
           end
  end.

(** [s.split(c)] for one ASCII character. *)
Fixpoint split_char (c : ascii) (s : string) : list string :=
  match s with
  | "" => [""]
  | String a s =>
      let rest := split_char c s in
      if Ascii.eqb a c then "" :: rest
      else match rest with
           | w :: ws => String a w :: ws
           | [] => [String a ""]
           end
  end.

(** [s.strip_prefix(p)]. *)
Fixpoint strip_prefix (p s : string) : option string :=
  match p, s with
  | "", _ => Some s
  | String a p, String b s => if Ascii.eqb a b then strip_prefix p s else None
  | String _ _, "" => None
  end.
Definition starts_with (s p : string) : bool := is_some (strip_prefix p s).

(** [s.trim_end_matches(c)], and the [while s.ends_with(c) { s.pop() }] loop. *)
Fixpoint trim_end_char (c : ascii) (s : string) : string :=
  match s with
  | "" => ""
  | String a s =>
      match trim_end_char c s with
      | "" => if Ascii.eqb a c then "" else String a ""
      | t => String a t
      end
  end.

(** [s.ends_with(c)] for one ASCII character. *)
Fixpoint ends_with_char (c : ascii) (s : string) : bool :=
  match s with
  | "" => false
  | String a "" => Ascii.eqb a c
  | String _ s => ends_with_char c s
  end.

(** [s.as_bytes()[i]] *)
Definition byte_at (i : nat) (s : string) : option ascii := String.get i s.

(** The byte-wise order of [str]'s [Ord]. *)
Definition str_leb (a b : string) : bool := String.leb a b.

(** ** Characters *)

(** The characters of a valid UTF-8 string, each as its bytes: every lead byte
    takes the continuation bytes that follow it. *)
Fixpoint split_chars (s : string) : string * list string :=
  match s with
  | "" => ("", [])
  | String a s =>
      let '(cont, cs) := split_chars s in
      if is_continuation a then (String a cont, cs) else ("", String a cont :: cs)
  end.
Definition chars (s : string) : list string := (split_chars s).2.
Definition chars_count (s : string) : nat := length (chars s).
Definition chars_take (n : nat) (s : string) : string := String.concat "" (take n (chars s)).

(** [String::from_utf8] accepts exactly the well-formed byte sequences. *)
Fixpoint utf8_valid (s : string) : bool :=
  match s with
  | "" => true
  | String a s1 =>
      if is_ascii_byte a then utf8_valid s1
      else match s1 with
      | "" => false
      | String b s2 =>
          if in_range 194 223 a then is_continuation b && utf8_valid s2
          else match s2 with
          | "" => false
          | String c s3 =>
              if in_range 224 239 a then
                (if (byte_val a =? 224)%N then in_range 160 191 b
                 else if (byte_val a =? 237)%N then in_range 128 159 b else is_continuation b)
                && is_continuation c && utf8_valid s3
              else match s3 with
              | "" => false
              | String d s4 =>
                  in_range 240 244 a
                  && (if (byte_val a =? 240)%N then in_range 144 191 b
                      else if (byte_val a =? 244)%N then in_range 128 143 b else is_continuation b)
                  && is_continuation c && is_continuation d && utf8_valid s4
              end
          end
      end
  end.
Definition from_utf8 (s : string) : option string := if utf8_valid s then Some s else None.

Lemma from_utf8_ascii s : is_ascii s = true → from_utf8 s = Some s.
Proof.
  intros Hs. unfold from_utf8. replace (utf8_valid s) with true; [done|].
  revert Hs. unfold is_ascii. induction s as [|a s IH]; [done|]. simpl.
  intros [-> Hs]%andb_true_iff. by apply IH.
Qed.

(** [White_Space] characters by their UTF-8 bytes. *)
Definition ws1 (a : ascii) : bool := in_range 9 13 a || (byte_val a =? 32)%N.
Definition ws2 (a b : ascii) : bool :=
  (byte_val a =? 194)%N && ((byte_val b =? 133)%N || (byte_val b =? 160)%N).
Definition ws3 (a b c : ascii) : bool :=
  ((byte_val a =? 225)%N && (byte_val b =? 154)%N && (byte_val c =? 128)%N)
  || ((byte_val a =? 226)%N && (byte_val b =? 128)%N
      && (in_range 128 138 c || in_range 168 169 c || (byte_val c =? 175)%N))
  || ((byte_val a =? 226)%N && (byte_val b =? 129)%N && (byte_val c =? 159)%N)
  || ((byte_val a =? 227)%N && (byte_val b =? 128)%N && (byte_val c =? 128)%N).

(** [char::is_whitespace] on a character given by its bytes. *)
Definition is_whitespace (c : string) : bool :=
  match c with
  | String a "" => ws1 a
  | String a (String b "") => ws2 a b
  | String a (String b (String c "")) => ws3 a b c
  | _ => false
  end.

(** [char::is_control]: the [Cc] characters, U+0000-U+001F and
    U+007F-U+009F. *)
Definition is_control (c : string) : bool :=
  match c with
  | String a "" => in_range 0 31 a || (byte_val a =? 127)%N
  | String a (String b "") => (byte_val a =? 194)%N && in_range 128 159 b
  | _ => false
  end.
Definition has_control (s : string) : bool := existsb is_control (chars s).

(** [s.contains(c)] for the NUL character. *)
Definition has_nul : string → bool := contains_char "000".

Fixpoint drop_ws (l : list string) : list string :=
  match l with
  | [] => []
  | c :: l' => if is_whitespace c then drop_ws l' else l
  end.

(** [s.trim()]. *)
Definition trim (s : string) : string :=
  String.concat "" (rev (drop_ws (rev (drop_ws (chars s))))).

(** [s.split_whitespace()]. *)
Fixpoint words_of (cur : string) (l : list string) : list string :=
  match l with
  | [] => if eqb cur "" then [] else [cur]
  | c :: l' =>
      if is_whitespace c
      then (if eqb cur "" then [] else [cur]) ++ words_of "" l'
      else words_of (cur ++ c)%string l'
  end.
Definition split_whitespace (s : string) : list string := words_of "" (chars s).

(** ** The Unicode tables of the standard library *)

Class Unicode := {
  (** [str::to_lowercase]; on ASCII text it is [to_ascii_lowercase]. *)
  to_lowercase : string → string;
  to_lowercase_ascii : ∀ s, is_ascii s = true → to_lowercase s = to_ascii_lowercase s;
  (** Lowercase text holds no uppercase ASCII letter. *)
  to_lowercase_no_upper : ∀ s, sexists is_ascii_uppercase (to_lowercase s) = false;
  (** [char::is_alphanumeric] on a character given by its bytes. *)
  is_alphanumeric : string → bool;
  is_alphanumeric_ascii : ∀ a, is_ascii_byte a = true →
    is_alphanumeric (String a "") = is_ascii_alphanumeric a;
}.

Lemma lower_byte_not_upper a : is_ascii_uppercase (to_ascii_lowercase_byte a) = false.
Proof. by destruct a as [[] [] [] [] [] [] [] []]; vm_compute. Qed.

Lemma to_ascii_lowercase_no_upper s : sexists is_ascii_uppercase (to_ascii_lowercase s) = false.
Proof. induction s as [|a s IH]; simpl; [done|]. by rewrite lower_byte_not_upper. Qed.

(** The tables restricted to ASCII: what the witnesses run with. *)
Definition ascii_unicode : Unicode := {|
  to_lowercase := to_ascii_lowercase;
  to_lowercase_ascii s _ := eq_refl;
  to_lowercase_no_upper := to_ascii_lowercase_no_upper;
  is_alphanumeric c := match c with String a "" => is_ascii_alphanumeric a | _ => false end;
  is_alphanumeric_ascii a _ := eq_refl;
|}.

(** ** Numbers in text *)

Fixpoint dec_go (acc : N) (s : string) : option N :=
  match s with
  | "" => Some acc
  | String a s => if is_ascii_digit a then dec_go (acc * 10 + (byte_val a - 48))%N s else None
  end.

(** [s.parse::<u32>()]: an optional [+], then digits, within range. *)
Definition parse_u32 (s : string) : option Z :=
  let digits := match strip_prefix "+" s with Some r => r | None => s end in
  if eqb digits "" then None
  else match dec_go 0 digits with
       | Some n => if (n <? 2 ^ 32)%N then Some (Z.of_N n) else None
       | None => None
       end.

(** ** Paths

    [Path] on Unix. Two paths are equal when their components are: repeated
    and trailing slashes and inner [.] components do not count. *)

Definition path_components (p : string) : bool * list string :=
  let parts := split_char "/" p in
  let plain := filter (λ c, negb (eqb c "") && negb (eqb c ".")) in
  if starts_with p "/" then (true, plain parts)
  else match parts with
       | first :: rest => (false, app (if eqb first "." then ["."] else plain [first]) (plain rest))
       | [] => (false, [])
       end.
Definition path_eqb (p q : string) : bool := eqb (path_components p) (path_components q).
Definition is_absolute (p : string) : bool := starts_with p "/".

(** [Path::file_name]: the last component, when it is a normal one. *)
Definition file_name (p : string) : option string :=
  match last (path_components p).2 with
  | Some c => if eqb c ".." || eqb c "." then None else Some c
  | None => None
  end.

(** ** Lemmas *)

Lemma dec_go_pretty_N_go x s : dec_go 0 (pretty_N_go x s) = dec_go x s.
Proof.
  revert s. induction (N.lt_wf_0 x) as [x _ IH]; intros s.
  destruct (decide (x = 0)%N) as [->|Hx].
  { by rewrite pretty_N_go_0. }
  rewrite pretty_N_go_step by lia. rewrite IH by (apply N.div_lt; lia). simpl.
  assert (x `mod` 10 < 10)%N as Hm by (by apply N.mod_lt).
  assert (is_ascii_digit (pretty_N_char (x `mod` 10)) = true ∧
          byte_val (pretty_N_char (x `mod` 10)) - 48 = x `mod` 10)%N as [-> ->].
  { remember (x `mod` 10)%N as d eqn:Ed. clear Ed.
    assert (d = 0 ∨ d = 1 ∨ d = 2 ∨ d = 3 ∨ d = 4 ∨ d = 5 ∨ d = 6 ∨ d = 7 ∨ d = 8 ∨ d = 9)%N
      as Hd by lia.
    by repeat destruct Hd as [->|Hd]; [..|rewrite Hd]. }
  f_equal. pose proof (N.div_mod x 10). lia.
Qed.

Lemma dec_go_pretty_N x : dec_go 0 (pretty x) = Some x.
Proof.
  unfold pretty, pretty_N. case_decide as Hx; [by rewrite Hx|]. by rewrite dec_go_pretty_N_go.
Qed.

Lemma pretty_N_go_digits x s :
  sforall is_ascii_digit s = true → sforall is_ascii_digit (pretty_N_go x s) = true.
Proof.
  revert s. induction (N.lt_wf_0 x) as [x _ IH]; intros s Hs.
  destruct (decide (x = 0)%N) as [->|Hx].
  { by rewrite pretty_N_go_0. }
  rewrite pretty_N_go_step by lia. apply IH; [apply N.div_lt; lia|].
  simpl. rewrite Hs, andb_true_r.
  by unfold pretty_N_char; repeat case_match.
Qed.

Lemma pretty_N_digits (x : N) : sforall is_ascii_digit (pretty x) = true.
Proof. unfold pretty, pretty_N. case_decide; [done|]. by apply pretty_N_go_digits. Qed.

Lemma append_cons a s t : (String a s ++ t)%string = String a (s ++ t).
Proof. done. Qed.

Lemma append_nil_l s : ("" ++ s)%string = s.
Proof. done. Qed.

Lemma append_nil_r s : (s ++ "")%string = s.
Proof. induction s as [|a s IH]; [done|]. by rewrite append_cons, IH. Qed.

Lemma append_assoc s t u : ((s ++ t) ++ u)%string = (s ++ (t ++ u))%string.
Proof. induction s as [|a s IH]; [done|]. by rewrite !append_cons, IH. Qed.

#[export] Hint Rewrite append_cons append_nil_l append_nil_r append_assoc : rust.

Lemma length_append s t : String.length (s ++ t) = (String.length s + String.length t)%nat.
Proof. induction s as [|a s IH]; [done|]. rewrite append_cons. simpl. by rewrite IH. Qed.

Lemma strip_prefix_Some p s r : strip_prefix p s = Some r ↔ s = (p ++ r)%string.
Proof.
  revert s. induction p as [|a p IH]; intros s; simpl.
  { rewrite append_nil_l. split; [by intros [= ->] | by intros ->]. }
  rewrite append_cons. destruct s as [|b s]; [by split|].
  destruct (Ascii.eqb_spec a b) as [->|Hne].
  - rewrite IH. split; [by intros -> | by intros [= ->]].
  - split; [done|]. intros [=]. congruence.
Qed.

Lemma starts_with_iff s p : starts_with s p = true ↔ ∃ r, s = (p ++ r)%string.
Proof.
  unfold starts_with. destruct (strip_prefix p s) as [r|] eqn:E; simpl.
  - split; [|done]. exists r. by apply strip_prefix_Some.
  - split; [done|]. intros [r Hr%strip_prefix_Some]. congruence.
Qed.

Lemma split_once_Some c s l r :
  split_once c s = Some (l, r) → s = (l ++ String c r)%string.
Proof.
  revert l. induction s as [|a s IH]; intros l; simpl; [done|].
  destruct (Ascii.eqb_spec a c) as [->|Hne].
  - by intros [= <- <-].
  - destruct (split_once c s) as [[l' r']|] eqn:E; [|done].
    intros [= <- <-]. rewrite append_cons. f_equal. by apply IH.
Qed.

Lemma split_once_app c l r :
  contains_char c l = false → split_once c (l ++ String c r) = Some (l, r).
Proof.
  induction l as [|a l IH].
  - intros _. rewrite append_nil_l. simpl. by rewrite Ascii.eqb_refl.
  - cbn. intros [Ha Hl]%orb_false_iff. rewrite append_cons. simpl.
    by rewrite Ascii.eqb_sym, Ha, IH.
Qed.

Lemma str_compare_eq a b : String.compare a b = Eq ↔ a = b.
Proof.
  split; [apply String.compare_eq_iff|]. intros <-.
  pose proof (String.compare_antisym a a) as H. by destruct (String.compare a a).
Qed.

Lemma str_leb_total a b : str_leb a b = true ∨ str_leb b a = true.
Proof. destruct (String.leb_total a b); auto. Qed.

Lemma str_leb_antisym a b : str_leb a b = true → str_leb b a = true → a = b.
Proof. apply String.leb_antisym. Qed.

Lemma str_leb_trans a b c : str_leb a b = true → str_leb b c = true → str_leb a c = true.
Proof.
  unfold str_leb. intros H1 H2.
  assert (Is_true (String.leb a c)) as H; [|by destruct (String.leb a c)].
  apply (transitivity (R := String.le) (y := b)); unfold String.le; [by rewrite H1|by rewrite H2].
Qed.

Lemma str_leb_refl a : str_leb a a = true.
Proof. by destruct (str_leb_total a a). Qed.

(** *** Characters of ASCII text *)

Lemma is_ascii_not_continuation a : is_ascii_byte a = true → is_continuation a = false.
Proof. unfold is_ascii_byte, is_continuation, in_range. rewrite N.ltb_lt. intros H.
  apply andb_false_iff. left. apply N.leb_gt. lia. Qed.

Lemma split_chars_ascii s :
  is_ascii s = true →
  split_chars s = ("", (λ a, String a "") <$> String.list_ascii_of_string s).
Proof.
  unfold is_ascii. induction s as [|a s IH]; simpl; [done|].
  intros [Ha Hs]%andb_true_iff. by rewrite IH, is_ascii_not_continuation.
Qed.

Lemma chars_ascii s :
  is_ascii s = true → chars s = (λ a, String a "") <$> String.list_ascii_of_string s.
Proof. intros H. unfold chars. by rewrite split_chars_ascii. Qed.

Lemma concat_singletons (l : list ascii) :
  String.concat "" ((λ a, String a "") <$> l) = String.string_of_list_ascii l.
Proof.
  induction l as [|a [|b l] IH]; [done|done|].
  change (String.concat "" _) with (String a "" ++ "" ++ String.concat "" ((λ a, String a "") <$> (b :: l)))%string.
  by rewrite IH.
Qed.

Lemma chars_take_ascii n s : is_ascii s = true → chars_take n s = stake n s.
Proof.
  intros H. unfold chars_take. rewrite chars_ascii by done.
  rewrite <-fmap_take, concat_singletons. clear H. revert n.
  induction s as [|a s IH]; intros [|n]; simpl; try done. by rewrite <-IH.
Qed.

Lemma chars_count_ascii s : is_ascii s = true → chars_count s = String.length s.
Proof.
  intros H. unfold chars_count. rewrite chars_ascii, length_fmap by done. clear H.
  induction s; simpl; auto.
Qed.

Lemma sforall_app f s t : sforall f (s ++ t) = sforall f s && sforall f t.
Proof.
  induction s as [|a s IH]; [done|]. rewrite append_cons. simpl. by rewrite IH, andb_assoc.
Qed.

Lemma sforall_impl (f g : ascii → bool) s :
  (∀ a, f a = true → g a = true) → sforall f s = true → sforall g s = true.
Proof.
  intros Hfg. induction s as [|a s IH]; simpl; [done|].
  intros [Ha Hs]%andb_true_iff. by rewrite (Hfg a), IH.
Qed.

Lemma sforall_stake f n s : sforall f s = true → sforall f (stake n s) = true.
Proof.
  revert n. induction s as [|a s IH]; intros [|n]; simpl; try done.
  intros [-> Hs]%andb_true_iff. simpl. auto.
Qed.

Lemma length_stake n s : (String.length (stake n s) ≤ n)%nat.
Proof. revert n. induction s as [|a s IH]; intros [|n]; simpl; try lia. specialize (IH n). lia. Qed.

(** Every byte of a trimmed string is a byte of the string. *)
Lemma sforall_trim_end f c s : sforall f s = true → sforall f (trim_end_char c s) = true.
Proof.
  induction s as [|a s IH]; simpl; [done|]. intros [Ha Hs]%andb_true_iff. specialize (IH Hs).
  destruct (trim_end_char c s); [destruct (Ascii.eqb a c)|]; simpl in *; by rewrite ?Ha.
Qed.

(** The bytes of every character are bytes of the string. *)
Lemma sforall_split_chars f s :
  sforall f s = true →
  sforall f (split_chars s).1 = true ∧ Forall (λ c, sforall f c = true) (split_chars s).2.
Proof.
  induction s as [|a s IH]; simpl; [done|]. intros [Ha Hs]%andb_true_iff.
  destruct (IH Hs) as [H1 H2]. destruct (split_chars s) as [cont cs]; simpl in *.
  destruct (is_continuation a); simpl; rewrite ?Ha; [done|]. split; [done|]. constructor; [|done].
  simpl. by rewrite Ha.
Qed.

Lemma sforall_chars f s : sforall f s = true → Forall (λ c, sforall f c = true) (chars s).
Proof. intros H. by apply sforall_split_chars. Qed.

Lemma sexists_false_sforall f s : sexists f s = false ↔ sforall (λ a, negb (f a)) s = true.
Proof.
  induction s as [|a s IH]; simpl; [done|]. rewrite orb_false_iff, andb_true_iff, negb_true_iff, IH. done.
Qed.

Lemma drop_ws_id l : Forall (λ c, is_whitespace c = false) l → drop_ws l = l.
Proof. destruct 1 as [|c l Hc Hl]; simpl; [done|]. by rewrite Hc. Qed.

Lemma string_of_list_of_string s : String.string_of_list_ascii (String.list_ascii_of_string s) = s.
Proof. induction s as [|a s IH]; simpl; [done|]. by rewrite IH. Qed.

(** ASCII text with no blank in it is its own trim. *)
Lemma trim_no_blank s :
  is_ascii s = true → sforall (λ a, negb (ws1 a)) s = true → trim s = s.
Proof.
  intros Ha Hw. unfold trim. rewrite chars_ascii by done.
  set (l := (λ a, String a "") <$> String.list_ascii_of_string s).
  assert (Forall (λ c, is_whitespace c = false) l) as Hl.
  { unfold l. clear Ha l. induction s as [|a s IH]; simpl in *; [constructor|].
    apply andb_true_iff in Hw as [Hw Hs]. constructor; [|by apply IH]. simpl. by apply negb_true_iff. }
  rewrite (drop_ws_id l) by done. rewrite drop_ws_id.
  - rewrite rev_involutive. unfold l. by rewrite concat_singletons, string_of_list_of_string.
  - by rewrite <-Permutation_rev.
Qed.

Lemma smap_id f s : sforall (λ a, Ascii.eqb (f a) a) s = true → smap f s = s.
Proof.
  induction s as [|a s IH]; simpl; [done|]. intros [Ha%Ascii.eqb_eq Hs]%andb_true_iff. by rewrite Ha, IH.
Qed.

(** ** Comparisons and numbers the messages use *)

(** [s.len()], in bytes. *)
Definition byte_len (s : string) : Z := Z.of_nat (String.length s).

(** [a.eq_ignore_ascii_case(b)]. *)
Definition eq_ignore_ascii_case (a b : string) : bool :=
  eqb (to_ascii_lowercase a) (to_ascii_lowercase b).

(** [s.parse::<usize>()] on a 64-bit target: an optional [+], then digits,
    within range. *)
Definition parse_usize (s : string) : option Z :=
  let digits := match strip_prefix "+" s with Some r => r | None => s end in
  if eqb digits "" then None
  else match dec_go 0 digits with
       | Some n => if (n <? 2 ^ 64)%N then Some (Z.of_N n) else None
       | None => None
       end.

(** [s.contains(p)] and [s.ends_with(p)] for a text. *)
Fixpoint contains_str (p s : string) : bool :=
  starts_with s p || match s with "" => false | String _ s' => contains_str p s' end.
Fixpoint ends_with_str (p s : string) : bool :=
  (eqb s p) || match s with "" => false | String _ s' => ends_with_str p s' end.

(** [parts.join(sep)]. *)
Definition join (sep : string) (parts : list string) : string := String.concat sep parts.

(** ** Characters are well formed, and a string is its characters *)

(** A character: a byte that is not a continuation, then continuations. *)
Definition char_shaped (c : string) : bool :=
  match c with
  | "" => false
  | String a s => negb (is_continuation a) && sforall is_continuation s
  end.

Lemma split_chars_shaped s :
  sforall is_continuation (split_chars s).1 = true ∧
  Forall (λ c, char_shaped c = true) (split_chars s).2.
Proof.
  induction s as [|a s [IH1 IH2]]; simpl; [by repeat constructor|].
  destruct (split_chars s) as [cont cs]; simpl in *.
  destruct (is_continuation a) eqn:Ea; simpl; rewrite ?Ea, ?IH1; [done|].
  split; [done|]. constructor; [|done]. simpl. by rewrite Ea, IH1.
Qed.

Lemma chars_shaped s : Forall (λ c, char_shaped c = true) (chars s).
Proof. apply split_chars_shaped. Qed.

Lemma split_chars_continuation s t :
  sforall is_continuation s = true →
  split_chars (s ++ t) = ((s ++ (split_chars t).1)%string, (split_chars t).2).
Proof.
  induction s as [|a s IH].
  { intros _. rewrite !append_nil_l. by destruct (split_chars t). }
  rewrite append_cons. simpl. intros [Ha Hs]%andb_true_iff. rewrite IH by done. simpl. by rewrite Ha.
Qed.

Lemma concat_cons c (l : list string) :
  String.concat "" (c :: l) = (c ++ String.concat "" l)%string.
Proof. destruct l; simpl; [by rewrite append_nil_r|done]. Qed.

Lemma split_chars_concat l :
  Forall (λ c, char_shaped c = true) l → split_chars (String.concat "" l) = ("", l).
Proof.
  induction 1 as [|c l Hc Hl IH]; [done|]. rewrite concat_cons.
  destruct c as [|a s]; [done|]. simpl in Hc. apply andb_true_iff in Hc as [Ha Hs].
  rewrite append_cons. simpl. rewrite split_chars_continuation, IH by done. simpl.
  apply negb_true_iff in Ha. by rewrite Ha, append_nil_r.
Qed.

Lemma chars_concat l : Forall (λ c, char_shaped c = true) l → chars (String.concat "" l) = l.
Proof. intros H. unfold chars. by rewrite split_chars_concat. Qed.

Lemma drop_ws_shaped l :
  Forall (λ c, char_shaped c = true) l → Forall (λ c, char_shaped c = true) (drop_ws l).
Proof. induction 1 as [|c l Hc Hl IH]; simpl; [done|]. destruct (is_whitespace c); auto. Qed.

Lemma drop_ws_idem l : drop_ws (drop_ws l) = drop_ws l.
Proof. induction l as [|c l IH]; simpl; [done|]. destruct (is_whitespace c) eqn:E; simpl; by rewrite ?E. Qed.

Lemma drop_ws_app l k :
  drop_ws (l ++ k)%list = match drop_ws l with [] => drop_ws k | l' => (l' ++ k)%list end.
Proof. induction l as [|c l IH]; simpl; [done|]. by destruct (is_whitespace c). Qed.

(** What is left after both ends were dropped starts with no blank. *)
Lemma drop_ws_rev_drop l : drop_ws (rev (drop_ws (rev (drop_ws l)))) = rev (drop_ws (rev (drop_ws l))).
Proof.
  destruct (drop_ws l) as [|c k] eqn:E; [done|].
  assert (is_whitespace c = false) as Hc.
  { revert E. clear. induction l as [|d l IH]; simpl; [done|].
    destruct (is_whitespace d) eqn:Ed; [done|]. by intros [= <- <-]. }
  simpl. rewrite drop_ws_app. destruct (drop_ws (rev k)) as [|d k'] eqn:Ek.
  - simpl. rewrite Hc. simpl. by rewrite Hc.
  - rewrite rev_app_distr. simpl. by rewrite Hc.
Qed.

Definition trim_chars (l : list string) : list string := rev (drop_ws (rev (drop_ws l))).

Lemma chars_trim s : chars (trim s) = trim_chars (chars s).
Proof.
  apply chars_concat. unfold trim_chars. rewrite <-Permutation_rev. apply drop_ws_shaped.
  rewrite <-Permutation_rev. apply drop_ws_shaped, chars_shaped.
Qed.

Lemma trim_idem s : trim (trim s) = trim s.
Proof.
  unfold trim at 1. rewrite chars_trim. unfold trim, trim_chars.
  by rewrite (drop_ws_rev_drop (chars s)), rev_involutive, drop_ws_idem.
Qed.

#[export] Hint Rewrite trim_idem : rust.

Lemma to_ascii_lowercase_digits s :
  sforall is_ascii_digit s = true → to_ascii_lowercase s = s.
Proof.
  intros Hs. apply smap_id. eapply sforall_impl; [|exact Hs]. intros a.
  by destruct a as [[] [] [] [] [] [] [] []]; vm_compute.
Qed.

(** A byte whose lower case is a digit is that digit. *)
Lemma to_ascii_lowercase_is_digits s t :
  sforall is_ascii_digit t = true → to_ascii_lowercase s = t → s = t.
Proof.
  intros Ht <-. revert Ht. induction s as [|a s IH]; simpl; [done|].
  intros [Ha Hs]%andb_true_iff.
  change (String a s = String (to_ascii_lowercase_byte a) (to_ascii_lowercase s)).
  rewrite <-(IH Hs). f_equal. revert Ha. clear.
  by destruct a as [[] [] [] [] [] [] [] []]; vm_compute.
Qed.

Lemma digits_ascii s : sforall is_ascii_digit s = true → is_ascii s = true.
Proof. apply sforall_impl. intros a. by destruct a as [[] [] [] [] [] [] [] []]; vm_compute. Qed.

Lemma digits_trim s : sforall is_ascii_digit s = true → trim s = s.
Proof.
  intros Hs. apply trim_no_blank; [by apply digits_ascii|]. eapply sforall_impl; [|exact Hs].
  intros a. by destruct a as [[] [] [] [] [] [] [] []]; vm_compute.
Qed.

Lemma pretty_N_nonempty (n : N) : (pretty n : string) ≠ "".
Proof. intros H. pose proof (dec_go_pretty_N n) as Hd. rewrite H in Hd. simpl in Hd. injection Hd as <-. by vm_compute in H. Qed.

Lemma pretty_N_unsigned (n : N) : strip_prefix "+" (pretty n) = None.
Proof.
  destruct (strip_prefix "+" (pretty n)) as [r|] eqn:E; [|done].
  pose proof (pretty_N_digits n) as Hd. apply strip_prefix_Some in E. by rewrite E in Hd.
Qed.

Lemma parse_usize_pretty (n : N) : (n < 2 ^ 64)%N → parse_usize (pretty n) = Some (Z.of_N n).
Proof.
  intros Hn. unfold parse_usize. rewrite pretty_N_unsigned, (proj2 (eqb_false _ _) (pretty_N_nonempty n)).
  rewrite dec_go_pretty_N. by apply N.ltb_lt in Hn as ->.
Qed.

Lemma parse_u32_pretty (n : N) : (n < 2 ^ 32)%N → parse_u32 (pretty n) = Some (Z.of_N n).
Proof.
  intros Hn. unfold parse_u32. rewrite pretty_N_unsigned, (proj2 (eqb_false _ _) (pretty_N_nonempty n)).
  rewrite dec_go_pretty_N. by apply N.ltb_lt in Hn as ->.
Qed.

(** ** Characters of valid text *)

Lemma continuation_not_ascii a : is_continuation a = true → is_ascii_byte a = false.
Proof. by destruct a as [[] [] [] [] [] [] [] []]; vm_compute. Qed.

Lemma lead_not_continuation a lo hi :
  in_range lo hi a = true → (192 <= lo)%N → is_continuation a = false.
Proof.
  unfold is_continuation, in_range. intros [H1%N.leb_le H2%N.leb_le]%andb_true_iff Hlo.
  apply andb_false_iff. right. apply N.leb_gt. lia.
Qed.

(** A character that starts with an ASCII byte is that byte. *)
Definition ascii_alone (c : string) : Prop :=
  match c with String a r => is_ascii_byte a = true → r = "" | "" => True end.

Lemma utf8_valid_chars s :
  utf8_valid s = true → (split_chars s).1 = "" ∧ Forall ascii_alone (chars s).
Proof.
  unfold chars. remember (String.length s) as n eqn:Hn. revert s Hn.
  induction (lt_wf n) as [n _ IH]. intros s -> Hv.
  destruct s as [|a s1]; [by repeat constructor|]. simpl in Hv.
  destruct (is_ascii_byte a) eqn:Ha.
  { destruct (IH (String.length s1) ltac:(simpl; lia) s1 eq_refl Hv) as [H1 H2].
    simpl. destruct (split_chars s1) as [c cs]; simpl in *. subst c.
    rewrite is_ascii_not_continuation by done. by repeat constructor. }
  destruct s1 as [|b s2]; [done|]. destruct (in_range 194 223 a) eqn:E2.
  { apply andb_true_iff in Hv as [Hb Hv].
    destruct (IH (String.length s2) ltac:(simpl; lia) s2 eq_refl Hv) as [H1 H2].
    cbn [split_chars]. destruct (split_chars s2) as [c cs]; simpl in *. subst c. rewrite Hb.
    rewrite (lead_not_continuation a 194 223) by (done || lia). simpl. split; [done|]. constructor; [simpl; congruence|done]. }
  destruct s2 as [|c s3]; [done|]. destruct (in_range 224 239 a) eqn:E3.
  { apply andb_true_iff in Hv as [Hv Hv3]. apply andb_true_iff in Hv as [Hb Hc].
    assert (is_continuation b = true) as Hb'.
    { unfold is_continuation, in_range in *. repeat case_match; rewrite !andb_true_iff, !N.leb_le in *; lia. }
    destruct (IH (String.length s3) ltac:(simpl; lia) s3 eq_refl Hv3) as [H1 H2].
    cbn [split_chars]. destruct (split_chars s3) as [d cs]; simpl in *. subst d. rewrite Hb', Hc.
    rewrite (lead_not_continuation a 224 239) by (done || lia). simpl. split; [done|]. constructor; [simpl; congruence|done]. }
  destruct s3 as [|d s4]; [done|].
  apply andb_true_iff in Hv as [Hv Hv4]. apply andb_true_iff in Hv as [Hv Hd].
  apply andb_true_iff in Hv as [Hv Hc]. apply andb_true_iff in Hv as [E4 Hb].
  assert (is_continuation b = true) as Hb'.
  { unfold is_continuation, in_range in *. repeat case_match; rewrite !andb_true_iff, !N.leb_le in *; lia. }
  destruct (IH (String.length s4) ltac:(simpl; lia) s4 eq_refl Hv4) as [H1 H2].
  cbn [split_chars]. destruct (split_chars s4) as [e cs]; simpl in *. subst e. rewrite Hb', Hc, Hd.
  rewrite (lead_not_continuation a 240 244) by (done || lia). simpl. split; [done|]. constructor; [simpl; congruence|done].
Qed.

Lemma concat_split_chars s : ((split_chars s).1 ++ String.concat "" (split_chars s).2)%string = s.
Proof.
  induction s as [|a s IH]; [done|]. cbn [split_chars]. destruct (split_chars s) as [c cs]; cbn [fst snd] in *.
  destruct (is_continuation a); cbn [fst snd].
  - by rewrite append_cons, IH.
  - rewrite append_nil_l, concat_cons, append_cons. by rewrite IH.
Qed.

Lemma concat_chars_valid s : utf8_valid s = true → String.concat "" (chars s) = s.
Proof.
  intros Hv. apply utf8_valid_chars in Hv as [H _]. pose proof (concat_split_chars s) as Hc.
  by rewrite H, append_nil_l in Hc.
Qed.

(** ** Searching, splitting at a string, lines *)

(** [s.find(p)], as what comes before and after the first occurrence. *)
Fixpoint split_str (p s : string) : option (string * string) :=
  match strip_prefix p s with
  | Some rest => Some ("", rest)
  | None =>
      match s with
      | "" => None
      | String a s' => match split_str p s' with Some (l, r) => Some (String a l, r) | None => None end
      end
  end.

(** [s.split(p)], a turn for each byte. *)
Fixpoint split_all (turns : nat) (p s : string) : list string :=
  match turns with
  | O => [s]
  | S turns' => match split_str p s with Some (l, r) => l :: split_all turns' p r | None => [s] end
  end.
Definition replace_str (p r s : string) : string := join r (split_all (String.length s) p s).

Definition carriage_return : ascii := "013".
Definition newline_str : string := String "010" "".
Definition quote_mark : string := String "034" "".
Definition ellipsis : string := String "226" (String "128" (String "166" "")).

Fixpoint strip_last_cr (s : string) : string :=
  match s with
  | "" => ""
  | String a "" => if Ascii.eqb a carriage_return then "" else s
  | String a s' => String a (strip_last_cr s')
  end.

(** [s.lines()]: what ends with a line feed, a carriage return before it
    dropped too, and what is left after the last one. *)
Definition lines_of (s : string) : list string :=
  let parts := split_char "010" s in
  app (strip_last_cr <$> removelast parts)
      (match last parts with Some l => if eqb l "" then [] else [l] | None => [] end).

Fixpoint drop_prefix_char (c : ascii) (s : string) : string :=
  match s with String a s' => if Ascii.eqb a c then drop_prefix_char c s' else s | "" => "" end.

(** [s.trim_start()] *)
Definition trim_start (s : string) : string := String.concat "" (drop_ws (chars s)).

(** [s.trim_end()] *)
Definition trim_end (s : string) : string := String.concat "" (rev (drop_ws (rev (chars s)))).

(** [str::parse::<i64>] *)
Definition parse_i64 (s : string) : option Z :=
  let '(neg, digits) := match s with
                        | String a rest => if Ascii.eqb a "-" then (true, rest)
                                           else if Ascii.eqb a "+" then (false, rest) else (false, s)
                        | "" => (false, "")
                        end in
  if eqb digits "" then None
  else match dec_go 0 digits with
       | Some n => let z := if neg then (- Z.of_N n)%Z else Z.of_N n in
                   if ((- 2 ^ 63 <=? z) && (z <? 2 ^ 63))%Z then Some z else None
       | None => None
       end.

(** The scalar value of a character given by its bytes. *)
Definition code_point (c : string) : N :=
  match c with
  | "" => 0
  | String a "" => byte_val a
  | String a (String b "") => (byte_val a mod 32) * 64 + byte_val b mod 64
  | String a (String b (String d "")) =>
      (byte_val a mod 16) * 4096 + (byte_val b mod 64) * 64 + byte_val d mod 64
  | String a (String b (String d (String e _))) =>
      (byte_val a mod 8) * 262144 + (byte_val b mod 64) * 4096 + (byte_val d mod 64) * 64 + byte_val e mod 64
  end%N.

(** [s.rsplit_once(c)] for one ASCII character. *)
Fixpoint rsplit_once (c : ascii) (s : string) : option (string * string) :=
  match s with
  | "" => None
  | String a s' =>
      match rsplit_once c s' with
      | Some (l, r) => Some (String a l, r)
      | None => if Ascii.eqb a c then Some ("", s') else None
      end
  end.

(** [s.strip_suffix(p)] *)
Fixpoint strip_suffix (p s : string) : option string :=
  if eqb s p then Some ""
  else match s with
       | "" => None
       | String a s' => match strip_suffix p s' with Some r => Some (String a r) | None => None end
       end.

(** ** Characters of appended texts *)

(** A text that starts with a character, not in the middle of one. *)
Definition starts_char (s : string) : Prop := (split_chars s).1 = "".

Lemma split_chars_app s t :
  starts_char t → split_chars (s ++ t) = ((split_chars s).1, app (chars s) (chars t)).
Proof.
  unfold starts_char, chars. intros Ht. induction s as [|a s IH].
  - rewrite append_nil_l. simpl. rewrite <-Ht. by destruct (split_chars t).
  - rewrite append_cons. simpl. rewrite IH. destruct (split_chars s) as [cont cs]. simpl.
    by destruct (is_continuation a).
Qed.

Lemma chars_app s t : starts_char t → chars (s ++ t) = app (chars s) (chars t).
Proof. intros Ht. unfold chars at 1. by rewrite split_chars_app. Qed.

Lemma starts_char_app s t : starts_char s → starts_char t → starts_char (s ++ t).
Proof. intros Hs Ht. unfold starts_char. by rewrite split_chars_app. Qed.

Lemma starts_char_concat l : Forall (λ c, char_shaped c = true) l → starts_char (String.concat "" l).
Proof. intros Hl. unfold starts_char. by rewrite split_chars_concat. Qed.

Lemma starts_char_ascii s : is_ascii s = true → starts_char s.
Proof.
  intros Hs. unfold starts_char. destruct s as [|a s]; [done|]. simpl in *. apply andb_true_iff in Hs as [Ha _].
  rewrite is_ascii_not_continuation by done. by destruct (split_chars s).
Qed.

Lemma chars_count_app s t : starts_char t → chars_count (s ++ t) = (chars_count s + chars_count t)%nat.
Proof. intros Ht. unfold chars_count. by rewrite chars_app, length_app by done. Qed.

Lemma chars_count_take n s : chars_count (chars_take n s) = Nat.min n (chars_count s).
Proof.
  unfold chars_count, chars_take. rewrite chars_concat; [apply length_take|]. apply Forall_take, chars_shaped.
Qed.

(** ** Characters that are not there *)

(** An ASCII byte that is no character of a text is no byte of it. *)
Lemma shaped_without (a : ascii) c :
  is_ascii_byte a = true → char_shaped c = true → ascii_alone c → c ≠ String a "" → contains_char a c = false.
Proof.
  intros Ha Hs Hal Hne. destruct c as [|b r]; [done|]. simpl in Hs. apply andb_true_iff in Hs as [_ Hr].
  unfold contains_char. cbn [sexists]. apply orb_false_iff. split.
  - destruct (Ascii.eqb_spec a b) as [<-|]; [|done]. by rewrite (Hal Ha) in Hne.
  - clear -Ha Hr. induction r as [|b r IH]; [done|]. cbn [sforall sexists] in *. apply andb_true_iff in Hr as [Hb Hr].
    rewrite IH by done. destruct (Ascii.eqb_spec a b) as [<-|]; [|done].
    by rewrite is_ascii_not_continuation in Hb.
Qed.

Lemma contains_char_app a s t : contains_char a (s ++ t) = contains_char a s || contains_char a t.
Proof.
  unfold contains_char. induction s as [|b s IH]; [by rewrite append_nil_l|]. rewrite append_cons. cbn [sexists].
  by rewrite IH, orb_assoc.
Qed.

Lemma concat_without (a : ascii) l :
  is_ascii_byte a = true → Forall (λ c, char_shaped c = true ∧ ascii_alone c ∧ c ≠ String a "") l →
  contains_char a (String.concat "" l) = false.
Proof.
  intros Ha. induction 1 as [|c l (Hs & Hal & Hne) _ IH]; [done|].
  by rewrite concat_cons, contains_char_app, IH, shaped_without.
Qed.
