(* ===== verification/Order.v ===== *)
(** * Ordering by a key

    Rust's [Ord] as a type class with its laws, the derived orders of [Option],
    tuples and [Reverse], and the two ways the sources order by a key:
    [sort_by_key] / [sort_by_cached_key] (stable) and [min_by_key] (the first
    of several least elements). *)

From S2P Require Import Prelude RustStr.

Class RustOrd (A : Type) := {
  cmp : A → A → comparison;
  cmp_eq : ∀ a b, cmp a b = Eq ↔ a = b;
  cmp_opp : ∀ a b, cmp b a = CompOpp (cmp a b);
  cmp_lt_trans : ∀ a b c, cmp a b = Lt → cmp b c = Lt → cmp a c = Lt;
}.

Section Laws.
Context `{RustOrd A}.
Implicit Types a b c : A.

Lemma cmp_refl a : cmp a a = Eq.
Proof. by apply cmp_eq. Qed.

Definition cmp_le a b : Prop := cmp a b ≠ Gt.

Lemma cmp_le_refl a : cmp_le a a.
Proof. unfold cmp_le. by rewrite cmp_refl. Qed.

Lemma cmp_le_total a b : cmp_le a b ∨ cmp_le b a.
Proof. unfold cmp_le. rewrite (cmp_opp a b). destruct (cmp a b); simpl; auto. Qed.

Lemma cmp_le_trans a b c : cmp_le a b → cmp_le b c → cmp_le a c.
Proof.
  unfold cmp_le. intros H1 H2.
  destruct (cmp a b) eqn:E1; [apply cmp_eq in E1 as ->; done| |done].
  destruct (cmp b c) eqn:E2; [apply cmp_eq in E2 as ->; by rewrite E1| |done].
  by rewrite (cmp_lt_trans a b c).
Qed.

Lemma cmp_le_antisym a b : cmp_le a b → cmp_le b a → a = b.
Proof.
  unfold cmp_le. rewrite (cmp_opp a b). intros H1 H2. apply cmp_eq.
  by destruct (cmp a b).
Qed.
End Laws.

(** ** The orders the sources use *)

Global Instance Z_ord : RustOrd Z.
Proof.
  refine {| cmp := Z.compare |}.
  - apply Z.compare_eq_iff.
  - intros a b. apply Z.compare_antisym.
  - intros a b c. rewrite !Z.compare_lt_iff. lia.
Defined.

Definition bool_cmp (a b : bool) : comparison :=
  match a, b with
  | false, true => Lt
  | true, false => Gt
  | _, _ => Eq
  end.
Global Instance bool_ord : RustOrd bool.
Proof. refine {| cmp := bool_cmp |}; by intros [] []; try intros []. Defined.

Global Instance string_ord : RustOrd string.
Proof.
  refine {| cmp := String.compare |}.
  - apply str_compare_eq.
  - intros a b. apply String.compare_antisym.
  - intros a b c H1 H2.
    assert (str_leb a c = true) as Hle.
    { apply (str_leb_trans a b c); unfold str_leb, String.leb; [by rewrite H1|by rewrite H2]. }
    revert Hle. unfold str_leb, String.leb. destruct (String.compare a c) eqn:E; [|done|done].
    intros _. apply str_compare_eq in E as ->. rewrite String.compare_antisym, H1 in H2. done.
Defined.

Definition option_cmp `{RustOrd A} (a b : option A) : comparison :=
  match a, b with
  | None, None => Eq
  | None, Some _ => Lt
  | Some _, None => Gt
  | Some a, Some b => cmp a b
  end.
Global Instance option_ord `{RustOrd A} : RustOrd (option A).
Proof.
  refine {| cmp := option_cmp |}.
  - intros [a|] [b|]; simpl; try done. rewrite cmp_eq. naive_solver.
  - intros [a|] [b|]; simpl; try done. apply cmp_opp.
  - intros [a|] [b|] [c|]; simpl; try done. apply cmp_lt_trans.
Defined.

Definition prod_cmp `{RustOrd A, RustOrd B} (x y : A * B) : comparison :=
  match cmp x.1 y.1 with Eq => cmp x.2 y.2 | c => c end.
Global Instance prod_ord `{RustOrd A, RustOrd B} : RustOrd (A * B).
Proof.
  refine {| cmp := prod_cmp |}; unfold prod_cmp.
  - intros [a b] [a' b']; simpl. destruct (cmp a a') eqn:E.
    + apply cmp_eq in E as ->. rewrite cmp_eq. naive_solver.
    + split; [done|]. intros [= -> ->]. by rewrite cmp_refl in E.
    + split; [done|]. intros [= -> ->]. by rewrite cmp_refl in E.
  - intros [a b] [a' b']; simpl. rewrite (cmp_opp a a').
    destruct (cmp a a'); simpl; [apply cmp_opp|done|done].
  - intros [a1 b1] [a2 b2] [a3 b3]; simpl.
    destruct (cmp a1 a2) eqn:E1; [apply cmp_eq in E1 as ->| |done];
      destruct (cmp a2 a3) eqn:E2; try done.
    + apply cmp_lt_trans.
    + apply cmp_eq in E2 as ->. by rewrite E1.
    + by rewrite (cmp_lt_trans a1 a2 a3).
Defined.

(** [Vec] and iterators: element by element, a prefix first. *)
Fixpoint list_cmp `{RustOrd A} (l k : list A) : comparison :=
  match l, k with
  | [], [] => Eq
  | [], _ :: _ => Lt
  | _ :: _, [] => Gt
  | x :: l', y :: k' => match cmp x y with Eq => list_cmp l' k' | c => c end
  end.
Global Instance list_ord `{RustOrd A} : RustOrd (list A).
Proof.
  refine {| cmp := list_cmp |}.
  - intros l. induction l as [|x l IH]; intros [|y k]; simpl; try done. destruct (cmp x y) eqn:E.
    + apply cmp_eq in E as ->. rewrite IH. naive_solver.
    + split; [done|]. intros [= -> ->]. by rewrite cmp_refl in E.
    + split; [done|]. intros [= -> ->]. by rewrite cmp_refl in E.
  - intros l. induction l as [|x l IH]; intros [|y k]; simpl; try done. rewrite (cmp_opp x y).
    destruct (cmp x y); simpl; [apply IH|done|done].
  - intros l. induction l as [|x l IH]; intros [|y k] [|z m]; simpl; try done.
    destruct (cmp x y) eqn:E1; [apply cmp_eq in E1 as ->| |done];
      destruct (cmp y z) eqn:E2; try done.
    + apply IH.
    + apply cmp_eq in E2 as ->. by rewrite E1.
    + by rewrite (cmp_lt_trans x y z).
Defined.

(** [std::cmp::Reverse]. *)
Record Reverse (A : Type) := Rev { unrev : A }.
Global Arguments Rev {A} unrev.
Global Arguments unrev {A} r.
Global Instance Reverse_ord `{RustOrd A} : RustOrd (Reverse A).
Proof.
  refine {| cmp := λ x y, cmp (unrev y) (unrev x) |}.
  - intros [a] [b]; simpl. rewrite cmp_eq. naive_solver.
  - intros [a] [b]; simpl. apply cmp_opp.
  - intros [a] [b] [c]; simpl. intros H1 H2. by apply (cmp_lt_trans c b a).
Defined.

(** ** Sorting and choosing by a key *)

Section ByKey.
Context `{RustOrd K} {A : Type} (key : A → K).

Definition key_leb (a b : A) : bool := match cmp (key a) (key b) with Gt => false | _ => true end.

Lemma key_leb_le a b : key_leb a b = true ↔ cmp_le (key a) (key b).
Proof. unfold key_leb, cmp_le. destruct (cmp (key a) (key b)); naive_solver. Qed.

(** [Vec::sort_by_key]. *)
Definition sort_by_key (l : list A) : list A := sort_by key_leb l.

Lemma sort_by_key_sorted l : StronglySorted (λ a b, cmp_le (key a) (key b)) (sort_by_key l).
Proof.
  assert (StronglySorted (λ a b, key_leb a b = true) (sort_by_key l)) as Hs.
  { apply sort_by_sorted.
    - intros a b. rewrite !key_leb_le. apply cmp_le_total.
    - intros a b c. rewrite !key_leb_le. apply cmp_le_trans. }
  induction Hs as [|a l' _ IH Hall]; constructor; [done|].
  eapply Forall_impl; [exact Hall|]. intros b. by rewrite key_leb_le.
Qed.

Lemma sort_by_key_perm l : sort_by_key l ≡ₚ l.
Proof. apply sort_by_perm. Qed.

Lemma elem_of_sort_by_key x l : x ∈ sort_by_key l ↔ x ∈ l.
Proof. apply elem_of_sort_by. Qed.

Lemma sort_by_key_order_independent l k :
  l ≡ₚ k → (∀ a b, a ∈ l → b ∈ l → key a = key b → a = b) → sort_by_key l = sort_by_key k.
Proof.
  intros Hp Hinj. apply sort_by_order_independent; [| |done|].
  - intros a b. rewrite !key_leb_le. apply cmp_le_total.
  - intros a b c. rewrite !key_leb_le. apply cmp_le_trans.
  - intros a b Ha Hb. rewrite !key_leb_le. intros H1 H2.
    apply Hinj; [done..|]. by apply cmp_le_antisym.
Qed.

(** [Iterator::min_by_key]: the first least element. *)
Definition min_step (best : option A) (x : A) : option A :=
  match best with
  | None => Some x
  | Some b => if key_leb b x then Some b else Some x
  end.
Definition min_by_key (l : list A) : option A := foldl min_step None l.

Lemma min_by_key_from b l :
  ∃ m, foldl min_step (Some b) l = Some m ∧ m ∈ b :: l ∧
       ∀ x, x ∈ b :: l → cmp_le (key m) (key x).
Proof.
  revert b. induction l as [|a l IH]; intros b; simpl.
  - exists b. split; [done|]. split; [left|].
    intros x Hx%list_elem_of_singleton. subst. apply cmp_le_refl.
  - destruct (key_leb b a) eqn:E.
    + destruct (IH b) as (m & Hm & Hin & Hle). exists m. split; [done|]. split; [set_solver|].
      intros x Hx. apply key_leb_le in E.
      apply elem_of_cons in Hx as [->|Hx]; [apply Hle; left|].
      apply elem_of_cons in Hx as [->|Hx]; [|apply Hle; by right].
      eapply cmp_le_trans; [apply Hle; left|done].
    + destruct (IH a) as (m & Hm & Hin & Hle). exists m. split; [done|]. split; [set_solver|].
      intros x Hx. apply elem_of_cons in Hx as [->|Hx]; [|by apply Hle].
      eapply cmp_le_trans; [apply Hle; left|].
      destruct (cmp_le_total (key a) (key b)) as [|Hba]; [done|].
      apply key_leb_le in Hba. congruence.
Qed.

Lemma min_by_key_Some l m :
  min_by_key l = Some m → m ∈ l ∧ ∀ x, x ∈ l → cmp_le (key m) (key x).
Proof.
  destruct l as [|a l]; [done|]. unfold min_by_key. simpl.
  destruct (min_by_key_from a l) as (m' & -> & Hin & Hle). intros [= <-]. done.
Qed.

Lemma min_by_key_None l : min_by_key l = None ↔ l = [].
Proof.
  destruct l as [|a l]; [done|]. unfold min_by_key. simpl.
  destruct (min_by_key_from a l) as (m' & -> & _). done.
Qed.

(** With distinct keys the choice does not depend on the order. *)
Lemma min_by_key_order_independent l k :
  l ≡ₚ k → (∀ a b, a ∈ l → b ∈ l → key a = key b → a = b) → min_by_key l = min_by_key k.
Proof.
  intros Hp Hinj. destruct (min_by_key l) as [m|] eqn:El.
  - apply min_by_key_Some in El as [Hm Hle].
    destruct (min_by_key k) as [m'|] eqn:Ek.
    + apply min_by_key_Some in Ek as [Hm' Hle']. f_equal.
      apply Hinj; [done|by rewrite Hp|].
      apply cmp_le_antisym; [apply Hle; by rewrite Hp|apply Hle'; by rewrite <-Hp].
    + apply min_by_key_None in Ek as ->. apply Permutation_nil_r in Hp. subst. set_solver.
  - apply min_by_key_None in El as ->. apply Permutation_nil_l in Hp. by subst.
Qed.
End ByKey.

(** [Iterator::max_by_key]: the last greatest element. *)
Definition max_by_key `{RustOrd K} {A} (key : A → K) (l : list A) : option A :=
  min_by_key (λ x, Rev (key x)) (rev l).

Lemma max_by_key_Some `{RustOrd K} {A} (key : A → K) l m :
  max_by_key key l = Some m → m ∈ l ∧ ∀ x, x ∈ l → cmp_le (key x) (key m).
Proof.
  intros [Hin Hle]%min_by_key_Some. rewrite list_elem_of_In, <-in_rev, <-list_elem_of_In in Hin. split; [done|].
  intros x Hx. apply (Hle x). by rewrite list_elem_of_In, <-in_rev, <-list_elem_of_In.
Qed.

Lemma max_by_key_None `{RustOrd K} {A} (key : A → K) l : max_by_key key l = None ↔ l = [].
Proof.
  unfold max_by_key. rewrite min_by_key_None. split; [|by intros ->].
  intros E. apply (f_equal (@rev A)) in E. by rewrite rev_involutive in E.
Qed.

(** ** [BTreeMap] and [BTreeSet]: iteration in key order *)

Definition btree_iter {V} (m : gmap string V) : list (string * V) :=
  sort_by_key fst (map_to_list m).
Definition btree_set_iter (s : gset string) : list string := sort_by_key id (elements s).

Lemma elem_of_btree_iter {V} (m : gmap string V) k v : (k, v) ∈ btree_iter m ↔ m !! k = Some v.
Proof. unfold btree_iter. by rewrite elem_of_sort_by_key, elem_of_map_to_list. Qed.

Lemma elem_of_btree_set_iter s x : x ∈ btree_set_iter s ↔ x ∈ s.
Proof. unfold btree_set_iter. by rewrite elem_of_sort_by_key, elem_of_elements. Qed.
