(* ===== verification/Path.v ===== *)
(** * Paths

    What the sources use of [std::path] on Unix, over the components of a
    path. A path that is cut off or put together is spelled in its normal
    form, which is the same path: two paths are equal when their components
    are. *)

From Stdlib Require Import Ascii.
From S2P Require Import Prelude RustStr Order.

Local Open Scope rust_scope.
Local Open Scope string_scope.

(** [std::path::Component] *)
Inductive Component :=
| RootDir
| CurDir
| ParentDir
| Normal (name : string).

Global Instance Component_eq_dec : EqDecision Component.
Proof. solve_decision. Defined.

Definition component_of (c : string) : Component :=
  if c == "." then CurDir else if c == ".." then ParentDir else Normal c.

(** [Path::components] *)
Definition components (p : string) : list Component :=
  let '(abs, cs) := path_components p in app (if abs then [RootDir] else []) (component_of <$> cs).

(** The order of components, which is the order of paths. *)
Definition component_key (c : Component) : Z * string :=
  match c with RootDir => (0%Z, "") | CurDir => (1%Z, "") | ParentDir => (2%Z, "") | Normal n => (3%Z, n) end.

Definition path_key (p : string) : list (Z * string) := component_key <$> components p.
Definition path_leb (p q : string) : bool := key_leb path_key p q.

Fixpoint strip_components (base p : list Component) : option (list Component) :=
  match base, p with
  | [], _ => Some p
  | b :: base', c :: p' => if b == c then strip_components base' p' else None
  | _ :: _, [] => None
  end.

(** [Path::strip_prefix] and [Path::starts_with] *)
Definition path_strip_prefix (p base : string) : option (list Component) :=
  strip_components (components base) (components p).
Definition path_starts_with (p base : string) : bool := is_some (path_strip_prefix p base).

Definition component_str (c : Component) : string :=
  match c with RootDir => "/" | CurDir => "." | ParentDir => ".." | Normal n => n end.

(** The components as a path: [Components::as_path] and [collect]. *)
Definition path_of (cs : list Component) : string :=
  match cs with
  | RootDir :: rest => "/" ++ join "/" (component_str <$> rest)
  | _ => join "/" (component_str <$> cs)
  end.

(** [base.join(relative)] of a relative path. *)
Definition path_join (base : string) (relative : list Component) : string :=
  (if (base == "") || ends_with_char "/" base then base else base ++ "/") ++ path_of relative.

(** [Path::parent]: all but the last component, when that is a name, [.] or [..]. *)
Definition path_parent (cs : list Component) : option (list Component) :=
  match last cs with
  | Some RootDir | None => None
  | Some _ => Some (take (length cs - 1) cs)
  end.

(** ** Facts *)

Module PathFacts.

Lemma strip_components_Some base p r : strip_components base p = Some r ↔ p = app base r.
Proof.
  revert p. induction base as [|b base IH]; intros p; simpl; [split; congruence|].
  destruct p as [|c p]; [done|]. destruct (b == c) eqn:E; split_and_bool.
  - subst. rewrite IH. naive_solver.
  - split; [done|]. intros [= ? ?]. congruence.
Qed.

(** *** The order of paths is an order *)

Global Instance component_key_inj : Inj (=) (=) component_key.
Proof. intros [] []; simpl; naive_solver. Qed.

Lemma component_of_not_root c : component_of c ≠ RootDir.
Proof. unfold component_of. by repeat case_match. Qed.

Global Instance component_of_inj : Inj (=) (=) component_of.
Proof. intros a b. unfold component_of. repeat case_match; split_and_bool; naive_solver. Qed.

Lemma components_inj p q : components p = components q ↔ path_components p = path_components q.
Proof.
  unfold components. split; [|by intros ->].
  destruct (path_components p) as [[] cs], (path_components q) as [[] ds]; simpl.
  - intros [= E]. by apply (inj _) in E as ->.
  - destruct ds as [|d ds]; [done|]. intros [= E]. by destruct (component_of_not_root d).
  - destruct cs as [|c cs]; [done|]. intros [= E]. by destruct (component_of_not_root c).
  - intros E. by apply (inj _) in E as ->.
Qed.

Lemma path_key_inj p q : path_key p = path_key q ↔ path_components p = path_components q.
Proof. rewrite <-components_inj. unfold path_key. split; [apply (inj _)|by intros ->]. Qed.

(** *** Joined paths *)

Lemma split_char_nonempty c s : split_char c s ≠ [].
Proof. destruct s as [|a s]; simpl; [done|]. repeat case_match; done. Qed.

Lemma split_char_app c s t : split_char c (s ++ String c t) = app (split_char c s) (split_char c t).
Proof.
  induction s as [|a s IH]; autorewrite with rust; simpl.
  - by rewrite Ascii.eqb_refl.
  - rewrite IH. destruct (Ascii.eqb a c); [done|]. by destruct (split_char c s) eqn:E; [destruct (split_char_nonempty c s)|].
Qed.

Lemma split_char_none c s : contains_char c s = false → split_char c s = [s].
Proof.
  unfold contains_char. induction s as [|a s IH]; simpl; [done|]. rewrite orb_false_iff, Ascii.eqb_sym.
  intros [-> Hs]. by rewrite IH.
Qed.

Lemma split_char_parts c s : Forall (λ w, contains_char c w = false) (split_char c s).
Proof.
  unfold contains_char. induction s as [|a s IH]; simpl; [by repeat constructor|].
  destruct (Ascii.eqb a c) eqn:E; [by constructor|].
  destruct (split_char c s) as [|w ws]; inversion IH; subst; repeat constructor; simpl; rewrite ?(Ascii.eqb_sym c a), ?E; done.
Qed.

Lemma split_char_join c l :
  l ≠ [] → Forall (λ w, contains_char c w = false) l → split_char c (join (String c "") l) = l.
Proof.
  unfold join. intros Hne Hl. induction Hl as [|w l Hw Hl IH]; [done|]. destruct l as [|v l].
  - simpl. by apply split_char_none.
  - change (String.concat (String c "") (w :: v :: l)) with (w ++ String c "" ++ String.concat (String c "") (v :: l)).
    autorewrite with rust. rewrite split_char_app, split_char_none, IH by done. done.
Qed.

(** A name: not empty, not [.] nor [..], and no separator in it. *)
Definition name_ok (n : string) : Prop := n ≠ "" ∧ n ≠ "." ∧ n ≠ ".." ∧ contains_char "/" n = false.

Definition plain_part (c : string) : bool := negb (eqb c "") && negb (eqb c ".").

Lemma path_components_eq p :
  path_components p =
  if starts_with p "/" then (true, filter plain_part (split_char "/" p))
  else match split_char "/" p with
       | first :: rest => (false, app (if eqb first "." then ["."] else filter plain_part [first]) (filter plain_part rest))
       | [] => (false, [])
       end.
Proof. done. Qed.

Lemma plain_names ns : Forall name_ok ns → filter plain_part ns = ns.
Proof.
  induction 1 as [|n ns (H1 & H2 & _) _ IH]; [done|]. rewrite filter_cons_True, IH; [done|].
  unfold plain_part. by rewrite !(proj2 (eqb_false _ _)).
Qed.

Lemma names_components ns : Forall name_ok ns → component_of <$> ns = Normal <$> ns.
Proof.
  induction 1 as [|n ns (_ & H2 & H3 & _) _ IH]; csimpl; [done|]. rewrite IH. f_equal.
  unfold component_of. by rewrite !(proj2 (eqb_false _ _)).
Qed.

Lemma starts_with_head a s t : starts_with (String a s) "/" = starts_with (String a t) "/".
Proof. unfold starts_with. cbn -[Ascii.eqb]. by destruct (Ascii.eqb "/" a). Qed.

(** What stands before a separator, and what follows it. *)
Lemma path_components_app p r :
  path_components (p ++ String "/" r) =
  ((path_components (p ++ "/")).1, app (path_components (p ++ "/")).2 (filter plain_part (split_char "/" r))).
Proof.
  rewrite !path_components_eq.
  assert (starts_with (p ++ String "/" r) "/" = starts_with (p ++ "/") "/") as ->
    by (destruct p; autorewrite with rust; [done|apply starts_with_head]).
  rewrite !split_char_app. simpl (split_char "/" ""). pose proof (split_char_nonempty "/" p).
  destruct (split_char "/" p) as [|first rest]; [done|]. simpl app. destruct (starts_with (p ++ "/") "/"); simpl.
  - rewrite !app_comm_cons, !filter_app. simpl. by rewrite app_nil_r.
  - rewrite !filter_app. simpl. by rewrite app_nil_r, app_assoc.
Qed.

Lemma path_components_slash p : p ≠ "" → path_components (p ++ "/") = path_components p.
Proof.
  intros Hp. rewrite !path_components_eq.
  assert (starts_with (p ++ "/") "/" = starts_with p "/") as ->
    by (destruct p; autorewrite with rust; [done|apply starts_with_head]).
  rewrite split_char_app. simpl (split_char "/" ""). pose proof (split_char_nonempty "/" p).
  destruct (split_char "/" p) as [|first rest]; [done|]. simpl app. destruct (starts_with p "/"); simpl.
  - rewrite app_comm_cons, filter_app. simpl. by rewrite app_nil_r.
  - rewrite filter_app. simpl. by rewrite app_nil_r.
Qed.

Lemma ends_with_char_split c s : ends_with_char c s = true → ∃ p, s = p ++ String c "".
Proof.
  induction s as [|a s IH]; [done|]. simpl. destruct s as [|b s].
  - intros ->%Ascii.eqb_eq. by exists "".
  - intros H. destruct (IH H) as [p ->]. by exists (String a p).
Qed.

Lemma path_of_names ns : path_of (Normal <$> ns) = join "/" ns.
Proof.
  assert (component_str <$> (Normal <$> ns) = ns) as E.
  { rewrite <-list_fmap_compose. induction ns as [|n ns IH]; csimpl; [done|]. by rewrite IH. }
  unfold path_of. rewrite E. by destruct ns.
Qed.

(** [base.join(relative)] is what its components say. *)
Lemma split_names n ns : Forall name_ok (n :: ns) → split_char "/" (join "/" (n :: ns)) = n :: ns.
Proof.
  intros Hns. apply split_char_join; [done|]. eapply Forall_impl; [exact Hns|]. by intros n' (_ & _ & _ & ?).
Qed.

Lemma path_components_names n ns : Forall name_ok (n :: ns) → path_components (join "/" (n :: ns)) = (false, n :: ns).
Proof.
  intros Hns. rewrite !path_components_eq. rewrite split_names by done.
  inversion Hns as [|? ? (H1 & H2 & H3 & H4) Hns']; subst.
  assert (starts_with (join "/" (n :: ns)) "/" = false) as ->.
  { destruct n as [|a n]; [done|]. unfold contains_char in H4. cbn -[Ascii.eqb] in H4. apply orb_false_iff in H4 as [H4 _].
    unfold starts_with, join. destruct ns; autorewrite with rust; cbn -[Ascii.eqb]; autorewrite with rust;
      cbn -[Ascii.eqb]; by rewrite H4. }
  rewrite (proj2 (eqb_false _ _)) by done. rewrite (plain_names [n]), (plain_names ns) by (by repeat constructor). done.
Qed.

Lemma components_join base ns :
  Forall name_ok ns → components (path_join base (Normal <$> ns)) = app (components base) (Normal <$> ns).
Proof.
  intros Hns. assert (filter plain_part (split_char "/" (join "/" ns)) = ns) as Hsplit.
  { destruct ns as [|n ns]; [done|]. rewrite split_names by done. by apply plain_names. }
  unfold path_join. rewrite path_of_names. destruct (base == "") eqn:E; split_and_bool; simpl orb.
  - subst. rewrite append_nil_l. destruct ns as [|n ns]; [done|].
    unfold components at 1. rewrite path_components_names by done. by apply (names_components (n :: ns)).
  - assert (∀ p, path_components (p ++ "/") = path_components base →
              components (p ++ String "/" (join "/" ns)) = app (components base) (Normal <$> ns)) as Hgo.
    { intros p Hp. unfold components. rewrite path_components_app, Hsplit, Hp.
      destruct (path_components base) as [abs cs]. cbn [fst snd]. rewrite fmap_app, (names_components ns) by done. apply app_assoc. }
    destruct (ends_with_char "/" base) eqn:Ee.
    + apply ends_with_char_split in Ee as [p ->]. rewrite append_assoc. autorewrite with rust. by apply Hgo.
    + rewrite append_assoc. autorewrite with rust. by apply Hgo, path_components_slash.
Qed.

(** The names among the components of a path are names. *)
Lemma components_names p n : Normal n ∈ components p → name_ok n.
Proof.
  unfold components. destruct (path_components p) as [abs cs] eqn:E.
  assert (∀ c, c ∈ cs → c ≠ "" ∧ contains_char "/" c = false) as Hcs.
  { intros c Hc. pose proof (split_char_parts "/" p) as Hparts. rewrite Forall_forall in Hparts.
    assert (c ≠ "" ∧ c ∈ split_char "/" p) as [? Hin]; [|naive_solver].
    rewrite path_components_eq in E.
    assert (∀ l : list string, c ∈ filter plain_part l → c ≠ "" ∧ c ∈ l) as Hf.
    { intros l (Hpl & Hin)%list_elem_of_filter. unfold plain_part in Hpl. split; [|done]. intros ->. done. }
    destruct (starts_with p "/"); [simplify_eq; by apply Hf|].
    destruct (split_char "/" p) as [|first rest]; simplify_eq; [by apply not_elem_of_nil in Hc|].
    apply elem_of_app in Hc as [Hc|[? ?]%Hf]; [|split; [done|by right]].
    destruct (eqb first ".") eqn:Ef; split_and_bool.
    - apply list_elem_of_singleton in Hc as ->. subst. split; [done|left].
    - apply Hf in Hc as [? ->%list_elem_of_singleton]. split; [done|left]. }
  rewrite elem_of_app. intros [Hr|Hin]; [destruct abs; [apply list_elem_of_singleton in Hr|apply not_elem_of_nil in Hr]; done|].
  apply list_elem_of_fmap in Hin as (c & Hc & Hin). destruct (Hcs c Hin). unfold component_of in Hc.
  repeat case_match; split_and_bool; simplify_eq. by unfold name_ok.
Qed.
End PathFacts.
