(* ===== verification/Lease.v ===== *)
(** * Leases: time-limited claims on shared resources

    The model of [crates/core/src/lease.rs]: resource keys and their overlap,
    the lease table with every operation that changes it, and the release
    requests. Lease ids are drawn from a random generator in the code; here a
    claim takes the id it would draw. *)

From Stdlib Require Import Ascii.
From S2P Require Import Prelude RustStr.

Local Open Scope Z_scope.
Local Open Scope rust_scope.

(** ** Resource keys *)

Module Resource.

(** The private field of [ResourceKey]. *)
Record ResourceKey := RK { as_str : string }.

Global Instance ResourceKey_eq_dec : EqDecision ResourceKey.
Proof. solve_decision. Defined.

(** [ResourceKey::new]: a hierarchical key longer than [path:/] loses its
    trailing slashes. *)
Definition new (key : string) : ResourceKey :=
  let hierarchical := starts_with key "path:" || starts_with key "file:" in
  if hierarchical && (String.length "path:/" <? String.length key)%nat
  then RK (trim_end_char "/" key)
  else RK key.

(** The [Component::Normal] components of a relative path. *)
Definition normal_components (relative : string) : list string :=
  filter (λ c, negb (c == "") && (c != ".") && (c != "..")) (split_char "/" relative).

(** [ResourceKey::file]. *)
Definition file (project relative : string) : ResourceKey :=
  new (foldl (λ key name, key ++ "/" ++ name)%string ("file:" ++ project)%string
         (normal_components relative)).

Definition kind (k : ResourceKey) : string :=
  match split_once ":" (as_str k) with Some (kind, _) => kind | None => "resource" end.

Definition value (k : ResourceKey) : string :=
  match split_once ":" (as_str k) with Some (_, value) => value | None => as_str k end.

Definition is_hierarchical (k : ResourceKey) : bool :=
  (kind k == "path") || (kind k == "file").

Definition is_ancestor (parent child : string) : bool :=
  let parent := trim_end_char "/" parent in
  (String.length parent <? String.length child)%nat
  && starts_with child parent
  && (byte_at (String.length parent) child == Some "/"%char).

Definition overlaps (self other : ResourceKey) : bool :=
  if self == other then true
  else if negb (is_hierarchical self) || (kind self != kind other) then false
  else is_ancestor (value self) (value other) || is_ancestor (value other) (value self).

End Resource.
Import Resource (ResourceKey, RK).

(** ** Leases *)

Inductive LeaseMode := Exclusive | Shared.

Global Instance LeaseMode_eq_dec : EqDecision LeaseMode.
Proof. solve_decision. Defined.

Record Lease := mkLease {
  id : string;
  resource : ResourceKey;
  holder : string;
  mode : LeaseMode;
  acquired_at : instant;
  held_since_field : option instant;
  change_seq : option Z;
  expires_at : instant;
  note : option string;
  amount : Z;
  automatic : bool;
}.

Global Instance Lease_eq_dec : EqDecision Lease.
Proof. solve_decision. Defined.

Definition is_expired (l : Lease) (now : instant) : bool := expires_at l <=? now.

Definition held_since (l : Lease) : instant := unwrap_or (acquired_at l) (held_since_field l).

Definition blocks (l : Lease) (requester : string) (m : LeaseMode) (r : ResourceKey) : bool :=
  (holder l != requester)
  && Resource.overlaps (resource l) r
  && ((mode l == Exclusive) || (m == Exclusive)).

Inductive LeaseError :=
| Conflict (resource : ResourceKey) (held_by : list Lease)
| NotFound (lease : string)
| NotHolder (lease holder requester : string).

Inductive Claimed :=
| New (l : Lease)
| Renewed (l : Lease).

(** [Claimed::lease] and [Claimed::into_lease]. *)
Definition claimed_lease (c : Claimed) : Lease :=
  match c with New l | Renewed l => l end.

Record ClaimRequest := mkClaim {
  req_resource : ResourceKey;
  req_holder : string;
  req_mode : LeaseMode;
  req_ttl : duration;
  req_note : option string;
  req_automatic : bool;
}.

(** The [Display] of a mode. *)
Definition mode_str (m : LeaseMode) : string :=
  match m with Exclusive => "exclusive" | Shared => "shared" end.

(** ** The lease table *)

Module LeaseTable.

Record t := mk { leases : gmap string Lease }.

Definition new : t := mk ∅.

(** The order listings use: oldest first, then by id. *)
Definition listing_leb (a b : Lease) : bool :=
  match Z.compare (acquired_at a) (acquired_at b) with
  | Lt => true
  | Gt => false
  | Eq => str_leb (id a) (id b)
  end.

(** What a renewing claim does to the lease it found. *)
Definition renewed (l : Lease) (expires : instant) (n : option string) (auto : bool) : Lease :=
  {| id := id l; resource := resource l; holder := holder l; mode := mode l;
     acquired_at := acquired_at l; held_since_field := held_since_field l;
     change_seq := change_seq l; expires_at := expires;
     note := if is_some n then n else note l;
     amount := amount l; automatic := automatic l && auto |}.

(** What a handoff does to each lease it moves. *)
Definition moved_to (to : string) (now : instant) (l : Lease) : Lease :=
  {| id := id l; resource := resource l; holder := to; mode := mode l;
     acquired_at := acquired_at l; held_since_field := Some now;
     change_seq := change_seq l; expires_at := expires_at l; note := note l;
     amount := amount l; automatic := automatic l |}.

(** [ids.iter().filter_map(|id| self.leases.remove(id)).collect()]. *)
Fixpoint remove_ids (ids : list string) (m : gmap string Lease)
    : gmap string Lease * list Lease :=
  match ids with
  | [] => (m, [])
  | i :: ids =>
      let '(m', out) := remove_ids ids (delete i m) in
      (m', match m !! i with Some l => l :: out | None => out end)
  end.

Section Ops.
Context {HO : HashOrder string Lease}.

Definition expire (tb : t) (now : instant) : t * list Lease :=
  let ids := id <$> filter (λ l, is_expired l now) (hm_values (leases tb)) in
  let '(m, out) := remove_ids ids (leases tb) in
  (mk m, out).

(** [LeaseTable::claim_as]. [fresh] is what [LeaseId::generate] returns. *)
Definition claim_as (tb : t) (req : ClaimRequest) (fresh : string) (now : instant)
    : t * result Claimed LeaseError :=
  let tb := (expire tb now).1 in
  match
    List.find (λ kl, (holder kl.2 == req_holder req)
                     && (resource kl.2 == req_resource req)
                     && (mode kl.2 == req_mode req))
      (hm_iter (leases tb))
  with
  | Some (k, existing) =>
      let existing' :=
        renewed existing (now + req_ttl req) (req_note req) (req_automatic req) in
      (mk (<[k := existing']> (leases tb)), Ok (Renewed existing'))
  | None =>
      let held_by :=
        filter (λ l, blocks l (req_holder req) (req_mode req) (req_resource req))
          (hm_values (leases tb)) in
      match held_by with
      | _ :: _ => (tb, Err (Conflict (req_resource req) held_by))
      | [] =>
          let lease :=
            {| id := fresh; resource := req_resource req; holder := req_holder req;
               mode := req_mode req; acquired_at := now; held_since_field := None;
               change_seq := None; expires_at := now + req_ttl req;
               note := req_note req; amount := 0; automatic := req_automatic req |} in
          (mk (<[fresh := lease]> (leases tb)), Ok (New lease))
      end
  end.

Definition claim (tb : t) (r : ResourceKey) (h : string) (m : LeaseMode) (ttl : duration)
    (n : option string) (fresh : string) (now : instant) : t * result Claimed LeaseError :=
  claim_as tb (mkClaim r h m ttl n false) fresh now.

Definition restore (tb : t) (l : Lease) : t := mk (<[id l := l]> (leases tb)).

(** [owned_mut], as the lookup it performs. *)
Definition owned (tb : t) (i h : string) : result Lease LeaseError :=
  match leases tb !! i with
  | None => Err (NotFound i)
  | Some l => if holder l != h then Err (NotHolder i (holder l) h) else Ok l
  end.

Definition renew (tb : t) (i h : string) (ttl : duration) (now : instant)
    : t * result Lease LeaseError :=
  let tb := (expire tb now).1 in
  match owned tb i h with
  | Err e => (tb, Err e)
  | Ok l =>
      let l' := {| id := id l; resource := resource l; holder := holder l; mode := mode l;
                   acquired_at := acquired_at l; held_since_field := held_since_field l;
                   change_seq := change_seq l; expires_at := now + ttl; note := note l;
                   amount := amount l; automatic := automatic l |} in
      (mk (<[i := l']> (leases tb)), Ok l')
  end.

Definition release (tb : t) (i h : string) : t * result Lease LeaseError :=
  match owned tb i h with
  | Err e => (tb, Err e)
  | Ok l => (mk (delete i (leases tb)), Ok l)
  end.

Definition release_held (tb : t) (h : string) (only_automatic : bool) : t * list Lease :=
  let ids := id <$> filter (λ l, (holder l == h) && (negb only_automatic || automatic l))
                      (hm_values (leases tb)) in
  let '(m, out) := remove_ids ids (leases tb) in
  (mk m, out).

Definition release_all (tb : t) (h : string) : t * list Lease := release_held tb h false.

(** The in-place update of every lease a predicate selects, and the moved
    leases in listing order. *)
Definition move_where (sel : Lease → bool) (to : string) (now : instant) (tb : t)
    : t * list Lease :=
  (mk ((λ l, if sel l then moved_to to now l else l) <$> leases tb),
   sort_by listing_leb (moved_to to now <$> filter sel (hm_values (leases tb)))).

Definition transfer (tb : t) (from to : string) (now : instant) : t * list Lease :=
  let tb := (expire tb now).1 in
  move_where (λ l, holder l == from) to now tb.

Definition transfer_selected (tb : t) (from to : string) (ids : gset string) (now : instant)
    : t * list Lease :=
  move_where (λ l, (holder l == from) && bool_decide (id l ∈ ids) && negb (is_expired l now))
    to now tb.

Definition get (tb : t) (i : string) : option Lease := leases tb !! i.

Definition sorted (tb : t) (keep : Lease → bool) : list Lease :=
  sort_by listing_leb (filter keep (hm_values (leases tb))).

Definition holders_of (tb : t) (r : ResourceKey) : list Lease :=
  sorted tb (λ l, Resource.overlaps (resource l) r).
Definition by_holder (tb : t) (h : string) : list Lease := sorted tb (λ l, holder l == h).
Definition all (tb : t) : list Lease := sorted tb (λ _, true).
Definition len (tb : t) : nat := size (leases tb).
Definition is_empty (tb : t) : bool := bool_decide (leases tb = ∅).

Definition committed (tb : t) (r : ResourceKey) : Z :=
  u64_sum (amount <$> filter (λ l, resource l == r) (all tb)).
End Ops.
End LeaseTable.

(** ** Release requests *)

Definition RELEASE_REQUEST_TTL_SECS : Z := 24 * 60 * 60.
Definition RELEASE_REQUEST_TEXT_CHARS : nat := 400.

Record ReleaseAnswer := mkAnswer {
  accepted : bool;
  answer_text : option string;
  answer_at : instant;
  released : list string;
}.

Record ReleaseRequest := mkRelease {
  rr_message : string;
  rr_requester : string;
  rr_holder : string;
  rr_resource : ResourceKey;
  rr_leases : list string;
  rr_reason : option string;
  rr_at : instant;
  rr_expires_at : instant;
  rr_answer : option ReleaseAnswer;
}.

Definition release_request_expired (r : ReleaseRequest) (now : instant) : bool :=
  is_none (rr_answer r) && (rr_expires_at r <=? now).

(** ** Resource keys: what overlap means *)

Module ResourceFacts.
Import Resource.

Lemma trim_end_char_cons c a s :
  trim_end_char c (String a s) =
    match trim_end_char c s with
    | EmptyString => if Ascii.eqb a c then EmptyString else String a EmptyString
    | String b t => String a (String b t)
    end.
Proof. done. Qed.

(** Trimming leaves a prefix followed by copies of the character. *)
Lemma trim_end_char_spec c s :
  ∃ r, s = (trim_end_char c s ++ r)%string ∧ sforall (Ascii.eqb c) r = true.
Proof.
  induction s as [|a s (r & Hr & Hall)]; [by exists ""|].
  rewrite trim_end_char_cons. destruct (trim_end_char c s) as [|b t] eqn:E.
  - destruct (Ascii.eqb_spec a c) as [->|Hne].
    + exists (String c s). rewrite append_nil_l. split; [done|].
      simpl. rewrite Ascii.eqb_refl. rewrite append_nil_l in Hr. by subst.
    + exists s. rewrite append_cons, append_nil_l. split; [done|].
      rewrite append_nil_l in Hr. by subst.
  - exists r. rewrite append_cons. split; [by rewrite <-Hr|done].
Qed.

Lemma trim_end_char_app_all c s r :
  sforall (Ascii.eqb c) r = true → trim_end_char c (s ++ r) = trim_end_char c s.
Proof.
  intros Hr. assert (trim_end_char c r = "") as Hnil.
  { induction r as [|a r IH]; [done|]. simpl in Hr.
    apply andb_true_iff in Hr as [Ha Hr]. rewrite trim_end_char_cons, IH by done.
    by rewrite Ascii.eqb_sym, Ha. }
  induction s as [|a s IH]; [by rewrite append_nil_l|].
  by rewrite append_cons, !trim_end_char_cons, IH.
Qed.

Lemma trim_end_char_app_ne c s a r :
  trim_end_char c (String a r) ≠ "" →
  trim_end_char c (s ++ String a r) = (s ++ trim_end_char c (String a r))%string.
Proof.
  intros Hne. induction s as [|b s IH]; [by rewrite !append_nil_l|].
  rewrite !append_cons, trim_end_char_cons, IH.
  destruct s as [|d s']; [rewrite append_nil_l|by rewrite append_cons].
  by destruct (trim_end_char c (String a r)).
Qed.

Lemma trim_end_char_idem c s : trim_end_char c (trim_end_char c s) = trim_end_char c s.
Proof.
  destruct (trim_end_char_spec c s) as (r & Hs & Hr).
  rewrite Hs at 2. by rewrite trim_end_char_app_all.
Qed.

Lemma byte_at_app s a r : byte_at (String.length s) (s ++ String a r) = Some a.
Proof. unfold byte_at. induction s as [|b s IH]; [done|]. by rewrite append_cons. Qed.

Lemma byte_at_app_inv s t a : byte_at (String.length s) (s ++ t) = Some a → ∃ r, t = String a r.
Proof.
  unfold byte_at. induction s as [|b s IH].
  - rewrite append_nil_l. destruct t; simpl; [done|]. intros [= ->]. eauto.
  - rewrite append_cons. apply IH.
Qed.

(** A value is below a directory exactly when it continues the directory
    (less its trailing slashes) with a slash. *)
Lemma is_ancestor_iff p c :
  is_ancestor p c = true ↔ ∃ r, c = (trim_end_char "/" p ++ String "/" r)%string.
Proof.
  unfold is_ancestor. split.
  - intros H. split_and_bool.
    match goal with H : starts_with _ _ = true |- _ => apply starts_with_iff in H as [t ->] end.
    match goal with H : byte_at _ _ = _ |- _ => apply byte_at_app_inv in H as [r ->] end.
    eauto.
  - intros [r ->]. rewrite byte_at_app, eqb_refl, andb_true_r.
    apply andb_true_iff; split.
    + apply Nat.ltb_lt. rewrite length_append. simpl. lia.
    + apply starts_with_iff. eauto.
Qed.

Lemma trim_below p r :
  trim_end_char "/" (trim_end_char "/" p ++ String "/" r) =
    match trim_end_char "/" (String "/" r) with
    | EmptyString => trim_end_char "/" p
    | t => (trim_end_char "/" p ++ t)%string
    end.
Proof.
  destruct (trim_end_char "/" (String "/" r)) as [|b t] eqn:E.
  - assert (sforall (Ascii.eqb "/") (String "/" r) = true) as Hall.
    { destruct (trim_end_char_spec "/" (String "/" r)) as (q & Hq & Hall).
      rewrite E, append_nil_l in Hq. by rewrite Hq. }
    rewrite trim_end_char_app_all by done. apply trim_end_char_idem.
  - rewrite trim_end_char_app_ne by (by rewrite E). by rewrite E.
Qed.

(** Containment is transitive, whatever trailing slashes the keys carry. *)
Lemma is_ancestor_trans a b c :
  is_ancestor a b = true → is_ancestor b c = true → is_ancestor a c = true.
Proof.
  rewrite !is_ancestor_iff. intros [r ->] [q ->]. rewrite trim_below.
  rewrite trim_end_char_cons. destruct (trim_end_char "/" r) as [|x t] eqn:E.
  - simpl. by exists q.
  - exists (String x t ++ String "/" q)%string. by rewrite append_assoc.
Qed.

Lemma overlaps_iff a b :
  overlaps a b = true ↔
    a = b ∨ (is_hierarchical a = true ∧ kind a = kind b ∧
             (is_ancestor (value a) (value b) = true ∨ is_ancestor (value b) (value a) = true)).
Proof.
  unfold overlaps. destruct (a == b) eqn:E; split_and_bool; [naive_solver|].
  destruct (is_hierarchical a) eqn:Hh; simpl; [|split; [done|]; by intros [?|[? _]]].
  destruct (kind a == kind b) eqn:Hk; split_and_bool; simpl.
  - rewrite orb_true_iff. split; [by right|]. by intros [?|(_ & _ & ?)].
  - split; [done|]. by intros [?|(_ & ? & _)].
Qed.

Lemma overlaps_refl a : overlaps a a = true.
Proof. apply overlaps_iff. by left. Qed.

Lemma is_hierarchical_kind a b : kind a = kind b → is_hierarchical a = is_hierarchical b.
Proof. unfold is_hierarchical. by intros ->. Qed.

Lemma overlaps_sym a b : overlaps a b = overlaps b a.
Proof.
  apply eq_true_iff_eq. rewrite !overlaps_iff.
  split; (intros [->|(Hh & Hk & Ho)]; [by left|right]);
    (split; [by rewrite <-(is_hierarchical_kind _ _ Hk)|split; [done|]]); destruct Ho; auto.
Qed.
End ResourceFacts.

(** ** The table: invariants and the behaviour of each operation *)

Module LeaseFacts.
Import LeaseTable.

(** Two leases may stand beside each other. *)
Definition compatible (a b : Lease) : Prop :=
  holder a = holder b ∨ Resource.overlaps (resource a) (resource b) = false ∨
  (mode a = Shared ∧ mode b = Shared).

(** Every entry is filed under its own id. *)
Definition keys_ok (tb : t) : Prop := map_Forall (λ k l, id l = k) (leases tb).

(** No two holders have overlapping claims unless both are shared. *)
Definition exclusion (tb : t) : Prop :=
  ∀ i j a b, leases tb !! i = Some a → leases tb !! j = Some b → compatible a b.

Definition wf (tb : t) : Prop := keys_ok tb ∧ exclusion tb.

Lemma compatible_refl a : compatible a a.
Proof. by left. Qed.

Lemma compatible_sym a b : compatible a b → compatible b a.
Proof. unfold compatible. rewrite ResourceFacts.overlaps_sym. intuition auto. Qed.

(** What [blocks] decides. *)
Lemma blocks_false l b :
  blocks l (holder b) (mode b) (resource b) = false ↔ compatible l b.
Proof.
  unfold blocks, compatible, eqb. destruct (Resource.overlaps _ _), (mode l), (mode b);
    repeat case_bool_decide; simpl; intuition congruence.
Qed.

Lemma lookup_remove_ids ids m k :
  (remove_ids ids m).1 !! k = if decide (k ∈ ids) then None else m !! k.
Proof.
  revert m. induction ids as [|i ids IH]; intros m; simpl; [done|].
  specialize (IH (delete i m)). destruct (remove_ids ids (delete i m)) as [m' out]; simpl in *.
  rewrite IH, lookup_delete.
  destruct (decide (k ∈ ids)), (decide (i = k)), (decide (k ∈ i :: ids)); set_solver.
Qed.

Lemma remove_ids_out ids m :
  NoDup ids → (remove_ids ids m).2 = omap (m !!.) ids.
Proof.
  intros Hnd. revert m. induction Hnd as [|i ids Hi Hnd IH]; intros m; simpl; [done|].
  specialize (IH (delete i m)). destruct (remove_ids ids (delete i m)) as [m' out]; simpl in *.
  subst out. assert (omap (delete i m !!.) ids = omap (m !!.) ids) as ->.
  { apply list_omap_ext_elem. intros j Hj. apply lookup_delete_ne. set_solver. }
  by destruct (m !! i).
Qed.

Lemma listing_leb_total a b : listing_leb a b = true ∨ listing_leb b a = true.
Proof.
  unfold listing_leb. rewrite (Z.compare_antisym (acquired_at a)).
  destruct (Z.compare _ _); simpl; auto using str_leb_total.
Qed.

Lemma listing_leb_iff a b :
  listing_leb a b = true ↔
    acquired_at a < acquired_at b ∨ (acquired_at a = acquired_at b ∧ str_leb (id a) (id b) = true).
Proof.
  unfold listing_leb. destruct (Z.compare_spec (acquired_at a) (acquired_at b)); intuition (lia || done).
Qed.

Lemma listing_leb_trans a b c :
  listing_leb a b = true → listing_leb b c = true → listing_leb a c = true.
Proof.
  rewrite !listing_leb_iff. intros [?|[? Hab]] [?|[? Hbc]]; [left; lia..|].
  right. split; [lia|]. by eapply str_leb_trans.
Qed.

Lemma listing_leb_antisym a b : listing_leb a b = true → listing_leb b a = true → id a = id b.
Proof.
  rewrite !listing_leb_iff. intros [?|[? Hab]] [?|[? Hba]]; try lia. by apply str_leb_antisym.
Qed.

Section WithOrder.
Context {HO : HashOrder string Lease}.
Implicit Types (tb : t) (l : Lease) (now : instant).

(** Which entries the two sweeps ([expire], [release_held]) leave. *)
Lemma lookup_sweep (sel : Lease → bool) tb k l :
  keys_ok tb →
  (remove_ids (id <$> filter sel (hm_values (leases tb))) (leases tb)).1 !! k = Some l ↔
  leases tb !! k = Some l ∧ sel l = false.
Proof.
  intros Hk. rewrite lookup_remove_ids. case_decide as Hin.
  - split; [done|]. intros [Hl Hs].
    apply list_elem_of_fmap in Hin as (l' & -> & [Hsel Hv]%list_elem_of_filter).
    apply elem_of_hm_values in Hv as [k' Hk'].
    assert (id l' = k') as Hid by by apply Hk. subst k'.
    rewrite Hl in Hk'. simplify_eq. by rewrite Hs in Hsel.
  - split; [|by intros [? _]]. intros Hl. split; [done|].
    apply not_true_iff_false. intros Hs. apply Hin.
    apply list_elem_of_fmap. exists l. split; [by rewrite (Hk k l Hl)|].
    apply list_elem_of_filter. split; [by rewrite Hs|]. apply elem_of_hm_values. eauto.
Qed.

Lemma lookup_expire tb now k l :
  keys_ok tb →
  leases (expire tb now).1 !! k = Some l ↔ leases tb !! k = Some l ∧ now < expires_at l.
Proof.
  intros Hk. unfold expire.
  pose proof (lookup_sweep (λ l, is_expired l now) tb k l Hk) as Hs.
  destruct (remove_ids _ _) as [m out]; simpl in *. rewrite Hs. unfold is_expired.
  by rewrite Z.leb_gt.
Qed.

Lemma lookup_release_held tb h auto k l :
  keys_ok tb →
  leases (release_held tb h auto).1 !! k = Some l ↔
  leases tb !! k = Some l ∧ (holder l ≠ h ∨ (auto = true ∧ automatic l = false)).
Proof.
  intros Hk. unfold release_held.
  pose proof (lookup_sweep (λ l, (holder l == h) && (negb auto || automatic l)) tb k l Hk) as Hs.
  destruct (remove_ids _ _) as [m out]; simpl in *. rewrite Hs.
  unfold eqb. case_bool_decide; destruct auto, (automatic l); simpl; naive_solver.
Qed.

Lemma ids_of_values tb : keys_ok tb → id <$> hm_values (leases tb) = hm_keys (leases tb).
Proof.
  intros Hk. unfold hm_values, hm_keys. rewrite <-list_fmap_compose.
  apply list_fmap_ext_elem. intros [k l] Hin. by apply Hk, elem_of_hm_iter.
Qed.

Lemma NoDup_selected_ids (sel : Lease → bool) tb :
  keys_ok tb → NoDup (id <$> filter sel (hm_values (leases tb))).
Proof.
  intros Hk. eapply sublist_NoDup; [apply (NoDup_hm_keys (leases tb))|].
  rewrite <-ids_of_values by done. apply fmap_sublist, list_filter_sublist.
Qed.

(** A listing is deterministic: any other order of the same entries gives it. *)
Lemma sorted_of_perm tb (keep : Lease → bool) (ls : list Lease) :
  keys_ok tb → ls ≡ₚ hm_values (leases tb) →
  sorted tb keep = sort_by listing_leb (filter keep ls).
Proof.
  intros Hk Hp. unfold sorted. apply sort_by_order_independent.
  - apply listing_leb_total.
  - apply listing_leb_trans.
  - by rewrite Hp.
  - intros a b [_ Ha]%list_elem_of_filter [_ Hb]%list_elem_of_filter Hab Hba.
    apply elem_of_hm_values in Ha as [i Ha], Hb as [j Hb].
    pose proof (listing_leb_antisym a b Hab Hba) as Hid.
    assert (id a = i) as <- by by apply Hk. assert (id b = j) as <- by by apply Hk.
    rewrite Hid in Ha. by simplify_eq.
Qed.

Lemma hm_values_perm tb : hm_values (leases tb) ≡ₚ (map_to_list (leases tb)).*2.
Proof. unfold hm_values. by rewrite hm_iter_perm. Qed.

(** What a sweep returns. *)
Lemma elem_of_sweep_out (sel : Lease → bool) tb l :
  keys_ok tb →
  l ∈ (remove_ids (id <$> filter sel (hm_values (leases tb))) (leases tb)).2 ↔
  leases tb !! id l = Some l ∧ sel l = true.
Proof.
  intros Hk. rewrite remove_ids_out, list_elem_of_omap by by apply NoDup_selected_ids.
  split.
  - intros (i & (l' & -> & [Hs [k Hv]%elem_of_hm_values]%list_elem_of_filter)%list_elem_of_fmap & Hl).
    assert (id l' = k) as <- by by apply Hk.
    rewrite Hl in Hv. simplify_eq. split; [done|]. by apply Is_true_true.
  - intros [Hl Hs]. exists (id l). split; [|done]. apply list_elem_of_fmap. exists l.
    split; [done|]. apply list_elem_of_filter. rewrite Is_true_true, elem_of_hm_values. eauto.
Qed.

(** A table with a subset of another's entries inherits its invariant. *)
Lemma wf_subset tb tb' :
  (∀ k l, leases tb' !! k = Some l → leases tb !! k = Some l) → wf tb → wf tb'.
Proof.
  intros Hsub [Hk Hx]. split.
  - intros k l Hl. by apply Hk, Hsub.
  - intros i j a b Ha Hb. by eapply Hx; apply Hsub.
Qed.

Lemma wf_expire tb now : wf tb → wf (expire tb now).1.
Proof.
  intros Hwf. apply (wf_subset tb); [|done].
  intros k l Hl. by apply lookup_expire in Hl as [? _]; [|apply Hwf].
Qed.

Lemma wf_release_held tb h auto : wf tb → wf (release_held tb h auto).1.
Proof.
  intros Hwf. apply (wf_subset tb); [|done].
  intros k l Hl. by apply lookup_release_held in Hl as [? _]; [|apply Hwf].
Qed.

(** Filing a lease that is compatible with every other entry. *)
Lemma wf_insert tb l :
  wf tb → (∀ k b, k ≠ id l → leases tb !! k = Some b → compatible l b) →
  wf (mk (<[id l := l]> (leases tb))).
Proof.
  intros [Hk Hx] Hc. split.
  - apply map_Forall_insert_2; [done|apply Hk].
  - intros i j a b; simpl. rewrite !lookup_insert_Some.
    intros [[<- <-]|[? Ha]] [[<- <-]|[? Hb]].
    + apply compatible_refl.
    + eapply Hc; [|done]. done.
    + apply compatible_sym. eapply Hc; [|done]. done.
    + by eapply Hx.
Qed.

(** Changing nothing that compatibility or filing looks at. *)
Lemma wf_update tb k l l' :
  wf tb → leases tb !! k = Some l →
  id l' = id l → holder l' = holder l → resource l' = resource l → mode l' = mode l →
  wf (mk (<[k := l']> (leases tb))).
Proof.
  intros Hwf Hl Hid Hh Hr Hm. assert (id l' = k) as <-.
  { rewrite Hid. by apply Hwf. }
  apply wf_insert; [done|]. intros j b Hne Hb.
  unfold compatible. rewrite Hh, Hr, Hm. by eapply Hwf.
Qed.

(** A live claim by [h] on [r] in mode [m], the abstract content of a table. *)
Definition holds (tb : t) (now : instant) (h : string) (r : ResourceKey) (m : LeaseMode) : Prop :=
  ∃ k l, leases tb !! k = Some l ∧ now < expires_at l ∧
         holder l = h ∧ resource l = r ∧ mode l = m.

(** Nobody else has a live claim that excludes this one. *)
Definition unblocked (tb : t) (now : instant) (req : ClaimRequest) : Prop :=
  ∀ k l, leases tb !! k = Some l → now < expires_at l →
         blocks l (req_holder req) (req_mode req) (req_resource req) = false.

Definition own_match (req : ClaimRequest) (l : Lease) : Prop :=
  holder l = req_holder req ∧ resource l = req_resource req ∧ mode l = req_mode req.

(** The lease a fresh claim makes. *)
Definition fresh_lease (req : ClaimRequest) (fresh : string) (now : instant) : Lease :=
  {| id := fresh; resource := req_resource req; holder := req_holder req;
     mode := req_mode req; acquired_at := now; held_since_field := None;
     change_seq := None; expires_at := now + req_ttl req;
     note := req_note req; amount := 0; automatic := req_automatic req |}.

(** The three outcomes of a claim, with the table each leaves. *)
Inductive claim_outcome (tb : t) (req : ClaimRequest) (fresh : string) (now : instant)
  : t * result Claimed LeaseError → Prop :=
| outcome_renewed k l :
    leases tb !! k = Some l → now < expires_at l → own_match req l →
    claim_outcome tb req fresh now
      (mk (<[k := renewed l (now + req_ttl req) (req_note req) (req_automatic req)]>
             (leases (expire tb now).1)),
       Ok (Renewed (renewed l (now + req_ttl req) (req_note req) (req_automatic req))))
| outcome_new :
    (∀ k l, leases tb !! k = Some l → now < expires_at l → ¬ own_match req l) →
    unblocked tb now req →
    claim_outcome tb req fresh now
      (mk (<[fresh := fresh_lease req fresh now]> (leases (expire tb now).1)),
       Ok (New (fresh_lease req fresh now)))
| outcome_conflict held_by :
    (∀ k l, leases tb !! k = Some l → now < expires_at l → ¬ own_match req l) →
    held_by ≠ [] →
    (∀ l, l ∈ held_by ↔
       (∃ k, leases tb !! k = Some l) ∧ now < expires_at l ∧
       blocks l (req_holder req) (req_mode req) (req_resource req) = true) →
    claim_outcome tb req fresh now
      ((expire tb now).1, Err (Conflict (req_resource req) held_by)).

Lemma own_match_spec req l :
  (holder l == req_holder req) && (resource l == req_resource req) && (mode l == req_mode req)
    = true ↔ own_match req l.
Proof.
  unfold own_match, eqb. repeat case_bool_decide; simpl; intuition congruence.
Qed.

Lemma claim_as_outcome tb req fresh now :
  keys_ok tb → claim_outcome tb req fresh now (claim_as tb req fresh now).
Proof.
  intros Hk. unfold claim_as. destruct (List.find _ _) as [[k l]|] eqn:Hf.
  { apply find_some in Hf as [Hin Hm]. apply own_match_spec in Hm.
    apply list_elem_of_In, elem_of_hm_iter, lookup_expire in Hin as [Hl He]; [|done].
    by constructor. }
  assert (∀ k l, leases tb !! k = Some l → now < expires_at l → ¬ own_match req l) as Hno.
  { intros k l Hl He Ho%own_match_spec.
    enough (true = false) by done. rewrite <-Ho. apply (find_none _ _ Hf (k, l)).
    apply list_elem_of_In, (elem_of_hm_iter _ k l), lookup_expire; auto. }
  destruct (filter _ _) as [|b bs] eqn:Hb.
  - apply outcome_new; [done|]. intros k l Hl He. apply not_true_iff_false. intros Hbl.
    assert (l ∈ @nil Lease) as []%elem_of_nil. rewrite <-Hb. apply list_elem_of_filter.
    split; [by rewrite Hbl|]. apply elem_of_hm_values. exists k. by apply lookup_expire.
  - rewrite <-Hb. apply outcome_conflict; [done|by rewrite Hb|]. intros l.
    rewrite list_elem_of_filter, elem_of_hm_values, Is_true_true.
    setoid_rewrite lookup_expire; [|done]. naive_solver.
Qed.

Lemma wf_claim_as tb req fresh now :
  wf tb → leases (expire tb now).1 !! fresh = None → wf (claim_as tb req fresh now).1.
Proof.
  intros Hwf Hfresh. pose proof (wf_expire tb now Hwf) as Hwfe.
  destruct (claim_as_outcome tb req fresh now (proj1 Hwf)) as [k l Hl He Ho|Hno Hun|held Hno];
    simpl; [| |done].
  - apply (wf_update _ k l); try done. by apply lookup_expire; [apply Hwf|].
  - apply (wf_insert _ (fresh_lease req fresh now)); [done|].
    intros k b Hne Hb. apply compatible_sym, blocks_false.
    apply lookup_expire in Hb as [Hb He]; [|apply Hwf]. by eapply Hun.
Qed.

Lemma owned_Ok tb i h l : owned tb i h = Ok l ↔ leases tb !! i = Some l ∧ holder l = h.
Proof.
  unfold owned. destruct (leases tb !! i) as [l'|]; [|naive_solver].
  destruct (holder l' == h) eqn:E; split_and_bool; simpl; naive_solver.
Qed.

Lemma wf_renew tb i h ttl now : wf tb → wf (renew tb i h ttl now).1.
Proof.
  intros Hwf. unfold renew. pose proof (wf_expire tb now Hwf) as Hwfe.
  destruct (owned _ i h) as [l|e] eqn:E; [|done].
  apply owned_Ok in E as [E _]. by eapply wf_update.
Qed.

Lemma wf_release tb i h : wf tb → wf (release tb i h).1.
Proof.
  intros Hwf. unfold release. destruct (owned tb i h); [|done]. simpl.
  apply (wf_subset tb); [|done]. intros k l. simpl. rewrite lookup_delete_Some. naive_solver.
Qed.

(** Moving leases is safe when what stays behind with their old holder is
    compatible with what moves. *)
Lemma wf_move_where sel to now tb :
  wf tb →
  (∀ i j a b, leases tb !! i = Some a → leases tb !! j = Some b →
     sel a = true → sel b = false → holder a = holder b →
     Resource.overlaps (resource a) (resource b) = false ∨ (mode a = Shared ∧ mode b = Shared)
     ∨ holder b = to) →
  wf (move_where sel to now tb).1.
Proof.
  intros [Hk Hx] Hstay. split.
  - intros k l; simpl. rewrite lookup_fmap, fmap_Some. intros (l0 & Hl & ->).
    destruct (sel l0); by apply (Hk k l0).
  - intros i j a b; simpl. rewrite !lookup_fmap, !fmap_Some.
    intros (a0 & Ha & ->) (b0 & Hb & ->). pose proof (Hx _ _ _ _ Ha Hb) as Hc.
    pose proof (Hstay _ _ _ _ Ha Hb) as Hs1. pose proof (Hstay _ _ _ _ Hb Ha) as Hs2.
    rewrite ResourceFacts.overlaps_sym in Hs2.
    destruct (sel a0), (sel b0); unfold compatible in *; simpl in *; naive_solver.
Qed.

Lemma wf_transfer tb from to now : wf tb → wf (transfer tb from to now).1.
Proof.
  intros Hwf. unfold transfer. apply wf_move_where; [by apply wf_expire|].
  intros i j a b _ _ Ha Hb Hab. split_and_bool. congruence.
Qed.

(** Everything a claim leaves other entries as they were, expiry apart. *)
Lemma claim_as_frame tb req fresh now k l :
  keys_ok tb → leases tb !! k = Some l → now < expires_at l →
  k ≠ fresh → ¬ own_match req l →
  leases (claim_as tb req fresh now).1 !! k = Some l.
Proof.
  intros Hk Hl He Hne Hno.
  assert (leases (expire tb now).1 !! k = Some l) by by apply lookup_expire.
  destruct (claim_as_outcome tb req fresh now Hk) as [k' l' Hl' He' Ho|_ _|held _]; simpl.
  - rewrite lookup_insert_ne; [done|]. intros ->. naive_solver.
  - by rewrite lookup_insert_ne.
  - done.
Qed.

(** In a well-formed table, holding the very claim already means that nobody
    blocks it. *)
Lemma own_match_unblocked tb req now k l :
  wf tb → leases tb !! k = Some l → now < expires_at l → own_match req l →
  unblocked tb now req.
Proof.
  intros [Hk Hx] Hl He (Hh & Hr & Hm) j b Hb Heb.
  rewrite <-Hh, <-Hr, <-Hm. apply blocks_false. by eapply Hx.
Qed.
End WithOrder.

(** ** The table as a transition system

    One step is one operation of the daemon on the table, with whatever
    iteration order the hash map has at that moment. *)
Inductive step : t → t → Prop :=
| step_claim (HO : HashOrder string Lease) tb req fresh now :
    leases (expire tb now).1 !! fresh = None →
    step tb (claim_as tb req fresh now).1
| step_renew (HO : HashOrder string Lease) tb i h ttl now :
    step tb (renew tb i h ttl now).1
| step_release tb i h :
    step tb (release tb i h).1
| step_release_held (HO : HashOrder string Lease) tb h auto :
    step tb (release_held tb h auto).1
| step_transfer (HO : HashOrder string Lease) tb from to now :
    step tb (transfer tb from to now).1
| step_expire (HO : HashOrder string Lease) tb now :
    step tb (expire tb now).1
| step_restore tb l :
    (∀ k b, k ≠ id l → leases tb !! k = Some b → compatible l b) →
    step tb (restore tb l).

Lemma wf_new : wf new.
Proof. split; [apply map_Forall_empty|]. intros i j a b; simpl. by rewrite lookup_empty. Qed.

#[local] Hint Resolve wf_new wf_claim_as wf_renew wf_release wf_release_held wf_transfer
  wf_expire : rust.

Lemma wf_step tb tb' : wf tb → step tb tb' → wf tb'.
Proof.
  intros Hwf. destruct 1; auto with rust.
  unfold restore. by apply wf_insert.
Qed.

Lemma wf_reachable tb : rtc step new tb → wf tb.
Proof.
  apply rtc_invariant; [eauto using wf_step|auto with rust].
Qed.
End LeaseFacts.

(** ** Properties *)

Module LeaseProps.
Import LeaseTable LeaseFacts.

(** C1: Whatever sequence of claims, renewals, releases, whole handoffs, expiries
    and restores of compatible leases the daemon performs, and in whatever order
    the hash map iterates, two leases that different agents hold on overlapping
    resources are both shared: an exclusive lease shuts everybody else out. (A
    handoff of selected leases is apart: it keeps this only when what is offered
    is closed under overlap.) *)
Theorem reachable_mutual_exclusion tb i j a b :
  rtc step new tb →
  get tb i = Some a → get tb j = Some b →
  holder a ≠ holder b →
  Resource.overlaps (resource a) (resource b) = true →
  mode a = Shared ∧ mode b = Shared.
Proof.
  intros Hr Ha Hb Hne Hov. destruct (wf_reachable tb Hr) as [_ Hx].
  destruct (Hx i j a b Ha Hb) as [?|[?|?]]; congruence.
Qed.

(** C19: In every well-formed table a claim is granted exactly when no other
    agent has a live lease that blocks it; when it is granted the claimant holds
    the resource in that mode at every instant before [now + ttl], and the live
    leases that are not the claimant's own copy of it are untouched. *)
Theorem claim_granted_iff_unblocked `{!HashOrder string Lease} tb req fresh now :
  wf tb →
  (is_ok (claim_as tb req fresh now).2 = true ↔ unblocked tb now req) ∧
  (is_ok (claim_as tb req fresh now).2 = true →
     ∀ at_, at_ < now + req_ttl req →
     holds (claim_as tb req fresh now).1 at_ (req_holder req) (req_resource req) (req_mode req)) ∧
  (∀ k l, leases tb !! k = Some l → now < expires_at l → k ≠ fresh → ¬ own_match req l →
     leases (claim_as tb req fresh now).1 !! k = Some l).
Proof.
  intros Hwf. split; [|split].
  - destruct (claim_as_outcome tb req fresh now (proj1 Hwf)) as [k l Hl He Ho|Hno Hun|held Hno Hne Hin];
      simpl.
    + split; [|done]. intros _. by eapply own_match_unblocked.
    + done.
    + split; [done|]. intros Hun. destruct held as [|b held]; [done|].
      destruct (proj1 (Hin b)) as ([k Hk] & He & Hb); [left|].
      by rewrite (Hun k b Hk He) in Hb.
  - destruct (claim_as_outcome tb req fresh now (proj1 Hwf)) as [k l Hl He Ho|Hno Hun|held Hno];
      simpl; [| |done]; intros _ at_ Hat; eexists _, _; (split; [apply lookup_insert_eq|]).
    + split; [simpl; lia|]. simpl. apply Ho.
    + done.
  - intros k l Hl He Hne Hno. apply claim_as_frame; auto. apply Hwf.
Qed.

(** Every claim ends in exactly one of its three outcomes, expired leases
    swept first: a renewal of the caller's own live lease (which moves its expiry,
    keeps its note unless a new one is given, and never turns a deliberate lease
    automatic), a new lease, or a conflict that lists exactly the live leases in
    the way and changes nothing else. *)
Theorem claim_as_three_outcomes `{!HashOrder string Lease} tb req fresh now :
  keys_ok tb → claim_outcome tb req fresh now (claim_as tb req fresh now).
Proof. apply claim_as_outcome. Qed.

(** A crashed holder never wedges the table: once the time to live of every
    lease has passed, any claim by anybody on anything is granted as a new lease,
    and the table then holds that lease alone. *)
Theorem expired_table_grants_everything `{!HashOrder string Lease} tb req fresh now :
  keys_ok tb →
  (∀ k l, leases tb !! k = Some l → expires_at l ≤ now) →
  claim_as tb req fresh now =
    (mk {[fresh := fresh_lease req fresh now]}, Ok (New (fresh_lease req fresh now))).
Proof.
  intros Hk Hall. assert (leases (expire tb now).1 = ∅) as He.
  { apply map_empty. intros k. apply eq_None_not_Some. intros [l Hl].
    apply lookup_expire in Hl as [Hl Hlt]; [|done]. specialize (Hall k l Hl). lia. }
  destruct (claim_as_outcome tb req fresh now Hk) as [k l Hl Hlt Ho|Hno Hun|held Hno Hne Hin].
  - specialize (Hall k l Hl). lia.
  - by rewrite He, insert_empty.
  - destruct held as [|b held]; [done|].
    destruct (proj1 (Hin b)) as ([k Hl] & Hlt & _); [left|]. specialize (Hall k b Hl). lia.
Qed.

(** Renewing and releasing are the holder's alone: an unknown (or expired)
    lease is not found, somebody else's is refused with both names, and in either
    case nothing but expiry happens; the holder's own is renewed to [now + ttl],
    or removed. *)
Theorem renew_release_by_holder_only `{!HashOrder string Lease} tb i h ttl now :
  keys_ok tb →
  renew tb i h ttl now =
    match leases (expire tb now).1 !! i with
    | None => ((expire tb now).1, Err (NotFound i))
    | Some l =>
        if decide (holder l = h)
        then let l' := {| id := i; resource := resource l; holder := h; mode := mode l;
                          acquired_at := acquired_at l; held_since_field := held_since_field l;
                          change_seq := change_seq l; expires_at := now + ttl; note := note l;
                          amount := amount l; automatic := automatic l |} in
             (mk (<[i := l']> (leases (expire tb now).1)), Ok l')
        else ((expire tb now).1, Err (NotHolder i (holder l) h))
    end ∧
  release tb i h =
    match leases tb !! i with
    | None => (tb, Err (NotFound i))
    | Some l => if decide (holder l = h) then (mk (delete i (leases tb)), Ok l)
                else (tb, Err (NotHolder i (holder l) h))
    end.
Proof.
  intros Hk. unfold renew, release, owned, eqb. split.
  - destruct (leases (expire tb now).1 !! i) as [l|] eqn:El; [|done].
    assert (id l = i) as <-.
    { apply lookup_expire in El as [El _]; [|done]. by apply (Hk i l). }
    case_bool_decide; case_decide; simpl; congruence.
  - destruct (leases tb !! i) as [l|]; [|done].
    case_bool_decide; case_decide; simpl; congruence.
Qed.

(** When an agent exits, [release_all] drops exactly its leases; when a turn
    ends, [release_held] with [only_automatic] drops exactly those an adapter took
    and leaves what the agent asked for. What is returned is what was dropped. *)
Theorem release_held_exact `{!HashOrder string Lease} tb h only_automatic :
  keys_ok tb →
  (∀ k l, leases (release_held tb h only_automatic).1 !! k = Some l ↔
     leases tb !! k = Some l ∧ (holder l ≠ h ∨ (only_automatic = true ∧ automatic l = false))) ∧
  (∀ l, l ∈ (release_held tb h only_automatic).2 ↔
     leases tb !! id l = Some l ∧ holder l = h ∧ (only_automatic = true → automatic l = true)).
Proof.
  intros Hk. split; [intros k l; by apply lookup_release_held|].
  intros l. unfold release_held.
  pose proof (elem_of_sweep_out
    (λ l, (holder l == h) && (negb only_automatic || automatic l)) tb l Hk) as Hout.
  destruct (remove_ids _ _) as [m out]; simpl in *. rewrite Hout. unfold eqb.
  case_bool_decide; destruct only_automatic, (automatic l); simpl; naive_solver.
Qed.

(** A whole handoff keeps the table well formed and moves exactly the giver's
    live leases: each keeps its id, resource, mode, acquisition and expiry, gets
    the new holder, and counts as held since the handoff. *)
Theorem transfer_moves_all_live `{!HashOrder string Lease} tb from to now :
  wf tb →
  wf (transfer tb from to now).1 ∧
  (∀ k l, leases tb !! k = Some l → now < expires_at l → holder l = from →
     leases (transfer tb from to now).1 !! k = Some (moved_to to now l)) ∧
  (∀ k l, leases tb !! k = Some l → now < expires_at l → holder l ≠ from →
     leases (transfer tb from to now).1 !! k = Some l).
Proof.
  intros Hwf. split; [by apply wf_transfer|].
  split; intros k l Hl He Hh; unfold transfer; simpl; rewrite lookup_fmap;
    rewrite (proj2 (lookup_expire tb now k l (proj1 Hwf))) by done; simpl.
  - by rewrite Hh, eqb_refl.
  - by rewrite (proj2 (eqb_false (holder l) from) Hh).
Qed.

(** A handoff of selected leases keeps the table well formed provided what the
    giver keeps is compatible with what it hands over. *)
Theorem transfer_selected_safe_when_closed `{!HashOrder string Lease} tb from to ids now :
  wf tb →
  (∀ i j a b, leases tb !! i = Some a → leases tb !! j = Some b →
     holder a = from → holder b = from → id a ∈ ids → id b ∉ ids ∨ is_expired b now = true →
     Resource.overlaps (resource a) (resource b) = false ∨ (mode a = Shared ∧ mode b = Shared)) →
  wf (transfer_selected tb from to ids now).1.
Proof.
  intros Hwf Hclosed. apply wf_move_where; [done|].
  intros i j a b Ha Hb Hsa Hsb Hab. split_and_bool. unfold eqb in Hsb.
  destruct (Hclosed i j a b) as [?|?]; auto; [congruence|].
  destruct (is_expired b now); [by right|left].
  intros Hin. rewrite !bool_decide_true in Hsb by (done || congruence). done.
Qed.

(** C36: Without that proviso it is not: an agent that offers one lease of a
    directory it holds as a whole ends up, once the offer is accepted, with an
    exclusive lease that overlaps the taker's exclusive lease. *)
Theorem transfer_selected_breaks_exclusion :
  ∃ (tb : t) (a b : Lease),
    rtc step new tb ∧
    (let HO := canonical_order in
     get (transfer_selected tb "a" "b" {["l1"]} 1).1 "l1" = Some a ∧
     get (transfer_selected tb "a" "b" {["l1"]} 1).1 "l2" = Some b) ∧
    holder a ≠ holder b ∧ mode a = Exclusive ∧ mode b = Exclusive ∧
    expires_at a = 60 ∧ expires_at b = 60 ∧
    Resource.overlaps (resource a) (resource b) = true.
Proof.
  set (HO := @canonical_order string Lease _ _).
  set (tb1 := (claim_as new (mkClaim (RK "path:/repo/src/a.rs") "a" Exclusive 60 None false)
                 "l1" 0).1).
  set (tb2 := (claim_as tb1 (mkClaim (RK "path:/repo/src") "a" Exclusive 60 None false)
                 "l2" 0).1).
  eexists tb2, _, _. split.
  { eapply rtc_l; [by apply step_claim|]. eapply rtc_l; [|apply rtc_refl].
    by apply step_claim. }
  split; [by split; vm_compute|]. vm_compute. naive_solver.
Qed.

(** The listings do not depend on the hash map's iteration order: they are
    sorted by acquisition and id, contain exactly the table's leases, and two runs
    of the daemon with different orders give the same list. *)
Theorem all_listing_deterministic (HO1 HO2 : HashOrder string Lease) tb :
  keys_ok tb →
  all (HO := HO1) tb = all (HO := HO2) tb ∧
  StronglySorted (λ a b, listing_leb a b = true) (all (HO := HO1) tb) ∧
  (∀ l, l ∈ all (HO := HO1) tb ↔ leases tb !! id l = Some l) ∧
  length (all (HO := HO1) tb) = len tb.
Proof.
  intros Hk. unfold all. split; [|split; [|split]].
  - apply sorted_of_perm; [done|]. by rewrite !hm_values_perm.
  - apply sort_by_sorted; eauto using listing_leb_total, listing_leb_trans.
  - intros l. unfold sorted. rewrite elem_of_sort_by, list_elem_of_filter, elem_of_hm_values.
    split; [|by intros ?; eauto]. intros [_ [k Hl]]. by rewrite (Hk k l Hl).
  - unfold sorted, len. rewrite length_sort_by, list_filter_true.
    + rewrite hm_values_perm, length_fmap. apply length_map_to_list.
    + done.
Qed.

(** What is committed of a quota is the sum of the amounts of the leases on
    exactly that resource, modulo 2^64, whatever the iteration order: overlapping
    keys do not count, and where the true total fits in a [u64] it is exact. *)
Theorem committed_sums_exact_matches `{!HashOrder string Lease} tb r :
  committed tb r =
    u64_wrap (map_fold (λ _ l n, (if decide (resource l = r) then amount l else 0) + n) 0 (leases tb)).
Proof.
  unfold committed, all, sorted. rewrite u64_sum_wrap, map_fold_foldr. f_equal.
  rewrite sort_by_perm, (list_filter_true _ (hm_values _)) by done.
  rewrite hm_values_perm. induction (map_to_list (leases tb)) as [|[k l] ls IH]; [done|].
  rewrite fmap_cons, filter_cons. simpl. rewrite <-IH. unfold eqb.
  case_decide as Hd; rewrite bool_decide_spec in Hd.
  - by rewrite (decide_True (P := resource l = r)).
  - by rewrite (decide_False (P := resource l = r)).
Qed.

(** Two [path:] keys overlap exactly when they are equal or one value
    continues the other (less its trailing slashes) past a slash: a directory
    covers everything beneath it and nothing beside it ([/repo/src] and
    [/repo/src2] are apart), and containment composes. *)
Theorem path_overlap_is_containment v w :
  (Resource.overlaps (RK ("path:" ++ v)) (RK ("path:" ++ w)) = true ↔
     v = w ∨ (∃ r, w = (trim_end_char "/" v ++ "/" ++ r)%string) ∨
     (∃ r, v = (trim_end_char "/" w ++ "/" ++ r)%string)) ∧
  (∀ u, Resource.is_ancestor u v = true → Resource.is_ancestor v w = true →
     Resource.is_ancestor u w = true).
Proof.
  split; [|intros u; apply ResourceFacts.is_ancestor_trans].
  rewrite ResourceFacts.overlaps_iff. unfold Resource.is_hierarchical, Resource.kind, Resource.value.
  change ("path:" ++ v)%string with ("path" ++ String ":" v)%string.
  change ("path:" ++ w)%string with ("path" ++ String ":" w)%string. simpl Resource.as_str.
  rewrite !split_once_app by done. rewrite !ResourceFacts.is_ancestor_iff. split.
  - intros [[= ->]|(_ & _ & Hor)]; [by left|by right].
  - intros [->|Hor]; [by left|right]. split_and!; done.
Qed.

(** *** Witnesses *)

Definition w_shared (h : string) : ClaimRequest := mkClaim (RK "path:/repo") h Shared 60 None false.
Definition w_tb1 : t := (claim_as (HO := canonical_order) new (w_shared "a") "l1" 0).1.
Definition w_tb2 : t := (claim_as (HO := canonical_order) w_tb1 (w_shared "b") "l2" 0).1.

Lemma w_tb2_reachable : rtc step new w_tb2.
Proof.
  eapply rtc_l; [by apply (step_claim canonical_order new (w_shared "a") "l1" 0)|].
  eapply rtc_l; [by apply (step_claim canonical_order w_tb1 (w_shared "b") "l2" 0)|].
  apply rtc_refl.
Qed.

Lemma w_tb2_wf : wf w_tb2.
Proof. apply wf_reachable, w_tb2_reachable. Qed.

Lemma reachable_mutual_exclusion_witness :
  rtc step new w_tb2 ∧
  mode (fresh_lease (w_shared "a") "l1" 0) = Shared ∧ mode (fresh_lease (w_shared "b") "l2" 0) = Shared.
Proof.
  split; [exact w_tb2_reachable|].
  refine (reachable_mutual_exclusion w_tb2 "l1" "l2" (fresh_lease (w_shared "a") "l1" 0)
           (fresh_lease (w_shared "b") "l2" 0) w_tb2_reachable _ _ _ _).
  - vm_compute. reflexivity.
  - vm_compute. reflexivity.
  - discriminate.
  - vm_compute. reflexivity.
Defined.

Lemma claim_granted_iff_unblocked_witness :
  wf w_tb2 ∧
  (is_ok (claim_as (HO := canonical_order) w_tb2
            (mkClaim (RK "path:/repo/src") "c" Shared 5 None true) "l3" 1).2 = true →
   ∀ at_, at_ < 6 →
   holds (claim_as (HO := canonical_order) w_tb2
            (mkClaim (RK "path:/repo/src") "c" Shared 5 None true) "l3" 1).1
     at_ "c" (RK "path:/repo/src") Shared).
Proof.
  split; [exact w_tb2_wf|].
  exact (proj1 (proj2 (claim_granted_iff_unblocked (HashOrder0 := canonical_order) w_tb2
           (mkClaim (RK "path:/repo/src") "c" Shared 5 None true) "l3" 1 w_tb2_wf))).
Defined.

Lemma claim_as_three_outcomes_witness :
  keys_ok w_tb2 ∧
  claim_outcome (HO := canonical_order) w_tb2 (w_shared "a") "l3" 1
    (claim_as (HO := canonical_order) w_tb2 (w_shared "a") "l3" 1).
Proof.
  split; [exact (proj1 w_tb2_wf)|].
  exact (claim_as_three_outcomes (HashOrder0 := canonical_order) w_tb2 (w_shared "a") "l3" 1
           (proj1 w_tb2_wf)).
Defined.

Lemma expired_table_grants_everything_witness :
  (claim_as (HO := canonical_order) w_tb2
     (mkClaim (RK "path:/repo/src") "c" Exclusive 5 None false) "l3" 60).2 =
  Ok (New (fresh_lease (mkClaim (RK "path:/repo/src") "c" Exclusive 5 None false) "l3" 60)).
Proof.
  rewrite (expired_table_grants_everything (HashOrder0 := canonical_order) w_tb2); [reflexivity| |].
  - exact (proj1 w_tb2_wf).
  - apply (bool_decide_unpack (map_Forall (λ _ l, expires_at l ≤ 60) (leases w_tb2))).
    vm_compute. exact I.
Defined.

Lemma renew_release_by_holder_only_witness :
  release w_tb2 "l1" "b" = (w_tb2, Err (NotHolder "l1" "a" "b")).
Proof.
  rewrite (proj2 (renew_release_by_holder_only (HashOrder0 := canonical_order) w_tb2 "l1" "b" 5 1
                    (proj1 w_tb2_wf))).
  vm_compute. reflexivity.
Defined.

Lemma release_held_exact_witness :
  fresh_lease (w_shared "a") "l1" 0 ∈ (release_held (HO := canonical_order) w_tb2 "a" false).2.
Proof.
  apply (proj2 (release_held_exact (HashOrder0 := canonical_order) w_tb2 "a" false (proj1 w_tb2_wf))).
  vm_compute. split_and!; done.
Defined.

Lemma transfer_moves_all_live_witness :
  leases (transfer (HO := canonical_order) w_tb2 "a" "c" 1).1 !! "l1" =
    Some (moved_to "c" 1 (fresh_lease (w_shared "a") "l1" 0)).
Proof.
  apply (proj1 (proj2 (transfer_moves_all_live (HashOrder0 := canonical_order) w_tb2 "a" "c" 1 w_tb2_wf)));
    vm_compute; reflexivity.
Defined.

Lemma transfer_selected_safe_when_closed_witness :
  wf (transfer_selected (HO := canonical_order) w_tb2 "a" "c" {["l1"]} 1).1.
Proof.
  apply (transfer_selected_safe_when_closed (HashOrder0 := canonical_order)); [exact w_tb2_wf|].
  assert (map_Forall (λ _ l, mode l = Shared) (leases w_tb2)) as Hs.
  { apply (bool_decide_unpack _). vm_compute. exact I. }
  intros i j a b Ha Hb _ _ _ _. right. split; by eapply Hs.
Defined.

Lemma all_listing_deterministic_witness :
  keys_ok w_tb2 ∧ length (all (HO := canonical_order) w_tb2) = len w_tb2.
Proof.
  split; [exact (proj1 w_tb2_wf)|].
  apply (all_listing_deterministic canonical_order canonical_order w_tb2 (proj1 w_tb2_wf)).
Defined.
End LeaseProps.
