(* ===== verification/Idempotency.v ===== *)
(** * Idempotent sends

    The model of [crates/core/src/idempotency.rs]: the shape of a key, and the
    bounded ledger that answers a repeated key with the first answer. *)

From Stdlib Require Import Ascii.
From S2P Require Import Prelude RustStr.

Local Open Scope Z_scope.
Local Open Scope rust_scope.

Definition CAPACITY : nat := 4096.
Definition RETENTION : duration := hours 24.
Definition KEY_CHARS : nat := 128.

Definition nul : ascii := "000"%char.
Definition lf : ascii := "010"%char.
Definition cr : ascii := "013"%char.

(** [s.contains(['\0', '\n', '\r'])]. *)
Definition has_line_break (s : string) : bool :=
  contains_char nul s || contains_char lf s || contains_char cr s.

Definition check_key (key : string) : result unit string :=
  if (key == "") || (trim key == "") then Err "an idempotency key is not empty"
  else if key != trim key then Err "an idempotency key has no leading or trailing blanks"
  else if (KEY_CHARS <? chars_count key)%nat || has_line_break key
  then Err "an idempotency key is one line of at most 128 characters"
  else Ok tt.

Module Ledger.
Section WithAnswers.
Context {T : Type}.

(** [Key = (sender, key)]. *)
Abbreviation Key := (string * string)%type.

Record t := mk {
  order : list (Key * instant);
  answers : gmap Key T;
  capacity : nat;
  retention : duration;
}.

Definition new (capacity : nat) (retention : duration) : t := mk [] ∅ capacity retention.
Definition default : t := new CAPACITY RETENTION.

Definition drop_oldest (l : t) : t :=
  match order l with
  | [] => l
  | (entry, _) :: rest => mk rest (delete entry (answers l)) (capacity l) (retention l)
  end.

(** [while cond { self.drop_oldest() }]; every turn shortens the queue, so its
    length is enough turns. *)
Fixpoint drop_while (cond : t → bool) (turns : nat) (l : t) : t :=
  match turns with
  | O => l
  | S turns => if cond l then drop_while cond turns (drop_oldest l) else l
  end.

Definition expire (l : t) (now : instant) : t :=
  drop_while
    (λ l, match order l with
          | (_, at_) :: _ => retention l <=? now - at_
          | [] => false
          end)
    (length (order l)) l.

Definition lookup (l : t) (sender key : string) (now : instant) : t * option T :=
  let l := expire l now in
  (l, answers l !! (sender, key)).

Definition record (l : t) (sender key : string) (answer : T) (now : instant) : t :=
  let l := expire l now in
  let entry := (sender, key) in
  if is_some (answers l !! entry) then l
  else
    let l := mk (order l ++ [(entry, now)]) (<[entry := answer]> (answers l))
               (capacity l) (retention l) in
    drop_while (λ l, (capacity l <? length (order l))%nat) (length (order l)) l.

Definition len (l : t) : nat := length (order l).
Definition is_empty (l : t) : bool := (len l =? 0)%nat.

(** ** Invariant *)

(** The queue lists every answered key once, oldest first, within capacity;
    nothing was recorded after [now]. *)
Record wf (now : instant) (l : t) : Prop := {
  wf_nodup : NoDup (order l).*1;
  wf_dom : dom (answers l) = list_to_set (order l).*1;
  wf_sorted : StronglySorted (λ a b, a.2 ≤ b.2) (order l);
  wf_past : Forall (λ e, e.2 ≤ now) (order l);
  wf_cap : (length (order l) ≤ capacity l)%nat;
}.

Lemma order_drop_oldest l : order (drop_oldest l) = tail (order l).
Proof. by destruct l as [[|[??]?] ???]. Qed.

Lemma capacity_drop_oldest l : capacity (drop_oldest l) = capacity l.
Proof. by destruct l as [[|[??]?] ???]. Qed.

Lemma retention_drop_oldest l : retention (drop_oldest l) = retention l.
Proof. by destruct l as [[|[??]?] ???]. Qed.

(** Invariant without the bound, which holds between a push and the shrink. *)
Record wf_open (now : instant) (l : t) : Prop := {
  wo_nodup : NoDup (order l).*1;
  wo_dom : dom (answers l) = list_to_set (order l).*1;
  wo_sorted : StronglySorted (λ a b, a.2 ≤ b.2) (order l);
  wo_past : Forall (λ e, e.2 ≤ now) (order l);
}.

Lemma wf_iff now l : wf now l ↔ wf_open now l ∧ (length (order l) ≤ capacity l)%nat.
Proof. split; [intros []; split; [by constructor|done]|intros [[] ?]; by constructor]. Qed.

Lemma wf_open_drop_oldest now l : wf_open now l → wf_open now (drop_oldest l).
Proof.
  unfold drop_oldest. destruct l as [[|[e at_] o] a c r]; simpl; [done|].
  intros [Hnd Hd Hs Hp]; simpl in *.
  apply NoDup_cons in Hnd as [Hne Hnd]. apply StronglySorted_inv in Hs as [Hs _].
  apply Forall_cons in Hp as [_ Hp].
  constructor; simpl; [done| |done|done].
  rewrite dom_delete_L, Hd. set_solver.
Qed.

(** What a drop loop leaves: a suffix of the queue, the answers of the keys in
    it, and a loop condition that is over or an empty queue. *)
Lemma drop_while_spec cond turns now l :
  wf_open now l → (length (order l) ≤ turns)%nat →
  ∃ n, order (drop_while cond turns l) = drop n (order l) ∧
       wf_open now (drop_while cond turns l) ∧
       capacity (drop_while cond turns l) = capacity l ∧
       retention (drop_while cond turns l) = retention l ∧
       (order (drop_while cond turns l) ≠ [] → cond (drop_while cond turns l) = false) ∧
       (∀ k, k ∈ (drop n (order l)).*1 → answers (drop_while cond turns l) !! k = answers l !! k).
Proof.
  revert l. induction turns as [|turns IH]; intros l Hwf Hlen; simpl.
  { exists 0%nat. rewrite drop_0. split_and!; try done.
    destruct (order l); [done|]. simpl in Hlen. lia. }
  destruct (cond l) eqn:Hc; last first.
  { exists 0%nat. by rewrite drop_0. }
  destruct (IH (drop_oldest l)) as (n & Ho & Hw & Hcap & Hret & Hcond & Hans).
  { by apply wf_open_drop_oldest. }
  { rewrite order_drop_oldest. destruct (order l); simpl in *; lia. }
  exists (S n). rewrite order_drop_oldest in Ho, Hans.
  rewrite capacity_drop_oldest in Hcap. rewrite retention_drop_oldest in Hret.
  assert (drop n (tail (order l)) = drop (S n) (order l)) as Hd.
  { destruct (order l); simpl; [by rewrite drop_nil|done]. }
  rewrite Hd in Ho, Hans. split_and!; try done.
  intros k Hk. rewrite Hans by done. unfold drop_oldest.
  destruct (order l) as [|[e at_] o] eqn:Eo; [done|]. simpl in *.
  rewrite lookup_delete_ne; [done|]. intros ->.
  pose proof (wo_nodup _ _ Hwf) as Hnd. rewrite Eo in Hnd. simpl in Hnd.
  apply NoDup_cons in Hnd as [Hne _]. apply Hne.
  rewrite fmap_drop in Hk. by eapply subseteq_drop.
Qed.

Lemma wf_open_mono now now' l : wf_open now l → now ≤ now' → wf_open now' l.
Proof.
  intros [] Hle. constructor; try done. eapply Forall_impl; [done|]. simpl. lia.
Qed.

(** Expiry keeps exactly the entries younger than the retention. *)
Lemma elem_of_order_expire now l e now' :
  wf_open now' l →
  e ∈ order (expire l now) ↔ e ∈ order l ∧ now - e.2 < retention l.
Proof.
  unfold expire. remember (length (order l)) as n eqn:Hn.
  revert l Hn. induction n as [|n IH]; intros l Hn Hwf; simpl.
  { destruct (order l); [|done]. set_solver. }
  destruct (order l) as [|[k a] o] eqn:Eo; [done|].
  destruct (retention l <=? now - a) eqn:Hc.
  - rewrite IH; [|rewrite order_drop_oldest, Eo; simpl in *; lia|by apply wf_open_drop_oldest].
    rewrite order_drop_oldest, retention_drop_oldest, Eo. simpl.
    rewrite elem_of_cons. split; [naive_solver|]. intros [[->|?] ?]; [simpl in *; lia|done].
  - rewrite Eo. split; [|by intros [? _]]. intros He. split; [done|].
    pose proof (wo_sorted _ _ Hwf) as Hs. rewrite Eo in Hs.
    apply StronglySorted_inv in Hs as [_ Hall]. rewrite Forall_forall in Hall.
    apply elem_of_cons in He as [->|He]; simpl in *; [lia|]. specialize (Hall e He). simpl in *. lia.
Qed.

Lemma expire_spec now now' l :
  wf_open now' l →
  wf_open now' (expire l now) ∧ capacity (expire l now) = capacity l ∧
  retention (expire l now) = retention l ∧
  (∃ n, order (expire l now) = drop n (order l)) ∧
  (∀ k, k ∈ (order (expire l now)).*1 → answers (expire l now) !! k = answers l !! k).
Proof.
  intros Hwf. unfold expire.
  edestruct drop_while_spec as (n & Ho & Hw & Hc & Hr & _ & Ha); [done|reflexivity|].
  split_and!; try done; [by eauto|]. by rewrite Ho.
Qed.

Lemma answered_in_order now l k a : wf_open now l → answers l !! k = Some a → k ∈ (order l).*1.
Proof.
  intros Hwf Ha. apply (elem_of_list_to_set (C := gset Key)).
  rewrite <-(wo_dom _ _ Hwf). apply elem_of_dom. eauto.
Qed.

Lemma in_order_answered now l k : wf_open now l → k ∈ (order l).*1 → is_Some (answers l !! k).
Proof.
  intros Hwf Hk. apply elem_of_dom. rewrite (wo_dom _ _ Hwf). by apply elem_of_list_to_set.
Qed.

(** [k] was answered [a] less than the retention ago and is still kept. *)
Definition remembered (l : t) (k : Key) (now : instant) (a : T) : Prop :=
  answers l !! k = Some a ∧ ∃ at_, (k, at_) ∈ order l ∧ now - at_ < retention l.

Lemma expire_answers now now' l k a :
  wf_open now' l → answers (expire l now) !! k = Some a ↔ remembered l k now a.
Proof.
  intros Hwf. destruct (expire_spec now now' l Hwf) as (Hw & _ & _ & _ & Ha). split.
  - intros Hk. pose proof (answered_in_order _ _ _ _ Hw Hk) as Hin.
    rewrite Ha in Hk by done. split; [done|].
    apply list_elem_of_fmap in Hin as ([k' at_] & -> & Hin).
    apply (elem_of_order_expire now l _ now' Hwf) in Hin as [? ?]. by exists at_.
  - intros [Hk (at_ & Hin & Hy)]. rewrite Ha; [done|].
    apply list_elem_of_fmap. exists (k, at_). split; [done|].
    by apply (elem_of_order_expire now l _ now' Hwf).
Qed.

(** A recorded ledger before the shrink. *)
Definition pushed (l : t) (e : Key) (a : T) (now : instant) : t :=
  mk (order l ++ [(e, now)]) (<[e := a]> (answers l)) (capacity l) (retention l).

Lemma wf_open_pushed l e a now :
  wf_open now l → answers l !! e = None → wf_open now (pushed l e a now).
Proof.
  intros Hwf Hn. pose proof Hwf as [Hnd Hd Hs Hp]. unfold pushed. constructor; simpl.
  - rewrite fmap_app. apply NoDup_app. split_and!; [done| |apply NoDup_singleton].
    intros k Hk Hin. apply list_elem_of_singleton in Hin as ->.
    destruct (in_order_answered _ _ _ Hwf Hk). simpl in *. congruence.
  - rewrite dom_insert_L, Hd, fmap_app, list_to_set_app_L. set_solver.
  - apply StronglySorted_app_2; [|done|repeat constructor].
    intros x y Hx ->%list_elem_of_singleton. simpl.
    rewrite Forall_forall in Hp. by apply Hp.
  - apply Forall_app. split; [done|]. by constructor.
Qed.

Definition over_capacity (l : t) : bool := (capacity l <? length (order l))%nat.

Lemma order_shrink turns l :
  (length (order l) ≤ turns)%nat →
  order (drop_while over_capacity turns l) = drop (length (order l) - capacity l) (order l).
Proof.
  revert l. induction turns as [|turns IH]; intros l Hlen; simpl.
  { destruct (order l); [by rewrite drop_nil|simpl in *; lia]. }
  unfold over_capacity at 1. destruct (Nat.ltb_spec (capacity l) (length (order l))).
  - rewrite IH; rewrite order_drop_oldest, ?capacity_drop_oldest;
      destruct (order l) as [|e o]; simpl in *; try lia.
    by replace (S (length o) - capacity l)%nat with (S (length o - capacity l)) by lia.
  - by replace (length (order l) - capacity l)%nat with 0%nat by lia.
Qed.

(** Recording: a key that is remembered changes nothing; any other is pushed,
    and the ledger keeps its newest [capacity] entries. *)
Lemma record_spec l s k a now now' :
  wf now' l → now' ≤ now →
  wf now (record l s k a now) ∧
  capacity (record l s k a now) = capacity l ∧ retention (record l s k a now) = retention l ∧
  match answers (expire l now) !! (s, k) with
  | Some _ => record l s k a now = expire l now
  | None =>
      let o := order (expire l now) ++ [((s, k), now)] in
      order (record l s k a now) = drop (length o - capacity l) o ∧
      (∀ q, q ∈ (order (record l s k a now)).*1 →
         answers (record l s k a now) !! q = <[(s, k) := a]> (answers (expire l now)) !! q)
  end.
Proof.
  intros [Hwo Hlen]%wf_iff Hle.
  destruct (expire_spec now now' l Hwo) as (Hw & Hc & Hr & [n Ho] & Ha).
  apply (wf_open_mono _ now) in Hw; [|done]. unfold record.
  destruct (answers (expire l now) !! (s, k)) as [b|] eqn:Eb; simpl.
  { split_and!; try done. apply wf_iff. split; [done|].
    rewrite Ho, Hc, length_drop. lia. }
  pose proof (wf_open_pushed (expire l now) (s, k) a now Hw Eb) as Hp.
  fold over_capacity. fold (pushed (expire l now) (s, k) a now).
  destruct (drop_while_spec over_capacity (length (order (pushed (expire l now) (s, k) a now)))
              now _ Hp (reflexivity _)) as (n' & Ho' & Hw' & Hc' & Hr' & _ & Ha').
  pose proof (order_shrink (length (order (pushed (expire l now) (s, k) a now))) _
                (reflexivity _)) as Hs.
  simpl in Hs, Hc', Hr', Ho', Ha'. rewrite Hc in Hs, Hc'. rewrite Hr in Hr'.
  split_and!; try done.
  - apply wf_iff. split; [done|]. rewrite Hc', Hs, length_drop. lia.
  - intros q Hq. simpl in Hq. rewrite Ho' in Hq. by apply Ha'.
Qed.
End WithAnswers.
Global Arguments t : clear implicits.
End Ledger.

(** ** Runs of the ledger *)

Module LedgerFacts.
Import Ledger.

Section WithAnswers.
Context {T : Type}.
Implicit Types (l : Ledger.t T) (k : string * string) (a : T).

(** One keyed send: who, under which key, what it was answered, and when. *)
Record send := Send { s_sender : string; s_key : string; s_answer : T; s_at : instant }.

Definition record_send l (x : send) : Ledger.t T :=
  record l (s_sender x) (s_key x) (s_answer x) (s_at x).

Definition run l (xs : list send) : Ledger.t T := foldl record_send l xs.

(** The sends happen in order, none before [now]. *)
Fixpoint in_order (now : instant) (xs : list send) : Prop :=
  match xs with
  | [] => True
  | x :: xs => now ≤ s_at x ∧ in_order (s_at x) xs
  end.

Fixpoint last_at (now : instant) (xs : list send) : instant :=
  match xs with [] => now | x :: xs => last_at (s_at x) xs end.

Lemma wf_run now l xs :
  wf now l → in_order now xs → wf (last_at now xs) (run l xs).
Proof.
  revert now l. induction xs as [|x xs IH]; intros now l Hwf; simpl; [done|].
  intros [Hle Hin]. apply IH; [|done]. by apply (record_spec l _ _ _ _ now).
Qed.

(** The entry is kept with at most [n] younger ones. *)
Definition kept l k (at_ : instant) a (n : nat) : Prop :=
  answers l !! k = Some a ∧
  ∃ pre post, order l = pre ++ (k, at_) :: post ∧ (length post ≤ n)%nat.

Lemma suffix_keeps {A} (n : nat) (l pre post : list A) (e : A) :
  NoDup l → l = pre ++ e :: post → e ∈ drop n l → ∃ pre', drop n l = pre' ++ e :: post.
Proof.
  intros Hnd -> Hin. destruct (decide (n ≤ length pre)%nat) as [Hn|Hn].
  - exists (drop n pre). by rewrite drop_app_le.
  - exfalso. rewrite drop_app_ge in Hin by lia.
    destruct (n - length pre)%nat as [|m] eqn:Em; [lia|]. simpl in Hin.
    apply NoDup_app in Hnd as (_ & _ & [Hne _]%NoDup_cons). apply Hne.
    by eapply subseteq_drop.
Qed.

(** Each further send pushes an entry back by at most one place; with room for
    it, it stays. *)
Lemma kept_record now l k at_ a n x :
  wf now l → now ≤ s_at x → kept l k at_ a n → s_at x - at_ < retention l →
  (S (S n) ≤ capacity l)%nat →
  kept (record_send l x) k at_ a (S n).
Proof.
  intros Hwf Hle [Ha (pre & post & Ho & Hp)] Hyoung Hcap.
  pose proof (proj1 (proj1 (wf_iff _ _) Hwf)) as Hwo.
  destruct (expire_spec (s_at x) now l Hwo) as (Hwe & Hce & Hre & [m Hm] & Hae).
  assert (∃ pre', order (expire l (s_at x)) = pre' ++ (k, at_) :: post) as [pre' Hpre'].
  { rewrite Hm. apply (suffix_keeps m (order l) pre post (k, at_)).
    - eapply NoDup_fmap_1. apply (wo_nodup _ _ Hwo).
    - done.
    - rewrite <-Hm. apply (elem_of_order_expire _ _ _ now Hwo).
      rewrite Ho. split; [set_solver|done]. }
  assert (answers (expire l (s_at x)) !! k = Some a) as Hak.
  { rewrite Hae; [done|]. rewrite Hpre', fmap_app. set_solver. }
  destruct (record_spec l (s_sender x) (s_key x) (s_answer x) (s_at x) now Hwf Hle)
    as (_ & _ & _ & Hrec). unfold record_send.
  destruct (answers (expire l (s_at x)) !! (s_sender x, s_key x)) as [b|] eqn:Eb.
  { rewrite Hrec. split; [done|]. exists pre', post. split; [done|lia]. }
  destruct Hrec as [Hord Hans].
  set (o := order (expire l (s_at x)) ++ [(s_sender x, s_key x, s_at x)]) in *.
  assert (o = pre' ++ (k, at_) :: (post ++ [(s_sender x, s_key x, s_at x)])) as Hoo.
  { unfold o. rewrite Hpre'. by rewrite <-app_assoc. }
  assert (length o - capacity l ≤ length pre')%nat as Hroom.
  { rewrite Hoo, length_app. simpl. rewrite length_app. simpl. lia. }
  rewrite Hoo, drop_app_le in Hord by (rewrite <-Hoo; lia).
  split; [|eexists _, _; split; [exact Hord|rewrite length_app; simpl; lia]].
  rewrite Hans by (rewrite Hord, fmap_app; set_solver).
  rewrite lookup_insert_ne; [done|]. congruence.
Qed.

Lemma kept_run now l k at_ a n xs :
  wf now l → in_order now xs → kept l k at_ a n →
  last_at now xs - at_ < retention l →
  (S (n + length xs) ≤ capacity l)%nat →
  kept (run l xs) k at_ a (n + length xs) ∧ retention (run l xs) = retention l.
Proof.
  revert now l n. induction xs as [|x xs IH]; intros now l n Hwf Hin Hk Hy Hc; simpl.
  { by rewrite Nat.add_0_r. }
  simpl in *. destruct Hin as [Hle Hin].
  destruct (record_spec l (s_sender x) (s_key x) (s_answer x) (s_at x) now Hwf Hle)
    as (Hwf' & Hc' & Hr' & _).
  assert (∀ xs now, in_order now xs → now ≤ last_at now xs) as Hmono.
  { clear. induction xs as [|y ys IH]; simpl; [done|]. intros now [? ?%IH]. lia. }
  pose proof (Hmono _ _ Hin).
  replace (n + S (length xs))%nat with (S n + length xs)%nat by lia.
  rewrite <-Hr'. apply (IH (s_at x)); try done.
  - eapply kept_record; [done|done|done|lia|lia].
  - unfold record_send. rewrite Hr'. lia.
  - unfold record_send. rewrite Hc'. lia.
Qed.
End WithAnswers.
Global Arguments send : clear implicits.
End LedgerFacts.

(** ** Properties *)

Module LedgerProps.
Import Ledger LedgerFacts.

(** C7: A repeated key is answered with the first answer: after a send recorded
    under a key that was not remembered, any later sends (fewer than the
    capacity) leave a lookup of that key inside the retention answering what the
    first send was answered, so a client's retry is never queued twice. *)
Theorem first_answer_survives {T} (l : Ledger.t T) now0 sender key a t0 xs t1 :
  wf now0 l → now0 ≤ t0 → (0 < capacity l)%nat → 0 < retention l →
  (lookup l sender key t0).2 = None →
  in_order t0 xs → last_at t0 xs ≤ t1 → t1 - t0 < retention l →
  (length xs < capacity l)%nat →
  (lookup (run (record l sender key a t0) xs) sender key t1).2 = Some a.
Proof.
  intros Hwf H0 Hcap Hret Hnone Hin Hlast Ht1 Hlen.
  destruct (record_spec l sender key a t0 now0 Hwf H0) as (Hwf' & Hc & Hr & Hrec).
  unfold lookup in Hnone. simpl in Hnone. rewrite Hnone in Hrec. destruct Hrec as [Hord Hans].
  assert (kept (record l sender key a t0) (sender, key) t0 a 0) as Hk.
  { pose proof Hord as Hord'. rewrite drop_app_le in Hord'.
    - split; [|eexists _, []; split; [exact Hord'|simpl; lia]].
      rewrite Hans by (rewrite Hord', fmap_app; set_solver). apply lookup_insert_eq.
    - rewrite length_app. simpl. lia. }
  destruct (kept_run t0 _ _ _ _ _ xs Hwf' Hin Hk) as [[Ha (pre & post & Ho & _)] Hr2]; [lia..|].
  unfold lookup. simpl.
  apply (expire_answers t1 (last_at t0 xs)).
  - apply wf_iff. by apply wf_run.
  - split; [done|]. exists t0. rewrite Ho, Hr2, Hr. split; [set_solver|lia].
Qed.

(** Along any run in time order the ledger never keeps more than its capacity,
    lists every answered key exactly once, oldest first, and keeps an answer for
    exactly the keys it lists. *)
Theorem ledger_run_bounded {T} (cap : nat) (ret : duration) (xs : list (LedgerFacts.send T)) now :
  in_order now xs →
  let l := run (Ledger.new cap ret) xs in
  (len l ≤ cap)%nat ∧ NoDup (order l).*1 ∧ dom (answers l) = list_to_set (order l).*1 ∧
  StronglySorted (λ a b, a.2 ≤ b.2) (order l).
Proof.
  intros Hin. assert (wf now (Ledger.new (T := T) cap ret)) as Hwf0.
  { constructor; simpl; [constructor|done|constructor|constructor|lia]. }
  destruct (wf_run now _ xs Hwf0 Hin) as [Hnd Hd Hs _ Hc]. simpl.
  split_and!; try done. unfold len. etrans; [exact Hc|].
  enough (∀ (ys : list (LedgerFacts.send T)) now l, wf now l → in_order now ys →
            capacity (run l ys) = capacity l) as Hcap.
  { by rewrite (Hcap xs now _ Hwf0 Hin). }
  clear. induction ys as [|y ys IH]; intros now l Hwf; simpl; [done|]. intros [Hle Hin].
  destruct (record_spec l (s_sender y) (s_key y) (s_answer y) (s_at y) now Hwf Hle)
    as (Hwf' & Hc & _ & _). etrans; [exact (IH _ _ Hwf' Hin)|done].
Qed.

(** A lookup answers exactly what was recorded less than the retention ago
    and has not been crowded out, and another sender's use of the same key is
    another entry: recording one leaves the other's answer alone while there is
    room. *)
Theorem lookup_remembers_exactly {T} (l : Ledger.t T) now0 sender key now a :
  wf now0 l →
  ((lookup l sender key now).2 = Some a ↔ remembered l (sender, key) now a) ∧
  (∀ sender' b, sender' ≠ sender → now0 ≤ now →
     (length (order l) < capacity l)%nat → remembered l (sender, key) now a →
     (lookup (record l sender' key b now) sender key now).2 = Some a).
Proof.
  intros Hwf. pose proof (proj1 (proj1 (wf_iff _ _) Hwf)) as Hwo.
  split; [by apply (expire_answers now now0)|].
  intros s' b Hne Hle Hroom Hrem. unfold lookup; simpl.
  pose proof Hrem as [Ha (at_ & Hin & Hy)].
  destruct (record_spec l s' key b now now0 Hwf Hle) as (Hwf' & _ & Hr & Hrec).
  apply (expire_answers now now); [by apply wf_iff|].
  destruct (expire_spec now now0 l Hwo) as (_ & _ & Hre & [n Hn] & _).
  assert ((sender, key, at_) ∈ order (expire l now)) as Hin'.
  { by apply (elem_of_order_expire now l _ now0 Hwo). }
  assert (answers (expire l now) !! (sender, key) = Some a) as Ha'.
  { by apply (expire_answers now now0). }
  destruct (answers (expire l now) !! (s', key)) as [c|] eqn:Ec.
  { rewrite Hrec. split; [done|]. exists at_. rewrite Hre. done. }
  destruct Hrec as [Hord Hans]. rewrite length_app, Hn, length_drop in Hord. simpl in Hord.
  replace (_ - capacity l)%nat with 0%nat in Hord by lia. rewrite drop_0, <-Hn in Hord.
  split; [|exists at_; rewrite Hord, Hr; split; [set_solver|done]].
  rewrite Hans, lookup_insert_ne; [done|congruence|].
  rewrite Hord. apply list_elem_of_fmap. exists (sender, key, at_). set_solver.
Qed.

(** [check_key] accepts exactly the keys that are not empty, carry no blanks
    around, have at most 128 characters and no NUL or line break. *)
Theorem check_key_accepts_iff key :
  check_key key = Ok tt ↔
    key ≠ "" ∧ trim key = key ∧ (chars_count key ≤ 128)%nat ∧
    contains_char nul key = false ∧ contains_char lf key = false ∧ contains_char cr key = false.
Proof.
  unfold check_key, has_line_break, KEY_CHARS.
  destruct (key == "") eqn:E1; split_and_bool; simpl; [split; [done|]; tauto|].
  destruct (trim key == "") eqn:E2; split_and_bool; simpl;
    [split; [done|]; intros (? & ? & _); congruence|].
  destruct (key == trim key) eqn:E3; split_and_bool; simpl;
    [|split; [done|]; intros (_ & ? & _); congruence].
  destruct (Nat.ltb_spec 128 (chars_count key)) as [Hl|Hl]; simpl;
    [split; [done|]; intros (_ & _ & ? & _); lia|].
  destruct (contains_char nul key), (contains_char lf key), (contains_char cr key); simpl;
    (split; [intros Hok; simplify_eq; split_and!; try done; lia|by intros (_ & _ & _ & ? & ? & ?)]).
Qed.

(** *** Witnesses *)

Definition w_ledger : Ledger.t nat := Ledger.new 2 10.

Lemma w_ledger_wf : wf 0 w_ledger.
Proof. constructor; simpl; [constructor|done|constructor|constructor|lia]. Qed.

Lemma first_answer_survives_witness :
  (lookup (run (record w_ledger "a" "k" 7%nat 1) [Send "b" "k" 8%nat 2]) "a" "k" 9).2 = Some 7%nat.
Proof.
  apply (first_answer_survives w_ledger 0 "a" "k" 7%nat 1 [Send "b" "k" 8%nat 2] 9);
    [exact w_ledger_wf|simpl; lia|simpl; lia|simpl; lia|reflexivity|simpl; lia|simpl; lia
    |simpl; lia|simpl; lia].
Defined.

Lemma ledger_run_bounded_witness :
  (len (run (Ledger.new 1 10) [Send "a" "k" 7%nat 1; Send "b" "k" 8%nat 2]) ≤ 1)%nat.
Proof.
  apply (ledger_run_bounded 1 10 [Send "a" "k" 7%nat 1; Send "b" "k" 8%nat 2] 0). simpl. lia.
Defined.

Lemma lookup_remembers_exactly_witness :
  (lookup (record w_ledger "a" "k" 7%nat 1) "a" "k" 20).2 = Some 7%nat ↔
  remembered (record w_ledger "a" "k" 7%nat 1) ("a", "k") 20 7%nat.
Proof.
  apply (lookup_remembers_exactly (record w_ledger "a" "k" 7%nat 1) 1).
  apply (record_spec w_ledger "a" "k" 7%nat 1 0); [exact w_ledger_wf|lia].
Defined.
End LedgerProps.
