(* ===== verification/Rank.v ===== *)
(** * Ranks: strings that sort between any two

    The model of the module [rank] of [crates/core/src/board.rs]: the order of
    cards within a lane is a string rank, and moving a card between two others
    makes a rank strictly between theirs. *)

From Stdlib Require Import Ascii.
From S2P Require Import Prelude RustStr.

Local Open Scope nat_scope.
Local Open Scope rust_scope.

Definition DIGITS : string := "0123456789abcdefghijklmnopqrstuvwxyz".
Definition BASE : nat := 36.

(** [DIGITS.iter().position(|d| *d == byte)]. *)
Fixpoint position (c : ascii) (s : string) : option nat :=
  match s with
  | EmptyString => None
  | String d s => if Ascii.eqb d c then Some 0 else S <$> position c s
  end.

Definition index (byte : ascii) : nat := unwrap_or 0 (position byte DIGITS).

(** [DIGITS[i]]; [None] is the panic of an index out of range. *)
Definition digit_at (i : nat) : option ascii := String.get i DIGITS.

(** Slices [&s[n..]]. *)
Fixpoint sdrop (n : nat) (s : string) : string :=
  match n, s with
  | S n, String _ s => sdrop n s
  | _, _ => s
  end.

(** The common prefix, reading a short [low] as padded with [0]. *)
Fixpoint common_prefix (low high : string) : nat :=
  match high with
  | EmptyString => 0
  | String h high' =>
      let '(l, low') := match low with
                        | EmptyString => ("0"%char, EmptyString)
                        | String c low' => (c, low')
                        end in
      if Ascii.eqb l h then S (common_prefix low' high') else 0
  end.

Definition non_empty (s : string) : option string := if s == "" then None else Some s.

(** [midpoint]. [None] stands for a panic or for running out of turns; neither
    happens ([midpoint_between]). *)
Fixpoint midpoint (turns : nat) (low : string) (high : option string) : option string :=
  match turns with
  | O => None
  | S turns =>
      let n := match high with Some h => common_prefix low h | None => 0 end in
      match high, n with
      | Some h, S _ =>
          rest ← midpoint turns (sdrop n low) (non_empty (sdrop n h));
          Some (stake n h ++ rest)%string
      | _, _ =>
          let a := match low with EmptyString => 0 | String c _ => index c end in
          b ← match high with
              | None => Some BASE
              | Some EmptyString => None
              | Some (String c _) => Some (index c)
              end;
          if a + 1 <? b then
            d ← digit_at (Nat.div2 (a + b));
            Some (String d EmptyString)
          else
            match high with
            | Some (String c (String _ _)) => Some (String c EmptyString)
            | _ =>
                d ← digit_at a;
                rest ← midpoint turns (sdrop 1 low) None;
                Some (String d rest)
            end
      end
  end.

(** Turns that are always enough: every recursive call shortens the bounds. *)
Definition midpoint_turns (low : string) (high : option string) : nat :=
  S (String.length low + match high with Some h => S (String.length h) | None => 0 end).

(** [rank::between]; [None] is also the panic of [expect("ascii digits")]. *)
Definition between (before after : option string) : option string :=
  let low := unwrap_or "" before in
  let high := after ≫= non_empty in
  out ← midpoint (midpoint_turns low high) low high;
  from_utf8 out.

(** ** Ranks *)

Definition is_digit (c : ascii) : bool := is_some (position c DIGITS).
Definition digits (s : string) : bool := sforall is_digit s.

(** The last byte is not [0]. *)
Fixpoint no_trailing_zero (s : string) : bool :=
  match s with
  | EmptyString => true
  | String c EmptyString => negb (Ascii.eqb c "0")
  | String _ s => no_trailing_zero s
  end.

(** A well-formed rank. *)
Definition rank_ok (s : string) : bool := digits s && no_trailing_zero s && (s != "").

Definition str_ltb (a b : string) : bool := String.ltb a b.

Lemma str_ltb_nil s : str_ltb "" s = true ↔ s ≠ "".
Proof. destruct s; vm_compute; split; congruence. Qed.

Lemma str_ltb_cons c s d t :
  str_ltb (String c s) (String d t) = true ↔
    (N_of_ascii c < N_of_ascii d)%N ∨ (c = d ∧ str_ltb s t = true).
Proof.
  unfold str_ltb, String.ltb. simpl. unfold Ascii.compare.
  destruct (N.compare_spec (N_of_ascii c) (N_of_ascii d)) as [He|Hl|Hg].
  - assert (c = d) as ->.
    { rewrite <-(ascii_N_embedding c), <-(ascii_N_embedding d). by rewrite He. }
    split; [intros H; right; by split|]. intros [?|[_ H]]; [lia|exact H].
  - split; [by left|done].
  - split; [done|]. intros [?|[-> _]]; lia.
Qed.

Lemma str_ltb_irrefl s : str_ltb s s = false.
Proof.
  apply not_true_iff_false. induction s as [|c s IH]; [done|].
  rewrite str_ltb_cons. intros [?|[_ ?]]; [lia|done].
Qed.

(** The bytes of the digits are in the order of their indices. *)
Lemma digit_table :
  forallb (λ i, match digit_at i with
                | Some d => (index d =? i) && is_digit d &&
                            forallb (λ j, match digit_at j with
                                          | Some e => Bool.eqb (i <? j) (N_of_ascii d <? N_of_ascii e)%N
                                          | None => false
                                          end) (seq 0 BASE)
                | None => false
                end) (seq 0 BASE) = true.
Proof. vm_compute. reflexivity. Qed.

Lemma digit_at_lt i : i < BASE → ∃ d, digit_at i = Some d ∧ index d = i ∧ is_digit d = true.
Proof.
  intros Hi. pose proof digit_table as Ht. rewrite forallb_forall in Ht.
  specialize (Ht i). rewrite in_seq in Ht. specialize (Ht ltac:(unfold BASE in *; lia)).
  destruct (digit_at i) as [d|]; [|done]. split_and_bool. exists d.
  split_and!; [done| |done]. by apply Nat.eqb_eq.
Qed.

Lemma position_lt c s i : position c s = Some i → i < String.length s ∧ String.get i s = Some c.
Proof.
  revert i. induction s as [|d s IH]; intros i; simpl; [done|].
  destruct (Ascii.eqb_spec d c) as [->|Hne].
  - intros [= <-]. split; [lia|done].
  - intros (j & Hj & ->)%fmap_Some. apply IH in Hj as [? ?]. split; [lia|done].
Qed.

Lemma digit_index c : is_digit c = true → index c < BASE ∧ digit_at (index c) = Some c.
Proof.
  unfold is_digit, index. destruct (position c DIGITS) as [i|] eqn:E; [|done]. intros _.
  apply position_lt in E as [Hlt Hg]. by split.
Qed.

(** On digits the byte order is the order of the indices. *)
Lemma digit_order c d :
  is_digit c = true → is_digit d = true →
  (N_of_ascii c < N_of_ascii d)%N ↔ index c < index d.
Proof.
  intros [Hi Hc]%digit_index [Hj Hd]%digit_index.
  pose proof digit_table as Ht. rewrite forallb_forall in Ht.
  specialize (Ht (index c)). rewrite in_seq, Hc in Ht. specialize (Ht ltac:(lia)).
  split_and_bool.
  match goal with H : forallb _ _ = true |- _ => rewrite forallb_forall in H; specialize (H (index d)) as Hd' end.
  rewrite in_seq, Hd in Hd'. specialize (Hd' ltac:(lia)). apply Bool.eqb_prop in Hd'.
  rewrite <-N.ltb_lt, <-Nat.ltb_lt. by rewrite Hd'.
Qed.

Lemma index_inj c d : is_digit c = true → is_digit d = true → index c = index d → c = d.
Proof. intros [_ Hc]%digit_index [_ Hd]%digit_index He. rewrite He in Hc. congruence. Qed.

Lemma is_digit_zero : is_digit "0" = true ∧ index "0" = 0.
Proof. done. Qed.

(** ** The common prefix *)

Lemma no_trailing_zero_cons c d s :
  no_trailing_zero (String c (String d s)) = no_trailing_zero (String d s).
Proof. done. Qed.

Lemma no_trailing_zero_tail c s : no_trailing_zero (String c s) = true → no_trailing_zero s = true.
Proof. by destruct s. Qed.

(** Splitting off the common prefix keeps the bounds apart, and whatever lies
    between the rests lies, behind the prefix, between the bounds. *)
Lemma common_prefix_spec low h :
  digits low = true → digits h = true → no_trailing_zero h = true → str_ltb low h = true →
  let n := common_prefix low h in
  let rl := sdrop n low in let rh := sdrop n h in
  rh ≠ "" ∧ str_ltb rl rh = true ∧ digits rl = true ∧ digits rh = true ∧ no_trailing_zero rh = true ∧
  digits (stake n h) = true ∧
  common_prefix rl rh = 0 ∧
  String.length rl ≤ String.length low ∧ String.length rh + n = String.length h ∧
  ∀ out, out ≠ "" →
    (str_ltb rl out = true → str_ltb low (stake n h ++ out) = true) ∧
    (str_ltb out rh = true → str_ltb (stake n h ++ out) h = true).
Proof.
  revert low. induction h as [|c h IH]; intros low Hl Hh Hz Hlt; simpl.
  { by destruct low. }
  simpl in Hh. apply andb_true_iff in Hh as [Hc Hh].
  set (p := match low with
            | EmptyString => ("0"%char, EmptyString)
            | String c low' => (c, low')
            end).
  destruct (Ascii.eqb p.1 c) eqn:Ep.
  - replace (let '(l, low') := p in if Ascii.eqb l c then S (common_prefix low' h) else 0)
      with (S (common_prefix p.2 h)) by (destruct p; simpl in *; by rewrite Ep).
    apply Ascii.eqb_eq in Ep.
    assert (digits p.2 = true ∧ str_ltb p.2 h = true ∧ String.length p.2 ≤ String.length low ∧
            sdrop (S (common_prefix p.2 h)) low = sdrop (common_prefix p.2 h) p.2) as (Hd2 & Hlt2 & Hlen2 & Hdrop).
    { destruct low as [|d low']; simpl in *.
      - subst c. split_and!; [done| |lia|by destruct (common_prefix _ _)].
        apply str_ltb_nil. by intros ->.
      - subst d. apply andb_true_iff in Hl as [_ Hl]. apply str_ltb_cons in Hlt as [?|[_ ?]]; [lia|].
        split_and!; [done|done|lia|done]. }
    rewrite Hdrop. simpl. specialize (IH p.2 Hd2 Hh (no_trailing_zero_tail _ _ Hz) Hlt2).
    destruct IH as (H1 & H2 & H3 & H4 & H5 & H6 & H7 & H8 & H9 & H10).
    split_and!; try done; [by apply andb_true_iff|lia|lia|].
    intros out Hout. destruct (H10 out Hout) as [Hlow Hhigh]. rewrite append_cons. split.
    + intros Hr. specialize (Hlow Hr). destruct low as [|d low']; [by apply str_ltb_nil|].
      simpl in *. subst d. apply str_ltb_cons. by right.
    + intros Hr. apply str_ltb_cons. right. auto.
  - replace (let '(l, low') := p in if Ascii.eqb l c then S (common_prefix low' h) else 0)
      with 0 by (destruct p; simpl in *; by rewrite Ep).
    assert (sdrop 0 low = low) as -> by by destruct low.
    simpl. split_and!; try done; try lia; try (by apply andb_true_iff).
    fold p. destruct p; simpl in *. by rewrite Ep.
Qed.

(** ** The midpoint *)

Definition first_index (low : string) : nat :=
  match low with EmptyString => 0 | String c _ => index c end.

Lemma first_index_lt low : digits low = true → first_index low < BASE.
Proof.
  destruct low as [|c low]; simpl; [unfold BASE; lia|].
  intros [Hc _]%andb_true_iff. by apply digit_index.
Qed.

(** A first digit past [low]'s is past [low]. *)
Lemma past_first low d t :
  digits low = true → is_digit d = true → first_index low < index d →
  str_ltb low (String d t) = true.
Proof.
  destruct low as [|c low]; simpl; [done|]. intros [Hc _]%andb_true_iff Hd Hlt.
  apply str_ltb_cons. left. by apply digit_order.
Qed.

Lemma nonzero_index d : is_digit d = true → 0 < index d → Ascii.eqb d "0" = false.
Proof. intros Hd Hlt. apply Ascii.eqb_neq. intros ->. vm_compute in Hlt. lia. Qed.

Lemma rank_ok_single d : is_digit d = true → 0 < index d → rank_ok (String d EmptyString) = true.
Proof.
  intros Hd Hlt. unfold rank_ok, digits. simpl. by rewrite Hd, nonzero_index.
Qed.

Lemma rank_ok_cons d s : is_digit d = true → rank_ok s = true → rank_ok (String d s) = true.
Proof.
  unfold rank_ok, digits. intros Hd Hs. split_and_bool. simpl. rewrite Hd.
  destruct s as [|e s]; [done|].
  match goal with H : no_trailing_zero _ = true |- _ => rewrite H end.
  match goal with H : sforall _ _ = true |- _ => rewrite H end. done.
Qed.

Lemma rank_ok_app p s : digits p = true → rank_ok s = true → rank_ok (p ++ s) = true.
Proof.
  induction p as [|c p IH]; [by rewrite append_nil_l|]. rewrite append_cons. simpl.
  intros [Hc Hp]%andb_true_iff Hs. apply rank_ok_cons; auto.
Qed.

(** Halfway between two digit indices that are not adjacent. *)
Lemma halfway a b : a + 1 < b → a < Nat.div2 (a + b) < b.
Proof. intros Hlt. rewrite Nat.div2_div. split; [apply Nat.div_le_lower_bound|apply Nat.Div0.div_lt_upper_bound]; lia. Qed.

(** A low bound's digit kept, room is found behind it. *)
Lemma kept_digit low d rest :
  digits low = true → digit_at (first_index low) = Some d → is_digit d = true →
  str_ltb (sdrop 1 low) rest = true → str_ltb low (String d rest) = true.
Proof.
  destruct low as [|c low]; simpl; [done|]. intros [Hc _]%andb_true_iff Hd _ Hlt.
  apply digit_index in Hc as [_ Hc]. assert (c = d) as -> by congruence.
  apply str_ltb_cons. by destruct low; right.
Qed.

Lemma digits_sdrop1 low : digits low = true → digits (sdrop 1 low) = true.
Proof. destruct low as [|c low]; [done|]. simpl. intros [_ ?]%andb_true_iff. by destruct low. Qed.

Lemma length_sdrop1 low : String.length (sdrop 1 low) = String.length low - 1.
Proof. destruct low as [|c [|d low]]; simpl; lia. Qed.

(** One unfolding, with the reads of the first digits named. *)
Lemma midpoint_None turns low :
  midpoint (S turns) low None =
    if first_index low + 1 <? BASE then
      d ← digit_at (Nat.div2 (first_index low + BASE)); Some (String d EmptyString)
    else d ← digit_at (first_index low); rest ← midpoint turns (sdrop 1 low) None; Some (String d rest).
Proof. done. Qed.

Lemma midpoint_Some turns low c h :
  midpoint (S turns) low (Some (String c h)) =
    match common_prefix low (String c h) with
    | S _ as n =>
        rest ← midpoint turns (sdrop n low) (non_empty (sdrop n (String c h)));
        Some (stake n (String c h) ++ rest)%string
    | O =>
        if first_index low + 1 <? index c then
          d ← digit_at (Nat.div2 (first_index low + index c)); Some (String d EmptyString)
        else match h with
             | String _ _ => Some (String c EmptyString)
             | EmptyString => d ← digit_at (first_index low);
                              rest ← midpoint turns (sdrop 1 low) None; Some (String d rest)
             end
    end.
Proof. cbn [midpoint]. destruct (common_prefix low (String c h)); [|done]. by destruct h. Qed.

Lemma midpoint_after turns low :
  digits low = true → String.length low < turns →
  ∃ out, midpoint turns low None = Some out ∧ rank_ok out = true ∧ str_ltb low out = true.
Proof.
  revert low. induction turns as [|turns IH]; intros low Hd Hlen; [lia|].
  rewrite midpoint_None. pose proof (first_index_lt low Hd) as Hlt.
  destruct (Nat.ltb_spec (first_index low + 1) BASE) as [Hroom|Hadj].
  - destruct (halfway _ _ Hroom). destruct (digit_at_lt (Nat.div2 (first_index low + BASE)))
      as (d & -> & Hi & Hdd); [lia|]. eexists. split; [done|]. split.
    + apply rank_ok_single; [done|lia].
    + apply past_first; [done|done|lia].
  - destruct (digit_at_lt (first_index low) Hlt) as (d & Hat & Hi & Hdd). rewrite Hat.
    destruct (IH (sdrop 1 low)) as (rest & -> & Hok & Hgt).
    { by apply digits_sdrop1. }
    { rewrite length_sdrop1. destruct low; simpl in *; [unfold BASE in *; lia|lia]. }
    eexists. split; [done|]. split; [by apply rank_ok_cons|]. by eapply kept_digit.
Qed.

(** The first digits differ: [low]'s is smaller. *)
Lemma first_smaller low c h :
  digits low = true → is_digit c = true → str_ltb low (String c h) = true →
  common_prefix low (String c h) = 0 → first_index low < index c.
Proof.
  intros Hl Hc Hlt. destruct low as [|l low]; cbn [common_prefix first_index].
  - destruct (Ascii.eqb_spec "0" c) as [|Hne]; [done|]. intros _.
    destruct (index c) eqn:E; [|lia]. exfalso. apply Hne.
    apply index_inj; [done|done|]. by rewrite E.
  - apply andb_true_iff in Hl as [Hl _].
    destruct (Ascii.eqb_spec l c) as [|Hne]; [done|]. intros _.
    apply str_ltb_cons in Hlt as [Hlt|[? _]]; [|done]. by apply digit_order.
Qed.

(** Where the first digits differ, a digit between them, the high bound's own, or
    the low bound's with more behind it. *)
Lemma midpoint_between_apart turns low c h :
  digits low = true → rank_ok (String c h) = true → str_ltb low (String c h) = true →
  common_prefix low (String c h) = 0 → String.length low < turns →
  ∃ out, midpoint (S turns) low (Some (String c h)) = Some out ∧ rank_ok out = true ∧
         str_ltb low out = true ∧ str_ltb out (String c h) = true.
Proof.
  intros Hd Hok Hlt Hcp Hlen. rewrite midpoint_Some, Hcp.
  assert (is_digit c = true) as Hc.
  { unfold rank_ok, digits in Hok. cbn [sforall] in Hok. split_and_bool. done. }
  pose proof (first_smaller low c h Hd Hc Hlt Hcp) as Hab.
  pose proof (proj1 (digit_index c Hc)) as HcB.
  destruct (Nat.ltb_spec (first_index low + 1) (index c)) as [Hroom|Hadj].
  - destruct (halfway _ _ Hroom). destruct (digit_at_lt (Nat.div2 (first_index low + index c)))
      as (d & -> & Hi & Hdd); [lia|]. eexists. split; [done|]. split_and!.
    + apply rank_ok_single; [done|lia].
    + apply past_first; [done|done|lia].
    + apply str_ltb_cons. left. apply digit_order; [done|done|lia].
  - destruct h as [|e h].
    + destruct (digit_at_lt (first_index low)) as (d & Hat & Hi & Hdd); [lia|]. rewrite Hat.
      destruct (midpoint_after turns (sdrop 1 low)) as (rest & -> & Hokr & Hgt).
      { by apply digits_sdrop1. }
      { rewrite length_sdrop1. lia. }
      eexists. split; [done|]. split_and!; [by apply rank_ok_cons|by eapply kept_digit|].
      apply str_ltb_cons. left. apply digit_order; [done|done|lia].
    + eexists. split; [done|]. split_and!.
      * apply rank_ok_single; [done|lia].
      * apply past_first; [done|done|lia].
      * apply str_ltb_cons. by right.
Qed.

Lemma rank_ok_intro s :
  digits s = true → no_trailing_zero s = true → s ≠ "" → rank_ok s = true.
Proof. unfold rank_ok. intros -> -> Hne. simpl. apply negb_true_iff. by apply eqb_false. Qed.

Lemma midpoint_between turns low h :
  digits low = true → rank_ok h = true → str_ltb low h = true →
  String.length low + String.length h + 1 < turns →
  ∃ out, midpoint turns low (Some h) = Some out ∧ rank_ok out = true ∧
         str_ltb low out = true ∧ str_ltb out h = true.
Proof.
  destruct turns as [|turns]; [lia|]. intros Hd Hok Hlt Hlen.
  pose proof Hok as Hok'. unfold rank_ok in Hok'. split_and_bool.
  destruct (common_prefix_spec low h) as (Hne & Hlt' & Hdl & Hdh & Hz & Hp & Hn0 & Hl1 & Hl2 & Hout);
    [done..|].
  destruct h as [|c h]; [done|].
  destruct (common_prefix low (String c h)) as [|n] eqn:En.
  { apply midpoint_between_apart; try done. lia. }
  rewrite midpoint_Some, En. cbv beta iota zeta.
  set (rl := sdrop (S n) low) in *. set (rh := sdrop (S n) (String c h)) in *.
  assert (non_empty rh = Some rh) as ->.
  { unfold non_empty. by rewrite (proj2 (eqb_false rh "") Hne). }
  destruct rh as [|c' h'] eqn:Erh; [done|]. destruct turns as [|turns]; [lia|].
  destruct (midpoint_between_apart turns rl c' h') as (out & -> & Hoko & Hlo & Hhi); try done.
  { by apply rank_ok_intro. }
  { simpl in Hl2, Hlen. lia. }
  assert (out ≠ "") as Hne'. { intros ->. by vm_compute in Hoko. }
  destruct (Hout out Hne') as [Hlow Hhigh].
  eexists. split; [done|]. split_and!; [by apply rank_ok_app|auto..].
Qed.

Lemma rank_ok_from_utf8 r : rank_ok r = true → from_utf8 r = Some r.
Proof.
  unfold rank_ok. intros [[Hd _]%andb_true_iff _]%andb_true_iff. apply from_utf8_ascii.
  revert Hd. apply sforall_impl. intros a. by destruct a as [[] [] [] [] [] [] [] []]; vm_compute.
Qed.

(** ** Properties *)

Module RankProps.

(** C11: [rank::between] always answers: the recursion ends and no index is out of
    range; and for a low bound of rank digits and a high bound that is a rank
    above it (either may be absent), the answer is again a rank (digits, not
    ending in [0]) strictly after the low bound and strictly before the high one,
    so there is room between any two cards for ever. *)
Theorem between_is_strictly_between (before after : option string) :
  let low := unwrap_or "" before in
  digits low = true →
  (∀ h, after = Some h → h ≠ "" → rank_ok h = true ∧ str_ltb low h = true) →
  ∃ r, between before after = Some r ∧ rank_ok r = true ∧ str_ltb low r = true ∧
       (∀ h, after = Some h → h ≠ "" → str_ltb r h = true).
Proof.
  intros low Hd Hh. unfold between. fold low.
  destruct (after ≫= non_empty) as [h|] eqn:Ea.
  - apply bind_Some in Ea as (h' & -> & Hne). unfold non_empty in Hne.
    destruct (h' == "") eqn:E; [done|]. split_and_bool. simplify_eq.
    destruct (Hh h) as [Hok Hlt]; [done|done|].
    destruct (midpoint_between (midpoint_turns low (Some h)) low h) as (r & -> & ? & ? & ?);
      [done|done|done|unfold midpoint_turns; lia|].
    exists r. split_and!; try done; [by apply rank_ok_from_utf8|by intros ? [= <-]].
  - destruct (midpoint_after (midpoint_turns low None) low) as (r & -> & ? & ?);
      [done|unfold midpoint_turns; lia|].
    exists r. split_and!; try done; [by apply rank_ok_from_utf8|]. intros h -> Hne. exfalso.
    simpl in Ea. unfold non_empty in Ea. by rewrite (proj2 (eqb_false h "") Hne) in Ea.
Qed.

Lemma between_is_strictly_between_witness :
  ∃ r, between (Some "az") (Some "b01") = Some r ∧ rank_ok r = true ∧ str_ltb "az" r = true ∧
       (∀ h, Some "b01" = Some h → h ≠ "" → str_ltb r h = true).
Proof.
  apply (between_is_strictly_between (Some "az") (Some "b01")); [vm_compute; reflexivity|].
  intros h [= <-] _. vm_compute. split; reflexivity.
Defined.
End RankProps.
