(* ===== verification/Link.v ===== *)
(** * Links: typed references beside a card, a message or a handoff

    The model of [crates/core/src/link.rs]. *)

From Stdlib Require Import Ascii.
From S2P Require Import Prelude RustStr Idempotency.

Local Open Scope rust_scope.

Definition LINKS : nat := 16.
Definition TARGET_CHARS : nat := 2048.
Definition NOTE_CHARS : nat := 200.

Inductive LinkKind := KPath | KCommit | KPr | KUrl | KTask | KMessage | KMemory.

Global Instance LinkKind_eq_dec : EqDecision LinkKind.
Proof. solve_decision. Defined.

Definition LinkKind_ALL : list LinkKind := [KPath; KCommit; KPr; KUrl; KTask; KMessage; KMemory].

Definition kind_as_str (k : LinkKind) : string :=
  match k with
  | KPath => "path"
  | KCommit => "commit"
  | KPr => "pr"
  | KUrl => "url"
  | KTask => "task"
  | KMessage => "message"
  | KMemory => "memory"
  end.

Definition kind_parse (text : string) : option LinkKind :=
  List.find (λ k, kind_as_str k == to_ascii_lowercase (trim text)) LinkKind_ALL.

Record Link := mkLink {
  link_kind : LinkKind;
  target : string;
  link_note : option string;
}.

Global Instance Link_eq_dec : EqDecision Link.
Proof. solve_decision. Defined.

Definition link_new (k : LinkKind) (t : string) : Link := mkLink k t None.

Definition hex (s : string) : bool := negb (s == "") && sforall is_ascii_hexdigit s.
Definition all_digits (s : string) : bool := negb (s == "") && sforall is_ascii_digit s.
Definition is_web (t : string) : bool := starts_with t "https://" || starts_with t "http://".

(** The shape of a target, by kind: [ok] in [Link::check]. *)
Definition target_shape (k : LinkKind) (t : string) : bool :=
  match k with
  | KPath => negb (contains_char "009" t)
  | KCommit => (7 <=? String.length t)%nat && (String.length t <=? 64)%nat && hex t
  | KPr =>
      is_web t
      || is_some_and all_digits (strip_prefix "#" t)
      || is_some_and (λ rn, contains_char "/" rn.1 && all_digits rn.2) (split_once "#" t)
  | KUrl => is_web t && negb (existsb is_whitespace (chars t))
  | KTask => (4 <=? String.length t)%nat && (String.length t <=? 12)%nat && hex t
  | KMessage => (8 <=? String.length t)%nat && (String.length t <=? 32)%nat && hex t
  | KMemory => true
  end.

Definition shape_error (k : LinkKind) : string :=
  match k with
  | KPath => "a path link has no tabs"
  | KCommit => "a commit link is seven to sixty-four hex digits"
  | KPr => "a pr link is a URL, #123 or owner/repo#123"
  | KUrl => "a url link starts with http:// or https:// and has no spaces"
  | KTask => "a task link is a card id or a prefix of at least four hex digits"
  | KMessage => "a message link is a message id"
  | KMemory => "a memory link is its text"
  end.

(** [Link::check]. *)
Definition link_check (l : Link) : result unit string :=
  let t := target l in
  if (t == "") || (trim t == "") then Err "a link needs a target"
  else if t != trim t then Err "a link's target has no leading or trailing blanks"
  else if (TARGET_CHARS <? chars_count t)%nat || has_line_break t
  then Err "a link's target is one line of at most 2,048 characters"
  else if is_some_and (λ n, (NOTE_CHARS <? chars_count n)%nat || has_line_break n) (link_note l)
  then Err "a link's note is one line of at most 200 characters"
  else if target_shape (link_kind l) t then Ok tt
  else Err (shape_error (link_kind l)).

(** [Link::parse]. *)
Definition link_parse (text : string) : result Link string :=
  match split_once ":" text with
  | None => Err "a link is kind:target — path, commit, pr, url, task, message or memory"
  | Some (kind, t) =>
      match kind_parse kind with
      | None => Err "a link's kind is path, commit, pr, url, task, message or memory"
      | Some k =>
          let link := link_new k (trim t) in
          let? _ := link_check link in Ok link
      end
  end.

(** [Display for Link]. *)
Definition link_display (l : Link) : string :=
  (kind_as_str (link_kind l) ++ ":" ++ target l)%string.

(** [link::check]: [try_for_each] stops at the first link that fails. *)
Fixpoint each_link_check (links : list Link) : result unit string :=
  match links with
  | [] => Ok tt
  | l :: links => let? _ := link_check l in each_link_check links
  end.

Definition links_check (links : list Link) : result unit string :=
  if (LINKS <? length links)%nat then Err "at most sixteen links" else each_link_check links.

(** ** Lemmas *)

Lemma link_check_Ok_target l :
  link_check l = Ok tt → target l ≠ "" ∧ trim (target l) = target l.
Proof.
  unfold link_check. intros H.
  destruct (target l == "") eqn:E1; [done|]. simpl in H.
  destruct (trim (target l) == "") eqn:E2; [done|].
  destruct (target l == trim (target l)) eqn:E3; [|done]. split_and_bool. by split.
Qed.

Lemma link_check_Ok_iff l :
  link_check l = Ok tt ↔
    target l ≠ "" ∧ trim (target l) = target l ∧
    (chars_count (target l) ≤ 2048)%nat ∧ has_line_break (target l) = false ∧
    (∀ n, link_note l = Some n → (chars_count n ≤ 200)%nat ∧ has_line_break n = false) ∧
    target_shape (link_kind l) (target l) = true.
Proof.
  split.
  - intros H. destruct (link_check_Ok_target l H) as [Hne Ht]. unfold link_check in H.
    rewrite Ht, (proj2 (eqb_false _ _) Hne), eqb_refl in H. simpl in H.
    destruct (Nat.ltb_spec TARGET_CHARS (chars_count (target l))) as [|Hl]; [done|]. simpl in H.
    destruct (has_line_break (target l)) eqn:Hb; [done|].
    destruct (is_some_and _ _) eqn:Hn; [done|].
    destruct (target_shape _ _) eqn:Hs; [|done]. split_and!; try done.
    intros n En. rewrite En in Hn. simpl in Hn. apply orb_false_iff in Hn as [Hn ?].
    by apply Nat.ltb_ge in Hn.
  - intros (Hne & Ht & Hl & Hb & Hn & Hs). unfold link_check.
    rewrite Ht, (proj2 (eqb_false _ _) Hne), eqb_refl, Hb, Hs. simpl.
    rewrite (proj2 (Nat.ltb_ge TARGET_CHARS _)) by done. simpl.
    destruct (link_note l) as [n|]; simpl; [|done].
    destruct (Hn n) as [Hc ->]; [done|]. by rewrite (proj2 (Nat.ltb_ge NOTE_CHARS _)).
Qed.

Lemma each_link_check_Ok links :
  each_link_check links = Ok tt ↔ Forall (λ l, link_check l = Ok tt) links.
Proof.
  induction links as [|l links IH]; simpl; [by split|].
  rewrite Forall_cons. destruct (link_check l) as [[]|e]; [rewrite IH; tauto|].
  split; [done|]. by intros [? _].
Qed.

Lemma kind_parse_as_str k : kind_parse (kind_as_str k) = Some k.
Proof. by destruct k; vm_compute. Qed.

Lemma kind_no_colon k : contains_char ":" (kind_as_str k) = false.
Proof. by destruct k. Qed.

(** ** Properties *)

Module LinkProps.

(** Printing and parsing are inverse: a link with no note whose shape is
    accepted, written [kind:target] as the command line writes it, parses back to
    itself; and whatever text parses gives an accepted link with no note. *)
Theorem link_display_parse_roundtrip :
  (∀ l, link_check l = Ok tt → link_note l = None → link_parse (link_display l) = Ok l) ∧
  (∀ text l, link_parse text = Ok l → link_check l = Ok tt ∧ link_note l = None ∧
     link_parse (link_display l) = Ok l).
Proof.
  assert (∀ l, link_check l = Ok tt → link_note l = None → link_parse (link_display l) = Ok l) as Hrt.
  { intros [k t n] Hc Hn. simpl in Hn. subst n.
    destruct (link_check_Ok_target _ Hc) as [_ Htrim]. simpl in Htrim.
    unfold link_parse, link_display. simpl.
    change (":" ++ t)%string with (String ":" t).
    rewrite split_once_app by apply kind_no_colon. rewrite kind_parse_as_str, Htrim.
    unfold link_new. by rewrite Hc. }
  split; [done|]. intros text l Hp. assert (link_check l = Ok tt ∧ link_note l = None) as [Hc Hn].
  { unfold link_parse in Hp. branches Hp. by destruct a. }
  auto.
Qed.

(** A list of links is accepted exactly when there are at most sixteen and
    each is: its target is a single trimmed line of at most 2048 characters, its
    note a line of at most 200, and the target has the shape of its kind. *)
Theorem links_check_accepts_iff links :
  links_check links = Ok tt ↔
    (length links ≤ 16)%nat ∧
    Forall (λ l,
      target l ≠ "" ∧ trim (target l) = target l ∧
      (chars_count (target l) ≤ 2048)%nat ∧ has_line_break (target l) = false ∧
      (∀ n, link_note l = Some n → (chars_count n ≤ 200)%nat ∧ has_line_break n = false) ∧
      target_shape (link_kind l) (target l) = true) links.
Proof.
  unfold links_check, LINKS. destruct (Nat.ltb_spec 16 (length links)) as [Hl|Hl].
  - split; [done|]. intros [? _]. lia.
  - rewrite each_link_check_Ok. split.
    + intros Hall. split; [done|]. eapply Forall_impl; [done|]. intros l. apply link_check_Ok_iff.
    + intros [_ Hall]. eapply Forall_impl; [done|]. intros l. apply link_check_Ok_iff.
Qed.

Lemma link_display_parse_roundtrip_witness :
  link_parse (link_display (link_new KPr "brandopakel/AgentDocker#12")) =
    Ok (link_new KPr "brandopakel/AgentDocker#12").
Proof. apply (proj1 link_display_parse_roundtrip); vm_compute; reflexivity. Defined.
End LinkProps.
