(* ===== verification/Board.v ===== *)
(** * The board: lanes, cards and where a card sits

    The model of [crates/core/src/board.rs] and of the card data of
    [crates/core/src/task.rs]. Lane and card names are user text; the folding of
    their case goes through the Unicode tables. [NaiveDate] is a day number. *)

From Stdlib Require Import Ascii.
From stdpp Require Import pretty.
From S2P Require Import Prelude RustStr Link.

Local Open Scope Z_scope.
Local Open Scope rust_scope.

(** ** Categories, priorities, sizes *)

Inductive Column := Backlog | Ready | InProgress | Review | Done | Blocked | Cancelled.
Inductive Priority := High | Normal | Low.
Inductive Size := SizeS | SizeM | SizeL.

Global Instance Column_eq_dec : EqDecision Column.
Proof. solve_decision. Defined.
Global Instance Priority_eq_dec : EqDecision Priority.
Proof. solve_decision. Defined.
Global Instance Size_eq_dec : EqDecision Size.
Proof. solve_decision. Defined.

Definition Column_CATEGORIES : list Column :=
  [Backlog; Ready; InProgress; Review; Done; Blocked; Cancelled].

Definition column_as_str (c : Column) : string :=
  match c with
  | Backlog => "backlog"
  | Ready => "ready"
  | InProgress => "in_progress"
  | Review => "review"
  | Done => "done"
  | Blocked => "blocked"
  | Cancelled => "cancelled"
  end.

Definition column_label (c : Column) : string :=
  match c with
  | Backlog => "Backlog"
  | Ready => "Ready"
  | InProgress => "In progress"
  | Review => "Review"
  | Done => "Done"
  | Blocked => "Blocked"
  | Cancelled => "Cancelled"
  end.

Definition working (c : Column) : bool :=
  match c with InProgress | Review => true | _ => false end.
Definition terminal (c : Column) : bool :=
  match c with Done | Cancelled => true | _ => false end.
Definition waiting (c : Column) : bool :=
  match c with Backlog | Ready => true | _ => false end.

(** [.replace(['-', ' '], "_")]. *)
Definition underscored (s : string) : string :=
  replace_char " " "_" (replace_char "-" "_" s).

(** Look the folded words up in a table of spellings. *)
Fixpoint spelled {A} (table : list (string * A)) (s : string) : option A :=
  match table with
  | [] => None
  | (w, a) :: table => if s == w then Some a else spelled table s
  end.

Section Parse.
Context {U : Unicode}.

Definition column_parse (text : string) : option Column :=
  spelled
    [("backlog", Backlog);
     ("ready", Ready); ("todo", Ready); ("to_do", Ready); ("approved", Ready);
     ("in_progress", InProgress); ("doing", InProgress); ("progress", InProgress);
     ("review", Review); ("in_review", Review);
     ("done", Done);
     ("blocked", Blocked);
     ("cancelled", Cancelled); ("canceled", Cancelled)]
    (underscored (to_lowercase (trim text))).

Definition priority_parse (text : string) : option Priority :=
  spelled
    [("high", High); ("h", High); ("urgent", High);
     ("normal", Normal); ("n", Normal); ("norm", Normal); ("medium", Normal);
     ("low", Low); ("l", Low)]
    (to_lowercase (trim text)).

Definition size_parse (text : string) : option Size :=
  spelled
    [("s", SizeS); ("small", SizeS); ("m", SizeM); ("medium", SizeM); ("l", SizeL); ("large", SizeL)]
    (to_lowercase (trim text)).
End Parse.

Definition priority_as_str (p : Priority) : string :=
  match p with High => "high" | Normal => "normal" | Low => "low" end.
Definition size_as_str (s : Size) : string :=
  match s with SizeS => "s" | SizeM => "m" | SizeL => "l" end.

(** ** Cards *)

Record Task := mkTask {
  t_id : string;
  t_project : string;
  t_key : string;
  t_board : option string;
  t_title : string;
  t_acceptance : string;
  t_description : string;
  t_column : Column;
  t_lane : option string;
  t_rank : string;
  t_assignee : option string;
  t_priority : Priority;
  t_size : option Size;
  t_due : option Z;
  t_external_blocker : string;
  t_parent : option string;
  t_blocked_by : list string;
  t_tags : list string;
  t_created_by : string;
  t_created_at : instant;
  t_updated_at : instant;
  t_archived_at : option instant;
  t_links : list Link;
  t_plan : option string;
  t_lane_since : option instant;
  t_fired : list string;
}.

Global Instance Task_eq_dec : EqDecision Task.
Proof. solve_decision. Defined.

(** Field updates. *)

Definition with_key (v : string) (t : Task) : Task :=
  mkTask (t_id t) (t_project t) v (t_board t) (t_title t) (t_acceptance t) (t_description
    t) (t_column t) (t_lane t) (t_rank t) (t_assignee t) (t_priority t) (t_size t) (t_due
    t) (t_external_blocker t) (t_parent t) (t_blocked_by t) (t_tags t) (t_created_by t)
    (t_created_at t) (t_updated_at t) (t_archived_at t) (t_links t) (t_plan t)
    (t_lane_since t) (t_fired t).

Definition with_title (v : string) (t : Task) : Task :=
  mkTask (t_id t) (t_project t) (t_key t) (t_board t) v (t_acceptance t) (t_description t)
    (t_column t) (t_lane t) (t_rank t) (t_assignee t) (t_priority t) (t_size t) (t_due t)
    (t_external_blocker t) (t_parent t) (t_blocked_by t) (t_tags t) (t_created_by t)
    (t_created_at t) (t_updated_at t) (t_archived_at t) (t_links t) (t_plan t)
    (t_lane_since t) (t_fired t).

Definition with_acceptance (v : string) (t : Task) : Task :=
  mkTask (t_id t) (t_project t) (t_key t) (t_board t) (t_title t) v (t_description t)
    (t_column t) (t_lane t) (t_rank t) (t_assignee t) (t_priority t) (t_size t) (t_due t)
    (t_external_blocker t) (t_parent t) (t_blocked_by t) (t_tags t) (t_created_by t)
    (t_created_at t) (t_updated_at t) (t_archived_at t) (t_links t) (t_plan t)
    (t_lane_since t) (t_fired t).

Definition with_description (v : string) (t : Task) : Task :=
  mkTask (t_id t) (t_project t) (t_key t) (t_board t) (t_title t) (t_acceptance t) v
    (t_column t) (t_lane t) (t_rank t) (t_assignee t) (t_priority t) (t_size t) (t_due t)
    (t_external_blocker t) (t_parent t) (t_blocked_by t) (t_tags t) (t_created_by t)
    (t_created_at t) (t_updated_at t) (t_archived_at t) (t_links t) (t_plan t)
    (t_lane_since t) (t_fired t).

Definition with_column (v : Column) (t : Task) : Task :=
  mkTask (t_id t) (t_project t) (t_key t) (t_board t) (t_title t) (t_acceptance t)
    (t_description t) v (t_lane t) (t_rank t) (t_assignee t) (t_priority t) (t_size t)
    (t_due t) (t_external_blocker t) (t_parent t) (t_blocked_by t) (t_tags t)
    (t_created_by t) (t_created_at t) (t_updated_at t) (t_archived_at t) (t_links t)
    (t_plan t) (t_lane_since t) (t_fired t).

Definition with_lane (v : option string) (t : Task) : Task :=
  mkTask (t_id t) (t_project t) (t_key t) (t_board t) (t_title t) (t_acceptance t)
    (t_description t) (t_column t) v (t_rank t) (t_assignee t) (t_priority t) (t_size t)
    (t_due t) (t_external_blocker t) (t_parent t) (t_blocked_by t) (t_tags t)
    (t_created_by t) (t_created_at t) (t_updated_at t) (t_archived_at t) (t_links t)
    (t_plan t) (t_lane_since t) (t_fired t).

Definition with_rank (v : string) (t : Task) : Task :=
  mkTask (t_id t) (t_project t) (t_key t) (t_board t) (t_title t) (t_acceptance t)
    (t_description t) (t_column t) (t_lane t) v (t_assignee t) (t_priority t) (t_size t)
    (t_due t) (t_external_blocker t) (t_parent t) (t_blocked_by t) (t_tags t)
    (t_created_by t) (t_created_at t) (t_updated_at t) (t_archived_at t) (t_links t)
    (t_plan t) (t_lane_since t) (t_fired t).

Definition with_assignee (v : option string) (t : Task) : Task :=
  mkTask (t_id t) (t_project t) (t_key t) (t_board t) (t_title t) (t_acceptance t)
    (t_description t) (t_column t) (t_lane t) (t_rank t) v (t_priority t) (t_size t)
    (t_due t) (t_external_blocker t) (t_parent t) (t_blocked_by t) (t_tags t)
    (t_created_by t) (t_created_at t) (t_updated_at t) (t_archived_at t) (t_links t)
    (t_plan t) (t_lane_since t) (t_fired t).

Definition with_priority (v : Priority) (t : Task) : Task :=
  mkTask (t_id t) (t_project t) (t_key t) (t_board t) (t_title t) (t_acceptance t)
    (t_description t) (t_column t) (t_lane t) (t_rank t) (t_assignee t) v (t_size t)
    (t_due t) (t_external_blocker t) (t_parent t) (t_blocked_by t) (t_tags t)
    (t_created_by t) (t_created_at t) (t_updated_at t) (t_archived_at t) (t_links t)
    (t_plan t) (t_lane_since t) (t_fired t).

Definition with_size (v : option Size) (t : Task) : Task :=
  mkTask (t_id t) (t_project t) (t_key t) (t_board t) (t_title t) (t_acceptance t)
    (t_description t) (t_column t) (t_lane t) (t_rank t) (t_assignee t) (t_priority t) v
    (t_due t) (t_external_blocker t) (t_parent t) (t_blocked_by t) (t_tags t)
    (t_created_by t) (t_created_at t) (t_updated_at t) (t_archived_at t) (t_links t)
    (t_plan t) (t_lane_since t) (t_fired t).

Definition with_due (v : option Z) (t : Task) : Task :=
  mkTask (t_id t) (t_project t) (t_key t) (t_board t) (t_title t) (t_acceptance t)
    (t_description t) (t_column t) (t_lane t) (t_rank t) (t_assignee t) (t_priority t)
    (t_size t) v (t_external_blocker t) (t_parent t) (t_blocked_by t) (t_tags t)
    (t_created_by t) (t_created_at t) (t_updated_at t) (t_archived_at t) (t_links t)
    (t_plan t) (t_lane_since t) (t_fired t).

Definition with_external_blocker (v : string) (t : Task) : Task :=
  mkTask (t_id t) (t_project t) (t_key t) (t_board t) (t_title t) (t_acceptance t)
    (t_description t) (t_column t) (t_lane t) (t_rank t) (t_assignee t) (t_priority t)
    (t_size t) (t_due t) v (t_parent t) (t_blocked_by t) (t_tags t) (t_created_by t)
    (t_created_at t) (t_updated_at t) (t_archived_at t) (t_links t) (t_plan t)
    (t_lane_since t) (t_fired t).

Definition with_parent (v : option string) (t : Task) : Task :=
  mkTask (t_id t) (t_project t) (t_key t) (t_board t) (t_title t) (t_acceptance t)
    (t_description t) (t_column t) (t_lane t) (t_rank t) (t_assignee t) (t_priority t)
    (t_size t) (t_due t) (t_external_blocker t) v (t_blocked_by t) (t_tags t)
    (t_created_by t) (t_created_at t) (t_updated_at t) (t_archived_at t) (t_links t)
    (t_plan t) (t_lane_since t) (t_fired t).

Definition with_blocked_by (v : list string) (t : Task) : Task :=
  mkTask (t_id t) (t_project t) (t_key t) (t_board t) (t_title t) (t_acceptance t)
    (t_description t) (t_column t) (t_lane t) (t_rank t) (t_assignee t) (t_priority t)
    (t_size t) (t_due t) (t_external_blocker t) (t_parent t) v (t_tags t) (t_created_by t)
    (t_created_at t) (t_updated_at t) (t_archived_at t) (t_links t) (t_plan t)
    (t_lane_since t) (t_fired t).

Definition with_tags (v : list string) (t : Task) : Task :=
  mkTask (t_id t) (t_project t) (t_key t) (t_board t) (t_title t) (t_acceptance t)
    (t_description t) (t_column t) (t_lane t) (t_rank t) (t_assignee t) (t_priority t)
    (t_size t) (t_due t) (t_external_blocker t) (t_parent t) (t_blocked_by t) v
    (t_created_by t) (t_created_at t) (t_updated_at t) (t_archived_at t) (t_links t)
    (t_plan t) (t_lane_since t) (t_fired t).

Definition with_updated_at (v : instant) (t : Task) : Task :=
  mkTask (t_id t) (t_project t) (t_key t) (t_board t) (t_title t) (t_acceptance t)
    (t_description t) (t_column t) (t_lane t) (t_rank t) (t_assignee t) (t_priority t)
    (t_size t) (t_due t) (t_external_blocker t) (t_parent t) (t_blocked_by t) (t_tags t)
    (t_created_by t) (t_created_at t) v (t_archived_at t) (t_links t) (t_plan t)
    (t_lane_since t) (t_fired t).

Definition with_archived_at (v : option instant) (t : Task) : Task :=
  mkTask (t_id t) (t_project t) (t_key t) (t_board t) (t_title t) (t_acceptance t)
    (t_description t) (t_column t) (t_lane t) (t_rank t) (t_assignee t) (t_priority t)
    (t_size t) (t_due t) (t_external_blocker t) (t_parent t) (t_blocked_by t) (t_tags t)
    (t_created_by t) (t_created_at t) (t_updated_at t) v (t_links t) (t_plan t)
    (t_lane_since t) (t_fired t).

Definition with_links (v : list Link) (t : Task) : Task :=
  mkTask (t_id t) (t_project t) (t_key t) (t_board t) (t_title t) (t_acceptance t)
    (t_description t) (t_column t) (t_lane t) (t_rank t) (t_assignee t) (t_priority t)
    (t_size t) (t_due t) (t_external_blocker t) (t_parent t) (t_blocked_by t) (t_tags t)
    (t_created_by t) (t_created_at t) (t_updated_at t) (t_archived_at t) v (t_plan t)
    (t_lane_since t) (t_fired t).

Definition with_plan (v : option string) (t : Task) : Task :=
  mkTask (t_id t) (t_project t) (t_key t) (t_board t) (t_title t) (t_acceptance t)
    (t_description t) (t_column t) (t_lane t) (t_rank t) (t_assignee t) (t_priority t)
    (t_size t) (t_due t) (t_external_blocker t) (t_parent t) (t_blocked_by t) (t_tags t)
    (t_created_by t) (t_created_at t) (t_updated_at t) (t_archived_at t) (t_links t) v
    (t_lane_since t) (t_fired t).

Definition with_lane_since (v : option instant) (t : Task) : Task :=
  mkTask (t_id t) (t_project t) (t_key t) (t_board t) (t_title t) (t_acceptance t)
    (t_description t) (t_column t) (t_lane t) (t_rank t) (t_assignee t) (t_priority t)
    (t_size t) (t_due t) (t_external_blocker t) (t_parent t) (t_blocked_by t) (t_tags t)
    (t_created_by t) (t_created_at t) (t_updated_at t) (t_archived_at t) (t_links t)
    (t_plan t) v (t_fired t).

Definition with_fired (v : list string) (t : Task) : Task :=
  mkTask (t_id t) (t_project t) (t_key t) (t_board t) (t_title t) (t_acceptance t)
    (t_description t) (t_column t) (t_lane t) (t_rank t) (t_assignee t) (t_priority t)
    (t_size t) (t_due t) (t_external_blocker t) (t_parent t) (t_blocked_by t) (t_tags t)
    (t_created_by t) (t_created_at t) (t_updated_at t) (t_archived_at t) (t_links t)
    (t_plan t) (t_lane_since t) v.

(** ** Boards *)

Definition LANES_MAX : nat := 16.
Definition SLUG_CHARS : nat := 32.
Definition NAME_CHARS : nat := 40.
Definition MAIN : string := "main".

Inductive Owner := OAny | OHuman | OAgent | ORole (role : string).

Record Lane := mkLane {
  slug : string;
  lane_name : string;
  category : Column;
  owner : Owner;
  wip : option Z;
}.

Global Instance Owner_eq_dec : EqDecision Owner.
Proof. solve_decision. Defined.
Global Instance Lane_eq_dec : EqDecision Lane.
Proof. solve_decision. Defined.

Definition owner_word (o : Owner) : string :=
  match o with
  | OAny => "anyone"
  | OHuman => "the person"
  | OAgent => "agents"
  | ORole role => ("role " ++ role)%string
  end.

Definition lane_new (slug name : string) (category : Column) (owner : Owner) : Lane :=
  mkLane slug name category owner None.

Definition over (l : Lane) (count : Z) : bool :=
  is_some_and (λ wip, (0 <? wip) && (wip <? count)) (wip l).

Record Board := mkBoard {
  b_project : string;
  b_slug : string;
  b_name : string;
  template : string;
  lanes : list Lane;
  pull_source : string;
  pull_target : string;
  b_key_prefix : string;
  last_key : Z;
  b_created_at : instant;
  b_updated_at : instant;
}.

Inductive BoardError :=
| BInvalid (reason : string)
| NoLane (asked : string) (lanes : list string).

Definition TEMPLATES : list string := ["classic"; "agents"; "simple"].

Definition valid_slug (s : string) : bool :=
  negb (s == "")
  && (chars_count s <=? SLUG_CHARS)%nat
  && sforall (λ c, is_ascii_lowercase c || is_ascii_digit c || Ascii.eqb c "-" || Ascii.eqb c "_") s.

Definition lane (b : Board) (s : string) : option Lane :=
  List.find (λ l, slug l == s) (lanes b).

Definition first (b : Board) (c : Column) : option Lane :=
  List.find (λ l, category l == c) (lanes b).

(** [unwrap_or(&self.lanes[0])] reads the first lane whatever happens: [None] is
    the panic on a board without lanes. *)
Definition lane_of (b : Board) (t : Task) : option Lane :=
  match lanes b with
  | [] => None
  | l0 :: _ =>
      let own := match t_lane t ≫= lane b with
                 | Some l => if category l == t_column t then Some l else None
                 | None => None
                 end in
      Some (unwrap_or l0 (match own with Some l => Some l | None => first b (t_column t) end))
  end.

(** The checks on each lane, with the slugs seen so far. *)
Fixpoint check_lanes (seen : gset string) (ls : list Lane) : result unit BoardError :=
  match ls with
  | [] => Ok tt
  | l :: ls =>
      if negb (valid_slug (slug l))
      then Err (BInvalid "a lane's slug is lowercase letters, digits, - and _")
      else if bool_decide (slug l ∈ seen) then Err (BInvalid "two lanes have the same slug")
      else if (trim (lane_name l) == "") || (NAME_CHARS <? chars_count (trim (lane_name l)))%nat
      then Err (BInvalid "a lane's name is one to forty characters")
      else check_lanes ({[slug l]} ∪ seen) ls
  end.

(** [Board::check]. *)
Definition board_check (b : Board) : result unit BoardError :=
  if (b_name b == "") || (NAME_CHARS <? chars_count (b_name b))%nat
  then Err (BInvalid "a board's name is one to forty characters")
  else if negb (valid_slug (b_slug b))
  then Err (BInvalid "a board's slug is lowercase letters, digits, - and _")
  else if (length (lanes b) =? 0)%nat || (LANES_MAX <? length (lanes b))%nat
  then Err (BInvalid "a board has one to sixteen lanes")
  else
    let? _ := check_lanes ∅ (lanes b) in
    if negb (is_some_and (λ l, category l == Ready) (lane b (pull_source b)))
    then Err (BInvalid "the pull source is a Ready lane on the board")
    else if negb (is_some_and (λ l, category l == InProgress) (lane b (pull_target b)))
    then Err (BInvalid "the pull target is an In progress lane on the board")
    else if negb (existsb (λ l, category l == Done) (lanes b))
    then Err (BInvalid "a board has a Done lane")
    else Ok tt.

(** The lanes, pull source and pull target of a template. *)
Definition template_lanes (template : string) : option (list Lane * string * string) :=
  if template == "classic" then
    Some ([lane_new "backlog" "Backlog" Backlog OHuman;
           lane_new "ready" "Ready" Ready OAgent;
           lane_new "in_progress" "In progress" InProgress OAgent;
           lane_new "review" "Review" Review OHuman;
           lane_new "done" "Done" Done OAny],
          "ready", "in_progress")
  else if template == "agents" then
    Some ([lane_new "backlog" "Backlog" Backlog OHuman;
           lane_new "approved" "Approved" Ready OAgent;
           lane_new "analyst" "Analyst" InProgress (ORole "analyst");
           lane_new "in_progress" "In progress" InProgress OAgent;
           lane_new "testing" "Testing" Review (ORole "tester");
           lane_new "uat" "UAT" Review OHuman;
           lane_new "done" "Done" Done OHuman;
           lane_new "blocked" "Blocked" Blocked OAny;
           lane_new "cancelled" "Cancelled" Cancelled OHuman],
          "approved", "analyst")
  else if template == "simple" then
    Some ([lane_new "ready" "To do" Ready OAny;
           lane_new "in_progress" "Doing" InProgress OAny;
           lane_new "done" "Done" Done OAny],
          "ready", "in_progress")
  else None.

Definition from_template (project slug name template key_prefix : string) (now : instant)
    : result Board BoardError :=
  match template_lanes template with
  | None =>
      Err (BInvalid ("no template is called " ++ template ++ "; there are "
                     ++ String.concat ", " TEMPLATES)%string)
  | Some (ls, source, target) =>
      let board := mkBoard project slug (trim name) template ls source target key_prefix 0 now now in
      let? _ := board_check board in
      Ok board
  end.

(** An ASCII predicate on a character: false of any other character. *)
Definition on_ascii (f : ascii → bool) (c : string) : bool :=
  match c with String a EmptyString => f a | _ => false end.

(** The initials loop of [key_prefix], with the character before. *)
Fixpoint initials (previous : option string) (cs : list string) : string :=
  match cs with
  | [] => ""
  | c :: cs =>
      let starts := match previous with
                    | None => true
                    | Some p => negb (on_ascii is_ascii_alphanumeric p)
                                || (on_ascii is_ascii_lowercase p && on_ascii is_ascii_uppercase c)
                    end in
      if on_ascii is_ascii_alphabetic c && starts
      then (to_ascii_uppercase c ++ initials (Some c) cs)%string
      else initials (Some c) cs
  end.

Definition key_prefix (name : string) : string :=
  let inits := initials None (chars name) in
  if (2 <=? chars_count inits)%nat then chars_take 4 inits
  else
    let letters := to_ascii_uppercase
                     (String.concat "" (take 2 (filter (λ c, on_ascii is_ascii_alphabetic c) (chars name)))) in
    if letters == "" then "T" else letters.

(** [Board::main]; [None] is the panic of its [expect]. *)
Definition main (project project_name : string) (now : instant) : option Board :=
  match from_template project MAIN "Main" "classic" (key_prefix project_name) now with
  | Ok b => Some b
  | Err _ => None
  end.

Section Names.
Context {U : Unicode}.

(** [Board::resolve]. *)
Definition resolve (b : Board) (words : string) : result Lane BoardError :=
  let asked := trim words in
  let folded := replace_char "-" "_" (replace_char " " "_" (to_lowercase asked)) in
  let no_lane := Err (NoLane asked (slug <$> lanes b)) in
  match
    List.find (λ l, (slug l == folded) || (to_lowercase (lane_name l) == to_lowercase asked)) (lanes b)
  with
  | Some l => Ok l
  | None =>
      match column_parse asked ≫= first b with
      | Some l => Ok l
      | None =>
          if (3 <=? chars_count folded)%nat then
            match filter (λ l, starts_with (slug l) folded
                               || starts_with (to_lowercase (lane_name l)) (to_lowercase asked))
                    (lanes b) with
            | [l] => Ok l
            | _ => no_lane
            end
          else no_lane
      end
  end.

(** The character loop of [slug_of]. *)
Fixpoint slug_loop (slug : string) (cs : list string) : string :=
  match cs with
  | [] => slug
  | c :: cs =>
      if on_ascii is_ascii_alphanumeric c then slug_loop (slug ++ c) cs
      else if negb (ends_with_char "-" slug) && negb (slug == "") then slug_loop (slug ++ "-") cs
      else slug_loop slug cs
  end.

Definition slug_of (name : string) : string :=
  let slug := slug_loop "" (chars (to_lowercase (trim name))) in
  let slug := chars_take SLUG_CHARS (trim_end_char "-" slug) in
  if slug == "" then "board" else slug.
End Names.

(** [Board::take_key]. *)
Definition take_key (b : Board) : Board * string :=
  let n := u64_add (last_key b) 1 in
  (mkBoard (b_project b) (b_slug b) (b_name b) (template b) (lanes b) (pull_source b)
     (pull_target b) (b_key_prefix b) n (b_created_at b) (b_updated_at b),
   (b_key_prefix b ++ "-" ++ pretty n)%string).

(** [board::order]. *)
Definition then_ (c d : comparison) : comparison := match c with Eq => d | _ => c end.

Definition order (a b : Task) : comparison :=
  then_ (then_ (String.compare (t_rank a) (t_rank b)) (Z.compare (t_created_at a) (t_created_at b)))
    (String.compare (t_id a) (t_id b)).

Definition order_leb (a b : Task) : bool := match order a b with Gt => false | _ => true end.

Record Pick := mkPick { card : option Task; total : nat; held : nat; blocked : nat }.

Definition in_pull_source (b : Board) (t : Task) : bool :=
  is_none (t_archived_at t)
  && match lane_of b t with Some l => slug l == pull_source b | None => false end.

Definition card_held (caller : string) (t : Task) : bool :=
  is_some_and (λ a, a != caller) (t_assignee t).

Definition card_blocked (open_blocker : string → bool) (t : Task) : bool :=
  negb (trim (t_external_blocker t) == "") || existsb open_blocker (t_blocked_by t).

(** One turn of the loop of [next_ready]. *)
Definition pick_step (caller : string) (open_blocker : string → bool) (p : Pick) (t : Task) : Pick :=
  let p := mkPick (card p) (S (total p)) (held p) (blocked p) in
  if card_held caller t then mkPick (card p) (total p) (S (held p)) (blocked p)
  else if card_blocked open_blocker t then mkPick (card p) (total p) (held p) (S (blocked p))
  else if is_none (card p) then mkPick (Some t) (total p) (held p) (blocked p)
  else p.

(** [Board::next_ready]; [None] is the panic of [lane_of] on a board without
    lanes, which is asked of every card that is not archived. *)
Definition next_ready (b : Board) (cards : list Task) (caller : string)
    (open_blocker : string → bool) : option Pick :=
  if existsb (λ t, is_none (t_archived_at t) && is_none (lane_of b t)) cards then None
  else
    Some (foldl (pick_step caller open_blocker) (mkPick None 0 0 0)
            (sort_by order_leb (filter (λ t, in_pull_source b t) cards))).

Inductive DueState := Overdue | Today | Later.

Definition due_state (due today : Z) : DueState :=
  match Z.compare due today with Lt => Overdue | Eq => Today | Gt => Later end.

(** ** Facts *)

Module BoardFacts.

Lemma check_lanes_Ok seen ls :
  check_lanes seen ls = Ok tt →
  NoDup (slug <$> ls) ∧ (∀ l, l ∈ ls → slug l ∉ seen) ∧ Forall (λ l, valid_slug (slug l) = true) ls.
Proof.
  revert seen. induction ls as [|l ls IH]; intros seen; simpl.
  { intros _. split_and!; [constructor|set_solver|constructor]. }
  destruct (valid_slug (slug l)) eqn:Hv; simpl; [|done].
  case_bool_decide as Hin; [done|]. destruct (_ || _); [done|]. intros (Hnd & Hseen & Hall)%IH.
  split_and!.
  - constructor; [|done]. intros (l' & Heq & Hl')%list_elem_of_fmap.
    apply (Hseen l' Hl'). set_solver.
  - intros l' [->|Hl']%elem_of_cons; [done|]. specialize (Hseen l' Hl'). set_solver.
  - by constructor.
Qed.

(** What an accepted board guarantees. *)
Record checked (b : Board) : Prop := {
  checked_lanes : lanes b ≠ [];
  checked_bound : (length (lanes b) ≤ LANES_MAX)%nat;
  checked_slugs : NoDup (slug <$> lanes b);
  checked_source : ∃ l, lane b (pull_source b) = Some l ∧ category l = Ready;
  checked_target : ∃ l, lane b (pull_target b) = Some l ∧ category l = InProgress;
  checked_done : ∃ l, l ∈ lanes b ∧ category l = Done;
}.

Lemma is_some_and_true {A} (f : A → bool) o : is_some_and f o = true ↔ ∃ a, o = Some a ∧ f a = true.
Proof. destruct o; simpl; naive_solver. Qed.

Lemma board_check_checked b : board_check b = Ok tt → checked b.
Proof.
  unfold board_check. intros H.
  destruct (_ || _) in H; [done|]. destruct (negb _) in H; [done|].
  destruct (_ || _) eqn:Hlen in H; [done|]. split_and_bool.
  destruct (check_lanes ∅ (lanes b)) as [[]|] eqn:Hl in H; [|done].
  destruct (negb _) eqn:Hs in H; [done|]. destruct (negb _) eqn:Ht in H; [done|].
  destruct (negb _) eqn:Hd in H; [done|]. split_and_bool.
  apply is_some_and_true in Hs as (s & Hs & Hsc), Ht as (t & Ht & Htc). split_and_bool.
  apply existsb_exists in Hd as (d & Hd%list_elem_of_In & Hdc). split_and_bool.
  match goal with H : (length _ =? 0)%nat = false |- _ => apply Nat.eqb_neq in H end.
  match goal with H : (_ <? _)%nat = false |- _ => apply Nat.ltb_ge in H end.
  constructor; eauto.
  - intros He. by rewrite He in *.
  - by apply check_lanes_Ok in Hl as [? _].
Qed.

Lemma find_elem {A} (f : A → bool) (l : list A) x : List.find f l = Some x → x ∈ l ∧ f x = true.
Proof. intros [H1 H2]%find_some. split; [by apply list_elem_of_In|done]. Qed.

Lemma first_elem b c l : first b c = Some l → l ∈ lanes b ∧ category l = c.
Proof. unfold first. intros [? ?]%find_elem. by split_and_bool. Qed.

Lemma lane_elem b s l : lane b s = Some l → l ∈ lanes b ∧ slug l = s.
Proof. unfold lane. intros [? ?]%find_elem. by split_and_bool. Qed.

Lemma first_exists b c l : l ∈ lanes b → category l = c → is_Some (first b c).
Proof.
  intros Hin Hc. unfold first. destruct (List.find _ _) eqn:E; [eauto|].
  apply list_elem_of_In in Hin. apply (find_none _ _ E) in Hin. simpl in Hin. split_and_bool. done.
Qed.

(** The lane of a card: one of the board's, of the card's category whenever the
    board has such a lane, and the card's own lane when that fits. *)
Lemma lane_of_spec b t :
  lanes b ≠ [] →
  ∃ l, lane_of b t = Some l ∧ l ∈ lanes b ∧
       ((∃ l', l' ∈ lanes b ∧ category l' = t_column t) → category l = t_column t) ∧
       (∀ s l', t_lane t = Some s → lane b s = Some l' → category l' = t_column t → l = l').
Proof.
  intros Hne. unfold lane_of. destruct (lanes b) as [|l0 ls] eqn:El; [done|]. eexists. split; [done|].
  destruct (t_lane t ≫= lane b) as [own|] eqn:Eo.
  - apply bind_Some in Eo as (s & Hs & Hl). destruct (category own == t_column t) eqn:Ec.
    + split_and_bool. simpl. destruct (lane_elem _ _ _ Hl) as [Hin _]. rewrite <-El.
      split_and!; [done|done|]. intros. simplify_eq. congruence.
    + destruct (first b (t_column t)) as [f|] eqn:Ef; simpl.
      * destruct (first_elem _ _ _ Ef) as [Hin Hc]. rewrite <-El. split_and!; [done|done|].
        intros. split_and_bool. congruence.
      * split_and!; [left| |intros; split_and_bool; congruence].
        intros (l' & Hin & Hc). rewrite <-El in Hin.
        destruct (first_exists _ _ _ Hin Hc). congruence.
  - simpl. destruct (first b (t_column t)) as [f|] eqn:Ef; simpl.
    + destruct (first_elem _ _ _ Ef) as [Hin Hc]. rewrite <-El. split_and!; [done|done|].
      intros s l' Hs Hl. rewrite Hs in Eo. simpl in Eo. congruence.
    + split_and!; [left| |intros s l' Hs Hl; rewrite Hs in Eo; simpl in Eo; congruence].
      intros (l' & Hin & Hc). rewrite <-El in Hin.
      destruct (first_exists _ _ _ Hin Hc). congruence.
Qed.

(** *** The pull with no card named *)

Definition available (caller : string) (open_blocker : string → bool) (t : Task) : bool :=
  negb (card_held caller t) && negb (card_blocked open_blocker t).

Lemma pick_loop caller ob ts p :
  let q := foldl (pick_step caller ob) p ts in
  card q = match card p with Some t => Some t | None => List.find (available caller ob) ts end ∧
  total q = (total p + length ts)%nat ∧
  held q = (held p + length (filter (λ t, card_held caller t) ts))%nat ∧
  blocked q = (blocked p + length (filter (λ t, negb (card_held caller t) && card_blocked ob t) ts))%nat.
Proof.
  revert p. induction ts as [|t ts IH]; intros p; simpl.
  { split_and!; [by destruct (card p)|lia..]. }
  destruct (IH (pick_step caller ob p t)) as (Hc & Ht & Hh & Hb). simpl in *.
  rewrite Hc, Ht, Hh, Hb, !filter_cons. unfold pick_step, available.
  destruct (card_held caller t), (card_blocked ob t), (card p); simpl; split_and!; (done || lia).
Qed.

Lemma order_leb_total a b : order_leb a b = true ∨ order_leb b a = true.
Proof.
  unfold order_leb, order, then_.
  rewrite (String.compare_antisym (t_rank b) (t_rank a)), (String.compare_antisym (t_id b) (t_id a)),
    (Z.compare_antisym (t_created_at a) (t_created_at b)).
  destruct (String.compare (t_rank a) (t_rank b)), (Z.compare (t_created_at a) (t_created_at b)),
    (String.compare (t_id a) (t_id b)); simpl; auto.
Qed.

Definition str_lt (a b : string) : Prop := String.compare a b = Lt.

Lemma order_leb_iff a b :
  order_leb a b = true ↔
    str_lt (t_rank a) (t_rank b) ∨
    (t_rank a = t_rank b ∧
       (t_created_at a < t_created_at b ∨
        (t_created_at a = t_created_at b ∧ str_leb (t_id a) (t_id b) = true))).
Proof.
  unfold order_leb, order, then_, str_lt, str_leb, String.leb.
  destruct (String.compare (t_rank a) (t_rank b)) eqn:E.
  - apply String.compare_eq_iff in E as ->.
    destruct (Z.compare_spec (t_created_at a) (t_created_at b)) as [He|Hl|Hg].
    + destruct (String.compare (t_id a) (t_id b)); intuition (done || lia).
    + intuition lia.
    + split; [done|]. intros [?|[_ [?|[? _]]]]; (done || lia).
  - split; [by left|done].
  - split; [done|]. intros [?|[He _]]; [done|].
    rewrite (proj2 (str_compare_eq _ _) He) in E. done.
Qed.

Lemma str_lt_leb a b : str_lt a b ↔ str_leb a b = true ∧ a ≠ b.
Proof.
  unfold str_lt, str_leb, String.leb. rewrite <-str_compare_eq.
  destruct (String.compare a b); naive_solver.
Qed.

Lemma order_leb_trans a b c : order_leb a b = true → order_leb b c = true → order_leb a c = true.
Proof.
  rewrite !order_leb_iff, !str_lt_leb.
  intros [[Hab Hne]|[Hab Hab']] [[Hbc Hne']|[Hbc Hbc']].
  - left. split; [by eapply str_leb_trans|]. intros Heq. rewrite Heq in Hab.
    apply Hne'. by apply str_leb_antisym.
  - left. by rewrite <-Hbc.
  - left. by rewrite Hab.
  - right. split; [congruence|]. destruct Hab' as [?|[? ?]], Hbc' as [?|[? ?]]; [left; lia..|].
    right. split; [lia|]. by eapply str_leb_trans.
Qed.
End BoardFacts.

(** ** Properties *)

Module BoardProps.
Import BoardFacts.

(** On an accepted board no card is ever off the board and nothing panics:
    every card has a lane, one of the board's, of the card's own category whenever
    the board draws that category, and the lane the card names when it fits; and
    the pull source and pull target the pulls look up exist, a Ready and an In
    progress lane. *)
Theorem accepted_board_places_every_card b t :
  board_check b = Ok tt →
  (∃ l, lane_of b t = Some l ∧ l ∈ lanes b ∧
        ((∃ l', l' ∈ lanes b ∧ category l' = t_column t) → category l = t_column t) ∧
        (∀ s l', t_lane t = Some s → lane b s = Some l' → category l' = t_column t → l = l')) ∧
  (∃ l, lane b (pull_source b) = Some l ∧ category l = Ready) ∧
  (∃ l, lane b (pull_target b) = Some l ∧ category l = InProgress).
Proof.
  intros Hc%board_check_checked. split_and!; [apply lane_of_spec| |]; apply Hc.
Qed.

(** Every template makes an accepted board, for any project, time and key
    prefix, whenever the slug is well formed and the trimmed name has one to forty
    characters; so the board a project starts with, [Board::main], never fails its
    [expect], whatever the project is called. An unknown template is refused. *)
Theorem templates_make_accepted_boards :
  (∀ project slug name template prefix now,
     template ∈ TEMPLATES → valid_slug slug = true → trim name ≠ "" →
     (chars_count (trim name) ≤ 40)%nat →
     ∃ b, from_template project slug name template prefix now = Ok b ∧ board_check b = Ok tt) ∧
  (∀ project project_name now,
     ∃ b, main project project_name now = Some b ∧ board_check b = Ok tt ∧
          b_key_prefix b = key_prefix project_name) ∧
  (∀ project slug name template prefix now,
     template ∉ TEMPLATES → is_ok (from_template project slug name template prefix now) = false).
Proof.
  assert (∀ project slug name template prefix now,
     template ∈ TEMPLATES → valid_slug slug = true → trim name ≠ "" →
     (chars_count (trim name) ≤ 40)%nat →
     ∃ b, from_template project slug name template prefix now = Ok b ∧ board_check b = Ok tt ∧
          b_key_prefix b = prefix) as Hgen.
  { intros project slug name template prefix now Hin Hs Hn Hl. unfold from_template.
    assert (∀ ls source target,
      check_lanes ∅ ls = Ok tt → (length ls =? 0)%nat || (LANES_MAX <? length ls)%nat = false →
      is_some_and (λ l, category l == Ready) (List.find (λ l, Board.slug l == source) ls) = true →
      is_some_and (λ l, category l == InProgress) (List.find (λ l, Board.slug l == target) ls) = true →
      existsb (λ l, category l == Done) ls = true →
      board_check (mkBoard project slug (trim name) template ls source target prefix 0 now now) = Ok tt)
      as Hok.
    { intros ls source target H1 H2 H3 H4 H5. unfold board_check, lane; simpl.
      rewrite (proj2 (eqb_false _ _) Hn), (proj2 (Nat.ltb_ge NAME_CHARS _) Hl), Hs, H2, H1, H3, H4, H5. done. }
    unfold TEMPLATES in Hin. rewrite !elem_of_cons, elem_of_nil in Hin.
    destruct Hin as [->|[->|[->|[]]]];
      (match goal with |- context [template_lanes ?t] =>
         let v := eval vm_compute in (template_lanes t) in change (template_lanes t) with v end);
      cbv beta iota;
      (rewrite Hok; [|vm_compute; reflexivity..]); eexists; (split; [reflexivity|]);
      (split; [apply Hok; vm_compute; reflexivity|done]). }
  split_and!.
  - intros project sl name tpl prefix now ? ? ? ?.
    destruct (Hgen project sl name tpl prefix now) as (b & ? & ? & _); eauto.
  - intros project project_name now. unfold main.
    destruct (Hgen project MAIN "Main" "classic" (key_prefix project_name) now)
      as (b & -> & ? & ?); [set_solver|by vm_compute..|vm_compute; lia|]. eauto.
  - intros project slug name template prefix now Hnin. unfold from_template, template_lanes.
    unfold TEMPLATES in Hnin. rewrite !not_elem_of_cons in Hnin. destruct Hnin as (H1 & H2 & H3 & _).
    by rewrite (proj2 (eqb_false _ _) H1), (proj2 (eqb_false _ _) H2), (proj2 (eqb_false _ _) H3).
Qed.

Lemma all_cards_drawn b cards :
  lanes b ≠ [] → existsb (λ t, is_none (t_archived_at t) && is_none (lane_of b t)) cards = false.
Proof.
  intros Hl. apply not_true_iff_false. intros (t & _ & [_ Hn]%andb_true_iff)%existsb_exists.
  by destruct (lane_of_spec b t Hl) as (l & Hlane & _); rewrite Hlane in Hn.
Qed.

(** On a board with lanes the pull with no card named does not panic and takes
    the first card in board order, among those drawn in the pull source and not
    archived, that is free or the caller's and waits on nothing; it answers none
    only when there is none, and its counts add up: every card of the source is
    held, blocked or available. *)
Theorem next_ready_takes_first_available b cards caller open_blocker :
  lanes b ≠ [] →
  let source := sort_by order_leb (filter (λ t, in_pull_source b t) cards) in
  ∃ p, next_ready b cards caller open_blocker = Some p ∧
  source ≡ₚ filter (λ t, in_pull_source b t) cards ∧
  StronglySorted (λ x y, order_leb x y = true) source ∧
  card p = List.find (available caller open_blocker) source ∧
  total p = length source ∧
  (total p = held p + blocked p + length (filter (λ t, available caller open_blocker t) source))%nat ∧
  (card p = None → (total p = held p + blocked p)%nat).
Proof.
  intros Hlanes source. unfold next_ready. rewrite all_cards_drawn by done. fold source.
  eexists. split; [done|].
  destruct (pick_loop caller open_blocker source (mkPick None 0 0 0)) as (Hc & Ht & Hh & Hb).
  simpl in *. rewrite Hc, Ht, Hh, Hb.
  assert (∀ ts, length ts =
    (length (filter (λ t, card_held caller t) ts)
     + length (filter (λ t, negb (card_held caller t) && card_blocked open_blocker t) ts)
     + length (filter (λ t, available caller open_blocker t) ts))%nat) as Hsum.
  { induction ts as [|t ts IH]; [done|]. rewrite !filter_cons. unfold available in *.
    destruct (card_held caller t), (card_blocked open_blocker t); simpl; lia. }
  split_and!.
  - apply sort_by_perm.
  - apply sort_by_sorted; eauto using order_leb_total, order_leb_trans.
  - done.
  - done.
  - apply Hsum.
  - intros Hnone. rewrite (Hsum source) at 1.
    assert (filter (λ t, available caller open_blocker t) source = []) as ->; [|simpl; lia].
    apply list_filter_nil. intros t Hin%list_elem_of_In. rewrite (find_none _ _ Hnone t Hin). simpl. tauto.
Qed.

(** The keys of [n] calls in a row. *)
Fixpoint take_keys (n : nat) (b : Board) : list string :=
  match n with
  | O => []
  | S n => (take_key b).2 :: take_keys n (take_key b).1
  end.

Lemma take_keys_eq n b :
  0 ≤ last_key b → last_key b + Z.of_nat n < 2 ^ 64 →
  take_keys n b = (λ i, (b_key_prefix b ++ "-" ++ pretty i)%string) <$> seqZ (last_key b + 1) (Z.of_nat n).
Proof.
  revert b. induction n as [|n IH]; intros b H0 Hn; [done|].
  rewrite seqZ_cons by lia. rewrite fmap_cons. cbn [take_keys].
  assert (last_key (take_key b).1 = last_key b + 1) as Hl.
  { simpl. unfold u64_add. rewrite u64_wrap_small; lia. }
  rewrite IH by lia. rewrite Hl. simpl. unfold u64_add. rewrite u64_wrap_small by lia.
  f_equal. f_equal. f_equal; lia.
Qed.

(** The display keys a board hands out, however many, never repeat until its
    64-bit counter is used up: the counter moves on by one each time and different
    numbers print as different keys. *)
Theorem display_keys_never_repeat b n :
  0 ≤ last_key b → last_key b + Z.of_nat n < 2 ^ 64 → NoDup (take_keys n b).
Proof.
  intros H0 Hn. rewrite take_keys_eq by done. apply NoDup_fmap_2; [|apply NoDup_seqZ].
  intros i j Heq. apply (inj (String.app _)) in Heq. apply (inj (String.app _)) in Heq.
  by apply (inj pretty) in Heq.
Qed.

(** *** Names *)

Definition slug_byte (a : ascii) : bool :=
  is_ascii_lowercase a || is_ascii_digit a || Ascii.eqb a "-" || Ascii.eqb a "_".

Lemma slug_byte_ascii a : slug_byte a = true → is_ascii_byte a = true.
Proof. by destruct a as [[] [] [] [] [] [] [] []]. Qed.

Lemma lower_alnum_slug_byte a :
  is_ascii_alphanumeric a = true → is_ascii_uppercase a = false → slug_byte a = true.
Proof. by destruct a as [[] [] [] [] [] [] [] []]. Qed.

Lemma slug_loop_bytes sl cs :
  sforall slug_byte sl = true →
  Forall (λ c, sforall (λ a, negb (is_ascii_uppercase a)) c = true) cs →
  sforall slug_byte (slug_loop sl cs) = true.
Proof.
  intros Hs Hcs. revert sl Hs. induction Hcs as [|c cs Hc Hcs IH]; intros sl Hs; simpl; [done|].
  destruct (on_ascii is_ascii_alphanumeric c) eqn:Ea.
  - apply IH. rewrite sforall_app, Hs. destruct c as [|a [|]]; [done| |done].
    simpl in *. rewrite andb_true_r in Hc. apply negb_true_iff in Hc.
    by rewrite lower_alnum_slug_byte.
  - destruct (_ && _); apply IH; [by rewrite sforall_app, Hs|done].
Qed.

Lemma valid_slug_intro s :
  s ≠ "" → sforall slug_byte s = true → (String.length s ≤ 32)%nat → valid_slug s = true.
Proof.
  intros Hne Hb Hl. unfold valid_slug.
  rewrite (proj2 (eqb_false _ _) Hne), chars_count_ascii by by eapply sforall_impl, Hb; apply slug_byte_ascii.
  rewrite (proj2 (Nat.leb_le _ SLUG_CHARS) Hl). exact Hb.
Qed.

(** Whatever a board is called, in any script, [slug_of] makes a well-formed
    slug of it: one to thirty-two lowercase letters, digits, dashes. *)
Theorem slug_of_is_valid {U : Unicode} name : valid_slug (slug_of name) = true.
Proof.
  unfold slug_of.
  assert (sforall slug_byte (slug_loop "" (chars (to_lowercase (trim name)))) = true) as Hb.
  { apply slug_loop_bytes; [done|]. apply sforall_chars, sexists_false_sforall, to_lowercase_no_upper. }
  apply (sforall_trim_end _ "-") in Hb.
  assert (is_ascii (trim_end_char "-" (slug_loop "" (chars (to_lowercase (trim name))))) = true) as Ha.
  { eapply sforall_impl, Hb. apply slug_byte_ascii. }
  rewrite chars_take_ascii by done. destruct (_ == "") eqn:E; [by vm_compute|]. split_and_bool.
  apply valid_slug_intro; [done|by apply sforall_stake|apply length_stake].
Qed.

Lemma upper_of_alphabetic a :
  is_ascii_alphabetic a = true → is_ascii_uppercase (to_ascii_uppercase_byte a) = true.
Proof. by destruct a as [[] [] [] [] [] [] [] []]. Qed.

Lemma upper_ascii a : is_ascii_uppercase a = true → is_ascii_byte a = true.
Proof. by destruct a as [[] [] [] [] [] [] [] []]. Qed.

Lemma initials_upper prev cs : sforall is_ascii_uppercase (initials prev cs) = true.
Proof.
  revert prev. induction cs as [|c cs IH]; intros prev; simpl; [done|].
  destruct (on_ascii is_ascii_alphabetic c) eqn:Ea; simpl; [|apply IH].
  destruct (match prev with Some _ => _ | None => _ end); [|apply IH].
  rewrite sforall_app, IH. destruct c as [|a [|]]; [done| |done]. simpl in *.
  by rewrite upper_of_alphabetic.
Qed.

Lemma letters_upper cs :
  Forall (λ c, on_ascii is_ascii_alphabetic c = true) cs →
  sforall is_ascii_uppercase (to_ascii_uppercase (String.concat "" cs)) = true ∧
  String.length (to_ascii_uppercase (String.concat "" cs)) = length cs.
Proof.
  assert (∀ c cs, String.concat "" (c :: cs) = (c ++ String.concat "" cs)%string) as Hcons.
  { intros c [|d ds]; [by rewrite append_nil_r|done]. }
  assert (∀ f s t, smap f (s ++ t) = (smap f s ++ smap f t)%string) as Hmap.
  { intros f s t. induction s as [|x s IH]; [done|]. rewrite !append_cons. simpl. by rewrite append_cons, IH. }
  induction 1 as [|c cs Hc _ [IH1 IH2]]; [done|]. rewrite Hcons. unfold to_ascii_uppercase in *.
  rewrite Hmap, sforall_app, length_append, IH1, IH2.
  destruct c as [|a [|]]; [done| |done]. simpl in *. by rewrite upper_of_alphabetic.
Qed.

(** A display-key prefix is one to four uppercase ASCII letters, whatever the
    project is called. *)
Theorem key_prefix_shape name :
  sforall is_ascii_uppercase (key_prefix name) = true ∧
  (1 ≤ String.length (key_prefix name) ≤ 4)%nat.
Proof.
  unfold key_prefix. pose proof (initials_upper None (chars name)) as Hu.
  set (i := initials None (chars name)) in *.
  assert (is_ascii i = true) as Ha by (eapply sforall_impl, Hu; apply upper_ascii).
  destruct (Nat.leb_spec 2 (chars_count i)) as [Hl|Hl].
  - rewrite chars_take_ascii by done. rewrite chars_count_ascii in Hl by done. split.
    + by apply sforall_stake.
    + pose proof (length_stake 4 i). split; [|done].
      destruct i as [|a [|b t]]; simpl in *; lia.
  - set (cs := take 2 _). assert (Forall (λ c, on_ascii is_ascii_alphabetic c = true) cs) as Hcs.
    { apply Forall_take, Forall_forall. intros c [Hc _]%list_elem_of_filter. by apply Is_true_true. }
    destruct (letters_upper cs Hcs) as [Hup Hlen].
    assert (length cs ≤ 2)%nat by (unfold cs; rewrite length_take; lia).
    destruct (_ == "") eqn:E; [vm_compute; split; [done|lia]|]. split_and_bool. split; [done|].
    rewrite Hlen. split; [|lia]. destruct cs; [by vm_compute in E|simpl; lia].
Qed.

(** Words that are a slug already are not changed by the folding. *)
Lemma slug_folds {U : Unicode} s :
  sforall slug_byte s = true → contains_char "-" s = false →
  trim s = s ∧ to_lowercase s = s ∧ replace_char "-" "_" (replace_char " " "_" s) = s.
Proof.
  intros Hb Hd. assert (is_ascii s = true) as Ha by (eapply sforall_impl, Hb; apply slug_byte_ascii).
  split_and!.
  - apply trim_no_blank; [done|]. eapply sforall_impl, Hb. by intros [[] [] [] [] [] [] [] []].
  - rewrite to_lowercase_ascii by done. apply smap_id. eapply sforall_impl, Hb.
    by intros [[] [] [] [] [] [] [] []].
  - assert (replace_char " " "_" s = s) as ->.
    { apply smap_id. eapply sforall_impl, Hb. by intros [[] [] [] [] [] [] [] []]. }
    apply smap_id. apply sexists_false_sforall in Hd. eapply sforall_impl, Hd.
    by intros [[] [] [] [] [] [] [] []].
Qed.

(** A lane answers to its slug: on an accepted board the slug of a lane, if it
    has no dash, resolves to the lane with that slug, unless an earlier lane is
    displayed under that very name. *)
Theorem resolve_answers_to_slug {U : Unicode} b l :
  board_check b = Ok tt → l ∈ lanes b → contains_char "-" (slug l) = false →
  ∃ l', resolve b (slug l) = Ok l' ∧ l' ∈ lanes b ∧
        (l' = l ∨ to_lowercase (lane_name l') = slug l).
Proof.
  intros Hc Hin Hd. pose proof (board_check_checked b Hc) as Hck.
  assert (sforall slug_byte (slug l) = true) as Hb.
  { unfold board_check in Hc. destruct (_ || _) in Hc; [done|]. destruct (negb _) in Hc; [done|].
    destruct (_ || _) in Hc; [done|]. destruct (check_lanes ∅ (lanes b)) as [[]|] eqn:E; [|done].
    apply check_lanes_Ok in E as (_ & _ & Hall). rewrite Forall_forall in Hall.
    specialize (Hall l Hin). unfold valid_slug in Hall. split_and_bool. done. }
  destruct (slug_folds (slug l) Hb Hd) as (Ht & Hl & Hr). unfold resolve. rewrite Ht, Hl, Hr.
  destruct (List.find _ _) as [l'|] eqn:Ef.
  - apply find_elem in Ef as [Hin' Hp]. exists l'. split_and!; [done|done|].
    apply orb_true_iff in Hp as [Hp|Hp]; split_and_bool; [left|by right].
    pose proof (checked_slugs _ Hck) as Hnd. apply list_elem_of_lookup in Hin as [i Hi], Hin' as [j Hj].
    assert (i = j) as <-; [|congruence].
    eapply NoDup_lookup; [done|..]; rewrite list_lookup_fmap; [rewrite Hi|rewrite Hj; simpl; rewrite Hp]; done.
  - exfalso. apply list_elem_of_In in Hin. pose proof (find_none _ _ Ef l Hin) as Hn. simpl in Hn.
    by rewrite eqb_refl in Hn.
Qed.

(** A slug with a dash, which the board's own check accepts, does not: the
    words are folded to underscores before they are compared with the slugs. *)
Theorem dashed_slug_is_not_found :
  ∃ b l, board_check b = Ok tt ∧ l ∈ lanes b ∧ valid_slug (slug l) = true ∧
         is_ok (resolve (U := ascii_unicode) b (slug l)) = false.
Proof.
  exists (mkBoard "p" "b" "B" "custom"
            [lane_new "ready" "To do" Ready OAny; lane_new "in_progress" "Doing" InProgress OAny;
             lane_new "code-review" "Code review" Review OAny; lane_new "done" "Done" Done OAny]
            "ready" "in_progress" "B" 0 0 0),
    (lane_new "code-review" "Code review" Review OAny).
  split_and!; [by vm_compute|set_solver|by vm_compute|by vm_compute].
Qed.

(** *** Witnesses *)

Definition w_board : Board :=
  Eval vm_compute in
    match main "p" "AgentDocker" 0 with Some b => b | None => mkBoard "" "" "" "" [] "" "" "" 0 0 0 end.

Definition w_task (id : string) (c : Column) : Task :=
  mkTask id "p" "" None "A card" "" "" c None "" None Normal None None "" None [] [] "user" 0 0 None
    [] None None [].

Lemma w_board_ok : board_check w_board = Ok tt.
Proof. vm_compute. reflexivity. Qed.

Lemma accepted_board_places_every_card_witness :
  board_check w_board = Ok tt ∧
  ∃ l, lane w_board (pull_target w_board) = Some l ∧ category l = InProgress.
Proof.
  split; [exact w_board_ok|].
  exact (proj2 (proj2 (accepted_board_places_every_card w_board (w_task "t1" Ready) w_board_ok))).
Defined.

Lemma templates_make_accepted_boards_witness :
  ∃ b, from_template "p" "train" "Release train" "agents" "RT" 5 = Ok b ∧ board_check b = Ok tt.
Proof.
  apply (proj1 templates_make_accepted_boards);
    [set_solver|vm_compute; reflexivity|vm_compute; discriminate|vm_compute; lia].
Defined.

Lemma next_ready_takes_first_available_witness :
  ∃ p, next_ready w_board [w_task "t2" Backlog; w_task "t1" Ready] "a" (λ _, false) = Some p ∧
       card p = Some (w_task "t1" Ready).
Proof.
  destruct (next_ready_takes_first_available w_board [w_task "t2" Backlog; w_task "t1" Ready] "a"
              (λ _, false)) as (p & Hp & _ & _ & Hc & _); [vm_compute; discriminate|].
  exists p. split; [exact Hp|]. rewrite Hc. vm_compute. reflexivity.
Defined.

Lemma display_keys_never_repeat_witness : NoDup (take_keys 3 w_board).
Proof. apply (display_keys_never_repeat w_board 3); vm_compute; congruence. Defined.

Lemma resolve_answers_to_slug_witness :
  ∃ l', resolve (U := ascii_unicode) w_board "review" = Ok l' ∧ l' ∈ lanes w_board ∧
        (l' = lane_new "review" "Review" Review OHuman ∨
         to_lowercase (Unicode := ascii_unicode) (lane_name l') = "review").
Proof.
  apply (resolve_answers_to_slug (U := ascii_unicode) w_board (lane_new "review" "Review" Review OHuman));
    [exact w_board_ok|unfold w_board; set_solver|vm_compute; reflexivity].
Defined.
End BoardProps.
