(* ===== verification/Task.v ===== *)
(** * Cards: filing, pulling, moving, editing, archiving

    The model of the operations of [crates/core/src/task.rs]. An operation takes
    the card and gives the card as it leaves it with its answer; [None] is a panic
    (a board whose lanes or pull target are missing). *)

From Stdlib Require Import Ascii.
From S2P Require Import Prelude RustStr Link Board.

Local Open Scope Z_scope.
Local Open Scope rust_scope.

Definition TITLE_CHARS : nat := 200.
Definition ACCEPTANCE_CHARS : nat := 4000.
Definition DESCRIPTION_CHARS : nat := Z.to_nat 16000.
Definition BLOCKER_CHARS : nat := 500.
Definition COMMENT_CHARS : nat := 4000.
Definition TAGS_MAX : nat := 8.
Definition TAG_CHARS : nat := 32.
Definition BLOCKERS_MAX : nat := 16.

Inductive TaskError :=
| Invalid (reason : string)
| Taken (assignee : option string) (column : Column)
| NotYours
| Archived
| Cycle.

Global Instance TaskError_eq_dec : EqDecision TaskError.
Proof. solve_decision. Defined.

Record NewTask := mkNew {
  n_title : string;
  n_acceptance : string;
  n_description : string;
  n_column : option Column;
  n_lane : option string;
  n_priority : Priority;
  n_size : option Size;
  n_due : option Z;
  n_external_blocker : string;
  n_parent : option string;
  n_blocked_by : list string;
  n_tags : list string;
  n_links : list Link;
  n_plan : option string;
}.

(** Each field left [None] stays as it was; an inner [None] clears it. *)
Record TaskEdit := mkEdit {
  e_title : option string;
  e_acceptance : option string;
  e_description : option string;
  e_assignee : option (option string);
  e_links : option (list Link);
  e_priority : option Priority;
  e_size : option (option Size);
  e_due : option (option Z);
  e_external_blocker : option string;
  e_parent : option (option string);
  e_blocked_by : option (list string);
  e_tags : option (list string);
  e_plan : option (option string);
}.

Section Ops.
Context {U : Unicode}.

(** A tag as cards keep it. *)
Definition tag_of (text : string) : string :=
  String.concat "-" (split_whitespace (to_lowercase (trim text))).

Definition tags_of (tags : list string) : list string := dedup (sort_by str_leb (tag_of <$> tags)).

Definition tag_ok (t : string) : bool :=
  negb (t == "") && (chars_count t <=? TAG_CHARS)%nat
  && forallb (λ c, is_alphanumeric c || (c == "-") || (c == "_") || (c == ".")) (chars t).

(** [Task::check]. *)
Definition task_check (t : Task) : result unit TaskError :=
  let title := trim (t_title t) in
  if title == "" then Err (Invalid "a card needs a title")
  else if (TITLE_CHARS <? chars_count title)%nat
  then Err (Invalid "a card's title is at most 200 characters")
  else if (ACCEPTANCE_CHARS <? chars_count (t_acceptance t))%nat
  then Err (Invalid "a card's acceptance text is at most 4000 characters")
  else if (DESCRIPTION_CHARS <? chars_count (t_description t))%nat
  then Err (Invalid "a card's description is at most 16000 characters")
  else if (BLOCKER_CHARS <? chars_count (t_external_blocker t))%nat
  then Err (Invalid "a card's outside blocker is at most 500 characters")
  else if (TAGS_MAX <? length (t_tags t))%nat
  then Err (Invalid "a card has at most eight tags")
  else if existsb (λ g, negb (tag_ok g)) (t_tags t)
  then Err (Invalid "a tag is one to thirty-two letters, digits, -, _ or .")
  else if (BLOCKERS_MAX <? length (t_blocked_by t))%nat
  then Err (Invalid "a card waits on at most sixteen cards")
  else if (t_parent t == Some (t_id t)) || existsb (eqb (t_id t)) (t_blocked_by t)
  then Err Cycle
  else map_err Invalid (links_check (t_links t)).

(** [Task::file]; [fresh] is the generated id. *)
Definition file (project : string) (new : NewTask) (created_by fresh : string) (now : instant)
    : result Task TaskError :=
  let task :=
    {| t_id := fresh; t_project := project; t_key := ""; t_board := None;
       t_title := trim (n_title new); t_acceptance := trim (n_acceptance new);
       t_description := trim (n_description new);
       t_column := unwrap_or Backlog (n_column new); t_lane := n_lane new; t_rank := "";
       t_assignee := None; t_priority := n_priority new; t_size := n_size new; t_due := n_due new;
       t_external_blocker := trim (n_external_blocker new); t_parent := n_parent new;
       t_blocked_by := n_blocked_by new; t_tags := tags_of (n_tags new);
       t_created_by := created_by; t_created_at := now; t_updated_at := now;
       t_archived_at := None; t_links := n_links new; t_plan := n_plan new;
       t_lane_since := Some now; t_fired := [] |} in
  let? _ := task_check task in
  Ok task.

(** [Task::new]. *)
Definition task_new (project title acceptance : string) (column : option Column)
    (created_by : string) (links : list Link) (fresh : string) (now : instant)
    : result Task TaskError :=
  file project
    (mkNew title acceptance "" column None Normal None None "" None [] [] links None)
    created_by fresh now.

(** [Task::place]. *)
Definition place (l : Lane) (now : instant) (t : Task) : Task :=
  with_fired [] (with_lane_since (Some now) (with_lane (Some (slug l)) (with_column (category l) t))).

Definition in_lane_since (t : Task) : instant := unwrap_or (t_updated_at t) (t_lane_since t).

Definition open (t : Task) : bool := is_none (t_archived_at t) && negb (terminal (t_column t)).

(** [Task::pull]. *)
Definition pull (t : Task) (agent : string) (b : Board) (named : bool) (now : instant)
    : option (Task * result unit TaskError) :=
  if is_some (t_archived_at t) then Some (t, Err Archived)
  else
    here ← lane_of b t;
    let in_source := slug here == pull_source b in
    let reachable := in_source || (named && open t) in
    let free := match t_assignee t with
                | None => true
                | Some holder => (holder == agent) && in_source
                end in
    if negb reachable || negb free then Some (t, Err (Taken (t_assignee t) (t_column t)))
    else if negb (trim (t_external_blocker t) == "")
    then Some (t, Err (Invalid "the card waits on something off the board"))
    else
      placed ← (if in_source || negb (working (t_column t))
                then target ← lane b (pull_target b); Some (place target now t)
                else Some t);
      Some (with_updated_at now (with_assignee (Some agent) placed), Ok tt).

(** [Task::take_over]. *)
Definition take_over (t : Task) (agent from : string) (now : instant) : Task * result unit TaskError :=
  if is_some (t_archived_at t) then (t, Err Archived)
  else if negb (working (t_column t)) || (t_assignee t != Some from)
  then (t, Err (Taken (t_assignee t) (t_column t)))
  else (with_updated_at now (with_assignee (Some agent) t), Ok tt).

(** [Task::move_to]. *)
Definition move_to (t : Task) (by_ : string) (by_is_human : bool) (l : Lane) (now : instant)
    : Task * result bool TaskError :=
  if is_some (t_archived_at t) then (t, Err Archived)
  else if negb by_is_human && is_none_or (λ a, a != by_) (t_assignee t) then (t, Err NotYours)
  else if (category l == t_column t) && is_none_or (λ s, s == slug l) (t_lane t)
  then ((if is_none (t_lane t) then with_lane (Some (slug l)) t else t), Ok false)
  else
    let t := place l now t in
    let t := if by_is_human && waiting (category l) then with_assignee None t else t in
    (with_updated_at now t, Ok true).

(** The [set!] macro of [update]: put the value if it differs, and say so. *)
Definition set_field {A} `{EqDecision A} (get : Task → A) (put : A → Task → Task)
    (name : string) (value : option A) (st : Task * list string) : Task * list string :=
  match value with
  | None => st
  | Some v => if get st.1 != v then (put v st.1, st.2 ++ [name]) else st
  end.

(** The edits of [update], in order. *)
Definition apply_edit (e : TaskEdit) (t : Task) : Task * list string :=
  let st := (t, []) in
  let st := set_field t_title with_title "title" (trim <$> e_title e) st in
  let st := set_field t_acceptance with_acceptance "acceptance" (trim <$> e_acceptance e) st in
  let st := set_field t_description with_description "description" (trim <$> e_description e) st in
  let st := set_field t_assignee with_assignee "assignee" (e_assignee e) st in
  let st := set_field t_links with_links "links" (e_links e) st in
  let st := set_field t_priority with_priority "priority" (e_priority e) st in
  let st := set_field t_size with_size "size" (e_size e) st in
  let st := set_field t_due with_due "due" (e_due e) st in
  let st := set_field t_external_blocker with_external_blocker "external_blocker"
              (trim <$> e_external_blocker e) st in
  let st := set_field t_parent with_parent "parent" (e_parent e) st in
  let st := set_field t_blocked_by with_blocked_by "blocked_by" (dedup <$> e_blocked_by e) st in
  let st := set_field t_tags with_tags "tags" (tags_of <$> e_tags e) st in
  set_field t_plan with_plan "plan" (e_plan e) st.

(** [Task::update]. *)
Definition update (t : Task) (by_ : string) (by_is_human : bool) (e : TaskEdit) (now : instant)
    : Task * result (list string) TaskError :=
  if is_some (t_archived_at t) then (t, Err Archived)
  else if negb by_is_human
          && (is_some (e_assignee e) || is_none_or (λ a, a != by_) (t_assignee t))
  then (t, Err NotYours)
  else
    let '(next, changed) := apply_edit e t in
    match task_check next with
    | Err err => (t, Err err)
    | Ok _ => ((if (length changed =? 0)%nat then next else with_updated_at now next), Ok changed)
    end.

(** [Task::archive]. *)
Definition archive (t : Task) (by_ : string) (by_is_human : bool) (now : instant)
    : Task * result unit TaskError :=
  if is_some (t_archived_at t) then (t, Ok tt)
  else
    let theirs_ended := terminal (t_column t) && is_some_and (λ a, a == by_) (t_assignee t) in
    if negb by_is_human && negb theirs_ended then (t, Err NotYours)
    else (with_updated_at now (with_archived_at (Some now) t), Ok tt).

(** [Task::unarchive]. *)
Definition unarchive (t : Task) (by_is_human : bool) (now : instant) : Task * result unit TaskError :=
  if negb by_is_human then (t, Err NotYours)
  else if is_some (t_archived_at t)
  then (with_updated_at now (with_archived_at None t), Ok tt)
  else (t, Ok tt).

Definition handle (t : Task) : string :=
  if t_key t == "" then chars_take 7 (t_id t) else t_key t.
End Ops.

(** ** Waiting on oneself *)

(** One turn of the walk of [closes_cycle]: the answer, or the next state. The
    stack's top is the head of the list. *)
Definition walk_step (task : string) (next : string → list string)
    (st : gset string * list string) : bool + (gset string * list string) :=
  match st.2 with
  | [] => inl false
  | id :: stack =>
      if id == task then inl true
      else if (4096 <? size st.1)%nat || bool_decide (id ∈ st.1) then inr (st.1, stack)
      else inr ({[id]} ∪ st.1, rev (next id) ++ stack)
  end.

Fixpoint walk (turns : nat) (task : string) (next : string → list string)
    (st : gset string * list string) : option bool :=
  match turns with
  | O => None
  | S turns =>
      match walk_step task next st with
      | inl answer => Some answer
      | inr st => walk turns task next st
      end
  end.

(** [closes_cycle], run for some number of turns. *)
Definition closes_cycle (turns : nat) (task : string) (edges : list string)
    (next : string → list string) : option bool :=
  walk turns task next (∅, rev edges).

(** ** Comments *)

Record Comment := mkComment {
  c_id : string;
  c_task : string;
  c_project : string;
  c_author : string;
  c_body : string;
  c_reply_to : option string;
  c_created_at : instant;
  c_edited_at : option instant;
  c_deleted_at : option instant;
}.

Definition check_body (body : string) : result unit TaskError :=
  let body := trim body in
  if body == "" then Err (Invalid "a comment needs words")
  else if (COMMENT_CHARS <? chars_count body)%nat
  then Err (Invalid "a comment is at most 4000 characters")
  else Ok tt.

Definition comment_new (t : Task) (author body : string) (reply_to : option string)
    (fresh : string) (now : instant) : result Comment TaskError :=
  let? _ := check_body body in
  Ok (mkComment fresh (t_id t) (t_project t) author (trim body) reply_to now None None).

Definition comment_edit (c : Comment) (by_ body : string) (now : instant)
    : Comment * result unit TaskError :=
  if c_author c != by_ then (c, Err NotYours)
  else if is_some (c_deleted_at c) then (c, Err (Invalid "the comment was deleted"))
  else match check_body body with
       | Err e => (c, Err e)
       | Ok _ =>
           (mkComment (c_id c) (c_task c) (c_project c) (c_author c) (trim body) (c_reply_to c)
              (c_created_at c) (Some now) (c_deleted_at c), Ok tt)
       end.

Definition comment_delete (c : Comment) (by_ : string) (by_is_human : bool) (now : instant)
    : Comment * result unit TaskError :=
  if (c_author c != by_) && negb by_is_human then (c, Err NotYours)
  else if is_none (c_deleted_at c)
  then (mkComment (c_id c) (c_task c) (c_project c) (c_author c) "" (c_reply_to c)
          (c_created_at c) (c_edited_at c) (Some now), Ok tt)
  else (c, Ok tt).

(** ** The card's history *)

Inductive TaskAction :=
| Created (lane : string)
| Pulled (lane : string) (from : option string)
| Moved (from to : string)
| Updated (fields : list string)
| Assigned (to : option string)
| Commented (comment : string)
| AArchived
| Unarchived.

Record TaskEntry := mkEntry {
  en_id : string;
  en_task : string;
  en_project : string;
  en_at : instant;
  en_by : string;
  en_action : TaskAction;
}.

Definition entry_new (t : Task) (by_ : string) (a : TaskAction) (uuid : string) (at_ : instant) : TaskEntry :=
  mkEntry (t_id t ++ "-" ++ uuid)%string (t_id t) (t_project t) at_ by_ a.

(** ** Facts *)

Module TaskFacts.
Import BoardFacts.

Section Cards.
Context {U : Unicode}.

(** What makes a card the same card for ever. *)
Definition same_card (t t' : Task) : Prop :=
  t_id t' = t_id t ∧ t_project t' = t_project t ∧
  t_created_by t' = t_created_by t ∧ t_created_at t' = t_created_at t.

Global Instance same_card_po : PreOrder same_card.
Proof. split; [done|]. unfold same_card. intros a b c; intuition congruence. Qed.

(** An invariant that the setter keeps is kept by the [set!] macro. *)
Lemma set_field_keeps {A} `{EqDecision A} (P : Task → Prop) get (put : A → Task → Task) name v st :
  (∀ a t, P t → P (put a t)) → P st.1 → P (set_field get put name v st).1.
Proof. intros Hput HP. unfold set_field. destruct v; [|done]. by destruct (negb _); [apply Hput|]. Qed.

(** A setter that says nothing changed nothing. *)
Lemma set_field_silent {A} `{EqDecision A} get (put : A → Task → Task) name v st t0 :
  (st.2 = [] → st.1 = t0) →
  (set_field get put name v st).2 = [] → (set_field get put name v st).1 = t0.
Proof.
  intros Hst. unfold set_field. destruct v; [|done]. destruct (negb _); simpl; [|done].
  intros Happ. by apply app_eq_nil in Happ as [_ ?].
Qed.

Lemma apply_edit_keeps (P : Task → Prop) e t :
  (∀ a t, P t → P (with_title a t)) → (∀ a t, P t → P (with_acceptance a t)) →
  (∀ a t, P t → P (with_description a t)) → (∀ a t, P t → P (with_assignee a t)) →
  (∀ a t, P t → P (with_links a t)) → (∀ a t, P t → P (with_priority a t)) →
  (∀ a t, P t → P (with_size a t)) → (∀ a t, P t → P (with_due a t)) →
  (∀ a t, P t → P (with_external_blocker a t)) → (∀ a t, P t → P (with_parent a t)) →
  (∀ a t, P t → P (with_blocked_by a t)) → (∀ a t, P t → P (with_tags a t)) →
  (∀ a t, P t → P (with_plan a t)) → P t → P (apply_edit e t).1.
Proof. intros. unfold apply_edit. by repeat (apply set_field_keeps; [by auto|]). Qed.

Lemma apply_edit_silent e t : (apply_edit e t).2 = [] → (apply_edit e t).1 = t.
Proof. unfold apply_edit. by repeat apply set_field_silent. Qed.

Lemma apply_edit_frame e t :
  same_card t (apply_edit e t).1 ∧ t_column (apply_edit e t).1 = t_column t ∧
  t_lane (apply_edit e t).1 = t_lane t ∧ t_rank (apply_edit e t).1 = t_rank t ∧
  t_key (apply_edit e t).1 = t_key t ∧ t_archived_at (apply_edit e t).1 = t_archived_at t ∧
  t_updated_at (apply_edit e t).1 = t_updated_at t.
Proof.
  apply (apply_edit_keeps (λ t', same_card t t' ∧ t_column t' = t_column t ∧
    t_lane t' = t_lane t ∧ t_rank t' = t_rank t ∧ t_key t' = t_key t ∧
    t_archived_at t' = t_archived_at t ∧ t_updated_at t' = t_updated_at t)); done.
Qed.

(** An edit that does not name the assignee leaves it. *)
Lemma apply_edit_assignee e t : e_assignee e = None → t_assignee (apply_edit e t).1 = t_assignee t.
Proof.
  intros He. unfold apply_edit. rewrite He. cbv zeta.
  change (set_field t_assignee with_assignee "assignee" None ?st) with st.
  by repeat (apply (set_field_keeps (λ t', t_assignee t' = t_assignee t)); [done|]).
Qed.

(** One operation on a card: [b] and [l] are an accepted board and its lane. *)
Inductive card_step : Task → Task → Prop :=
| card_pull t agent b named now t' r :
    board_check b = Ok tt → pull t agent b named now = Some (t', r) → card_step t t'
| card_take_over t agent from now : card_step t (take_over t agent from now).1
| card_move_to t by_ human l now : card_step t (move_to t by_ human l now).1
| card_update t by_ human e now : card_step t (update t by_ human e now).1
| card_archive t by_ human now : card_step t (archive t by_ human now).1
| card_unarchive t human now : card_step t (unarchive t human now).1.

Lemma pull_cases t agent b named now :
  board_check b = Ok tt →
  ∃ here target,
    lane_of b t = Some here ∧ lane b (pull_target b) = Some target ∧ category target = InProgress ∧
    pull t agent b named now =
      if is_some (t_archived_at t) then Some (t, Err Archived)
      else
        let in_source := slug here == pull_source b in
        if negb (in_source || (named && open t))
           || negb (match t_assignee t with None => true | Some h => (h == agent) && in_source end)
        then Some (t, Err (Taken (t_assignee t) (t_column t)))
        else if negb (trim (t_external_blocker t) == "")
        then Some (t, Err (Invalid "the card waits on something off the board"))
        else Some (with_updated_at now (with_assignee (Some agent)
                     (if in_source || negb (working (t_column t)) then place target now t else t)), Ok tt).
Proof.
  intros Hc. pose proof (board_check_checked b Hc) as Hck.
  destruct (lane_of_spec b t (checked_lanes _ Hck)) as (here & Hh & _).
  destruct (checked_target _ Hck) as (target & Ht & Htc).
  exists here, target. split_and!; try done. unfold pull. rewrite Hh, Ht. simpl.
  destruct (is_some (t_archived_at t)); [done|].
  destruct (_ || negb _); [done|]. destruct (negb (trim _ == _)); [done|].
  by destruct (_ || negb (working _)).
Qed.

(** Nothing but an edit touches what the check looks at, and an edit is checked. *)
Lemma card_step_keeps t t' : card_step t t' → task_check t = Ok tt → same_card t t' ∧ task_check t' = Ok tt.
Proof.
  destruct 1 as [t agent b named now t' r Hb Hp|t agent from now|t by_ human l now
                |t by_ human e now|t by_ human now|t human now]; intros Hok.
  - destruct (pull_cases t agent b named now Hb) as (here & target & _ & _ & _ & Heq).
    rewrite Heq in Hp. cbv zeta in Hp. clear Heq.
    destruct (is_some _); [by simplify_eq|]. destruct (_ || negb (match t_assignee t with None => _ | _ => _ end)); [by simplify_eq|].
    destruct (negb (trim _ == _)); [by simplify_eq|]. injection Hp as <- _.
    by destruct (_ || _).
  - unfold take_over. destruct (is_some _); [done|]. by destruct (_ || _).
  - unfold move_to. destruct (is_some _); [done|]. destruct (_ && is_none_or _ (t_assignee t)); [done|].
    destruct (_ && _); simpl; [by destruct (is_none _)|]. by destruct (_ && _).
  - unfold update. destruct (is_some (t_archived_at t)); [done|]. destruct (_ && _); [done|].
    pose proof (apply_edit_frame e t) as [Hs _]. destruct (apply_edit e t) as [next changed]; simpl in *.
    destruct (task_check next) as [[]|] eqn:E; simpl; [|done]. by destruct (_ =? _)%nat.
  - unfold archive. destruct (is_some _); [done|]. by destruct (_ && _).
  - unfold unarchive. destruct (negb human); [done|]. by destruct (is_some _).
Qed.
End Cards.

(** *** The walk *)
Section Walk.
Context (task : string) (next : string → list string).
Implicit Types (st : gset string * list string) (R : gset string).

Definition waits_on (a b : string) : Prop := b ∈ next a.

Lemma walk_mono turns turns' st ans :
  walk turns task next st = Some ans → (turns ≤ turns')%nat → walk turns' task next st = Some ans.
Proof.
  revert turns' st. induction turns as [|turns IH]; intros turns' st; simpl; [done|].
  destruct turns' as [|turns']; simpl; [lia|]. destruct (walk_step _ _ _); [done|].
  intros ? ?. apply IH; [done|lia].
Qed.

(** The walk ends: a turn shortens the stack or grows the visited set, which
    stops growing past 4096. *)
Lemma walk_ends st : ∃ turns ans, walk turns task next st = Some ans.
Proof.
  remember (4097 - size st.1)%nat as m eqn:Hm. revert st Hm.
  induction m as [m IHm] using lt_wf_ind. intros [seen stack] Hm. revert Hm.
  induction stack as [|id stack IH]; intros Hm; simpl in Hm; [by exists 1%nat, false|].
  destruct (walk_step task next (seen, id :: stack)) as [ans|st'] eqn:E.
  { exists 1%nat, ans. simpl. by rewrite E. }
  enough (∃ turns ans, walk turns task next st' = Some ans) as (turns & ans & Hw).
  { exists (S turns), ans. simpl. by rewrite E. }
  unfold walk_step in E. simpl in E. destruct (id == task); [done|].
  destruct (Nat.ltb_spec 4096 (size seen)) as [Hbig|Hsmall]; simpl in E.
  { simplify_eq. by apply IH. }
  case_bool_decide as Hin; simplify_eq; [by apply IH|].
  eapply IHm; [|done]. simpl. rewrite size_union by set_solver. rewrite size_singleton. lia.
Qed.

(** A yes is a path back to the card. *)
Lemma walk_true turns st :
  walk turns task next st = Some true → ∃ x, x ∈ st.2 ∧ rtc waits_on x task.
Proof.
  revert st. induction turns as [|turns IH]; intros [seen stack]; simpl; [done|].
  unfold walk_step. simpl. destruct stack as [|id stack]; [done|].
  destruct (id == task) eqn:E; split_and_bool.
  { intros _. subst. exists task. split; [left|done]. }
  destruct (_ || _); intros (x & Hx & Hr)%IH; simpl in Hx.
  - exists x. split; [by right|done].
  - apply elem_of_app in Hx as [Hx|Hx]; [|exists x; split; [by right|done]].
    exists id. split; [left|]. eapply rtc_l; [|done].
    unfold waits_on. apply list_elem_of_In. apply in_rev. by apply list_elem_of_In.
Qed.

(** Within a closed set of at most 4097 cards, a no means there is no path. *)
Lemma walk_false R turns st :
  (size R ≤ 4097)%nat → (∀ x y, x ∈ R → y ∈ next x → y ∈ R) →
  st.1 ⊆ R → (∀ x, x ∈ st.2 → x ∈ R) →
  (∀ x, x ∈ st.1 → x ≠ task ∧ ∀ y, y ∈ next x → y ∈ st.1 ∨ y ∈ st.2) →
  walk turns task next st = Some false →
  ∀ x, x ∈ st.1 ∨ x ∈ st.2 → ¬ rtc waits_on x task.
Proof.
  intros HR Hclosed. revert st. induction turns as [|turns IH]; intros [seen stack]; simpl; [done|].
  intros Hseen Hstack Hinv. unfold walk_step. simpl. destruct stack as [|id stack].
  { assert (∀ y z, rtc waits_on y z → y ∈ seen → z ∈ seen) as Hstay.
    { induction 1 as [|y z w Hyz _ IHr]; [done|]. intros Hy. apply IHr.
      destruct (Hinv y Hy) as [_ Hn]. destruct (Hn z Hyz) as [?|Hz]; [done|]. by apply elem_of_nil in Hz. }
    intros _ x [Hx|Hx] Hr; [|by apply elem_of_nil in Hx].
    by destruct (Hinv task (Hstay _ _ Hr Hx)). }
  destruct (id == task) eqn:E; split_and_bool; [done|].
  destruct ((4096 <? size seen)%nat || bool_decide (id ∈ seen)) eqn:Eskip.
  - assert (id ∈ seen) as Hin.
    { apply orb_true_iff in Eskip as [Hbig%Nat.ltb_lt|?]; [|by split_and_bool].
      destruct (decide (id ∈ seen)) as [|Hni]; [done|]. exfalso.
      assert (size ({[id]} ∪ seen) ≤ size R)%nat as Hsz.
      { apply subseteq_size. intros y [->%elem_of_singleton|Hy]%elem_of_union; [apply Hstack; left|auto]. }
      rewrite size_union in Hsz by set_solver. rewrite size_singleton in Hsz. lia. }
    intros Hw x Hx. apply (IH (seen, stack)); simpl; [done| | |done|].
    + intros y Hy. apply Hstack. by right.
    + intros y Hy. destruct (Hinv y Hy) as [? Hn]. split; [done|]. intros z Hz.
      destruct (Hn z Hz) as [?|Hz']; [by left|]. apply elem_of_cons in Hz' as [->|?]; [by left|by right].
    + destruct Hx as [?|Hx]; [by left|]. apply elem_of_cons in Hx as [->|?]; [by left|by right].
  - assert (∀ y, y ∈ rev (next id) ↔ y ∈ next id) as Hrev.
    { intros y. by rewrite <-Permutation_rev. }
    intros Hw x Hx. apply (IH ({[id]} ∪ seen, rev (next id) ++ stack)); simpl; [| | |done|].
    + intros y [->%elem_of_singleton|Hy]%elem_of_union; [apply Hstack; left|auto].
    + intros y [Hy%Hrev|Hy]%elem_of_app; [|apply Hstack; by right].
      eapply Hclosed; [|done]. apply Hstack. left.
    + intros y [->%elem_of_singleton|Hy]%elem_of_union.
      * split; [done|]. intros z Hz. right. apply elem_of_app. left. by apply Hrev.
      * destruct (Hinv y Hy) as [? Hn]. split; [done|]. intros z Hz. rewrite elem_of_app.
        destruct (Hn z Hz) as [?|Hz']; [left; set_solver|].
        apply elem_of_cons in Hz' as [->|?]; [left; set_solver|by right; right].
    + rewrite elem_of_app. destruct Hx as [?|Hx]; [left; set_solver|].
      apply elem_of_cons in Hx as [->|?]; [left; set_solver|by right; right].
Qed.
End Walk.
End TaskFacts.

(** ** Properties *)

Module TaskProps.
Import BoardFacts TaskFacts.

(** A pull never panics on an accepted board and succeeds exactly when the
    card is not archived, waits on nothing off the board, and is free: naming
    nobody (and in the pull source, or named and still open), or naming the caller
    in the pull source. It then names the caller; a card in the source or not yet
    in work is placed in the pull target, one in progress or review stays. *)
Theorem pull_succeeds_iff_free t agent b named now :
  board_check b = Ok tt →
  ∃ here target t' r,
    lane_of b t = Some here ∧ lane b (pull_target b) = Some target ∧
    pull t agent b named now = Some (t', r) ∧
    (r = Ok tt ↔
       t_archived_at t = None ∧ trim (t_external_blocker t) = "" ∧
       ((slug here = pull_source b ∧ (t_assignee t = None ∨ t_assignee t = Some agent)) ∨
        (named = true ∧ terminal (t_column t) = false ∧ t_assignee t = None))) ∧
    (r = Ok tt →
       t_assignee t' = Some agent ∧ t_updated_at t' = now ∧ same_card t t' ∧
       (slug here = pull_source b ∨ working (t_column t) = false →
          t_column t' = InProgress ∧ t_lane t' = Some (slug target) ∧ t_lane_since t' = Some now) ∧
       (slug here ≠ pull_source b → working (t_column t) = true →
          t_column t' = t_column t ∧ t_lane t' = t_lane t)) ∧
    (r ≠ Ok tt → t' = t).
Proof.
  intros Hb. destruct (pull_cases t agent b named now Hb) as (here & target & Hh & Ht & Hcat & ->).
  exists here, target. cbv zeta. unfold open.
  destruct (t_archived_at t) as [at_|] eqn:Ea; simpl.
  { eexists t, (Err Archived). split_and!; try done. split; [done|]. by intros [? _]. }
  assert (((slug here == pull_source b) || (named && negb (terminal (t_column t))))
          && match t_assignee t with None => true | Some h => (h == agent) && (slug here == pull_source b) end
          = true ↔
          (slug here = pull_source b ∧ (t_assignee t = None ∨ t_assignee t = Some agent)) ∨
          (named = true ∧ terminal (t_column t) = false ∧ t_assignee t = None)) as Hfree.
  { unfold eqb. destruct (t_assignee t) as [h|]; repeat case_bool_decide;
      destruct named, (terminal (t_column t)); simpl; naive_solver. }
  rewrite <-negb_andb. destruct (_ && _) eqn:Ef; simpl; last first.
  { eexists t, (Err _). split_and!; try done. split; [done|].
    intros (_ & _ & Hor). apply Hfree in Hor. congruence. }
  destruct (trim (t_external_blocker t) == "") eqn:Ex; simpl; split_and_bool; last first.
  { eexists t, (Err _). split_and!; try done. split; [done|]. intros (_ & ? & _). done. }
  eexists _, (Ok tt). split_and!; try done.
  - split; [|done]. intros _. split_and!; try done. by apply Hfree.
  - intros _. destruct (slug here == pull_source b) eqn:Es; split_and_bool; simpl.
    + split_and!; done.
    + destruct (working (t_column t)) eqn:Ew; simpl; split_and!; try done; intros [?|?]; done.
Qed.

(** A pulled card cannot be pulled again: whoever pulls next, named or not, at
    any time, is refused as taken and the card stays as it is, the puller included;
    so one card is never in two agents' hands. *)
Theorem pulled_card_is_taken t agent b named now t' other named' now' :
  board_check b = Ok tt →
  pull t agent b named now = Some (t', Ok tt) →
  pull t' other b named' now' = Some (t', Err (Taken (Some agent) (t_column t'))).
Proof.
  intros Hb Hp. destruct (pull_cases t agent b named now Hb) as (here & target & Hh & Ht & Hcat & Heq).
  rewrite Heq in Hp. cbv zeta in Hp. clear Heq.
  destruct (is_some (t_archived_at t)) eqn:Ea; [done|].
  destruct (_ || negb (match t_assignee t with None => _ | _ => _ end)) in Hp; [done|].
  destruct (negb (trim _ == _)) in Hp; [done|]. injection Hp as <-.
  set (p := if _ || _ then _ else _).
  destruct (pull_cases (with_updated_at now (with_assignee (Some agent) p)) other b named' now' Hb)
    as (here' & target' & Hh' & _ & _ & ->). cbv zeta.
  assert (t_archived_at p = t_archived_at t) as Hpa by (unfold p; by destruct (_ || _)).
  simpl. rewrite Hpa, Ea.
  enough ((slug here' == pull_source b) = false) as ->.
  { by rewrite andb_false_r, orb_true_r. }
  apply eqb_false. change (lane_of b p = Some here') in Hh'. unfold p in Hh'.
  pose proof (board_check_checked b Hb) as Hck. destruct (checked_source _ Hck) as (src & Hsl & Hsc).
  destruct ((slug here == pull_source b) || negb (working (t_column t))) eqn:Es.
  - destruct (lane_of_spec b (place target now t) (checked_lanes _ Hck)) as (l & Hl & _ & _ & Hown).
    destruct (lane_elem _ _ _ Ht) as [_ Hslug].
    assert (l = target) as ->.
    { eapply Hown; [done| |done]. by rewrite Hslug. }
    assert (here' = target) as -> by congruence. intros Hsrc.
    rewrite <-Hsrc, Hslug, Ht in Hsl. congruence.
  - apply orb_false_iff in Es as [Es _]. split_and_bool. congruence.
Qed.

(** Through any sequence of pulls, takeovers, moves, edits and archivings a
    filed card stays the same card (id, project, who filed it and when never
    change) and stays within its bounds: a check that passed at filing passes for
    ever. *)
Theorem filed_card_stays_well_formed {U : Unicode} project new by_ fresh now t t' :
  file project new by_ fresh now = Ok t →
  rtc card_step t t' →
  task_check t' = Ok tt ∧ t_id t' = fresh ∧ t_project t' = project ∧
  t_created_by t' = by_ ∧ t_created_at t' = now.
Proof.
  intros Hf Hr. assert (task_check t = Ok tt ∧ t_id t = fresh ∧ t_project t = project ∧
    t_created_by t = by_ ∧ t_created_at t = now) as (Hok & H1 & H2 & H3 & H4).
  { unfold file in Hf. destruct (task_check _) as [[]|] eqn:E in Hf; [|done].
    injection Hf as <-. by rewrite E. }
  assert (same_card t t' ∧ task_check t' = Ok tt) as [(E1 & E2 & E3 & E4) Hok'].
  { clear -Hr Hok. induction Hr as [t|t t1 t2 Hs _ IH]; [done|].
    destruct (card_step_keeps _ _ Hs Hok) as [Hsame Hok1].
    destruct (IH Hok1) as [Hsame2 Hok2]. split; [|done]. by etrans. }
  split_and!; congruence.
Qed.

(** The person and the card's assignee are the only ones who change it: for an
    agent whose card it is not, moving, editing, archiving and unarchiving are
    refused and the card is left exactly as it was. *)
Theorem strangers_change_nothing {U : Unicode} t by_ l e now :
  t_archived_at t = None → t_assignee t ≠ Some by_ →
  move_to t by_ false l now = (t, Err NotYours) ∧
  update t by_ false e now = (t, Err NotYours) ∧
  archive t by_ false now = (t, Err NotYours) ∧
  unarchive t false now = (t, Err NotYours).
Proof.
  intros Ha Hne. unfold move_to, update, archive, unarchive. rewrite Ha. simpl.
  destruct (t_assignee t) as [a|]; simpl.
  - assert ((a == by_) = false) as -> by (apply eqb_false; congruence).
    rewrite orb_true_r, andb_false_r. done.
  - by rewrite orb_true_r, andb_false_r.
Qed.

(** An edit is all or nothing: refused, the card is as it was; accepted, the
    card passes its check, is stamped [now] when any field was reported changed
    and is identical when none was, keeps its place, key and archive mark, and an
    agent's edit never changes who holds it. *)
Theorem update_all_or_nothing {U : Unicode} t by_ human e now :
  match update t by_ human e now with
  | (t', Err _) => t' = t
  | (t', Ok changed) =>
      task_check t' = Ok tt ∧
      (changed = [] → t' = t) ∧ (changed ≠ [] → t_updated_at t' = now) ∧
      same_card t t' ∧ t_column t' = t_column t ∧ t_lane t' = t_lane t ∧ t_rank t' = t_rank t ∧
      t_key t' = t_key t ∧ t_archived_at t' = None ∧
      (human = false → t_assignee t = Some by_ ∧ t_assignee t' = Some by_)
  end.
Proof.
  unfold update. destruct (t_archived_at t) as [at_|] eqn:Ea; simpl; [done|].
  destruct (negb human && _) eqn:Eh; [done|].
  pose proof (apply_edit_frame e t) as (Hs & Hc & Hl & Hr & Hk & Har & Hu).
  pose proof (apply_edit_silent e t) as Hsil. pose proof (apply_edit_assignee e t) as Has.
  destruct (apply_edit e t) as [next changed]; simpl in *.
  destruct (task_check next) as [[]|] eqn:Ec; [|done].
  assert (human = false → t_assignee t = Some by_ ∧ t_assignee next = Some by_) as Hagent.
  { intros ->. simpl in Eh. split_and_bool. rewrite Has by (by destruct (e_assignee e)).
    destruct (t_assignee t) as [a|]; [|done]. simpl in *. split_and_bool. by subst. }
  destruct changed as [|c cs]; simpl; split_and!; try done; congruence.
Qed.

(** The walk that looks for a loop always ends, and its yes is true: the card
    is reached from the new edges. While the cards that can be reached fit in its
    bound of 4097, its no is true too, so it answers exactly whether the edge
    would make the card wait on itself. *)
Theorem closes_cycle_decides_reachability task edges next :
  ∃ turns ans,
    (∀ turns', (turns ≤ turns')%nat → closes_cycle turns' task edges next = Some ans) ∧
    (ans = true → ∃ x, x ∈ edges ∧ rtc (waits_on next) x task) ∧
    (∀ R : gset string, (size R ≤ 4097)%nat → (∀ x, x ∈ edges → x ∈ R) →
       (∀ x y, x ∈ R → y ∈ next x → y ∈ R) →
       (ans = true ↔ ∃ x, x ∈ edges ∧ rtc (waits_on next) x task)).
Proof.
  destruct (walk_ends task next (∅, rev edges)) as (turns & ans & Hw).
  assert (∀ y, y ∈ rev edges ↔ y ∈ edges) as Hrev.
  { intros y. by rewrite <-Permutation_rev. }
  assert (ans = true → ∃ x, x ∈ edges ∧ rtc (waits_on next) x task) as Hyes.
  { intros ->. apply walk_true in Hw as (x & Hx%Hrev & Hr). eauto. }
  exists turns, ans. split_and!; [|done|].
  - intros turns' Hle. by eapply walk_mono.
  - intros R HR Hed Hcl. split; [done|]. intros (x & Hx & Hr). destruct ans; [done|]. exfalso.
    eapply (walk_false task next R turns (∅, rev edges)); simpl; try done.
    + intros y Hy%Hrev. auto.
    + right. by apply Hrev.
Qed.

(** A comment is its author's: nobody else edits it, only the author or the
    person deletes it, a deleted comment loses its words for good and is never
    edited again, and every accepted body is trimmed, not empty and at most 4000
    characters. *)
Theorem comment_lifecycle c by_ body human now :
  (∀ c', comment_edit c by_ body now = (c', Ok tt) →
     c_author c = by_ ∧ c_deleted_at c = None ∧ c_body c' = trim body ∧ c_body c' ≠ "" ∧
     (chars_count (c_body c') ≤ 4000)%nat ∧ c_edited_at c' = Some now) ∧
  ((comment_edit c by_ body now).2 ≠ Ok tt → (comment_edit c by_ body now).1 = c) ∧
  (c_author c ≠ by_ → human = false → comment_delete c by_ human now = (c, Err NotYours)) ∧
  (c_author c = by_ ∨ human = true →
     (comment_delete c by_ human now).2 = Ok tt ∧
     c_deleted_at (comment_delete c by_ human now).1 = Some (unwrap_or now (c_deleted_at c)) ∧
     (c_deleted_at c = None → c_body (comment_delete c by_ human now).1 = "") ∧
     (comment_edit (comment_delete c by_ human now).1 by_ body now).2 ≠ Ok tt).
Proof.
  unfold comment_edit, comment_delete, check_body, COMMENT_CHARS. split_and!.
  - intros c'. destruct (c_author c == by_) eqn:Ea; simpl; [|done]. split_and_bool.
    destruct (c_deleted_at c); simpl; [done|].
    destruct (trim body == "") eqn:Et; [done|]. split_and_bool.
    destruct (Nat.ltb_spec 4000 (chars_count (trim body))); [done|]. intros [= <-]. done.
  - destruct (c_author c == by_); simpl; [|done]. destruct (is_some (c_deleted_at c)); [done|].
    destruct (trim body == ""); [done|]. by destruct (_ <? _)%nat.
  - intros Hne ->. by rewrite (proj2 (eqb_false _ _) Hne).
  - intros Hor. assert ((c_author c != by_) && negb human = false) as ->.
    { destruct Hor as [->| ->]; [by rewrite eqb_refl|by rewrite andb_false_r]. }
    destruct (c_deleted_at c) eqn:Ed; simpl; rewrite ?Ed; split_and!; try done;
      by destruct (negb _).
Qed.

(** *** Witnesses *)

Definition w_new : NewTask :=
  mkNew " Fix the login " "Tests pass" "" (Some Ready) None High None None "" None [] ["Back End"] [] None.

Definition w_card : Task :=
  Eval vm_compute in
    match file (U := ascii_unicode) "p" w_new "user" "c1" 5 with Ok t => t | Err _ => BoardProps.w_task "" Ready end.

Definition w_pulled : Task :=
  Eval vm_compute in
    match pull w_card "a" BoardProps.w_board false 6 with
    | Some (t, _) => t | None => w_card end.

Lemma pull_succeeds_iff_free_witness :
  ∃ t', pull w_card "a" BoardProps.w_board false 6 = Some (t', Ok tt) ∧ t_column t' = InProgress.
Proof.
  destruct (pull_succeeds_iff_free w_card "a" BoardProps.w_board false 6
              BoardProps.w_board_ok) as (here & target & t' & r & Hh & Ht & Hp & Hiff & Hok & _).
  vm_compute in Hh. injection Hh as <-.
  assert (r = Ok tt) as ->.
  { apply Hiff. split_and!; [reflexivity|reflexivity|]. left. split; [reflexivity|]. left. reflexivity. }
  exists t'. split; [exact Hp|]. apply (Hok eq_refl). left. reflexivity.
Defined.

Lemma pulled_card_is_taken_witness :
  pull w_pulled "b" BoardProps.w_board true 7 = Some (w_pulled, Err (Taken (Some "a") InProgress)).
Proof.
  apply (pulled_card_is_taken w_card "a" BoardProps.w_board false 6 w_pulled "b" true 7);
    [exact BoardProps.w_board_ok|vm_compute; reflexivity].
Defined.

Lemma filed_card_stays_well_formed_witness :
  task_check (U := ascii_unicode) (archive w_card "user" true 9).1 = Ok tt.
Proof.
  apply (filed_card_stays_well_formed (U := ascii_unicode) "p" w_new "user" "c1" 5 w_card).
  - vm_compute. reflexivity.
  - eapply rtc_l; [apply (card_archive (U := ascii_unicode) w_card "user" true 9)|apply rtc_refl].
Defined.

Lemma strangers_change_nothing_witness :
  move_to w_pulled "b" false (lane_new "done" "Done" Done OAny) 8 = (w_pulled, Err NotYours).
Proof.
  apply (strangers_change_nothing (U := ascii_unicode) w_pulled "b" (lane_new "done" "Done" Done OAny)
    (mkEdit None None None None None None None None None None None None None) 8);
    [reflexivity|vm_compute; discriminate].
Defined.
End TaskProps.
