(* ===== verification/Input.v ===== *)
(** * Delivery evidence, controllers and typing holds

    [crates/core/src/input.rs] (all of it that does not read an agent's record;
    the two functions that do are in [Readiness]) and
    [crates/core/src/typing.rs].

    The part with state is the restarting of a bound controller: an
    [InputBinding] keeps the record of the restarts ([ControllerRestart]), one
    look at it is [controller_step], and the daemon's tick applies
    [note_controller_ended], [note_launch] and [note_exhausted] as that look
    says ([InputFacts.tend]; the tick itself is in [Controllers]); a controller
    that binds is [note_controller_bound]. *)

From Stdlib Require Import Ascii.
From S2P Require Import Prelude RustStr.
Local Open Scope Z_scope.
Local Open Scope rust_scope.

(** ** Adapters and receipts *)

Inductive AdapterKind := Mcp | Hooks.

Global Instance AdapterKind_eq_dec : EqDecision AdapterKind.
Proof. solve_decision. Defined.
Global Instance AdapterKind_countable : Countable AdapterKind.
Proof.
  refine (inj_countable' (λ k, match k with Mcp => true | Hooks => false end)
                         (λ b, match b with true => Mcp | false => Hooks end) _).
  by intros [].
Defined.

Record AdapterContact := mkContact {
  ac_process_started_at : instant;
  ac_observed_at : instant;
}.

Definition contact_current_for (c : AdapterContact) (generation : option instant) (now : instant) : bool :=
  (generation == Some (ac_process_started_at c))
  && (ac_process_started_at c <=? ac_observed_at c)
  && (ac_observed_at c <=? now)
  && (now - ac_observed_at c <? minutes 5).

Inductive InputReceipt :=
| Codex (thread turn item : string)
| ClaudeChannel.

Record ReceivedInput := mkReceived {
  ri_messages : list string;
  ri_receipt : InputReceipt;
}.

Definition receipt_id (value : string) : bool :=
  (value != "") && (Nat.leb (String.length value) 128) && negb (has_control value).

Definition received_valid (r : ReceivedInput) : bool :=
  (negb (length (ri_messages r) =? 0)%nat)
  && (Nat.leb (length (ri_messages r)) 1000)
  && forallb receipt_id (ri_messages r)
  && (length (remove_dups (ri_messages r)) =? length (ri_messages r))%nat
  && match ri_receipt r with
     | Codex thread turn item =>
         (length (ri_messages r) =? 1)%nat
         && receipt_id thread && receipt_id turn && receipt_id item
     | ClaudeChannel => true
     end.

(** ** Processes, providers and launch descriptors *)

Record ProcessIdentity := mkProcess {
  pi_pid : Z;
  pi_started_at : instant;
}.
Global Instance ProcessIdentity_eq_dec : EqDecision ProcessIdentity.
Proof. solve_decision. Defined.

Record ProviderGeneration := mkGeneration {
  pg_process : ProcessIdentity;
  pg_session : string;
  pg_profile : string;
}.

Definition generation_id (value : string) : bool :=
  (value != "") && (Nat.leb (String.length value) 256) && negb (has_control value).

Definition generation_valid (g : ProviderGeneration) : bool :=
  (0 <? pi_pid (pg_process g))
  && generation_id (pg_session g) && generation_id (pg_profile g).

Record ControllerLaunch := mkLaunch {
  cl_executable : string;
  cl_args : list string;
  cl_cwd : string;
  cl_env : gmap string string;
}.

Definition launch_text (value : string) : bool :=
  (Nat.leb (String.length value) 4096) && negb (has_nul value).

Definition launch_valid (l : ControllerLaunch) : bool :=
  is_absolute (cl_executable l)
  && is_absolute (cl_cwd l)
  && (Nat.leb (length (cl_args l)) 64)
  && forallb launch_text (cl_args l)
  && (Nat.leb (size (cl_env l)) 64)
  && forallb (λ '(key, value),
        (key != "") && negb (contains_char "="%char key) && launch_text key && launch_text value)
       (map_to_list (cl_env l)).

(** ** The binding and the record of its controller's restarts *)

Definition CONTROLLER_RESTARTS : Z := 5.
Definition CONTROLLER_STABLE : duration := seconds 60.
Definition CONTROLLER_BIND_GRACE : duration := seconds 30.
Definition CONTROLLER_KILL_AFTER : duration := seconds 5.

Definition controller_backoff (attempt : Z) : duration :=
  if (attempt =? 0) || (attempt =? 1) then 0
  else seconds (2 ^ Z.min (attempt - 1) 6).

Record ControllerRestart := mkRestart {
  cr_upgrade_requested_at : option instant;
  cr_attempts : Z;
  cr_launched : option ProcessIdentity;
  cr_launched_at : option instant;
  cr_ended_at : option instant;
  cr_exhausted : bool;
}.
Global Instance ControllerRestart_eq_dec : EqDecision ControllerRestart.
Proof. solve_decision. Defined.

Definition restart_default : ControllerRestart :=
  mkRestart None 0 None None None false.
Definition is_idle (r : ControllerRestart) : bool := r == restart_default.

Inductive ControllerStep :=
| Upgrade (kill : bool)
| Keep
| Ended
| Launch (attempt : Z)
| Terminate (kill : bool)
| Exhausted.

Record InputBinding := mkBinding {
  ib_provider : ProviderGeneration;
  ib_controller : ProcessIdentity;
  ib_controller_since : instant;
  ib_token_sha256 : string;
  ib_bound_at : instant;
  ib_controller_generations : Z;
  ib_uncertain : list string;
  ib_launch : option ControllerLaunch;
  ib_restart : ControllerRestart;
}.

Definition with_restart (b : InputBinding) (r : ControllerRestart) : InputBinding :=
  mkBinding (ib_provider b) (ib_controller b) (ib_controller_since b) (ib_token_sha256 b)
    (ib_bound_at b) (ib_controller_generations b) (ib_uncertain b) (ib_launch b) r.
Definition with_controller (b : InputBinding) (c : ProcessIdentity) (since : instant) : InputBinding :=
  mkBinding (ib_provider b) c since (ib_token_sha256 b)
    (ib_bound_at b) (ib_controller_generations b) (ib_uncertain b) (ib_launch b) (ib_restart b).

Definition accepts_digest (b : InputBinding) (digest : string) : bool :=
  (ib_token_sha256 b != "") && (ib_token_sha256 b == digest).

(** [u32::saturating_add]. *)
Definition u32_saturating_add (a b : Z) : Z := Z.min (2 ^ 32 - 1) (a + b).

Definition controller_step (b : InputBinding) (now : instant)
    (alive : ProcessIdentity → bool) : ControllerStep :=
  let restart := ib_restart b in
  if alive (ib_controller b) then
    match cr_upgrade_requested_at restart with
    | Some since => Upgrade (CONTROLLER_KILL_AFTER <=? now - since)
    | None => Keep
    end
  else match cr_launched restart with
  | Some launched =>
      if negb (alive launched) then Ended
      else
        let since := unwrap_or now (cr_launched_at restart) in
        if now - since <? CONTROLLER_BIND_GRACE then Keep
        else Terminate (CONTROLLER_BIND_GRACE + CONTROLLER_KILL_AFTER <=? now - since)
  | None =>
      match cr_ended_at restart with
      | None => Ended
      | Some ended_at =>
          if is_none (ib_launch b) || cr_exhausted restart
             || negb (alive (pg_process (ib_provider b)))
          then Keep
          else if CONTROLLER_RESTARTS <=? cr_attempts restart then Exhausted
          else
            let attempt := cr_attempts restart + 1 in
            if now <? ended_at + controller_backoff attempt then Keep
            else Launch attempt
      end
  end.

Definition note_controller_ended (b : InputBinding) (now : instant) : InputBinding :=
  let r := ib_restart b in
  let over := is_none (cr_launched r) && (CONTROLLER_STABLE <=? now - ib_controller_since b) in
  with_restart b (mkRestart None
    (if over then 0 else cr_attempts r) None None (Some now)
    (if over then false else cr_exhausted r)).

Definition note_launch (b : InputBinding) (launched : option ProcessIdentity) (now : instant) : InputBinding :=
  let r := ib_restart b in
  with_restart b (mkRestart (cr_upgrade_requested_at r)
    (u32_saturating_add (cr_attempts r) 1) launched
    (if is_some launched then Some now else None) (Some now) (cr_exhausted r)).

Definition note_controller_bound (b : InputBinding) (controller : ProcessIdentity) (now : instant) : InputBinding :=
  let r := ib_restart b in
  let other := cr_launched r != Some controller in
  with_controller
    (with_restart b (mkRestart None
       (if other then 0 else cr_attempts r) None None None
       (if other then false else cr_exhausted r)))
    controller now.

(** The daemon's answer to [Exhausted]. *)
Definition note_exhausted (b : InputBinding) : InputBinding :=
  let r := ib_restart b in
  with_restart b (mkRestart (cr_upgrade_requested_at r) (cr_attempts r) (cr_launched r)
    (cr_launched_at r) (cr_ended_at r) true).

(** ** Delivery reports *)

Inductive InputReport :=
| ReportReady
| ReportReceived (input : ReceivedInput)
| ReportPaused (reason : string)
| ReportHeldForTyping (until : instant).

Record InputDelivery := mkDelivery {
  id_process_started_at : instant;
  id_paused : bool;
  id_pause_reason : option string;
  id_reported_at : instant;
  id_received : option ReceivedInput;
  id_received_at : option instant;
  id_typing_until : option instant;
}.

Definition paused_for (d : InputDelivery) (process_started_at : option instant) : bool :=
  id_paused d && (process_started_at == Some (id_process_started_at d)).

Definition held_for_typing (d : InputDelivery) (generation : option instant) (now : instant) : option instant :=
  match id_typing_until d with
  | Some until =>
      if (now <? until)
         && (negb (id_paused d) && (generation == Some (id_process_started_at d)))
      then Some until else None
  | None => None
  end.

Definition current_for (d : InputDelivery) (generation : option instant) (now : instant) : bool :=
  negb (id_paused d)
  && (generation == Some (id_process_started_at d))
  && (id_process_started_at d <=? id_reported_at d)
  && (id_reported_at d <=? now)
  && (now - id_reported_at d <? seconds 90).

Definition received_for (d : InputDelivery) (generation : option instant) (now : instant) : bool :=
  (generation == Some (id_process_started_at d))
  && is_some (id_received d)
  && is_some_and (λ at_, (id_process_started_at d <=? at_) && (at_ <=? now)) (id_received_at d).

(** ** Holding input while the person types *)

Module Typing.
Definition QUIET : duration := seconds 3.

Inductive Hold := Deliver | Until (t : instant).

Definition decide (typed_at : option instant) (now : instant) : Hold :=
  match typed_at with
  | None => Deliver
  | Some typed_at =>
      let until := Z.min typed_at now + QUIET in
      if now <? until then Until until else Deliver
  end.

Definition announce (announced : option instant) (until now : instant) (every : duration) : bool :=
  match announced with
  | None => true
  | Some announced => (announced <? until) && (announced <=? now + every)
  end.

Definition plausible (until observed_at : instant) : bool :=
  (observed_at <? until) && (until <=? observed_at + QUIET).
End Typing.

(** ** Facts *)

Module InputFacts.

(** What one look of the daemon's tick does to a binding that nothing changed
    since it was read ([Controllers.tend_one] is the whole handler). [spawned] is the process a
    launch gave, [None] when it could not be started. A launch needs the
    descriptor, as the handler's own [let Some(launch)] does. *)
Definition tend (b : InputBinding) (now : instant) (alive : ProcessIdentity → bool)
    (spawned : option ProcessIdentity) : InputBinding :=
  match controller_step b now alive with
  | Keep | Upgrade _ | Terminate _ => b
  | Ended => note_controller_ended b now
  | Exhausted => note_exhausted b
  | Launch _ => if is_none (ib_launch b) then b else note_launch b spawned now
  end.

(** A look at a binding: when, which processes were alive, and what a launch
    would have given. *)
Record Look := mkLook {
  lk_now : instant;
  lk_alive : ProcessIdentity → bool;
  lk_spawned : option ProcessIdentity;
}.

Definition look (b : InputBinding) (l : Look) : InputBinding :=
  tend b (lk_now l) (lk_alive l) (lk_spawned l).
Definition looks (b : InputBinding) (ls : list Look) : InputBinding := foldl look b ls.

Definition launches_at (b : InputBinding) (l : Look) : bool :=
  match controller_step b (lk_now l) (lk_alive l) with Launch _ => true | _ => false end.

(** How many launches a history of looks makes. *)
Fixpoint launches (b : InputBinding) (ls : list Look) : nat :=
  match ls with
  | [] => 0
  | l :: ls => (if launches_at b l then 1 else 0) + launches (look b l) ls
  end%nat.

(** What the episode still allows. *)
Definition allowance (b : InputBinding) : Z :=
  match cr_ended_at (ib_restart b) with
  | None => CONTROLLER_RESTARTS
  | Some _ => Z.max 0 (CONTROLLER_RESTARTS - cr_attempts (ib_restart b))
  end.

Definition attempts_u32 (b : InputBinding) : Prop := 0 ≤ cr_attempts (ib_restart b) < 2 ^ 32.

Lemma controller_step_launch b now alive n :
  controller_step b now alive = Launch n ↔
  alive (ib_controller b) = false ∧
  cr_launched (ib_restart b) = None ∧
  is_Some (ib_launch b) ∧
  cr_exhausted (ib_restart b) = false ∧
  alive (pg_process (ib_provider b)) = true ∧
  cr_attempts (ib_restart b) < CONTROLLER_RESTARTS ∧
  n = cr_attempts (ib_restart b) + 1 ∧
  ∃ ended, cr_ended_at (ib_restart b) = Some ended ∧ ended + controller_backoff n ≤ now.
Proof.
  unfold controller_step. split.
  - intros H. repeat (split_match_in H; try discriminate). simplify_eq.
    split_and_bool. destruct (ib_launch b) eqn:El; [|done].
    repeat match goal with
      | H : (_ <? _) = false |- _ => apply Z.ltb_ge in H
      | H : (_ <=? _) = false |- _ => apply Z.leb_gt in H end.
    eauto 12.
  - intros (-> & -> & [l ->] & -> & -> & Ha & -> & ended & -> & Hb). simpl.
    rewrite (proj2 (Z.leb_gt _ _)) by lia. by rewrite (proj2 (Z.ltb_ge _ _)) by lia.
Qed.

Lemma look_attempts_u32 b l : attempts_u32 b → attempts_u32 (look b l).
Proof.
  unfold attempts_u32, look, tend, u32_saturating_add. intros H.
  destruct (controller_step _ _ _); simpl; try done.
  - case_match; simpl; lia.
  - destruct (ib_launch b); simpl; [|done]. unfold u32_saturating_add. lia.
Qed.

Lemma look_allowance b l :
  attempts_u32 b →
  (if launches_at b l then 1 else 0) + allowance (look b l) ≤ allowance b.
Proof.
  intros Hu. unfold launches_at, look, tend.
  destruct (controller_step b (lk_now l) (lk_alive l)) as [k| | |n|k|] eqn:E; try done.
  - (* ended *)
    unfold allowance, note_controller_ended. cbn -[CONTROLLER_STABLE Z.leb Z.max Z.sub].
    destruct (cr_launched (ib_restart b)) eqn:El; simpl.
    + destruct (cr_ended_at _); unfold CONTROLLER_RESTARTS, attempts_u32 in *; lia.
    + unfold controller_step in E. rewrite El in E.
      destruct (cr_ended_at _) eqn:Ee.
      * repeat (split_match_in E; try discriminate).
      * destruct (CONTROLLER_STABLE <=? _); unfold CONTROLLER_RESTARTS, attempts_u32 in *; lia.
  - (* launch *)
    apply controller_step_launch in E as (_ & _ & [d Hd] & _ & _ & Hlt & _ & en & He & _).
    rewrite Hd. simpl. unfold allowance. rewrite He. simpl.
    unfold u32_saturating_add, CONTROLLER_RESTARTS, attempts_u32 in *. lia.
Qed.

Lemma launches_allowance b ls :
  attempts_u32 b → Z.of_nat (launches b ls) ≤ allowance b.
Proof.
  revert b. induction ls as [|l ls IH]; intros b Hu; simpl.
  - unfold allowance, CONTROLLER_RESTARTS. case_match; lia.
  - pose proof (IH _ (look_attempts_u32 b l Hu)). pose proof (look_allowance b l Hu).
    destruct (launches_at b l); lia.
Qed.

Lemma allowance_le b : attempts_u32 b → allowance b ≤ CONTROLLER_RESTARTS.
Proof. unfold allowance, attempts_u32. case_match; unfold CONTROLLER_RESTARTS; lia. Qed.

Lemma exhausted_stays b now alive spawned :
  alive (ib_controller b) = false → cr_launched (ib_restart b) = None →
  is_Some (cr_ended_at (ib_restart b)) → cr_exhausted (ib_restart b) = true →
  controller_step b now alive = Keep ∧ tend b now alive spawned = b.
Proof.
  intros H1 H2 [e H3] H4. assert (controller_step b now alive = Keep) as E.
  { unfold controller_step. rewrite H1, H2, H3, H4. by rewrite orb_true_r. }
  by unfold tend; rewrite E.
Qed.

(** *** Giving up on a controller that keeps dying *)

(** How many hopeless looks a binding can still take before it is given up. *)
Definition patience (b : InputBinding) : Z :=
  let r := ib_restart b in
  match cr_ended_at r with
  | None => 12
  | Some _ =>
      if is_some (cr_launched r) then 2 + 2 * Z.max 0 (CONTROLLER_RESTARTS - cr_attempts r)
      else if cr_exhausted r then 0
      else 1 + 2 * Z.max 0 (CONTROLLER_RESTARTS - cr_attempts r)
  end.

Definition given_up (b : InputBinding) : Prop :=
  cr_exhausted (ib_restart b) = true ∧ cr_launched (ib_restart b) = None ∧
  is_Some (cr_ended_at (ib_restart b)).

Lemma patience_given_up b : attempts_u32 b → patience b ≤ 0 → given_up b.
Proof.
  unfold patience, given_up, attempts_u32. intros Hu Hp.
  destruct (cr_ended_at _); [|lia]. destruct (cr_launched _); simpl in *; [lia|].
  destruct (cr_exhausted _); [eauto|lia].
Qed.

Lemma patience_le b : attempts_u32 b → patience b ≤ 12.
Proof.
  unfold patience, attempts_u32, CONTROLLER_RESTARTS. intros Hu.
  repeat case_match; lia.
Qed.

Lemma backoff_le a : 0 ≤ a < CONTROLLER_RESTARTS → controller_backoff (a + 1) ≤ seconds 16.
Proof.
  unfold CONTROLLER_RESTARTS. intros H.
  assert (a = 0 ∨ a = 1 ∨ a = 2 ∨ a = 3 ∨ a = 4) as Ha by lia.
  by destruct Ha as [->|[->|[->|[->| ->]]]]; vm_compute.
Qed.

Section Hopeless.
(** One set of running processes throughout: the provider's, and none that
    is or becomes a controller. *)
Context (up : ProcessIdentity → bool).

Definition hopeless (b : InputBinding) : Prop :=
  up (ib_controller b) = false ∧ up (pg_process (ib_provider b)) = true ∧
  is_Some (ib_launch b) ∧
  (∀ p, cr_launched (ib_restart b) = Some p → up p = false) ∧ attempts_u32 b.

Definition stillborn (l : Look) : Prop :=
  lk_alive l = up ∧ ∀ p, lk_spawned l = Some p → up p = false.

Definition ended_by (b : InputBinding) (t : instant) : Prop :=
  ∀ e, cr_ended_at (ib_restart b) = Some e → e ≤ t.

Fixpoint spaced (t : instant) (ls : list Look) : Prop :=
  match ls with
  | [] => True
  | l :: ls => t + seconds 16 ≤ lk_now l ∧ spaced (lk_now l) ls
  end.

Lemma hopeless_look b l : hopeless b → stillborn l → hopeless (look b l).
Proof.
  intros (Hc & Hp & Hl & Hla & Hu) [Hal Hsp].
  pose proof (look_attempts_u32 b l Hu) as Hu'. revert Hu'.
  destruct Hl as [d Hd].
  unfold look, tend. rewrite Hd. destruct (controller_step _ _ _); intros Hu'; simpl in *;
    unfold hopeless; simpl; rewrite Hd; naive_solver.
Qed.

Lemma ended_by_look b l t :
  ended_by b t → t ≤ lk_now l → ended_by (look b l) (lk_now l).
Proof.
  unfold look, tend, ended_by. intros He Ht e.
  destruct (controller_step _ _ _), (ib_launch b); simpl; intros Heq;
    first [injection Heq as <-; lia | apply He in Heq; lia].
Qed.

Lemma patience_look b l t :
  hopeless b → stillborn l → ended_by b t → t + seconds 16 ≤ lk_now l →
  patience b ≤ 0 ∧ look b l = b ∨ patience (look b l) ≤ patience b - 1.
Proof.
  intros (Hc & Hp & [d Hd] & Hla & Hu) [Hal Hsp] He Ht.
  unfold look, tend, controller_step. rewrite Hal, Hc, Hp, Hd. simpl.
  unfold patience, attempts_u32, CONTROLLER_RESTARTS in *.
  destruct (cr_launched (ib_restart b)) as [p|] eqn:El.
  { rewrite (Hla p eq_refl). cbn -[Z.mul Z.max Z.sub Z.add]. right.
    rewrite El. cbn -[Z.mul Z.max Z.sub Z.add].
    destruct (cr_ended_at _), (cr_exhausted _); lia. }
  destruct (cr_ended_at (ib_restart b)) as [e|] eqn:Ee; last first.
  { right. unfold note_controller_ended. rewrite El. cbn -[Z.mul Z.max Z.sub Z.add CONTROLLER_STABLE Z.leb].
    destruct (CONTROLLER_STABLE <=? _), (cr_exhausted (ib_restart b)); lia. }
  destruct (cr_exhausted (ib_restart b)) eqn:Ex; simpl; [by left|]. right.
  destruct (5 <=? cr_attempts (ib_restart b)) eqn:E5; simpl.
  { rewrite Ee, El. simpl. lia. }
  apply Z.leb_gt in E5. specialize (He e Ee).
  pose proof (backoff_le (cr_attempts (ib_restart b))) as Hb. unfold CONTROLLER_RESTARTS in Hb.
  rewrite (proj2 (Z.ltb_ge _ _)) by lia. simpl. unfold u32_saturating_add.
  destruct (lk_spawned l); simpl; [lia|]. rewrite Ex. lia.
Qed.

Lemma looks_given_up b ls t :
  hopeless b → Forall stillborn ls → ended_by b t → spaced t ls →
  patience b ≤ Z.of_nat (length ls) → given_up (looks b ls).
Proof.
  revert b t. induction ls as [|l ls IH]; intros b t Hb Hls He Hsp Hlen.
  { apply patience_given_up; [apply Hb|done]. }
  inversion Hls as [|?? Hl Hls']; subst. destruct Hsp as [Ht Hsp].
  simpl. apply (IH _ (lk_now l)); [by apply hopeless_look|done| |done|].
  - apply (ended_by_look _ _ t); [done|]. unfold seconds in Ht. lia.
  - simpl in Hlen. destruct (patience_look b l t Hb Hl He Ht) as [[Hz ->]|]; lia.
Qed.
End Hopeless.
End InputFacts.

(** ** Properties *)

Module InputProps.
Import InputFacts.

(** between two binds the daemon starts a controller at most
    [CONTROLLER_RESTARTS] times, whatever the looks at the binding find: from
    any binding (its count a [u32]) and over any history of looks, however
    long, at whatever times and with whatever processes alive or spawned. *)
Theorem controller_launches_bounded b ls :
  attempts_u32 b → Z.of_nat (launches b ls) ≤ CONTROLLER_RESTARTS.
Proof.
  intros Hu. etrans; [by apply launches_allowance|]. by apply allowance_le.
Qed.

Definition w_provider : ProcessIdentity := mkProcess 10 0.
Definition w_binding : InputBinding :=
  mkBinding (mkGeneration w_provider "thread" "default") (mkProcess 20 5) 5 "digest" 5 1 []
    (Some (mkLaunch "/bin/receiver" [] "/" ∅)) restart_default.
Definition w_up (p : ProcessIdentity) : bool := p == w_provider.
Definition w_looks (n : nat) : list Look :=
  (λ i, mkLook (seconds (16 * (1 + Z.of_nat i))) w_up
          (if Nat.even i then None else Some (mkProcess 30 (Z.of_nat i)))) <$> seq 0 n.

Lemma controller_launches_bounded_witness :
  launches w_binding (w_looks 40) = 5%nat ∧
  Z.of_nat (launches w_binding (w_looks 40)) ≤ CONTROLLER_RESTARTS.
Proof.
  split; [by vm_compute|]. apply (controller_launches_bounded w_binding (w_looks 40)).
  by vm_compute.
Defined.



(** a launch happens exactly when it is due: the bound controller and any
    process started for it are gone, the binding says how to start one, the
    provider still runs, the episode is neither given up nor used up, and the
    backoff after the last end has passed; the launch carries the next number
    of the episode. *)
Theorem controller_launch_iff_due b now alive n :
  controller_step b now alive = Launch n ↔
  alive (ib_controller b) = false ∧
  cr_launched (ib_restart b) = None ∧
  is_Some (ib_launch b) ∧
  cr_exhausted (ib_restart b) = false ∧
  alive (pg_process (ib_provider b)) = true ∧
  cr_attempts (ib_restart b) < CONTROLLER_RESTARTS ∧
  n = cr_attempts (ib_restart b) + 1 ∧
  ∃ ended, cr_ended_at (ib_restart b) = Some ended ∧ ended + controller_backoff n ≤ now.
Proof. apply controller_step_launch. Qed.

(** a hold decided for the person's typing ends within one quiet window
    and passes the receiver's own plausibility check; once it has ended and
    nothing more was typed the next decision delivers, and a keystroke holds
    input exactly while it is less than [QUIET] old. (A keystroke stamped in
    the future counts as one made now, so only one stamped by [now] is known
    to stop holding at [until].) *)
Theorem typing_hold_window typed now :
  (∀ until, Typing.decide typed now = Typing.Until until →
     Typing.plausible until now = true ∧
     (is_some_and (λ k, k <=? now) typed = true →
      ∀ now', until ≤ now' → Typing.decide typed now' = Typing.Deliver)) ∧
  (Typing.decide typed now = Typing.Deliver ↔
     ∀ k, typed = Some k → Typing.QUIET ≤ now - k).
Proof.
  assert (0 < Typing.QUIET) as Hq by (by vm_compute).
  unfold Typing.decide, Typing.plausible.
  destruct typed as [k|]; [|split; [done|by split]]. split.
  - intros u. destruct (now <? _) eqn:E; [|done]. intros [= <-].
    apply Z.ltb_lt in E. split.
    + apply andb_true_iff. split; [by apply Z.ltb_lt|apply Z.leb_le; lia].
    + simpl. intros Hk%Z.leb_le now' Hn. by rewrite (proj2 (Z.ltb_ge _ _)) by lia.
  - destruct (now <? _) eqn:E; [apply Z.ltb_lt in E|apply Z.ltb_ge in E].
    + split; [done|]. intros H. specialize (H k eq_refl). lia.
    + split; [|done]. intros _ k' [= <-]. lia.
Qed.
End InputProps.
