(* ===== verification/Agent.v ===== *)
(** * Agents: specs, records and what is read off a record

    [crates/core/src/agent.rs] with the data its records hold:
    [project.rs] ([ProjectRef], [Pause]), [container.rs], the session types of
    [multiplexer.rs], [terminal.rs] and [session.rs], the observations of
    [wait.rs], the judgments of [judgment.rs] and the provider states of
    [provider.rs]. [AgentRecord] has every field of the source. *)

From Stdlib Require Import Ascii.
From stdpp Require Import pretty.
From S2P Require Import Prelude RustStr Input.

Local Open Scope string_scope.
Local Open Scope Z_scope.
Local Open Scope rust_scope.

(** ** Projects *)

Inductive ProjectSource := SGit | SAgentfile | SDirectory.

Record ProjectRef := mkProject {
  p_root : string;
  p_worktree : option string;
  p_fingerprint : option string;
  p_source : ProjectSource;
}.

Definition project_directory (root : string) : ProjectRef := mkProject root None None SDirectory.

(** The [uuid] crate's version 5 UUID in the URL namespace, as 32 hex digits. *)
Class Uuid := { new_v5_url : string → string }.

Section Project.
Context {V5 : Uuid}.

Definition project_id (p : ProjectRef) : string :=
  match p_fingerprint p with
  | Some fingerprint => fingerprint
  | None => new_v5_url (p_root p)
  end.
End Project.

Definition project_name (p : ProjectRef) : string := unwrap_or (p_root p) (file_name (p_root p)).
Definition project_dir (p : ProjectRef) : string := unwrap_or (p_root p) (p_worktree p).

Record Pause := mkPause {
  pause_project : string;
  pause_by : string;
  pause_reason : string;
  pause_at : instant;
}.

Definition pause_holds (p : Pause) (caller_project : option string) (caller_is_human : bool) : bool :=
  negb caller_is_human && (caller_project == Some (pause_project p)).

(** ** Containers *)

Inductive ContainerEngine := Docker | Podman.

Definition engine_display (e : ContainerEngine) : string :=
  match e with Docker => "docker" | Podman => "podman" end.
Definition engine_from_str (raw : string) : result ContainerEngine string :=
  if raw == "docker" then Ok Docker
  else if raw == "podman" then Ok Podman
  else Err "engine must be docker or podman".

Record ImageBuildSpec := mkBuildSpec {
  bs_engine : ContainerEngine;
  bs_connection : option string;
  bs_context : string;
  bs_recipe : string;
  bs_timeout_secs : Z;
}.

Record ImageBuild := mkBuild {
  bd_id : string;
  bd_spec : ImageBuildSpec;
  bd_captured_at : instant;
  bd_finished_at : instant;
  bd_context_version : string;
  bd_recipe_version : string;
  bd_image_id : string;
  bd_client_version : string;
  bd_server_version : option string;
  bd_os : string;
  bd_architecture : string;
  bd_variant : option string;
}.

Record ImageInputs := mkInputs {
  in_context_version : string;
  in_recipe_version : string;
  in_os : string;
  in_architecture : string;
  in_variant : option string;
}.

Definition inputs_from (build : ImageBuild) : ImageInputs :=
  mkInputs (bd_context_version build) (bd_recipe_version build) (bd_os build)
    (bd_architecture build) (bd_variant build).

Inductive ContainerIntent := IRun | IStop | IKill.
Inductive ContainerNetwork := NetNone | NetBridge.

Record ContainerRunOptions := mkRunOptions {
  ro_engine_relay : bool;
  ro_mount_checkout : bool;
  ro_podman_machine : option string;
  ro_network : ContainerNetwork;
}.

Record GitMounts := mkGitMounts { gm_directory : string; gm_common : string }.
Record PodmanVm := mkVm { vm_machine : string; vm_port : Z; vm_identity : string; vm_user : string }.
Record EngineRelay := mkRelay {
  er_name : string;
  er_volume : string;
  er_build : ImageBuild;
  er_retired : bool;
}.
Record WorkspaceAccess := mkAccess {
  wa_relay : option EngineRelay;
  wa_grant : string;
  wa_directory : string;
  wa_socket_directory : string;
  wa_vm : option PodmanVm;
}.
Record ContainerWorkspace := mkWorkspace {
  cw_git : option GitMounts;
  cw_checkout : string;
  cw_user : string;
  cw_keep_id : bool;
  cw_read_only : bool;
  cw_access : option WorkspaceAccess;
}.

Record ManagedContainer := mkContainer {
  mc_inputs : option ImageInputs;
  mc_build : string;
  mc_engine : ContainerEngine;
  mc_connection : option string;
  mc_image_id : string;
  mc_name : string;
  mc_owner : string;
  mc_id : option string;
  mc_intent : ContainerIntent;
  mc_start_attempted : bool;
  mc_create_attempted : bool;
  mc_last_error : option string;
  mc_options : ContainerRunOptions;
  mc_workspace : option ContainerWorkspace;
  mc_deadline : option instant;
}.

(** ** Where a session lives, and what was observed of it *)

Inductive Evidence := EEnvironment | EAncestry.
Record Session := mkSession {
  se_kind : string;
  se_session : option string;
  se_pane : option string;
  se_socket : option string;
  se_evidence : Evidence;
}.

Record Host := mkHost {
  ho_kind : string;
  ho_name : string;
  ho_app : option string;
  ho_tty : option string;
}.

Record SessionOwner := mkOwner { so_pid : Z; so_started_at : instant }.

Inductive ReportedActivity := Working | Idle | Waiting.
Inductive WaitReason := WPermission | WQuestion | WDraft | WOther.
Inductive ActivitySource := AHerdr | ACodexServer | AOther.

Record ActivityObservation := mkObservation {
  ob_activity : ReportedActivity;
  ob_observed_at : instant;
  ob_reason : option WaitReason;
  ob_detail : option string;
  ob_source : option ActivitySource;
}.

Record ScreenJudgment := mkJudgment {
  sj_reason : WaitReason;
  sj_permille : Z;
  sj_since : instant;
  sj_judged_at : instant;
  sj_process_started_at : option instant;
  sj_screen : string;
  sj_model : string;
}.

Inductive ProviderIssueKind :=
| PUsage | PRate | PBudget | PBilling | PConcurrency | PContext
| PAuthentication | PTransport | PUnknown.
Global Instance ProviderIssueKind_eq_dec : EqDecision ProviderIssueKind.
Proof. solve_decision. Defined.

Definition issue_label (k : ProviderIssueKind) : string :=
  match k with
  | PUsage => "Usage limit"
  | PRate => "Rate limit"
  | PBudget => "Session budget reached"
  | PBilling => "Provider credit unavailable"
  | PConcurrency => "Provider capacity reached"
  | PContext => "Conversation context full"
  | PAuthentication => "Provider sign-in needed"
  | PTransport => "Provider unavailable"
  | PUnknown => "Provider availability unknown"
  end.

Record ProviderIssue := mkIssue {
  is_kind : ProviderIssueKind;
  is_reset_at : option instant;
  is_quota_group : option string;
  is_model : option string;
}.

Record ProviderAvailability := mkAvailability {
  pa_process_started_at : instant;
  pa_observed_at : instant;
  pa_issue : option ProviderIssue;
  pa_cleared_observation : option instant;
  pa_retries : Z;
}.

(** ** Specs *)

Inductive RestartPolicy :=
| RNo
| ROnFailure (max : Z)
| RAlways.

Record AgentSpec := mkSpec {
  s_name : string;
  s_runtime : string;
  s_provider : option string;
  s_model : option string;
  s_command : list string;
  s_workdir : option string;
  s_env : gmap string string;
  s_labels : gmap string string;
  s_isolate : bool;
  s_tty : bool;
  s_restore : bool;
  s_in_pane : bool;
  s_restart : RestartPolicy;
  s_depends_on : list string;
}.

Definition spec_default : AgentSpec :=
  mkSpec "" "" None None [] None ∅ ∅ false false false false RNo [].

(** ** Restarting *)

Inductive AgentStatus :=
| Created
| Running
| Stopping
| Exited (code : option Z)
| Failed (reason : string).
Global Instance AgentStatus_eq_dec : EqDecision AgentStatus.
Proof. solve_decision. Defined.

Definition is_live (s : AgentStatus) : bool :=
  match s with Created | Running | Stopping => true | Exited _ | Failed _ => false end.

Definition status_display (s : AgentStatus) : string :=
  match s with
  | Created => "created"
  | Running => "running"
  | Stopping => "stopping"
  | Exited (Some code) => "exited (" ++ pretty code ++ ")"
  | Exited None => "exited (signal)"
  | Failed reason => "failed: " ++ reason
  end%string.

Definition DEFAULT_RESTART_LIMIT : Z := 3.

Definition restart_parse (text : string) : option RestartPolicy :=
  let text := trim text in
  if (text == "no") || (text == "never") then Some RNo
  else if text == "always" then Some RAlways
  else if text == "on-failure" then Some (ROnFailure DEFAULT_RESTART_LIMIT)
  else match strip_prefix "on-failure:" text with
       | None => None
       | Some max => match parse_u32 max with Some max => Some (ROnFailure max) | None => None end
       end.

Definition failed (status : AgentStatus) : bool :=
  match status with Exited (Some 0) => false | _ => true end.

Definition restarts (p : RestartPolicy) (status : AgentStatus) (already : Z) : bool :=
  match p with
  | RNo => false
  | RAlways => true
  | ROnFailure max => (already <? max) && failed status
  end.

Definition restart_describe (p : RestartPolicy) : string :=
  match p with
  | RNo => "no"
  | RAlways => "always"
  | ROnFailure max => "on-failure:" ++ pretty (Z.to_N max)
  end%string.

Definition is_no (p : RestartPolicy) : bool := match p with RNo => true | _ => false end.

(** [u64::saturating_mul]. *)
Definition u64_saturating_mul (a b : Z) : Z := Z.min u64_max (a * b).

Definition restart_delay (already : Z) : duration :=
  let ms := u64_saturating_mul 200 (Z.shiftl 1 (Z.min already 8)) in
  millis (Z.min ms 30000).

(** ** Version control *)

Record VcsState := mkVcs {
  v_branch : option string;
  v_head : option string;
  v_dirty : option bool;
  v_updated_at : instant;
}.

Definition same_as (a b : VcsState) : bool :=
  (v_branch a == v_branch b) && (v_head a == v_head b) && (v_dirty a == v_dirty b).

(** The first [n] characters, without splitting one: [char_indices().nth(n)]
    and the slice up to it. *)
Definition first_chars (n : nat) (s : string) : string := chars_take n s.

Definition short (s : string) : string := first_chars 12 s.
Definition short_head (v : VcsState) : option string := first_chars 7 <$> v_head v.

Definition vcs_describe (v : VcsState) : string :=
  match v_branch v, short_head v with
  | Some branch, Some head => branch ++ "@" ++ head
  | None, Some head => "(detached)@" ++ head
  | Some branch, None => branch ++ " (unborn)"
  | None, None => "-"
  end%string.

(** ** Records *)

Record SessionKey := mkKey {
  sk_runtime : string;
  sk_profile : option string;
  sk_session : string;
}.
Global Instance SessionKey_eq_dec : EqDecision SessionKey.
Proof. solve_decision. Defined.

Record SessionContact := mkSessionContact {
  sc_adapter : AdapterKind;
  sc_observed_at : instant;
}.

Record ThreadRef := mkThreadRef { tr_thread : string; tr_agent : option string }.
Global Instance ThreadRef_eq_dec : EqDecision ThreadRef.
Proof. solve_decision. Defined.

Inductive ThreadSource := Rollout | CodexServer.
Global Instance ThreadSource_eq_dec : EqDecision ThreadSource.
Proof. solve_decision. Defined.

Record ProviderThread := mkThread {
  th_role : option string;
  th_nickname : option string;
  th_parent : option ThreadRef;
  th_source : ThreadSource;
}.
Global Instance ProviderThread_eq_dec : EqDecision ProviderThread.
Proof. solve_decision. Defined.

(** [Option::or_else]. *)
Definition or_else {A} (a b : option A) : option A :=
  match a with Some _ => a | None => b end.

Definition merged (self later : ProviderThread) : ProviderThread :=
  let parent :=
    match th_parent self, th_parent later with
    | Some mine, Some theirs =>
        if tr_thread mine == tr_thread theirs
        then Some (mkThreadRef (tr_thread mine) (or_else (tr_agent mine) (tr_agent theirs)))
        else Some mine
    | Some mine, None => Some mine
    | None, theirs => theirs
    end in
  let m := mkThread (or_else (th_role self) (th_role later))
             (or_else (th_nickname self) (th_nickname later)) parent (th_source self) in
  if m == self then m
  else mkThread (th_role m) (th_nickname m) (th_parent m) (th_source later).

Record AgentRecord := mkRecord {
  r_id : string;
  r_spec : AgentSpec;
  r_status : AgentStatus;
  r_host : string;
  r_pid : option Z;
  r_process_started_at : option instant;
  r_process_group : option Z;
  r_managed : bool;
  r_session : option Session;
  r_terminal : option Host;
  r_restarts : Z;
  r_stop_requested : option bool;
  r_container : option ManagedContainer;
  r_owner : option SessionOwner;
  r_project : option ProjectRef;
  r_vcs : option VcsState;
  r_created_at : instant;
  r_started_at : option instant;
  r_finished_at : option instant;
  r_last_seen : instant;
  r_reported_activity : option ActivityObservation;
  r_input_delivery : option InputDelivery;
  r_provider_availability : option ProviderAvailability;
  r_adapter_contacts : gmap AdapterKind AdapterContact;
  r_queue_read : option AdapterContact;
  r_session_contact : option SessionContact;
  r_input_binding : option InputBinding;
  r_legacy_offers : gmap string instant;
  r_judged : option ScreenJudgment;
  r_thread : option ProviderThread;
}.

(** *** Field updates *)

Definition with_status (r : AgentRecord) (st : AgentStatus) : AgentRecord :=
  mkRecord
    (r_id r) (r_spec r) st (r_host r) (r_pid r) (r_process_started_at r) (r_process_group r)
    (r_managed r) (r_session r) (r_terminal r) (r_restarts r) (r_stop_requested r)
    (r_container r) (r_owner r) (r_project r) (r_vcs r) (r_created_at r) (r_started_at r)
    (r_finished_at r) (r_last_seen r) (r_reported_activity r) (r_input_delivery r)
    (r_provider_availability r) (r_adapter_contacts r) (r_queue_read r) (r_session_contact r)
    (r_input_binding r) (r_legacy_offers r) (r_judged r) (r_thread r).
Definition with_stop_requested (r : AgentRecord) (b : option bool) : AgentRecord :=
  mkRecord
    (r_id r) (r_spec r) (r_status r) (r_host r) (r_pid r) (r_process_started_at r)
    (r_process_group r) (r_managed r) (r_session r) (r_terminal r) (r_restarts r) b
    (r_container r) (r_owner r) (r_project r) (r_vcs r) (r_created_at r) (r_started_at r)
    (r_finished_at r) (r_last_seen r) (r_reported_activity r) (r_input_delivery r)
    (r_provider_availability r) (r_adapter_contacts r) (r_queue_read r) (r_session_contact r)
    (r_input_binding r) (r_legacy_offers r) (r_judged r) (r_thread r).
Definition with_times (r : AgentRecord) (started finished : option instant) (seen : instant) : AgentRecord :=
  mkRecord
    (r_id r) (r_spec r) (r_status r) (r_host r) (r_pid r) (r_process_started_at r)
    (r_process_group r) (r_managed r) (r_session r) (r_terminal r) (r_restarts r)
    (r_stop_requested r) (r_container r) (r_owner r) (r_project r) (r_vcs r) (r_created_at r)
    started finished seen (r_reported_activity r) (r_input_delivery r)
    (r_provider_availability r) (r_adapter_contacts r) (r_queue_read r) (r_session_contact r)
    (r_input_binding r) (r_legacy_offers r) (r_judged r) (r_thread r).
Definition with_vcs (r : AgentRecord) (v : option VcsState) : AgentRecord :=
  mkRecord
    (r_id r) (r_spec r) (r_status r) (r_host r) (r_pid r) (r_process_started_at r)
    (r_process_group r) (r_managed r) (r_session r) (r_terminal r) (r_restarts r)
    (r_stop_requested r) (r_container r) (r_owner r) (r_project r) v (r_created_at r)
    (r_started_at r) (r_finished_at r) (r_last_seen r) (r_reported_activity r)
    (r_input_delivery r) (r_provider_availability r) (r_adapter_contacts r) (r_queue_read r)
    (r_session_contact r) (r_input_binding r) (r_legacy_offers r) (r_judged r) (r_thread r).
Definition with_input (r : AgentRecord) (d : option InputDelivery) (b : option InputBinding) : AgentRecord :=
  mkRecord
    (r_id r) (r_spec r) (r_status r) (r_host r) (r_pid r) (r_process_started_at r)
    (r_process_group r) (r_managed r) (r_session r) (r_terminal r) (r_restarts r)
    (r_stop_requested r) (r_container r) (r_owner r) (r_project r) (r_vcs r) (r_created_at r)
    (r_started_at r) (r_finished_at r) (r_last_seen r) (r_reported_activity r) d
    (r_provider_availability r) (r_adapter_contacts r) (r_queue_read r) (r_session_contact r) b
    (r_legacy_offers r) (r_judged r) (r_thread r).

(** [AgentRecord::new]; [id] is the id [AgentId::generate] made. *)
Definition record_new (id : string) (spec : AgentSpec) (managed : bool) (now : instant) : AgentRecord :=
  {| r_id := id; r_spec := spec; r_status := Created; r_host := "local"; r_pid := None;
     r_process_started_at := None; r_process_group := None; r_managed := managed;
     r_session := None; r_terminal := None; r_restarts := 0; r_stop_requested := Some false;
     r_container := None; r_owner := None; r_project := None; r_vcs := None;
     r_created_at := now; r_started_at := None; r_finished_at := None; r_last_seen := now;
     r_reported_activity := None; r_input_delivery := None; r_provider_availability := None;
     r_adapter_contacts := ∅; r_queue_read := None; r_session_contact := None;
     r_input_binding := None; r_legacy_offers := ∅; r_judged := None; r_thread := None |}.

Definition mark_stopping (r : AgentRecord) : AgentRecord :=
  with_stop_requested (with_status r Stopping) (Some true).
Definition begin_run (r : AgentRecord) : AgentRecord := with_stop_requested r (Some false).
Definition stopped_on_request (r : AgentRecord) : bool := r_stop_requested r == Some true.

(** *** Names, roles and labels *)

Definition HUMAN : string := "user".
Definition HUMAN_RUNTIME : string := "human".
Definition ROLE_LABEL : string := "role".
Definition ROLE_PREFIX : string := "role:".
Definition ROLE_CHARS : nat := 40.
Definition NAME_CHARS : nat := 64.
Definition NAME_LABEL : string := "name".
Definition GENERATED_NAME : string := "generated".
Definition CHOSEN_NAME : string := "chosen".
Definition LAUNCHED_BY_LABEL : string := "launched_by".
Definition CONNECTOR_LABEL : string := "connector".
Definition PROFILE_LABEL : string := "provider_profile".
Definition CONNECTOR_PRESENCE : duration := hours 1.
Definition SESSION_PRESENCE : duration := hours 8.

Definition trimmed_words (l : list string) : list string :=
  filter (λ r, r != "") (trim <$> l).

Definition join_roles (roles : list string) : option string :=
  let roles := dedup (sort_by str_leb (trimmed_words roles)) in
  match roles with [] => None | _ => Some (String.concat "," roles) end.

Definition role_byte (a : ascii) : bool :=
  is_ascii_lowercase a || is_ascii_digit a || Ascii.eqb a "-".

Definition check_role (role : string) : result () string :=
  if (role == "") || (ROLE_CHARS <? String.length role)%nat
  then Err "a role is one to forty characters"
  else if negb (sforall role_byte role)
  then Err "a role is lowercase letters, digits and hyphens"
  else if starts_with role "-" || ends_with_char "-" role
  then Err "a role neither starts nor ends with a hyphen"
  else Ok tt.

Definition check_name (name : string) : result () string :=
  if (name == "") || (NAME_CHARS <? chars_count name)%nat
  then Err "a name is one to sixty-four characters"
  else if trim name != name then Err "a name neither starts nor ends with a space"
  else if has_control name then Err "a name has no control characters"
  else if (name == "project") || (name == "all") || (name == "user")
          || existsb (starts_with name) ["project:"; "topic:"; ROLE_PREFIX]
  then Err "that name is how something else is addressed; pick another"
  else Ok tt.

Definition label (r : AgentRecord) (k : string) : option string := s_labels (r_spec r) !! k.

Definition roles (r : AgentRecord) : list string :=
  match label r ROLE_LABEL with
  | Some l => trimmed_words (split_char "," l)
  | None => []
  end.
Definition holds_role (r : AgentRecord) (role : string) : bool :=
  existsb (λ x, x == role) (roles r).

(** *** Presence *)

Definition via_connector (r : AgentRecord) : bool :=
  negb (r_managed r) && is_none (r_pid r)
  && is_some_and (λ v, v == "true") (label r CONNECTOR_LABEL).

Definition connector_absent (r : AgentRecord) (now : instant) : bool :=
  is_live (r_status r) && via_connector r && (CONNECTOR_PRESENCE <? now - r_last_seen r).

Definition session_key (r : AgentRecord) : option SessionKey :=
  match label r "session_id" with
  | Some session =>
      if session == "" then None
      else Some (mkKey (s_runtime (r_spec r)) (label r PROFILE_LABEL) session)
  | None => None
  end.

Definition keyed_only (r : AgentRecord) : bool :=
  negb (r_managed r) && is_none (r_pid r) && negb (via_connector r)
  && is_some (r_session_contact r) && is_some (session_key r).

Definition session_absent (r : AgentRecord) (now : instant) : bool :=
  is_live (r_status r) && keyed_only r
  && is_some_and (λ c, SESSION_PRESENCE <? now - sc_observed_at c) (r_session_contact r).

Definition is_present (r : AgentRecord) (now : instant) : bool :=
  is_live (r_status r) && negb (connector_absent r now) && negb (session_absent r now).

Definition launched_by_person (r : AgentRecord) : bool :=
  is_some_and (λ by_, by_ == HUMAN) (label r LAUNCHED_BY_LABEL).
Definition persons (r : AgentRecord) : bool :=
  (s_runtime (r_spec r) == HUMAN_RUNTIME) || launched_by_person r.

Definition starter_traceable (r : AgentRecord) : bool :=
  is_live (r_status r)
  && (s_runtime (r_spec r) != HUMAN_RUNTIME)
  && negb (r_managed r)
  && negb (s_in_pane (r_spec r))
  && is_none (r_container r)
  && negb (via_connector r)
  && is_some (r_pid r)
  && is_some (r_process_started_at r)
  && is_none (label r LAUNCHED_BY_LABEL).

Definition name_is_generated (r : AgentRecord) : bool :=
  let name := s_name (r_spec r) in
  let runtime := s_runtime (r_spec r) in
  if label r NAME_LABEL == Some GENERATED_NAME then true
  else if label r NAME_LABEL == Some CHOSEN_NAME then false
  else if is_some_and (λ pid, name == (runtime ++ "-" ++ pretty (Z.to_N pid))%string) (r_pid r)
  then true
  else if (runtime == "claude-code")
          && is_some_and (λ session, name == ("claude-" ++ first_chars 8 session)%string)
               (label r "session_id")
  then true
  else name == ("agent-" ++ chars_take 6 (r_id r))%string.

(** ** Facts *)

Module AgentFacts.

Lemma eqb_longer (p x s : string) :
  (String.length s < String.length p)%nat → ((p ++ x)%string == s) = false.
Proof.
  intros Hl. apply eqb_false. intros Heq. apply (f_equal String.length) in Heq.
  rewrite length_append in Heq. lia.
Qed.

(** A word of lowercase letters, digits and hyphens has nothing to trim. *)
Definition word_byte (a : ascii) : bool := role_byte a || Ascii.eqb a ":".

Lemma trim_word s : sforall word_byte s = true → trim s = s.
Proof.
  intros H. apply trim_no_blank; revert H; apply sforall_impl; intros a;
    destruct a as [[] [] [] [] [] [] [] []]; by vm_compute.
Qed.

Lemma digits_word s : sforall is_ascii_digit s = true → sforall word_byte s = true.
Proof. apply sforall_impl. intros a Ha. unfold word_byte, role_byte. by rewrite Ha, orb_true_r. Qed.

Lemma merged_parent a b p :
  th_parent a = Some p →
  ∃ q, th_parent (merged a b) = Some q ∧ tr_thread q = tr_thread p ∧
       (∀ ag, tr_agent p = Some ag → tr_agent q = Some ag).
Proof.
  intros Hp. unfold merged. rewrite Hp.
  assert (∃ q, match th_parent b with
               | Some theirs =>
                   if tr_thread p == tr_thread theirs
                   then Some (mkThreadRef (tr_thread p) (or_else (tr_agent p) (tr_agent theirs)))
                   else Some p
               | None => Some p
               end = Some q ∧ tr_thread q = tr_thread p ∧
               (∀ ag, tr_agent p = Some ag → tr_agent q = Some ag)) as (q & -> & Hq).
  { destruct (th_parent b); [case_match|]; eexists; (split; [done|]); simpl; try done.
    split; [done|]. by intros ag ->. }
  exists q. case_match; simpl; done.
Qed.

Lemma merged_fields a b :
  th_role (merged a b) = or_else (th_role a) (th_role b) ∧
  th_nickname (merged a b) = or_else (th_nickname a) (th_nickname b) ∧
  th_parent (merged a b) =
    match th_parent a, th_parent b with
    | Some mine, Some theirs =>
        if tr_thread mine == tr_thread theirs
        then Some (mkThreadRef (tr_thread mine) (or_else (tr_agent mine) (tr_agent theirs)))
        else Some mine
    | Some mine, None => Some mine
    | None, theirs => theirs
    end.
Proof. unfold merged. case_match; done. Qed.

Lemma merged_unchanged a b :
  merged a b = a ↔
  th_role (merged a b) = th_role a ∧ th_nickname (merged a b) = th_nickname a ∧
  th_parent (merged a b) = th_parent a.
Proof.
  split; [by intros ->|]. destruct (merged_fields a b) as (Hr & Hn & Hp).
  rewrite Hr, Hn, Hp. intros (E1 & E2 & E3). unfold merged. rewrite E1, E2, E3.
  destruct a as [r n p s]; simpl. by rewrite eqb_refl.
Qed.

Lemma or_else_idem {A} (a b : option A) : or_else (or_else a b) b = or_else a b.
Proof. by destruct a, b. Qed.

(** *** Role labels *)

Lemma NoDup_dedup l : StronglySorted (λ a b, str_leb a b = true) l → NoDup (dedup l).
Proof.
  intros Hs. eapply strict_NoDup, dedup_strict, Hs. intros a b ??. by apply str_leb_antisym.
Qed.

Lemma split_char_no_sep c a : contains_char c a = false → split_char c a = [a].
Proof.
  unfold contains_char. induction a as [|x a IH]; [done|]. cbn. intros [Hx Ha]%orb_false_iff.
  rewrite Ascii.eqb_sym, Hx, IH by done. done.
Qed.

Lemma split_char_past c a t :
  contains_char c a = false → split_char c (a ++ String c t) = a :: split_char c t.
Proof.
  unfold contains_char. induction a as [|x a IH].
  - intros _. rewrite append_nil_l. cbn. by rewrite Ascii.eqb_refl.
  - cbn. intros [Hx Ha]%orb_false_iff. rewrite append_cons. cbn.
    rewrite Ascii.eqb_sym, Hx, IH by done. done.
Qed.

Lemma split_char_concat c l :
  l ≠ [] → Forall (λ a, contains_char c a = false) l →
  split_char c (String.concat (String c "") l) = l.
Proof.
  induction l as [|a l IH]; [done|]. intros _ Hl. inversion Hl as [|?? Ha Hl']; subst.
  destruct l as [|b l]; [by apply split_char_no_sep|].
  change (String.concat (String c "") (a :: b :: l))
    with (a ++ (String c "" ++ String.concat (String c "") (b :: l)))%string.
  rewrite append_cons, append_nil_l, split_char_past by done. by rewrite IH.
Qed.

Lemma check_role_ok r :
  check_role r = Ok tt → r ≠ "" ∧ sforall role_byte r = true.
Proof.
  unfold check_role. repeat case_match; try done; split_and_bool; done.
Qed.

Lemma role_word r : sforall role_byte r = true → trim r = r ∧ contains_char "," r = false.
Proof.
  intros Hr. split.
  - apply trim_word. revert Hr. apply sforall_impl. intros a Ha. unfold word_byte. by rewrite Ha.
  - unfold contains_char. apply sexists_false_sforall. revert Hr. apply sforall_impl.
    intros a. destruct a as [[] [] [] [] [] [] [] []]; by vm_compute.
Qed.

Lemma trimmed_words_roles l :
  Forall (λ r, check_role r = Ok tt) l → trimmed_words l = l.
Proof.
  induction 1 as [|r l Hr _ IH]; [done|]. unfold trimmed_words in *. cbn [fmap list_fmap].
  destruct (check_role_ok r Hr) as [Hne [Ht _]%role_word]. fold (fmap (M := list) trim l).
  rewrite Ht. rewrite filter_cons_True; [by rewrite IH|].
  by rewrite (proj2 (eqb_false _ _)).
Qed.

Lemma sorted_roles l : StronglySorted (λ a b, str_leb a b = true) (sort_by str_leb l).
Proof. apply sort_by_sorted; [apply str_leb_total|apply str_leb_trans]. Qed.
End AgentFacts.

(** ** Properties *)

Module AgentProps.
Import AgentFacts.

(** what [describe] prints for a restart policy, [parse] reads back as
    that policy, for every limit a [u32] can hold. *)
Theorem restart_policy_roundtrip p :
  match p with ROnFailure max => 0 ≤ max < 2 ^ 32 | _ => True end →
  restart_parse (restart_describe p) = Some p.
Proof.
  intros Hp. destruct p as [|max|]; [done| |done]. unfold restart_parse. cbn [restart_describe].
  rewrite trim_word; last first.
  { rewrite sforall_app. apply andb_true_iff. split; [done|].
    apply digits_word, pretty_N_digits. }
  rewrite !eqb_longer by (simpl; lia). simpl orb. cbn match.
  rewrite (proj2 (strip_prefix_Some _ _ _) eq_refl). rewrite parse_u32_pretty, Z2N.id by lia. done.
Qed.

Lemma restart_policy_roundtrip_witness :
  restart_parse (restart_describe (ROnFailure 4294967295)) = Some (ROnFailure 4294967295) ∧
  restart_describe (ROnFailure 5) = "on-failure:5".
Proof. split; [apply (restart_policy_roundtrip (ROnFailure 4294967295)); lia|by vm_compute]. Defined.

(** merging what a provider says of a thread only adds: a role, a
    nickname, a parent and a parent's agent already known stand; merging the
    same reading again changes nothing, and the source changes exactly when
    the reading added something. *)
Theorem merged_only_adds a b :
  (∀ x, th_role a = Some x → th_role (merged a b) = Some x) ∧
  (∀ x, th_nickname a = Some x → th_nickname (merged a b) = Some x) ∧
  (∀ p, th_parent a = Some p → ∃ q, th_parent (merged a b) = Some q ∧
     tr_thread q = tr_thread p ∧ (∀ ag, tr_agent p = Some ag → tr_agent q = Some ag)) ∧
  merged (merged a b) b = merged a b ∧
  (merged a b ≠ a → th_source (merged a b) = th_source b).
Proof.
  destruct (merged_fields a b) as (Hr & Hn & Hp).
  split; [by rewrite Hr; intros x ->|]. split; [by rewrite Hn; intros x ->|].
  split; [intros p; apply merged_parent|]. split.
  - apply merged_unchanged. destruct (merged_fields (merged a b) b) as (-> & -> & ->).
    rewrite Hr, Hn, Hp, !or_else_idem. split; [done|]. split; [done|].
    destruct (th_parent a) as [[t ag]|], (th_parent b) as [[t' ag']|]; simpl; try done.
    + destruct (t == t') eqn:E; simpl; rewrite E; [by rewrite or_else_idem|done].
    + rewrite eqb_refl. by destruct ag'.
  - unfold merged. cbv zeta. destruct (_ == a) eqn:E; [|done]. split_and_bool. intros Hne. by destruct Hne.
Qed.

(** the role label keeps a set of roles: for any accepted roles in any
    order and with repeats, the label [join_roles] makes reads back as the
    same roles, each once, so an agent holds exactly the roles it was given. *)
Theorem role_label_roundtrip rs rec :
  rs ≠ [] → Forall (λ r, check_role r = Ok tt) rs →
  label rec ROLE_LABEL = join_roles rs →
  NoDup (roles rec) ∧ ∀ role, holds_role rec role = true ↔ role ∈ rs.
Proof.
  intros Hne Hok Hlab.
  set (l := dedup (sort_by str_leb rs)).
  assert (∀ x, x ∈ l ↔ x ∈ rs) as Hel.
  { intros x. unfold l. by rewrite elem_of_dedup, elem_of_sort_by. }
  assert (l ≠ []) as Hlne.
  { destruct rs as [|r rs]; [done|]. intros Hl. specialize (Hel r). rewrite Hl in Hel. set_solver. }
  assert (Forall (λ r, check_role r = Ok tt) l) as Hlok.
  { apply Forall_forall. intros x Hx%Hel. by apply (proj1 (Forall_forall _ _) Hok). }
  assert (roles rec = l) as Hr.
  { unfold roles. rewrite Hlab. unfold join_roles. rewrite trimmed_words_roles by done. fold l.
    destruct l as [|a l'] eqn:El; [done|]. rewrite split_char_concat; [|done|].
    - by apply trimmed_words_roles.
    - eapply Forall_impl; [exact Hlok|]. intros x Hx.
      by destruct (check_role_ok x Hx) as [_ [_ ?]%role_word]. }
  rewrite Hr. split; [apply NoDup_dedup, sorted_roles|].
  intros role. unfold holds_role. rewrite Hr, <-Hel, existsb_exists. split.
  - intros (x & Hx & E). split_and_bool. subst. by apply list_elem_of_In.
  - intros Hx. exists role. rewrite eqb_refl. split; [by apply list_elem_of_In|done].
Qed.

Definition w_roles : list string := ["tester"; "lead"; "tester"].
Definition w_holder : AgentRecord :=
  record_new "a1" (mkSpec "ada" "codex" None None [] None ∅ {[ "role" := "lead,tester" ]}
    false false false false RNo []) false 0.

Lemma role_label_roundtrip_witness :
  roles w_holder = ["lead"; "tester"] ∧
  (NoDup (roles w_holder) ∧ ∀ role, holds_role w_holder role = true ↔ role ∈ w_roles).
Proof.
  split; [by vm_compute|]. apply (role_label_roundtrip w_roles w_holder).
  - done.
  - by repeat constructor.
  - by vm_compute.
Defined.
End AgentProps.
