(* ===== verification/Registry.v ===== *)
(** * The registry of agents

    [crates/core/src/registry.rs], with the alias data of [identity.rs].
    [Registry] has the fields of the source: the agents by id (a [HashMap], so
    every operation that iterates over it takes the iteration order), the flat
    alias map, the retired names, and the index of agents whose provider
    reported a block, with the ids to recheck. Operations that mutate return
    the registry they leave. *)

From S2P Require Import Prelude RustStr Order Input Agent.

Local Open Scope string_scope.
Local Open Scope Z_scope.
Local Open Scope rust_scope.

Record AgentAlias := mkAlias {
  al_retired : string;
  al_canonical : string;
  al_retired_name : option string;
  al_reconciled_at : instant;
}.

Record AliasError := mkAliasError { ae_retired : string; ae_reason : string }.

Inductive RegistryError :=
| IdentityReserved (id : string)
| NameTaken (name : string)
| NotFound (reference : string)
| Ambiguous (reference : string)
| ProjectNotFound (reference : string)
| ProjectAmbiguous (reference : string)
| RoleNotFound (role : string)
| RoleAmbiguous (role : string)
| RoleShadowed (role : string).

Record Registry := mkRegistry {
  agents : gmap string AgentRecord;
  aliases : gmap string string;
  retired_names : gmap string string;
  provider_blocks : gset string;
  provider_blocks_dirty : gset string;
}.

(** [record.provider_availability] carries an issue. *)
Definition blocked (r : AgentRecord) : bool :=
  is_some_and (λ state, is_some (pa_issue state)) (r_provider_availability r).

Module Reg.
Definition new : Registry := mkRegistry ∅ ∅ ∅ ∅ ∅.

Definition contains_key {V} (m : gmap string V) (k : string) : bool := is_some (m !! k).

Definition canonical_id (reg : Registry) (id : string) : string :=
  unwrap_or id (aliases reg !! id).
Global Arguments canonical_id : simpl never.

Definition get (reg : Registry) (id : string) : option AgentRecord :=
  agents reg !! canonical_id reg id.

(** [get_mut], with what is done to the record through it. The id is marked
    dirty whether or not it owns a record. *)
Definition get_mut (reg : Registry) (id : string) (f : AgentRecord → AgentRecord)
    : Registry * option AgentRecord :=
  let canonical := canonical_id reg id in
  let dirty := {[ canonical ]} ∪ provider_blocks_dirty reg in
  match agents reg !! canonical with
  | Some r => (mkRegistry (<[ canonical := f r ]> (agents reg)) (aliases reg) (retired_names reg)
                 (provider_blocks reg) dirty, Some (f r))
  | None => (mkRegistry (agents reg) (aliases reg) (retired_names reg)
               (provider_blocks reg) dirty, None)
  end.

(** One id of the loop of [provider_block_ids]. *)
Definition recheck (ags : gmap string AgentRecord) (blocks : gset string) (id : string) : gset string :=
  if is_some_and blocked (ags !! id) then {[ id ]} ∪ blocks else blocks ∖ {[ id ]}.

Definition provider_block_ids (reg : Registry) : Registry * list string :=
  let blocks := foldl (recheck (agents reg)) (provider_blocks reg)
                  (btree_set_iter (provider_blocks_dirty reg)) in
  (mkRegistry (agents reg) (aliases reg) (retired_names reg) blocks ∅, btree_set_iter blocks).

(** The loop of [restore_aliases]: the checked map, or the first refusal. *)
Fixpoint check_aliases (reg : Registry) (checked : gmap string string) (l : list AgentAlias)
    : result (gmap string string) AliasError :=
  match l with
  | [] => Ok checked
  | a :: l =>
      let refuse reason := Err (mkAliasError (al_retired a) reason) in
      if al_retired a == al_canonical a then refuse "self reference"
      else if contains_key (agents reg) (al_retired a) then refuse "retired ID still owns a record"
      else if negb (contains_key (agents reg) (al_canonical a)) then refuse "canonical record is missing"
      else if contains_key checked (al_retired a) then refuse "duplicate retired ID"
      else check_aliases reg (<[ al_retired a := al_canonical a ]> checked) l
  end.

(** [iter().filter_map(...).collect()] into a map: the last entry of a key stays. *)
Definition collect_names (l : list AgentAlias) : gmap string string :=
  foldl (λ m a, match al_retired_name a with
                | Some name => <[ al_retired a := name ]> m
                | None => m
                end) ∅ l.

Definition restore_aliases (reg : Registry) (l : list AgentAlias) : result Registry AliasError :=
  let? checked := check_aliases reg ∅ l in
  Ok (mkRegistry (agents reg) checked (collect_names l) (provider_blocks reg)
        (provider_blocks_dirty reg)).

(** What both ways of retiring a record do to the maps. *)
Definition retire_one (reg : Registry) (canonical id : string) (r : AgentRecord) : Registry :=
  mkRegistry (delete id (agents reg))
    (<[ id := canonical ]> (aliases reg))
    (<[ id := s_name (r_spec r) ]> (retired_names reg))
    (provider_blocks reg ∖ {[ id ]})
    (provider_blocks_dirty reg ∖ {[ id ]}).

(** [None] is the [expect] of a record just checked to be there. *)
Definition retire_into (reg : Registry) (retired canonical : string)
    : option (result (Registry * AgentRecord) AliasError) :=
  let refuse reason := Some (Err (mkAliasError retired reason)) in
  if retired == canonical then refuse "self reference"
  else if negb (contains_key (agents reg) canonical) then refuse "canonical record is missing"
  else if negb (contains_key (agents reg) retired) then refuse "retired ID owns no record"
  else if existsb (λ target, target == retired) (btree_iter (aliases reg)).*2
  then refuse "retired ID is already a canonical alias target"
  else match agents reg !! retired with
       | Some r => Some (Ok (retire_one reg canonical retired r, r))
       | None => None
       end.

(** The checking loop of [fold_into]. *)
Fixpoint check_retired (reg : Registry) (canonical : string) (seen : gset string) (l : list string)
    : result () AliasError :=
  match l with
  | [] => Ok tt
  | id :: l =>
      let refuse reason := Err (mkAliasError id reason) in
      if id == canonical then refuse "self reference"
      else if negb (contains_key (agents reg) id) then refuse "retired ID owns no record"
      else if bool_decide (id ∈ seen) then refuse "duplicate retired ID"
      else check_retired reg canonical ({[ id ]} ∪ seen) l
  end.

Fixpoint retire_all (reg : Registry) (canonical : string) (l : list string)
    : option (Registry * list AgentRecord) :=
  match l with
  | [] => Some (reg, [])
  | id :: l =>
      match agents reg !! id with
      | None => None
      | Some r =>
          match retire_all (retire_one reg canonical id r) canonical l with
          | Some (reg', rs) => Some (reg', r :: rs)
          | None => None
          end
      end
  end.

Definition repoint (retired : list string) (canonical target : string) : string :=
  if existsb (λ r, r == target) retired then canonical else target.

Definition fold_into (reg : Registry) (retired : list string) (canonical : string)
    : option (result (Registry * list AgentRecord) AliasError) :=
  if negb (contains_key (agents reg) canonical)
  then Some (Err (mkAliasError canonical "canonical record is missing"))
  else match check_retired reg canonical ∅ retired with
  | Err e => Some (Err e)
  | Ok _ =>
      let reg := mkRegistry (agents reg) (repoint retired canonical <$> aliases reg)
                   (retired_names reg) (provider_blocks reg) (provider_blocks_dirty reg) in
      match retire_all reg canonical retired with
      | Some p => Some (Ok p)
      | None => None
      end
  end.

Definition aliases_of (reg : Registry) (canonical : string) : list string :=
  (filter (λ e, e.2 == canonical) (btree_iter (aliases reg))).*1.

Definition identity_ids (reg : Registry) (id : string) : list string :=
  let canonical := canonical_id reg id in
  canonical :: aliases_of reg canonical.

Definition identity_names (reg : Registry) (id : string) : list string :=
  let canonical := canonical_id reg id in
  let own := match get reg canonical with Some r => [s_name (r_spec r)] | None => [] end in
  let old := omap (λ retired, retired_names reg !! retired) (aliases_of reg canonical) in
  dedup (sort_by str_leb (own ++ old)%list).

(** *** Changes to one record *)

Definition status_record (status : AgentStatus) (now : instant) (r : AgentRecord) : AgentRecord :=
  let started := if (status == Running) && is_none (r_started_at r) then Some now else r_started_at r in
  let finished := if negb (is_live status) && is_none (r_finished_at r) then Some now else r_finished_at r in
  with_times (with_status r status) started finished now.

Definition set_status (reg : Registry) (id : string) (status : AgentStatus) (now : instant)
    : Registry * option AgentRecord :=
  get_mut reg id (status_record status now).

Definition set_vcs (reg : Registry) (id : string) (vcs : VcsState) : Registry * option (AgentRecord * bool) :=
  let changed := match get reg id with
                 | Some r => negb (is_some_and (λ old, same_as old vcs) (r_vcs r))
                 | None => false
                 end in
  let '(reg', o) := get_mut reg id (λ r, with_vcs r (Some vcs)) in
  (reg', (λ r, (r, changed)) <$> o).

Definition touch (reg : Registry) (id : string) (now : instant) : Registry * bool :=
  let '(reg', o) := get_mut reg id (λ r, with_times r (r_started_at r) (r_finished_at r) now) in
  (reg', is_some o).

Definition remove (reg : Registry) (id : string) : Registry * option AgentRecord :=
  let canonical := canonical_id reg id in
  let als := filter (λ e, e.2 ≠ canonical) (aliases reg) in
  (mkRegistry (delete canonical (agents reg)) als
     (filter (λ e, is_Some (als !! e.1)) (retired_names reg))
     (provider_blocks reg ∖ {[ canonical ]}) (provider_blocks_dirty reg ∖ {[ canonical ]}),
   agents reg !! canonical).

Definition len (reg : Registry) : nat := size (agents reg).
Definition is_empty (reg : Registry) : bool := (len reg =? 0)%nat.

(** *** Operations that iterate over the agents *)

Section Iterating.
Context {HO : HashOrder string AgentRecord} {V5 : Uuid}.

Definition all (reg : Registry) : list AgentRecord := hm_values (agents reg).
Definition live (reg : Registry) : list AgentRecord :=
  filter (λ r, is_live (r_status r)) (all reg).

Definition insert (reg : Registry) (record : AgentRecord) : result Registry RegistryError :=
  if contains_key (aliases reg) (r_id record) then Err (IdentityReserved (r_id record))
  else if is_live (r_status record)
          && existsb (λ a, s_name (r_spec a) == s_name (r_spec record)) (live reg)
  then Err (NameTaken (s_name (r_spec record)))
  else Ok (mkRegistry (<[ r_id record := record ]> (agents reg)) (aliases reg)
             (retired_names reg) (provider_blocks reg)
             ({[ r_id record ]} ∪ provider_blocks_dirty reg)).

Definition in_project (project : option string) (r : AgentRecord) : bool :=
  is_none_or (λ wanted, is_some_and (λ mine, project_id mine == wanted) (r_project r)) project.

Definition holders (reg : Registry) (role : string) (project : option string) : list AgentRecord :=
  filter (λ r, in_project project r) (filter (λ r, holds_role r role) (live reg)).

Definition resolve_role (reg : Registry) (role : string) (project : option string)
    : result string RegistryError :=
  let spelled := (ROLE_PREFIX ++ role)%string in
  if existsb (λ a, s_name (r_spec a) == spelled) (live reg) then Err (RoleShadowed role)
  else match holders reg role project with
       | [one] => Ok (r_id one)
       | [] => Err (RoleNotFound role)
       | _ => Err (RoleAmbiguous role)
       end.

(** The three steps of [resolve] after the exact ids. *)
Definition resolve_prefix (reg : Registry) (reference : string) : result string RegistryError :=
  match filter (λ id, starts_with id reference) (hm_keys (agents reg)) with
  | [one] => Ok one
  | [] => Err (NotFound reference)
  | _ => Err (Ambiguous reference)
  end.

Definition resolve_name (reg : Registry) (reference : string) : result string RegistryError :=
  let by_name := filter (λ a, s_name (r_spec a) == reference) (all reg) in
  match filter (λ a, is_live (r_status a)) by_name with
  | [one] => Ok (r_id one)
  | [] =>
      match sort_by_key (λ a, Rev (r_created_at a)) by_name with
      | latest :: _ => Ok (r_id latest)
      | [] => resolve_prefix reg reference
      end
  | _ => Err (Ambiguous reference)
  end.

Definition resolve (reg : Registry) (reference : string) : result string RegistryError :=
  if reference == "" then Err (NotFound reference)
  else match strip_prefix ROLE_PREFIX reference with
  | Some role => resolve_role reg role None
  | None =>
      match aliases reg !! reference with
      | Some canonical => Ok canonical
      | None =>
          if contains_key (agents reg) reference then Ok reference
          else resolve_name reg reference
      end
  end.

Definition has_labels (labels : gmap string string) (r : AgentRecord) : bool :=
  forallb (λ e, s_labels (r_spec r) !! e.1 == Some e.2) (btree_iter labels).

Definition listing_key (r : AgentRecord) : bool * (option (string * string) * (Z * string)) :=
  (is_none (r_project r),
   ((λ p, (project_name p, project_id p)) <$> r_project r, (r_created_at r, r_id r))).

Definition matching (reg : Registry) (all_ : bool) (project : option string)
    (labels : gmap string string) : list AgentRecord :=
  sort_by_key listing_key
    (filter (λ r, has_labels labels r)
       (filter (λ r, in_project project r)
          (filter (λ r, all_ || is_live (r_status r)) (all reg)))).

Definition list_agents (reg : Registry) (all_ : bool) : list AgentRecord := matching reg all_ None ∅.

Definition resolve_project (reg : Registry) (reference : string) : result string RegistryError :=
  if reference == "" then Err (ProjectNotFound reference)
  else
    let ids := dedup
                 (sort_by str_leb (omap (λ a, project_id <$> r_project a) (all reg))) in
    if existsb (λ id, id == reference) ids then Ok reference
    else match filter (λ id, starts_with id reference) ids with
         | [one] => Ok one
         | [] => Err (ProjectNotFound reference)
         | _ => Err (ProjectAmbiguous reference)
         end.
End Iterating.
End Reg.

(** ** Facts *)

Module RegistryFacts.
Import Reg.

(** *** The invariant *)

Record wf (reg : Registry) : Prop := {
  wf_ids : ∀ k r, agents reg !! k = Some r → r_id r = k;
  wf_flat : ∀ a c, aliases reg !! a = Some c → agents reg !! a = None ∧ is_Some (agents reg !! c);
  wf_names : ∀ a, is_Some (retired_names reg !! a) → is_Some (aliases reg !! a);
  wf_index : ∀ id, id ∉ provider_blocks_dirty reg →
    (id ∈ provider_blocks reg ↔ is_some_and blocked (agents reg !! id) = true);
}.

Lemma contains_key_true {V} (m : gmap string V) k : contains_key m k = true ↔ is_Some (m !! k).
Proof. unfold contains_key. destruct (m !! k); naive_solver. Qed.

Lemma contains_key_false {V} (m : gmap string V) k : contains_key m k = false ↔ m !! k = None.
Proof. unfold contains_key. destruct (m !! k); naive_solver. Qed.

Lemma reg_wf_new : wf new.
Proof.
  split; simpl.
  - intros k r. by rewrite lookup_empty.
  - intros a c. by rewrite lookup_empty.
  - intros a. rewrite lookup_empty. by intros [].
  - intros id _. rewrite lookup_empty. simpl. set_solver.
Qed.

(** *** Rechecking the index *)

Lemma recheck_self ags blocks id :
  id ∈ recheck ags blocks id ↔ is_some_and blocked (ags !! id) = true.
Proof. unfold recheck. destruct (is_some_and _ _); set_solver. Qed.

Lemma recheck_other ags blocks id id' :
  id' ≠ id → id' ∈ recheck ags blocks id ↔ id' ∈ blocks.
Proof. unfold recheck. destruct (is_some_and _ _); set_solver. Qed.

Lemma recheck_all ags l blocks id :
  id ∈ foldl (recheck ags) blocks l ↔
  if bool_decide (id ∈ l) then is_some_and blocked (ags !! id) = true else id ∈ blocks.
Proof.
  revert blocks. induction l as [|x l IH]; intros blocks.
  { rewrite bool_decide_eq_false_2 by set_solver. done. }
  cbn [foldl]. rewrite IH. destruct (decide (id ∈ l)) as [Hl|Hl].
  { rewrite !bool_decide_eq_true_2 by set_solver. done. }
  rewrite (bool_decide_eq_false_2 (id ∈ l)) by done.
  destruct (decide (id = x)) as [->|Hx].
  - rewrite bool_decide_eq_true_2 by set_solver. apply recheck_self.
  - rewrite bool_decide_eq_false_2 by set_solver. by apply recheck_other.
Qed.

Lemma block_ids_exact reg id :
  wf reg →
  id ∈ (provider_block_ids reg).2 ↔ is_some_and blocked (agents reg !! id) = true.
Proof.
  intros Hwf. unfold provider_block_ids. simpl.
  rewrite elem_of_btree_set_iter, recheck_all.
  destruct (bool_decide _) eqn:E; [done|].
  apply bool_decide_eq_false in E. rewrite elem_of_btree_set_iter in E.
  by apply (wf_index _ Hwf).
Qed.

Lemma wf_block_ids reg : wf reg → wf (provider_block_ids reg).1.
Proof.
  intros Hwf. split; simpl; [apply Hwf..|].
  intros id _. pose proof (block_ids_exact reg id Hwf) as H.
  unfold provider_block_ids in H. simpl in H. by rewrite elem_of_btree_set_iter in H.
Qed.

(** *** The operations keep the invariant *)

Definition keeps_id (f : AgentRecord → AgentRecord) : Prop := ∀ r, r_id (f r) = r_id r.

Lemma wf_get_mut reg id f : keeps_id f → wf reg → wf (get_mut reg id f).1.
Proof.
  intros Hf [H1 H2 H3 H4]. unfold get_mut.
  destruct (agents reg !! canonical_id reg id) as [r|] eqn:E; split; simpl; try done.
  - intros k r' [[<- <-]|[Hne Hk]]%lookup_insert_Some; [rewrite Hf|]; eauto.
  - intros a c Hac. destruct (H2 _ _ Hac) as [Ha Hc]. split.
    + rewrite lookup_insert_ne; [done|]. intros Heq. congruence.
    + destruct (decide (canonical_id reg id = c)) as [->|Hne];
        [by rewrite lookup_insert_eq | by rewrite lookup_insert_ne].
  - intros id' Hid'. rewrite lookup_insert_ne by set_solver. apply H4. set_solver.
  - intros id' Hid'. apply H4. set_solver.
Qed.

Lemma reg_wf_insert `{HO : !HashOrder string AgentRecord} reg r reg' :
  insert reg r = Ok reg' → wf reg → wf reg'.
Proof.
  unfold insert. destruct (contains_key _ _) eqn:E1; [done|].
  destruct (_ && _) eqn:E2; [done|]. intros [= <-] [H1 H2 H3 H4].
  apply contains_key_false in E1. split; simpl; try done.
  - intros k r' [[<- <-]|[Hne Hk]]%lookup_insert_Some; eauto.
  - intros a c Hac. destruct (H2 _ _ Hac) as [Ha Hc]. split.
    + rewrite lookup_insert_ne; [done|]. intros <-. congruence.
    + destruct (decide (r_id r = c)) as [<-|Hne];
        [by rewrite lookup_insert_eq | by rewrite lookup_insert_ne].
  - intros id Hid. rewrite lookup_insert_ne by set_solver. apply H4. set_solver.
Qed.

Lemma wf_retire_one reg canonical id r :
  wf reg → agents reg !! id = Some r → id ≠ canonical → is_Some (agents reg !! canonical) →
  (∀ a c, aliases reg !! a = Some c → c ≠ id) →
  wf (retire_one reg canonical id r).
Proof.
  intros [H1 H2 H3 H4] Hr Hne Hc Htg. split; simpl.
  - intros k r' [Hk Hk']%lookup_delete_Some. eauto.
  - intros a c [[<- <-]|[Ha Hac]]%lookup_insert_Some.
    + rewrite lookup_delete_eq, lookup_delete_ne by done. done.
    + destruct (H2 _ _ Hac) as [Hn Hs]. split.
      * apply lookup_delete_None. by right.
      * rewrite lookup_delete_ne; [done|]. intros <-. by apply (Htg a id).
  - intros a. destruct (decide (id = a)) as [<-|Hna].
    + rewrite !lookup_insert_eq. naive_solver.
    + rewrite !lookup_insert_ne by done. apply H3.
  - intros id' Hid'. destruct (decide (id' = id)) as [->|Hne'].
    + rewrite lookup_delete_eq. simpl. set_solver.
    + rewrite lookup_delete_ne by done. rewrite <-H4 by set_solver. set_solver.
Qed.

Lemma retire_all_ok reg canonical l :
  wf reg → is_Some (agents reg !! canonical) → NoDup l →
  (∀ id, id ∈ l → id ≠ canonical ∧ is_Some (agents reg !! id)) →
  (∀ a c, aliases reg !! a = Some c → c ∉ l) →
  ∃ reg' rs, retire_all reg canonical l = Some (reg', rs) ∧ wf reg' ∧
    Forall2 (λ id r, agents reg !! id = Some r) l rs ∧
    (∀ k, agents reg' !! k = if bool_decide (k ∈ l) then None else agents reg !! k) ∧
    (∀ a, aliases reg' !! a = if bool_decide (a ∈ l) then Some canonical else aliases reg !! a).
Proof.
  revert reg. induction l as [|id l IH]; intros reg Hwf Hc Hnd Hids Htg.
  { exists reg, []. split; [done|]. split; [done|]. split; [constructor|].
    split; intros k; by rewrite bool_decide_eq_false_2 by set_solver. }
  inversion Hnd as [|?? Hnin Hnd']; subst.
  destruct (Hids id) as [Hne [r Hr]]; [set_solver|]. cbn [retire_all]. rewrite Hr.
  assert (wf (retire_one reg canonical id r)) as Hwf'.
  { apply wf_retire_one; try done. intros a c Hac ->. apply (Htg a id); [done|set_solver]. }
  destruct (IH (retire_one reg canonical id r)) as (reg' & rs & -> & Hwf2 & Hrs & Hag & Hal); clear IH.
  - done.
  - simpl. by rewrite lookup_delete_ne.
  - done.
  - intros x Hx. destruct (Hids x) as [Hxc Hxs]; [set_solver|]. split; [done|].
    simpl. rewrite lookup_delete_ne; [done|]. intros ->. done.
  - simpl. intros a c [[<- <-]|[Ha Hac]]%lookup_insert_Some.
    + intros Hin. destruct (Hids canonical) as [[] _]; [set_solver|done].
    + intros Hin. apply (Htg a c Hac). set_solver.
  - exists reg', (r :: rs). split; [done|]. split; [done|]. split.
    { constructor; [done|]. eapply Forall2_impl; [exact Hrs|]. simpl. intros x y.
      by intros [_ H]%lookup_delete_Some. }
    split; intros k; [rewrite Hag|rewrite Hal]; simpl;
      destruct (decide (k = id)) as [->|Hk].
    + rewrite (bool_decide_eq_true_2 (id ∈ id :: l)) by set_solver.
      rewrite lookup_delete_eq. by case_match.
    + rewrite lookup_delete_ne by done.
      rewrite (bool_decide_ext (k ∈ id :: l) (k ∈ l)) by set_solver. done.
    + rewrite (bool_decide_eq_true_2 (id ∈ id :: l)) by set_solver.
      rewrite bool_decide_eq_false_2 by done. by rewrite lookup_insert_eq.
    + rewrite lookup_insert_ne by done.
      rewrite (bool_decide_ext (k ∈ id :: l) (k ∈ l)) by set_solver. done.
Qed.

Lemma check_retired_ok reg canonical seen l :
  check_retired reg canonical seen l = Ok tt ↔
  NoDup l ∧ (∀ id, id ∈ l → id ≠ canonical ∧ is_Some (agents reg !! id) ∧ id ∉ seen).
Proof.
  revert seen. induction l as [|id l IH]; intros seen; cbn [check_retired].
  { split; [|done]. intros _. split; [constructor|set_solver]. }
  destruct (id == canonical) eqn:E1; split_and_bool.
  { split; [done|]. intros [_ H]. destruct (H id) as [[] _]; [set_solver|done]. }
  destruct (contains_key (agents reg) id) eqn:E2; simpl; last first.
  { apply contains_key_false in E2. split; [done|]. intros [_ H].
    destruct (H id) as (_ & [r Hr] & _); [set_solver|congruence]. }
  apply contains_key_true in E2. case_bool_decide as E3.
  { split; [done|]. intros [_ H]. destruct (H id) as (_ & _ & []); [set_solver|done]. }
  rewrite IH, NoDup_cons. split.
  - intros [Hnd H]. split.
    + split; [|done]. intros Hin. destruct (H id Hin) as (_ & _ & Hns). set_solver.
    + intros x [->|Hx]%elem_of_cons; [done|]. destruct (H x Hx) as (? & ? & ?). set_solver.
  - intros [[Hnin Hnd] H]. split; [done|]. intros x Hx.
    destruct (H x) as (? & ? & ?); [set_solver|]. split; [done|]. split; [done|]. set_solver.
Qed.

Lemma repoint_spec retired canonical target :
  repoint retired canonical target = if bool_decide (target ∈ retired) then canonical else target.
Proof.
  unfold repoint. destruct (existsb _ _) eqn:E.
  - apply existsb_exists in E as (x & Hx%list_elem_of_In & E). split_and_bool. subst.
    by rewrite bool_decide_eq_true_2.
  - rewrite bool_decide_eq_false_2; [done|]. intros Hin.
    apply list_elem_of_In in Hin. apply not_true_iff_false in E. apply E.
    apply existsb_exists. exists target. by rewrite eqb_refl.
Qed.

(** The registry between the two loops of [fold_into]. *)
Lemma wf_repointed reg retired canonical :
  wf reg → is_Some (agents reg !! canonical) →
  wf (mkRegistry (agents reg) (repoint retired canonical <$> aliases reg)
        (retired_names reg) (provider_blocks reg) (provider_blocks_dirty reg)).
Proof.
  intros [H1 H2 H3 H4] Hc. split; simpl; try done.
  - intros a c. rewrite lookup_fmap. intros (c0 & Hac & ->)%fmap_Some.
    destruct (H2 _ _ Hac) as [Ha Hs]. split; [done|]. rewrite repoint_spec. by case_match.
  - intros a Ha%H3. rewrite lookup_fmap. by apply fmap_is_Some.
Qed.

Lemma fold_into_ok reg retired canonical :
  wf reg → is_Some (agents reg !! canonical) → check_retired reg canonical ∅ retired = Ok tt →
  ∃ reg' rs, fold_into reg retired canonical = Some (Ok (reg', rs)) ∧ wf reg' ∧
    Forall2 (λ id r, agents reg !! id = Some r) retired rs ∧
    (∀ k, agents reg' !! k = if bool_decide (k ∈ retired) then None else agents reg !! k) ∧
    (∀ a, aliases reg' !! a =
       if bool_decide (a ∈ retired) then Some canonical
       else repoint retired canonical <$> aliases reg !! a).
Proof.
  intros Hwf Hc Hck. pose proof (proj1 (check_retired_ok _ _ _ _) Hck) as [Hnd Hids].
  unfold fold_into. rewrite (proj2 (contains_key_true _ _)) by done. simpl. rewrite Hck.
  destruct (retire_all_ok _ canonical retired (wf_repointed reg retired canonical Hwf Hc))
    as (reg' & rs & -> & Hwf' & Hrs & Hag & Hal).
  - done.
  - done.
  - intros id Hid. destruct (Hids id Hid) as (? & ? & _). done.
  - simpl. intros a c. rewrite lookup_fmap. intros (c0 & Hac & ->)%fmap_Some.
    rewrite repoint_spec. case_bool_decide; [|done]. intros Hin. by destruct (Hids canonical Hin).
  - exists reg', rs. split; [done|]. split; [done|]. split; [done|]. split; [done|].
    intros a. rewrite Hal. simpl. by rewrite lookup_fmap.
Qed.

Lemma wf_fold_into reg retired canonical reg' rs :
  fold_into reg retired canonical = Some (Ok (reg', rs)) → wf reg → wf reg'.
Proof.
  intros Hf Hwf. pose proof Hf as Hf'. unfold fold_into in Hf.
  destruct (contains_key (agents reg) canonical) eqn:E1; simpl in Hf; [|done].
  apply contains_key_true in E1.
  destruct (check_retired reg canonical ∅ retired) as [[]|] eqn:E2; [|done].
  destruct (fold_into_ok reg retired canonical Hwf E1 E2) as (? & ? & Hf2 & ? & _). congruence.
Qed.

Lemma alias_targets reg t :
  existsb (λ target, target == t) (btree_iter (aliases reg)).*2 = false →
  ∀ a c, aliases reg !! a = Some c → c ≠ t.
Proof.
  intros Hx a c Hac ->. apply not_true_iff_false in Hx. apply Hx.
  apply existsb_exists. exists t. rewrite eqb_refl. split; [|done].
  apply list_elem_of_In, list_elem_of_fmap. exists (a, t).
  split; [done|]. by apply elem_of_btree_iter.
Qed.

Lemma wf_retire_into reg retired canonical reg' r :
  retire_into reg retired canonical = Some (Ok (reg', r)) → wf reg → wf reg'.
Proof.
  unfold retire_into. intros H Hwf.
  destruct (retired == canonical) eqn:E1; [done|].
  destruct (contains_key (agents reg) canonical) eqn:E2; [|done].
  destruct (contains_key (agents reg) retired) eqn:E3; [|done]. simpl in H.
  destruct (existsb _ _) eqn:E4; [done|].
  destruct (agents reg !! retired) as [r0|] eqn:E5; [|done]. injection H as <- <-.
  split_and_bool. apply wf_retire_one; try done.
  - by apply contains_key_true.
  - by apply alias_targets.
Qed.

Definition flat_over (ags : gmap string AgentRecord) (m : gmap string string) : Prop :=
  ∀ a c, m !! a = Some c → ags !! a = None ∧ is_Some (ags !! c).

Lemma check_aliases_ok reg checked l m :
  check_aliases reg checked l = Ok m → flat_over (agents reg) checked →
  flat_over (agents reg) m ∧ checked ⊆ m ∧
  Forall (λ a, m !! al_retired a = Some (al_canonical a)) l.
Proof.
  revert checked. induction l as [|a l IH]; intros checked; cbn [check_aliases].
  { intros [= <-] Hf. split; [done|]. split; [done|constructor]. }
  destruct (al_retired a == al_canonical a) eqn:E1; [done|].
  destruct (contains_key (agents reg) (al_retired a)) eqn:E2; [done|].
  destruct (contains_key (agents reg) (al_canonical a)) eqn:E3; [|done].
  destruct (contains_key checked (al_retired a)) eqn:E4; [done|].
  apply contains_key_false in E2, E4. apply contains_key_true in E3.
  intros Hck Hf. apply IH in Hck as (Hfl & Hsub & Hall).
  - split; [done|]. split.
    + etrans; [|exact Hsub]. by apply insert_subseteq.
    + constructor; [|done]. eapply lookup_weaken; [|exact Hsub]. by rewrite lookup_insert_eq.
  - intros x c [[<- <-]|[Hne Hx]]%lookup_insert_Some; [done|by apply Hf].
Qed.

Lemma collect_names_dom l (m : gmap string string) a :
  Forall (λ x, is_Some (m !! al_retired x)) l → is_Some (collect_names l !! a) → is_Some (m !! a).
Proof.
  unfold collect_names. intros Hl.
  assert (∀ acc : gmap string string, (∀ k, is_Some (acc !! k) → is_Some (m !! k)) →
    ∀ k, is_Some (foldl (λ m0 x, match al_retired_name x with
                                 | Some name => <[ al_retired x := name ]> m0
                                 | None => m0 end) acc l !! k) → is_Some (m !! k)) as Hgen.
  { induction Hl as [|x l Hx Hl IH]; intros acc Hacc; [done|]. simpl. apply IH.
    intros k. case_match; [|apply Hacc]. destruct (decide (al_retired x = k)) as [<-|Hne]; [done|].
    rewrite lookup_insert_ne by done. apply Hacc. }
  apply Hgen. intros k. rewrite lookup_empty. by intros [].
Qed.

Lemma wf_restore_aliases reg l reg' : restore_aliases reg l = Ok reg' → wf reg → wf reg'.
Proof.
  unfold restore_aliases. destruct (check_aliases reg ∅ l) as [m|] eqn:E; [|done].
  intros [= <-] [H1 H2 H3 H4].
  apply check_aliases_ok in E as (Hf & _ & Hall); [|intros a c; by rewrite lookup_empty].
  split; simpl; try done. intros a. apply collect_names_dom.
  eapply Forall_impl; [exact Hall|]. intros x ->. eauto.
Qed.

Lemma wf_remove reg id : wf reg → wf (remove reg id).1.
Proof.
  intros [H1 H2 H3 H4]. split; simpl.
  - intros k r [_ Hk]%lookup_delete_Some. eauto.
  - intros a c [Hac Hc]%map_lookup_filter_Some. destruct (H2 _ _ Hac) as [Ha Hs]. split.
    + apply lookup_delete_None. by right.
    + rewrite lookup_delete_ne; [done|]. simpl in Hc. congruence.
  - intros a [n Hn]. apply map_lookup_filter_Some in Hn as [_ Hn]. done.
  - intros x Hx. destruct (decide (x = canonical_id reg id)) as [->|Hne].
    + rewrite lookup_delete_eq. simpl. set_solver.
    + rewrite lookup_delete_ne by done. rewrite <-H4 by set_solver. set_solver.
Qed.

(** *** Histories of the registry *)

(** One operation on the registry: what the daemon can do to it. [tame]
    histories never give a record another name, nor make a finished one live
    again, through [get_mut]. *)
Definition tame (f : AgentRecord → AgentRecord) : Prop :=
  ∀ r, s_name (r_spec (f r)) = s_name (r_spec r) ∧
       (is_live (r_status (f r)) = true → is_live (r_status r) = true).

Inductive step `{HO : !HashOrder string AgentRecord} (only : (AgentRecord → AgentRecord) → Prop)
    : Registry → Registry → Prop :=
| step_insert reg r reg' : insert reg r = Ok reg' → step only reg reg'
| step_get_mut reg id f : keeps_id f → only f → step only reg (get_mut reg id f).1
| step_block_ids reg : step only reg (provider_block_ids reg).1
| step_restore reg l reg' : restore_aliases reg l = Ok reg' → step only reg reg'
| step_retire reg a c reg' r : retire_into reg a c = Some (Ok (reg', r)) → step only reg reg'
| step_fold reg l c reg' rs : fold_into reg l c = Some (Ok (reg', rs)) → step only reg reg'
| step_remove reg id : step only reg (remove reg id).1.

Section Histories.
Context `{HO : !HashOrder string AgentRecord}.

#[local] Hint Resolve reg_wf_new reg_wf_insert wf_get_mut wf_block_ids wf_restore_aliases
  wf_retire_into wf_fold_into wf_remove : rust.

Lemma reg_wf_step only reg reg' : step only reg reg' → wf reg → wf reg'.
Proof.
  destruct 1; eauto with rust.
Qed.

Lemma reg_wf_reachable only reg : rtc (step only) new reg → wf reg.
Proof.
  apply rtc_invariant; [eauto using reg_wf_step|auto with rust].
Qed.

Definition live_names_distinct (reg : Registry) : Prop :=
  ∀ k1 r1 k2 r2, agents reg !! k1 = Some r1 → agents reg !! k2 = Some r2 →
    is_live (r_status r1) = true → is_live (r_status r2) = true →
    s_name (r_spec r1) = s_name (r_spec r2) → k1 = k2.

(** Fewer agents, or the same ones tamely changed, stay distinct. *)
Lemma names_distinct_shrink reg reg' :
  (∀ k r', agents reg' !! k = Some r' → ∃ r, agents reg !! k = Some r ∧
     s_name (r_spec r') = s_name (r_spec r) ∧
     (is_live (r_status r') = true → is_live (r_status r) = true)) →
  live_names_distinct reg → live_names_distinct reg'.
Proof.
  intros Hs Hd k1 r1 k2 r2 (s1 & Hs1 & N1 & L1)%Hs (s2 & Hs2 & N2 & L2)%Hs H1 H2 Hn.
  apply (Hd k1 s1 k2 s2); auto. congruence.
Qed.

Lemma elem_of_live reg r :
  r ∈ live reg ↔ is_live (r_status r) = true ∧ ∃ k, agents reg !! k = Some r.
Proof.
  unfold live, all. rewrite list_elem_of_filter, elem_of_hm_values, Is_true_true. done.
Qed.

Lemma insert_agents reg r reg' : insert reg r = Ok reg' →
  agents reg' = <[ r_id r := r ]> (agents reg) ∧
  (is_live (r_status r) = true → ∀ x, x ∈ live reg → s_name (r_spec x) ≠ s_name (r_spec r)).
Proof.
  unfold insert. destruct (contains_key _ _); [done|].
  destruct (is_live (r_status r) && _) eqn:E; [done|]. intros [= <-]. split; [done|].
  intros Hl x Hx Hn. rewrite Hl in E. simpl in E. apply not_true_iff_false in E. apply E.
  apply existsb_exists. exists x. rewrite Hn, eqb_refl. by rewrite <-list_elem_of_In.
Qed.

Lemma names_distinct_insert reg r reg' :
  wf reg → insert reg r = Ok reg' → live_names_distinct reg → live_names_distinct reg'.
Proof.
  intros Hwf Hi Hd. destruct (insert_agents _ _ _ Hi) as [Hag Hfree].
  intros k1 r1 k2 r2. rewrite Hag.
  intros [[<- <-]|[N1 H1]]%lookup_insert_Some [[<- <-]|[N2 H2]]%lookup_insert_Some L1 L2 Hn.
  - done.
  - destruct (Hfree L1 r2); [|done]. apply elem_of_live. eauto.
  - destruct (Hfree L2 r1); [|done]. apply elem_of_live. eauto.
  - by apply (Hd k1 r1 k2 r2).
Qed.

Lemma names_distinct_step reg reg' :
  wf reg → step tame reg reg' → live_names_distinct reg → live_names_distinct reg'.
Proof.
  intros Hwf Hs. destruct Hs as [reg r reg' Hi|reg id f Hid Hf|reg|reg l reg' Hr
    |reg a c reg' r Hr|reg l c reg' rs Hr|reg id].
  - by apply names_distinct_insert with r.
  - apply names_distinct_shrink. intros k r'. unfold get_mut.
    destruct (agents reg !! canonical_id reg id) as [r|] eqn:E; simpl; [|eauto].
    intros [[<- <-]|[Hne Hk]]%lookup_insert_Some; [|eauto]. exists r. split; [done|]. apply Hf.
  - done.
  - unfold restore_aliases in Hr. destruct (check_aliases _ _ _); [|done].
    by injection Hr as <-.
  - apply names_distinct_shrink. intros k r'. revert Hr. unfold retire_into.
    repeat (case_match; try done). intros [= <- <-]. simpl.
    intros [_ Hk]%lookup_delete_Some. eauto.
  - apply names_distinct_shrink. intros k r'. revert Hr. intros Hr. pose proof Hr as Hr'.
    unfold fold_into in Hr. destruct (contains_key (agents reg) c) eqn:E1; simpl in Hr; [|done].
    apply contains_key_true in E1.
    destruct (check_retired reg c ∅ l) as [[]|] eqn:E2; [|done]. clear Hr.
    destruct (fold_into_ok reg l c Hwf E1 E2) as (? & ? & Hf2 & _ & _ & Hag & _).
    rewrite Hr' in Hf2. injection Hf2 as <- <-. rewrite Hag. case_match; [done|]. eauto.
  - apply names_distinct_shrink. simpl. intros k r' [_ Hk]%lookup_delete_Some. eauto.
Qed.

Lemma names_distinct_reachable reg :
  rtc (step tame) new reg → live_names_distinct reg.
Proof.
  intros H. eapply (rtc_invariant (step tame) (λ r, wf r ∧ live_names_distinct r)); [| |done].
  - intros a b Hs []. eauto using reg_wf_step, names_distinct_step.
  - split; [apply reg_wf_new|]. intros k1 r1 k2 r2. simpl. by rewrite lookup_empty.
Qed.
End Histories.

(** *** Resolution and listing *)

Section Reading.
Context `{HO : !HashOrder string AgentRecord} {V5 : Uuid}.

Lemma elem_of_all reg r : wf reg → r ∈ all reg ↔ agents reg !! r_id r = Some r.
Proof.
  intros Hwf. unfold all. rewrite elem_of_hm_values. split; [|eauto].
  intros [k Hk]. by rewrite (wf_ids _ Hwf k r Hk).
Qed.

(** A filtered listing of the map that can only hold one record. *)
Lemma filter_all_one (P : AgentRecord → Prop) `{!∀ r, Decision (P r)} reg r :
  wf reg → agents reg !! r_id r = Some r → P r →
  (∀ x, agents reg !! r_id x = Some x → P x → r_id x = r_id r) →
  filter P (all reg) = [r].
Proof.
  intros Hwf Hr HP Huniq. symmetry. apply Permutation_singleton_l.
  apply NoDup_Permutation.
  - apply NoDup_singleton.
  - unfold all, hm_values. apply NoDup_filter. rewrite hm_iter_perm.
    apply NoDup_fmap_2_strong; [|apply NoDup_map_to_list].
    intros [k1 x1] [k2 x2] H1%elem_of_map_to_list H2%elem_of_map_to_list. simpl. intros ->.
    by rewrite <-(wf_ids _ Hwf _ _ H1), <-(wf_ids _ Hwf _ _ H2).
  - intros x. rewrite list_elem_of_singleton, list_elem_of_filter, elem_of_all by done. split.
    + by intros ->.
    + intros [HPx Hx]. pose proof (Huniq x Hx HPx) as E. rewrite E in Hx. congruence.
Qed.

Lemma singleton_elem {A} (l : list A) x : l = [x] → x ∈ l.
Proof. intros ->. left. Qed.

Lemma resolve_role_record reg role project id :
  wf reg → resolve_role reg role project = Ok id → is_Some (agents reg !! id).
Proof.
  intros Hwf. unfold resolve_role. case_match; [done|].
  destruct (holders reg role project) as [|one [|]] eqn:E; try done. intros [= <-].
  apply singleton_elem in E. unfold holders in E.
  rewrite !list_elem_of_filter in E. destruct E as (_ & _ & E).
  apply elem_of_live in E as [_ [k Hk]]. rewrite (wf_ids _ Hwf _ _ Hk). eauto.
Qed.

Lemma resolve_name_record reg reference id :
  wf reg → resolve_name reg reference = Ok id → is_Some (agents reg !! id).
Proof.
  intros Hwf. unfold resolve_name.
  destruct (filter (λ a, is_live _) _) as [|one [|]] eqn:E; try done.
  - destruct (sort_by_key _ _) as [|latest l] eqn:Es.
    + unfold resolve_prefix. destruct (filter _ (hm_keys _)) as [|k [|]] eqn:Ek; try done.
      intros [= <-]. apply singleton_elem, list_elem_of_filter in Ek as [_ Ek].
      by apply elem_of_hm_keys in Ek.
    + intros [= <-]. assert (latest ∈ sort_by_key (λ a, Rev (r_created_at a))
        (filter (λ a, s_name (r_spec a) == reference) (all reg))) as Hin by (rewrite Es; left).
      rewrite elem_of_sort_by_key, list_elem_of_filter in Hin. destruct Hin as [_ Hin].
      apply elem_of_all in Hin; [|done]. eauto.
  - intros [= <-]. apply singleton_elem in E. rewrite !list_elem_of_filter in E.
    destruct E as (_ & _ & E). apply elem_of_all in E; [|done]. eauto.
Qed.

Lemma listing_key_inj a b : listing_key a = listing_key b → r_id a = r_id b.
Proof. unfold listing_key. congruence. Qed.

Lemma elem_of_matching reg all_ project labels r :
  wf reg →
  r ∈ matching reg all_ project labels ↔
  agents reg !! r_id r = Some r ∧ (all_ || is_live (r_status r)) = true ∧
  in_project project r = true ∧ has_labels labels r = true.
Proof.
  intros Hwf. unfold matching. rewrite elem_of_sort_by_key, !list_elem_of_filter, elem_of_all by done.
  rewrite !Is_true_true. naive_solver.
Qed.
End Reading.
End RegistryFacts.

(** ** Properties *)

Module RegistryProps.
Import Reg RegistryFacts.

(** Any history of the registry from an empty one. *)
Definition any_update (f : AgentRecord → AgentRecord) : Prop := True.

(** C6: whatever operations the registry went through, its alias map is flat:
    a retired id owns no record, its target owns one and is no alias itself,
    so one lookup is enough and resolving twice changes nothing. *)
Theorem aliases_stay_flat `{HO : !HashOrder string AgentRecord} reg :
  rtc (step any_update) new reg →
  (∀ a c, aliases reg !! a = Some c →
     agents reg !! a = None ∧ is_Some (agents reg !! c) ∧ aliases reg !! c = None) ∧
  (∀ id, canonical_id reg (canonical_id reg id) = canonical_id reg id).
Proof.
  intros Hwf%reg_wf_reachable.
  assert (∀ a c, aliases reg !! a = Some c → aliases reg !! c = None) as Hone.
  { intros a c Hac. destruct (wf_flat _ Hwf _ _ Hac) as [_ [r Hr]].
    destruct (aliases reg !! c) as [d|] eqn:E; [|done].
    destruct (wf_flat _ Hwf _ _ E). congruence. }
  split.
  - intros a c Hac. destruct (wf_flat _ Hwf _ _ Hac). eauto.
  - intros id. unfold canonical_id. destruct (aliases reg !! id) as [c|] eqn:E; simpl.
    + by rewrite (Hone id c E).
    + by rewrite E.
Qed.

(** C24: the index of provider blocks is exact in every history: asked for, it
    lists each id whose record carries an active issue once, in order, and no
    other, although only the ids touched since the last question are
    rechecked. *)
Theorem provider_block_index_exact `{HO : !HashOrder string AgentRecord} reg :
  rtc (step any_update) new reg →
  StronglySorted cmp_le (provider_block_ids reg).2 ∧ NoDup (provider_block_ids reg).2 ∧
  ∀ id, id ∈ (provider_block_ids reg).2 ↔ is_some_and blocked (agents reg !! id) = true.
Proof.
  intros Hwf%reg_wf_reachable. split; [apply sort_by_key_sorted|]. split.
  - unfold provider_block_ids, btree_set_iter. simpl. rewrite sort_by_key_perm. apply NoDup_elements.
  - intros id. by apply block_ids_exact.
Qed.

(** as long as nothing renames a record or revives a finished one in
    place, no two live agents share a name, and a live agent is reached by
    its name whenever that name is not an id, a former id or a [role:]
    reference. *)
Theorem live_agent_answers_to_its_name `{HO : !HashOrder string AgentRecord} {V5 : Uuid} reg :
  rtc (step tame) new reg →
  live_names_distinct reg ∧
  ∀ k r, agents reg !! k = Some r → is_live (r_status r) = true →
    let name := s_name (r_spec r) in
    name ≠ "" → strip_prefix ROLE_PREFIX name = None →
    aliases reg !! name = None → agents reg !! name = None →
    resolve reg name = Ok k.
Proof.
  intros Hr. pose proof (reg_wf_reachable _ _ Hr) as Hwf.
  pose proof (names_distinct_reachable _ Hr) as Hd. split; [done|].
  intros k r Hk Hl name Hne Hro Hal Hag. unfold resolve.
  rewrite (proj2 (eqb_false _ _)), Hro, Hal by done.
  rewrite (proj2 (contains_key_false _ _)) by done. unfold resolve_name.
  pose proof (wf_ids _ Hwf _ _ Hk) as <-.
  rewrite list_filter_filter.
  rewrite (filter_all_one _ reg r); [done|done|done| |].
  - rewrite !Is_true_true. by rewrite eqb_refl.
  - intros x Hx [Hxl Hxn]. apply Is_true_true in Hxl, Hxn. split_and_bool.
    by apply (Hd _ x _ r).
Qed.

(** C21: folding a session's former records into one never panics, and when
    accepted it redirects exactly those identities: every id that meant a
    retired record, itself or through an alias, now means the canonical
    one, every other id means what it meant, the retired records come back
    in the order given and no other record changed. *)
Theorem fold_into_redirects_exactly `{HO : !HashOrder string AgentRecord} reg retired canonical :
  rtc (step any_update) new reg →
  match fold_into reg retired canonical with
  | None => False
  | Some (Err _) =>
      agents reg !! canonical = None ∨ ¬ NoDup retired ∨
      ∃ id, id ∈ retired ∧ (id = canonical ∨ agents reg !! id = None)
  | Some (Ok (reg', rs)) =>
      Forall2 (λ id r, agents reg !! id = Some r) retired rs ∧
      (∀ id, canonical_id reg' id =
         if bool_decide (canonical_id reg id ∈ retired) then canonical else canonical_id reg id) ∧
      (∀ k, k ∉ retired → agents reg' !! k = agents reg !! k)
  end.
Proof.
  intros Hwf%reg_wf_reachable.
  destruct (contains_key (agents reg) canonical) eqn:E1; last first.
  { unfold fold_into. rewrite E1. simpl. left. by apply contains_key_false. }
  apply contains_key_true in E1 as Hc.
  destruct (check_retired reg canonical ∅ retired) as [[]|e] eqn:E2.
  - destruct (fold_into_ok reg retired canonical Hwf Hc E2) as (reg' & rs & -> & _ & Hrs & Hag & Hal).
    split; [done|]. split.
    + intros id. unfold canonical_id. rewrite Hal.
      destruct (decide (id ∈ retired)) as [Hin|Hin].
      * rewrite (bool_decide_eq_true_2 (id ∈ retired)) by done. simpl.
        apply check_retired_ok in E2 as [_ Hids]. destruct (Hids id Hin) as (_ & [r Hr] & _).
        destruct (aliases reg !! id) as [c|] eqn:Ea;
          [destruct (wf_flat _ Hwf _ _ Ea); congruence|]. simpl. by rewrite bool_decide_eq_true_2.
      * rewrite (bool_decide_eq_false_2 (id ∈ retired)) by done.
        destruct (aliases reg !! id) as [c|]; simpl; [apply repoint_spec|].
        by rewrite bool_decide_eq_false_2.
    + intros k Hk. rewrite Hag. by rewrite bool_decide_eq_false_2.
  - unfold fold_into. rewrite E1. simpl. rewrite E2. right.
    destruct (decide (NoDup retired)) as [Hnd|]; [right|by left].
    destruct (decide (Forall (λ id, id ≠ canonical ∧ is_Some (agents reg !! id)) retired)) as [Hall|Hn].
    + exfalso. assert (check_retired reg canonical ∅ retired = Ok tt) as Hok; [|congruence].
      apply check_retired_ok. split; [done|]. intros id Hid. rewrite Forall_forall in Hall.
      destruct (Hall id Hid). set_solver.
    + apply not_Forall_Exists in Hn; [|apply _]. apply Exists_exists in Hn as (id & Hid & Hn).
      exists id. split; [done|]. destruct (decide (id = canonical)) as [|Hne]; [by left|right].
      destruct (agents reg !! id) eqn:E; [|done]. destruct Hn. simpl. eauto.
Qed.

(** what a reference resolves to is always a record: an exact id, a
    former id, a name, a prefix or a role never leads to an id that owns
    none. *)
Theorem resolve_yields_a_record `{HO : !HashOrder string AgentRecord} {V5 : Uuid} reg reference id :
  rtc (step any_update) new reg → resolve reg reference = Ok id → is_Some (agents reg !! id).
Proof.
  intros Hwf%reg_wf_reachable. unfold resolve. case_match; [done|].
  destruct (strip_prefix _ _); [by apply resolve_role_record|].
  destruct (aliases reg !! reference) as [c|] eqn:E.
  { intros [= <-]. by destruct (wf_flat _ Hwf _ _ E). }
  destruct (contains_key _ _) eqn:Ek; [|by apply resolve_name_record].
  intros [= <-]. by apply contains_key_true.
Qed.

(** a listing is deterministic and complete: it holds exactly the records
    that pass every filter, ordered by project, creation time and id with
    projectless agents last, and does not depend on the order in which the
    hash map is walked. *)
Theorem listing_deterministic {V5 : Uuid} (HO HO' : HashOrder string AgentRecord)
    reg all_ project labels :
  rtc (step (HO := HO) any_update) new reg →
  matching (HO := HO) reg all_ project labels = matching (HO := HO') reg all_ project labels ∧
  StronglySorted (λ a b, cmp_le (listing_key a) (listing_key b)) (matching (HO := HO) reg all_ project labels) ∧
  ∀ r, r ∈ matching (HO := HO) reg all_ project labels ↔
    agents reg !! r_id r = Some r ∧ (all_ || is_live (r_status r)) = true ∧
    in_project project r = true ∧ has_labels labels r = true.
Proof.
  intros Hwf%reg_wf_reachable. split; [|split].
  - unfold matching. apply sort_by_key_order_independent.
    + assert (all (HO := HO) reg ≡ₚ all (HO := HO') reg) as ->; [|done].
      unfold all, hm_values. by rewrite !hm_iter_perm.
    + intros a b Ha Hb Hk%listing_key_inj. rewrite !list_elem_of_filter in Ha, Hb.
      destruct Ha as (_ & _ & _ & Ha), Hb as (_ & _ & _ & Hb).
      apply elem_of_all in Ha, Hb; try done. congruence.
  - apply sort_by_key_sorted.
  - intros r. by apply elem_of_matching.
Qed.

(** *** Witnesses *)

Definition w_order : HashOrder string AgentRecord := canonical_order.
Definition w_uuid : Uuid := {| new_v5_url := λ root, ("u" ++ root)%string |}.

Definition w_spec (name : string) : AgentSpec :=
  mkSpec name "codex" None None [] None ∅ ∅ false false false false RNo [].
Definition w_rec (id name : string) (st : AgentStatus) : AgentRecord :=
  with_status (record_new id (w_spec name) false 7) st.
Definition w_add (reg : Registry) (r : AgentRecord) : Registry :=
  match insert (HO := w_order) reg r with Ok reg' => reg' | Err _ => reg end.
Definition w_reg : Registry :=
  w_add (w_add new (w_rec "b2" "bob" (Exited (Some 0)))) (w_rec "a1" "ada" Running).
Definition w_folded : Registry :=
  match fold_into w_reg ["b2"] "a1" with Some (Ok (reg, _)) => reg | _ => w_reg end.

Lemma w_reg_reachable only : rtc (step (HO := w_order) only) new w_reg.
Proof.
  eapply rtc_l; [apply (step_insert _ _ (w_rec "b2" "bob" (Exited (Some 0)))); by vm_compute|].
  eapply rtc_once, (step_insert _ _ (w_rec "a1" "ada" Running)). by vm_compute.
Defined.

Lemma w_folded_reachable only : rtc (step (HO := w_order) only) new w_folded.
Proof.
  eapply rtc_r; [apply w_reg_reachable|].
  eapply (step_fold _ _ ["b2"] "a1" _ [w_rec "b2" "bob" (Exited (Some 0))]). by vm_compute.
Defined.

Lemma aliases_stay_flat_witness :
  aliases w_folded !! "b2" = Some "a1" ∧
  ((∀ a c, aliases w_folded !! a = Some c →
     agents w_folded !! a = None ∧ is_Some (agents w_folded !! c) ∧ aliases w_folded !! c = None) ∧
   (∀ id, canonical_id w_folded (canonical_id w_folded id) = canonical_id w_folded id)).
Proof.
  split; [by vm_compute|].
  exact (aliases_stay_flat (HO := w_order) w_folded (w_folded_reachable any_update)).
Defined.

Lemma provider_block_index_exact_witness :
  StronglySorted cmp_le (provider_block_ids w_folded).2 ∧ NoDup (provider_block_ids w_folded).2 ∧
  ∀ id, id ∈ (provider_block_ids w_folded).2 ↔ is_some_and blocked (agents w_folded !! id) = true.
Proof.
  exact (provider_block_index_exact (HO := w_order) w_folded (w_folded_reachable any_update)).
Defined.

Lemma live_agent_answers_to_its_name_witness :
  resolve (HO := w_order) (V5 := w_uuid) w_folded "ada" = Ok "a1".
Proof.
  destruct (live_agent_answers_to_its_name (HO := w_order) (V5 := w_uuid) w_folded
              (w_folded_reachable tame)) as [_ H].
  apply (H "a1" (w_rec "a1" "ada" Running)); by vm_compute.
Defined.

Lemma fold_into_redirects_exactly_witness :
  canonical_id w_folded "b2" = "a1" ∧
  match fold_into w_reg ["b2"] "a1" with
  | None => False
  | Some (Err _) => False
  | Some (Ok (reg', rs)) => Forall2 (λ id r, agents w_reg !! id = Some r) ["b2"] rs
  end.
Proof.
  split; [by vm_compute|].
  pose proof (fold_into_redirects_exactly (HO := w_order) w_reg ["b2"] "a1"
                (w_reg_reachable any_update)) as H.
  assert (∃ p, fold_into w_reg ["b2"] "a1" = Some (Ok p)) as [[reg' rs] E]
    by (eexists; by vm_compute).
  rewrite E in *. apply H.
Defined.

Lemma resolve_yields_a_record_witness :
  resolve (HO := w_order) (V5 := w_uuid) w_folded "b2" = Ok "a1" ∧ is_Some (agents w_folded !! "a1").
Proof.
  split; [by vm_compute|].
  apply (resolve_yields_a_record (HO := w_order) (V5 := w_uuid) w_folded "b2" "a1").
  - apply w_folded_reachable.
  - by vm_compute.
Defined.

Lemma listing_deterministic_witness :
  matching (HO := w_order) (V5 := w_uuid) w_reg true None ∅
    = [w_rec "a1" "ada" Running; w_rec "b2" "bob" (Exited (Some 0))] ∧
  StronglySorted (λ a b, cmp_le (listing_key (V5 := w_uuid) a) (listing_key (V5 := w_uuid) b))
    (matching (HO := w_order) (V5 := w_uuid) w_reg true None ∅).
Proof.
  split; [by vm_compute|].
  apply (listing_deterministic (V5 := w_uuid) w_order w_order w_reg true None ∅).
  apply w_reg_reachable.
Defined.
End RegistryProps.
