(* ===== verification/Identity.v ===== *)
(** * One session, one identity

    [crates/core/src/identity.rs]: when two records are one provider session,
    which of them stays, which ended records a registration is the return of,
    and when an ended session can be brought back. *)

From Stdlib Require Import Ascii.
From S2P Require Import Prelude RustStr Order Input Agent.

Local Open Scope string_scope.
Local Open Scope Z_scope.
Local Open Scope rust_scope.

Definition session_id (r : AgentRecord) : option string :=
  match label r "session_id" with
  | Some id => if id == "" then None else Some id
  | None => None
  end.

(** [matches!((&a, &b), (Some(one), Some(other)) if one == other)] on paths. *)
Definition both_same_path (a b : option string) : bool :=
  match a, b with Some one, Some other => path_eqb one other | _, _ => false end.

(** Equality of two [Option<PathBuf>]. *)
Definition opt_path_eqb (a b : option string) : bool :=
  match a, b with
  | Some one, Some other => path_eqb one other
  | None, None => true
  | _, _ => false
  end.

Section Identity.
Context {V5 : Uuid}.

Definition project_of (r : AgentRecord) : option string := project_id <$> r_project r.

Definition same_registration (a b : AgentRecord) : bool :=
  is_some (r_pid b)
  && is_some (r_process_started_at b)
  && (r_pid a == r_pid b)
  && (r_process_started_at a == r_process_started_at b)
  && (s_runtime (r_spec a) == s_runtime (r_spec b))
  && (project_of a == project_of b)
  && match session_id a, session_id b with
     | Some one, Some other => one == other
     | _, _ => both_same_path (s_workdir (r_spec a)) (s_workdir (r_spec b))
     end.

Definition same_live_session (a b : AgentRecord) : bool :=
  (r_id a != r_id b)
  && is_live (r_status a)
  && is_live (r_status b)
  && is_some (session_id a)
  && is_some (session_id b)
  && same_registration a b.
End Identity.

Definition receives_input (r : AgentRecord) : bool :=
  is_some (r_input_binding r)
  || is_some_and (λ d, Some (id_process_started_at d) == r_process_started_at r) (r_input_delivery r).

Definition keeper_rank (held : AgentRecord → bool) (r : AgentRecord) : bool * (bool * (Z * string)) :=
  (negb (held r), (negb (receives_input r), (r_created_at r, r_id r))).

Definition keeper (records : list AgentRecord) (held : AgentRecord → bool) : option AgentRecord :=
  min_by_key (keeper_rank held) records.

(** ** Repairing a pair *)

(** The evidence one record of the pair must carry; [None] when it does. *)
Definition pair_refusal (r : AgentRecord) : option string :=
  if is_some_and (λ p, is_some (pa_issue p)) (r_provider_availability r)
  then Some "resolve provider availability before reconciling these records"
  else if negb (is_some_and (λ pid, (0 <? pid) && (pid <=? 2 ^ 31 - 1)) (r_pid r))
          || is_none (r_project r)
          || negb (is_some_and is_absolute (s_workdir (r_spec r)))
  then Some "physical process and checkout evidence is incomplete"
  else if (r_host r != "local") || r_managed r || is_some (r_container r)
          || s_tty (r_spec r) || s_in_pane (r_spec r) || s_restore (r_spec r)
          || negb (is_no (s_restart (r_spec r))) || is_some (r_process_group r)
  then Some "managed, remote or restorable ownership requires a separate transfer"
  else if negb ((s_runtime (r_spec r) == "claude-code") || (s_runtime (r_spec r) == "codex"))
  then Some "this provider does not have established session identity evidence"
  else None.

Definition hook_or_mcp (v : string) : bool := (v == "hook") || (v == "mcp").

Definition label_conflict (b : AgentRecord) (e : string * string) : bool :=
  let '(key, value) := e in
  match label b key with
  | Some other =>
      let adapter_provenance := (key == "via") && hook_or_mcp value && hook_or_mcp other in
      (value != other) && negb adapter_provenance
      && negb ((key == "session_id") && ((value == "") || (other == "")))
  | None => false
  end.

(** [Iterator::find]. *)
Fixpoint find_first {A} (p : A → bool) (l : list A) : option A :=
  match l with
  | [] => None
  | x :: l => if p x then Some x else find_first p l
  end.

Section Repair.
Context {V5 : Uuid}.

Definition repair_pair (records : list AgentRecord) (kept retired : string) : result () string :=
  if kept == retired then Err "choose two different records"
  else match find_first (λ a, r_id a == kept) records with
  | None => Err "canonical record is missing"
  | Some a =>
    match find_first (λ a, r_id a == retired) records with
    | None => Err "retired record is missing"
    | Some b =>
      if negb (same_registration a b)
      then Err "process birth, runtime, session or physical checkout does not match"
      else if is_none (session_id a) && is_none (session_id b)
      then Err "neither record identifies the provider session"
      else match pair_refusal a with
      | Some e => Err e
      | None =>
        match pair_refusal b with
        | Some e => Err e
        | None =>
          if existsb (λ c, (r_id c != kept) && (r_id c != retired)
                           && (same_registration a c || same_registration b c)) records
          then Err "another stored session makes the identity ambiguous"
          else if existsb (label_conflict b) (btree_iter (s_labels (r_spec a)))
          then Err "the records carry conflicting identity labels"
          else Ok tt
        end
      end
    end
  end.
End Repair.

(** ** Coming back *)

Definition resumable (r : AgentRecord) : bool :=
  (r_host r == "local")
  && negb (r_managed r)
  && is_none (r_container r)
  && negb (s_tty (r_spec r))
  && negb (s_in_pane (r_spec r))
  && negb (s_restore (r_spec r))
  && is_no (s_restart (r_spec r))
  && is_none (r_input_binding r).

Definition known_provider (runtime : string) : bool :=
  (runtime == "claude-code") || (runtime == "codex").

Section Resumed.
Context {V5 : Uuid}.

Definition resumed_session (records : list AgentRecord) (fresh : AgentRecord) : list AgentRecord :=
  match session_id fresh with
  | None => []
  | Some session =>
      if negb (resumable fresh) || negb (known_provider (s_runtime (r_spec fresh))) then []
      else match project_of fresh with
      | None => []
      | Some project =>
        match s_workdir (r_spec fresh) with
        | None => []
        | Some checkout =>
          if negb (is_absolute checkout) then []
          else
            sort_by_key (λ r, (Rev (r_finished_at r), Rev (r_id r)))
              (filter (λ prior,
                 ((r_id prior != r_id fresh) && negb (is_live (r_status prior)))
                 && (session_id prior == Some session)
                 && (s_runtime (r_spec prior) == s_runtime (r_spec fresh))
                 && (project_of prior == Some project)
                 && opt_path_eqb (s_workdir (r_spec prior)) (Some checkout)
                 && resumable prior) records)
        end
      end
  end.
End Resumed.

Definition session_byte (a : ascii) : bool :=
  is_ascii_alphanumeric a || Ascii.eqb a "-" || Ascii.eqb a "_".

Definition plain_session_id (id : string) : bool :=
  match id with
  | "" => false
  | String a _ =>
      (Nat.leb (String.length id) 128) && is_ascii_alphanumeric a && sforall session_byte id
  end.

(** [command.windows(2).any(|pair| pair[0] == flag && pair[1] == value)]. *)
Fixpoint has_pair (flag value : string) (command : list string) : bool :=
  match command with
  | x :: (y :: _) as rest => ((x == flag) && (y == value)) || has_pair flag value rest
  | _ => false
  end.

Definition relaunch_check (ended : AgentRecord) (launch : AgentSpec) : result () string :=
  if is_live (r_status ended)
  then Err "the session is still live; a live session is not relaunched"
  else if (r_host ended != "local") || is_some (r_container ended)
  then Err "only a session on this host, outside a container, is relaunched here"
  else if is_some (r_input_binding ended)
  then Err "the session still has an input binding; release it first"
  else match session_id ended with
  | None => Err "the session has no conversation id to resume"
  | Some session =>
    if negb (plain_session_id session)
    then Err "the session's conversation id is not a plain identifier"
    else if s_runtime (r_spec ended) != "claude-code"
    then Err "only a Claude Code session is relaunched here"
    else if s_runtime launch != s_runtime (r_spec ended)
    then Err "the launch is for another runtime than the session's"
    else if s_in_pane launch || s_isolate launch || s_restore launch
    then Err "the launch must be a plain process, not paned, isolated or restored"
    else match s_workdir launch, s_workdir (r_spec ended) with
    | _, None => Err "the session has no checkout to resume in"
    | Some new, Some old =>
        if negb (path_eqb new old) then Err "the launch must run in the session's own checkout"
        else if negb (has_pair "--resume" session (s_command launch))
        then Err "the launch must resume the session's own conversation (--resume <id>)"
        else Ok tt
    | None, Some _ => Err "the launch must run in the session's own checkout"
    end
  end.

Definition resumes_from_a_terminal (r : AgentRecord) : bool :=
  resumable r
  && is_some_and plain_session_id (session_id r)
  && is_some (r_project r)
  && is_some_and is_absolute (s_workdir (r_spec r)).

Definition relaunches_here (r : AgentRecord) : bool :=
  (r_host r == "local")
  && is_none (r_container r)
  && is_none (r_input_binding r)
  && (s_runtime (r_spec r) == "claude-code")
  && is_some_and plain_session_id (session_id r)
  && is_some (s_workdir (r_spec r)).

(** ** Facts *)

Module IdentityFacts.
Lemma path_eqb_sym p q : path_eqb p q = path_eqb q p.
Proof. apply eqb_sym. Qed.

Lemma path_eqb_refl p : path_eqb p p = true.
Proof. apply eqb_refl. Qed.

Lemma both_same_path_sym a b : both_same_path a b = both_same_path b a.
Proof. destruct a, b; try done. apply path_eqb_sym. Qed.

Section WithUuid.
Context {V5 : Uuid}.

Lemma same_registration_true a b :
  same_registration a b = true ↔
  is_Some (r_pid b) ∧ is_Some (r_process_started_at b) ∧ r_pid a = r_pid b ∧
  r_process_started_at a = r_process_started_at b ∧
  s_runtime (r_spec a) = s_runtime (r_spec b) ∧ project_of a = project_of b ∧
  match session_id a, session_id b with
  | Some one, Some other => one = other
  | _, _ => both_same_path (s_workdir (r_spec a)) (s_workdir (r_spec b)) = true
  end.
Proof.
  unfold same_registration. rewrite !andb_true_iff, !eqb_true.
  assert (∀ A (o : option A), is_some o = true ↔ is_Some o) as Hs.
  { intros A [x|]; split; [eauto|done|done|by intros []]. }
  rewrite !Hs. destruct (session_id a), (session_id b); rewrite ?eqb_true; naive_solver.
Qed.

Lemma same_registration_sym a b : same_registration a b = same_registration b a.
Proof.
  apply eq_bool_prop_intro. rewrite !Is_true_true.
  assert (∀ a b, same_registration a b = true → same_registration b a = true) as Hs; [|split; apply Hs].
  clear. intros a b. rewrite !same_registration_true.
  intros (Hp & Hb & Ep & Eb & Er & Ej & Hm). rewrite Ep, Eb.
  do 6 (split; [done|]).
  destruct (session_id a), (session_id b); try done; by rewrite both_same_path_sym.
Qed.

Lemma find_first_Some {A} (p : A → bool) l x : find_first p l = Some x → x ∈ l ∧ p x = true.
Proof.
  induction l as [|y l IH]; [done|]. simpl. destruct (p y) eqn:E.
  - intros [= <-]. split; [left|done].
  - intros [? ?]%IH. split; [by right|done].
Qed.

Lemma hook_sym k v o :
  ((k == "via") && hook_or_mcp v && hook_or_mcp o) = ((k == "via") && hook_or_mcp o && hook_or_mcp v).
Proof. by destruct (k == "via"), (hook_or_mcp v), (hook_or_mcp o). Qed.

Lemma conflicts_sym a b :
  existsb (label_conflict b) (btree_iter (s_labels (r_spec a))) = true →
  existsb (label_conflict a) (btree_iter (s_labels (r_spec b))) = true.
Proof.
  rewrite !existsb_exists. intros ([k v] & Hin%list_elem_of_In & Hc).
  apply elem_of_btree_iter in Hin. unfold label_conflict in Hc.
  destruct (label b k) as [o|] eqn:Eo; [|done]. exists (k, o). split.
  { by apply list_elem_of_In, elem_of_btree_iter. }
  unfold label_conflict, label. rewrite Hin. rewrite eqb_sym, hook_sym, (orb_comm (o == "")). done.
Qed.

Local Ltac no_pair :=
  split; [done|]; intros (? & ? & ? & ? & ? & ? & ? & ? & ? & ? & ?); simplify_eq; congruence.

Lemma repair_pair_ok records kept retired :
  repair_pair records kept retired = Ok tt ↔
  kept ≠ retired ∧ ∃ a b,
    find_first (λ a, r_id a == kept) records = Some a ∧
    find_first (λ a, r_id a == retired) records = Some b ∧
    same_registration a b = true ∧ (is_none (session_id a) && is_none (session_id b)) = false ∧
    pair_refusal a = None ∧ pair_refusal b = None ∧
    (∀ c, c ∈ records → r_id c ≠ kept → r_id c ≠ retired →
       same_registration a c = false ∧ same_registration b c = false) ∧
    existsb (label_conflict b) (btree_iter (s_labels (r_spec a))) = false.
Proof.
  unfold repair_pair. destruct (kept == retired) eqn:E; split_and_bool; [no_pair|].
  destruct (find_first (λ a, r_id a == kept) records) as [a|]; [|no_pair].
  destruct (find_first (λ a, r_id a == retired) records) as [b|]; [|no_pair].
  destruct (same_registration a b) eqn:Es; [simpl|simpl; no_pair].
  destruct (is_none _ && is_none _) eqn:En; [no_pair|].
  destruct (pair_refusal a) eqn:Ea; [no_pair|].
  destruct (pair_refusal b) eqn:Eb; [no_pair|].
  match goal with |- context [existsb ?f records] => destruct (existsb f records) eqn:Ex end.
  - split; [done|]. intros (_ & a' & b' & [= <-] & [= <-] & _ & _ & _ & _ & Hno & _).
    apply existsb_exists in Ex as (c & Hc%list_elem_of_In & Hcond). split_and_bool.
    destruct (Hno c) as [N1 N2]; [done..|]. by rewrite N1, N2 in *.
  - destruct (existsb (label_conflict b) _) eqn:El; [no_pair|]. split; [|done]. intros _.
    split; [done|]. exists a, b. do 6 (split; [done|]). split; [|done].
    intros c Hc H1 H2. apply orb_false_iff, not_true_iff_false. intros Ht.
    apply not_true_iff_false in Ex. apply Ex, existsb_exists. exists c.
    rewrite (proj2 (eqb_false _ _)), (proj2 (eqb_false _ _)), Ht by done.
    split; [by apply list_elem_of_In|done].
Qed.
End WithUuid.
End IdentityFacts.

(** ** Properties *)

Module IdentityProps.
Import IdentityFacts.

(** of the records of one session the one that stays does not depend on
    the order they are given in, exists whenever there is any, and is one
    that a transport holds or an input receiver serves if any is. *)
Theorem keeper_order_independent l k held :
  NoDup (r_id <$> l) → l ≡ₚ k →
  keeper l held = keeper k held ∧
  (l ≠ [] → ∃ m, keeper l held = Some m ∧ m ∈ l ∧
     (∀ r, r ∈ l → held r = true → held m = true) ∧
     (∀ r, r ∈ l → held m = held r → receives_input r = true → receives_input m = true)).
Proof.
  intros Hnd Hp. unfold keeper. split.
  - apply min_by_key_order_independent; [done|]. intros a b Ha Hb Hk.
    assert (r_id a = r_id b) as Hid by (unfold keeper_rank in Hk; congruence).
    apply list_elem_of_lookup in Ha as [i Hi], Hb as [j Hj].
    assert (i = j) as ->; [|congruence].
    eapply (NoDup_lookup (r_id <$> l)); [done|by rewrite list_lookup_fmap, Hi|].
    by rewrite list_lookup_fmap, Hj, Hid.
  - intros Hne. destruct (min_by_key (keeper_rank held) l) as [m|] eqn:E.
    + exists m. apply min_by_key_Some in E as [Hm Hle]. split; [done|]. split; [done|].
      split; intros r Hr; specialize (Hle r Hr); revert Hle; unfold cmp_le, keeper_rank;
        simpl; unfold prod_cmp; simpl; unfold prod_cmp; simpl.
      * intros Hle Hh. rewrite Hh in Hle. by destruct (held m).
      * intros Hle Hh Hi. rewrite Hh, Hi in Hle. destruct (held r), (receives_input m); done.
    + by apply min_by_key_None in E.
Qed.

Definition w_agent (id : string) (at_ : instant) (labels : gmap string string) : AgentRecord :=
  record_new id (mkSpec "n" "claude-code" None None [] (Some "/w") ∅ labels false false false false RNo [])
    false at_.

Lemma keeper_order_independent_witness :
  keeper [w_agent "a" 3 ∅; w_agent "b" 1 ∅] (λ _, false)
    = keeper [w_agent "b" 1 ∅; w_agent "a" 3 ∅] (λ _, false) ∧
  keeper [w_agent "a" 3 ∅; w_agent "b" 1 ∅] (λ _, false) = Some (w_agent "b" 1 ∅).
Proof.
  split; [|by vm_compute].
  apply (keeper_order_independent [w_agent "a" 3 ∅; w_agent "b" 1 ∅] [w_agent "b" 1 ∅; w_agent "a" 3 ∅]
           (λ _, false)).
  - by apply (bool_decide_unpack _); vm_compute.
  - apply perm_swap.
Defined.

(** reconciling two records is symmetric and closed: a pair accepted one
    way round is accepted the other, and an accepted pair is the same
    registration with no third stored record registered as either of them. *)
Theorem repair_pair_symmetric_and_closed {V5 : Uuid} records kept retired :
  repair_pair records kept retired = Ok tt →
  repair_pair records retired kept = Ok tt ∧
  ∃ a b, a ∈ records ∧ b ∈ records ∧ r_id a = kept ∧ r_id b = retired ∧
    same_registration a b = true ∧
    ∀ c, c ∈ records → r_id c ≠ kept → r_id c ≠ retired →
      same_registration a c = false ∧ same_registration b c = false.
Proof.
  rewrite !repair_pair_ok.
  intros (Hne & a & b & Ha & Hb & Hs & Hn & Hra & Hrb & Hno & Hlab). split.
  - split; [done|]. exists b, a. split; [done|]. split; [done|].
    rewrite same_registration_sym, andb_comm. do 4 (split; [done|]). split.
    + intros c Hc H1 H2. destruct (Hno c Hc H2 H1). done.
    + apply not_true_iff_false. intros Hc%conflicts_sym. congruence.
  - apply find_first_Some in Ha as [Ha Ea], Hb as [Hb Eb]. split_and_bool.
    exists a, b. naive_solver.
Qed.

Definition w_uuid : Uuid := {| new_v5_url := λ root, ("u" ++ root)%string |}.
Definition w_registered (id via : string) : AgentRecord :=
  {| r_id := id;
     r_spec := mkSpec id "codex" None None [] (Some "/w") ∅ {[ "session_id" := "s1"; "via" := via ]}
                 false false false false RNo [];
     r_status := Running; r_host := "local"; r_pid := Some 42; r_process_started_at := Some 1;
     r_process_group := None; r_managed := false; r_session := None; r_terminal := None;
     r_restarts := 0; r_stop_requested := None; r_container := None; r_owner := None;
     r_project := Some (project_directory "/w"); r_vcs := None; r_created_at := 2;
     r_started_at := None; r_finished_at := None; r_last_seen := 2; r_reported_activity := None;
     r_input_delivery := None; r_provider_availability := None; r_adapter_contacts := ∅;
     r_queue_read := None; r_session_contact := None; r_input_binding := None;
     r_legacy_offers := ∅; r_judged := None; r_thread := None |}.

Lemma repair_pair_symmetric_and_closed_witness :
  repair_pair (V5 := w_uuid) [w_registered "a" "hook"; w_registered "b" "mcp"] "b" "a" = Ok tt.
Proof.
  apply (repair_pair_symmetric_and_closed (V5 := w_uuid)
           [w_registered "a" "hook"; w_registered "b" "mcp"] "a" "b"). by vm_compute.
Defined.

(** the question asked of a record alone is the question a launch will be
    asked: an ended record says it relaunches here exactly when some launch
    passes the relaunch check for it. *)
Theorem relaunches_here_iff_some_launch r :
  is_live (r_status r) = false →
  relaunches_here r = true ↔ ∃ launch, relaunch_check r launch = Ok tt.
Proof.
  intros Hl. unfold relaunches_here, relaunch_check. rewrite Hl. split.
  - intros H. split_and_bool.
    destruct (session_id r) as [session|]; [|done].
    destruct (s_workdir (r_spec r)) as [w|]; [|done]. simpl in *.
    exists (mkSpec "" "claude-code" None None ["--resume"; session] (Some w) ∅ ∅
              false false false false RNo []).
    destruct (r_container r); [done|]. destruct (r_input_binding r); [done|].
    repeat match goal with H : ?x = ?y |- _ => rewrite H; clear H end.
    simpl. rewrite !eqb_refl, path_eqb_refl. done.
  - intros [launch H].
    destruct (r_host r == "local"); [|done].
    destruct (r_container r); [done|]. destruct (r_input_binding r); [done|]. simpl in *.
    destruct (session_id r) as [session|]; [|done]. simpl.
    destruct (plain_session_id session); [|done].
    destruct (s_runtime (r_spec r) == "claude-code"); [|done]. simpl in *.
    destruct (s_workdir (r_spec r)); [done|].
    repeat (case_match; try done).
Qed.

Lemma relaunches_here_iff_some_launch_witness :
  relaunches_here (with_status (w_agent "a" 1 {[ "session_id" := "s1" ]}) (Exited None)) = true ∧
  ∃ launch, relaunch_check (with_status (w_agent "a" 1 {[ "session_id" := "s1" ]}) (Exited None)) launch
            = Ok tt.
Proof.
  assert (relaunches_here (with_status (w_agent "a" 1 {[ "session_id" := "s1" ]}) (Exited None)) = true)
    as H by (by vm_compute).
  split; [done|].
  apply (relaunches_here_iff_some_launch
           (with_status (w_agent "a" 1 {[ "session_id" := "s1" ]}) (Exited None))); [done|exact H].
Defined.
End IdentityProps.
