(* ===== verification/Readiness.v ===== *)
(** * Whether an agent can take a message now, and the one fix

    [provider.rs] (blocks and their reach), the two functions of [input.rs]
    that read a record ([unreachable], [InputReadiness::for_agent]),
    [readiness.rs] (the one decision), [delivery.rs] (where a message stands)
    and [send_readiness.rs] (the wire form of a decision and the command that
    brings a session back). *)

From Stdlib Require Import Ascii.
From S2P Require Import Prelude RustStr Order Input Agent Identity.

Local Open Scope string_scope.
Local Open Scope Z_scope.
Local Open Scope rust_scope.

(** ** Provider blocks *)

(** The bidirectional formatting characters [0x061c], [0x200e..=0x200f],
    [0x202a..=0x202e] and [0x2066..=0x2069], by their UTF-8 bytes. *)
Definition is_bidi (c : string) : bool :=
  match c with
  | String a (String b "") => (byte_val a =? 216)%N && (byte_val b =? 156)%N
  | String a (String b (String c "")) =>
      (byte_val a =? 226)%N
      && (((byte_val b =? 128)%N && (in_range 142 143 c || in_range 170 174 c))
          || ((byte_val b =? 129)%N && in_range 166 169 c))
  | _ => false
  end.
Definition unprintable (c : string) : bool := is_control c || is_bidi c.

Definition plain_value (value : string) : bool :=
  (trim value != "") && (Nat.leb (String.length value) 128)
  && negb (existsb unprintable (chars value)).

Definition issue_local (kind : ProviderIssueKind) : ProviderIssue := mkIssue kind None None None.

Definition QUOTA_LABEL : string := "provider-quota".

Definition valid_for (i : ProviderIssue) (source : AgentRecord) : bool :=
  is_none_or (λ group,
      plain_value group && (label source QUOTA_LABEL == Some group)
      && is_some_and plain_value (s_provider (r_spec source))) (is_quota_group i)
  && is_none_or (λ model, plain_value model && (s_model (r_spec source) == Some model)) (is_model i).

Definition affects (i : ProviderIssue) (source target : AgentRecord) : bool :=
  (r_id source == r_id target)
  || is_some_and (λ group,
       valid_for i source
       && (label source QUOTA_LABEL == Some group)
       && (label target QUOTA_LABEL == Some group)
       && (s_provider (r_spec source) == s_provider (r_spec target))
       && is_none_or (λ model, s_model (r_spec target) == Some model) (is_model i))
     (is_quota_group i).

Definition RETRY_FIRST : duration := minutes 1.
Definition RETRY_LONGEST : duration := minutes 30.
Definition RETRY_FAILED_WITHIN : duration := minutes 10.

(** [2i32.saturating_pow(n)]. *)
Definition i32_saturating_pow2 (n : Z) : Z := Z.min (2 ^ 31 - 1) (2 ^ n).

Definition retry_at (p : ProviderAvailability) : option instant :=
  match pa_issue p with
  | None => None
  | Some issue =>
      if (is_kind issue == PTransport) && is_none (is_reset_at issue) && is_none (is_quota_group issue)
      then
        let wait := RETRY_FIRST * i32_saturating_pow2 (Z.min (pa_retries p) 16) in
        Some (pa_observed_at p + Z.min wait RETRY_LONGEST)
      else None
  end.

Inductive ProviderReport :=
| RBlocked (issue : ProviderIssue)
| RRecovered (blocked_at : instant).

(** The records among [agents] whose block reaches [target], with the block. *)
Definition reaching (target : AgentRecord) (agents : list AgentRecord)
    : list (AgentRecord * ProviderAvailability) :=
  omap (λ source,
    match r_provider_availability source with
    | None => None
    | Some availability =>
        match pa_issue availability with
        | None => None
        | Some issue => if affects issue source target then Some (source, availability) else None
        end
    end) agents.

Definition block_key (e : AgentRecord * ProviderAvailability) : Z * string :=
  (pa_observed_at e.2, r_id e.1).

Definition provider_block (target : AgentRecord) (agents : list AgentRecord)
    : option (AgentRecord * ProviderAvailability) :=
  min_by_key block_key (reaching target agents).

(** ** Receiver evidence *)

Inductive InputReadiness :=
| SessionEnded | IUnreachable | Unverified | IPaused | Stale | AwaitingFirstReceipt | Verified.

Definition FIRST_CONTACT_GRACE : duration := minutes 2.

Definition unreachable (agent : AgentRecord) (now : instant) : bool :=
  match r_process_started_at agent with
  | None => false
  | Some born =>
      let registered := Z.max (unwrap_or (r_created_at agent) (r_started_at agent)) born in
      is_live (r_status agent)
      && (s_runtime (r_spec agent) != HUMAN_RUNTIME)
      && negb (via_connector agent)
      && is_none (r_input_delivery agent)
      && negb (existsb (λ e, ac_process_started_at e.2 =? born) (map_to_list (r_adapter_contacts agent)))
      && is_none_or (λ read, negb (ac_process_started_at read =? born)) (r_queue_read agent)
      && (FIRST_CONTACT_GRACE <=? now - registered)
  end.

Definition input_readiness (agent : AgentRecord) (now : instant) : InputReadiness :=
  if negb (is_live (r_status agent)) then SessionEnded
  else match r_input_delivery agent with
  | None => if unreachable agent now then IUnreachable else Unverified
  | Some delivery =>
      if paused_for delivery (r_process_started_at agent) then IPaused
      else if negb (current_for delivery (r_process_started_at agent) now) then Stale
      else if received_for delivery (r_process_started_at agent) now then Verified
      else AwaitingFirstReceipt
  end.

Definition input_label (i : InputReadiness) : string :=
  match i with
  | SessionEnded => "Session ended"
  | IUnreachable => "Can't receive messages"
  | Unverified => "Messages may wait for its next prompt"
  | IPaused => "Not receiving messages"
  | Stale => "Not heard from recently"
  | AwaitingFirstReceipt => "Ready for messages"
  | Verified => "Receiving messages"
  end.

(** ** The one decision *)

Inductive State :=
| SEnded
| SProviderBlocked (kind : ProviderIssueKind)
| SPaused
| SSilent
| SUnreachable
| SAwaitsCheckIn
| SWaitsForPrompt
| SReady (receiving : bool)
| SHeldForTyping.
Global Instance State_eq_dec : EqDecision State.
Proof. solve_decision. Defined.

Definition state_label (s : State) : string :=
  match s with
  | SEnded => "Session ended"
  | SProviderBlocked kind => issue_label kind
  | SPaused => "Not receiving messages"
  | SSilent => "Not heard from recently"
  | SUnreachable => "Can't receive messages"
  | SAwaitsCheckIn => "Waits until it checks in"
  | SWaitsForPrompt => "Messages may wait for its next prompt"
  | SReady false => "Ready for messages"
  | SReady true => "Receiving messages"
  | SHeldForTyping => "Waiting for the person to stop typing"
  end.

Definition needs_attention (s : State) : bool :=
  match s with SReady _ | SHeldForTyping => false | _ => true end.

Inductive Fix :=
| Reconnect (command : string)
| SetupThenReconnect
| CodexResume (session : string)
| LaunchLive
| WaitForProvider
| ReviewDelivery
| ReadInbox
| WaitForCheckIn
| FNone
| FOther.
Global Instance Fix_eq_dec : EqDecision Fix.
Proof. solve_decision. Defined.

Record Decision_ := mkDecision { d_state : State; d_fix : Fix }.

Definition state (agent : AgentRecord) (now : instant) (provider_block : option ProviderIssueKind) : State :=
  if negb (is_live (r_status agent)) then SEnded
  else if s_runtime (r_spec agent) == HUMAN_RUNTIME then SReady false
  else match provider_block with
  | Some kind => SProviderBlocked kind
  | None =>
      let held := is_some_and (λ delivery,
                    is_some (held_for_typing delivery (r_process_started_at agent) now))
                    (r_input_delivery agent) in
      match input_readiness agent now with
      | SessionEnded => SEnded
      | IPaused => SPaused
      | Stale => SSilent
      | IUnreachable => SUnreachable
      | Unverified =>
          if via_connector agent || session_absent agent now then SAwaitsCheckIn else SWaitsForPrompt
      | AwaitingFirstReceipt => if held then SHeldForTyping else SReady false
      | Verified => if held then SHeldForTyping else SReady true
      end
  end.

(** ** The command that brings a session back *)

(** The label as one plain word: [session_word]. *)
Definition session_word (agent : AgentRecord) : option string :=
  match label agent "session_id" with
  | Some id => if plain_session_id id then Some id else None
  | None => None
  end.

(** [folder.replace('\'', "'\\''")]. *)
Fixpoint sh_escape (s : string) : string :=
  match s with
  | "" => ""
  | String a s =>
      if Ascii.eqb a "'" then String "'" (String "\" (String "'" (String "'" (sh_escape s))))
      else String a (sh_escape s)
  end.

Definition is_ps_quote (c : string) : bool :=
  match c with
  | String a "" => Ascii.eqb a "'"
  | String a (String b (String c "")) =>
      (byte_val a =? 226)%N && (byte_val b =? 128)%N && in_range 152 155 c
  | _ => false
  end.
Definition ps_escape (s : string) : string :=
  String.concat "" ((λ c, if is_ps_quote c then (c ++ c)%string else c) <$> chars s).

Definition resume_words (session : string) : string :=
  ("claude --resume " ++ session ++ " --dangerously-load-development-channels server:agentdocker")%string.

Definition claude_resume_command (agent : AgentRecord) (windows : bool) : option string :=
  if s_runtime (r_spec agent) != "claude-code" then None
  else match session_word agent with
  | None => None
  | Some session =>
    match or_else (s_workdir (r_spec agent)) (p_root <$> r_project agent) with
    | None => None
    | Some folder =>
        if (folder == "") || has_control folder then None
        else
          let resume := resume_words session in
          Some (if windows
                then "if (Set-Location -LiteralPath '" ++ ps_escape folder
                     ++ "' -PassThru -ErrorAction SilentlyContinue) { $env:AGENTDOCKER_CLAUDE_CHANNEL_INPUT='1'; "
                     ++ resume ++ " }"
                else "cd '" ++ sh_escape folder ++ "' && AGENTDOCKER_CLAUDE_CHANNEL_INPUT=1 " ++ resume)%string
    end
  end.

Section Decide.
(** [cfg!(windows)] of the build. *)
Context (windows : bool).

Definition reconnect (agent : AgentRecord) : option Fix :=
  if resumes_from_a_terminal agent then Reconnect <$> claude_resume_command agent windows
  else if relaunches_here agent && plain_session_id (r_id agent)
  then Some (Reconnect ("agentdocker reconnect " ++ r_id agent))
  else None.

Definition codex_resume (agent : AgentRecord) : option Fix :=
  if resumes_from_a_terminal agent then CodexResume <$> session_word agent else None.

Definition fix_for (agent : AgentRecord) (st : State) : Fix :=
  let runtime := s_runtime (r_spec agent) in
  match st with
  | SReady _ | SHeldForTyping => FNone
  | SProviderBlocked _ => WaitForProvider
  | SPaused => ReviewDelivery
  | SAwaitsCheckIn => WaitForCheckIn
  | SEnded =>
      unwrap_or FNone
        (if runtime == "claude-code" then reconnect agent
         else if runtime == "codex" then codex_resume agent else None)
  | SUnreachable =>
      if (runtime == "claude-code") || (runtime == "opencode") then SetupThenReconnect
      else if runtime == "codex" then unwrap_or LaunchLive (codex_resume agent)
      else ReadInbox
  | SWaitsForPrompt | SSilent =>
      if runtime == "claude-code" then unwrap_or SetupThenReconnect (reconnect agent)
      else if runtime == "codex" then LaunchLive
      else if runtime == "opencode" then FNone
      else ReadInbox
  end.

Definition decide_readiness (agent : AgentRecord) (now : instant)
    (provider_block : option ProviderIssueKind) : Decision_ :=
  let st := state agent now provider_block in
  mkDecision st (fix_for agent st).
End Decide.

Definition provider_issue (agent : AgentRecord) (agents : list AgentRecord) : option ProviderIssueKind :=
  match provider_block agent agents with
  | Some (_, st) => is_kind <$> pa_issue st
  | None => None
  end.

Definition decide_among (windows : bool) (agent : AgentRecord) (agents : list AgentRecord) (now : instant)
    : Decision_ :=
  decide_readiness windows agent now (provider_issue agent agents).

(** ** Where a message stands with a recipient *)

Module Delivery.
Inductive State :=
| Answered | Delivered | Received | Shown | Unreachable | WaitingForPrompt | WaitsForCheckIn
| WaitingToTake | HeldForTyping | Paused | Blocked | Silent | Ended | Gone | Unknown.

Record Recipient := mkRecipient {
  rc_agent : string;
  rc_name : option string;
  rc_runtime : option string;
  rc_queued_at : instant;
  rc_offered_at : option instant;
  rc_received_at : option instant;
  rc_taken_at : option instant;
  rc_reply : option string;
  rc_state : State;
}.

Definition of_ (windows : bool) (agent : option AgentRecord) (facts : Recipient)
    (blocked : option ProviderIssueKind) (now : instant) : State :=
  if is_some (rc_reply facts) then Answered
  else if is_some (rc_taken_at facts) then Delivered
  else if is_some (rc_received_at facts) then Received
  else if is_some (rc_offered_at facts) then Shown
  else match agent with
  | None => Gone
  | Some agent =>
      match d_state (decide_readiness windows agent now blocked) with
      | SEnded => Ended
      | SProviderBlocked _ => Blocked
      | SPaused => Paused
      | SSilent => Silent
      | SUnreachable => Unreachable
      | SAwaitsCheckIn => WaitsForCheckIn
      | SWaitsForPrompt => WaitingForPrompt
      | SReady _ => WaitingToTake
      | SHeldForTyping => HeldForTyping
      end
  end.

Definition settled (s : State) : bool :=
  match s with Answered | Ended | Gone => true | _ => false end.
Definition reached (s : State) : bool :=
  match s with Answered | Delivered | Received | Shown => true | _ => false end.
End Delivery.

(** ** The wire form of a decision *)

Definition MAX_DETAILS : nat := 32.

Inductive SendIssue :=
| UnknownSession | ISessionEnded | SIUnreachable | NoReceiver | ReceiverSilent | DeliveryPaused
| SIProviderBlocked (kind : ProviderIssueKind) | SIUnknown.

Record RecipientReadiness := mkReadiness {
  rr_agent : string;
  rr_name : string;
  rr_runtime : string;
  rr_issue : SendIssue;
  rr_resume_session : option string;
  rr_fix : option Fix;
}.

Record SendReadiness := mkSend {
  sr_recipients : Z;
  sr_needs_attention : Z;
  sr_details : list RecipientReadiness;
}.

Definition plain_text (value : string) (limit : nat) : string :=
  String.concat "" (take limit (filter (λ c, negb (unprintable c)) (chars value))).

Definition readiness_unknown (agent : string) : RecipientReadiness :=
  mkReadiness agent (plain_text agent 80) "" UnknownSession None None.

Definition issue_of_state (s : State) : option SendIssue :=
  match s with
  | SEnded => Some ISessionEnded
  | SProviderBlocked kind => Some (SIProviderBlocked kind)
  | SPaused => Some DeliveryPaused
  | SSilent => Some ReceiverSilent
  | SUnreachable => Some SIUnreachable
  | SAwaitsCheckIn | SWaitsForPrompt => Some NoReceiver
  | SReady _ | SHeldForTyping => None
  end.

Definition from_decision (agent : AgentRecord) (decision : Decision_) : option RecipientReadiness :=
  (λ issue, mkReadiness (r_id agent) (plain_text (s_name (r_spec agent)) 80)
              (plain_text (s_runtime (r_spec agent)) 40) issue (session_word agent)
              (Some (d_fix decision)))
  <$> issue_of_state (d_state decision).

Definition readiness_for_agent (windows : bool) (agent : AgentRecord) (now : instant)
    (blocked : option ProviderIssueKind) : option RecipientReadiness :=
  if s_runtime (r_spec agent) == HUMAN_RUNTIME then None
  else from_decision agent (decide_readiness windows agent now blocked).

Definition readiness_state (r : RecipientReadiness) : option State :=
  match rr_issue r with
  | ISessionEnded => Some SEnded
  | SIProviderBlocked kind => Some (SProviderBlocked kind)
  | DeliveryPaused => Some SPaused
  | ReceiverSilent => Some SSilent
  | SIUnreachable => Some SUnreachable
  | NoReceiver => if rr_fix r == Some WaitForCheckIn then Some SAwaitsCheckIn else Some SWaitsForPrompt
  | UnknownSession | SIUnknown => None
  end.

Definition readiness_decision (r : RecipientReadiness) : option Decision_ :=
  match readiness_state r, rr_fix r with
  | Some st, Some f => Some (mkDecision st f)
  | _, _ => None
  end.

(** [usize] counters: one [observe] per recipient never reaches the width. *)
Definition observe (s : SendReadiness) (recipient : option RecipientReadiness) : SendReadiness :=
  match recipient with
  | None => mkSend (sr_recipients s + 1) (sr_needs_attention s) (sr_details s)
  | Some r =>
      mkSend (sr_recipients s + 1) (sr_needs_attention s + 1)
        (if (length (sr_details s) <? MAX_DETAILS)%nat then sr_details s ++ [r] else sr_details s)%list
  end.

Definition omitted (s : SendReadiness) : Z :=
  Z.max 0 (sr_needs_attention s - Z.of_nat (length (sr_details s))).

(** ** Facts *)

Module ReadinessFacts.

(** *** Reading a pasted line as a POSIX shell does

    The words of a simple line, each with whether any of it was quoted: blanks
    separate words, single quotes keep everything literally, a backslash
    outside quotes keeps the next character. A byte that means anything else
    to a shell outside quotes makes the line unreadable here; [&] is kept so
    that the operator [&&] is the word it is written as. *)

Definition sh_plain (a : ascii) : bool :=
  is_ascii_alphanumeric a || Ascii.eqb a "-" || Ascii.eqb a "_" || Ascii.eqb a "="
  || Ascii.eqb a ":" || Ascii.eqb a "&".

Definition word : Type := string * bool.
Definition flush (cur : option word) : list word := match cur with Some w => [w] | None => [] end.
Definition push (a : ascii) (quoted : bool) (cur : option word) : option word :=
  match cur with
  | Some (t, q) => Some ((t ++ String a "")%string, q || quoted)
  | None => Some (String a "", quoted)
  end.
Definition open_quote (cur : option word) : option word :=
  match cur with Some (t, _) => Some (t, true) | None => Some ("", true) end.

Fixpoint sh_go (inq : bool) (cur : option word) (s : string) : option (list word) :=
  match s with
  | "" => if inq then None else Some (flush cur)
  | String a s =>
      if inq then
        if Ascii.eqb a "'" then sh_go false cur s else sh_go true (push a true cur) s
      else if Ascii.eqb a " " then app (flush cur) <$> sh_go false None s
      else if Ascii.eqb a "'" then sh_go true (open_quote cur) s
      else if Ascii.eqb a "\" then
        match s with
        | String b s' => sh_go false (push b true cur) s'
        | "" => None
        end
      else if sh_plain a then sh_go false (push a false cur) s
      else None
  end.
Definition sh_words (s : string) : option (list word) := sh_go false None s.

Lemma sh_go_escaped f t rest :
  sh_go true (Some (t, true)) (sh_escape f ++ String "'" rest)
  = sh_go false (Some ((t ++ f)%string, true)) rest.
Proof.
  revert t. induction f as [|a f IH]; intros t.
  { cbn [sh_escape]. by autorewrite with rust. }
  cbn [sh_escape]. destruct (Ascii.eqb a "'") eqn:E.
  - apply Ascii.eqb_eq in E as ->. rewrite !append_cons.
    cbn [sh_go Ascii.eqb Bool.eqb push open_quote orb]. rewrite IH.
    by autorewrite with rust.
  - rewrite append_cons. cbn [sh_go]. rewrite E. cbn [push]. rewrite orb_true_r, IH.
    by autorewrite with rust.
Qed.

Definition extend (cur : option word) (w : string) : option word :=
  match cur with
  | Some (t, q) => Some ((t ++ w)%string, q)
  | None => match w with "" => None | _ => Some (w, false) end
  end.

Lemma sh_plain_ordinary a :
  sh_plain a = true → Ascii.eqb a " " = false ∧ Ascii.eqb a "'" = false ∧ Ascii.eqb a "\" = false.
Proof. destruct a as [[] [] [] [] [] [] [] []]; vm_compute; done. Qed.

Lemma extend_push a w cur : extend (push a false cur) w = extend cur (String a w).
Proof.
  destruct cur as [[t q]|]; simpl; [|done].
  rewrite orb_false_r. by autorewrite with rust.
Qed.

Lemma sh_go_plain w cur rest :
  sforall sh_plain w = true → sh_go false cur (w ++ rest) = sh_go false (extend cur w) rest.
Proof.
  revert cur. induction w as [|a w IH]; intros cur Hw.
  { rewrite append_nil_l. destruct cur as [[t q]|]; simpl extend; by rewrite ?append_nil_r. }
  simpl in Hw. apply andb_true_iff in Hw as [Ha Hw].
  destruct (sh_plain_ordinary a Ha) as (E1 & E2 & E3).
  rewrite append_cons. cbn [sh_go]. rewrite E1, E2, E3, Ha, IH by done.
  by rewrite extend_push.
Qed.

Lemma sh_go_space cur rest :
  sh_go false cur (String " " rest) = app (flush cur) <$> sh_go false None rest.
Proof. reflexivity. Qed.

Lemma session_plain s : plain_session_id s = true → s ≠ "" ∧ sforall sh_plain s = true.
Proof.
  unfold plain_session_id. destruct s as [|a s]; [done|]. intros H. split; [done|].
  apply andb_true_iff in H as [_ H]. revert H. apply sforall_impl. intros b.
  destruct b as [[] [] [] [] [] [] [] []]; vm_compute; done.
Qed.

(** The words of the line, when its two variable parts are in place. *)
Lemma sh_words_resume folder session :
  plain_session_id session = true →
  sh_words ("cd '" ++ sh_escape folder ++ "' && AGENTDOCKER_CLAUDE_CHANNEL_INPUT=1 "
              ++ resume_words session)
  = Some [("cd", false); (folder, true); ("&&", false);
          ("AGENTDOCKER_CLAUDE_CHANNEL_INPUT=1", false); ("claude", false); ("--resume", false);
          (session, false); ("--dangerously-load-development-channels", false);
          ("server:agentdocker", false)].
Proof.
  intros [Hne Hs]%session_plain. unfold sh_words, resume_words.
  change ("cd '" ++ ?x)%string with ("cd" ++ String " " (String "'" x))%string.
  rewrite sh_go_plain by done. rewrite sh_go_space. cbn [extend flush].
  change (sh_go false None (String "'" ?x)) with (sh_go true (Some ("", true)) x).
  change ("' && AGENTDOCKER_CLAUDE_CHANNEL_INPUT=1 " ++ ?x)%string
    with (String "'" (String " " ("&&" ++ String " " ("AGENTDOCKER_CLAUDE_CHANNEL_INPUT=1"
            ++ String " " x))))%string.
  rewrite sh_go_escaped, append_nil_l, sh_go_space.
  rewrite sh_go_plain, sh_go_space by done. rewrite sh_go_plain, sh_go_space by done.
  change ("claude --resume " ++ ?x)%string
    with ("claude" ++ String " " ("--resume" ++ String " " x))%string.
  rewrite sh_go_plain, sh_go_space by done. rewrite sh_go_plain, sh_go_space by done.
  change (" --dangerously-load-development-channels server:agentdocker")%string
    with (String " " "--dangerously-load-development-channels server:agentdocker").
  rewrite sh_go_plain, sh_go_space by done.
  destruct session as [|a session]; [done|]. reflexivity.
Qed.

(** *** Decisions *)

Lemma fix_of_prompt windows agent : fix_for windows agent SWaitsForPrompt ≠ WaitForCheckIn.
Proof.
  simpl. unfold reconnect. destruct (_ == "claude-code"); simpl; [|by repeat case_match].
  destruct (resumes_from_a_terminal agent); [by destruct (claude_resume_command _ _)|].
  by case_match.
Qed.

Lemma decision_on_the_wire windows agent st r :
  from_decision agent (mkDecision st (fix_for windows agent st)) = Some r →
  readiness_decision r = Some (mkDecision st (fix_for windows agent st)).
Proof.
  unfold from_decision, readiness_decision, readiness_state.
  destruct st; cbn -[fix_for]; intros [= <-]; cbn -[fix_for]; try done.
  rewrite (proj2 (eqb_false _ _)); [done|].
  intros [= H]. by apply (fix_of_prompt windows agent).
Qed.

Lemma issue_of_state_None s : issue_of_state s = None ↔ needs_attention s = false.
Proof. by destruct s. Qed.
End ReadinessFacts.

(** ** Properties *)

Module ReadinessProps.
Import ReadinessFacts.

(** C10: the command offered to bring a Claude session back is safe to paste
    into a POSIX shell whatever the folder is called: read as a shell reads
    it, it changes into exactly the record's own folder, then starts
    [claude --resume] with exactly the record's own conversation id; nothing
    in a folder name or an id is ever an operator or another word. *)
Theorem resume_command_reads_back agent c :
  claude_resume_command agent false = Some c →
  ∃ folder session,
    or_else (s_workdir (r_spec agent)) (p_root <$> r_project agent) = Some folder ∧
    label agent "session_id" = Some session ∧ plain_session_id session = true ∧
    sh_words c =
      Some [("cd", false); (folder, true); ("&&", false);
            ("AGENTDOCKER_CLAUDE_CHANNEL_INPUT=1", false); ("claude", false); ("--resume", false);
            (session, false); ("--dangerously-load-development-channels", false);
            ("server:agentdocker", false)].
Proof.
  unfold claude_resume_command, session_word. intros H.
  destruct (negb _); [done|]. destruct (label agent "session_id") as [session|]; [|done].
  destruct (plain_session_id session) eqn:Es; [|done].
  destruct (or_else _ _) as [folder|]; [|done].
  destruct (_ || _); [done|]. injection H as <-.
  exists folder, session. do 3 (split; [done|]). by apply sh_words_resume.
Qed.

Definition w_quoted : AgentRecord :=
  record_new "a1" (mkSpec "n" "claude-code" None None [] (Some "/it's; rm -rf $HOME") ∅
    {[ "session_id" := "s-1" ]} false false false false RNo []) false 0.

Lemma resume_command_reads_back_witness :
  ∃ c, claude_resume_command w_quoted false = Some c ∧
  ∃ folder session,
    or_else (s_workdir (r_spec w_quoted)) (p_root <$> r_project w_quoted) = Some folder ∧
    label w_quoted "session_id" = Some session ∧ plain_session_id session = true ∧
    sh_words c =
      Some [("cd", false); (folder, true); ("&&", false);
            ("AGENTDOCKER_CLAUDE_CHANNEL_INPUT=1", false); ("claude", false); ("--resume", false);
            (session, false); ("--dangerously-load-development-channels", false);
            ("server:agentdocker", false)].
Proof.
  eexists. split; [by vm_compute|]. apply (resume_command_reads_back w_quoted). by vm_compute.
Defined.

(** the send result never says less than the decision: a recipient is
    reported exactly when it is not the person and its state needs
    attention, and the report read back is the state and the fix the one
    decision named, although two states share a wire kind. *)
Theorem send_result_carries_the_decision windows agent now blocked :
  match readiness_for_agent windows agent now blocked with
  | None => s_runtime (r_spec agent) = HUMAN_RUNTIME ∨
            needs_attention (state agent now blocked) = false
  | Some r => needs_attention (state agent now blocked) = true ∧
              readiness_decision r = Some (decide_readiness windows agent now blocked)
  end.
Proof.
  unfold readiness_for_agent. destruct (_ == HUMAN_RUNTIME) eqn:E; split_and_bool; [by left|].
  unfold decide_readiness. cbv zeta. set (st := state agent now blocked).
  destruct (from_decision agent (mkDecision st (fix_for windows agent st))) as [r|] eqn:Ef.
  - split; [|by apply decision_on_the_wire].
    destruct (needs_attention st) eqn:En; [done|]. apply issue_of_state_None in En.
    unfold from_decision in Ef. cbn -[fix_for] in Ef. by rewrite En in Ef.
  - right. apply issue_of_state_None. unfold from_decision in Ef. cbn -[fix_for] in Ef.
    by destruct (issue_of_state st).
Qed.

(** an agent is only called ready on current evidence: unless it is the
    person, a ready state means the session is live, no provider block
    reaches it, and a receiver of this very process reported within the last
    ninety seconds without pausing or holding for typing; it counts as
    receiving exactly when that process also confirmed a receipt. *)
Theorem ready_only_on_current_evidence agent now blocked receiving :
  state agent now blocked = SReady receiving →
  s_runtime (r_spec agent) ≠ HUMAN_RUNTIME →
  is_live (r_status agent) = true ∧ blocked = None ∧
  ∃ d, r_input_delivery agent = Some d ∧ id_paused d = false ∧
    r_process_started_at agent = Some (id_process_started_at d) ∧
    id_process_started_at d ≤ id_reported_at d ≤ now ∧
    now - id_reported_at d < seconds 90 ∧
    held_for_typing d (r_process_started_at agent) now = None ∧
    receiving = received_for d (r_process_started_at agent) now.
Proof.
  unfold state. intros H Hh. destruct (is_live (r_status agent)) eqn:El; [simpl in H|done].
  rewrite (proj2 (eqb_false _ _)) in H by done. destruct blocked as [k|]; [done|].
  split; [done|]. split; [done|]. unfold input_readiness in H. rewrite El in H. simpl in H.
  destruct (r_input_delivery agent) as [d|]; last first.
  { destruct (unreachable _ _); [done|]. by destruct (_ || _). }
  simpl in H. destruct (paused_for _ _); [done|].
  destruct (current_for d (r_process_started_at agent) now) eqn:Ec; [|done]. simpl in H.
  unfold current_for in Ec. split_and_bool.
  exists d. split; [done|]. split; [done|]. split; [done|].
  split; [lia|]. split; [lia|].
  destruct (held_for_typing _ _ _) eqn:Eh; simpl in H.
  { by destruct (received_for _ _ _). }
  split; [done|]. by destruct (received_for _ _ _); injection H as <-.
Qed.

Definition w_receiver : AgentRecord :=
  {| r_id := "a1"; r_spec := mkSpec "n" "codex" None None [] None ∅ ∅ false false false false RNo [];
     r_status := Running; r_host := "local"; r_pid := Some 7; r_process_started_at := Some 10;
     r_process_group := None; r_managed := false; r_session := None; r_terminal := None;
     r_restarts := 0; r_stop_requested := None; r_container := None; r_owner := None;
     r_project := None; r_vcs := None; r_created_at := 11; r_started_at := None;
     r_finished_at := None; r_last_seen := 11; r_reported_activity := None;
     r_input_delivery := Some (mkDelivery 10 false None 20 None None None);
     r_provider_availability := Some (mkAvailability 10 15 (Some (issue_local PTransport)) None 2);
     r_adapter_contacts := ∅; r_queue_read := None; r_session_contact := None;
     r_input_binding := None; r_legacy_offers := ∅; r_judged := None; r_thread := None |}.

Lemma ready_only_on_current_evidence_witness :
  state w_receiver 30 None = SReady false ∧ is_live (r_status w_receiver) = true.
Proof.
  assert (state w_receiver 30 None = SReady false) as H by (by vm_compute). split; [done|].
  apply (ready_only_on_current_evidence w_receiver 30 None false H). by vm_compute.
Defined.

(** the provider block that counts against an agent is the earliest
    observed that reaches it, chosen independently of the order the records
    come in; an agent's own report always reaches it, and another's only
    through a quota group both are labelled with, on the same provider. *)
Theorem provider_block_is_the_earliest target l k :
  NoDup (r_id <$> l) → l ≡ₚ k →
  provider_block target l = provider_block target k ∧
  (provider_block target l = None ↔
     ∀ s p i, s ∈ l → r_provider_availability s = Some p → pa_issue p = Some i → affects i s target = false) ∧
  (∀ s p, provider_block target l = Some (s, p) →
     s ∈ l ∧ r_provider_availability s = Some p ∧
     (∃ i, pa_issue p = Some i ∧
        (r_id s = r_id target ∨
         ∃ g, is_quota_group i = Some g ∧ label s QUOTA_LABEL = Some g ∧
              label target QUOTA_LABEL = Some g ∧
              s_provider (r_spec s) = s_provider (r_spec target))) ∧
     ∀ e, e ∈ reaching target l → pa_observed_at p ≤ pa_observed_at e.2).
Proof.
  intros Hnd Hp.
  assert (∀ s p, (s, p) ∈ reaching target l ↔
    s ∈ l ∧ r_provider_availability s = Some p ∧ ∃ i, pa_issue p = Some i ∧ affects i s target = true)
    as Hin.
  { intros s p. unfold reaching. rewrite list_elem_of_omap. split.
    - intros (x & Hx & E). destruct (r_provider_availability x) as [p'|] eqn:Ea; [|done].
      destruct (pa_issue p') as [i|] eqn:Ei; [|done].
      destruct (affects i x target) eqn:Ef; [|done]. injection E as -> ->. eauto 6.
    - intros (Hs & Ha & i & Hi & Hf). exists s. split; [done|]. by rewrite Ha, Hi, Hf. }
  split; [|split].
  - unfold provider_block. apply min_by_key_order_independent.
    { unfold reaching. by rewrite Hp. }
    intros [s p] [s' p'] (Hs & Ha & _)%Hin (Hs' & Ha' & _)%Hin [= _ Hid].
    assert (s = s') as ->; [|congruence].
    apply list_elem_of_lookup in Hs as [n Hn], Hs' as [m Hm].
    assert (n = m) as ->; [|congruence].
    eapply (NoDup_lookup (r_id <$> l)); [done|by rewrite list_lookup_fmap, Hn|].
    by rewrite list_lookup_fmap, Hm, Hid.
  - unfold provider_block. rewrite min_by_key_None. split.
    + intros Hnil s p i Hs Ha Hi. destruct (affects i s target) eqn:Ef; [|done].
      assert ((s, p) ∈ reaching target l) as Hx by (apply Hin; eauto 6). rewrite Hnil in Hx. set_solver.
    + intros Hno. destruct (reaching target l) as [|[s p] rest] eqn:E; [done|].
      destruct (proj1 (Hin s p)) as (Hs & Ha & i & Hi & Hf); [left|].
      by rewrite (Hno s p i) in Hf.
  - intros s p [Hm Hle]%min_by_key_Some. apply Hin in Hm as (Hs & Ha & i & Hi & Hf).
    split; [done|]. split; [done|]. split.
    + exists i. split; [done|]. unfold affects in Hf. apply orb_true_iff in Hf as [Hf|Hf].
      { left. by apply eqb_true. }
      right. destruct (is_quota_group i) as [g|]; [|done]. simpl in Hf. split_and_bool. eauto 6.
    + intros e He. specialize (Hle e He). revert Hle. unfold cmp_le, block_key. simpl.
      unfold prod_cmp. simpl. destruct (Z.compare_spec (pa_observed_at p) (pa_observed_at e.2)); [lia|lia|done].
Qed.

Lemma provider_block_is_the_earliest_witness :
  is_Some (provider_block w_receiver [w_receiver]) ∧
  provider_block w_receiver [w_receiver] = provider_block w_receiver [w_receiver].
Proof.
  split; [eexists; by vm_compute|].
  apply (provider_block_is_the_earliest w_receiver [w_receiver] [w_receiver]).
  - apply NoDup_singleton.
  - done.
Defined.

(** a send result is bounded and accounts for everyone: over any list of
    recipients it counts them all, counts those that need attention, keeps
    the first [MAX_DETAILS] of these in order and says how many it left out. *)
Theorem send_result_bounded l :
  let s := foldl observe (mkSend 0 0 []) l in
  let attention := omap id l in
  sr_recipients s = Z.of_nat (length l) ∧
  sr_needs_attention s = Z.of_nat (length attention) ∧
  sr_details s = take MAX_DETAILS attention ∧
  omitted s = Z.of_nat (length attention - MAX_DETAILS).
Proof.
  assert (∀ s l,
    sr_recipients (foldl observe s l) = sr_recipients s + Z.of_nat (length l) ∧
    sr_needs_attention (foldl observe s l) = sr_needs_attention s + Z.of_nat (length (omap id l)) ∧
    ((length (sr_details s) ≤ MAX_DETAILS)%nat →
     sr_details (foldl observe s l) = take MAX_DETAILS (sr_details s ++ omap id l))) as Hgen.
  { clear l. intros s l. revert s. induction l as [|[r|] l IH]; intros s; cbn [foldl omap list_omap id].
    - simpl. split; [lia|]. split; [lia|]. intros Hl. rewrite app_nil_r. by rewrite firstn_all2.
    - destruct (IH (observe s (Some r))) as (H1 & H2 & H3). rewrite H1, H2.
      split; [simpl; lia|]. split; [simpl; lia|]. intros Hl.
      cbn [observe sr_details] in *. destruct (Nat.ltb_spec (length (sr_details s)) MAX_DETAILS) as [Hlt|Hge].
      + rewrite H3 by (rewrite length_app; simpl; lia). by rewrite <-app_assoc.
      + rewrite H3 by lia. rewrite !take_app_le by lia. done.
    - destruct (IH (observe s None)) as (H1 & H2 & H3). rewrite H1, H2.
      split; [simpl; lia|]. split; [simpl; lia|]. intros Hl. by apply H3. }
  cbv zeta. destruct (Hgen (mkSend 0 0 []) l) as (H1 & H2 & H3). specialize (H3 (Nat.le_0_l _)).
  simpl in H1, H2, H3. split; [done|]. split; [done|]. split; [done|].
  unfold omitted. rewrite H2, H3, length_take. lia.
Qed.

(** a transient block is retried on a bounded schedule: the daemon lifts
    only an agent's own transport failure without a reset time, never sooner
    than [RETRY_FIRST] nor later than [RETRY_LONGEST] after it was observed,
    and a block retried more often waits at least as long. *)
Theorem retry_schedule_bounded p t :
  retry_at p = Some t → 0 ≤ pa_retries p →
  (∃ i, pa_issue p = Some i ∧ is_kind i = PTransport ∧ is_reset_at i = None ∧ is_quota_group i = None) ∧
  pa_observed_at p + RETRY_FIRST ≤ t ≤ pa_observed_at p + RETRY_LONGEST ∧
  ∀ n t', pa_retries p ≤ n →
    retry_at (mkAvailability (pa_process_started_at p) (pa_observed_at p) (pa_issue p)
                (pa_cleared_observation p) n) = Some t' → t ≤ t'.
Proof.
  unfold retry_at. destruct (pa_issue p) as [i|] eqn:Ei; [|done]. cbn [pa_issue pa_retries pa_observed_at].
  destruct (_ && _) eqn:E; [|done]. intros [= <-] Hr. split_and_bool.
  assert (∀ m, 0 ≤ m → 1 ≤ i32_saturating_pow2 (Z.min m 16)) as Hpow.
  { intros m Hm. unfold i32_saturating_pow2. pose proof (Z.pow_pos_nonneg 2 (Z.min m 16)). lia. }
  assert (RETRY_FIRST = 60000000000 ∧ RETRY_LONGEST = 1800000000000) as [-> ->] by done.
  split; [|split].
  - exists i. destruct (is_reset_at i), (is_quota_group i); done.
  - specialize (Hpow _ Hr). lia.
  - intros n t' Hn [= <-].
    assert (i32_saturating_pow2 (Z.min (pa_retries p) 16) ≤ i32_saturating_pow2 (Z.min n 16)); [|lia].
    unfold i32_saturating_pow2.
    assert (2 ^ Z.min (pa_retries p) 16 ≤ 2 ^ Z.min n 16) by (apply Z.pow_le_mono_r; lia). lia.
Qed.

Lemma retry_schedule_bounded_witness :
  retry_at (mkAvailability 10 15 (Some (issue_local PTransport)) None 2) = Some (15 + minutes 4) ∧
  15 + RETRY_FIRST ≤ 15 + minutes 4 ≤ 15 + RETRY_LONGEST.
Proof.
  split; [by vm_compute|].
  apply (retry_schedule_bounded (mkAvailability 10 15 (Some (issue_local PTransport)) None 2)
           (15 + minutes 4)); by vm_compute.
Defined.
End ReadinessProps.
