(* ===== verification/Controllers.v ===== *)
(** * The daemon's tick over bound controllers

    [tend_controllers] and what it calls in
    [crates/agentd/src/daemon/binding.rs], for one binding it read: the look
    ([controller_step]), the guards taken again under the lock (the
    coordinator is not fenced, the record still carries the binding that was
    looked at), the change to the record, the event announced with it, and the
    processes signalled. Reading processes, spawning and the store are the
    environment ([Env]). *)

From S2P Require Import Prelude RustStr Input Agent.

Local Open Scope string_scope.
Local Open Scope Z_scope.
Local Open Scope rust_scope.

Definition PAUSE_CONTROLLER_ENDED : string := "the bound controller ended".
Definition PAUSE_CONTROLLER_RESTART_FAILED : string := "the bound controller could not be restarted".

(** [get_or_insert_with], then the three assignments. *)
Definition pause_delivery (record : AgentRecord) (reason : string) (now : instant) : AgentRecord :=
  let delivery := unwrap_or
    (mkDelivery (unwrap_or now (r_process_started_at record)) false None now None None None)
    (r_input_delivery record) in
  with_input record
    (Some (mkDelivery (id_process_started_at delivery) true (Some reason) now
             (id_received delivery) (id_received_at delivery) (id_typing_until delivery)))
    (r_input_binding record).

(** The derived equality of a binding: paths compare by their components. *)
Definition launch_eqb (a b : ControllerLaunch) : bool :=
  path_eqb (cl_executable a) (cl_executable b) && (cl_args a == cl_args b)
  && path_eqb (cl_cwd a) (cl_cwd b) && (cl_env a == cl_env b).

Definition opt_launch_eqb (a b : option ControllerLaunch) : bool :=
  match a, b with
  | Some a, Some b => launch_eqb a b
  | None, None => true
  | _, _ => false
  end.

Definition generation_eqb (a b : ProviderGeneration) : bool :=
  (pg_process a == pg_process b) && (pg_session a == pg_session b) && (pg_profile a == pg_profile b).

Definition binding_eqb (a b : InputBinding) : bool :=
  generation_eqb (ib_provider a) (ib_provider b)
  && (ib_controller a == ib_controller b)
  && (ib_controller_since a =? ib_controller_since b)
  && (ib_token_sha256 a == ib_token_sha256 b)
  && (ib_bound_at a =? ib_bound_at b)
  && (ib_controller_generations a =? ib_controller_generations b)
  && (ib_uncertain a == ib_uncertain b)
  && opt_launch_eqb (ib_launch a) (ib_launch b)
  && (ib_restart a == ib_restart b).

Inductive ControllerEvent :=
| InputControllerEnded (controller : ProcessIdentity)
| InputRestartsExhausted (attempts : Z)
| InputControllerLaunched (controller : ProcessIdentity) (attempt : Z)
| InputControllerLaunchFailed (attempt : Z) (error : string).

(** What a look does outside the record. [Spawned] is an attempt to start the
    descriptor, with the process it gave. *)
Inductive Effect :=
| Announced (e : ControllerEvent)
| Signalled (p : ProcessIdentity) (force : bool)
| Spawned (outcome : option ProcessIdentity).

Record Env := mkEnv {
  fenced : bool;
  alive : ProcessIdentity → bool;
  (** Pinning the release and starting the descriptor. *)
  spawn : ControllerLaunch → result ProcessIdentity string;
  (** Whether the store takes a write; a fenced coordinator writes nothing. *)
  writes : bool;
}.

(** The record still carries the binding that was looked at. *)
Definition still_bound (record : option AgentRecord) (expected : InputBinding) : bool :=
  match record with
  | Some r => match r_input_binding r with Some b => binding_eqb b expected | None => false end
  | None => false
  end.

(** [signal]: only a process still running is signalled. *)
Definition signal (env : Env) (p : ProcessIdentity) (force : bool) : list Effect :=
  if alive env p then [Signalled p force] else [].

(** [transition_binding]: the changed record, its event, and whether it was
    committed. *)
Definition transition_binding (env : Env) (record : option AgentRecord) (expected : InputBinding)
    (change : AgentRecord → AgentRecord * ControllerEvent)
    : option AgentRecord * list Effect * bool :=
  match record with
  | None => (record, [], false)
  | Some r =>
      if negb (still_bound record expected) then (record, [], false)
      else
        let '(r', event) := change r in
        if negb (fenced env) && writes env then (Some r', [Announced event], true)
        else (record, [], false)
  end.

(** A change to the binding a record carries: [as_mut().expect("checked")] and
    the call on it. *)
Definition on_binding (f : InputBinding → InputBinding) (r : AgentRecord) : AgentRecord :=
  with_input r (r_input_delivery r) (f <$> r_input_binding r).

Definition tend_one (env : Env) (record : option AgentRecord) (binding : InputBinding) (now : instant)
    : option AgentRecord * list Effect :=
  let skip := (record, []) in
  let unchanged := negb (fenced env) && still_bound record binding in
  match controller_step binding now (alive env) with
  | Keep => skip
  | Upgrade kill =>
      if negb unchanged then skip
      else (record, if ib_controller binding != pg_process (ib_provider binding)
                    then signal env (ib_controller binding) kill else [])
  | Ended =>
      let controller := unwrap_or (ib_controller binding) (cr_launched (ib_restart binding)) in
      let '(r, effects, _) := transition_binding env record binding (λ r,
        (on_binding (λ b, note_controller_ended b now) (pause_delivery r PAUSE_CONTROLLER_ENDED now),
         InputControllerEnded controller)) in
      (r, effects)
  | Exhausted =>
      let '(r, effects, _) := transition_binding env record binding (λ r,
        (on_binding note_exhausted (pause_delivery r PAUSE_CONTROLLER_RESTART_FAILED now),
         InputRestartsExhausted (cr_attempts (ib_restart binding)))) in
      (r, effects)
  | Terminate hard =>
      if negb unchanged then skip
      else (record, match cr_launched (ib_restart binding) with
                    | Some launched => signal env launched hard
                    | None => []
                    end)
  | Launch attempt =>
      match ib_launch binding with
      | None => skip
      | Some launch =>
          if negb unchanged then skip
          else
            let spawned := spawn env launch in
            let started := match spawned with Ok p => Some p | Err _ => None end in
            let '(r, effects, recorded) := transition_binding env record binding (λ r,
              (on_binding (λ b, note_launch b started now) r,
               match spawned with
               | Ok p => InputControllerLaunched p attempt
               | Err e => InputControllerLaunchFailed attempt e
               end)) in
            (r, Spawned started :: effects ++
                match spawned with
                | Ok p => if recorded then [] else signal env p false
                | Err _ => []
                end)
      end
  end.

(** ** Facts *)

Module ControllerFacts.
Import InputFacts.

Lemma binding_eqb_refl b : binding_eqb b b = true.
Proof.
  unfold binding_eqb, generation_eqb, opt_launch_eqb, launch_eqb, path_eqb.
  rewrite !eqb_refl, !Z.eqb_refl. destruct (ib_launch b); by rewrite ?eqb_refl.
Qed.

Definition started (r : result ProcessIdentity string) : option ProcessIdentity :=
  match r with Ok p => Some p | Err _ => None end.

(** What the environment of a look is to the binding alone. *)
Definition env_look (env : Env) (b : InputBinding) (now : instant) : Look :=
  mkLook now (alive env) (match ib_launch b with Some l => started (spawn env l) | None => None end).

Definition is_spawn (e : Effect) : bool := match e with Spawned _ => true | _ => false end.
Definition spawns (l : list Effect) : nat := length (filter is_spawn l).

Lemma spawns_app l k : spawns (l ++ k)%list = (spawns l + spawns k)%nat.
Proof. unfold spawns. by rewrite filter_app, length_app. Qed.

Lemma spawns_signal env p force : spawns (signal env p force) = 0%nat.
Proof. unfold signal. by destruct (alive env p). Qed.

Lemma still_bound_self r b : r_input_binding r = Some b → still_bound (Some r) b = true.
Proof. unfold still_bound. intros ->. apply binding_eqb_refl. Qed.

Lemma transition_committed env r b change :
  r_input_binding r = Some b → fenced env = false → writes env = true →
  transition_binding env (Some r) b change = (Some (change r).1, [Announced (change r).2], true).
Proof.
  intros Hb Hf Hw. unfold transition_binding. rewrite still_bound_self, Hf, Hw by done. simpl.
  by destruct (change r).
Qed.

Lemma transition_refused env record b change :
  fenced env = true ∨ writes env = false →
  transition_binding env record b change = (record, [], false).
Proof.
  intros H. unfold transition_binding. destruct record as [r|]; [|done].
  destruct (negb (still_bound (Some r) b)); [done|]. destruct (change r).
  destruct H as [-> | ->]; [done|]. by rewrite andb_false_r.
Qed.

(** The tick is the look: with the coordinator serving and its store taking
    writes, the record's binding goes where the look takes it, nothing else
    of the record but its delivery changes, and the descriptor is started exactly
    when the look launches one. *)
Lemma tend_one_look env r b now :
  r_input_binding r = Some b → fenced env = false → writes env = true →
  ∃ d effects,
    tend_one env (Some r) b now = (Some (with_input r d (Some (look b (env_look env b now)))), effects) ∧
    spawns effects = if launches_at b (env_look env b now) then 1%nat else 0%nat.
Proof.
  intros Hb Hf Hw. unfold tend_one, look, launches_at, tend. cbn [lk_now lk_alive lk_spawned env_look].
  assert (with_input r (r_input_delivery r) (Some b) = r) as Hid.
  { rewrite <-Hb. by destruct r. }
  rewrite still_bound_self, Hf by done. cbn [negb andb].
  destruct (controller_step b now (alive env)) as [k| | |n|k|] eqn:Es.
  - exists (r_input_delivery r). eexists. rewrite Hid. split; [done|].
    case_match; [apply spawns_signal|done].
  - exists (r_input_delivery r), []. by rewrite Hid.
  - rewrite transition_committed by done.
    unfold on_binding, pause_delivery. cbn -[with_input]. rewrite Hb. by do 2 eexists.
  - apply controller_step_launch in Es as (_ & _ & [l Hl] & _). rewrite Hl. cbn [is_none].
    rewrite transition_committed by done.
    unfold on_binding. cbn -[with_input]. rewrite Hb. do 2 eexists. split; [done|].
    by destruct (spawn env l).
  - exists (r_input_delivery r). eexists. rewrite Hid. split; [done|].
    destruct (cr_launched _); [apply spawns_signal|done].
  - rewrite transition_committed by done.
    unfold on_binding, pause_delivery. cbn -[with_input]. rewrite Hb. by do 2 eexists.
Qed.

(** A due launch that the store does not take: a start, and the same record. *)
Lemma tend_one_unrecorded env r b now n :
  r_input_binding r = Some b → fenced env = false → writes env = false →
  controller_step b now (alive env) = Launch n →
  ∃ effects, tend_one env (Some r) b now = (Some r, effects) ∧ spawns effects = 1%nat.
Proof.
  intros Hb Hf Hw Hs. unfold tend_one. rewrite Hs, still_bound_self, Hf by done.
  apply controller_step_launch in Hs as (_ & _ & [l ->] & _). cbn [negb andb].
  rewrite transition_refused by auto. eexists. split; [done|].
  change (Spawned ?o :: ?k)%list with ([Spawned o] ++ k)%list. rewrite spawns_app.
  by destruct (spawn env l); [rewrite app_nil_l, spawns_signal|].
Qed.

Lemma tend_one_fenced env record b now : fenced env = true → tend_one env record b now = (record, []).
Proof.
  intros Hf. unfold tend_one. rewrite Hf. cbn [negb andb].
  destruct (controller_step b now (alive env)); try done.
  - by rewrite transition_refused by auto.
  - by destruct (ib_launch b).
  - by rewrite transition_refused by auto.
Qed.

(** A history of ticks over one record: each looks at the binding it finds. *)
Fixpoint ticks (r : AgentRecord) (es : list (Env * instant)) : AgentRecord * list Effect :=
  match es with
  | [] => (r, [])
  | (env, now) :: es =>
      match r_input_binding r with
      | None => ticks r es
      | Some b =>
          let '(r', effects) := tend_one env (Some r) b now in
          let '(r'', rest) := ticks (unwrap_or r r') es in
          (r'', effects ++ rest)%list
      end
  end.

Lemma ticks_spawns r b es :
  r_input_binding r = Some b → attempts_u32 b → Forall (λ e, writes e.1 = true) es →
  Z.of_nat (spawns (ticks r es).2) ≤ allowance b.
Proof.
  revert r b. induction es as [|[env now] es IH]; intros r b Hb Hu Hw.
  { change (0 ≤ allowance b). unfold allowance, CONTROLLER_RESTARTS.
    destruct (cr_ended_at _); lia. }
  inversion Hw as [|?? Hw1 Hw2]; subst. cbn [ticks]. rewrite Hb.
  destruct (fenced env) eqn:Ef.
  { rewrite tend_one_fenced by done. cbn [unwrap_or].
    specialize (IH r b Hb Hu Hw2). by destruct (ticks r es). }
  destruct (tend_one_look env r b now Hb Ef Hw1) as (d & effects & -> & Hsp). cbn [unwrap_or].
  specialize (IH (with_input r d (Some (look b (env_look env b now))))
                 (look b (env_look env b now)) eq_refl (look_attempts_u32 _ _ Hu) Hw2).
  destruct (ticks _ es) as [r'' rest]. cbn [snd] in *. rewrite spawns_app, Hsp.
  pose proof (look_allowance b (env_look env b now) Hu). destruct (launches_at _ _); lia.
Qed.
End ControllerFacts.

(** ** Properties *)

Module ControllerProps.
Import InputFacts ControllerFacts.

(** C12: the daemon's tick implements the abstract look: serving and with a
    store that takes writes, it moves the record's binding exactly where
    [look] does, changes nothing else of the record but its delivery, and
    starts the descriptor exactly when the look launches one; a fenced
    coordinator changes and signals nothing. *)
Theorem tick_refines_look env r b now :
  r_input_binding r = Some b →
  (fenced env = true → tend_one env (Some r) b now = (Some r, [])) ∧
  (fenced env = false → writes env = true →
   ∃ d effects,
     tend_one env (Some r) b now
       = (Some (with_input r d (Some (look b (env_look env b now)))), effects) ∧
     spawns effects = if launches_at b (env_look env b now) then 1%nat else 0%nat).
Proof.
  intros Hb. split; [apply tend_one_fenced|]. by apply tend_one_look.
Qed.

(** C31: over any history of ticks whose writes are taken, fenced or not and
    with whatever processes come and go, a binding's controller is started at
    most [CONTROLLER_RESTARTS] times before another controller binds. *)
Theorem recorded_spawns_bounded r b es :
  r_input_binding r = Some b → attempts_u32 b → Forall (λ e, writes e.1 = true) es →
  Z.of_nat (spawns (ticks r es).2) ≤ CONTROLLER_RESTARTS.
Proof.
  intros Hb Hu Hw. etrans; [by apply (ticks_spawns r b)|]. by apply allowance_le.
Qed.

Definition w_provider : ProcessIdentity := mkProcess 10 0.
Definition w_env (writes : bool) : Env :=
  mkEnv false (λ p, (p == w_provider) || (p == mkProcess 30 1)) (λ _, Ok (mkProcess 30 1)) writes.
Definition w_dead : InputBinding :=
  mkBinding (mkGeneration w_provider "thread" "default") (mkProcess 20 5) 5 "digest" 5 1 []
    (Some (mkLaunch "/bin/receiver" [] "/" ∅)) (mkRestart None 0 None None (Some 6) false).
Definition w_record : AgentRecord :=
  with_input (record_new "a1" spec_default false 0) None (Some w_dead).

Lemma tick_refines_look_witness :
  tend_one (w_env true) (Some w_record) w_dead 7
    = (Some (with_input w_record None (Some (look w_dead (env_look (w_env true) w_dead 7)))),
       [Spawned (Some (mkProcess 30 1)); Announced (InputControllerLaunched (mkProcess 30 1) 1)]) ∧
  (fenced (w_env true) = true → tend_one (w_env true) (Some w_record) w_dead 7 = (Some w_record, [])).
Proof.
  split; [by vm_compute|]. by apply (tick_refines_look (w_env true) w_record w_dead 7).
Defined.

Lemma recorded_spawns_bounded_witness :
  Z.of_nat (spawns (ticks w_record (replicate 40 (w_env true, seconds 40))).2) ≤ CONTROLLER_RESTARTS.
Proof.
  apply (recorded_spawns_bounded w_record w_dead (replicate 40 (w_env true, seconds 40))).
  - done.
  - by vm_compute.
  - by apply Forall_replicate.
Defined.

(** without that store the bound is gone: while a storage failure is
    latched, a due launch is started, cannot be recorded and is due again, so
    every tick at which it is due starts another process, however many there
    are, and the record never changes. *)
Theorem latched_storage_failure_spawns_every_tick r b es :
  r_input_binding r = Some b →
  Forall (λ e, fenced e.1 = false ∧ writes e.1 = false ∧
               ∃ n, controller_step b e.2 (alive e.1) = Launch n) es →
  (ticks r es).1 = r ∧ spawns (ticks r es).2 = length es.
Proof.
  intros Hb. induction es as [|[env now] es IH]; intros Hall; [done|].
  inversion Hall as [|?? (Hf & Hw & n & Hs) Hall']; subst. simpl in Hf, Hw, Hs.
  destruct (IH Hall') as [IH1 IH2]. cbn [ticks]. rewrite Hb.
  destruct (tend_one_unrecorded env r b now n Hb Hf Hw Hs) as (effects & -> & Hsp).
  cbn [unwrap_or]. destruct (ticks r es) as [r'' rest]. cbn [fst snd] in *.
  split; [done|]. by rewrite spawns_app, Hsp, IH2.
Qed.

Lemma latched_storage_failure_spawns_every_tick_witness :
  (ticks w_record (replicate 100 (w_env false, seconds 40))).1 = w_record ∧
  spawns (ticks w_record (replicate 100 (w_env false, seconds 40))).2 = 100%nat.
Proof.
  apply (latched_storage_failure_spawns_every_tick w_record w_dead
           (replicate 100 (w_env false, seconds 40))); [done|].
  apply Forall_replicate. split; [done|]. split; [done|]. exists 1. by vm_compute.
Defined.
End ControllerProps.
