(* ===== verification/Permissions.v ===== *)
(** * Permission profiles a person is asked to grant

    The model of [crates/core/src/permissions.rs]: the concrete subset of a
    Codex permission request that every client can show completely, the key
    two spellings of one path share, and the check of a whole profile. *)

From Stdlib Require Import Ascii.
From S2P Require Import Prelude RustStr.

Local Open Scope rust_scope.
Local Open Scope string_scope.

(** ** The profile *)

Inductive QuestionPermissionAccess := PRead | PWrite | PDeny.

Global Instance QuestionPermissionAccess_eq_dec : EqDecision QuestionPermissionAccess.
Proof. solve_decision. Defined.

(** [QuestionPermissionPath] has one variant, [Path { path }]. *)
Record QuestionPermissionEntry := mkEntry {
  pe_access : QuestionPermissionAccess;
  pe_path : string;
}.

Record QuestionNetworkPermissions := mkNetwork { pn_enabled : option bool }.

Record QuestionFileSystemPermissions := mkFiles {
  pf_read : option (list string);
  pf_write : option (list string);
  pf_entries : option (list QuestionPermissionEntry);
  pf_glob_scan_max_depth : option Z;
}.

Record QuestionPermissions := mkPermissions {
  qp_network : option QuestionNetworkPermissions;
  qp_file_system : option QuestionFileSystemPermissions;
}.

Global Instance QuestionPermissionEntry_eq_dec : EqDecision QuestionPermissionEntry.
Proof. solve_decision. Defined.
Global Instance QuestionNetworkPermissions_eq_dec : EqDecision QuestionNetworkPermissions.
Proof. solve_decision. Defined.
Global Instance QuestionFileSystemPermissions_eq_dec : EqDecision QuestionFileSystemPermissions.
Proof. solve_decision. Defined.
Global Instance QuestionPermissions_eq_dec : EqDecision QuestionPermissions.
Proof. solve_decision. Defined.

(** [iter().flatten()] on an optional list. *)
Definition flat {A} (o : option (list A)) : list A := unwrap_or [] o.

(** ** The comparison key of a path *)

(** The characters that change how text is displayed, by their UTF-8 bytes:
    U+061C, U+200E, U+200F, U+202A-U+202E and U+2066-U+2069. *)
Definition bidi_control (c : string) : bool :=
  match c with
  | String a (String b "") => (byte_val a =? 216)%N && (byte_val b =? 156)%N
  | String a (String b (String d "")) =>
      (byte_val a =? 226)%N
      && (((byte_val b =? 128)%N && (in_range 142 143 d || in_range 170 174 d))
          || ((byte_val b =? 129)%N && in_range 166 169 d))
  | _ => false
  end.

Definition is_slash (a : ascii) : bool := Ascii.eqb a "/" || Ascii.eqb a "\".

Definition has_drive (path : string) : bool :=
  match path with
  | String a (String b (String c _)) => is_ascii_alphabetic a && Ascii.eqb b ":" && is_slash c
  | _ => false
  end.

(** [s[n..]] on ASCII text. *)
Fixpoint sdrop (n : nat) (s : string) : string :=
  match n, s with
  | S n, String _ s => sdrop n s
  | _, _ => s
  end.

Definition device_stem (stem : string) : bool :=
  existsb (eqb stem) ["con"; "prn"; "aux"; "nul"]
  || ((starts_with stem "com" || starts_with stem "lpt")
      && (String.length stem =? 4)%nat
      && is_some_and (in_range 49 57) (byte_at 3 stem)).

(** What a Windows component may not be. *)
Definition bad_component (part : string) : bool :=
  (part == "")
  || ends_with_char "." part || ends_with_char " " part
  || device_stem (unwrap_or "" (head (split_char "." part)))
  || sexists (λ a, existsb (Ascii.eqb a) ["<"; ">"; ":"; "034"; "|"; "?"; "*"]%char) part.

Definition concrete_path_key (path : string) : option string :=
  if (16000 <? byte_len path)%Z || (trim path != path)
     || existsb (λ c, is_control c || bidi_control c) (chars path)
  then None
  else
    let drive := has_drive path in
    let unc := starts_with path "\\" in
    if drive || unc then
      if negb (is_ascii path) then None
      else
        let key := to_ascii_lowercase (replace_char "\" "/" path) in
        let tail := sdrop (if drive then 3 else 2) key in
        if drive && (tail == "") then Some key
        else
          let components := split_char "/" tail in
          if unc && (length components <? 2)%nat then None
          else if existsb bad_component components then None
          else Some key
    else
      match strip_prefix "/" path with
      | None => None
      | Some tail =>
          if (tail != "")
             && existsb (λ part, existsb (eqb part) [""; "."; ".."]) (split_char "/" tail)
          then None else Some path
      end.

(** ** The check of a profile *)

(** The access each key has been given, and whether anything is granted. *)
Abbreviation grants_state := (gmap string QuestionPermissionAccess * bool)%type (only parsing).

(** The loop over the legacy lists: a key may be named once. *)
Fixpoint take_listed (values : list (string * QuestionPermissionAccess)) (st : grants_state)
    : option grants_state :=
  match values with
  | [] => Some st
  | (path, access) :: rest =>
      match concrete_path_key path with
      | None => None
      | Some key =>
          if is_some (st.1 !! key) then None
          else take_listed rest (<[key := access]> st.1, true)
      end
  end.

(** The loop over the entries: an entry may mirror a listed path, with the
    same access, and no other entry. *)
Fixpoint take_entries (entries : list QuestionPermissionEntry) (seen : gset string) (st : grants_state)
    : option grants_state :=
  match entries with
  | [] => Some st
  | entry :: rest =>
      match concrete_path_key (pe_path entry) with
      | None => None
      | Some key =>
          if bool_decide (key ∈ seen) then None
          else if is_some_and (λ old, old != pe_access entry) (st.1 !! key) then None
          else take_entries rest ({[key]} ∪ seen)
                 (<[key := pe_access entry]> st.1, st.2 || (pe_access entry != PDeny))
      end
  end.

Definition listed (files : QuestionFileSystemPermissions) : list (string * QuestionPermissionAccess) :=
  app ((λ p, (p, PRead)) <$> flat (pf_read files)) ((λ p, (p, PWrite)) <$> flat (pf_write files)).

Definition network_granted (p : QuestionPermissions) : bool :=
  is_some_and (λ n, pn_enabled n == Some true) (qp_network p).

Definition files_state (files : QuestionFileSystemPermissions) (network : bool) : option grants_state :=
  if is_some (pf_glob_scan_max_depth files) then None
  else match take_listed (listed files) (∅, network) with
       | None => None
       | Some st => take_entries (flat (pf_entries files)) ∅ st
       end.

Definition valid (p : QuestionPermissions) : bool :=
  match
    match qp_file_system p with
    | None => Some (∅, network_granted p)
    | Some files => files_state files (network_granted p)
    end
  with
  | None => false
  | Some (paths, grants) => grants && (size paths <=? 16)%nat
  end.

(** ** What is shown *)

Definition access_word (a : QuestionPermissionAccess) : string :=
  match a with PRead => "Read" | PWrite => "Write" | PDeny => "Exclude" end.

(** [lines.retain(|line| shown.insert(line.clone()))]: the first of each. *)
Fixpoint retain_first (shown : gset string) (l : list string) : list string :=
  match l with
  | [] => []
  | x :: l' =>
      if bool_decide (x ∈ shown) then retain_first shown l'
      else x :: retain_first ({[x]} ∪ shown) l'
  end.

Definition network_line (enabled : bool) : string :=
  if enabled then "Allow network access" else "No additional network access".

Definition all_lines (p : QuestionPermissions) : list string :=
  app (match qp_network p with
       | Some n => match pn_enabled n with Some e => [network_line e] | None => [] end
       | None => []
       end)
      (match qp_file_system p with
       | Some files =>
           app ((λ q, ("Read: " ++ q)%string) <$> flat (pf_read files))
               (app ((λ q, ("Write: " ++ q)%string) <$> flat (pf_write files))
                    ((λ e, (access_word (pe_access e) ++ ": " ++ pe_path e)%string)
                       <$> flat (pf_entries files)))
       | None => []
       end).

Definition lines (p : QuestionPermissions) : list string := retain_first ∅ (all_lines p).

Module PermissionsFacts.

Abbreviation keyed_list := (list (string * QuestionPermissionAccess)) (only parsing).

(** The paths by their keys, when every path has one. *)
Fixpoint keyed (l : keyed_list) : option keyed_list :=
  match l with
  | [] => Some []
  | (p, a) :: l' =>
      match concrete_path_key p, keyed l' with
      | Some k, Some ks => Some ((k, a) :: ks)
      | _, _ => None
      end
  end.

Definition put_all (m : gmap string QuestionPermissionAccess) (l : keyed_list)
    : gmap string QuestionPermissionAccess :=
  foldl (λ m ka, <[ka.1 := ka.2]> m) m l.

Definition entry_pair (e : QuestionPermissionEntry) : string * QuestionPermissionAccess :=
  (pe_path e, pe_access e).

Definition p_listed (p : QuestionPermissions) : keyed_list :=
  match qp_file_system p with Some f => listed f | None => [] end.
Definition p_entries (p : QuestionPermissions) : keyed_list :=
  match qp_file_system p with Some f => entry_pair <$> flat (pf_entries f) | None => [] end.
Definition no_glob_depth (p : QuestionPermissions) : Prop :=
  match qp_file_system p with Some f => pf_glob_scan_max_depth f = None | None => True end.

Lemma dom_put_all l m : dom (put_all m l) = list_to_set l.*1 ∪ dom m.
Proof.
  revert m. induction l as [|[k a] l IH]; intros m; simpl; [set_solver|].
  rewrite IH, dom_insert_L. set_solver.
Qed.

Lemma put_all_lookup l m k a : put_all m l !! k = Some a → (k, a) ∈ l ∨ m !! k = Some a.
Proof.
  revert m. induction l as [|[k' a'] l IH]; intros m; simpl; [auto|].
  intros [H|H]%IH; [left; by right|]. destruct (decide (k = k')) as [->|Hne].
  - rewrite lookup_insert_eq in H. injection H as ->. left. left.
  - rewrite lookup_insert_ne in H by done. auto.
Qed.

Lemma put_all_lookup_NoDup l k a m :
  NoDup l.*1 → (k, a) ∈ l → put_all m l !! k = Some a.
Proof.
  revert m. induction l as [|[k' a'] l IH]; intros m Hnd Hin; [by apply not_elem_of_nil in Hin|].
  simpl in *. apply NoDup_cons in Hnd as [Hk Hnd]. apply elem_of_cons in Hin as [[= <- <-]|Hin]; [|auto].
  enough (∀ m', k ∉ l.*1 → m' !! k = Some a → put_all m' l !! k = Some a) as Hkeep
    by (apply Hkeep; [done|apply lookup_insert_eq]).
  clear. induction l as [|[k1 a1] l IH]; simpl; [done|]. intros m' Hk Hm.
  apply IH; [set_solver|]. rewrite lookup_insert_ne by set_solver. done.
Qed.

Lemma take_listed_Some l m g st :
  take_listed l (m, g) = Some st ↔
  ∃ ks, keyed l = Some ks ∧ NoDup ks.*1 ∧ (∀ k, k ∈ ks.*1 → m !! k = None) ∧
        st = (put_all m ks, g || negb (length ks =? 0)%nat).
Proof.
  revert m g. induction l as [|[p a] l IH]; intros m g; simpl.
  { split; [intros [= <-]|by intros (? & [= <-] & _ & _ & ->); simpl; rewrite orb_false_r].
    exists []. simpl. rewrite orb_false_r. split_and!; [done|constructor|set_solver|done]. }
  destruct (concrete_path_key p) as [k|]; [|by split; [|intros (? & ? & _)]].
  destruct (m !! k) eqn:Ek; simpl.
  { split; [done|]. intros (ks & Hks & Hnd & Hm & _). destruct (keyed l); [|done]. simplify_eq/=.
    specialize (Hm k). rewrite Hm in Ek; [done|left]. }
  rewrite IH. split.
  - intros (ks & -> & Hnd & Hm & ->). exists ((k, a) :: ks). simpl. rewrite orb_true_r.
    assert (k ∉ ks.*1) as Hk by (intros Hk%Hm; by rewrite lookup_insert_eq in Hk).
    repeat split; [by constructor|].
    intros k' [->|Hin]%elem_of_cons; [done|]. specialize (Hm _ Hin).
    by apply lookup_insert_None in Hm as [? _].
  - intros (ks & Hks & Hnd & Hm & ->). destruct (keyed l) as [ks'|]; [|done]. simplify_eq/=.
    apply NoDup_cons in Hnd as [Hk Hnd]. exists ks'. rewrite orb_true_r. split_and!; try done.
    intros k' Hin. rewrite lookup_insert_ne by set_solver. apply Hm. by right.
Qed.

Lemma take_entries_Some es seen m g st :
  take_entries es seen (m, g) = Some st ↔
  ∃ ks, keyed (entry_pair <$> es) = Some ks ∧ NoDup ks.*1 ∧ (∀ k, k ∈ ks.*1 → k ∉ seen) ∧
        (∀ k a b, (k, b) ∈ ks → m !! k = Some a → a = b) ∧
        st = (put_all m ks, g || existsb (λ ka, ka.2 != PDeny) ks).
Proof.
  revert seen m g. induction es as [|[a p] es IH]; intros seen m g;
    rewrite ?fmap_cons; cbn [take_entries keyed entry_pair pe_path pe_access fst snd].
  { split; [intros [= <-]|by intros (? & [= <-] & _ & _ & _ & ->); simpl; rewrite orb_false_r].
    exists []. simpl. rewrite orb_false_r. split_and!; [done|constructor|set_solver|set_solver|done]. }
  destruct (concrete_path_key p) as [k|]; [|by split; [|intros (? & ? & _)]].
  case_bool_decide as Hseen.
  { split; [done|]. intros (ks & Hks & Hnd & Hm & _). destruct (keyed _); [|done]. simplify_eq/=.
    by destruct (Hm k); [left|]. }
  destruct (is_some_and _ (m !! k)) eqn:Ek.
  { split; [done|]. intros (ks & Hks & Hnd & _ & Hm & _). destruct (keyed _); [|done]. simplify_eq/=.
    destruct (m !! k) as [old|] eqn:Em; simpl in Ek; [|done]. split_and_bool.
    destruct Ek. by eapply Hm; [left|]. }
  rewrite IH. clear IH. split.
  - intros (ks & -> & Hnd & Hs & Hm & ->). exists ((k, a) :: ks). simpl.
    assert (k ∉ ks.*1) as Hk by (intros Hk%Hs; set_solver).
    rewrite orb_assoc. split_and!; [done|by constructor|set_solver| |done].
    intros k' a' b' [[= -> ->]|Hin]%elem_of_cons Hm'.
    + rewrite Hm' in Ek. simpl in Ek. by split_and_bool.
    + eapply Hm; [done|]. rewrite lookup_insert_ne; [done|]. intros <-.
      apply Hk, list_elem_of_fmap. by exists (k, b').
  - intros (ks & Hks & Hnd & Hs & Hm & ->). destruct (keyed _) as [ks'|]; [|done]. simplify_eq/=.
    apply NoDup_cons in Hnd as [Hk Hnd]. exists ks'. rewrite orb_assoc. split_and!; [done..| | |done].
    + intros k' Hin. specialize (Hs k'). set_solver.
    + intros k' a' b' Hin. rewrite lookup_insert_ne; [eapply Hm; by right|]. intros <-.
      apply Hk, list_elem_of_fmap. by exists (k, b').
Qed.

(** What a profile must be: every path concrete, no key listed twice or
    entered twice, an entry at odds with no list, something granted, and no
    more than sixteen keys in all. *)
Definition unambiguous (p : QuestionPermissions) : Prop :=
  no_glob_depth p ∧
  ∃ ls es, keyed (p_listed p) = Some ls ∧ keyed (p_entries p) = Some es ∧
    NoDup ls.*1 ∧ NoDup es.*1 ∧
    (∀ k a b, (k, a) ∈ ls → (k, b) ∈ es → a = b) ∧
    (network_granted p = true ∨ ls ≠ [] ∨ ∃ k a, (k, a) ∈ es ∧ a ≠ PDeny) ∧
    (size (list_to_set (app ls.*1 es.*1) : gset string) ≤ 16)%nat.

Lemma size_put_all ls es :
  size (put_all (put_all ∅ ls) es) = size (list_to_set (app ls.*1 es.*1) : gset string).
Proof.
  rewrite <-size_dom, !dom_put_all, dom_empty_L. f_equal. set_solver.
Qed.

Lemma granted_iff g (ls es : keyed_list) :
  (g || negb (length ls =? 0)%nat) || existsb (λ ka, ka.2 != PDeny) es = true ↔
  g = true ∨ ls ≠ [] ∨ ∃ k a, (k, a) ∈ es ∧ a ≠ PDeny.
Proof.
  rewrite !orb_true_iff, existsb_exists, negb_true_iff, Nat.eqb_neq, length_zero_iff_nil.
  split.
  - intros [[?|?]|([k a] & Hin & Ha)]; [by left|by right; left|]. right. right. exists k, a.
    split; [by apply list_elem_of_In|]. by split_and_bool.
  - intros [?|[?|(k & a & Hin & Ha)]]; [by left; left|by left; right|]. right. exists (k, a).
    split; [by apply list_elem_of_In|]. simpl. by apply negb_true_iff, eqb_false.
Qed.

Lemma elem_of_retain_first x shown l : x ∈ retain_first shown l ↔ x ∈ l ∧ x ∉ shown.
Proof.
  revert shown. induction l as [|y l IH]; intros shown; simpl; [set_solver|].
  case_bool_decide; rewrite ?elem_of_cons, IH; [|destruct (decide (x = y))]; set_solver.
Qed.

Lemma NoDup_retain_first shown l : NoDup (retain_first shown l).
Proof.
  revert shown. induction l as [|y l IH]; intros shown; simpl; [constructor|].
  case_bool_decide; [done|]. constructor; [|done]. rewrite elem_of_retain_first. set_solver.
Qed.
End PermissionsFacts.

Module PermissionsProps.
Import PermissionsFacts.

(** A profile passes the check exactly when it is unambiguous: the loops over
    the legacy lists and the entries decide the declarative statement. *)
Theorem valid_iff_unambiguous (p : QuestionPermissions) : valid p = true ↔ unambiguous p.
Proof.
  unfold valid, unambiguous, no_glob_depth, p_listed, p_entries.
  destruct (qp_file_system p) as [files|].
  - unfold files_state. destruct (pf_glob_scan_max_depth files); simpl; [by split; [|intros [? _]]|].
    split.
    + destruct (take_listed _ _) as [[m g]|] eqn:Hl; [|done].
      apply take_listed_Some in Hl as (ls & Hls & Hnl & _ & [= -> ->]).
      destruct (take_entries _ _ _) as [[m' g']|] eqn:He; [|done].
      apply take_entries_Some in He as (es & Hes & Hne & _ & Hag & [= -> ->]).
      rewrite andb_true_iff, granted_iff, Nat.leb_le, size_put_all. intros [Hg Hs].
      split; [done|]. exists ls, es. split_and!; try done.
      intros k a b Ha Hb. eapply Hag; [done|]. by apply put_all_lookup_NoDup.
    + intros (_ & ls & es & Hls & Hes & Hnl & Hne & Hag & Hg & Hs).
      erewrite (proj2 (take_listed_Some _ _ _ _)) by (exists ls; by split_and!; try done; set_solver).
      erewrite (proj2 (take_entries_Some _ _ _ _ _)); cycle 1.
      * exists es. split_and!; [done|done|set_solver| |done].
        intros k a b Hb Ha%put_all_lookup. rewrite lookup_empty in Ha.
        destruct Ha as [Ha|]; [|done]. by eapply Hag.
      * apply andb_true_iff. rewrite granted_iff, Nat.leb_le, size_put_all. by split.
  - rewrite andb_true_r. split.
    + intros Hg. split; [exact I|]. exists [], []. simpl.
      split_and!; [done|done|constructor|constructor|set_solver|by left|vm_compute; lia].
    + intros (_ & ls & es & [= <-] & [= <-] & _ & _ & _ & [?|[?|(k & a & Hin & _)]] & _); try done.
      by apply not_elem_of_nil in Hin.
Qed.

(** Everything a profile says is shown, each line once: what a person grants
    is what they read. *)
Theorem lines_show_everything_once (p : QuestionPermissions) :
  NoDup (lines p) ∧ ∀ line, line ∈ lines p ↔ line ∈ all_lines p.
Proof.
  split; [apply NoDup_retain_first|]. intros line. unfold lines.
  rewrite elem_of_retain_first. set_solver.
Qed.
End PermissionsProps.
