(* ===== verification/Json.v ===== *)
(** * JSON values and 64-bit floats

    What the sources use of [serde_json::Value] and of [f64]. A value is the
    inductive type of its variants; an object is the list of its entries in the
    order its map iterates (a [BTreeMap]: by key, each key once). A float is
    the [spec_float] of the Standard Library at binary64. Printing and parsing
    JSON text is serde's own: the class [SerdeJson]. *)

From Stdlib Require Import Ascii SpecFloat.
From S2P Require Import Prelude RustStr.

Local Open Scope rust_scope.

(** ** [f64] *)

Abbreviation f64 := spec_float (only parsing).

(** [n as f64]: to nearest, ties to even. *)
Definition f64_of_Z (n : Z) : f64 := binary_normalize 53 1024 n 0 false.
Definition f64_abs (f : f64) : f64 := SFabs f.
Definition f64_leb (a b : f64) : bool := SFleb a b.
Definition f64_ltb (a b : f64) : bool := SFltb a b.
Definition f64_eqb (a b : f64) : bool := SFeqb a b.
Definition f64_neg (f : f64) : f64 := SFopp f.

Definition f64_is_finite (f : f64) : bool :=
  match f with S754_zero _ | S754_finite _ _ _ => true | _ => false end.

(** [f.fract() == 0.0]: no bit below the binary point. *)
Definition f64_fract_is_zero (f : f64) : bool :=
  match f with
  | S754_zero _ => true
  | S754_finite _ m e => (0 <=? e)%Z || (Z.pos m `mod` 2 ^ (- e) =? 0)%Z
  | _ => false
  end.

(** ** Values *)

#[local] Set Warnings "-register-all".

Inductive Number :=
| PosInt (n : Z)
| NegInt (n : Z)
| Float (f : f64).

Inductive Json :=
| JNull
| JBool (b : bool)
| JNumber (n : Number)
| JString (s : string)
| JArray (l : list Json)
| JObject (entries : list (string * Json)).

Definition json_is_null (v : Json) : bool := match v with JNull => true | _ => false end.
Definition json_is_boolean (v : Json) : bool := match v with JBool _ => true | _ => false end.
Definition as_str (v : Json) : option string := match v with JString s => Some s | _ => None end.
Definition as_array (v : Json) : option (list Json) := match v with JArray l => Some l | _ => None end.
Definition as_object (v : Json) : option (list (string * Json)) :=
  match v with JObject l => Some l | _ => None end.
Definition as_u64 (v : Json) : option Z :=
  match v with JNumber (PosInt n) => Some n | _ => None end.
Definition as_f64 (v : Json) : option f64 :=
  match v with
  | JNumber (PosInt n) | JNumber (NegInt n) => Some (f64_of_Z n)
  | JNumber (Float f) => Some f
  | _ => None
  end.

Definition map_get (entries : list (string * Json)) (key : string) : option Json :=
  snd <$> List.find (λ kv, kv.1 == key) entries.

(** [value.get(key)] *)
Definition json_get (v : Json) (key : string) : option Json :=
  match v with JObject l => map_get l key | _ => None end.

(** [value[key]]: null where there is no such member. *)
Definition json_index (v : Json) (key : string) : Json := unwrap_or JNull (json_get v key).

(** [value[i]] on arrays. *)
Definition json_nth (v : Json) (i : nat) : Json :=
  match v with JArray l => unwrap_or JNull (l !! i) | _ => JNull end.

(** [value == text]. *)
Definition json_is_str (v : Json) (text : string) : bool := as_str v == Some text.

Class SerdeJson := {
  json_to_string : Json → string;
  json_to_string_pretty : Json → string;
  json_from_str : string → option Json;
}.

(** ** Lemmas *)

Lemma map_get_elem l k v : map_get l k = Some v → (k, v) ∈ l.
Proof.
  unfold map_get. destruct (List.find _ l) as [[k' v']|] eqn:E; [|done].
  apply List.find_some in E as [Hin Hk]. simpl in *. intros [= <-].
  apply (proj1 (eqb_true _ _)) in Hk as <-. by apply list_elem_of_In.
Qed.

Lemma map_get_NoDup l k v : NoDup l.*1 → (k, v) ∈ l → map_get l k = Some v.
Proof.
  unfold map_get. induction l as [|[k' v'] l IH]; simpl; [by intros _ ?%not_elem_of_nil|].
  rewrite NoDup_cons, elem_of_cons. intros [Hk Hnd] [[= <- <-]|Hin].
  - by rewrite eqb_refl.
  - destruct (k' == k) eqn:E; [|by apply IH]. apply (proj1 (eqb_true _ _)) in E as ->.
    destruct Hk. apply list_elem_of_fmap. by exists (k, v).
Qed.

Lemma map_get_None l k : map_get l k = None ↔ k ∉ l.*1.
Proof.
  unfold map_get. induction l as [|[k' v'] l IH]; simpl; [set_solver|].
  destruct (k' == k) eqn:E; split_and_bool; set_solver.
Qed.
