(* ===== verification/Elicitation.v ===== *)
(** * Forms a provider asks a person to fill in

    The model of [crates/core/src/elicitation.rs]: the flat, bounded subset of
    an MCP form schema, its parsing, and the check of a response against it.
    The four text formats are decided by third-party parsers, the class
    [FormFormats]. *)

From Stdlib Require Import Ascii SpecFloat.
From S2P Require Import Prelude RustStr Order Json.

Local Open Scope rust_scope.
Local Open Scope string_scope.

Definition MAX_FORM_TEXT : Z := 4096.
Definition MAX_FORM_BYTES : Z := 16000.
Definition MAX_FIELDS : nat := 16.
Definition MAX_OPTIONS : nat := 32.
Definition MAX_NUMBER : f64 := f64_of_Z 9007199254740991.

(** [email_address], [fluent_uri] and chrono's parsers. *)
Class FormFormats := {
  is_email : string → bool;
  is_uri : string → bool;
  is_naive_date : string → bool;
  is_rfc3339 : string → bool;
}.

Inductive FormKind :=
| Text (min max : Z) (format : option string)
| NumberKind (integer : bool) (min max : f64)
| Boolean
| Select (options : list (string * string)) (multiple : bool) (min max : nat).

Record FormField := mkField {
  ff_key : string;
  ff_title : string;
  ff_description : string;
  ff_required : bool;
  ff_kind : FormKind;
  ff_default : option Json;
}.

Record McpForm := mkForm { fields : list FormField }.

(** The characters that change how text is displayed, by their UTF-8 bytes:
    U+061C, U+200E, U+200F, U+2028-U+202E and U+2066-U+2069. *)
Definition display_char (c : string) : bool :=
  match c with
  | String a (String b "") => (byte_val a =? 216)%N && (byte_val b =? 156)%N
  | String a (String b (String d "")) =>
      (byte_val a =? 226)%N
      && (((byte_val b =? 128)%N && (in_range 142 143 d || in_range 168 174 d))
          || ((byte_val b =? 129)%N && in_range 166 169 d))
  | _ => false
  end.

Definition newline : string := String "010" "".
Definition tab : string := String "009" "".

Definition visible (value : string) (max : Z) : bool :=
  (byte_len value <=? max)%Z
  && negb (existsb (λ c, (is_control c && negb ((c == newline) || (c == tab))) || display_char c)
             (chars value)).

Definition object (value : Json) (allowed : list string) : result (list (string * Json)) string :=
  match as_object value with
  | None => Err "Expected a flat form object"
  | Some entries =>
      if existsb (λ kv, negb (existsb (eqb kv.1) allowed)) entries
      then Err "Unsupported form schema field"
      else if existsb (λ kv, json_is_null kv.2) entries
      then Err "Form schema fields cannot be null"
      else Ok entries
  end.

Definition string_of (value : Json) (max : Z) : result string string :=
  match as_str value with
  | Some v => if visible v max then Ok v else Err "Invalid or oversized form text"
  | None => Err "Invalid or oversized form text"
  end.

Definition optional_string (value : Json) (max : Z) : result string string :=
  if json_is_null value then Ok "" else string_of value max.

Definition limit (value : Json) (default maximum : Z) : result Z string :=
  if json_is_null value then Ok default
  else match as_u64 value with
       | Some n => if (n <=? maximum)%Z then Ok n else Err "Form bound exceeds the supported limit"
       | None => Err "Form bound exceeds the supported limit"
       end.

Definition number (value : Json) (default : f64) : result f64 string :=
  if json_is_null value then Ok default
  else match as_f64 value with
       | Some n =>
           if f64_is_finite n && f64_leb (f64_abs n) MAX_NUMBER then Ok n
           else Err "Form number exceeds the exact supported range"
       | None => Err "Form number exceeds the exact supported range"
       end.

(** One option: its value and its label. *)
Definition option_of (schema : Json) (titled : string) (names : option Json) (index : nat) (value : Json)
    : result (string * string) string :=
  if json_is_null (json_index schema titled) then
    let? key := string_of value 256 in
    match names with
    | Some n => let? label := string_of (json_nth n index) 256 in Ok (key, label)
    | None => Ok (key, key)
    end
  else
    let? _ := object value ["const"; "title"] in
    let? key := string_of (json_index value "const") 256 in
    let? label := string_of (json_index value "title") 256 in
    Ok (key, label).

Fixpoint options_loop (schema : Json) (titled : string) (names : option Json) (index : nat)
    (values : list Json) (seen : gset string) : result (list (string * string)) string :=
  match values with
  | [] => Ok []
  | value :: rest =>
      let? kl := option_of schema titled names index value in
      if (trim kl.2 == "") || bool_decide (kl.1 ∈ seen)
      then Err "Selection options must have unique values and visible labels"
      else
        let? result := options_loop schema titled names (S index) rest ({[kl.1]} ∪ seen) in
        Ok (kl :: result)
  end.

Definition not_null (o : option Json) : option Json :=
  match o with Some v => if json_is_null v then None else Some v | None => None end.

Definition options (schema : Json) (titled : string) : result (list (string * string)) string :=
  let values :=
    if json_is_null (json_index schema titled) then json_index schema "enum"
    else json_index schema titled in
  match as_array values with
  | Some vs =>
      if negb (length vs =? 0)%nat && (length vs <=? MAX_OPTIONS)%nat then
        let names := not_null (json_get schema "enumNames") in
        if is_some_and (λ n, negb (is_some_and (λ l, length l =? length vs)%nat (as_array n))) names
        then Err "Option names do not match their values"
        else options_loop schema titled names 0 vs ∅
      else Err "A selection needs bounded options"
  | None => Err "A selection needs bounded options"
  end.

(** ** Checking a value against a field *)

Section Formats.
Context {FF : FormFormats} {SJ : SerdeJson}.

Definition format_ok (format : option string) (s : string) : bool :=
  match format with
  | None => true
  | Some f =>
      if f == "email" then is_email s
      else if f == "uri" then is_uri s
      else if f == "date" then (byte_len s =? 10)%Z && is_naive_date s
      else if f == "date-time" then is_rfc3339 s
      else false
  end.

Definition known (opts : list (string * string)) (v : Json) : bool :=
  is_some_and (λ s, existsb (λ kl, kl.1 == s) opts) (as_str v).

Definition str_or_empty (v : Json) : string := unwrap_or "" (as_str v).

Definition value_ok (k : FormKind) (value : Json) : bool :=
  match k with
  | Text min max format =>
      is_some_and (λ s, visible s MAX_FORM_TEXT
                        && (min <=? Z.of_nat (chars_count s))%Z
                        && (Z.of_nat (chars_count s) <=? max)%Z
                        && format_ok format s) (as_str value)
  | NumberKind integer min max =>
      is_some_and (λ n, f64_is_finite n && f64_leb (f64_abs n) MAX_NUMBER
                        && f64_leb min n && f64_leb n max
                        && (negb integer || f64_fract_is_zero n)) (as_f64 value)
  | Boolean => json_is_boolean value
  | Select opts multiple min max =>
      if multiple then
        is_some_and (λ vs, (min <=? length vs)%nat && (length vs <=? max)%nat
                           && forallb (known opts) vs
                           && (size (list_to_set (str_or_empty <$> vs) : gset string) =? length vs)%nat)
          (as_array value)
      else known opts value
  end.

Definition is_text (k : FormKind) : bool := match k with Text _ _ _ => true | _ => false end.

Definition field_validate (f : FormField) (value : Json) : result unit string :=
  if is_text (ff_kind f) && is_some_and (λ s, (MAX_FORM_TEXT <? byte_len s)%Z) (as_str value)
  then Err "Text exceeds the 4,096-byte limit"
  else if value_ok (ff_kind f) value then Ok ()
  else Err "The value does not meet this field's type, format or bounds".

(** ** Parsing a schema *)

(** The kind of one field, with the members its schema may have besides the
    common ones: an arm for each type. *)
Definition select_kind (value : Json) : result (FormKind * list string) string :=
  let enum_null := json_is_null (json_index value "enum") in
  let one_of_null := json_is_null (json_index value "oneOf") in
  if negb enum_null && negb one_of_null then Err "Conflicting selection schema"
  else
    let? opts := options value "oneOf" in
    Ok (Select opts false 1 1, if one_of_null then ["enum"; "enumNames"] else ["oneOf"]).

Definition format_of (value : Json) : result (option string) string :=
  if json_is_null value then Ok None
  else
    let? f := string_of value 16 in
    if existsb (eqb f) ["email"; "uri"; "date"; "date-time"] then Ok (Some f)
    else Err "Unsupported text format".

Definition text_kind (value : Json) : result (FormKind * list string) string :=
  let? min := limit (json_index value "minLength") 0 MAX_FORM_TEXT in
  let? max := limit (json_index value "maxLength") MAX_FORM_TEXT MAX_FORM_TEXT in
  let? format := format_of (json_index value "format") in
  if (max <? min)%Z then Err "Invalid text length bounds"
  else Ok (Text min max format, ["minLength"; "maxLength"; "format"]).

Definition number_kind (value : Json) : result (FormKind * list string) string :=
  let? min := number (json_index value "minimum") (f64_neg MAX_NUMBER) in
  let? max := number (json_index value "maximum") MAX_NUMBER in
  if f64_ltb max min then Err "Invalid number bounds"
  else Ok (NumberKind (json_is_str (json_index value "type") "integer") min max,
           ["minimum"; "maximum"]).

Definition check_items (items : Json) : result unit string :=
  if json_is_null (json_index items "anyOf") then
    let? _ := object items ["type"; "enum"] in
    if json_is_str (json_index items "type") "string" then Ok ()
    else Err "Only string selections are supported"
  else let? _ := object items ["anyOf"] in Ok ().

Definition array_kind (value : Json) : result (FormKind * list string) string :=
  let items := json_index value "items" in
  let? _ := check_items items in
  let? opts := options items "anyOf" in
  let? min := limit (json_index value "minItems") 0 (Z.of_nat (length opts)) in
  let? max := limit (json_index value "maxItems") (Z.of_nat (length opts)) (Z.of_nat MAX_OPTIONS) in
  let max := Z.min max (Z.of_nat (length opts)) in
  if (max <? min)%Z then Err "Invalid selection bounds"
  else Ok (Select opts true (Z.to_nat min) (Z.to_nat max), ["items"; "minItems"; "maxItems"]).

Definition kind_of (value : Json) : result (FormKind * list string) string :=
  match as_str (json_index value "type") with
  | Some ty =>
      if (ty == "string")
         && (negb (json_is_null (json_index value "enum")) || negb (json_is_null (json_index value "oneOf")))
      then select_kind value
      else if ty == "string" then text_kind value
      else if (ty == "number") || (ty == "integer") then number_kind value
      else if ty == "boolean" then Ok (Boolean, [])
      else if ty == "array" then array_kind value
      else Err "Unsupported form field type"
  | None => Err "Unsupported form field type"
  end.

Definition bad_field_name (key : string) : bool :=
  (trim key == "") || (128 <? byte_len key)%Z || negb (visible key 128)
  || contains_char "010" key || contains_char "009" key.

Definition parse_field (required : gset string) (key : string) (value : Json) : result FormField string :=
  if bad_field_name key then Err "Invalid form field name"
  else
    let? ka := kind_of value in
    let? _ := object value (app ["type"; "title"; "description"; "default"] ka.2) in
    let? title := optional_string (json_index value "title") 256 in
    let? description := optional_string (json_index value "description") MAX_FORM_TEXT in
    let f := mkField key (if trim title == "" then key else title) description
               (bool_decide (key ∈ required)) ka.1 (not_null (json_get value "default")) in
    match ff_default f with
    | Some default => let? _ := field_validate f default in Ok f
    | None => Ok f
    end.

Fixpoint parse_fields (required : gset string) (properties : list (string * Json))
    : result (list FormField) string :=
  match properties with
  | [] => Ok []
  | (key, value) :: rest =>
      let? f := parse_field required key value in
      let? fs := parse_fields required rest in
      Ok (f :: fs)
  end.

Fixpoint required_loop (properties : list (string * Json)) (keys : list Json) (required : gset string)
    : result (gset string) string :=
  match keys with
  | [] => Ok required
  | k :: rest =>
      match as_str k with
      | None => Err "Invalid required field name"
      | Some key =>
          if is_none (map_get properties key) || bool_decide (key ∈ required)
          then Err "Invalid required fields"
          else required_loop properties rest ({[key]} ∪ required)
      end
  end.

Definition required_of (properties : list (string * Json)) (value : Json) : result (gset string) string :=
  if json_is_null value then Ok ∅
  else match as_array value with
       | None => Err "Invalid required fields"
       | Some keys => required_loop properties keys ∅
       end.

Definition form_parse (schema : Json) : result McpForm string :=
  if (MAX_FORM_BYTES <? byte_len (json_to_string schema))%Z then Err "Form schema is too large"
  else
    let? _ := object schema ["type"; "properties"; "required"; "$schema"] in
    let? _ := optional_string (json_index schema "$schema") 256 in
    if negb (json_is_str (json_index schema "type") "object") then Err "A form must be a flat object"
    else match as_object (json_index schema "properties") with
    | None => Err "A form needs one to sixteen fields"
    | Some properties =>
        if negb (length properties =? 0)%nat && (length properties <=? MAX_FIELDS)%nat then
          let? required := required_of properties (json_index schema "required") in
          let? fs := parse_fields required properties in
          Ok (mkForm fs)
        else Err "A form needs one to sixteen fields"
    end.

(** ** Responses *)

Fixpoint validate_fields (fs : list FormField) (values : list (string * Json)) : result unit string :=
  match fs with
  | [] => Ok ()
  | f :: rest =>
      match map_get values (ff_key f) with
      | Some value => let? _ := field_validate f value in validate_fields rest values
      | None =>
          if ff_required f then Err "Complete every required field"
          else validate_fields rest values
      end
  end.

Definition form_validate (form : McpForm) (content : Json) : result unit string :=
  if (MAX_FORM_BYTES <? byte_len (json_to_string content))%Z then Err "Form response is too large"
  else match as_object content with
  | None => Err "A form response must be an object"
  | Some values =>
      if existsb (λ kv, negb (existsb (λ f, ff_key f == kv.1) (fields form))) values
      then Err "Unknown form response field"
      else validate_fields (fields form) values
  end.

Definition response (form : McpForm) (answer : string) : option Json :=
  if (answer == "Decline") || (answer == "Cancel") then
    Some (JObject [("action", JString (to_ascii_lowercase answer)); ("content", JNull)])
  else if (MAX_FORM_BYTES <? byte_len answer)%Z then None
  else match json_from_str answer with
  | None => None
  | Some content =>
      match form_validate form content with
      | Ok _ => Some (JObject [("action", JString "accept"); ("content", content)])
      | Err _ => None
      end
  end.

(** [collect] into a [BTreeMap]: a later default of the same key replaces an
    earlier one. *)
Definition put_default (m : gmap string Json) (f : FormField) : gmap string Json :=
  match ff_default f with Some v => <[ff_key f := v]> m | None => m end.

Definition defaults (form : McpForm) : gmap string Json := foldl put_default ∅ (fields form).
End Formats.

Module ElicitationFacts.
Section Facts.
Context {FF : FormFormats} {SJ : SerdeJson}.

(** What a field's kind must satisfy for a value to be able to meet it. *)
Definition kind_wf (k : FormKind) : Prop :=
  match k with
  | Text min max format =>
      (min ≤ max ≤ MAX_FORM_TEXT)%Z ∧
      is_none_or (λ f, existsb (eqb f) ["email"; "uri"; "date"; "date-time"]) format = true
  | NumberKind _ min max =>
      f64_is_finite min = true ∧ f64_is_finite max = true ∧ f64_ltb max min = false
  | Boolean => True
  | Select opts multiple min max =>
      opts ≠ [] ∧ length opts ≤ MAX_OPTIONS ∧ NoDup opts.*1 ∧
      Forall (λ kl, trim kl.2 ≠ "") opts ∧ min ≤ max ≤ length opts
  end%nat.

Definition field_wf (f : FormField) : Prop :=
  bad_field_name (ff_key f) = false ∧ trim (ff_title f) ≠ "" ∧ kind_wf (ff_kind f) ∧
  ∀ v, ff_default f = Some v → field_validate f v = Ok ().

Lemma options_loop_Ok schema titled names i vs seen opts :
  options_loop schema titled names i vs seen = Ok opts →
  length opts = length vs ∧ NoDup opts.*1 ∧ (∀ k, k ∈ opts.*1 → k ∉ seen) ∧
  Forall (λ kl, trim kl.2 ≠ "") opts.
Proof.
  revert i seen opts. induction vs as [|v vs IH]; intros i seen opts; simpl.
  { intros [= <-]. split_and!; [done|constructor|set_solver|constructor]. }
  destruct (option_of _ _ _ _ _) as [kl|]; [|done].
  destruct (_ || _) eqn:E; [done|]. split_and_bool.
  destruct (options_loop _ _ _ _ _ _) as [r|] eqn:Hr; [|done]. intros [= <-].
  apply IH in Hr as (Hl & Hnd & Hs & Hf). simpl. split_and!.
  - by rewrite Hl.
  - constructor; [|done]. intros Hin%Hs. set_solver.
  - intros k [->|Hin]%elem_of_cons; [done|]. apply Hs in Hin. set_solver.
  - by constructor.
Qed.

Lemma options_Ok schema titled opts :
  options schema titled = Ok opts →
  opts ≠ [] ∧ (length opts ≤ MAX_OPTIONS)%nat ∧ NoDup opts.*1 ∧ Forall (λ kl, trim kl.2 ≠ "") opts.
Proof.
  unfold options. destruct (as_array _) as [vs|]; [|done].
  destruct (_ && _) eqn:E; [|done]. split_and_bool.
  destruct (is_some_and _ _); [done|]. intros (Hl & Hnd & _ & Hf)%options_loop_Ok.
  apply Nat.eqb_neq in H. apply Nat.leb_le in H0. rewrite Hl.
  split_and!; [by intros ->|done..].
Qed.

Lemma limit_Ok v d m n : limit v d m = Ok n → (d ≤ m)%Z → (n ≤ m)%Z.
Proof. unfold limit. repeat case_match; intros; simplify_eq; lia. Qed.

Lemma number_Ok v d n : number v d = Ok n → f64_is_finite d = true → f64_is_finite n = true.
Proof. unfold number. repeat case_match; intros; simplify_eq; by split_and_bool. Qed.

Lemma select_kind_wf v ka : select_kind v = Ok ka → kind_wf ka.1.
Proof.
  unfold select_kind. destruct (_ && _); [done|].
  destruct (options _ _) as [opts|] eqn:Ho; [|done]. intros [= <-].
  apply options_Ok in Ho as (Hne & ? & ? & ?). simpl. split_and!; try done.
  destruct opts; simpl; [done|lia].
Qed.

Lemma text_kind_wf v ka : text_kind v = Ok ka → kind_wf ka.1.
Proof.
  unfold text_kind. destruct (limit _ 0 _) as [min|]; [|done].
  destruct (limit _ MAX_FORM_TEXT _) as [max|] eqn:Hmax; [|done]. apply limit_Ok in Hmax; [|done].
  destruct (format_of _) as [fm|] eqn:Hf; [|done].
  destruct (max <? min)%Z eqn:E; [done|]. intros [= <-]. apply Z.ltb_ge in E. simpl. split; [lia|].
  revert Hf. unfold format_of. repeat case_match; intros; by simplify_eq.
Qed.

Lemma number_kind_wf v ka : number_kind v = Ok ka → kind_wf ka.1.
Proof.
  unfold number_kind. destruct (number _ (f64_neg _)) as [min|] eqn:Hmin; [|done].
  destruct (number _ MAX_NUMBER) as [max|] eqn:Hmax; [|done].
  destruct (f64_ltb max min) eqn:E; [done|]. intros [= <-].
  apply number_Ok in Hmin; [|by vm_compute]. apply number_Ok in Hmax; [|by vm_compute]. done.
Qed.

Lemma array_kind_wf v ka : array_kind v = Ok ka → kind_wf ka.1.
Proof.
  unfold array_kind. destruct (check_items _); [|done].
  destruct (options _ _) as [opts|] eqn:Ho; [|done]. apply options_Ok in Ho as (? & ? & ? & ?).
  destruct (limit _ 0 _) as [min|] eqn:Hmin; [|done]. apply limit_Ok in Hmin; [|lia].
  destruct (limit _ (Z.of_nat (length opts)) _) as [max|]; [|done].
  destruct (_ <? _)%Z eqn:E; [done|]. intros [= <-]. apply Z.ltb_ge in E. simpl.
  split_and!; try done; lia.
Qed.

Lemma kind_of_wf v ka : kind_of v = Ok ka → kind_wf ka.1.
Proof.
  unfold kind_of. destruct (as_str _) as [ty|]; [|done].
  destruct (_ && _); [apply select_kind_wf|]. destruct (_ == "string"); [apply text_kind_wf|].
  destruct (_ || _); [apply number_kind_wf|]. destruct (_ == "boolean"); [by intros [= <-]|].
  destruct (_ == "array"); [apply array_kind_wf|done].
Qed.

Lemma parse_field_Ok required key v f :
  parse_field required key v = Ok f →
  field_wf f ∧ ff_key f = key ∧ ff_required f = bool_decide (key ∈ required).
Proof.
  unfold parse_field. destruct (bad_field_name key) eqn:Hk; [done|].
  destruct (kind_of v) as [ka|] eqn:Hka; [|done]. apply kind_of_wf in Hka.
  destruct (object _ _); [|done]. destruct (optional_string _ 256) as [title|]; [|done].
  destruct (optional_string _ _) as [descr|]; [|done].
  set (f0 := mkField _ _ _ _ _ _). intros H.
  assert (f = f0 ∧ ∀ d, ff_default f0 = Some d → field_validate f0 d = Ok ()) as [-> Hd].
  { destruct (ff_default f0) as [d|]; [|by simplify_eq].
    destruct (field_validate f0 d) as [[]|] eqn:E; [|done]. simplify_eq. split; [done|]. by intros ? [= <-]. }
  split_and!; [|done..]. split_and!; [done| |done|done].
  simpl. destruct (trim title == "") eqn:E; split_and_bool; [|done].
  unfold bad_field_name in Hk. by split_and_bool.
Qed.

Lemma parse_fields_Ok required props fs :
  parse_fields required props = Ok fs →
  Forall field_wf fs ∧ ff_key <$> fs = props.*1 ∧
  Forall (λ f, ff_required f = bool_decide (ff_key f ∈ required)) fs.
Proof.
  revert fs. induction props as [|[k v] props IH]; intros fs; simpl; [by intros [= <-]; repeat constructor|].
  destruct (parse_field _ _ _) as [f|] eqn:Hf; [|done].
  destruct (parse_fields _ _) as [fs'|]; [|done]. intros [= <-].
  destruct (IH _ eq_refl) as (Hw & Hk & Hr). apply parse_field_Ok in Hf as (Hwf & Hkey & Hreq).
  split_and!; [by constructor|csimpl; by rewrite Hkey, Hk|]. constructor; [by rewrite Hreq, Hkey|done].
Qed.

Lemma form_parse_Ok schema form :
  form_parse schema = Ok form →
  ∃ props required, json_index schema "properties" = JObject props ∧
    parse_fields required props = Ok (fields form) ∧ (1 ≤ length props ≤ MAX_FIELDS)%nat.
Proof.
  unfold form_parse. intros H. destruct (_ <? _)%Z; [done|]. destruct (object _ _); [|done].
  destruct (optional_string _ _); [|done]. destruct (negb _); [done|].
  destruct (json_index schema "properties") as [| | | | |props]; try done. simpl in H.
  destruct (negb _ && _) eqn:E; [|done]. destruct (required_of _ _) as [required|]; [|done].
  destruct (parse_fields _ _) as [fs|] eqn:Hfs; [|done]. injection H as <-.
  exists props, required. split_and_bool. apply Nat.eqb_neq in H. apply Nat.leb_le in H0.
  split_and!; [done..|lia|done].
Qed.

(** One pass over the fields accepts exactly when each is met or missing and
    not required. *)
Lemma validate_fields_Ok fs values :
  validate_fields fs values = Ok () ↔
  Forall (λ f, match map_get values (ff_key f) with
               | Some v => field_validate f v = Ok ()
               | None => ff_required f = false
               end) fs.
Proof.
  induction fs as [|f fs IH]; simpl; [by split|]. rewrite Forall_cons.
  destruct (map_get _ _) as [v|].
  - destruct (field_validate f v) as [[]|]; [|by split; [|intros [? _]]]. rewrite IH. naive_solver.
  - destruct (ff_required f); [by split; [|intros [? _]]|]. rewrite IH. naive_solver.
Qed.

(** No key of the response is unknown to the form. *)
Lemma known_keys_iff (form : McpForm) (values : list (string * Json)) :
  existsb (λ kv, negb (existsb (λ f, ff_key f == kv.1) (fields form))) values = false ↔
  ∀ k v, (k, v) ∈ values → ∃ f, f ∈ fields form ∧ ff_key f = k.
Proof.
  induction values as [|[k v] values IH]; simpl; [set_solver|].
  rewrite orb_false_iff, negb_false_iff, IH, existsb_exists.
  setoid_rewrite <-list_elem_of_In. setoid_rewrite eqb_true. set_solver.
Qed.

Lemma map_get_btree_iter (m : gmap string Json) (k : string) : map_get (btree_iter m) k = m !! k.
Proof.
  assert (NoDup (btree_iter m).*1) as Hnd.
  { unfold btree_iter. rewrite sort_by_key_perm. apply NoDup_fst_map_to_list. }
  destruct (m !! k) as [v|] eqn:E.
  - apply map_get_NoDup; [done|]. by apply elem_of_btree_iter.
  - apply map_get_None. intros ([k' v] & -> & Hin)%list_elem_of_fmap.
    apply elem_of_btree_iter in Hin. simpl in E. congruence.
Qed.

Lemma field_validate_value f v : field_validate f v = Ok () → value_ok (ff_kind f) v = true.
Proof. unfold field_validate. by repeat case_match. Qed.

(** The value a key has among the defaults is the default of its last field. *)
Lemma defaults_lookup (fs : list FormField) (m : gmap string Json) (k : string) (v : Json) :
  NoDup (ff_key <$> fs) →
  foldl put_default m fs !! k = Some v ↔
  (∃ f, f ∈ fs ∧ ff_key f = k ∧ ff_default f = Some v) ∨
  (m !! k = Some v ∧ ∀ f, f ∈ fs → ff_key f = k → ff_default f = None).
Proof.
  revert m. induction fs as [|f fs IH]; intros m; csimpl; [set_solver|].
  rewrite NoDup_cons. intros [Hk Hnd]. rewrite IH by done. clear IH.
  assert (∀ g, g ∈ fs → ff_key g ≠ ff_key f) as Hne.
  { intros g Hg Heq. apply Hk. rewrite <-Heq. by apply list_elem_of_fmap_2. }
  unfold put_default. destruct (ff_default f) as [d|] eqn:Ed; [destruct (decide (ff_key f = k)) as [<-|Hne']|].
  - rewrite lookup_insert_eq. set_solver.
  - rewrite lookup_insert_ne by done. set_solver.
  - set_solver.
Qed.
End Facts.
End ElicitationFacts.

Module ElicitationProps.
Import ElicitationFacts.
Section Props.
Context {FF : FormFormats} {SJ : SerdeJson}.

(** C34: A schema that parses gives a form a person can fill in: one to sixteen
    fields with the properties' names in their order, each with a visible
    name and title, bounds that some length, number or selection meets,
    distinct options, and a default that passes the field's own check. *)
Theorem parsed_form_well_formed (schema : Json) (form : McpForm) (Hp : form_parse schema = Ok form) :
  (1 ≤ length (fields form) ≤ MAX_FIELDS)%nat ∧ Forall field_wf (fields form) ∧
  ∃ props, json_index schema "properties" = JObject props ∧ ff_key <$> fields form = props.*1.
Proof.
  apply form_parse_Ok in Hp as (props & required & Hprops & Hfs & Hlen).
  apply parse_fields_Ok in Hfs as (Hw & Hk & _).
  assert (length (fields form) = length props) as Hl.
  { by rewrite <-(length_fmap ff_key (fields form)), Hk, length_fmap. }
  rewrite Hl. split_and!; [lia..|done|by exists props].
Qed.


(** The defaults of a parsed form, submitted as they stand, are accepted
    exactly when every required field has one: a default never breaks the
    rules of its own field. *)
Theorem parsed_defaults_are_acceptable (schema : Json) (form : McpForm) (Hp : form_parse schema = Ok form)
    (Hmap : NoDup (ff_key <$> fields form))
    (Hsize : (byte_len (json_to_string (JObject (btree_iter (defaults form)))) ≤ MAX_FORM_BYTES)%Z) :
  form_validate form (JObject (btree_iter (defaults form))) = Ok () ↔
  ∀ f, f ∈ fields form → ff_required f = true → is_Some (ff_default f).
Proof.
  apply form_parse_Ok in Hp as (props & required & _ & Hfs & _).
  apply parse_fields_Ok in Hfs as (Hw & _ & _). rewrite Forall_forall in Hw.
  assert (∀ k v, defaults form !! k = Some v ↔
          ∃ f, f ∈ fields form ∧ ff_key f = k ∧ ff_default f = Some v) as Hd.
  { intros k v. unfold defaults. rewrite defaults_lookup, lookup_empty by done. naive_solver. }
  unfold form_validate. apply Z.ltb_ge in Hsize as ->. simpl.
  rewrite (proj2 (known_keys_iff form _)); [|by intros k v (f & ? & ? & _)%elem_of_btree_iter%Hd; eauto].
  rewrite validate_fields_Ok, Forall_forall. apply forall_proper; intros f.
  rewrite map_get_btree_iter. split.
  - intros Hv Hf Hr. specialize (Hv Hf). destruct (defaults form !! ff_key f) as [v|] eqn:E; [|congruence].
    apply Hd in E as (g & Hg & Hkey & Hdef). exists v. rewrite <-Hdef. f_equal.
    by apply (NoDup_fmap_inj_elem ff_key (fields form)).
  - intros Hv Hf. destruct (defaults form !! ff_key f) as [v|] eqn:E.
    + apply Hd in E as (g & Hg & Hkey & Hdef).
      assert (g = f) as -> by by apply (NoDup_fmap_inj_elem ff_key (fields form)).
      by apply (Hw f Hf).
    + destruct (ff_required f) eqn:Hr; [|done]. destruct (Hv Hf eq_refl) as [v Hv'].
      assert (defaults form !! ff_key f = Some v) as Hs by (apply Hd; eauto). congruence.
Qed.
End Props.

(** A form with a required address and an optional choice, read with formats
    that accept everything and a reader of the empty object alone. *)
Definition w_formats : FormFormats :=
  {| is_email := contains_char "@"; is_uri _ := true; is_naive_date _ := true; is_rfc3339 _ := true |}.
Definition w_serde : SerdeJson :=
  {| json_to_string _ := "{}"; json_to_string_pretty _ := "{}";
     json_from_str s := if s == "{}" then Some (JObject []) else None |}.
Definition w_schema : Json :=
  JObject [("properties",
            JObject [("colour", JObject [("default", JString "red");
                                         ("enum", JArray [JString "red"; JString "blue"]);
                                         ("type", JString "string")]);
                     ("mail", JObject [("format", JString "email"); ("maxLength", JNumber (PosInt 64));
                                       ("type", JString "string")])]);
           ("required", JArray [JString "mail"]);
           ("type", JString "object")].
Definition w_form : McpForm :=
  mkForm [mkField "colour" "colour" "" false (Select [("red", "red"); ("blue", "blue")] false 1 1)
            (Some (JString "red"));
          mkField "mail" "mail" "" true (Text 0 64 (Some "email")) None].

Lemma parsed_form_well_formed_witness :
  form_parse (FF := w_formats) (SJ := w_serde) w_schema = Ok w_form ∧
  (1 ≤ length (fields w_form) ≤ MAX_FIELDS)%nat.
Proof.
  assert (form_parse (FF := w_formats) (SJ := w_serde) w_schema = Ok w_form) as Hp
    by (vm_compute; reflexivity).
  split; [exact Hp|].
  exact (proj1 (parsed_form_well_formed (FF := w_formats) (SJ := w_serde) w_schema w_form Hp)).
Defined.
End ElicitationProps.
