(* ===== verification/Url.v ===== *)
(** * The web addresses a person is asked to open

    The model of [mcp_url_authority] of [crates/core/src/message.rs], with the
    address parsers of [std::net] it calls. The parser of an authority is the
    [http] crate's own: the class [HttpAuthority]. *)

From Stdlib Require Import Ascii.
From stdpp Require Import pretty.
From S2P Require Import Prelude RustStr.

Local Open Scope rust_scope.
Local Open Scope string_scope.

(** ** [std::net]'s parsers: each takes the text that is left *)

Definition hex_value (a : ascii) : option N :=
  if is_ascii_digit a then Some (byte_val a - 48)%N
  else if in_range 97 102 a then Some (byte_val a - 87)%N
  else if in_range 65 70 a then Some (byte_val a - 55)%N
  else None.
Definition dec_value (a : ascii) : option N :=
  if is_ascii_digit a then Some (byte_val a - 48)%N else None.

(** The digits at the front: their value, their number, and the rest. *)
Fixpoint digits_run (digit : ascii → option N) (radix acc : N) (count : nat) (s : string)
    : N * nat * string :=
  match s with
  | "" => (acc, count, "")
  | String a rest =>
      match digit a with
      | Some d => digits_run digit radix (acc * radix + d) (S count) rest
      | None => (acc, count, s)
      end
  end.

Definition read_number (digit : ascii → option N) (radix : N) (max_digits : nat) (bound : N)
    (allow_zero_prefix : bool) (s : string) : option (N * string) :=
  let '(n, count, rest) := digits_run digit radix 0 0 s in
  if (max_digits <? count)%nat || (count =? 0)%nat then None
  else if negb allow_zero_prefix && starts_with s "0" && (1 <? count)%nat then None
  else if (n <? bound)%N then Some (n, rest) else None.

Definition read_u8 : string → option (N * string) := read_number dec_value 10 3 256 false.
Definition read_u16_hex : string → option (N * string) := read_number hex_value 16 4 65536 true.

(** [read_separator]: before every item but the first. *)
Definition read_separator {A} (sep : string) (index : nat) (inner : string → option (A * string)) (s : string)
    : option (A * string) :=
  if (index =? 0)%nat then inner s
  else match strip_prefix sep s with Some rest => inner rest | None => None end.

Fixpoint read_octets (left_ index : nat) (s : string) : option (list N * string) :=
  match left_ with
  | O => Some ([], s)
  | S left' =>
      match read_separator "." index read_u8 s with
      | None => None
      | Some (n, rest) =>
          match read_octets left' (S index) rest with
          | Some (ns, rest') => Some (n :: ns, rest')
          | None => None
          end
      end
  end.
Definition read_ipv4_addr : string → option (list N * string) := read_octets 4 0.

(** [s.parse::<Ipv4Addr>()] and its [Display]. *)
Definition parse_ipv4 (s : string) : option (list N) :=
  if (15 <? byte_len s)%Z then None
  else match read_ipv4_addr s with Some (ns, "") => Some ns | _ => None end.
Definition ipv4_to_string (ip : list N) : string := join "." (pretty <$> ip).

(** [read_groups] over [limit] slots: how many were read, whether the last two
    were an IPv4 address, and the text left. *)
Fixpoint read_groups (slots i limit : nat) (s : string) : nat * bool * string :=
  match slots with
  | O => (limit, false, s)
  | S slots' =>
      match (if (i <? limit - 1)%nat then read_separator ":" i read_ipv4_addr s else None) with
      | Some (_, rest) => ((i + 2)%nat, true, rest)
      | None =>
          match read_separator ":" i read_u16_hex s with
          | Some (_, rest) => read_groups slots' (S i) limit rest
          | None => (i, false, s)
          end
      end
  end.

Definition read_ipv6_addr (s : string) : option string :=
  let '(head_size, head_ipv4, rest) := read_groups 8 0 8 s in
  if (head_size =? 8)%nat then Some rest
  else if head_ipv4 then None
  else match strip_prefix "::" rest with
  | None => None
  | Some rest' =>
      let limit := (8 - (head_size + 1))%nat in
      Some (read_groups limit 0 limit rest').2
  end.
Definition is_ipv6 (s : string) : bool := read_ipv6_addr s == Some "".

(** ** The authority of a URL *)

(** [http::uri::Authority]: what parses, and the host of what does. *)
Class HttpAuthority := { authority_host : string → option string }.

Definition url_byte (a : ascii) : bool :=
  is_ascii_alphanumeric a || contains_char a "-._~:/?#[]@!$&'()*+,;=%".

(** Every [%] is followed by two hexadecimal digits. *)
Fixpoint percent_ok (s : string) : bool :=
  match s with
  | "" => true
  | String a rest =>
      (negb (Ascii.eqb a "%")
       || match rest with
          | String b (String c _) => is_ascii_hexdigit b && is_ascii_hexdigit c
          | _ => false
          end)
      && percent_ok rest
  end.

(** [s.split_once("://")] *)
Fixpoint split_scheme (s : string) : option (string * string) :=
  match strip_prefix "://" s with
  | Some rest => Some ("", rest)
  | None =>
      match s with
      | "" => None
      | String a s' =>
          match split_scheme s' with
          | Some (l, r) => Some (String a l, r)
          | None => None
          end
      end
  end.

Definition url_delimiter (a : ascii) : bool := Ascii.eqb a "/" || Ascii.eqb a "?" || Ascii.eqb a "#".

(** [rest.split(['/', '?', '#']).next()] *)
Fixpoint before_delimiter (s : string) : string :=
  match s with
  | "" => ""
  | String a s' => if url_delimiter a then "" else String a (before_delimiter s')
  end.

Definition port_ok (port : string) : bool :=
  (port == "")
  || is_some_and (λ p, (p != "") && sforall is_ascii_digit p
                       && is_some_and (λ n, (n <? 65536)%N && (0 <? n)%N) (dec_go 0 p))
       (strip_prefix ":" port).

(** [host.rsplit('.').next()] *)
Definition last_label (host : string) : string := unwrap_or "" (last (split_char "." host)).

Definition looks_numeric (label : string) : bool :=
  sforall is_ascii_digit label
  || is_some_and (λ s, (s != "") && sforall is_ascii_hexdigit s)
       (strip_prefix "0x" (to_ascii_lowercase label)).

Definition dns_label (label : string) : bool :=
  (label != "")
  && (byte_len label <=? 63)%Z
  && is_some_and is_ascii_alphanumeric (byte_at 0 label)
  && is_some_and is_ascii_alphanumeric (byte_at (String.length label - 1) label)
  && sforall (λ b, is_ascii_alphanumeric b || Ascii.eqb b "-") label.

(** [host.strip_prefix('[').and_then(|s| s.strip_suffix(']'))] *)
Definition bracketed (host : string) : option string :=
  match strip_prefix "[" host with
  | Some s => if ends_with_char "]" s then Some (stake (String.length s - 1) s) else None
  | None => None
  end.

Definition host_ok (host : string) : bool :=
  match bracketed host with
  | Some ipv6 => is_ipv6 ipv6
  | None =>
      if looks_numeric (last_label host)
      then is_some_and (λ ip, ipv4_to_string ip == host) (parse_ipv4 host)
      else (byte_len host <=? 253)%Z && forallb dns_label (split_char "." host)
  end.

Definition loopback (host : string) : bool := existsb (eqb host) ["localhost"; "127.0.0.1"; "[::1]"].

Definition mcp_url_authority {HA : HttpAuthority} (value : string) : option string :=
  if (8192 <? byte_len value)%Z || negb (sforall url_byte value) then None
  else if negb (percent_ok value) then None
  else match split_scheme value with
  | None => None
  | Some (scheme, rest) =>
      if negb ((scheme == "https") || (scheme == "http")) then None
      else
        let authority := before_delimiter rest in
        if contains_char "@" authority || contains_char "%" authority || ends_with_char ":" authority
        then None
        else match authority_host authority with
        | None => None
        | Some host =>
            match strip_prefix host authority with
            | None => None
            | Some port =>
                if negb (port_ok port) then None
                else if negb (host_ok host) then None
                else if (scheme == "http") && negb (loopback host) then None
                else Some authority
            end
        end
  end.

Module UrlFacts.

Lemma split_scheme_Some s l r : split_scheme s = Some (l, r) → s = (l ++ "://" ++ r)%string.
Proof.
  revert l. induction s as [|a s IH]; intros l.
  { intros H. cbn in H. discriminate H. }
  cbn [split_scheme]. destruct (strip_prefix "://" (String a s)) as [rest|] eqn:E.
  - intros [= <- <-]. rewrite append_nil_l. by apply strip_prefix_Some.
  - destruct (split_scheme s) as [[l' r']|]; [|done]. intros [= <- <-].
    rewrite append_cons. f_equal. by apply IH.
Qed.

(** The text after what stands before the first delimiter is nothing, or
    starts with the delimiter. *)
Lemma before_delimiter_rest s :
  ∃ rest, s = (before_delimiter s ++ rest)%string ∧
    (rest = "" ∨ ∃ a t, rest = String a t ∧ url_delimiter a = true).
Proof.
  induction s as [|a s (rest & IH & Hr)]; [by exists ""; split; [|left]|]. cbn [before_delimiter].
  destruct (url_delimiter a) eqn:Ea.
  - exists (String a s). split; [done|]. right. by exists a, s.
  - exists rest. split; [|done]. rewrite append_cons. by f_equal.
Qed.

Lemma before_delimiter_no_delimiter s : sexists url_delimiter (before_delimiter s) = false.
Proof. induction s as [|a s IH]; simpl; [done|]. destruct (url_delimiter a) eqn:Ea; simpl; by rewrite ?Ea. Qed.
End UrlFacts.

Module UrlProps.
Import UrlFacts.
Section Props.
Context {HA : HttpAuthority}.

(** C30: An address that is accepted is what it shows: a printable ASCII URL with
    scheme [https], or [http] to this machine alone, whose authority runs up
    to the first delimiter, holds no user information and no encoded byte, and
    is the host followed by nothing or a port; the host is a canonical address
    or a plain domain name. *)
Theorem accepted_url_is_what_it_shows (value authority : string)
    (Hok : mcp_url_authority value = Some authority) :
  ∃ scheme host port rest,
    value = (scheme ++ "://" ++ authority ++ rest)%string ∧
    (scheme = "https" ∨ (scheme = "http" ∧ loopback host = true)) ∧
    authority = (host ++ port)%string ∧ host_ok host = true ∧ port_ok port = true ∧
    contains_char "@" authority = false ∧ contains_char "%" authority = false ∧
    sexists url_delimiter authority = false ∧
    (rest = "" ∨ ∃ a t, rest = String a t ∧ url_delimiter a = true) ∧
    sforall url_byte value = true.
Proof.
  revert Hok. unfold mcp_url_authority. destruct (_ || _) eqn:E1; [done|].
  destruct (negb (percent_ok value)); [done|]. destruct (split_scheme value) as [[scheme r]|] eqn:E2; [|done].
  apply split_scheme_Some in E2. destruct (negb (_ || _)) eqn:E3; [done|].
  set (auth := before_delimiter r). destruct (_ || _ || _) eqn:E4; [done|].
  destruct (authority_host auth) as [host|]; [|done].
  destruct (strip_prefix host auth) as [port|] eqn:E5; [|done]. apply strip_prefix_Some in E5.
  destruct (negb (port_ok port)) eqn:E6; [done|]. destruct (negb (host_ok host)) eqn:E7; [done|].
  destruct (_ && _) eqn:E8; [done|]. intros [= <-].
  destruct (before_delimiter_rest r) as (rest & Hr & Hrest). split_and_bool.
  exists scheme, host, port, rest. split_and!; try done.
  - rewrite E2. by rewrite Hr at 1.
  - apply orb_true_iff in E3. rewrite !eqb_true in E3. destruct E3 as [->| ->]; [by left|].
    right. split; [done|]. by destruct (loopback host).
  - apply before_delimiter_no_delimiter.
Qed.
End Props.

(** The authority of the witness: everything up to a port. *)
Definition w_authority : HttpAuthority :=
  {| authority_host a := Some match split_once ":" a with Some (h, _) => h | None => a end |}.

Lemma accepted_url_is_what_it_shows_witness :
  mcp_url_authority (HA := w_authority) "http://127.0.0.1:8080/a?b=%20" = Some "127.0.0.1:8080" ∧
  mcp_url_authority (HA := w_authority) "http://127.0.0.01/" = None ∧
  mcp_url_authority (HA := w_authority) "https://user@example.org/" = None ∧
  ∃ scheme host port rest,
    "http://127.0.0.1:8080/a?b=%20" = (scheme ++ "://" ++ "127.0.0.1:8080" ++ rest)%string ∧
    (scheme = "https" ∨ (scheme = "http" ∧ loopback host = true)) ∧
    "127.0.0.1:8080" = (host ++ port)%string.
Proof.
  assert (mcp_url_authority (HA := w_authority) "http://127.0.0.1:8080/a?b=%20" = Some "127.0.0.1:8080") as H
    by (vm_compute; reflexivity).
  split; [exact H|]. split; [vm_compute; reflexivity|]. split; [vm_compute; reflexivity|].
  destruct (accepted_url_is_what_it_shows (HA := w_authority) _ _ H)
    as (scheme & host & port & rest & Hv & Hs & Ha & _).
  exists scheme, host, port, rest. exact (conj Hv (conj Hs Ha)).
Defined.
End UrlProps.
