(* ===== verification/Message.v ===== *)
(** * Messages and questions

    The model of [crates/core/src/message.rs]: where a message goes, the
    envelope, the typed question with its options and stale rule, how an
    answer is resolved against it, the card a held message rides on, and the
    matching of topics. *)

From Stdlib Require Import Ascii.
From stdpp Require Import pretty.
From S2P Require Import Prelude RustStr Link Agent Json Permissions Elicitation Url.

Local Open Scope rust_scope.
Local Open Scope string_scope.

(** ** Destinations and envelopes *)

Inductive Destination :=
| DAgent (id : string)
| DTopic (topic : string)
| DProject (id : string)
| DChannel (id : string)
| DBroadcast.

Global Instance Destination_eq_dec : EqDecision Destination.
Proof. solve_decision. Defined.

Definition destination_parse (s : string) : Destination :=
  if (s == "all") || (s == "*") then DBroadcast
  else match strip_prefix "topic:" s with
  | Some topic => DTopic topic
  | None =>
      match strip_prefix "project:" s with
      | Some project => DProject project
      | None =>
          match strip_prefix "channel:" s with
          | Some channel => DChannel channel
          | None => DAgent s
          end
      end
  end.

Definition destination_display (d : Destination) : string :=
  match d with
  | DAgent id => short id
  | DTopic topic => "topic:" ++ topic
  | DProject id => "project:" ++ short id
  | DChannel id => "channel:" ++ id
  | DBroadcast => "all"
  end.

Record Envelope := mkEnvelope {
  e_id : string;
  e_from : string;
  e_to : Destination;
  e_kind : string;
  e_payload : Json;
  e_reply_to : option string;
  e_sent_at : instant;
  e_links : list Link;
}.

(** The id drawn is an argument. *)
Definition envelope_new (id from : string) (to : Destination) (kind : string) (payload : Json)
    (reply_to : option string) (now : instant) : Envelope :=
  mkEnvelope id from to kind payload reply_to now [].

Definition RELEASE_REQUEST_KIND : string := "release_request".
Definition RELEASE_RESPONSE_KIND : string := "release_response".

(** ** The typed part of a question *)

Inductive QuestionKind := KQuestion | KPermission | KAccess.

Global Instance QuestionKind_eq_dec : EqDecision QuestionKind.
Proof. solve_decision. Defined.

Definition QuestionKind_ALL : list QuestionKind := [KQuestion; KPermission; KAccess].

Definition question_kind_as_str (k : QuestionKind) : string :=
  match k with KQuestion => "question" | KPermission => "permission" | KAccess => "access" end.
Definition question_kind_label (k : QuestionKind) : string :=
  match k with KQuestion => "Question" | KPermission => "Permission" | KAccess => "Access" end.
Definition question_kind_parse (value : string) : option QuestionKind :=
  List.find (λ k, eq_ignore_ascii_case (question_kind_as_str k) (trim value)) QuestionKind_ALL.

Inductive StaleAction :=
| KeepWaiting
| AnswerDefault (label : string)
| Withdraw.

Global Instance StaleAction_eq_dec : EqDecision StaleAction.
Proof. solve_decision. Defined.

Definition stale_action_parse (value : string) : option StaleAction :=
  let value := trim value in
  if eq_ignore_ascii_case value "keep_waiting" || eq_ignore_ascii_case value "keep-waiting"
  then Some KeepWaiting
  else if eq_ignore_ascii_case value "withdraw" then Some Withdraw
  else
    match or_else (strip_prefix "answer:" value) (strip_prefix "answer=" value) with
    | None => None
    | Some rest => let label := trim rest in if label != "" then Some (AnswerDefault label) else None
    end.

Definition stale_action_display (a : StaleAction) : string :=
  match a with
  | KeepWaiting => "keep_waiting"
  | Withdraw => "withdraw"
  | AnswerDefault label => "answer:" ++ label
  end.

Record QuestionOption := mkOption { qo_label : string; qo_description : string }.

Global Instance QuestionOption_eq_dec : EqDecision QuestionOption.
Proof. solve_decision. Defined.

Record QuestionForm := mkQuestionForm {
  qf_kind : QuestionKind;
  qf_options : list QuestionOption;
  qf_multi_select : bool;
  qf_allow_other : bool;
  qf_stale_after_secs : option Z;
  qf_stale_action : StaleAction;
}.

Global Instance QuestionForm_eq_dec : EqDecision QuestionForm.
Proof. solve_decision. Defined.

Definition form_default : QuestionForm := mkQuestionForm KQuestion [] false true None KeepWaiting.
Definition form_is_plain (f : QuestionForm) : bool := f == form_default.

Definition FORM_MAX_OPTIONS : nat := 16.

(** [bounded]: some words, and at most 16,000 bytes. *)
Definition bounded (s : string) : bool := (trim s != "") && (byte_len s <=? 16000)%Z.

Inductive FormError :=
| TooManyOptions
| BadLabel
| LongDescription
| OfferedTwice (label : string)
| ReadsAsAnother (label : string)
| MultiWithoutOptions
| StaleZero
| StaleNotShorter
| StaleActionAlone
| DefaultNeedsWords
| DefaultNotOffered (label : string).

Section Unicode.
Context {U : Unicode}.

Fixpoint check_options (labels : gset string) (opts : list QuestionOption) : result unit FormError :=
  match opts with
  | [] => Ok ()
  | o :: rest =>
      if (qo_label o != trim (qo_label o)) || negb (bounded (qo_label o)) then Err BadLabel
      else if (16000 <? byte_len (qo_description o))%Z then Err LongDescription
      else if bool_decide (to_lowercase (qo_label o) ∈ labels) then Err (OfferedTwice (qo_label o))
      else check_options ({[to_lowercase (qo_label o)]} ∪ labels) rest
  end.

(** A label that is a number must be its own. *)
Fixpoint check_numbers (count index : nat) (opts : list QuestionOption) : result unit FormError :=
  match opts with
  | [] => Ok ()
  | o :: rest =>
      if is_some_and (λ n, (1 <=? n)%Z && (n <=? Z.of_nat count)%Z && negb (n =? Z.of_nat (index + 1))%Z)
           (parse_usize (qo_label o))
      then Err (ReadsAsAnother (qo_label o))
      else check_numbers count (S index) rest
  end.

Definition check_stale (f : QuestionForm) (timeout_secs : Z) : result unit FormError :=
  match qf_stale_after_secs f with
  | Some secs =>
      if (secs =? 0)%Z then Err StaleZero
      else if (timeout_secs <=? secs)%Z then Err StaleNotShorter
      else Ok ()
  | None => if qf_stale_action f != KeepWaiting then Err StaleActionAlone else Ok ()
  end.

Definition check_default (f : QuestionForm) : result unit FormError :=
  match qf_stale_action f with
  | AnswerDefault label =>
      match qf_options f with
      | [] => if (label != trim label) || negb (bounded label) then Err DefaultNeedsWords else Ok ()
      | opts =>
          if negb (existsb (λ o, qo_label o == label) opts) then Err (DefaultNotOffered label) else Ok ()
      end
  | _ => Ok ()
  end.

Definition validate (f : QuestionForm) (timeout_secs : Z) : result unit FormError :=
  if (FORM_MAX_OPTIONS <? length (qf_options f))%nat then Err TooManyOptions
  else
    let? _ := check_options ∅ (qf_options f) in
    let? _ := check_numbers (length (qf_options f)) 0 (qf_options f) in
    if qf_multi_select f && (length (qf_options f) =? 0)%nat then Err MultiWithoutOptions
    else
      let? _ := check_stale f timeout_secs in
      check_default f.
End Unicode.

Definition nl : string := String "010" "".

Definition choose_line (f : QuestionForm) : string :=
  if qf_multi_select f then
    "Choose any that apply, by number or label (a text answer is one choice; several need a client that sends choices):"
  else "Choose one, by number or label:".

Fixpoint option_lines (index : nat) (opts : list QuestionOption) : string :=
  match opts with
  | [] => ""
  | o :: rest =>
      nl ++ pretty (N.of_nat (index + 1)) ++ ". " ++ qo_label o
      ++ (if trim (qo_description o) != "" then " — " ++ trim (qo_description o) else "")
      ++ option_lines (S index) rest
  end.

Definition options_text (f : QuestionForm) : option string :=
  match qf_options f with
  | [] => None
  | opts =>
      Some (choose_line f ++ option_lines 0 opts
            ++ (if qf_allow_other f then nl ++ "Other: answer in your own words." else ""))
  end.

Definition resolve_choice (f : QuestionForm) (value : string) : option QuestionOption :=
  let value := trim value in
  match List.find (λ o, qo_label o == value) (qf_options f) with
  | Some o => Some o
  | None =>
      match List.find (λ o, eq_ignore_ascii_case (qo_label o) value) (qf_options f) with
      | Some o => Some o
      | None =>
          match parse_usize value with
          | Some n => if (1 <=? n)%Z then qf_options f !! Z.to_nat (n - 1) else None
          | None => None
          end
      end
  end.

(** ** Answers *)

Record QuestionAnswer := mkAnswer {
  qa_text : string;
  qa_choices : list string;
  qa_other : option string;
  qa_note : option string;
  qa_default : bool;
}.

Global Instance QuestionAnswer_eq_dec : EqDecision QuestionAnswer.
Proof. solve_decision. Defined.

Inductive AnswerError :=
| NoOptionsToChoose
| NoOtherToGive
| NeedsText
| OnlyItsOptions
| ChooseSomething
| EmptyChoice
| NotAnOption (value : string)
| TwoOthers (existing value : string)
| OneChoice.

Global Instance AnswerError_eq_dec : EqDecision AnswerError.
Proof. solve_decision. Defined.

(** [words]: trimmed, and nothing when nothing is left. *)
Definition words (value : option string) : option string :=
  match value with
  | Some v => if trim v != "" then Some (trim v) else None
  | None => None
  end.

(** The loop over the selectors: what is chosen so far, and the Other. *)
Fixpoint take_given (f : QuestionForm) (given resolved : list string) (other : option string)
    : result (list string * option string) AnswerError :=
  match given with
  | [] => Ok (resolved, other)
  | value :: rest =>
      match resolve_choice f value with
      | Some o =>
          take_given f rest
            (if existsb (eqb (qo_label o)) resolved then resolved else app resolved [qo_label o]) other
      | None =>
          if value == "" then Err EmptyChoice
          else if negb (qf_allow_other f) then Err (NotAnOption value)
          else match other with
          | Some existing =>
              if existing == value then take_given f rest resolved other
              else Err (TwoOthers existing value)
          | None => take_given f rest resolved (Some value)
          end
      end
  end.

Definition option_list {A} (o : option A) : list A := match o with Some a => [a] | None => [] end.

Definition answer_text (resolved : list string) (other note : option string) : string :=
  join ", " (app resolved (option_list other))
  ++ match note with Some n => " — " ++ n | None => "" end.

(** An answer to a question in free words. *)
Definition resolve_words (text : string) (choices : list string) (other note : option string)
    : result QuestionAnswer AnswerError :=
  if negb (length choices =? 0)%nat then Err NoOptionsToChoose
  else if is_some other then Err NoOtherToGive
  else if text != "" then Ok (mkAnswer text [] None note false)
  else match note with
  | Some n => Ok (mkAnswer n [] None note false)
  | None => Err NeedsText
  end.

(** The selectors an answer gives: its choices, or else its text. *)
Definition given_of (text : string) (choices : list string) (other : option string) : list string :=
  if negb (length choices =? 0)%nat then trim <$> choices
  else if is_none other && (text != "") then [text]
  else [].

Definition answer_resolve (f : QuestionForm) (text : string) (choices : list string)
    (other note : option string) : result QuestionAnswer AnswerError :=
  let note := words note in
  let other := words other in
  let text := trim text in
  if (length (qf_options f) =? 0)%nat then resolve_words text choices other note
  else if is_some other && negb (qf_allow_other f) then Err OnlyItsOptions
  else
    let given := given_of text choices other in
    if (length given =? 0)%nat && is_none other then Err ChooseSomething
    else
      let? (resolved, other) := take_given f given [] other in
      if negb (qf_multi_select f) && (1 <? length resolved + (if is_some other then 1 else 0))%nat
      then Err OneChoice
      else Ok (mkAnswer (answer_text resolved other note) resolved other note false).

(** ** Presentations *)

Inductive QuestionFileChangeKind :=
| ChangeAdd
| ChangeDelete
| ChangeUpdate (move_path : option string).

Record QuestionFileChange := mkChange {
  fc_path : string;
  fc_kind : QuestionFileChangeKind;
  fc_diff : string;
}.

Definition change_label (c : QuestionFileChange) : string :=
  match fc_kind c with
  | ChangeAdd => "Create " ++ fc_path c
  | ChangeDelete => "Delete " ++ fc_path c
  | ChangeUpdate None => "Update " ++ fc_path c
  | ChangeUpdate (Some to) => "Move " ++ fc_path c ++ " → " ++ to
  end.

Inductive QuestionPresentation :=
| McpFormCard (server message : string) (schema : Json)
| McpUrlCard (server elicitation_id message url : string)
| CodexCommand (command cwd reason : string) (for_session : bool)
| CodexFiles (cwd reason : string) (changes : list QuestionFileChange) (for_session : bool)
| CodexPermissions (cwd reason : string) (permissions : QuestionPermissions) (for_session : bool)
| Choices (question : string) (options : list QuestionOption).

Definition ALLOW_FOR_SESSION : string := "Allow for session".

Definition for_session (p : QuestionPresentation) : bool :=
  match p with
  | CodexCommand _ _ _ b | CodexFiles _ _ _ b | CodexPermissions _ _ _ b => b
  | _ => false
  end.

Definition reply (session : bool) (once : string) : string :=
  if session then
    "Reply Allow (" ++ once ++ "), " ++ ALLOW_FOR_SESSION
    ++ " (this and the same again without asking until this Codex session ends) or Deny."
  else "Reply Allow or Deny.".

Definition choice_lines (opts : list QuestionOption) : string :=
  join "" ((λ o, nl ++ "- " ++ qo_label o ++ ": " ++ qo_description o) <$> opts).

Definition change_lines (changes : list QuestionFileChange) : string :=
  join "" ((λ c, nl ++ change_label c ++ nl ++ fc_diff c ++ nl) <$> changes).

Definition presentation_text {SJ : SerdeJson} (p : QuestionPresentation) : string :=
  match p with
  | McpFormCard server message schema =>
      "Provide information to " ++ server ++ "?" ++ nl ++ nl ++ message ++ nl ++ nl
      ++ "Review the fields before submitting. Do not enter passwords, API keys, access tokens or payment credentials. Form answers are retained in this conversation."
      ++ nl ++ nl ++ "Schema:" ++ nl ++ json_to_string_pretty schema ++ nl ++ nl
      ++ "Use the form in the desktop app, or reply with a JSON object containing the field values. Reply Decline or Cancel to dismiss without sharing values."
  | McpUrlCard server _ message url =>
      "Continue on the website requested by " ++ server ++ "?" ++ nl ++ nl ++ message ++ nl ++ nl
      ++ "Full URL:" ++ nl ++ url ++ nl ++ nl
      ++ "Copy the link and open it in your browser if you consent. Enter any private information only on that website. Accept records your consent; it does not confirm the website interaction finished. Reply Accept, Decline or Cancel."
  | CodexPermissions cwd reason permissions session =>
      "Allow Codex this access" ++ (if session then "" else " for the current turn") ++ "?" ++ nl ++ nl
      ++ "Directory: " ++ cwd ++ nl ++ "Reason: " ++ reason ++ nl ++ nl
      ++ join nl (lines permissions) ++ nl ++ nl ++ reply session "for the current turn"
  | CodexCommand command cwd reason session =>
      "Allow Codex to run this command" ++ (if session then "" else " once") ++ "?" ++ nl ++ nl
      ++ "Directory: " ++ cwd ++ nl ++ "Command:" ++ nl ++ command ++ nl ++ nl
      ++ "Reason: " ++ reason ++ nl ++ nl ++ reply session "once"
  | Choices question opts => question ++ choice_lines opts
  | CodexFiles cwd reason changes session =>
      "Allow Codex to apply these file changes" ++ (if session then "" else " once") ++ "?" ++ nl ++ nl
      ++ "Directory: " ++ cwd ++ nl ++ "Reason: " ++ reason ++ nl
      ++ change_lines changes ++ nl ++ reply session "once"
  end.

Definition display_control (c : string) : bool := is_control c || display_char c.
Definition no_display_control (s : string) : bool := negb (existsb display_control (chars s)).
Definition identifier (s : string) : bool := bounded s && (byte_len s <=? 256)%Z && no_display_control s.
Definition plain_path (s : string) : bool := bounded s && negb (has_control s).

Fixpoint choices_ok (labels : gset string) (opts : list QuestionOption) : bool :=
  match opts with
  | [] => true
  | o :: rest =>
      (qo_label o == trim (qo_label o)) && bounded (qo_label o)
      && (byte_len (qo_description o) <=? 16000)%Z && bool_decide (qo_label o ∉ labels)
      && choices_ok ({[qo_label o]} ∪ labels) rest
  end.

Fixpoint changes_ok (paths : gset string) (changes : list QuestionFileChange) : bool :=
  match changes with
  | [] => true
  | c :: rest =>
      plain_path (fc_path c) && bool_decide (fc_path c ∉ paths) && bounded (fc_diff c)
      && match fc_kind c with ChangeUpdate (Some to) => plain_path to | _ => true end
      && changes_ok ({[fc_path c]} ∪ paths) rest
  end.

Section Parsers.
Context {SJ : SerdeJson} {FF : FormFormats} {HA : HttpAuthority}.

Definition presentation_valid (p : QuestionPresentation) : bool :=
  match p with
  | McpFormCard server message schema =>
      bounded server && (byte_len server <=? 256)%Z && no_display_control server
      && bounded message && no_display_control message && is_ok (form_parse schema)
  | McpUrlCard server elicitation_id message url =>
      identifier server && identifier elicitation_id && bounded message && no_display_control message
      && is_some (mcp_url_authority url)
  | CodexPermissions cwd reason permissions _ =>
      bounded cwd && negb (has_control cwd) && (byte_len reason <=? 16000)%Z && valid permissions
  | CodexCommand command cwd reason _ =>
      bounded command && bounded cwd && (byte_len reason <=? 16000)%Z
  | Choices question opts =>
      bounded question && negb (length opts =? 0)%nat && (length opts <=? 16)%nat && choices_ok ∅ opts
  | CodexFiles cwd reason changes _ =>
      plain_path cwd && (byte_len reason <=? 16000)%Z && negb (length changes =? 0)%nat
      && (length changes <=? 16)%nat && changes_ok ∅ changes
  end.

Definition valid_for (p : QuestionPresentation) (text : string) : bool :=
  presentation_valid p && (byte_len text <=? 16000)%Z && (presentation_text p == text).

Definition permits_choice (p : QuestionPresentation) (value : string) : bool :=
  match p with
  | McpFormCard _ _ _ => existsb (eqb value) ["Decline"; "Cancel"]
  | McpUrlCard _ _ _ _ => existsb (eqb value) ["Accept"; "Decline"; "Cancel"]
  | CodexCommand _ _ _ _ | CodexFiles _ _ _ _ | CodexPermissions _ _ _ _ =>
      existsb (eqb value) ["Allow"; "Deny"] || ((value == ALLOW_FOR_SESSION) && for_session p)
  | Choices _ opts => existsb (λ o, qo_label o == value) opts
  end.

Definition permits_answer (p : QuestionPresentation) (value : string) : bool :=
  match p with
  | McpFormCard _ _ schema =>
      match form_parse schema with
      | Ok form => is_some (response form value)
      | Err _ => false
      end
  | _ => permits_choice p value
  end.

(** ** Questions *)

Record Question := mkQuestion {
  q_id : string;
  q_from : string;
  q_to : Destination;
  q_text : string;
  q_presentation : option QuestionPresentation;
  q_asked_at : instant;
  q_expires_at : instant;
  q_form : QuestionForm;
  q_stale_since : option instant;
}.

Definition question_expired (q : Question) (now : instant) : bool := (q_expires_at q <=? now)%Z.

Definition i64_max : Z := (2 ^ 63 - 1)%Z.

Definition stale_at (q : Question) : option instant :=
  match qf_stale_after_secs (q_form q) with
  | Some secs => if (secs <=? i64_max)%Z then Some (q_asked_at q + seconds secs)%Z else None
  | None => None
  end.

Definition stale (q : Question) (now : instant) : bool :=
  is_some (q_stale_since q) || is_some_and (λ at_, at_ <=? now)%Z (stale_at q).


Definition prompt (q : Question) : string :=
  match options_text (q_form q) with
  | Some opts => trim_end (q_text q) ++ nl ++ nl ++ opts
  | None => q_text q
  end.

Definition question_permits (q : Question) (value : string) : bool :=
  existsb (λ o, qo_label o == value) (qf_options (q_form q))
  || is_some_and (λ p, valid_for p (q_text q) && permits_choice p value) (q_presentation q).

Definition addressed_to (q : Question) (agent : string) (project : option string) : bool :=
  match q_to q with
  | DAgent id => id == agent
  | DBroadcast => true
  | DProject to => project == Some to
  | _ => false
  end.

(** ** Held messages *)

Definition RELEASE : string := "Release".
Definition DROP : string := "Drop".
Definition HELD_FOR : duration := hours (7 * 24).
Definition HELD_PREVIEW_CHARS : nat := Z.to_nat 2000.

Record HeldMessage := mkHeld {
  h_question : string;
  h_envelope : Envelope;
  h_rule : string;
  h_held_at : instant;
}.

Inductive HeldDecision := HRelease | HDrop.

Definition held_parse (answer : string) : option HeldDecision :=
  let word := trim answer in
  if eq_ignore_ascii_case word RELEASE then Some HRelease
  else if eq_ignore_ascii_case word DROP then Some HDrop
  else None.

(** The words of the message, or its JSON. *)
Definition held_body (e : Envelope) : string :=
  match json_get (e_payload e) "text" with
  | Some v => match as_str v with Some t => t | None => json_to_string (e_payload e) end
  | None => json_to_string (e_payload e)
  end.

Definition held_quote (body : string) : string :=
  String.concat "" (take HELD_PREVIEW_CHARS
                      (List.filter (λ c, negb (is_control c) || (c == newline)) (chars body)))
  ++ (if (HELD_PREVIEW_CHARS <? chars_count body)%nat then nl ++ "[…]" else "").

Definition held_options (to : string) : list QuestionOption :=
  [mkOption RELEASE ("Deliver it to " ++ to ++ " as sent.");
   mkOption DROP "Discard it; the sender is not told."].

Definition held_prompt (e : Envelope) (sender runtime to rule : string) : string :=
  sender ++ " (" ++ runtime ++ ") sent a `" ++ e_kind e ++ "` message to " ++ to
  ++ ", which this project holds for you (" ++ rule ++ "):" ++ nl ++ nl ++ held_quote (held_body e)
  ++ nl ++ nl ++ "Release delivers it as sent; Drop discards it and tells nobody.".

(** [HeldMessage::question]; the id drawn is an argument. *)
Definition held_question (id : string) (e : Envelope) (sender runtime to human rule : string)
    (now : instant) : Question :=
  let p := Choices (held_prompt e sender runtime to rule) (held_options to) in
  mkQuestion id (e_from e) (DAgent human) (presentation_text p) (Some p) now (now + HELD_FOR)%Z
    form_default None.
End Parsers.

(** ** Topics *)

Fixpoint levels_match (pattern topic : list string) : bool :=
  match pattern, topic with
  | p :: pattern', _ =>
      if p == "#" then true
      else match topic with
      | t :: topic' => if (p == "+") || (p == t) then levels_match pattern' topic' else false
      | [] => false
      end
  | [], [] => true
  | [], _ :: _ => false
  end.

Definition topic_matches (pattern topic : string) : bool :=
  levels_match (split_char "/" pattern) (split_char "/" topic).

Module MessageFacts.

Lemma words_Some v w : words v = Some w → trim w = w ∧ w ≠ "".
Proof.
  destruct v as [s|]; simpl; [|done]. destruct (trim s == "") eqn:E; simpl; [done|].
  intros [= <-]. split_and_bool. by rewrite trim_idem.
Qed.

Lemma words_id w : trim w = w → w ≠ "" → words (Some w) = Some w.
Proof. intros Hw Hne. simpl. by rewrite Hw, (proj2 (eqb_false _ _) Hne). Qed.

Lemma words_idem v : words (words v) = words v.
Proof. destruct (words v) as [w|] eqn:E; [|done]. apply words_Some in E as [??]. by apply words_id. Qed.

Lemma find_label (opts : list QuestionOption) (l : string) :
  l ∈ qo_label <$> opts → ∃ o, List.find (λ o, qo_label o == l) opts = Some o ∧ qo_label o = l.
Proof.
  induction opts as [|o opts IH]; csimpl; [by intros ?%not_elem_of_nil|].
  destruct (qo_label o == l) eqn:E; split_and_bool; [by exists o|]. intros [->|?]%elem_of_cons; [done|auto].
Qed.

Section Form.
Context (f : QuestionForm).
Abbreviation labels := (qo_label <$> qf_options f) (only parsing).

Definition offered (l : string) : Prop := l ∈ labels.
Definition labels_trimmed : Prop := ∀ l, offered l → trim l = l.

Lemma resolve_choice_offered v o : resolve_choice f v = Some o → o ∈ qf_options f.
Proof.
  unfold resolve_choice. destruct (List.find _ _) as [o1|] eqn:E1.
  { intros [= <-]. apply List.find_some in E1 as [? _]. by apply list_elem_of_In. }
  destruct (List.find (λ o, eq_ignore_ascii_case _ _) _) as [o2|] eqn:E2.
  { intros [= <-]. apply List.find_some in E2 as [? _]. by apply list_elem_of_In. }
  destruct (parse_usize _) as [n|]; [|done]. destruct (1 <=? n)%Z; [|done].
  apply list_elem_of_lookup_2.
Qed.

Lemma resolve_choice_label l :
  labels_trimmed → offered l → ∃ o, resolve_choice f l = Some o ∧ qo_label o = l.
Proof.
  intros Ht Hl. unfold resolve_choice. rewrite (Ht l Hl).
  destruct (find_label _ _ Hl) as (o & -> & Ho). by exists o.
Qed.

(** What the loop over the selectors keeps true. *)
Lemma take_given_Ok given res oth res' oth' :
  take_given f given res oth = Ok (res', oth') →
  (Forall offered res → Forall offered res') ∧ (NoDup res → NoDup res') ∧
  (oth' = oth ∨ ∃ v, v ∈ given ∧ oth = None ∧ oth' = Some v ∧ v ≠ "" ∧
                qf_allow_other f = true ∧ resolve_choice f v = None) ∧
  ((given ≠ [] ∨ res ≠ [] ∨ is_Some oth) → res' ≠ [] ∨ is_Some oth').
Proof.
  revert res oth. induction given as [|v given IH]; intros res oth; simpl.
  { intros [= <- <-]. split_and!; [done|done|by left|naive_solver]. }
  destruct (resolve_choice f v) as [o|] eqn:Ev.
  - intros (Ha & Hb & Hc & Hd)%IH. split_and!.
    + intros Hres. apply Ha. destruct (existsb _ _); [done|]. apply Forall_app. split; [done|].
      constructor; [|done]. by eapply list_elem_of_fmap_2, resolve_choice_offered.
    + intros Hres. apply Hb. destruct (existsb _ _) eqn:E; [done|]. apply NoDup_app.
      split_and!; [done| |apply NoDup_singleton]. intros x Hx ->%list_elem_of_singleton.
      rewrite <-not_true_iff_false, existsb_exists in E. apply E. exists (qo_label o).
      split; [by apply list_elem_of_In|]. apply eqb_refl.
    + destruct Hc as [->|(w & ? & ? & ?)]; [by left|]. right. exists w. split; [by right|done].
    + intros _. apply Hd. right. left. destruct (existsb _ _) eqn:E; [|by destruct res].
      by destruct res.
  - destruct (v == "") eqn:E1; [done|]. split_and_bool.
    destruct (qf_allow_other f) eqn:Eo; [|done]. simpl.
    destruct oth as [e|].
    + destruct (e == v) eqn:E2; [|done]. intros (Ha & Hb & Hc & Hd)%IH. split_and!; [done|done| |naive_solver].
      destruct Hc as [->|(w & ? & ? & ?)]; [by left|done].
    + intros (Ha & Hb & Hc & Hd)%IH. split_and!; [done|done| |naive_solver].
      destruct Hc as [->|(w & ? & ? & ?)]; [|done]. right. exists v. split_and!; try done. left.
Qed.

Lemma take_given_labels ls res oth :
  labels_trimmed → Forall offered ls → NoDup (app res ls) →
  take_given f ls res oth = Ok (app res ls, oth).
Proof.
  intros Ht. revert res. induction ls as [|l ls IH]; intros res Hl Hnd; simpl.
  { by rewrite app_nil_r. }
  apply Forall_cons in Hl as [Hl Hls]. destruct (resolve_choice_label l Ht Hl) as (o & -> & ->).
  destruct (existsb _ _) eqn:E.
  { apply existsb_exists in E as (x & Hx & Hxl). split_and_bool. subst x.
    apply NoDup_app in Hnd as (_ & Hnd & _). destruct (Hnd l); [by apply list_elem_of_In|left]. }
  rewrite IH by (by rewrite <-?app_assoc). by rewrite <-app_assoc.
Qed.

Lemma trim_offered ls : labels_trimmed → Forall offered ls → trim <$> ls = ls.
Proof. intros Ht. induction 1 as [|l ls Hl _ IH]; csimpl; [done|]. by rewrite IH, (Ht l Hl). Qed.

Lemma given_of_trimmed text choices oth v : v ∈ given_of (trim text) choices oth → trim v = v.
Proof.
  unfold given_of. destruct (negb (_ =? _)%nat).
  - intros (w & -> & _)%list_elem_of_fmap. apply trim_idem.
  - destruct (_ && _); [|by intros ?%not_elem_of_nil]. intros ->%list_elem_of_singleton. apply trim_idem.
Qed.
End Form.

Section Validated.
Context {U : Unicode}.

Lemma check_options_Ok seen opts :
  check_options seen opts = Ok () →
  Forall (λ o, qo_label o = trim (qo_label o) ∧ bounded (qo_label o) = true) opts.
Proof.
  revert seen. induction opts as [|o opts IH]; intros seen; simpl; [constructor|].
  destruct (_ || _) eqn:E1; [done|]. destruct (_ <? _)%Z; [done|]. destruct (bool_decide _); [done|].
  intros H%IH. split_and_bool. by constructor.
Qed.

Lemma check_numbers_Ok count index opts i o n :
  check_numbers count index opts = Ok () → opts !! i = Some o → parse_usize (qo_label o) = Some n →
  (1 ≤ n ≤ Z.of_nat count)%Z → n = Z.of_nat (index + i + 1).
Proof.
  revert index i. induction opts as [|o' opts IH]; intros index i; simpl; [done|].
  destruct (is_some_and _ _) eqn:E; [done|]. intros Hrest Hi Hn Hr. destruct i as [|i]; simpl in Hi.
  - injection Hi as ->. rewrite Hn in E. simpl in E.
    rewrite Nat.add_0_r. destruct (Z.eqb_spec n (Z.of_nat (index + 1))); [done|].
    simpl in E. rewrite andb_true_r in E. apply andb_false_iff in E as [E|E]; apply Z.leb_gt in E; lia.
  - rewrite (IH (S index) i) by done. f_equal. lia.
Qed.

Lemma validate_labels_trimmed f timeout : validate f timeout = Ok () → labels_trimmed f.
Proof.
  unfold validate. destruct (_ <? _)%nat; [done|].
  destruct (check_options _ _) as [[]|] eqn:E; [|done]. intros _ l (o & -> & Ho)%list_elem_of_fmap.
  apply check_options_Ok in E. rewrite Forall_forall in E. by destruct (E o Ho) as [<- _].
Qed.

Lemma validate_numbers f timeout :
  validate f timeout = Ok () →
  check_numbers (length (qf_options f)) 0 (qf_options f) = Ok () ∧ (length (qf_options f) ≤ FORM_MAX_OPTIONS)%nat.
Proof.
  unfold validate. destruct (_ <? _)%nat eqn:E0; [done|]. apply Nat.ltb_ge in E0.
  destruct (check_options _ _); [|done]. by destruct (check_numbers _ _ _) as [[]|].
Qed.
End Validated.
End MessageFacts.

Module MessageProps.
Import MessageFacts.
Section Props.
Context {U : Unicode}.

(** C17: An answer that was resolved resolves to itself again, with the text it
    gave, its choices, its Other and its note: the daemon can check a reply
    that closes a question, its own resolved answers among them. *)
Theorem resolved_answer_resolves_to_itself (f : QuestionForm) (timeout : Z) (text : string)
    (choices : list string) (other note : option string) (a : QuestionAnswer)
    (Hv : validate f timeout = Ok ())
    (Ha : answer_resolve f text choices other note = Ok a) :
  answer_resolve f (qa_text a) (qa_choices a) (qa_other a) (qa_note a) = Ok a.
Proof.
  apply validate_labels_trimmed in Hv as Ht. clear Hv. revert Ha. unfold answer_resolve.
  destruct (length (qf_options f) =? 0)%nat eqn:E0.
  - unfold resolve_words. destruct (length choices =? 0)%nat; simpl; [|done].
    destruct (words other); simpl; [done|]. destruct (trim text == "") eqn:Et; simpl.
    + destruct (words note) as [n|] eqn:En; [|done]. intros [= <-]. cbn -[words Nat.ltb].
      apply words_Some in En as [Hn Hne]. rewrite (words_id n), Hn by done.
      by rewrite (proj2 (eqb_false _ _) Hne).
    + intros [= <-]. cbn -[words Nat.ltb]. by rewrite words_idem, trim_idem, Et.
  - destruct (is_some (words other) && _) eqn:E1; [done|].
    set (given := given_of _ _ _). destruct (_ && is_none _) eqn:E2; [done|].
    destruct (take_given f given [] (words other)) as [[res oth]|] eqn:Hg; [|done].
    destruct (negb (qf_multi_select f) && _) eqn:E3; [done|]. intros [= <-]. cbn -[words Nat.ltb].
    apply take_given_Ok in Hg as (Hoff & Hnd & Hoth & Hne).
    specialize (Hoff (Forall_nil_2 _)). specialize (Hnd (NoDup_nil_2)).
    assert (words oth = oth) as Hw.
    { destruct Hoth as [->|(v & Hin & _ & -> & Hv & _)]; [apply words_idem|].
      apply words_id; [|done]. by eapply given_of_trimmed. }
    assert (is_some oth && negb (qf_allow_other f) = false) as Hallow.
    { destruct Hoth as [->|(v & _ & _ & -> & _ & -> & _)]; [done|]. by rewrite andb_false_r. }
    assert (res ≠ [] ∨ is_Some oth) as Hsome.
    { apply Hne. destruct given; [|by left]. simpl in E2. right. right. by destruct (words other). }
    rewrite Hw, words_idem, Hallow. clear Hne Hoth E1 E2 Hallow Hw.
    assert (∀ t, given_of t res oth = res ∧ (length res =? 0)%nat && is_none oth = false) as Hgiven.
    { intros t. unfold given_of. destruct res as [|l res]; simpl.
      - destruct Hsome as [?|[w ->]]; [done|]. done.
      - split; [|done]. rewrite <-fmap_cons. by apply (trim_offered f). }
    destruct (Hgiven (trim (answer_text res oth (words note)))) as [-> ->].
    rewrite (take_given_labels f res []) by done. cbn [app]. by rewrite E3.
Qed.

(** What an accepted answer holds: choices among the options, each once, at
    most one thing chosen unless several are allowed, its own words only where
    the question takes them, and never nothing. *)
Theorem answer_stays_within_the_form (f : QuestionForm) (text : string) (choices : list string)
    (other note : option string) (a : QuestionAnswer)
    (Ha : answer_resolve f text choices other note = Ok a) :
  Forall (offered f) (qa_choices a) ∧ NoDup (qa_choices a) ∧
  (qf_multi_select f = false → (length (qa_choices a) + length (option_list (qa_other a)) ≤ 1)%nat) ∧
  (is_Some (qa_other a) → qf_allow_other f = true ∧ qf_options f ≠ []) ∧
  (qf_options f ≠ [] → qa_choices a ≠ [] ∨ is_Some (qa_other a)).
Proof.
  revert Ha. unfold answer_resolve. destruct (length (qf_options f) =? 0)%nat eqn:E0.
  - apply Nat.eqb_eq, length_zero_iff_nil in E0. unfold resolve_words. intros H.
    assert (qa_choices a = [] ∧ qa_other a = None) as [-> ->] by (branches H; done).
    rewrite E0. split_and!; [constructor|constructor|simpl; lia|by intros [? ?]|done].
  - apply Nat.eqb_neq in E0. assert (qf_options f ≠ []) as Hopt by (by intros H; rewrite H in E0).
    destruct (is_some (words other) && _) eqn:E1; [done|].
    set (given := given_of _ _ _). destruct (_ && is_none _) eqn:E2; [done|].
    destruct (take_given f given [] (words other)) as [[res oth]|] eqn:Hg; [|done].
    destruct (negb (qf_multi_select f) && _) eqn:E3; [done|]. intros [= <-]. cbn -[words Nat.ltb].
    apply take_given_Ok in Hg as (Hoff & Hnd & Hoth & Hne). split_and!; [by apply Hoff|apply Hnd; constructor| | |].
    + intros Hm. rewrite Hm in E3. simpl in E3. apply Nat.ltb_ge in E3. by destruct oth.
    + intros [w ->]. split; [|done].
      destruct Hoth as [Heq|(v & _ & _ & _ & _ & ? & _)]; [|done]. rewrite <-Heq in E1. simpl in E1.
      by split_and_bool.
    + intros _. apply Hne. destruct given; [|by left]. simpl in E2. right. right. by destruct (words other).
Qed.

(** On a form that passed its check, the number shown before an option names
    that option, whatever the labels are. *)
Theorem number_names_its_option (f : QuestionForm) (timeout : Z) (i : nat) (o : QuestionOption)
    (Hv : validate f timeout = Ok ()) (Hi : qf_options f !! i = Some o) :
  resolve_choice f (pretty (N.of_nat (i + 1))) = Some o.
Proof.
  apply validate_numbers in Hv as [Hnum Hlen].
  assert (i < length (qf_options f))%nat as Hlt by by eapply lookup_lt_Some.
  unfold FORM_MAX_OPTIONS in Hlen. set (d := pretty (N.of_nat (i + 1))).
  assert (sforall is_ascii_digit d = true) as Hd by apply pretty_N_digits.
  assert (parse_usize d = Some (Z.of_nat (i + 1))) as Hp.
  { unfold d. rewrite parse_usize_pretty by lia. f_equal. lia. }
  assert (∀ o', o' ∈ qf_options f → qo_label o' = d → o' = o) as Hown.
  { intros o' [j Hj]%list_elem_of_lookup Hl.
    pose proof (check_numbers_Ok _ _ _ j o' (Z.of_nat (i + 1)) Hnum Hj) as Hc.
    rewrite Hl in Hc. assert (j = i) as -> by (specialize (Hc Hp ltac:(lia)); lia). congruence. }
  unfold resolve_choice. rewrite (digits_trim d Hd).
  destruct (List.find _ _) as [o1|] eqn:E1.
  { apply List.find_some in E1 as [Hin Hl]. split_and_bool. f_equal. apply Hown; [|done].
    by apply list_elem_of_In. }
  destruct (List.find (λ o, eq_ignore_ascii_case _ _) _) as [o2|] eqn:E2.
  { apply List.find_some in E2 as [Hin Hl]. unfold eq_ignore_ascii_case in Hl. split_and_bool. f_equal.
    apply Hown; [by apply list_elem_of_In|].
    apply to_ascii_lowercase_is_digits; [done|]. rewrite Hl. by apply to_ascii_lowercase_digits. }
  rewrite Hp. replace (1 <=? Z.of_nat (i + 1))%Z with true by (symmetry; apply Z.leb_le; lia).
  by replace (Z.to_nat (Z.of_nat (i + 1) - 1)) with i by lia.
Qed.
End Props.

Definition w_question_form : QuestionForm :=
  mkQuestionForm KQuestion [mkOption "Yes" ""; mkOption "No" "not now"; mkOption "+3" ""] true true
    (Some 60%Z) (AnswerDefault "No").
Definition w_answer : QuestionAnswer :=
  mkAnswer "No, +3, later — in June" ["No"; "+3"] (Some "later") (Some "in June") false.

Lemma resolved_answer_resolves_to_itself_witness :
  answer_resolve w_question_form "" [" 2 "; "later"; "NO"; "3"] None (Some "in June ") = Ok w_answer ∧
  answer_resolve w_question_form (qa_text w_answer) (qa_choices w_answer) (qa_other w_answer)
    (qa_note w_answer) = Ok w_answer.
Proof.
  assert (answer_resolve w_question_form "" [" 2 "; "later"; "NO"; "3"] None (Some "in June ") = Ok w_answer)
    as H by (vm_compute; reflexivity).
  split; [exact H|].
  apply (resolved_answer_resolves_to_itself (U := ascii_unicode) w_question_form 120 ""
           [" 2 "; "later"; "NO"; "3"] None (Some "in June ") w_answer);
    [vm_compute; reflexivity|exact H].
Defined.

Lemma number_names_its_option_witness :
  resolve_choice w_question_form (pretty (N.of_nat (1 + 1))) = Some (mkOption "No" "not now").
Proof.
  apply (number_names_its_option (U := ascii_unicode) w_question_form 120 1); vm_compute; reflexivity.
Defined.
End MessageProps.
