(* ===== verification/Topic.v ===== *)
(** * Topics keep their messages

    The model of [crates/core/src/topic.rs] (who may read a kept message,
    where a subscription starts, how cursors advance, how a replay is bounded)
    and of the log behind it, [crates/agentd/src/store/topics.rs]: keeping a
    message, planning a replay, moving and merging cursors, pruning.

    The two tables are lists and maps: [topic_messages] is the list of its
    rows in the order of [seq], its AUTOINCREMENT key; [topic_cursors] a map
    by agent and topic. A query is the list function it asks for; failures of
    the database itself are not modelled. *)

From S2P Require Import Prelude RustStr Order Agent Message.

Local Open Scope rust_scope.
Local Open Scope Z_scope.

Definition REPLAY_PER_TOPIC : nat := 500.
Definition REPLAY_TOTAL : nat := Z.to_nat 5000.

Record TopicPost := mkPost { tp_seq : Z; tp_project : option string }.
Record TopicCursor := mkCursor { tc_topic : string; tc_seq : Z }.

Global Instance TopicCursor_eq_dec : EqDecision TopicCursor.
Proof. solve_decision. Defined.

Section Scope.
Context {Uu : Uuid}.

Definition scope (record : option AgentRecord) : option string :=
  match record with
  | Some r => if s_runtime (r_spec r) != HUMAN_RUNTIME then project_id <$> r_project r else None
  | None => None
  end.
End Scope.

Definition visible (kept_for reader : option string) : bool :=
  match kept_for, reader with
  | Some k, Some r => k == r
  | _, _ => true
  end.

Definition start (agent : bool) (cursor after : option Z) : option Z :=
  match after with
  | Some a => Some a
  | None => if agent then Some (unwrap_or 0 cursor) else None
  end.

(** [highest.entry(topic).or_insert(seq)], then the larger of the two. *)
Definition note_highest (m : gmap string Z) (ack : string * Z) : gmap string Z :=
  <[ack.1 := Z.max (unwrap_or ack.2 (m !! ack.1)) ack.2]> m.

Definition advance (current : string → option Z) (acknowledged : list (string * Z)) : list TopicCursor :=
  let highest := foldl note_highest ∅ acknowledged in
  (λ ts, mkCursor ts.1 ts.2) <$>
    List.filter (λ ts, is_none_or (λ cursor, cursor <? ts.2) (current ts.1)) (btree_iter highest).

(** ** The bound on a replay *)

Record ReplayPlan := mkPlan { seqs : list Z; skipped : Z; peak : nat }.
Definition plan_default : ReplayPlan := mkPlan [] 0 0.

(** The heap of [Reverse] sequences shows its least element, drops it, and is
    sorted at the end: it is the ascending list of what it holds. *)
Record ReplayBound := mkBound {
  per_topic : nat;
  total : nat;
  kept : list Z;
  waiting : Z;
  taken : nat;
  b_peak : nat;
}.

Definition bound_new (per_topic total : nat) : ReplayBound := mkBound per_topic total [] 0 0 0.

Definition bound_topic (b : ReplayBound) (w : Z) : ReplayBound :=
  mkBound (per_topic b) (total b) (kept b) (u64_add (waiting b) w) 0 (b_peak b).

Definition push (b : ReplayBound) (heap : list Z) (seq : Z) : ReplayBound * bool :=
  let heap' := insert_by Z.leb seq heap in
  (mkBound (per_topic b) (total b) heap' (waiting b) (S (taken b)) (max (b_peak b) (length heap')),
   (S (taken b) <? per_topic b)%nat).

Definition offer (b : ReplayBound) (seq : Z) : ReplayBound * bool :=
  if (per_topic b <=? taken b)%nat || (total b =? 0)%nat then (b, false)
  else if (total b <=? length (kept b))%nat then
    match kept b with
    | oldest :: rest => if oldest <? seq then push b rest seq else (b, false)
    | [] => (b, false)
    end
  else push b (kept b) seq.

Definition finish (b : ReplayBound) : ReplayPlan :=
  mkPlan (kept b) (u64_saturating_sub (waiting b) (Z.of_nat (length (kept b)))) (b_peak b).

(** ** The log *)

Record Row := mkRow {
  row_seq : Z;
  row_message : string;
  row_topic : string;
  row_project : option string;
  row_sent_at : instant;
}.

Record Log := mkLog {
  rows : list Row;
  next_seq : Z;
  cursors : gmap (string * string) Z;
}.

Definition log_empty : Log := mkLog [] 1 ∅.

Definition seq_of (raw : Z) : Z := Z.max 0 raw.
Definition sql_seq (seq : Z) : Z := Z.min seq i64_max.

Definition keep_topic_message (l : Log) (m : Envelope) (topic : string) (project : option string)
    : Log * TopicPost :=
  (mkLog (app (rows l) [mkRow (next_seq l) (e_id m) topic project (e_sent_at m)])
     (next_seq l + 1) (cursors l),
   mkPost (seq_of (next_seq l)) project).

Record ReplayRequest := mkRequest {
  rq_patterns : list string;
  rq_scope : option string;
  rq_reader : option string;
  rq_after : option Z;
  rq_per_topic : nat;
  rq_total : nat;
}.

(** [topic = ?1 AND seq > ?2 AND (?3 IS NULL OR project IS NULL OR project = ?3)] *)
Definition waits (topic : string) (from : Z) (sc : option string) (r : Row) : bool :=
  (row_topic r == topic) && (from <? row_seq r)
  && (is_none sc || is_none (row_project r) || (row_project r == sc)).

Definition waiting_rows (l : Log) (topic : string) (from : Z) (sc : option string) : list Row :=
  List.filter (waits topic from sc) (rows l).

(** [ORDER BY seq DESC LIMIT n] *)
Definition newest_seqs (n : nat) (rs : list Row) : list Z := take n (rev (row_seq <$> rs)).

(** The reader offers until the bound says to stop. *)
Fixpoint offer_all (b : ReplayBound) (sqs : list Z) : ReplayBound :=
  match sqs with
  | [] => b
  | s :: rest => let '(b', more) := offer b (seq_of s) in if more then offer_all b' rest else b'
  end.

(** Every kept topic once, in order: the seek past the last one. *)
Definition kept_topics (l : Log) : list string := btree_set_iter (list_to_set (row_topic <$> rows l)).

Definition topic_start (l : Log) (rq : ReplayRequest) (topic : string) : option Z :=
  if existsb (λ p, topic_matches p topic) (rq_patterns rq) then
    let held := match rq_reader rq with
                | Some reader => seq_of <$> cursors l !! (reader, topic)
                | None => None
                end in
    sql_seq <$> start (is_some (rq_reader rq)) held (rq_after rq)
  else None.

Definition replay_topic (l : Log) (rq : ReplayRequest) (b : ReplayBound) (topic : string) : ReplayBound :=
  match topic_start l rq topic with
  | None => b
  | Some from =>
      let rs := waiting_rows l topic from (rq_scope rq) in
      if (length rs =? 0)%nat then b
      else offer_all (bound_topic b (seq_of (Z.of_nat (length rs)))) (newest_seqs (rq_per_topic rq) rs)
  end.

Definition topic_replay_plan (l : Log) (rq : ReplayRequest) : ReplayPlan :=
  if (length (rq_patterns rq) =? 0)%nat || is_none (start (is_some (rq_reader rq)) None (rq_after rq))
  then plan_default
  else finish (foldl (replay_topic l rq) (bound_new (rq_per_topic rq) (rq_total rq)) (kept_topics l)).

(** ** Cursors *)

(** [ON CONFLICT DO UPDATE SET seq = MAX(seq, excluded.seq)] *)
Definition raise_cursor (agent topic : string) (seq : Z) (m : gmap (string * string) Z)
    : gmap (string * string) Z :=
  <[(agent, topic) := match m !! (agent, topic) with Some s => Z.max s seq | None => seq end]> m.

Definition advance_topic_cursors (l : Log) (agent : string) (cs : list TopicCursor) : Log :=
  mkLog (rows l) (next_seq l)
    (foldl (λ m c, raise_cursor agent (tc_topic c) (sql_seq (tc_seq c)) m) (cursors l) cs).

Definition cursors_of (l : Log) (agent : string) : list (string * Z) :=
  (λ kv, (kv.1.2, kv.2)) <$> filter (λ kv, kv.1.1 = agent) (map_to_list (cursors l)).

Definition merge_topic_cursors (l : Log) (kept_agent retired : string) : Log :=
  let raised :=
    foldl (λ m ts, raise_cursor kept_agent ts.1 ts.2 m) (cursors l) (cursors_of l retired) in
  mkLog (rows l) (next_seq l) (filter (λ kv, kv.1.1 ≠ retired) raised).

(** ** Pruning *)

Definition delete_topic_messages (rs : list Row) (doomed : list Z) : list Row * nat :=
  let left_ := List.filter (λ r, negb (existsb (Z.eqb (row_seq r)) doomed)) rs in
  (left_, (length rs - length left_)%nat).

Definition group_of (r : Row) : string * option string := (row_topic r, row_project r).
Definition in_group (g : string * option string) (rs : list Row) : list Row :=
  List.filter (λ r, group_of r == g) rs.

(** [GROUP BY topic, project HAVING COUNT( * ) > ?1 ORDER BY topic, project]:
    NULL comes first. *)
Definition crowded (rs : list Row) (limit : nat) : list (string * option string * nat) :=
  (λ g, (g, length (in_group g rs))) <$>
    List.filter (λ g, (limit <? length (in_group g rs))%nat)
      (sort_by_key id (remove_dups (group_of <$> rs))).

(** The oldest of one crowded group, within the budget. *)
Fixpoint prune_groups (gs : list (string * option string * nat)) (limit : nat) (rs : list Row)
    (budget removed : nat) : list Row * nat :=
  match gs with
  | [] => (rs, removed)
  | (g, count) :: rest =>
      if (budget =? 0)%nat then (rs, removed)
      else
        let excess := Nat.min (count - limit) budget in
        let oldest := take excess (row_seq <$> in_group g rs) in
        let '(rs', went) := delete_topic_messages rs oldest in
        prune_groups rest limit rs' (budget - went) (removed + went)
  end.

Definition old_rows (rs : list Row) (cutoff : option instant) (budget : nat) : list Z :=
  match cutoff with
  | Some c => take budget (row_seq <$> List.filter (λ r, row_sent_at r <? c) rs)
  | None => []
  end.

Definition prune_topic_messages (l : Log) (cutoff : option instant) (limit batch : nat) : Log * nat :=
  let old := old_rows (rows l) cutoff batch in
  let '(rs, removed) := delete_topic_messages (rows l) old in
  let '(rs', removed') := prune_groups (crowded rs limit) limit rs (batch - length old) removed in
  (mkLog rs' (next_seq l) (cursors l), removed').

Module TopicFacts.

(** [sqs] is the newest [n] of the candidates, oldest first. *)
Record newest_of (n : nat) (cands sqs : list Z) : Prop := {
  newest_sorted : StronglySorted Z.lt sqs;
  newest_from : ∀ s, s ∈ sqs → s ∈ cands;
  newest_length : length sqs = Nat.min n (length cands);
  newest_wins : ∀ c s, c ∈ cands → c ∉ sqs → s ∈ sqs → c < s;
}.

Lemma insert_sorted_lt x l :
  x ∉ l → StronglySorted Z.lt l → StronglySorted Z.lt (insert_by Z.leb x l).
Proof.
  intros Hx. induction 1 as [|y l Hs IH Hall]; simpl; [repeat constructor|].
  apply not_elem_of_cons in Hx as [Hne Hx]. destruct (Z.leb_spec x y).
  - constructor; [by constructor|]. constructor; [lia|]. eapply Forall_impl; [done|]. lia.
  - constructor; [by apply IH|]. rewrite insert_by_perm. constructor; [lia|done].
Qed.

Lemma strongly_sorted_NoDup l : StronglySorted Z.lt l → NoDup l.
Proof.
  induction 1 as [|x l Hs IH Hall]; constructor; [|done]. intros Hin.
  rewrite Forall_forall in Hall. specialize (Hall x Hin). lia.
Qed.

Lemma submset_length_perm (K C : list Z) :
  NoDup K → (∀ s, s ∈ K → s ∈ C) → (length C ≤ length K)%nat → K ≡ₚ C.
Proof.
  intros HK Hsub Hl. assert (K ⊆+ C) as Hsm by by apply NoDup_submseteq.
  by apply submseteq_length_Permutation.
Qed.

Lemma newest_insert n C K x :
  newest_of n C K → x ∉ C → (length K < n)%nat → newest_of n (app C [x]) (insert_by Z.leb x K).
Proof.
  intros [Hs Hf Hl Hw] Hx Hlt.
  assert (K ≡ₚ C) as HKC.
  { apply submset_length_perm; [by apply strongly_sorted_NoDup|done|lia]. }
  split.
  - apply insert_sorted_lt; [|done]. intros Hin. by apply Hx, Hf.
  - intros s. rewrite insert_by_perm, elem_of_cons, elem_of_app, list_elem_of_singleton. naive_solver.
  - rewrite insert_by_perm, length_app. simpl. lia.
  - intros c s Hc Hn. destruct Hn. rewrite insert_by_perm.
    rewrite elem_of_app, list_elem_of_singleton in Hc. rewrite elem_of_cons, HKC. naive_solver.
Qed.

Lemma newest_replace n C K o x :
  newest_of n C (o :: K) → x ∉ C → length (o :: K) = n → o < x →
  newest_of n (app C [x]) (insert_by Z.leb x K).
Proof.
  intros [Hs Hf Hl Hw] Hx Hn Hlt. apply StronglySorted_inv in Hs as [Hs Hall].
  rewrite Forall_forall in Hall. split.
  - apply insert_sorted_lt; [|done]. intros Hin. apply Hx, Hf. by right.
  - intros s. rewrite insert_by_perm, elem_of_cons, elem_of_app, list_elem_of_singleton.
    intros [->|Hin]; [by right|]. left. apply Hf. by right.
  - rewrite insert_by_perm, length_app. simpl in *. lia.
  - intros c s Hc. rewrite insert_by_perm, elem_of_app, list_elem_of_singleton in *.
    rewrite !elem_of_cons. intros Hnin [->|Hin].
    + destruct Hc as [Hc| ->]; [|by destruct Hnin; left].
      destruct (decide (c = o)) as [->|Hne]; [done|].
      enough (c < o) by lia. apply Hw; [done| |left]. rewrite elem_of_cons. naive_solver.
    + destruct Hc as [Hc| ->]; [|by destruct Hnin; left].
      destruct (decide (c = o)) as [->|Hne]; [by apply Hall|].
      apply Hw; [done| |by right]. rewrite elem_of_cons. naive_solver.
Qed.

(** What loses to every one of a full selection changes nothing. *)
Lemma newest_losers n C K rest :
  newest_of n C K → length K = n → (∀ x s, x ∈ rest → s ∈ K → x < s) → newest_of n (app C rest) K.
Proof.
  intros [Hs Hf Hl Hw] Hn Hr. split; [done| | |].
  - intros s Hin. apply elem_of_app. left. by apply Hf.
  - rewrite length_app. lia.
  - intros c s [Hc|Hc]%elem_of_app Hnin Hin; [by apply Hw|by apply Hr].
Qed.

(** The selection is determined by the candidates. *)
Lemma newest_unique n C K K' : newest_of n C K → newest_of n C K' → K = K'.
Proof.
  intros [Hs Hf Hl Hw] [Hs' Hf' Hl' Hw'].
  assert (∀ s, s ∈ K → s ∈ K') as Hsub.
  { intros s Hin. destruct (decide (s ∈ K')) as [|Hn]; [done|].
    assert (∃ t, t ∈ K' ∧ t ∉ K) as (t & Ht & Htn).
    { destruct (decide (Exists (λ t, t ∉ K) K')) as [(t & ? & ?)%Exists_exists|Hno]; [by exists t|].
      exfalso. assert (K' ≡ₚ K) as Hp; [|by rewrite Hp in Hn].
      apply submset_length_perm; [by apply strongly_sorted_NoDup| |lia].
      intros t Ht. destruct (decide (t ∈ K)) as [|Htn]; [done|]. destruct Hno.
      apply Exists_exists. by exists t. }
    pose proof (Hw t s (Hf' _ Ht) Htn Hin). pose proof (Hw' s t (Hf _ Hin) Hn Ht). lia. }
  apply (StronglySorted_unique_strong Z.lt); [intros; lia|done|done|].
  apply submset_length_perm; [by apply strongly_sorted_NoDup|done|lia].
Qed.

(** ** The loops *)

Lemma push_newest b C C' K s :
  newest_of (total b) C' (insert_by Z.leb s K) → (b_peak b ≤ total b)%nat →
  C' = app C [s] →
  newest_of (total b) C' (kept (push b K s).1) ∧ (b_peak (push b K s).1 ≤ total b)%nat.
Proof.
  intros Hn Hp ->. split; [done|]. simpl. pose proof (newest_length _ _ _ Hn). lia.
Qed.

Record offered (b b' : ReplayBound) (C : list Z) : Prop := {
  off_newest : newest_of (total b) C (kept b');
  off_total : total b' = total b;
  off_per_topic : per_topic b' = per_topic b;
  off_waiting : waiting b' = waiting b;
  off_peak : (b_peak b' ≤ total b)%nat;
}.

Lemma offer_all_offered b C sqs :
  newest_of (total b) C (kept b) → StronglySorted Z.gt sqs →
  (∀ s, s ∈ sqs → (s ∉ C) ∧ 0 ≤ s) → (taken b + length sqs ≤ per_topic b)%nat →
  (b_peak b ≤ total b)%nat → offered b (offer_all b sqs) (app C sqs).
Proof.
  intros Hn Hs. revert b C Hn.
  induction Hs as [|s sqs Hs IH Hall]; intros b C Hn Hd Ht Hp; simpl.
  { rewrite app_nil_r. by split. }
  rewrite Forall_forall in Hall. destruct (Hd s) as [HsC Hs0]; [left|].
  replace (seq_of s) with s by (unfold seq_of; lia).
  assert (∀ K, newest_of (total b) (app C [s]) (insert_by Z.leb s K) →
    offered b (let '(b', more) := push b K s in if more then offer_all b' sqs else b') (app C (s :: sqs)))
    as Hpush.
  { intros K HK. destruct (push_newest b C _ K s HK Hp eq_refl) as [Hk Hpk]. simpl in *.
    rewrite cons_middle, app_assoc. destruct (_ <? _)%nat eqn:E.
    - destruct (IH (push b K s).1 (app C [s]) Hk) as [????]; simpl; [|lia|done|by split].
      intros x Hx. destruct (Hd x) as [? ?]; [by right|]. split; [|done].
      rewrite elem_of_app, list_elem_of_singleton. intros [?| ->]; [done|]. specialize (Hall s Hx). lia.
    - apply Nat.ltb_ge in E. simpl in Ht. destruct sqs; [|simpl in Ht; lia]. rewrite app_nil_r. by split. }
  unfold offer. destruct (_ || _) eqn:E.
  { simpl in Ht. apply orb_true_iff in E as [E%Nat.leb_le|E%Nat.eqb_eq]; [lia|].
    split; try done. apply newest_losers; [done| |].
    - rewrite (newest_length _ _ _ Hn). lia.
    - intros x k _ Hk. pose proof (newest_length _ _ _ Hn) as Hl. rewrite E in Hl. simpl in Hl.
      apply length_zero_iff_nil in Hl. rewrite Hl in Hk. by apply not_elem_of_nil in Hk. }
  split_and_bool. apply Nat.eqb_neq in H0.
  destruct (total b <=? length (kept b))%nat eqn:E2; [apply Nat.leb_le in E2|apply Nat.leb_gt in E2].
  - destruct (kept b) as [|o K] eqn:EK; [simpl in E2; lia|].
    pose proof (newest_length _ _ _ Hn) as Hl.
    destruct (Z.ltb_spec o s).
    + apply Hpush. eapply newest_replace; [done|done|lia|done].
    + split; try done. rewrite EK. apply newest_losers; [done|lia|].
      intros x k Hx Hk. assert (o ≤ k).
      { pose proof (newest_sorted _ _ _ Hn) as Hsort. apply StronglySorted_inv in Hsort as [_ Ho].
        rewrite Forall_forall in Ho. apply elem_of_cons in Hk as [->|Hk]; [lia|]. specialize (Ho k Hk). lia. }
      assert (x ≠ k).
      { intros ->. destruct (Hd k Hx) as [? _]. apply H3. by apply (newest_from _ _ _ Hn). }
      apply elem_of_cons in Hx as [->|Hx]; [lia|]. specialize (Hall x Hx). lia.
  - apply Hpush. by apply newest_insert.
Qed.

(** ** The log and the plan *)

Definition row_lt (a b : Row) : Prop := row_seq a < row_seq b.

(** Sequences grow along the log, and the next one is past them all. *)
Definition log_wf (l : Log) : Prop :=
  StronglySorted row_lt (rows l) ∧ (∀ r, r ∈ rows l → 0 < row_seq r < next_seq l) ∧ 0 < next_seq l.

Lemma sorted_filter (f : Row → bool) rs : StronglySorted row_lt rs → StronglySorted row_lt (List.filter f rs).
Proof.
  induction 1 as [|r rs Hs IH Hall]; simpl; [constructor|]. destruct (f r); [|done].
  constructor; [done|]. rewrite Forall_forall in *. intros x Hx. apply Hall.
  apply list_elem_of_In, filter_In in Hx as [Hx _]. by apply list_elem_of_In.
Qed.

Lemma elem_of_filter_bool {A} (f : A → bool) (l : list A) x : x ∈ List.filter f l ↔ x ∈ l ∧ f x = true.
Proof. rewrite !list_elem_of_In. apply filter_In. Qed.

Lemma descending_seqs rs : StronglySorted row_lt rs → StronglySorted Z.gt (rev (row_seq <$> rs)).
Proof.
  induction 1 as [|r rs Hs IH Hall]; csimpl; [constructor|].
  assert (∀ l x, StronglySorted Z.gt l → Forall (λ y, y > x) l → StronglySorted Z.gt (app l [x])) as Hsnoc.
  { clear. intros l x. induction 1 as [|y l Hs IH Hall]; intros Hx; simpl; [by repeat constructor|].
    apply Forall_cons in Hx as [Hy Hx]. constructor; [by apply IH|]. apply Forall_app. split; [done|by constructor]. }
  apply Hsnoc; [done|]. rewrite <-Permutation_rev. rewrite Forall_fmap.
  eapply Forall_impl; [done|]. unfold row_lt. simpl. lia.
Qed.

Lemma strongly_sorted_take {A} (R : relation A) n l : StronglySorted R l → StronglySorted R (take n l).
Proof.
  intros Hs. revert n. induction Hs as [|x l Hs IH Hall]; intros [|n]; simpl; try constructor; [done|].
  by apply Forall_take.
Qed.

Lemma row_seq_inj rs a b :
  StronglySorted row_lt rs → a ∈ rs → b ∈ rs → row_seq a = row_seq b → a = b.
Proof.
  intros Hs. induction Hs as [|r rs Hs IH Hall]; [by intros ?%not_elem_of_nil|].
  rewrite Forall_forall in Hall. unfold row_lt in Hall.
  intros [->|Ha]%elem_of_cons [->|Hb]%elem_of_cons Heq; [done| | |by apply IH].
  - specialize (Hall b Hb). lia.
  - specialize (Hall a Ha). lia.
Qed.

Section Plan.
Context (l : Log) (rq : ReplayRequest).

(** The messages of one topic that wait for the reader. *)
Definition topic_waiting (topic : string) : list Row :=
  match topic_start l rq topic with
  | Some from => waiting_rows l topic from (rq_scope rq)
  | None => []
  end.

Definition candidates_of (topic : string) : list Z := newest_seqs (rq_per_topic rq) (topic_waiting topic).
Definition candidates (topics : list string) : list Z := topics ≫= candidates_of.
Definition waiting_count (topics : list string) : nat := sum_list_with (λ t, length (topic_waiting t)) topics.

Lemma topic_waiting_elem topic r : r ∈ topic_waiting topic → r ∈ rows l ∧ row_topic r = topic.
Proof.
  unfold topic_waiting. destruct (topic_start _ _ _); [|by intros ?%not_elem_of_nil].
  intros [Hr Hw]%elem_of_filter_bool. split; [done|]. unfold waits in Hw. by split_and_bool.
Qed.

Lemma candidates_of_elem topic s :
  s ∈ candidates_of topic → ∃ r, r ∈ topic_waiting topic ∧ row_seq r = s.
Proof.
  intros Hin%elem_of_take. destruct Hin as (i & Hin & _). apply list_elem_of_lookup_2 in Hin.
  rewrite <-Permutation_rev in Hin. apply list_elem_of_fmap in Hin as (r & -> & Hr). by exists r.
Qed.

Lemma candidates_elem topics s :
  s ∈ candidates topics → ∃ topic r, topic ∈ topics ∧ r ∈ topic_waiting topic ∧ row_seq r = s.
Proof.
  intros (topic & Hs & Ht)%list_elem_of_bind. apply candidates_of_elem in Hs as (r & ? & ?). by exists topic, r.
Qed.

Lemma waiting_count_le topics : NoDup topics → (waiting_count topics ≤ length (rows l))%nat.
Proof.
  intros Hnd. unfold waiting_count, topic_waiting, waiting_rows. generalize (rows l) as rs. intros rs.
  induction rs as [|r rs IH]; simpl.
  { clear Hnd. induction topics as [|t topics IH]; simpl; [done|]. by destruct (topic_start _ _ _). }
  set (f := λ t rs, length match topic_start l rq t with
                           | Some from => List.filter (waits t from (rq_scope rq)) rs | None => [] end).
  assert (sum_list_with (λ t, f t (r :: rs)) topics ≤
          sum_list_with (λ t, f t rs) topics + (if bool_decide (row_topic r ∈ topics) then 1 else 0))%nat
    as Hstep; [|unfold f in Hstep; destruct (bool_decide _); simpl in *; lia].
  clear IH. induction Hnd as [|t topics Hn Hnd IH]; simpl; [lia|].
  assert (f t (r :: rs) ≤ f t rs + (if bool_decide (row_topic r = t) then 1 else 0))%nat as Hone.
  { unfold f. destruct (topic_start _ _ _); simpl; [|lia]. unfold waits at 1.
    destruct (row_topic r == t) eqn:E; split_and_bool; [|rewrite bool_decide_eq_false_2 by done; simpl; lia].
    rewrite bool_decide_eq_true_2 by done. destruct (_ && _); simpl; lia. }
  repeat case_bool_decide; set_solver by lia.
Qed.

Lemma candidates_of_descending topic : log_wf l → StronglySorted Z.gt (candidates_of topic).
Proof.
  intros (Hs & _). apply strongly_sorted_take, descending_seqs. unfold topic_waiting.
  destruct (topic_start _ _ _); [by apply sorted_filter|constructor].
Qed.

(** What the bound holds after some topics were read. *)
Record replayed (topics : list string) (b : ReplayBound) : Prop := {
  rep_newest : newest_of (rq_total rq) (candidates topics) (kept b);
  rep_total : total b = rq_total rq;
  rep_per_topic : per_topic b = rq_per_topic rq;
  rep_waiting : waiting b = Z.of_nat (waiting_count topics);
  rep_peak : (b_peak b ≤ rq_total rq)%nat;
}.

Lemma replay_topic_replayed topics topic b :
  log_wf l → topic ∉ topics → Z.of_nat (waiting_count (app topics [topic])) < 2 ^ 64 →
  replayed topics b → replayed (app topics [topic]) (replay_topic l rq b topic).
Proof.
  intros Hwf Hnew Hfit [Hn Ht Hp Hw Hk].
  assert (candidates (app topics [topic]) = app (candidates topics) (candidates_of topic)) as Hc.
  { unfold candidates. rewrite bind_app. simpl. by rewrite app_nil_r. }
  assert (waiting_count (app topics [topic]) = waiting_count topics + length (topic_waiting topic))%nat as Hwc.
  { unfold waiting_count. rewrite sum_list_with_app. simpl. lia. }
  rewrite Hwc in Hfit. unfold replay_topic. destruct (topic_start l rq topic) as [from|] eqn:Est.
  2: { assert (topic_waiting topic = []) as Hnil by (unfold topic_waiting; by rewrite Est).
       split; rewrite ?Hc, ?Hwc; unfold candidates_of; rewrite ?Hnil; simpl; try done.
       - unfold newest_seqs. simpl. by rewrite take_nil, app_nil_r.
       - by rewrite Nat.add_0_r. }
  assert (waiting_rows l topic from (rq_scope rq) = topic_waiting topic) as ->
    by (unfold topic_waiting; by rewrite Est).
  destruct (length (topic_waiting topic) =? 0)%nat eqn:E0.
  { apply Nat.eqb_eq, length_zero_iff_nil in E0.
    split; rewrite ?Hc, ?Hwc; unfold candidates_of; rewrite ?E0; simpl; try done.
    - unfold newest_seqs. simpl. by rewrite take_nil, app_nil_r.
    - by rewrite Nat.add_0_r. }
  change (newest_seqs (rq_per_topic rq) (topic_waiting topic)) with (candidates_of topic).
  set (b0 := bound_topic b _).
  assert (offered b0 (offer_all b0 (candidates_of topic)) (app (candidates topics) (candidates_of topic)))
    as [Hn' Ht' Hp' Hw' Hk'].
  { apply offer_all_offered; simpl; rewrite ?Ht, ?Hp; try done.
    - by apply candidates_of_descending.
    - intros s Hs. apply candidates_of_elem in Hs as (r & Hr & <-).
      apply topic_waiting_elem in Hr as Hr'. destruct Hr' as [Hin Htop]. split.
      + intros (topic' & r' & Ht'' & Hr' & Heq)%candidates_elem.
        apply topic_waiting_elem in Hr' as [Hin' Htop'].
        assert (r' = r) as -> by (by eapply row_seq_inj; [apply Hwf|..]). by subst.
      + apply Hwf in Hin. lia.
    - unfold candidates_of, newest_seqs. rewrite length_take. lia. }
  simpl in *. rewrite Ht in *. split; rewrite ?Hc, ?Hwc; try done; [by rewrite Hp'|].
  rewrite Hw', Hw. unfold u64_add, seq_of. rewrite u64_wrap_small; lia.
Qed.

Lemma replay_all topics done_ b :
  log_wf l → NoDup (app done_ topics) → Z.of_nat (waiting_count (app done_ topics)) < 2 ^ 64 →
  replayed done_ b → replayed (app done_ topics) (foldl (replay_topic l rq) b topics).
Proof.
  intros Hwf. revert done_ b. induction topics as [|t topics IH]; intros done_ b Hnd Hfit Hb; simpl.
  { by rewrite app_nil_r. }
  rewrite cons_middle, app_assoc in *. apply IH; [done..|]. apply replay_topic_replayed; [done| | |done].
  - apply NoDup_app in Hnd as (Hnd & _). apply NoDup_app in Hnd as (_ & Hnd & _).
    intros Hin. apply (Hnd t Hin). left.
  - unfold waiting_count in *. rewrite sum_list_with_app in Hfit. lia.
Qed.
End Plan.

Lemma kept_topics_NoDup l : NoDup (kept_topics l).
Proof. unfold kept_topics, btree_set_iter. rewrite sort_by_key_perm. apply NoDup_elements. Qed.

Lemma elem_of_kept_topics l t : t ∈ kept_topics l ↔ ∃ r, r ∈ rows l ∧ row_topic r = t.
Proof.
  unfold kept_topics. rewrite elem_of_btree_set_iter, elem_of_list_to_set, list_elem_of_fmap. naive_solver.
Qed.

(** ** Pruning *)

Abbreviation dropped doomed := (λ r, negb (existsb (Z.eqb (row_seq r)) doomed)) (only parsing).

Lemma dropped_true doomed r : dropped doomed r = true ↔ row_seq r ∉ doomed.
Proof.
  rewrite negb_true_iff, <-not_true_iff_false, existsb_exists. apply not_iff_compat. split.
  - intros (x & Hx & ->%Z.eqb_eq). by apply list_elem_of_In.
  - intros Hin. exists (row_seq r). split; [by apply list_elem_of_In|apply Z.eqb_refl].
Qed.

(** Deleting rows that are there, each once, removes that many. *)
Lemma delete_count rs sub :
  StronglySorted row_lt rs → sub `sublist_of` rs →
  length (List.filter (dropped (row_seq <$> sub)) rs) = (length rs - length sub)%nat.
Proof.
  intros Hs Hsub. revert Hs. induction Hsub as [|r sub rs Hsub IH|r sub rs Hsub IH]; intros Hs; [done|..].
  - apply StronglySorted_inv in Hs as [Hs Hall]. csimpl. rewrite Z.eqb_refl. simpl.
    rewrite <-IH by done. f_equal. apply List.filter_ext_in. intros x Hx%list_elem_of_In.
    rewrite Forall_forall in Hall. specialize (Hall x Hx). unfold row_lt in Hall.
    by replace (row_seq x =? row_seq r) with false by (symmetry; apply Z.eqb_neq; lia).
  - apply StronglySorted_inv in Hs as [Hs Hall]. simpl.
    destruct (negb _) eqn:E; simpl; rewrite IH by done.
    + apply sublist_length in Hsub. lia.
    + exfalso. apply negb_false_iff, existsb_exists in E as (x & Hx & Heq%Z.eqb_eq).
      apply list_elem_of_In, list_elem_of_fmap in Hx as (y & -> & Hy).
      rewrite Forall_forall in Hall. 
      assert (y ∈ rs) as Hyr by (by eapply elem_of_submseteq, sublist_submseteq). specialize (Hall y Hyr).
      unfold row_lt in Hall. lia.
Qed.

Lemma filter_sublist_bool {A} (f : A → bool) (l : list A) : List.filter f l `sublist_of` l.
Proof. induction l as [|x l IH]; simpl; [done|]. destruct (f x); by constructor. Qed.

Lemma sublist_of_take {A} n (l : list A) : take n l `sublist_of` l.
Proof. rewrite <-(take_drop n l) at 2. apply sublist_inserts_r. done. Qed.

Lemma filter_filter_bool {A} (f g : A → bool) (l : list A) :
  List.filter f (List.filter g l) = List.filter g (List.filter f l).
Proof. induction l as [|x l IH]; simpl; [done|]. destruct (g x) eqn:Eg, (f x) eqn:Ef; simpl; rewrite ?Eg, ?Ef; by rewrite ?IH. Qed.

Lemma filter_id_bool {A} (f : A → bool) (l : list A) : (∀ x, x ∈ l → f x = true) → List.filter f l = l.
Proof.
  induction l as [|x l IH]; intros Hf; simpl; [done|]. rewrite (Hf x) by left. f_equal. apply IH.
  intros y Hy. apply Hf. by right.
Qed.

(** Dropping the first rows of a sorted list by their sequences is [drop]. *)
Lemma filter_dropped_take rs k :
  StronglySorted row_lt rs → List.filter (dropped (row_seq <$> take k rs)) rs = drop k rs.
Proof.
  intros Hs. revert k. induction Hs as [|r rs Hs IH Hall]; intros [|k]; csimpl; try done.
  - f_equal. by apply filter_id_bool.
  - rewrite Z.eqb_refl. simpl. rewrite <-IH. apply List.filter_ext_in. intros x Hx%list_elem_of_In.
    rewrite Forall_forall in Hall. specialize (Hall x Hx). unfold row_lt in Hall.
    by replace (row_seq x =? row_seq r) with false by (symmetry; apply Z.eqb_neq; lia).
Qed.

(** Deleting the oldest of one group takes them from that group alone. *)
Lemma delete_group rs g k rs' went :
  StronglySorted row_lt rs →
  delete_topic_messages rs (take k (row_seq <$> in_group g rs)) = (rs', went) →
  StronglySorted row_lt rs' ∧ rs' `sublist_of` rs ∧ length rs' = (length rs - went)%nat ∧
  went = Nat.min k (length (in_group g rs)) ∧
  in_group g rs' = drop k (in_group g rs) ∧
  ∀ g', g' ≠ g → in_group g' rs' = in_group g' rs.
Proof.
  intros Hs. unfold delete_topic_messages. rewrite <-fmap_take. intros [= <- <-].
  assert (take k (in_group g rs) `sublist_of` rs) as Hsub.
  { etrans; [apply sublist_of_take|apply filter_sublist_bool]. }
  assert (StronglySorted row_lt (in_group g rs)) as Hg by by apply sorted_filter.
  pose proof (sublist_length _ _ Hsub) as Hlen.
  rewrite delete_count, length_take in * by done. split_and!.
  - by apply sorted_filter.
  - apply filter_sublist_bool.
  - lia.
  - lia.
  - unfold in_group at 1. rewrite filter_filter_bool. by apply filter_dropped_take.
  - intros g' Hne. unfold in_group at 1. rewrite filter_filter_bool. apply filter_id_bool.
    intros r [Hr Hgr]%elem_of_filter_bool. split_and_bool. apply dropped_true.
    intros (r' & Heq & Hr')%list_elem_of_fmap.
    apply elem_of_take in Hr' as (i & Hr'%list_elem_of_lookup_2 & _).
    apply elem_of_filter_bool in Hr' as [Hr' Hgr']. split_and_bool.
    assert (r = r') as -> by (by apply (row_seq_inj rs)). congruence.
Qed.

Lemma prune_groups_ok gs limit rs budget removed rs' removed' :
  StronglySorted row_lt rs → NoDup gs.*1 →
  (∀ g c, (g, c) ∈ gs → c = length (in_group g rs)) →
  prune_groups gs limit rs budget removed = (rs', removed') →
  rs' `sublist_of` rs ∧ removed' = (removed + (length rs - length rs'))%nat ∧
  (length rs - length rs' ≤ budget)%nat ∧
  (∀ g, ∃ k, in_group g rs' = drop k (in_group g rs) ∧ (k ≤ length (in_group g rs) - limit)%nat) ∧
  (∀ g, g ∉ gs.*1 → in_group g rs' = in_group g rs) ∧
  ((length rs - length rs' < budget)%nat → ∀ g, g ∈ gs.*1 → (length (in_group g rs') ≤ limit)%nat).
Proof.
  revert rs budget removed. induction gs as [|[g c] gs IH]; intros rs budget removed Hs Hnd Hc; cbn [prune_groups].
  { intros [= <- <-]. split_and!; [done|lia|lia| |done|set_solver]. intros g. exists 0%nat. split; [done|lia]. }
  destruct (budget =? 0)%nat eqn:Eb.
  { apply Nat.eqb_eq in Eb as ->. intros [= <- <-]. split_and!; [done|lia|lia| |done|lia].
    intros g'. exists 0%nat. split; [done|lia]. }
  destruct (delete_topic_messages _ _) as [rs1 went] eqn:Ed.
  apply delete_group in Ed as (Hs1 & Hsub1 & Hlen1 & Hwent & Hg & Hother); [|done].
  apply NoDup_cons in Hnd as [Hgn Hnd].
  assert (c = length (in_group g rs)) as -> by (apply Hc; left).
  pose proof (sublist_length _ _ Hsub1) as Hle1.
  assert (length (in_group g rs) ≤ length rs)%nat as Hgl by apply sublist_length, filter_sublist_bool.
  assert (∀ g' c, (g', c) ∈ gs → g' ≠ g) as Hne.
  { intros g' c' Hin ->. apply Hgn. apply list_elem_of_fmap. by exists (g, c'). }
  intros Hr. apply IH in Hr as (Hsub & -> & Hbud & Hdrop & Hout & Hfull); [|done|done|].
  2: { intros g' c' Hin. rewrite Hother by (by eapply Hne). apply Hc. by right. }
  pose proof (sublist_length _ _ Hsub) as Hle. split_and!.
  - by etrans.
  - lia.
  - lia.
  - intros g'. destruct (decide (g' = g)) as [->|Hgg].
    + rewrite Hout by done. rewrite Hg. eexists. split; [done|]. lia.
    + destruct (Hdrop g') as (k & Hk & Hkl). exists k. by rewrite Hother in * by done.
  - intros g' Hg'. apply not_elem_of_cons in Hg' as [? ?]. by rewrite Hout, Hother.
  - intros Hlt g' [->|Hin]%elem_of_cons.
    + rewrite Hout by done. simpl. rewrite Hg, length_drop. lia.
    + apply Hfull; [lia|done].
Qed.

Lemma crowded_ok rs limit :
  NoDup (crowded rs limit).*1 ∧
  (∀ g c, (g, c) ∈ crowded rs limit → c = length (in_group g rs)) ∧
  (∀ g, g ∉ (crowded rs limit).*1 → (length (in_group g rs) ≤ limit)%nat).
Proof.
  unfold crowded. set (gs := List.filter _ _).
  assert (((λ g, (g, length (in_group g rs))) <$> gs).*1 = gs) as Hfst.
  { rewrite <-list_fmap_compose. rewrite <-(list_fmap_id gs) at 2. by apply list_fmap_ext. }
  rewrite Hfst. split_and!.
  - unfold gs. eapply sublist_NoDup; [|apply filter_sublist_bool]. rewrite sort_by_key_perm. apply NoDup_remove_dups.
  - by intros g c (g' & [= -> ->] & _)%list_elem_of_fmap.
  - intros g Hn. destruct (decide (length (in_group g rs) ≤ limit)%nat) as [|Hgt]; [done|]. destruct Hn.
    unfold gs. apply elem_of_filter_bool. split; [|apply Nat.ltb_lt; lia].
    rewrite elem_of_sort_by_key, elem_of_remove_dups.
    destruct (in_group g rs) as [|r grp] eqn:E; [simpl in Hgt; lia|].
    assert (r ∈ in_group g rs) as Hr by (rewrite E; left).
    apply elem_of_filter_bool in Hr as [Hr Hgr]. split_and_bool. rewrite <-Hgr. by apply list_elem_of_fmap_2.
Qed.

(** ** Histories *)

(** One operation on the log; the agent it retires, if any. *)
Inductive step : option string → Log → Log → Prop :=
| step_keep l m topic project : step None l (keep_topic_message l m topic project).1
| step_advance l agent cs : step None l (advance_topic_cursors l agent cs)
| step_merge l kept_agent retired : step (Some retired) l (merge_topic_cursors l kept_agent retired)
| step_prune l cutoff limit batch : step None l (prune_topic_messages l cutoff limit batch).1.

Lemma log_wf_sublist l rs cs :
  log_wf l → rs `sublist_of` rows l → log_wf (mkLog rs (next_seq l) cs).
Proof.
  intros (Hs & Hr & Hn) Hsub. split_and!; simpl; [| |done].
  - clear Hr. revert Hs. induction Hsub as [|r rs rs' Hsub IH|r rs rs' Hsub IH]; intros Hs; [done|..];
      apply StronglySorted_inv in Hs as [Hs Hall]; [|by apply IH].
    constructor; [by apply IH|]. rewrite Forall_forall in *.
    intros x Hx. apply Hall. by eapply elem_of_submseteq, sublist_submseteq.
  - intros r Hin. apply Hr. by eapply elem_of_submseteq, sublist_submseteq.
Qed.

Lemma prune_sublist l cutoff limit batch :
  log_wf l →
  let l' := (prune_topic_messages l cutoff limit batch).1 in
  rows l' `sublist_of` rows l ∧ next_seq l' = next_seq l ∧ cursors l' = cursors l.
Proof.
  intros (Hs & _). unfold prune_topic_messages, delete_topic_messages.
  destruct (prune_groups _ _ _ _ _) as [rs' n] eqn:E. simpl. split; [|done].
  destruct (crowded_ok (List.filter (dropped (old_rows (rows l) cutoff batch)) (rows l)) limit) as (H1 & H2 & _).
  apply prune_groups_ok in E as (Hsub & _); [|by apply sorted_filter|done..].
  etrans; [done|apply filter_sublist_bool].
Qed.

Lemma step_wf o l l' : step o l l' → log_wf l → log_wf l'.
Proof.
  intros [l0 m topic project|l0 agent cs|l0 a b|l0 cutoff limit batch] Hwf; [|by destruct Hwf|by destruct Hwf|].
  - destruct Hwf as (Hs & Hr & Hn). split_and!; simpl; [| |lia].
    + clear Hn. revert Hr. induction Hs as [|r rs Hs IH Hall]; intros Hr; simpl; [by repeat constructor|].
      constructor; [apply IH; intros x Hx; apply Hr; by right|]. apply Forall_app. split; [done|].
      constructor; [|done]. unfold row_lt. simpl. apply Hr. left.
    + intros r. rewrite elem_of_app, list_elem_of_singleton. intros [Hin| ->]; simpl.
      * specialize (Hr r Hin). lia.
      * lia.
  - destruct (prune_sublist l0 cutoff limit batch Hwf) as (Hsub & Hn & _).
    destruct (prune_topic_messages _ _ _ _).1 as [rs ns cs] eqn:E. simpl in *. subst.
    by apply log_wf_sublist.
Qed.

(** The cursor stands at [s] or further. *)
Definition reaches (m : gmap (string * string) Z) (k : string * string) (s : Z) : Prop :=
  ∃ s', m !! k = Some s' ∧ s ≤ s'.

Lemma raise_cursor_reaches agent topic seq m k s :
  reaches m k s → reaches (raise_cursor agent topic seq m) k s.
Proof.
  intros (s' & Hs' & Hle). unfold raise_cursor, reaches. destruct (decide (k = (agent, topic))) as [->|Hne].
  - rewrite lookup_insert_eq, Hs'. eexists. split; [done|]. lia.
  - rewrite lookup_insert_ne by done. eauto.
Qed.

Lemma raise_cursor_raises agent topic seq m : reaches (raise_cursor agent topic seq m) (agent, topic) seq.
Proof.
  unfold raise_cursor, reaches. rewrite lookup_insert_eq. destruct (m !! _); eexists; (split; [done|]); lia.
Qed.

Lemma raise_all_reaches {A} (f : A → string * Z) agent (xs : list A) m k s :
  reaches m k s → reaches (foldl (λ m x, raise_cursor agent (f x).1 (f x).2 m) m xs) k s.
Proof. revert m. induction xs as [|x xs IH]; intros m Hm; simpl; [done|]. by apply IH, raise_cursor_reaches. Qed.

Lemma raise_all_raises {A} (f : A → string * Z) agent (xs : list A) m x :
  x ∈ xs → reaches (foldl (λ m x, raise_cursor agent (f x).1 (f x).2 m) m xs) (agent, (f x).1) (f x).2.
Proof.
  revert m. induction xs as [|y xs IH]; intros m; [by intros ?%not_elem_of_nil|].
  intros [->|Hin]%elem_of_cons; simpl; [|by apply IH]. apply raise_all_reaches, raise_cursor_raises.
Qed.

Lemma step_cursor o l l' a t s :
  step o l l' → o ≠ Some a → log_wf l → reaches (cursors l) (a, t) s → reaches (cursors l') (a, t) s.
Proof.
  intros [l0 m topic project|l0 agent cs|l0 k r|l0 cutoff limit batch] Ho Hwf Hm; [done|..].
  - simpl. by apply (raise_all_reaches (λ c, (tc_topic c, sql_seq (tc_seq c)))).
  - simpl. apply (raise_all_reaches id k (cursors_of l0 r)) in Hm as (s' & Hs' & Hle). exists s'.
    split; [|done]. apply map_lookup_filter_Some. split; [done|]. simpl. congruence.
  - by destruct (prune_sublist l0 cutoff limit batch Hwf) as (_ & _ & ->).
Qed.

(** The highest acknowledgement of each topic. *)
Lemma note_highest_ok acks m t s :
  foldl note_highest m acks !! t = Some s ↔
  ((t, s) ∈ acks ∨ m !! t = Some s) ∧
  (∀ s', (t, s') ∈ acks → s' ≤ s) ∧ (∀ s', m !! t = Some s' → s' ≤ s).
Proof.
  revert m. induction acks as [|[t0 s0] acks IH]; intros m; simpl.
  { split; [intros ->; split_and!; [by right|set_solver|by intros ? [= ->]]|].
    intros ([Hin|Hm] & _); [by apply not_elem_of_nil in Hin|done]. }
  rewrite IH. unfold note_highest. simpl. setoid_rewrite elem_of_cons. clear IH.
  destruct (decide (t = t0)) as [->|Hne].
  - rewrite lookup_insert_eq. destruct (m !! t0) as [sm|]; simpl.
    + split.
      * intros (H1 & H2 & H3). specialize (H3 _ eq_refl). split_and!.
        -- destruct H1 as [?|[= <-]]; [by left; right|]. destruct (Z.max_spec sm s0) as [[? ->]|[? ->]]; [by left; left|by right].
        -- intros s' [[= ->]|?]; [lia|auto].
        -- intros s' [= ->]. lia.
      * intros (H1 & H2 & H3). pose proof (H2 s0 (or_introl eq_refl)). specialize (H3 _ eq_refl). split_and!.
        -- destruct H1 as [[[= <-]|?]|[= ->]]; [right; f_equal; lia|by left|right; f_equal; lia].
        -- auto.
        -- intros s' [= <-]. lia.
    + rewrite Z.max_id. split.
      * intros (H1 & H2 & H3). specialize (H3 _ eq_refl). split_and!; [naive_solver| |done].
        intros s' [[= ->]|?]; [lia|auto].
      * intros (H1 & H2 & _). split_and!; [naive_solver|auto|intros s' [= <-]; auto].
  - rewrite lookup_insert_ne by done. naive_solver.
Qed.
Lemma replay_plan_newest (l : Log) (rq : ReplayRequest)
    (Hwf : log_wf l) (Hfit : Z.of_nat (length (rows l)) < 2 ^ 64)
    (Hpat : rq_patterns rq ≠ []) (Hstart : is_Some (start (is_some (rq_reader rq)) None (rq_after rq))) :
  let plan := topic_replay_plan l rq in
  newest_of (rq_total rq) (candidates l rq (kept_topics l)) (seqs plan) ∧
  skipped plan = Z.of_nat (waiting_count l rq (kept_topics l)) - Z.of_nat (length (seqs plan)) ∧
  (peak plan ≤ rq_total rq)%nat.
Proof.
  unfold topic_replay_plan. destruct (rq_patterns rq); [done|]. destruct Hstart as [x ->]. simpl.
  pose proof (waiting_count_le l rq (kept_topics l) (kept_topics_NoDup l)) as Hle.
  destruct (replay_all l rq (kept_topics l) [] (bound_new (rq_per_topic rq) (rq_total rq))) as [Hn _ _ Hw Hk].
  - done.
  - apply kept_topics_NoDup.
  - simpl. lia.
  - split; try done; [split; [constructor|set_solver|simpl; lia|set_solver]|simpl; lia].
  - simpl in *. split_and!; [done| |done]. rewrite Hw. unfold u64_saturating_sub.
    enough (length (candidates l rq (kept_topics l)) ≤ waiting_count l rq (kept_topics l))%nat.
    { pose proof (newest_length _ _ _ Hn). lia. }
    clear. unfold candidates, waiting_count. induction (kept_topics l) as [|t ts IH]; [done|].
    rewrite bind_cons, length_app. simpl.
    assert (length (candidates_of l rq t) ≤ length (topic_waiting l rq t))%nat; [|lia].
    unfold candidates_of, newest_seqs. rewrite length_take, length_rev, length_fmap. lia.
Qed.

Lemma old_rows_sub rs cutoff n :
  ∃ sub, sub `sublist_of` rs ∧ old_rows rs cutoff n = row_seq <$> sub.
Proof.
  unfold old_rows. destruct cutoff as [c|]; [|by exists []; split; [apply sublist_nil_l|]].
  exists (take n (List.filter (λ r, row_sent_at r <? c) rs)). split; [|by rewrite fmap_take].
  etrans; [apply sublist_of_take|apply filter_sublist_bool].
Qed.

Lemma old_rows_length rs cutoff n : (length (old_rows rs cutoff n) ≤ n)%nat.
Proof. unfold old_rows. destruct cutoff; simpl; [|lia]. rewrite length_take. lia. Qed.

(** A budget that is not used up took every old row. *)
Lemma old_rows_all rs cutoff c n r :
  cutoff = Some c → r ∈ rs → row_sent_at r < c → (length (old_rows rs cutoff n) < n)%nat →
  row_seq r ∈ old_rows rs cutoff n.
Proof.
  intros -> Hr Hlt. unfold old_rows. rewrite length_take. intros Hlen.
  rewrite take_ge by lia. apply list_elem_of_fmap_2, elem_of_filter_bool. split; [done|lia].
Qed.

End TopicFacts.

Module TopicProps.
Import TopicFacts.

(** C13: A subscribe replays, oldest first, exactly the newest [total] of the
    newest [per_topic] waiting messages of each topic its patterns match, and
    says how many it leaves out; it never holds more than [total] sequences
    while it chooses. The early stops of the reader lose nothing. *)
Theorem replay_is_the_newest (l : Log) (rq : ReplayRequest)
    (Hwf : log_wf l) (Hfit : Z.of_nat (length (rows l)) < 2 ^ 64)
    (Hpat : rq_patterns rq ≠ []) (Hstart : is_Some (start (is_some (rq_reader rq)) None (rq_after rq))) :
  let plan := topic_replay_plan l rq in
  newest_of (rq_total rq) (candidates l rq (kept_topics l)) (seqs plan) ∧
  skipped plan = Z.of_nat (waiting_count l rq (kept_topics l)) - Z.of_nat (length (seqs plan)) ∧
  (peak plan ≤ rq_total rq)%nat.
Proof. by apply replay_plan_newest. Qed.

(** What is replayed may be read: every sequence of the plan is a kept message
    of a topic some pattern matches, past where the subscription starts there,
    and visible to the reader by the rule that live delivery asks. *)
Theorem replayed_messages_may_be_read (l : Log) (rq : ReplayRequest) (s : Z)
    (Hwf : log_wf l) (Hfit : Z.of_nat (length (rows l)) < 2 ^ 64)
    (Hin : s ∈ seqs (topic_replay_plan l rq)) :
  ∃ r from, r ∈ rows l ∧ row_seq r = s ∧ topic_start l rq (row_topic r) = Some from ∧ from < s ∧
    visible (row_project r) (rq_scope rq) = true ∧
    existsb (λ p, topic_matches p (row_topic r)) (rq_patterns rq) = true.
Proof.
  destruct (decide (rq_patterns rq = [])) as [Hp|Hp].
  { unfold topic_replay_plan in Hin. rewrite Hp in Hin. by apply not_elem_of_nil in Hin. }
  destruct (start (is_some (rq_reader rq)) None (rq_after rq)) as [x|] eqn:Hst.
  2: { unfold topic_replay_plan in Hin. rewrite Hst, orb_true_r in Hin. by apply not_elem_of_nil in Hin. }
  destruct (replay_plan_newest l rq Hwf Hfit Hp ltac:(by rewrite Hst)) as [Hn _].
  apply (newest_from _ _ _ Hn), candidates_elem in Hin as (topic & r & _ & Hr & <-).
  unfold topic_waiting in Hr. destruct (topic_start l rq topic) as [from|] eqn:Hfrom.
  2: by apply not_elem_of_nil in Hr.
  apply elem_of_filter_bool in Hr as [Hr Hw]. unfold waits in Hw. split_and_bool. subst topic.
  exists r, from. split_and!; try done; [lia| |].
  - unfold visible. destruct (row_project r), (rq_scope rq); simpl in *; try done.
    split_and_bool. simplify_eq. apply eqb_refl.
  - unfold topic_start in Hfrom. by destruct (existsb _ _).
Qed.

(** In every history in which an agent is not retired, its cursor on a topic
    never moves back, whatever is kept, acknowledged, merged or pruned. *)
Theorem cursors_never_move_back (l l' : Log) (a t : string) (s : Z)
    (Hwf : log_wf l)
    (Hh : rtc (λ x y, ∃ o, step o x y ∧ o ≠ Some a) l l')
    (Hs : cursors l !! (a, t) = Some s) :
  ∃ s', cursors l' !! (a, t) = Some s' ∧ s ≤ s'.
Proof.
  assert (log_wf l' ∧ reaches (cursors l') (a, t) s) as [_ H]; [|done].
  eapply (rtc_invariant _ (λ x, log_wf x ∧ reaches (cursors x) (a, t) s)); [| |exact Hh].
  - intros x y (o & Hstep & Ho) [Hx Hr]. split; [by eapply step_wf|by eapply step_cursor].
  - split; [done|]. by exists s.
Qed.

(** Merging an identity into another leaves the kept one at the further of
    the two on every topic, and the retired one with nothing. *)
Theorem merged_cursor_is_the_further (l : Log) (kept_agent retired t : string) (s : Z)
    (Hne : kept_agent ≠ retired)
    (Hs : cursors l !! (retired, t) = Some s ∨ cursors l !! (kept_agent, t) = Some s) :
  let m := cursors (merge_topic_cursors l kept_agent retired) in
  (∃ s', m !! (kept_agent, t) = Some s' ∧ s ≤ s') ∧ m !! (retired, t) = None.
Proof.
  simpl. split.
  2: { apply map_lookup_filter_None. right. intros x _ Hx. by apply Hx. }
  assert (reaches (foldl (λ m ts, raise_cursor kept_agent ts.1 ts.2 m) (cursors l) (cursors_of l retired))
            (kept_agent, t) s) as (s' & Hs' & Hle).
  { destruct Hs as [Hs|Hs].
    - apply (raise_all_raises id kept_agent (cursors_of l retired) (cursors l) (t, s)).
      unfold cursors_of. apply list_elem_of_fmap. exists ((retired, t), s). split; [done|].
      apply list_elem_of_filter. by rewrite elem_of_map_to_list.
    - apply (raise_all_reaches id). by exists s. }
  exists s'. split; [|done]. apply map_lookup_filter_Some. by split.
Qed.

(** The cursors an acknowledgement moves are, for each topic, to the highest
    sequence acknowledged on it, when that is past where the cursor stands. *)
Theorem advance_moves_to_the_highest (current : string → option Z) (acks : list (string * Z)) (t : string) (s : Z) :
  mkCursor t s ∈ advance current acks ↔
  (t, s) ∈ acks ∧ (∀ s', (t, s') ∈ acks → s' ≤ s) ∧ (∀ c, current t = Some c → c < s).
Proof.
  unfold advance. rewrite list_elem_of_fmap. split.
  - intros ([t' s'] & [= -> ->] & Hin). apply elem_of_filter_bool in Hin as [Hin Hc]. simpl in Hc.
    apply elem_of_btree_iter, note_highest_ok in Hin as ([Hin|Hin] & Hmax & _); [|by rewrite lookup_empty in Hin].
    split_and!; [done|done|]. intros c Hcur. rewrite Hcur in Hc. simpl in Hc. lia.
  - intros (Hin & Hmax & Hcur). exists (t, s). split; [done|]. apply elem_of_filter_bool. split.
    + apply elem_of_btree_iter, note_highest_ok. split_and!; [by left|done|]. by intros s' Hs'.
    + simpl. destruct (current t) as [c|]; [|done]. simpl. specialize (Hcur c eq_refl). lia.
Qed.

(** C35: A prune removes at most its batch; after it each topic and project keeps
    the newest of what was not too old and never fewer than the limit allows;
    and when the batch was not used up, nothing too old is left and no topic
    holds more than the limit for any project. *)
Theorem prune_is_bounded_and_fair (l : Log) (cutoff : option instant) (limit batch : nat) (Hwf : log_wf l) :
  let '(l', removed) := prune_topic_messages l cutoff limit batch in
  let fresh := List.filter (λ r, negb (existsb (Z.eqb (row_seq r)) (old_rows (rows l) cutoff batch))) (rows l) in
  rows l' `sublist_of` rows l ∧
  removed = (length (rows l) - length (rows l'))%nat ∧ (removed ≤ batch)%nat ∧
  (∀ g, ∃ k, in_group g (rows l') = drop k (in_group g fresh) ∧ (k ≤ length (in_group g fresh) - limit)%nat) ∧
  ((removed < batch)%nat →
   (∀ g, (length (in_group g (rows l')) ≤ limit)%nat) ∧
   (∀ r c, cutoff = Some c → r ∈ rows l' → c ≤ row_sent_at r)).
Proof.
  destruct Hwf as (Hs & _). unfold prune_topic_messages, delete_topic_messages.
  set (old := old_rows (rows l) cutoff batch). set (fresh := List.filter _ (rows l)).
  destruct (old_rows_sub (rows l) cutoff batch) as (sub & Hsub & Hold). fold old in Hold.
  assert (length fresh = length (rows l) - length old)%nat as Hfresh.
  { unfold fresh. rewrite Hold. by rewrite delete_count, length_fmap. }
  assert (length old ≤ length (rows l))%nat as Hle by (rewrite Hold, length_fmap; by apply sublist_length).
  assert (length old ≤ batch)%nat as Hob by apply old_rows_length.
  destruct (crowded_ok fresh limit) as (Hnd & Hcnt & Hrest).
  destruct (prune_groups _ _ _ _ _) as [rs' n] eqn:E.
  apply prune_groups_ok in E as (Hsub' & -> & Hbud & Hdrop & Hout & Hfull); [|by apply sorted_filter|done..].
  pose proof (sublist_length _ _ Hsub') as Hle'. simpl. split_and!.
  - etrans; [done|apply filter_sublist_bool].
  - lia.
  - lia.
  - done.
  - intros Hlt. split.
    + intros g. destruct (decide (g ∈ (crowded fresh limit).*1)); [apply Hfull; [lia|done]|].
      rewrite Hout by done. by apply Hrest.
    + intros r c Hc Hr. destruct (Z.le_gt_cases c (row_sent_at r)) as [|Hlt']; [done|exfalso].
      assert (r ∈ fresh) as Hrf by (by eapply elem_of_submseteq, sublist_submseteq).
      unfold fresh in Hrf. apply elem_of_filter_bool in Hrf as [Hr1 Hr2].
      apply (proj1 (dropped_true _ _)) in Hr2. apply Hr2. eapply old_rows_all; [exact Hc|done|done|].
      fold old. lia.
Qed.

Definition w_post (id topic : string) (p : option string) (at_ : instant) (l : Log) : Log :=
  (keep_topic_message l (envelope_new id "a" (DTopic topic) "notice" Json.JNull None at_) topic p).1.
Definition w_log : Log :=
  w_post "m5" "ci" None 5 (w_post "m4" "ci" (Some "q") 4 (w_post "m3" "cd" (Some "p") 3
    (w_post "m2" "ci" (Some "p") 2 (w_post "m1" "ci" None 1 log_empty)))).
Definition w_request : ReplayRequest := mkRequest ["#"%string] (Some "p"%string) (Some "a"%string) None 2 2.

Lemma w_log_wf : log_wf w_log.
Proof.
  assert (log_wf log_empty) as H by (split_and!; [constructor|set_solver|done]).
  unfold w_log, w_post. repeat (eapply step_wf; [apply step_keep|]). exact H.
Qed.

Lemma replay_is_the_newest_witness :
  topic_replay_plan w_log w_request = mkPlan [3; 5] 2 2 ∧
  newest_of 2 (candidates w_log w_request (kept_topics w_log)) [3; 5].
Proof.
  split; [vm_compute; reflexivity|].
  apply (replay_is_the_newest w_log w_request w_log_wf); [vm_compute; reflexivity|discriminate|].
  exists 0. vm_compute. reflexivity.
Defined.

Lemma replayed_messages_may_be_read_witness :
  ∃ r from, r ∈ rows w_log ∧ row_seq r = 3 ∧ topic_start w_log w_request (row_topic r) = Some from ∧ from < 3 ∧
    visible (row_project r) (Some "p"%string) = true ∧
    existsb (λ p, topic_matches p (row_topic r)) ["#"%string] = true.
Proof.
  apply (replayed_messages_may_be_read w_log w_request 3 w_log_wf); [vm_compute; reflexivity|].
  vm_compute. left.
Defined.

Lemma cursors_never_move_back_witness :
  ∃ s', cursors (advance_topic_cursors (advance_topic_cursors w_log "a" [mkCursor "ci" 4]) "a" [mkCursor "ci" 2])
          !! ("a", "ci")%string = Some s' ∧ 4 ≤ s'.
Proof.
  apply (cursors_never_move_back (advance_topic_cursors w_log "a" [mkCursor "ci" 4]) _ "a" "ci" 4).
  - eapply step_wf; [apply step_advance|apply w_log_wf].
  - apply rtc_once. exists None. split; [apply step_advance|discriminate].
  - vm_compute. reflexivity.
Defined.

Lemma prune_is_bounded_and_fair_witness :
  prune_topic_messages w_log (Some 2) 1 10 =
    (mkLog (drop 1 (rows w_log)) 6 ∅, 1%nat) ∧
  rows (prune_topic_messages w_log (Some 2) 1 10).1 `sublist_of` rows w_log.
Proof.
  split; [vm_compute; reflexivity|].
  exact (proj1 (prune_is_bounded_and_fair w_log (Some 2) 1 10 w_log_wf)).
Defined.
End TopicProps.
