(* ===== verification/Conversation.v ===== *)
(** * Conversations: what people read

    The model of [crates/core/src/conversation.rs]: which conversation a
    message belongs to, the parties of one, threads, mentions and the names of
    channels. *)

From Stdlib Require Import Ascii.
From S2P Require Import Prelude RustStr Json Message.

Local Open Scope rust_scope.
Local Open Scope string_scope.

Definition DAEMON : string := "agentd".

(** ** Conversation ids *)

Record ConversationId := CId { c_str : string }.

Global Instance ConversationId_eq_dec : EqDecision ConversationId.
Proof. solve_decision. Defined.

Definition everyone (project : string) : ConversationId := CId ("everyone:" ++ project).
Definition all : ConversationId := CId "all".
Definition channel (id : string) : ConversationId := CId ("channel:" ++ id).
Definition dm (a b : string) : ConversationId :=
  let '(first, second) := if str_leb a b then (a, b) else (b, a) in
  CId ("dm:" ++ first ++ ":" ++ second).
Definition notices (agent : string) : ConversationId := CId ("notices:" ++ agent).

Definition conversation_of (e : Envelope) : option ConversationId :=
  match e_to e with
  | DAgent to => Some (if e_from e == DAEMON then notices to else dm (e_from e) to)
  | DProject project => Some (everyone project)
  | DChannel ch => Some (channel ch)
  | DBroadcast => Some all
  | DTopic _ => None
  end.

Inductive ConversationKind := CEveryone | CAll | CChannel | CCollision | CDm | CNotices.

Global Instance ConversationKind_eq_dec : EqDecision ConversationKind.
Proof. solve_decision. Defined.

Definition conversation_kind (c : ConversationId) : option ConversationKind :=
  let head := match split_once ":" (c_str c) with Some (h, _) => h | None => c_str c end in
  if head == "everyone" then Some CEveryone
  else if head == "all" then Some CAll
  else if head == "channel" then Some CChannel
  else if head == "dm" then Some CDm
  else if head == "notices" then Some CNotices
  else None.

Definition channel_id (c : ConversationId) : option string := strip_prefix "channel:" (c_str c).
Definition dm_parties (c : ConversationId) : option (string * string) :=
  match strip_prefix "dm:" (c_str c) with Some rest => split_once ":" rest | None => None end.
Definition notices_agent (c : ConversationId) : option string := strip_prefix "notices:" (c_str c).
Definition everyone_project (c : ConversationId) : option string := strip_prefix "everyone:" (c_str c).

Definition is_party (c : ConversationId) (who : string) : bool :=
  match dm_parties c with
  | Some (a, b) => (a == who) || (b == who)
  | None => is_some_and (λ id, id == who) (notices_agent c)
  end.

(** ** The archive *)

Record ArchivedMessage := mkArchived {
  am_seq : Z;
  am_conversation : ConversationId;
  am_envelope : Envelope;
  am_replies : Z;
}.

Definition threads_under (reply : ArchivedMessage) (root : option ArchivedMessage) : bool :=
  match e_reply_to (am_envelope reply), root with
  | Some id, Some r => (e_id (am_envelope r) == id) && (am_conversation r == am_conversation reply)
  | _, _ => false
  end.

Definition line_of {SJ : SerdeJson} (e : Envelope) : string :=
  match e_payload e with
  | JString text => text
  | payload =>
      match json_get payload "text" with
      | Some v => match as_str v with Some t => t | None => json_to_string payload end
      | None => json_to_string payload
      end
  end.

(** ** Mentions *)

Section Mentions.
Context {U : Unicode}.

Definition name_char (c : string) : bool :=
  is_alphanumeric c || (c == "-") || (c == "_") || (c == ".").
Definition word_char (c : string) : bool := is_alphanumeric c || (c == "_").

(** The characters before the first one that satisfies [f], and from it on. *)
Fixpoint find_char (f : string → bool) (l : list string) : option (list string * list string) :=
  match l with
  | [] => None
  | c :: l' =>
      if f c then Some ([], l)
      else match find_char f l' with Some (b, r) => Some (c :: b, r) | None => None end
  end.

(** [after[..end]] and [after[end..]]. *)
Definition span_name (l : list string) : list string * list string :=
  match find_char (λ c, negb (name_char c)) l with Some br => br | None => (l, []) end.

(** One turn for each [@]: [rest] is what has not been read. *)
Fixpoint mentions_go (turns : nat) (rest : list string) : list string :=
  match turns with
  | O => []
  | S turns' =>
      match find_char (λ c, c == "@") rest with
      | None => []
      | Some (before, at_after) =>
          let after := tail at_after in
          let '(name, rest') := span_name after in
          let name := trim_end_char "." (join "" name) in
          let found := is_none_or (λ c, negb (word_char c)) (last before) && (name != "") in
          let more := if (length rest' =? 0)%nat then [] else mentions_go turns' rest' in
          if found then name :: more else more
      end
  end.

Definition mentions_in (text : string) : list string :=
  mentions_go (length (chars text)) (chars text).

Definition mentions_any (text : string) (names : list string) : bool :=
  existsb (λ found, existsb (λ name, to_lowercase name == to_lowercase found) names) (mentions_in text).
End Mentions.

(** ** Channel names *)

Definition channel_name_byte (b : ascii) : bool :=
  is_ascii_lowercase b || is_ascii_digit b || Ascii.eqb b "-".

Definition valid_channel_name (name : string) : bool :=
  (name != "") && (byte_len name <=? 40)%Z && negb (starts_with name "-") && negb (ends_with_char "-" name)
  && sforall channel_name_byte name.

(** [task.split(|c| !c.is_ascii_alphanumeric()).filter(|w| !w.is_empty())]; a
    character outside ASCII is a separator, and so is each of its bytes. *)
Fixpoint alnum_words (cur : string) (s : string) : list string :=
  match s with
  | "" => if cur == "" then [] else [cur]
  | String a s' =>
      if is_ascii_alphanumeric a then alnum_words (cur ++ String a "") s'
      else app (if cur == "" then [] else [cur]) (alnum_words "" s')
  end.

Fixpoint name_loop (name : string) (ws : list string) : string :=
  match ws with
  | [] => name
  | w :: ws' =>
      let word := to_ascii_lowercase w in
      if (40 <? byte_len name + byte_len word + (if name == "" then 0 else 1))%Z then name
      else name_loop ((if name == "" then "" else name ++ "-") ++ word) ws'
  end.

Definition channel_name_from (task : string) : option string :=
  let name := name_loop "" (alnum_words "" task) in
  if valid_channel_name name then Some name else None.

Module ConversationFacts.

Lemma strip_prefix_app p r : strip_prefix p (p ++ r) = Some r.
Proof. by apply strip_prefix_Some. Qed.

Lemma dm_comm a b : dm a b = dm b a.
Proof.
  unfold dm. destruct (str_leb a b) eqn:Ea, (str_leb b a) eqn:Eb; try done.
  - by rewrite (str_leb_antisym a b).
  - destruct (str_leb_total a b); congruence.
Qed.

Lemma dm_parties_dm a b :
  contains_char ":" a = false → contains_char ":" b = false →
  dm_parties (dm a b) = Some (a, b) ∨ dm_parties (dm a b) = Some (b, a).
Proof.
  intros Ha Hb. unfold dm, dm_parties. destruct (str_leb a b); cbn [c_str];
    rewrite strip_prefix_app.
  - left. rewrite (append_cons ":" "" b), append_nil_l. by apply split_once_app.
  - right. rewrite (append_cons ":" "" a), append_nil_l. by apply split_once_app.
Qed.

(** The place a message is said in, by its destination. *)
Inductive place := PEveryone (project : string) | PAll | PChannel (id : string) | PDm (a b : string) | PNotices (agent : string).

Definition place_of (e : Envelope) : option place :=
  match e_to e with
  | DAgent to => Some (if e_from e == DAEMON then PNotices to else PDm (e_from e) to)
  | DProject p => Some (PEveryone p)
  | DChannel ch => Some (PChannel ch)
  | DBroadcast => Some PAll
  | DTopic _ => None
  end.

(** Two direct places are one when their pairs are. *)
Definition same_place (x y : place) : Prop :=
  match x, y with
  | PDm a b, PDm c d => (a = c ∧ b = d) ∨ (a = d ∧ b = c)
  | _, _ => x = y
  end.

Definition plain_ids (x : place) : Prop :=
  match x with PDm a b => contains_char ":" a = false ∧ contains_char ":" b = false | _ => True end.

Definition place_id (x : place) : ConversationId :=
  match x with
  | PEveryone p => everyone p | PAll => all | PChannel ch => channel ch
  | PDm a b => dm a b | PNotices a => notices a
  end.

Definition place_kind (x : place) : ConversationKind :=
  match x with
  | PEveryone _ => CEveryone | PAll => CAll | PChannel _ => CChannel
  | PDm _ _ => CDm | PNotices _ => CNotices
  end.

Lemma conversation_of_place e : conversation_of e = place_id <$> place_of e.
Proof. unfold conversation_of, place_of. destruct (e_to e); try done. simpl. by destruct (_ == _). Qed.

Lemma place_kind_ok x : conversation_kind (place_id x) = Some (place_kind x).
Proof.
  unfold conversation_kind.
  destruct x as [p| |ch|a b|ag]; simpl; try done.
  unfold dm. destruct (str_leb a b); done.
Qed.

Lemma append_inj_l p s t : (p ++ s)%string = (p ++ t)%string → s = t.
Proof.
  induction p as [|a p IH]; [by rewrite !append_nil_l|]. rewrite !append_cons. intros [= H]. by apply IH.
Qed.

Lemma place_id_inj x y : plain_ids x → plain_ids y → place_id x = place_id y → same_place x y.
Proof.
  intros Hx Hy Heq. assert (place_kind x = place_kind y) as Hk.
  { apply (inj Some). by rewrite <-!place_kind_ok, Heq. }
  destruct x as [p| |ch|a b|ag], y as [p'| |ch'|a' b'|ag']; try done; simpl in *.
  - f_equal. apply (append_inj_l "everyone:"). exact (f_equal c_str Heq).
  - f_equal. apply (append_inj_l "channel:"). exact (f_equal c_str Heq).
  - destruct Hx as [Ha Hb], Hy as [Ha' Hb'].
    destruct (dm_parties_dm a b Ha Hb) as [E|E], (dm_parties_dm a' b' Ha' Hb') as [E'|E'];
      rewrite Heq, E' in E; naive_solver.
  - f_equal. apply (append_inj_l "notices:"). exact (f_equal c_str Heq).
Qed.

(** ** Names *)

Lemma ends_with_char_app c s t : t ≠ "" → ends_with_char c (s ++ t) = ends_with_char c t.
Proof.
  intros Ht. induction s as [|a s IH]; [done|]. rewrite append_cons. simpl.
  destruct (s ++ t)%string eqn:E; [|done]. destruct s; [by rewrite append_nil_l in E|done].
Qed.

Definition alnum_lower (a : ascii) : bool := is_ascii_lowercase a || is_ascii_digit a.

Lemma alnum_lowered w :
  sforall is_ascii_alphanumeric w = true → sforall alnum_lower (to_ascii_lowercase w) = true.
Proof.
  unfold to_ascii_lowercase. induction w as [|a w IH]; simpl; [done|]. intros [Ha Hw]%andb_true_iff. rewrite IH by done.
  rewrite andb_true_r. revert Ha. clear. by destruct a as [[] [] [] [] [] [] [] []]; vm_compute.
Qed.

Lemma ends_with_dash_alnum w : w ≠ "" → sforall alnum_lower w = true → ends_with_char "-" w = false.
Proof.
  induction w as [|a w IH]; [done|]. intros _. simpl. intros [Ha Hw]%andb_true_iff.
  destruct w as [|b w]; [|by apply IH]. revert Ha. clear.
  by destruct a as [[] [] [] [] [] [] [] []]; vm_compute.
Qed.

Lemma starts_with_dash s : s ≠ "" → starts_with s "-" = is_some_and (Ascii.eqb "-") (byte_at 0 s).
Proof. destruct s as [|a s]; [done|]. intros _. unfold starts_with, byte_at. simpl. by destruct a as [[] [] [] [] [] [] [] []]. Qed.

Lemma length_smap f s : String.length (smap f s) = String.length s.
Proof. induction s as [|a s IH]; simpl; [done|]. by rewrite IH. Qed.

(** The words of a task: letters and digits, none empty. *)
Lemma alnum_words_ok cur s :
  sforall is_ascii_alphanumeric cur = true →
  Forall (λ w, w ≠ "" ∧ sforall is_ascii_alphanumeric w = true) (alnum_words cur s).
Proof.
  revert cur. induction s as [|a s IH]; intros cur Hc; simpl.
  { destruct (cur == "") eqn:E; split_and_bool; by repeat constructor. }
  destruct (is_ascii_alphanumeric a) eqn:Ea.
  - apply IH. rewrite sforall_app, Hc. simpl. by rewrite Ea.
  - apply Forall_app. split; [|by apply IH]. destruct (cur == "") eqn:E; split_and_bool; by repeat constructor.
Qed.

Lemma lowered_nonempty w : w ≠ "" → to_ascii_lowercase w ≠ "".
Proof. by destruct w. Qed.

(** Once there is a word, every name the loop builds is valid. *)
Lemma name_loop_valid name ws :
  valid_channel_name name = true →
  Forall (λ w, w ≠ "" ∧ sforall is_ascii_alphanumeric w = true) ws →
  valid_channel_name (name_loop name ws) = true.
Proof.
  intros Hv Hws. revert name Hv. induction Hws as [|w ws [Hne Hw] Hws IH]; intros name Hv; cbn [name_loop]; [done|].
  destruct (40 <? _)%Z eqn:E; [done|]. apply Z.ltb_ge in E. apply IH.
  pose proof (alnum_lowered w Hw) as Hl. pose proof (lowered_nonempty w Hne) as Hln.
  revert Hv. unfold valid_channel_name. intros Hv. split_and_bool.
  rewrite (proj2 (eqb_false _ _) H) in *.
  set (word := to_ascii_lowercase w) in *. rewrite !append_assoc.
  assert ((name ++ "-" ++ word)%string ≠ "") as Hnn by (by destruct name).
  rewrite (proj2 (eqb_false _ _) Hnn). simpl. rewrite !andb_true_iff. split_and!.
  - apply Z.leb_le. unfold byte_len in *. rewrite !length_append. simpl. lia.
  - rewrite starts_with_dash in * by done. destruct name; [done|]. by apply negb_true_iff.
  - rewrite !ends_with_char_app by done. apply negb_true_iff. by apply ends_with_dash_alnum.
  - rewrite !sforall_app. rewrite H0. simpl. eapply sforall_impl; [|exact Hl].
    intros a Ha. unfold channel_name_byte. by apply orb_true_iff; left.
Qed.

Lemma first_word_valid w :
  w ≠ "" → sforall is_ascii_alphanumeric w = true → (byte_len w ≤ 40)%Z →
  valid_channel_name (to_ascii_lowercase w) = true.
Proof.
  intros Hne Hw Hlen. pose proof (alnum_lowered w Hw) as Hl. pose proof (lowered_nonempty w Hne) as Hln.
  unfold valid_channel_name. rewrite (proj2 (eqb_false _ _) Hln). simpl. rewrite !andb_true_iff. split_and!.
  - unfold byte_len, to_ascii_lowercase in *. rewrite length_smap. by apply Z.leb_le.
  - rewrite starts_with_dash by done. destruct w as [|a w]; [done|]. simpl in *.
    apply andb_true_iff in Hl as [Ha _]. revert Ha. generalize (to_ascii_lowercase_byte a). intros b. clear.
    by destruct b as [[] [] [] [] [] [] [] []]; vm_compute.
  - apply negb_true_iff. by apply ends_with_dash_alnum.
  - eapply sforall_impl; [|exact Hl]. intros a Ha. unfold channel_name_byte. by apply orb_true_iff; left.
Qed.

(** ** Mentions *)

Lemma find_char_length f l b r : find_char f l = Some (b, r) → (length r ≤ length l ∧ r ≠ [])%nat.
Proof.
  revert b. induction l as [|c l IH]; intros b; simpl; [done|]. destruct (f c).
  - intros [= <- <-]. split; [simpl; lia|done].
  - destruct (find_char f l) as [[b' r']|]; [|done]. intros [= <- <-].
    destruct (IH _ eq_refl). split; [lia|done].
Qed.

Section Mentions.
Context {U : Unicode}.

Lemma span_name_length l n r : span_name l = (n, r) → (length r ≤ length l)%nat.
Proof.
  unfold span_name. destruct (find_char _ l) as [[b r']|] eqn:E.
  - intros [= <- <-]. by apply find_char_length in E as [? _].
  - intros [= <- <-]. simpl. lia.
Qed.

(** More turns than characters change nothing. *)
Lemma mentions_go_turns n m l :
  (length l ≤ n)%nat → (length l ≤ m)%nat → mentions_go n l = mentions_go m l.
Proof.
  revert m l. induction n as [|n IH]; intros m l Hn Hm.
  - destruct l; [|simpl in Hn; lia]. by destruct m.
  - destruct m as [|m]; [destruct l; [done|simpl in Hm; lia]|]. cbn [mentions_go].
    destruct (find_char _ l) as [[b r]|] eqn:E; [|done]. apply find_char_length in E as [Hr Hne].
    destruct (span_name (tail r)) as [name rest] eqn:Es. apply span_name_length in Es.
    destruct r as [|c r]; [done|]. simpl in *. destruct (length rest =? 0)%nat; [done|].
    by rewrite (IH m rest) by lia.
Qed.
End Mentions.
End ConversationFacts.

Module ConversationProps.
Import ConversationFacts.

(** A message belongs to the conversation of its place and to no other: its
    kind is that of the destination, and two messages share a conversation
    only when they were said in the same place, a pair of parties being the
    same place in either order. Ids hold no colon, as the daemon makes them. *)
Theorem conversations_are_places (e e' : Envelope) (x x' : place) (c c' : ConversationId)
    (Hp : place_of e = Some x) (Hp' : place_of e' = Some x')
    (Hids : plain_ids x) (Hids' : plain_ids x')
    (Hc : conversation_of e = Some c) (Hc' : conversation_of e' = Some c') :
  conversation_kind c = Some (place_kind x) ∧ (c = c' ↔ same_place x x').
Proof.
  rewrite conversation_of_place, Hp in Hc. rewrite conversation_of_place, Hp' in Hc'. simplify_eq/=.
  split; [apply place_kind_ok|]. split; [by apply place_id_inj|].
  destruct x, x'; simpl; intros H; try by simplify_eq.
  destruct H as [[-> ->]|[-> ->]]; [done|apply dm_comm].
Qed.

(** The parties of a direct conversation are the two it was made for. *)
Theorem direct_parties_exact (a b who : string)
    (Ha : contains_char ":" a = false) (Hb : contains_char ":" b = false) :
  is_party (dm a b) who = true ↔ who = a ∨ who = b.
Proof.
  unfold is_party. destruct (dm_parties_dm a b Ha Hb) as [->| ->];
    rewrite orb_true_iff, !eqb_true; naive_solver.
Qed.

(** A task gives a channel name exactly when its first word of letters and
    digits fits, and what it gives is a valid name. *)
Theorem channel_name_from_first_word (task : string) :
  (∀ n, channel_name_from task = Some n → valid_channel_name n = true) ∧
  (is_Some (channel_name_from task) ↔
   ∃ w ws, alnum_words "" task = w :: ws ∧ (byte_len w ≤ 40)%Z).
Proof.
  unfold channel_name_from. split.
  { intros n. destruct (valid_channel_name _) eqn:E; [|done]. by intros [= <-]. }
  pose proof (alnum_words_ok "" task eq_refl) as Hws.
  destruct (alnum_words "" task) as [|w ws] eqn:E.
  - simpl. split; [by intros [? ?]|by intros (? & ? & ? & _)].
  - apply Forall_cons in Hws as [[Hne Hw] Hws]. cbn [name_loop]. rewrite eqb_refl, append_nil_l.
    assert (byte_len (to_ascii_lowercase w) = byte_len w) as Hl.
    { unfold byte_len, to_ascii_lowercase. by rewrite length_smap. }
    rewrite Hl. change (byte_len "") with 0%Z. destruct (40 <? _)%Z eqn:E2.
    + apply Z.ltb_lt in E2. simpl. split; [by intros [? ?]|]. intros (w' & ws' & [= <- <-] & ?). lia.
    + apply Z.ltb_ge in E2. rewrite name_loop_valid; [|apply first_word_valid; [done|done|lia]|done].
      split; [|by eexists]. intros _. exists w, ws. split; [done|lia].
Qed.

(** Reading the mentions of a text ends within one turn for each character:
    more turns find nothing else. *)
Theorem mentions_found_in_time {U : Unicode} (text : string) (turns : nat)
    (Ht : (length (chars text) ≤ turns)%nat) :
  mentions_go turns (chars text) = mentions_in text.
Proof. unfold mentions_in. by apply mentions_go_turns. Qed.

Definition w_say (from to : string) : Envelope :=
  envelope_new "m" from (DAgent to) "chat" JNull None 0.

Lemma conversations_are_places_witness :
  conversation_of (w_say "b" "a") = conversation_of (w_say "a" "b") ∧
  conversation_kind (dm "b" "a") = Some CDm ∧ (dm "b" "a" = dm "a" "b" ↔ same_place (PDm "b" "a") (PDm "a" "b")).
Proof.
  split; [vm_compute; reflexivity|].
  apply (conversations_are_places (w_say "b" "a") (w_say "a" "b") (PDm "b" "a") (PDm "a" "b"));
    try (vm_compute; reflexivity); split; vm_compute; reflexivity.
Defined.
End ConversationProps.
