(* ===== verification/Channel.v ===== *)
(** * Channels and their reviews

    The model of [crates/core/src/channel.rs]: who is in a channel, the paths
    it is about, and how its reviews settle whose work lands. *)

From Stdlib Require Import Ascii.
From stdpp Require Import pretty.
From S2P Require Import Prelude RustStr Order Path Agent.

Local Open Scope rust_scope.
Local Open Scope string_scope.

Definition TITLE_PATHS : nat := 3.

Inductive ChannelSubject :=
| Contested (paths : list string)
| TaskSubject (task : string).

(** [p.display()] of a path is its text. *)
Definition subject_title (s : ChannelSubject) : string :=
  match s with
  | TaskSubject task => task
  | Contested [] => "contested work"
  | Contested paths =>
      let named := take TITLE_PATHS paths in
      let more := (length paths - length named)%nat in
      if (0 <? more)%nat then join ", " named ++ " (+" ++ pretty (N.of_nat more) ++ " more)"
      else join ", " named
  end.

Inductive Verdict := Approve | Changes | Comment.

Global Instance Verdict_eq_dec : EqDecision Verdict.
Proof. solve_decision. Defined.

Definition verdict_parse (s : string) : option Verdict :=
  if (s == "approve") || (s == "approved") then Some Approve
  else if s == "changes" then Some Changes
  else if s == "comment" then Some Comment
  else None.
Definition verdict_display (v : Verdict) : string :=
  match v with Approve => "approve" | Changes => "changes" | Comment => "comment" end.

Record Review := mkReview {
  rv_by : string;
  rv_by_name : string;
  rv_of : string;
  rv_of_name : string;
  rv_verdict : Verdict;
  rv_note : string;
  rv_at : instant;
  rv_head : option string;
}.

Global Instance Review_eq_dec : EqDecision Review.
Proof. solve_decision. Defined.

Definition review_author (r : Review) : string :=
  if rv_of_name r == "" then short (rv_of r) else rv_of_name r.

Definition quote : string := String "034" "".

Definition review_summary (r : Review) : string :=
  (match rv_verdict r with
   | Approve => "approved" | Changes => "asked changes of" | Comment => "commented on"
   end)
  ++ " work by " ++ review_author r ++ ": " ++ quote ++ rv_note r ++ quote.

Definition review_line (r : Review) : string := rv_by_name r ++ " " ++ review_summary r.

Inductive ReviewDecision :=
| Approved (approvals : nat)
| Blocked (by_ : list string)
| Pending (approvals needed : nat).

Definition is_approved (d : ReviewDecision) : bool := match d with Approved _ => true | _ => false end.

Record Channel := mkChannel {
  ch_id : string;
  ch_project : string;
  ch_name : option string;
  ch_subject : ChannelSubject;
  ch_members : list string;
  ch_opened_by : option string;
  ch_opened_at : instant;
  ch_reviews : list Review;
  ch_closed_at : option instant;
  ch_resolution : option string;
  ch_role : option string;
}.

Definition with_members (c : Channel) (ms : list string) : Channel :=
  mkChannel (ch_id c) (ch_project c) (ch_name c) (ch_subject c) ms (ch_opened_by c) (ch_opened_at c)
    (ch_reviews c) (ch_closed_at c) (ch_resolution c) (ch_role c).
Definition with_subject (c : Channel) (s : ChannelSubject) : Channel :=
  mkChannel (ch_id c) (ch_project c) (ch_name c) s (ch_members c) (ch_opened_by c) (ch_opened_at c)
    (ch_reviews c) (ch_closed_at c) (ch_resolution c) (ch_role c).

Definition is_role_room (c : Channel) : bool := is_some (ch_role c).
Definition is_open (c : Channel) : bool := is_none (ch_closed_at c).
Definition channel_title (c : Channel) : string := subject_title (ch_subject c).
Definition has (c : Channel) (agent : string) : bool := existsb (λ m, m == agent) (ch_members c).

Definition channel_admit (c : Channel) (agent : string) : Channel * bool :=
  if has c agent then (c, false) else (with_members c (app (ch_members c) [agent]), true).

Definition dismiss (c : Channel) (agent : string) : Channel * bool :=
  let ms := List.filter (λ m, m != agent) (ch_members c) in
  (with_members c ms, negb (length ms =? length (ch_members c))%nat).

Definition paths (c : Channel) : list string :=
  match ch_subject c with Contested ps => ps | TaskSubject _ => [] end.

Definition add_path (c : Channel) (path : string) : Channel * bool :=
  match ch_subject c with
  | Contested ps =>
      if existsb (path_eqb path) ps then (c, false)
      else (with_subject c (Contested (sort_by path_leb (app ps [path]))), true)
  | TaskSubject _ => (c, false)
  end.

(** ** How reviews add up *)

(** The reviews of an author's work by others. *)
Definition reviews_of (rs : list Review) (author : string) : list Review :=
  List.filter (λ r, (rv_of r == author) && (rv_by r != author)) rs.

(** [latest.iter_mut().find(|kept| kept.by == review.by)], replaced in place
    by a review that is not older. *)
Fixpoint note_review (latest : list Review) (r : Review) : list Review :=
  match latest with
  | [] => [r]
  | k :: rest =>
      if rv_by k == rv_by r then (if (rv_at k <=? rv_at r)%Z then r else k) :: rest
      else k :: note_review rest r
  end.

Definition latest_on (c : Channel) (author : string) : list Review :=
  foldl note_review [] (reviews_of (ch_reviews c) author).

Definition decision (c : Channel) (author : string) (required : nat) : ReviewDecision :=
  let latest := latest_on c author in
  let blocked := rv_by <$> List.filter (λ r, rv_verdict r == Changes) latest in
  if negb (length blocked =? 0)%nat then Blocked blocked
  else
    let approvals := length (List.filter (λ r, rv_verdict r == Approve) latest) in
    if (Nat.max required 1 <=? approvals)%nat then Approved approvals
    else Pending approvals (Nat.max required 1).

Definition others (c : Channel) (agent : string) : list string :=
  List.filter (λ m, m != agent) (ch_members c).

Module ChannelFacts.

Definition word_step (b : string) (acc : option Review) (r : Review) : option Review :=
  if rv_by r == b then
    match acc with
    | Some k => Some (if (rv_at k <=? rv_at r)%Z then r else k)
    | None => Some r
    end
  else acc.

(** A reviewer's word on an author's work: the latest they said, the later of
    two said at once. *)
Definition word_of (rs : list Review) (author b : string) : option Review :=
  foldl (word_step b) None (reviews_of rs author).

Abbreviation by_is b := (λ k, rv_by k == b) (only parsing).

Lemma find_note_review b latest r :
  List.find (by_is b) (note_review latest r) = word_step b (List.find (by_is b) latest) r.
Proof.
  unfold word_step. induction latest as [|k rest IH]; cbn [note_review List.find]; [done|].
  destruct (rv_by k == rv_by r) eqn:E; cbn [List.find].
  - apply (proj1 (eqb_true _ _)) in E. destruct (rv_by r == b) eqn:Eb.
    + rewrite E, Eb. destruct (_ <=? _)%Z; [by rewrite Eb|by rewrite E, Eb].
    + rewrite E, Eb. destruct (_ <=? _)%Z; [by rewrite Eb|by rewrite E, Eb].
  - destruct (rv_by k == b) eqn:Ek; [|by rewrite IH].
    apply (proj1 (eqb_true _ _)) in Ek as <-. by rewrite eqb_sym, E.
Qed.

Lemma bys_note_review latest r b :
  b ∈ rv_by <$> note_review latest r → b = rv_by r ∨ b ∈ rv_by <$> latest.
Proof.
  induction latest as [|k rest IH]; csimpl; [set_solver|].
  destruct (rv_by k == rv_by r) eqn:E; csimpl; [|set_solver].
  split_and_bool. destruct (_ <=? _)%Z; set_solver.
Qed.

Lemma NoDup_note_review latest r : NoDup (rv_by <$> latest) → NoDup (rv_by <$> note_review latest r).
Proof.
  induction latest as [|k rest IH]; csimpl; [intros _; apply NoDup_singleton|].
  rewrite NoDup_cons. intros [Hk Hnd]. destruct (rv_by k == rv_by r) eqn:E; csimpl; apply NoDup_cons.
  - split_and_bool. destruct (_ <=? _)%Z; [by rewrite <-E|done].
  - split; [|by apply IH]. intros [Hb|Hb]%bys_note_review; [|done]. split_and_bool. congruence.
Qed.

Lemma latest_fold rs latest b :
  NoDup (rv_by <$> latest) →
  NoDup (rv_by <$> foldl note_review latest rs) ∧
  List.find (by_is b) (foldl note_review latest rs) = foldl (word_step b) (List.find (by_is b) latest) rs.
Proof.
  revert latest. induction rs as [|r rs IH]; intros latest Hnd; simpl; [done|].
  destruct (IH (note_review latest r)) as [H1 H2]; [by apply NoDup_note_review|].
  by rewrite H2, find_note_review.
Qed.

(** The list the decision counts holds each reviewer's word, once. *)
Lemma elem_of_latest_on c author r :
  r ∈ latest_on c author ↔ word_of (ch_reviews c) author (rv_by r) = Some r.
Proof.
  unfold latest_on, word_of.
  destruct (latest_fold (reviews_of (ch_reviews c) author) [] (rv_by r)) as [Hnd Hf]; [constructor|].
  simpl in Hf. rewrite <-Hf. clear Hf. induction (foldl _ _ _) as [|k rest IH]; simpl; [set_solver|].
  csimpl in Hnd. apply NoDup_cons in Hnd as [Hk Hnd]. rewrite elem_of_cons.
  destruct (rv_by k == rv_by r) eqn:E; split_and_bool.
  - split; [|by intros [= ->]; left]. intros [->|Hin]; [done|]. destruct Hk. rewrite E. by apply list_elem_of_fmap_2.
  - rewrite <-IH by done. split; [by intros [->|?]|by right].
Qed.

Lemma NoDup_latest_on c author : NoDup (rv_by <$> latest_on c author).
Proof. by apply (latest_fold _ [] ""); constructor. Qed.

Lemma word_fold_latest b rs acc r :
  foldl (word_step b) acc rs = Some r →
  (acc = Some r ∨ (r ∈ rs ∧ rv_by r = b)) ∧
  (∀ k, acc = Some k → rv_at k ≤ rv_at r)%Z ∧
  (∀ k, k ∈ rs → rv_by k = b → rv_at k ≤ rv_at r)%Z.
Proof.
  revert acc. induction rs as [|x rs IH]; intros acc; simpl.
  { intros ->. split_and!; [by left|by intros k [= ->]|set_solver]. }
  intros (H1 & H2 & H3)%IH. unfold word_step in *. destruct (rv_by x == b) eqn:E; split_and_bool.
  - destruct acc as [k|].
    + destruct (rv_at k <=? rv_at x)%Z eqn:El; [apply Z.leb_le in El|apply Z.leb_gt in El];
        specialize (H2 _ eq_refl); split_and!.
      * destruct H1 as [[= ->]|[? ?]]; [right; split; [left|done]|right; split; [by right|done]].
      * intros k' [= <-]. lia.
      * intros k' [->|Hin]%elem_of_cons Hb; [done|auto].
      * destruct H1 as [[= ->]|[? ?]]; [by left|right; split; [by right|done]].
      * intros k' [= <-]. lia.
      * intros k' [->|Hin]%elem_of_cons Hb; [lia|auto].
    + specialize (H2 _ eq_refl). split_and!; [|done|].
      * destruct H1 as [[= ->]|[? ?]]; right; (split; [|done]); [left|by right].
      * intros k' [->|Hin]%elem_of_cons Hb; [done|auto].
  - split_and!; [|done|].
    + destruct H1 as [?|[? ?]]; [by left|right; split; [by right|done]].
    + intros k' [->|Hin]%elem_of_cons Hb; [done|auto].
Qed.

Lemma elem_of_reviews_of rs author r :
  r ∈ reviews_of rs author ↔ r ∈ rs ∧ rv_of r = author ∧ rv_by r ≠ author.
Proof.
  unfold reviews_of. rewrite !list_elem_of_In, filter_In, andb_true_iff, negb_true_iff, eqb_true, eqb_false. done.
Qed.

Lemma filter_bys_NoDup (f : Review → bool) l : NoDup (rv_by <$> l) → NoDup (rv_by <$> List.filter f l).
Proof.
  induction l as [|x l IH]; csimpl; [done|]. rewrite NoDup_cons. intros [Hx Hnd].
  destruct (f x); csimpl; [|by apply IH]. apply NoDup_cons. split; [|by apply IH].
  intros (y & Hy & Hin)%list_elem_of_fmap. apply Hx. rewrite Hy. apply list_elem_of_fmap_2.
  apply list_elem_of_In in Hin. apply filter_In in Hin as [? _]. by apply list_elem_of_In.
Qed.

Lemma elem_of_verdicts c author v b :
  b ∈ rv_by <$> List.filter (λ r, rv_verdict r == v) (latest_on c author) ↔
  ∃ r, word_of (ch_reviews c) author b = Some r ∧ rv_verdict r = v.
Proof.
  rewrite list_elem_of_fmap. split.
  - intros (r & -> & Hin). apply list_elem_of_In, filter_In in Hin as [Hin Hv]. split_and_bool.
    exists r. split; [|done]. apply elem_of_latest_on. by apply list_elem_of_In.
  - intros (r & Hw & Hv).
    assert (rv_by r = b) as Hb.
    { unfold word_of in Hw. apply word_fold_latest in Hw as ([?|[_ ?]] & _); done. }
    exists r. split; [done|]. apply list_elem_of_In, filter_In. split; [|by rewrite Hv, eqb_refl].
    apply list_elem_of_In, elem_of_latest_on. by rewrite Hb.
Qed.
End ChannelFacts.

Module ChannelProps.
Import ChannelFacts.

(** A reviewer's word is one they gave on this author's work, about somebody
    else's work and not their own, and no later one of theirs is left out. *)
Theorem word_is_the_latest (rs : list Review) (author b : string) (r : Review)
    (Hw : word_of rs author b = Some r) :
  r ∈ rs ∧ rv_of r = author ∧ rv_by r = b ∧ b ≠ author ∧
  ∀ k, k ∈ rs → rv_of k = author → rv_by k = b → (rv_at k ≤ rv_at r)%Z.
Proof.
  unfold word_of in Hw. apply word_fold_latest in Hw as ([?|[Hin Hb]] & _ & Hmax); [done|].
  apply elem_of_reviews_of in Hin as (Hr & Hof & Hne). split_and!; try done; [congruence|].
  intros k Hk Hko Hkb. apply Hmax; [|done]. apply elem_of_reviews_of. split_and!; [done|done|congruence].
Qed.

(** Whose work lands: it is approved by [n] exactly when no reviewer's word
    asks for changes, [n] reviewers' words approve, and that is enough; it is
    blocked, by exactly those who ask for changes, when anyone does. *)
Theorem decision_counts_latest_words (c : Channel) (author : string) (required : nat) :
  match decision c author required with
  | Approved n =>
      (∀ b r, word_of (ch_reviews c) author b = Some r → rv_verdict r ≠ Changes) ∧
      (Nat.max required 1 ≤ n)%nat ∧
      ∃ bs, NoDup bs ∧ length bs = n ∧
        ∀ b, b ∈ bs ↔ ∃ r, word_of (ch_reviews c) author b = Some r ∧ rv_verdict r = Approve
  | Blocked bs =>
      NoDup bs ∧ bs ≠ [] ∧
      ∀ b, b ∈ bs ↔ ∃ r, word_of (ch_reviews c) author b = Some r ∧ rv_verdict r = Changes
  | Pending n needed =>
      (∀ b r, word_of (ch_reviews c) author b = Some r → rv_verdict r ≠ Changes) ∧
      needed = Nat.max required 1 ∧ (n < needed)%nat ∧
      ∃ bs, NoDup bs ∧ length bs = n ∧
        ∀ b, b ∈ bs ↔ ∃ r, word_of (ch_reviews c) author b = Some r ∧ rv_verdict r = Approve
  end.
Proof.
  unfold decision.
  set (bs := rv_by <$> List.filter (λ r, rv_verdict r == Changes) (latest_on c author)).
  assert (∀ b, b ∈ bs ↔ ∃ r, word_of (ch_reviews c) author b = Some r ∧ rv_verdict r = Changes) as Hbs
    by (intros b; apply elem_of_verdicts).
  assert (NoDup bs) as Hnd by apply filter_bys_NoDup, NoDup_latest_on.
  destruct (length bs =? 0)%nat eqn:E; simpl.
  2: { split_and!; [done| |done]. intros H. by rewrite H in E. }
  apply Nat.eqb_eq, length_zero_iff_nil in E.
  assert (∀ b r, word_of (ch_reviews c) author b = Some r → rv_verdict r ≠ Changes) as Hno.
  { intros b r Hr Hv. assert (b ∈ bs) as Hin by (apply Hbs; eauto). rewrite E in Hin. by apply not_elem_of_nil in Hin. }
  assert (∃ as_, NoDup as_ ∧ length as_ = length (List.filter (λ r, rv_verdict r == Approve) (latest_on c author)) ∧
     ∀ b, b ∈ as_ ↔ ∃ r, word_of (ch_reviews c) author b = Some r ∧ rv_verdict r = Approve) as Has.
  { exists (rv_by <$> List.filter (λ r, rv_verdict r == Approve) (latest_on c author)).
    split_and!; [apply filter_bys_NoDup, NoDup_latest_on|by rewrite length_fmap|intros b; apply elem_of_verdicts]. }
  destruct (_ <=? _)%nat eqn:El; [apply Nat.leb_le in El|apply Nat.leb_gt in El]; split_and!; done.
Qed.

(** Admitting and dismissing keep every member once, and change who is in by
    exactly that agent. *)
Theorem membership_exact (c : Channel) (agent : string) (Hnd : NoDup (ch_members c)) :
  NoDup (ch_members (channel_admit c agent).1) ∧ NoDup (ch_members (dismiss c agent).1) ∧
  (∀ m, m ∈ ch_members (channel_admit c agent).1 ↔ m = agent ∨ m ∈ ch_members c) ∧
  (∀ m, m ∈ ch_members (dismiss c agent).1 ↔ m ≠ agent ∧ m ∈ ch_members c) ∧
  ((channel_admit c agent).2 = true ↔ agent ∉ ch_members c) ∧
  ((dismiss c agent).2 = true ↔ agent ∈ ch_members c).
Proof.
  assert (has c agent = true ↔ agent ∈ ch_members c) as Hhas.
  { unfold has. rewrite existsb_exists. setoid_rewrite <-list_elem_of_In. setoid_rewrite eqb_true. naive_solver. }
  assert (∀ m, m ∈ List.filter (λ m, m != agent) (ch_members c) ↔ m ≠ agent ∧ m ∈ ch_members c) as Hf.
  { intros m. rewrite !list_elem_of_In, filter_In, negb_true_iff, eqb_false. naive_solver. }
  unfold channel_admit, dismiss. split_and!; simpl.
  - destruct (has c agent) eqn:E; [done|]. simpl. apply NoDup_app. split_and!; [done| |apply NoDup_singleton].
    intros m Hm ->%list_elem_of_singleton. apply Hhas in Hm. congruence.
  - by apply NoDup_ListNoDup, List.NoDup_filter, NoDup_ListNoDup.
  - intros m. destruct (has c agent) eqn:E; simpl.
    + assert (agent ∈ ch_members c) by (by apply Hhas). set_solver.
    + set_solver.
  - done.
  - destruct (has c agent) eqn:E; simpl; [|naive_solver]. split; [done|]. intros H. destruct H. by apply Hhas.
  - rewrite negb_true_iff, Nat.eqb_neq. clear Hhas Hf. split.
    + intros Hl. destruct (decide (agent ∈ ch_members c)) as [|Hn]; [done|]. destruct Hl. f_equal.
      induction (ch_members c) as [|m ms IH]; simpl; [done|]. apply not_elem_of_cons in Hn as [Hne Hn].
      rewrite (proj2 (eqb_false m agent)) by done. simpl. f_equal. apply IH; [by apply NoDup_cons in Hnd as [_ ?]|done].
    + intros Hin Heq. assert (List.filter (λ m, m != agent) (ch_members c) = ch_members c) as He.
      { apply (filter_length_forallb _ (ch_members c)) in Heq. by apply forallb_filter_id. }
      rewrite <-He in Hin. apply list_elem_of_In, filter_In in Hin as [_ Hb]. by rewrite eqb_refl in Hb.
Qed.

Definition w_review (by_ of_ : string) (v : Verdict) (at_ : instant) : Review :=
  mkReview by_ by_ of_ of_ v "" at_ None.
Definition w_channel : Channel :=
  mkChannel "c" "p" None (TaskSubject "t") ["a"; "b"] None 0
    [w_review "b" "a" Changes 1; w_review "a" "a" Changes 2; w_review "b" "a" Approve 3] None None None.

Lemma membership_exact_witness :
  ch_members (channel_admit w_channel "z").1 = ["a"; "b"; "z"] ∧ NoDup (ch_members (channel_admit w_channel "z").1).
Proof.
  split; [vm_compute; reflexivity|].
  apply (membership_exact w_channel "z"). repeat constructor; set_solver.
Defined.

Lemma word_is_the_latest_witness :
  word_of (ch_reviews w_channel) "a" "b" = Some (w_review "b" "a" Approve 3) ∧
  decision w_channel "a" 1 = Approved 1 ∧
  ∀ k, k ∈ ch_reviews w_channel → rv_of k = "a" → rv_by k = "b" → (rv_at k ≤ 3)%Z.
Proof.
  assert (word_of (ch_reviews w_channel) "a" "b" = Some (w_review "b" "a" Approve 3)) as H
    by (vm_compute; reflexivity).
  split; [exact H|]. split; [vm_compute; reflexivity|].
  apply (word_is_the_latest (ch_reviews w_channel) "a" "b" _ H).
Defined.
End ChannelProps.
