(* ===== verification/Gate.v ===== *)
(** * The gate: whether a branch may land

    The model of [crates/core/src/gate.rs]: a reviewer's word on a branch at a
    commit, the line a job parses, which verdicts stand, which may be
    forgotten, and what the gate says. *)

From Stdlib Require Import Ascii.
From stdpp Require Import pretty.
From S2P Require Import Prelude RustStr Order.

Local Open Scope rust_scope.
Local Open Scope string_scope.

Definition GATE_ROLE : string := "reviewer".
Definition VERDICTS_PER_PROJECT : nat := Z.to_nat 2000.
Definition NOTE_CHARS : nat := Z.to_nat 4000.

Record Findings := mkFindings { important : Z; nit : Z; pre_existing : Z }.

Definition findings_line (f : Findings) : string :=
  "important=" ++ pretty (important f) ++ " nit=" ++ pretty (nit f)
  ++ " pre_existing=" ++ pretty (pre_existing f).

Inductive Word := Pass | Changes | WNone.

Global Instance Word_eq_dec : EqDecision Word.
Proof. solve_decision. Defined.

Definition word_parse (text : string) : option Word :=
  let t := trim text in
  if existsb (eqb t) ["pass"; "approve"; "approved"] then Some Pass
  else if t == "changes" then Some Changes
  else if existsb (eqb t) ["none"; "comment"] then Some WNone
  else None.
Definition word_as_str (w : Word) : string :=
  match w with Pass => "pass" | Changes => "changes" | WNone => "none" end.

(** ** One token of a parseable line *)

Definition hex_digit (n : N) : ascii := ascii_of_N (if (n <? 10)%N then n + 48 else n + 55).

(** [format!("%{byte:02X}")] *)
Definition percent_byte (a : ascii) : string :=
  String "%" (String (hex_digit (byte_val a / 16)) (String (hex_digit (byte_val a mod 16)) "")).

Fixpoint percent_bytes (s : string) : string :=
  match s with "" => "" | String a s' => percent_byte a ++ percent_bytes s' end.

Definition token_char (c : string) : string :=
  if is_whitespace c || is_control c || (c == "=") || (c == "%") then percent_bytes c else c.

Definition token (text : string) : string := join "" (token_char <$> chars text).

(** ** Verdicts *)

Record CodeVerdict := mkVerdict {
  v_id : string;
  v_seq : Z;
  v_project : string;
  v_branch : string;
  v_head : string;
  v_from : option string;
  v_by : string;
  v_by_name : string;
  v_human : bool;
  v_roles : list string;
  v_runtime : string;
  v_verdict : Word;
  v_findings : Findings;
  v_note : string;
  v_at : instant;
}.

Definition full_commit (text : string) : bool :=
  ((String.length text =? 40)%nat || (String.length text =? 64)%nat)
  && sforall (λ a, is_ascii_digit a || in_range 97 102 a) text.

Definition branch_name (branch : string) : bool :=
  (branch != "") && (byte_len branch <=? 255)%Z && (branch != "@")
  && negb (starts_with branch "-" || starts_with branch "/")
  && negb (ends_with_char "/" branch || ends_with_char "." branch)
  && negb (contains_str ".." branch) && negb (contains_str "@{" branch)
  && negb (existsb (λ c, is_control c || is_whitespace c || existsb (eqb c) (chars "~^:?*[\")) (chars branch))
  && forallb (λ part, (part != "") && negb (starts_with part ".") && negb (ends_with_str ".lock" part))
       (split_char "/" branch).

Definition verdict_check (v : CodeVerdict) : result unit string :=
  if negb (branch_name (v_branch v)) then Err "that is not a branch name"
  else if negb (full_commit (v_head v)) || is_some_and (λ c, negb (full_commit c)) (v_from v)
  then Err "a verdict names full commit ids (40 or 64 lowercase hex digits)"
  else if v_from v == Some (v_head v)
  then Err "a review from a commit reads what came after it: name an earlier one"
  else if (NOTE_CHARS <? chars_count (v_note v))%nat then Err "a verdict's note is at most 4000 characters"
  else if (v_verdict v == Pass) && (0 <? important (v_findings v))%Z
  then Err "a pass cannot carry an important finding: ask for changes"
  else Ok ().

Definition counts_for (v : CodeVerdict) (role : string) : bool :=
  v_human v || existsb (λ r, r == role) (v_roles v).

Definition runtime_said (v : CodeVerdict) : string :=
  if v_runtime v == "" then "unknown" else v_runtime v.

Definition verdict_line (v : CodeVerdict) : string :=
  "verdict=" ++ word_as_str (v_verdict v) ++ " head=" ++ v_head v ++ " " ++ findings_line (v_findings v)
  ++ " runtime=" ++ token (runtime_said v) ++ " by=" ++ v_by_name v.

Definition order (v : CodeVerdict) : Z * (instant * string) := (v_seq v, (v_at v, v_id v)).
Definition later (a b : CodeVerdict) : bool := match cmp (order a) (order b) with Gt => true | _ => false end.

(** [entry(key).or_insert(verdict)], replaced by a later one. *)
Definition note_latest {K} `{Countable K} (key : CodeVerdict → K) (m : gmap K CodeVerdict) (v : CodeVerdict)
    : gmap K CodeVerdict :=
  <[key v := match m !! key v with Some k => if later v k then v else k | None => v end]> m.

(** ** Which verdicts stand, and which may be forgotten *)

Definition gate_roles (vs : list CodeVerdict) : gset string :=
  {[GATE_ROLE]} ∪ list_to_set (vs ≫= v_roles).

Definition counting (role : string) (vs : list CodeVerdict) : list CodeVerdict :=
  List.filter (λ v, (v_verdict v != WNone) && counts_for v role) vs.

Definition standing_for (vs : list CodeVerdict) (role : string) : gset string :=
  let latest := foldl (note_latest (λ v, (v_branch v, v_by v))) ∅ (counting role vs) in
  list_to_set (v_id <$> (map_to_list latest).*2).

Definition standing (vs : list CodeVerdict) : gset string :=
  ⋃ (standing_for vs <$> btree_set_iter (gate_roles vs)).

Definition to_forget (existing : list CodeVerdict) (given : CodeVerdict) (cap : nat) : option (list string) :=
  let excess := (length existing + 1 - cap)%nat in
  if (excess =? 0)%nat then Some []
  else
    let st := standing (app existing [given]) in
    let idle := sort_by_key order (List.filter (λ v, bool_decide (v_id v ∉ st)) existing) in
    if (excess <=? length idle)%nat then Some (v_id <$> take excess idle) else None.

(** ** Authorship *)

Definition branch_ref (branch : string) : string := "refs/heads/" ++ branch.

Inductive Witness := WCommit | WHook.
Definition witness_as_str (w : Witness) : string := match w with WCommit => "commit" | WHook => "hook" end.
Definition witness_parse (text : string) : option Witness :=
  if text == "commit" then Some WCommit else if text == "hook" then Some WHook else None.

Record Authorship := mkAuthorship {
  a_project : string;
  a_agent : string;
  a_branch : string;
  a_commit : string;
  a_witness : Witness;
  a_at : instant;
}.

Definition authorship_check (a : Authorship) : result unit string :=
  if negb (is_some_and branch_name (strip_prefix "refs/heads/" (a_branch a)))
  then Err "authorship names a branch by its full ref, refs/heads/<name>"
  else if negb (full_commit (a_commit a)) then Err "authorship names a full commit id"
  else Ok ().

(** ** The gate *)

Inductive Gate :=
| GApproved (v : CodeVerdict)
| GChanges (v : CodeVerdict)
| GStale (v : CodeVerdict)
| GMissing.

Definition gate_approved (g : Gate) : bool := match g with GApproved _ => true | _ => false end.
Definition gate_as_str (g : Gate) : string :=
  match g with GApproved _ => "approved" | GChanges _ => "changes" | GStale _ => "stale" | GMissing => "missing" end.
Definition gate_verdict (g : Gate) : option CodeVerdict :=
  match g with GApproved v | GChanges v | GStale v => Some v | GMissing => None end.
Definition gate_line (g : Gate) (branch head : string) : string :=
  "gate=" ++ gate_as_str g ++ " branch=" ++ branch ++ " head=" ++ head
  ++ match gate_verdict g with Some v => " " ++ verdict_line v | None => "" end.

(** [max_by_key(order)]: the last of several greatest. *)
Definition max_step (best : option CodeVerdict) (v : CodeVerdict) : option CodeVerdict :=
  match best with
  | None => Some v
  | Some b => Some (if later b v then b else v)
  end.
Definition max_by_order (vs : list CodeVerdict) : option CodeVerdict := foldl max_step None vs.

Definition latest_words (vs : list CodeVerdict) (branch role : string) : gmap string CodeVerdict :=
  foldl (note_latest v_by) ∅
    (List.filter (λ v, (v_branch v == branch) && (v_verdict v != WNone) && counts_for v role) vs).

Definition gate (vs : list CodeVerdict) (branch head role : string) : Gate :=
  let latest := (btree_iter (latest_words vs branch role)).*2 in
  match max_by_order (List.filter (λ v, v_verdict v == Changes) latest) with
  | Some v => GChanges v
  | None =>
      match max_by_order (List.filter (λ v, (v_verdict v == Pass) && (v_head v == head)) latest) with
      | Some v => GApproved v
      | None =>
          match max_by_order (List.filter (λ v, v_verdict v == Pass) latest) with
          | Some v => GStale v
          | None => GMissing
          end
      end
  end.

Module GateFacts.

Definition le (a b : CodeVerdict) : Prop := cmp_le (order a) (order b).

Lemma le_refl a : le a a.
Proof. apply cmp_le_refl. Qed.
Lemma le_trans a b c : le a b → le b c → le a c.
Proof. apply cmp_le_trans. Qed.
Lemma later_true a b : later a b = true → le b a.
Proof. unfold later, le, cmp_le. rewrite (cmp_opp (order a) (order b)). by destruct (cmp (order a) (order b)). Qed.
Lemma later_false a b : later a b = false → le a b.
Proof. unfold later, le, cmp_le. by destruct (cmp _ _). Qed.

(** Two ways to keep the better of what was kept and the next. *)
Section Best.
Context (step : option CodeVerdict → CodeVerdict → option CodeVerdict).
Context (step_None : ∀ v, step None v = Some v).
Context (step_Some : ∀ b v, ∃ r, step (Some b) v = Some r ∧ (r = b ∨ r = v) ∧ le b r ∧ le v r).

Lemma best_fold acc l r :
  foldl step acc l = Some r →
  (acc = Some r ∨ r ∈ l) ∧ (∀ k, acc = Some k → le k r) ∧ (∀ k, k ∈ l → le k r).
Proof.
  revert acc. induction l as [|v l IH]; intros acc; simpl.
  { intros ->. split_and!; [by left|intros k [= ->]; apply le_refl|set_solver]. }
  intros (H1 & H2 & H3)%IH. destruct acc as [b|].
  - destruct (step_Some b v) as (x & Hx & Hor & Hb & Hv). rewrite Hx in *. specialize (H2 x eq_refl). split_and!.
    + destruct H1 as [[= ->]|?]; [destruct Hor as [->| ->]; [by left|right; left]|by right; right].
    + intros k [= <-]. by eapply le_trans.
    + intros k [->|?]%elem_of_cons; [by eapply le_trans|auto].
  - rewrite step_None in *. specialize (H2 v eq_refl). split_and!; [|done|].
    + destruct H1 as [[= ->]|?]; right; [left|by right].
    + intros k [->|?]%elem_of_cons; auto.
Qed.

Lemma best_fold_None acc l : foldl step acc l = None ↔ acc = None ∧ l = [].
Proof.
  revert acc. induction l as [|v l IH]; intros acc; simpl; [naive_solver|].
  rewrite IH. split; [|by intros [_ ?]]. intros [H _]. destruct acc as [b|].
  - destruct (step_Some b v) as (x & Hx & _). congruence.
  - by rewrite step_None in H.
Qed.
End Best.

Definition pick (acc : option CodeVerdict) (v : CodeVerdict) : option CodeVerdict :=
  Some match acc with Some k => if later v k then v else k | None => v end.

Lemma pick_Some b v : ∃ r, pick (Some b) v = Some r ∧ (r = b ∨ r = v) ∧ le b r ∧ le v r.
Proof.
  unfold pick. destruct (later v b) eqn:E; eexists; (split; [done|]); split_and!; auto using le_refl.
  - by apply later_true.
  - by apply later_false.
Qed.

Lemma max_step_Some b v : ∃ r, max_step (Some b) v = Some r ∧ (r = b ∨ r = v) ∧ le b r ∧ le v r.
Proof.
  simpl. destruct (later b v) eqn:E; eexists; (split; [done|]); split_and!; auto using le_refl.
  - by apply later_true.
  - by apply later_false.
Qed.

Lemma note_latest_fold {K} `{Countable K} (key : CodeVerdict → K) vs m k :
  foldl (note_latest key) m vs !! k = foldl pick (m !! k) (filter (λ v, key v = k) vs).
Proof.
  revert m. induction vs as [|v vs IH]; intros m; simpl; [done|]. rewrite IH. unfold note_latest.
  rewrite filter_cons. case_decide as Hk.
  - simpl. by rewrite <-Hk, lookup_insert_eq.
  - by rewrite lookup_insert_ne.
Qed.

(** Verdicts by distinct ids: no two share their place in the order. *)
Definition ids_unique (vs : list CodeVerdict) : Prop := NoDup (v_id <$> vs).

Lemma order_inj vs v w : ids_unique vs → v ∈ vs → w ∈ vs → le v w → le w v → v = w.
Proof.
  intros Hu Hv Hw H1 H2. assert (order v = order w) as Ho by by apply cmp_le_antisym.
  apply (NoDup_fmap_inj_elem v_id vs); [done..|]. unfold order in Ho. congruence.
Qed.

(** The entry of a key is the latest verdict with that key. *)
Lemma latest_lookup {K} `{Countable K} (key : CodeVerdict → K) vs k v :
  ids_unique vs →
  foldl (note_latest key) ∅ vs !! k = Some v ↔
  v ∈ vs ∧ key v = k ∧ ∀ w, w ∈ vs → key w = k → le w v.
Proof.
  intros Hu. rewrite note_latest_fold, lookup_empty. split.
  - intros Hf. apply best_fold in Hf as ([?|Hin] & _ & Hmax); [done| |done|apply pick_Some].
    apply list_elem_of_filter in Hin as [Hk Hin]. split_and!; [done..|].
    intros w Hw Hkw. apply Hmax. by apply list_elem_of_filter.
  - intros (Hin & Hk & Hmax).
    assert (v ∈ filter (λ v, key v = k) vs) as Hvf by (by apply list_elem_of_filter).
    destruct (foldl pick None _) as [r|] eqn:E.
    + apply best_fold in E as ([?|Hr] & _ & Hle); [done| |done|apply pick_Some].
      apply list_elem_of_filter in Hr as [Hkr Hr]. f_equal.
      apply (order_inj vs); auto.
    + apply best_fold_None in E as [_ E]; [|done|apply pick_Some].
      rewrite E in Hvf. by apply not_elem_of_nil in Hvf.
Qed.

(** A reviewer's word on a branch for a role: their latest verdict that counts. *)
Definition counted (branch role : string) (v : CodeVerdict) : Prop :=
  v_branch v = branch ∧ v_verdict v ≠ WNone ∧ counts_for v role = true.

Definition is_word (vs : list CodeVerdict) (branch role : string) (v : CodeVerdict) : Prop :=
  v ∈ vs ∧ counted branch role v ∧
  ∀ w, w ∈ vs → counted branch role w → v_by w = v_by v → le w v.

Lemma counted_filter branch role v :
  (v_branch v == branch) && (v_verdict v != WNone) && counts_for v role = true ↔ counted branch role v.
Proof. unfold counted. rewrite !andb_true_iff, negb_true_iff, eqb_true, eqb_false. tauto. Qed.

Lemma filter_ids_unique (f : CodeVerdict → bool) vs : ids_unique vs → ids_unique (List.filter f vs).
Proof.
  unfold ids_unique. induction vs as [|v vs IH]; csimpl; [done|]. rewrite NoDup_cons. intros [Hv Hnd].
  destruct (f v); csimpl; [|by apply IH]. constructor; [|by apply IH].
  intros (w & Hw & Hin)%list_elem_of_fmap. apply Hv. rewrite Hw. apply list_elem_of_fmap_2.
  apply list_elem_of_In in Hin. apply filter_In in Hin as [? _]. by apply list_elem_of_In.
Qed.

Lemma elem_of_filter_b (f : CodeVerdict → bool) vs v : v ∈ List.filter f vs ↔ v ∈ vs ∧ f v = true.
Proof. rewrite !list_elem_of_In. apply filter_In. Qed.

Lemma latest_words_lookup vs branch role b v :
  ids_unique vs →
  latest_words vs branch role !! b = Some v ↔ is_word vs branch role v ∧ v_by v = b.
Proof.
  intros Hu. unfold latest_words. rewrite latest_lookup by by apply filter_ids_unique.
  rewrite elem_of_filter_b, counted_filter. unfold is_word. split.
  - intros ((Hin & Hc) & Hb & Hmax). split; [|done]. split_and!; [done..|].
    intros w Hw Hcw Hbw. apply Hmax; [|congruence]. rewrite elem_of_filter_b, counted_filter. done.
  - intros ((Hin & Hc & Hmax) & Hb). split_and!; [done..|]. intros w Hw Hbw.
    rewrite elem_of_filter_b, counted_filter in Hw. apply Hmax; [naive_solver..|congruence].
Qed.

Lemma elem_of_words vs branch role v :
  ids_unique vs → v ∈ (btree_iter (latest_words vs branch role)).*2 ↔ is_word vs branch role v.
Proof.
  intros Hu. rewrite list_elem_of_fmap. split.
  - intros ([b v'] & -> & Hin%elem_of_btree_iter). by apply latest_words_lookup in Hin as [? _].
  - intros Hw. exists (v_by v, v). split; [done|]. by apply elem_of_btree_iter, latest_words_lookup.
Qed.

Lemma max_by_order_Some l v : max_by_order l = Some v → v ∈ l ∧ ∀ w, w ∈ l → le w v.
Proof.
  intros Hm. apply best_fold in Hm as ([?|?] & _ & ?); [done|done|done|apply max_step_Some].
Qed.
Lemma max_by_order_None l : max_by_order l = None ↔ l = [].
Proof. unfold max_by_order. rewrite best_fold_None; [naive_solver|done|apply max_step_Some]. Qed.

(** A counted verdict is no later than its reviewer's word. *)
Lemma word_exists vs branch role w :
  ids_unique vs → w ∈ vs → counted branch role w →
  ∃ v, is_word vs branch role v ∧ v_by v = v_by w ∧ le w v.
Proof.
  intros Hu Hin Hc. destruct (latest_words vs branch role !! v_by w) as [v|] eqn:E.
  - apply latest_words_lookup in E as [Hv Hb]; [|done]. exists v. split_and!; [done..|]. by apply Hv.
  - exfalso. unfold latest_words in E. rewrite note_latest_fold, lookup_empty in E.
    apply best_fold_None in E as [_ E]; [|done|apply pick_Some].
    assert (w ∈ filter (λ v, v_by v = v_by w)
       (List.filter (λ v, (v_branch v == branch) && (v_verdict v != WNone) && counts_for v role) vs)) as H.
    { apply list_elem_of_filter. split; [done|]. by rewrite elem_of_filter_b, counted_filter. }
    rewrite E in H. by apply not_elem_of_nil in H.
Qed.

(** ** Standing words *)

Definition humans_consistent (vs : list CodeVerdict) : Prop :=
  ∀ v w, v ∈ vs → w ∈ vs → v_by v = v_by w → v_human v = v_human w.

Lemma humans_consistent_check vs :
  forallb (λ v, forallb (λ w, (v_by v != v_by w) || (v_human v == v_human w)) vs) vs = true →
  humans_consistent vs.
Proof.
  rewrite forallb_forall. intros H v w Hv%list_elem_of_In Hw%list_elem_of_In Hby.
  specialize (H v Hv). rewrite forallb_forall in H. specialize (H w Hw).
  apply orb_true_iff in H as [H|H]; by split_and_bool.
Qed.

Lemma word_stands vs branch role v :
  ids_unique vs → role ∈ gate_roles vs → is_word vs branch role v → v_id v ∈ standing vs.
Proof.
  intros Hu Hr (Hin & (Hb & Hn & Hc) & Hmax). unfold standing. apply elem_of_union_list.
  exists (standing_for vs role). split.
  { apply list_elem_of_fmap_2. by apply elem_of_btree_set_iter. }
  unfold standing_for. apply elem_of_list_to_set, list_elem_of_fmap_2, list_elem_of_fmap.
  exists ((v_branch v, v_by v), v). split; [done|]. apply elem_of_map_to_list.
  apply latest_lookup; [by apply filter_ids_unique|].
  assert (∀ w, w ∈ counting role vs ↔ w ∈ vs ∧ v_verdict w ≠ WNone ∧ counts_for w role = true) as Hcnt.
  { intros w. unfold counting. rewrite elem_of_filter_b, andb_true_iff, negb_true_iff, eqb_false. done. }
  split_and!; [by apply Hcnt|done|]. intros w (Hw & Hwn & Hwc)%Hcnt [= Hwb Hwby].
  apply Hmax; [done| |done]. split_and!; [congruence|done..].
Qed.

Lemma unmentioned_role vs role v :
  role ∉ gate_roles vs → v ∈ vs → counts_for v role = true → v_human v = true.
Proof.
  intros Hr Hv. unfold counts_for. destruct (v_human v); [done|]. simpl.
  intros (r & Hin & Heq)%existsb_exists. split_and_bool. subst r. destruct Hr.
  unfold gate_roles. apply elem_of_union_r, elem_of_list_to_set, list_elem_of_bind.
  exists v. split; [by apply list_elem_of_In|done].
Qed.

(** A word stands at the gate of every role, whether or not any verdict
    mentions it. *)
Lemma word_stands_always vs branch role v :
  ids_unique vs → humans_consistent vs → is_word vs branch role v → v_id v ∈ standing vs.
Proof.
  intros Hu Hh Hw. destruct (decide (role ∈ gate_roles vs)) as [Hr|Hr]; [by eapply word_stands|].
  apply (word_stands vs branch GATE_ROLE); [done|unfold gate_roles; set_solver|].
  destruct Hw as (Hin & (Hb & Hn & Hc) & Hmax).
  assert (v_human v = true) as Hv by by eapply unmentioned_role.
  split_and!; [done| |].
  - split_and!; [done..|]. unfold counts_for. by rewrite Hv.
  - intros w Hw (Hwb & Hwn & _) Hby. apply Hmax; [done| |done]. split_and!; [done..|].
    unfold counts_for. by rewrite (Hh w v), Hv.
Qed.

Definition without (ids : list string) (vs : list CodeVerdict) : list CodeVerdict :=
  List.filter (λ v, bool_decide (v_id v ∉ ids)) vs.

Lemma elem_of_without ids vs v : v ∈ without ids vs ↔ v ∈ vs ∧ v_id v ∉ ids.
Proof. unfold without. by rewrite elem_of_filter_b, bool_decide_eq_true. Qed.

(** Dropping verdicts that are nobody's word changes no word. *)
Lemma words_without vs ids branch role v :
  ids_unique vs → (∀ w, is_word vs branch role w → v_id w ∉ ids) →
  is_word (without ids vs) branch role v ↔ is_word vs branch role v.
Proof.
  intros Hu Hkeep. split.
  - intros (Hin & Hc & Hmax). apply elem_of_without in Hin as [Hin Hid].
    destruct (word_exists vs branch role v Hu Hin Hc) as (w & Hw & Hby & Hle).
    assert (w = v) as ->; [|done]. apply (order_inj vs); [done|apply Hw|done| |done].
    apply Hmax; [apply elem_of_without; split; [apply Hw|by apply Hkeep]|apply Hw|done].
  - intros Hw. split_and!; [apply elem_of_without; split; [apply Hw|by apply Hkeep]|apply Hw|].
    intros w (Hin & _)%elem_of_without. by apply Hw.
Qed.

Lemma gate_of_words vs vs' branch head role :
  ids_unique vs → ids_unique vs' →
  (∀ v, is_word vs branch role v ↔ is_word vs' branch role v) →
  gate vs branch head role = gate vs' branch head role.
Proof.
  intros Hu Hu' Hw. unfold gate. replace (latest_words vs branch role) with (latest_words vs' branch role); [done|].
  apply map_eq. intros b. apply option_eq. intros v. by rewrite !latest_words_lookup, Hw.
Qed.

(** What is forgotten: existing verdicts nobody stands on, as many as needed. *)
Lemma to_forget_Some existing given cap F :
  to_forget existing given cap = Some F →
  ∃ sub, F = v_id <$> sub ∧ length sub = (length existing + 1 - cap)%nat ∧
    (ids_unique existing → NoDup F) ∧
    ∀ v, v ∈ sub → v ∈ existing ∧ v_id v ∉ standing (app existing [given]).
Proof.
  unfold to_forget. destruct (_ =? 0)%nat eqn:E0.
  { intros [= <-]. apply Nat.eqb_eq in E0. exists []. split_and!; [done|simpl; lia|intros _; constructor|set_solver]. }
  set (idle := sort_by_key order _). destruct (_ <=? _)%nat eqn:El; [|done]. apply Nat.leb_le in El.
  intros [= <-]. exists (take (length existing + 1 - cap) idle). split_and!; [done| | |].
  - rewrite length_take. lia.
  - intros Hu. rewrite fmap_take. eapply sublist_NoDup; [|apply sublist_take].
    unfold idle. rewrite sort_by_key_perm. by apply filter_ids_unique.
  - intros v (i & Hi%list_elem_of_lookup_2 & _)%elem_of_take. unfold idle in Hi.
    apply elem_of_sort_by_key, elem_of_filter_b in Hi as [? Hn]. split; [done|]. by apply bool_decide_eq_true in Hn.
Qed.

Lemma length_without vs sub :
  ids_unique vs → NoDup (v_id <$> sub) → (∀ v, v ∈ sub → v ∈ vs) →
  length (without (v_id <$> sub) vs) = (length vs - length sub)%nat.
Proof.
  intros Hu Hs Hsub.
  assert (vs ≡ₚ app sub (without (v_id <$> sub) vs)) as Hp; [|apply Permutation_length in Hp; rewrite length_app in Hp; lia].
  apply NoDup_Permutation.
  - by eapply NoDup_fmap_1.
  - apply NoDup_app. split_and!; [by eapply NoDup_fmap_1| |].
    + intros v Hv [_ Hn]%elem_of_without. apply Hn. by apply list_elem_of_fmap_2.
    + apply NoDup_ListNoDup, List.NoDup_filter, NoDup_ListNoDup. by eapply NoDup_fmap_1.
  - intros v. rewrite elem_of_app, elem_of_without. split; [|naive_solver]. intros Hv.
    destruct (decide (v_id v ∈ v_id <$> sub)) as [(w & Hid & Hw)%list_elem_of_fmap|]; [|by right].
    left. by rewrite (NoDup_fmap_inj_elem v_id vs v w) by auto.
Qed.

(** ** The line a job parses *)

Definition hex_val (a : ascii) : N := if is_ascii_digit a then byte_val a - 48 else byte_val a - 55.

(** Percent-decoding, as the reader of a token does it. *)
Fixpoint percent_decode (s : string) : string :=
  match s with
  | "" => ""
  | String a s1 =>
      if Ascii.eqb a "%" then
        match s1 with
        | String h (String l s2) => String (ascii_of_N (hex_val h * 16 + hex_val l)) (percent_decode s2)
        | _ => String a (percent_decode s1)
        end
      else String a (percent_decode s1)
  end.

Lemma decode_percent_byte a t : percent_decode (percent_byte a ++ t) = String a (percent_decode t).
Proof.
  unfold percent_byte. rewrite !append_cons, append_nil_l. cbn [percent_decode]. rewrite Ascii.eqb_refl. f_equal.
  by destruct a as [[] [] [] [] [] [] [] []]; vm_compute.
Qed.

Lemma decode_percent_bytes s t : percent_decode (percent_bytes s ++ t) = (s ++ percent_decode t)%string.
Proof.
  induction s as [|a s IH]; [done|]. cbn [percent_bytes].
  by rewrite append_assoc, decode_percent_byte, IH, append_cons.
Qed.

Lemma decode_plain s t :
  contains_char "%" s = false → percent_decode (s ++ t) = (s ++ percent_decode t)%string.
Proof.
  unfold contains_char. induction s as [|a s IH]; [done|]. cbn [sexists]. intros [Ha Hs]%orb_false_iff.
  rewrite !append_cons. cbn [percent_decode]. rewrite Ascii.eqb_sym, Ha. f_equal. by apply IH.
Qed.

(** An ASCII byte other than the character itself is not in a character. *)
Lemma char_no_ascii c b :
  char_shaped c = true → ascii_alone c → is_ascii_byte b = true → c ≠ String b "" → contains_char b c = false.
Proof.
  unfold contains_char. destruct c as [|a r]; [done|]. cbn [sexists char_shaped].
  intros [Ha Hr]%andb_true_iff Hal Hb Hne. simpl in Hal. apply orb_false_iff. split.
  - apply Ascii.eqb_neq. intros <-. by rewrite (Hal Hb) in Hne.
  - clear Hal Hne Ha. induction r as [|x r IH]; [done|]. cbn [sexists sforall] in *. apply andb_true_iff in Hr as [Hx Hr].
    apply orb_false_iff. split; [|by apply IH]. apply Ascii.eqb_neq. intros <-.
    by rewrite (continuation_not_ascii b Hx) in Hb.
Qed.

Lemma percent_bytes_no_space s : contains_char " " (percent_bytes s) = false.
Proof.
  induction s as [|a s IH]; [done|]. cbn [percent_bytes]. unfold contains_char in *.
  unfold percent_byte. rewrite !append_cons, append_nil_l. cbn [sexists]. rewrite IH, !orb_false_r.
  clear. by destruct a as [[] [] [] [] [] [] [] []]; vm_compute.
Qed.

Lemma sexists_app f s t : sexists f (s ++ t) = sexists f s || sexists f t.
Proof. induction s as [|a s IH]; [done|]. rewrite append_cons. cbn. by rewrite IH, orb_assoc. Qed.

Lemma token_char_ok c t :
  char_shaped c = true → ascii_alone c →
  percent_decode (token_char c ++ t) = (c ++ percent_decode t)%string ∧ contains_char " " (token_char c) = false.
Proof.
  intros Hs Ha. unfold token_char. destruct (_ || _) eqn:E.
  - split; [apply decode_percent_bytes|apply percent_bytes_no_space].
  - split_and_bool. split.
    + apply decode_plain, char_no_ascii; try done.
    + apply char_no_ascii; try done. by intros ->.
Qed.

Lemma token_ok s :
  utf8_valid s = true → percent_decode (token s) = s ∧ contains_char " " (token s) = false.
Proof.
  intros Hv. unfold token, join. pose proof (chars_shaped s) as Hsh.
  rewrite <-(concat_chars_valid s Hv) at 2. apply utf8_valid_chars in Hv as [_ Hal].
  induction (chars s) as [|c cs IH]; [done|]. apply Forall_cons in Hsh as [Hc Hcs]. apply Forall_cons in Hal as [Hac Has].
  destruct (IH Has Hcs) as [IH1 IH2]. rewrite fmap_cons, !concat_cons.
  destruct (token_char_ok c (String.concat "" (token_char <$> cs)) Hc Hac) as [H1 H2]. split.
  - by rewrite H1, IH1.
  - unfold contains_char in *. by rewrite sexists_app, H2, IH2.
Qed.

(** [key=value] up to the next space. *)
Definition field (key s : string) : option (string * string) :=
  match strip_prefix (key ++ "=") s with Some r => split_once " " r | None => None end.

Definition read_line (s : string) : option (Word * string * Findings * string * string) :=
  match field "verdict" s with
  | Some (w, s1) =>
  match word_parse w, field "head" s1 with
  | Some w, Some (h, s2) =>
  match field "important" s2 with
  | Some (i, s3) =>
  match field "nit" s3 with
  | Some (n, s4) =>
  match field "pre_existing" s4 with
  | Some (p, s5) =>
  match field "runtime" s5 with
  | Some (r, s6) =>
      match parse_u32 i, parse_u32 n, parse_u32 p, strip_prefix "by=" s6 with
      | Some i, Some n, Some p, Some b => Some (w, h, mkFindings i n p, percent_decode r, b)
      | _, _, _, _ => None
      end
  | None => None end | None => None end | None => None end | None => None end
  | _, _ => None end
  | None => None
  end.

Lemma field_app key v s : contains_char " " v = false → field key (key ++ "=" ++ v ++ " " ++ s) = Some (v, s).
Proof.
  intros Hv. unfold field. rewrite <-append_assoc. rewrite (proj2 (strip_prefix_Some _ _ _) eq_refl).
  rewrite (append_cons " " "" s), append_nil_l. by apply split_once_app.
Qed.

Lemma verdict_line_fields v :
  verdict_line v =
  ("verdict" ++ "=" ++ word_as_str (v_verdict v) ++ " " ++
   ("head" ++ "=" ++ v_head v ++ " " ++
    ("important" ++ "=" ++ pretty (important (v_findings v)) ++ " " ++
     ("nit" ++ "=" ++ pretty (nit (v_findings v)) ++ " " ++
      ("pre_existing" ++ "=" ++ pretty (pre_existing (v_findings v)) ++ " " ++
       ("runtime" ++ "=" ++ token (runtime_said v) ++ " " ++ ("by=" ++ v_by_name v)))))))%string.
Proof. unfold verdict_line, findings_line. by autorewrite with rust. Qed.

Lemma digits_no_space s : sforall is_ascii_digit s = true → contains_char " " s = false.
Proof.
  unfold contains_char. induction s as [|a s IH]; [done|]. cbn [sexists sforall].
  intros [Ha Hs]%andb_true_iff. apply orb_false_iff. split; [|by apply IH]. revert Ha. clear. by destruct a as [[] [] [] [] [] [] [] []]; vm_compute.
Qed.

Lemma pretty_Z_nonneg z : (0 ≤ z)%Z → (pretty z : string) = pretty (Z.to_N z).
Proof. destruct z as [|p|p]; intros; [done|done|lia]. Qed.

Definition is_u32 (z : Z) : Prop := (0 ≤ z < 2 ^ 32)%Z.

Lemma parse_pretty_count z : is_u32 z → parse_u32 (pretty z) = Some z.
Proof.
  intros Hz. unfold is_u32 in Hz. rewrite pretty_Z_nonneg, parse_u32_pretty, Z2N.id by lia. done.
Qed.

Lemma pretty_u32_no_space z : is_u32 z → contains_char " " (pretty z) = false.
Proof. intros Hz. unfold is_u32 in Hz. rewrite pretty_Z_nonneg by lia. apply digits_no_space, pretty_N_digits. Qed.

Lemma full_commit_no_space h : full_commit h = true → contains_char " " h = false.
Proof.
  unfold full_commit. intros [_ H]%andb_true_iff. unfold contains_char. apply sexists_false_sforall.
  eapply sforall_impl; [|exact H]. intros a. by destruct a as [[] [] [] [] [] [] [] []]; vm_compute.
Qed.
End GateFacts.

Module GateProps.
Import GateFacts.

(** C16: What the gate says is what the reviewers' words say: it asks for changes
    when some word does; otherwise it is approved on a word that passes this
    very head, stale when every passing word read another commit, and missing
    when nobody who counts has spoken. *)
Theorem gate_says_what_the_words_say (vs : list CodeVerdict) (branch head role : string)
    (Hu : ids_unique vs) :
  match gate vs branch head role with
  | GChanges v => is_word vs branch role v ∧ v_verdict v = Changes
  | GApproved v =>
      is_word vs branch role v ∧ v_verdict v = Pass ∧ v_head v = head ∧
      ∀ w, is_word vs branch role w → v_verdict w ≠ Changes
  | GStale v =>
      is_word vs branch role v ∧ v_verdict v = Pass ∧
      ∀ w, is_word vs branch role w → v_verdict w = Pass ∧ v_head w ≠ head
  | GMissing => ∀ w, ¬ is_word vs branch role w
  end.
Proof.
  unfold gate. set (ws := (btree_iter _).*2).
  assert (∀ f v, max_by_order (List.filter f ws) = Some v → is_word vs branch role v ∧ f v = true) as Hsome.
  { intros f v [Hin _]%max_by_order_Some. apply elem_of_filter_b in Hin as [Hin ?]. by apply elem_of_words in Hin. }
  assert (∀ f v, max_by_order (List.filter f ws) = None → is_word vs branch role v → f v = false) as Hnone.
  { intros f v Hm%max_by_order_None Hw. destruct (f v) eqn:E; [|done].
    assert (v ∈ List.filter f ws) as Hin by (by rewrite elem_of_filter_b; split; [apply elem_of_words|]).
    rewrite Hm in Hin. by apply not_elem_of_nil in Hin. }
  assert (∀ w, is_word vs branch role w → v_verdict w ≠ Changes → v_verdict w = Pass) as Hpass.
  { intros w (_ & (_ & Hn & _) & _). by destruct (v_verdict w). }
  destruct (max_by_order (List.filter (λ v, v_verdict v == Changes) ws)) as [v|] eqn:E1.
  { apply Hsome in E1 as [? Hf]. cbn beta in Hf. by split_and_bool. }
  assert (∀ w, is_word vs branch role w → v_verdict w ≠ Changes) as Hno.
  { intros w Hw Hc. apply (Hnone _ w) in E1; [|done]. cbn beta in E1. by split_and_bool. }
  destruct (max_by_order (List.filter (λ v, (v_verdict v == Pass) && _) ws)) as [v|] eqn:E2.
  { apply Hsome in E2 as [? Hf]. cbn beta in Hf. by split_and_bool. }
  assert (∀ w, is_word vs branch role w → v_head w ≠ head) as Hhead.
  { intros w Hw Hh. apply (Hnone _ w) in E2; [|done]. cbn beta in E2. by rewrite (Hpass w), Hh, !eqb_refl in E2 by auto. }
  destruct (max_by_order (List.filter (λ v, v_verdict v == Pass) ws)) as [v|] eqn:E3.
  { apply Hsome in E3 as [? Hf]. cbn beta in Hf. split_and_bool. split_and!; [done..|]. auto. }
  intros w Hw. apply (Hnone _ w) in E3; [|done]. cbn beta in E3. split_and_bool. auto.
Qed.

(** C26: Forgetting what [to_forget] names loses no reviewer's word: every gate, of
    every branch, head and role, says the same without the forgotten verdicts,
    and what is left fits under the cap. *)
Theorem forgetting_changes_no_gate (existing : list CodeVerdict) (given : CodeVerdict) (cap : nat)
    (F : list string) (branch head role : string)
    (Hu : ids_unique (app existing [given])) (Hh : humans_consistent (app existing [given]))
    (Hf : to_forget existing given cap = Some F) :
  gate (without F (app existing [given])) branch head role = gate (app existing [given]) branch head role ∧
  (length (without F (app existing [given])) ≤ cap)%nat.
Proof.
  apply to_forget_Some in Hf as (sub & -> & Hlen & Hnd & Hsub). split.
  - apply gate_of_words; [by apply filter_ids_unique|done|]. intros v. apply words_without; [done|].
    intros w Hw (x & Hx & Hin)%list_elem_of_fmap. apply Hsub in Hin as [_ Hn]. apply Hn. rewrite <-Hx.
    by eapply word_stands_always.
  - rewrite length_without; [rewrite length_app; simpl; lia|done| |].
    + apply Hnd. unfold ids_unique in *. rewrite fmap_app in Hu. by apply NoDup_app in Hu as [? _].
    + intros v [? _]%Hsub. apply elem_of_app. by left.
Qed.

(** The line reads back: splitting on spaces and on the first [=], and
    percent-decoding the runtime, gives the word, the commit, the counts, the
    runtime and the reviewer's name, whatever the runtime and the name hold. *)
Theorem verdict_line_reads_back (v : CodeVerdict)
    (Hh : full_commit (v_head v) = true) (Hr : utf8_valid (runtime_said v) = true)
    (Hi : is_u32 (important (v_findings v))) (Hn : is_u32 (nit (v_findings v)))
    (Hp : is_u32 (pre_existing (v_findings v))) :
  read_line (verdict_line v) =
  Some (v_verdict v, v_head v, v_findings v, runtime_said v, v_by_name v).
Proof.
  destruct (token_ok _ Hr) as [Hdec Hns]. rewrite verdict_line_fields. unfold read_line.
  rewrite (field_app "verdict") by (by destruct (v_verdict v)).
  replace (word_parse (word_as_str (v_verdict v))) with (Some (v_verdict v)) by (by destruct (v_verdict v); vm_compute).
  rewrite (field_app "head") by (by apply full_commit_no_space).
  rewrite (field_app "important") by (by apply pretty_u32_no_space).
  rewrite (field_app "nit") by (by apply pretty_u32_no_space).
  rewrite (field_app "pre_existing") by (by apply pretty_u32_no_space).
  rewrite (field_app "runtime") by done.
  rewrite !parse_pretty_count, (proj2 (strip_prefix_Some _ _ _) eq_refl), Hdec by done.
  by destruct (v_findings v).
Qed.

Definition w_head : string := "0123456789012345678901234567890123456789".
Definition w_verdict (id : string) (seq : Z) (by_ : string) (human : bool) (w : Word) : CodeVerdict :=
  mkVerdict id seq "p" "main" w_head None by_ "Ann Lee" human ["reviewer"] "co dex" w (mkFindings 0 1 0) "" 0.
Definition w_existing : list CodeVerdict :=
  [w_verdict "1" 1 "a" false Changes; w_verdict "2" 2 "a" false WNone; w_verdict "3" 3 "u" true Pass].
Definition w_given : CodeVerdict := w_verdict "4" 4 "a" false Pass.

Lemma gate_says_what_the_words_say_witness :
  gate w_existing "main" w_head "reviewer" = GChanges (w_verdict "1" 1 "a" false Changes) ∧
  is_word w_existing "main" "reviewer" (w_verdict "1" 1 "a" false Changes).
Proof.
  assert (gate w_existing "main" w_head "reviewer" = GChanges (w_verdict "1" 1 "a" false Changes)) as H
    by (vm_compute; reflexivity).
  split; [exact H|].
  pose proof (gate_says_what_the_words_say w_existing "main" w_head "reviewer"
                (bool_decide_unpack (NoDup (v_id <$> w_existing)) I)) as Hg.
  rewrite H in Hg. exact (proj1 Hg).
Defined.

Lemma forgetting_changes_no_gate_witness :
  to_forget w_existing w_given 2 = Some ["1"; "2"] ∧
  gate (without ["1"; "2"] (app w_existing [w_given])) "main" w_head "reviewer" = GApproved w_given ∧
  (length (without ["1"; "2"] (app w_existing [w_given])) ≤ 2)%nat.
Proof.
  assert (to_forget w_existing w_given 2 = Some ["1"; "2"]) as H by (vm_compute; reflexivity).
  split; [exact H|].
  destruct (forgetting_changes_no_gate w_existing w_given 2 ["1"; "2"] "main" w_head "reviewer") as [Hg Hl].
  - exact (bool_decide_unpack (NoDup (v_id <$> (app w_existing [w_given]))) I).
  - apply humans_consistent_check. vm_compute. reflexivity.
  - exact H.
  - rewrite Hg. split; [vm_compute; reflexivity|exact Hl].
Defined.

Lemma verdict_line_reads_back_witness :
  verdict_line w_given = "verdict=pass head=0123456789012345678901234567890123456789 important=0 nit=1 pre_existing=0 runtime=co%20dex by=Ann Lee" ∧
  read_line (verdict_line w_given) = Some (Pass, w_head, mkFindings 0 1 0, "co dex", "Ann Lee").
Proof.
  split; [vm_compute; reflexivity|].
  apply (verdict_line_reads_back w_given); try (vm_compute; reflexivity); unfold is_u32; cbn; lia.
Defined.
End GateProps.
