(* ===== verification/Policy.v ===== *)
(** * Policies: what an agent may do, before it does it

    The model of [crates/core/src/policy.rs]: the glob of action patterns, the
    rules of one policy file, and how the host's and a project's combine. *)

From Stdlib Require Import Ascii.
From S2P Require Import Prelude RustStr Order Agent.

Local Open Scope rust_scope.
Local Open Scope string_scope.

(** ** Globs *)

(** [(0..=text.len()).any(|at| f(&text[at..]))] *)
Fixpoint any_suffix (f : string → bool) (t : string) : bool :=
  f t || match t with "" => false | String _ t' => any_suffix f t' end.

(** The same up to the first separator, which is not crossed. *)
Fixpoint any_within (f : string → bool) (t : string) : bool :=
  f t || match t with
         | "" => false
         | String c t' => if Ascii.eqb c "/" then false else any_within f t'
         end.

Fixpoint glob (pattern text : string) : bool :=
  match pattern with
  | "" => text == ""
  | String a p =>
      if Ascii.eqb a "*" then
        match p with
        | String b rest => if Ascii.eqb b "*" then any_suffix (glob rest) text else any_within (glob p) text
        | "" => any_within (glob p) text
        end
      else if Ascii.eqb a "?" then
        match text with
        | "" => false
        | String c t => negb (Ascii.eqb c "/") && glob p t
        end
      else
        match text with
        | "" => false
        | String c t => Ascii.eqb c a && glob p t
        end
  end.

Definition matches (pattern text : string) : bool := glob pattern text.

(** ** Policies *)

Inductive Trust := Accept | Hold | Refuse.

Global Instance Trust_eq_dec : EqDecision Trust.
Proof. solve_decision. Defined.

Definition trust_as_str (t : Trust) : string :=
  match t with Accept => "accept" | Hold => "hold" | Refuse => "refuse" end.

(** The derived order: the stricter is the greater. *)
Definition trust_rank (t : Trust) : Z := match t with Accept => 0 | Hold => 1 | Refuse => 2 end.

Record InboundSender := mkSender {
  is_name : option string;
  is_agent : option string;
  is_runtime : option string;
  is_trust : Trust;
}.

Record Inbound := mkInbound { in_connector : option Trust; in_senders : list InboundSender }.

Record InboundRuling := mkInboundRuling { ir_trust : Trust; ir_rule : string }.

Record Rule := mkRule {
  ru_name : option string;
  ru_runtime : option string;
  ru_agent : option string;
  ru_project : option string;
  ru_labels : gmap string string;
  ru_allow : list string;
  ru_deny : list string;
}.

Record Policy := mkPolicy {
  po_rules : list Rule;
  po_quota : gmap string Z;
  po_inbound : Inbound;
}.

Definition policy_default : Policy := mkPolicy [] ∅ (mkInbound None []).

Inductive Ruling := Allow | Deny (rule reason : string).

Definition is_allowed (r : Ruling) : bool := match r with Allow => true | Deny _ _ => false end.

Definition sender_covers (s : InboundSender) (sender : AgentRecord) : bool :=
  is_none_or (λ runtime, runtime == s_runtime (r_spec sender)) (is_runtime s)
  && is_none_or (λ pattern, matches pattern (s_name (r_spec sender))) (is_agent s).

(** [key=value] parts of what an entry is about. *)
Definition about (key : string) (value : option string) : list string :=
  match value with Some v => [(key ++ "=" ++ v)%string] | None => [] end.

Definition said_or (everyone : string) (parts : list string) : string :=
  match parts with [] => everyone | _ => join " " parts end.

Definition sender_label (s : InboundSender) : string :=
  unwrap_or (said_or "the entry for every connector sender"
               (app (about "runtime" (is_runtime s)) (about "agent" (is_agent s)))) (is_name s).

Definition accepted : InboundRuling := mkInboundRuling Accept "nothing written".

Section Rules.
Context {Uu : Uuid}.

Definition label_holds (agent : AgentRecord) (kv : string * string) : bool :=
  if kv.1 == ROLE_LABEL then holds_role agent kv.2 else s_labels (r_spec agent) !! kv.1 == Some kv.2.

Definition covers (r : Rule) (agent : AgentRecord) : bool :=
  is_none_or (λ runtime, runtime == s_runtime (r_spec agent)) (ru_runtime r)
  && is_none_or (λ pattern, matches pattern (s_name (r_spec agent))) (ru_agent r)
  && is_none_or (λ project,
       is_some_and (λ p, starts_with (project_id p) project) (r_project agent)
       || is_some_and (λ p, project_name p == project) (r_project agent)) (ru_project r)
  && forallb (label_holds agent) (btree_iter (ru_labels r)).

Definition rule_label (r : Rule) : string :=
  unwrap_or (said_or "the rule for everyone"
               (app (about "runtime" (ru_runtime r))
                    (app (about "agent" (ru_agent r)) (about "project" (ru_project r))))) (ru_name r).

Definition any_matches (patterns : list string) (action : string) : bool :=
  existsb (λ p, matches p action) patterns.

Definition backquoted (s : string) : string := "`" ++ s ++ "`".

Definition policy_check (p : Policy) (agent : AgentRecord) (action : string) : Ruling :=
  let covering := List.filter (λ r, covers r agent) (po_rules p) in
  match List.find (λ r, any_matches (ru_deny r) action) covering with
  | Some r => Deny (rule_label r) (backquoted action ++ " is denied")
  | None =>
      let whitelisting := List.filter (λ r, negb (length (ru_allow r) =? 0)%nat) covering in
      match whitelisting with
      | [] => Allow
      | first :: _ =>
          if existsb (λ r, any_matches (ru_allow r) action) whitelisting then Allow
          else Deny (rule_label first)
                 (backquoted action ++ " is not in any allow list that covers this agent")
      end
  end.

Definition policy_capacity (p : Policy) (quota : string) : option Z := po_quota p !! quota.

Definition policy_inbound (p : Policy) (sender : AgentRecord) : option InboundRuling :=
  if negb (via_connector sender) then None
  else match List.find (λ e, sender_covers e sender) (in_senders (po_inbound p)) with
  | Some e => Some (mkInboundRuling (is_trust e) ("inbound.sender " ++ sender_label e))
  | None => (λ t, mkInboundRuling t "inbound.connector") <$> in_connector (po_inbound p)
  end.

Definition prefixed (prefix : string) (r : InboundRuling) : InboundRuling :=
  mkInboundRuling (ir_trust r) (prefix ++ ir_rule r).

Definition inbound (host : Policy) (project : option Policy) (sender : AgentRecord) : InboundRuling :=
  let h := prefixed "host: " <$> policy_inbound host sender in
  let pr := match project with
            | Some p => prefixed "project: " <$> policy_inbound p sender
            | None => None
            end in
  match h, pr with
  | Some h, Some pr => if (trust_rank (ir_trust h) <? trust_rank (ir_trust pr))%Z then pr else h
  | Some only, None | None, Some only => only
  | None, None => accepted
  end.

Definition check (host : Policy) (project : option Policy) (agent : AgentRecord) (action : string) : Ruling :=
  match policy_check host agent action with
  | Deny rule reason => Deny ("host: " ++ rule) reason
  | Allow =>
      match project with
      | None => Allow
      | Some p =>
          match policy_check p agent action with
          | Deny rule reason => Deny ("project: " ++ rule) reason
          | Allow => Allow
          end
      end
  end.

Definition capacity (host : Policy) (project : option Policy) (quota : string) : option Z :=
  match policy_capacity host quota, match project with Some p => policy_capacity p quota | None => None end with
  | Some h, Some p => Some (Z.min h p)
  | Some only, None | None, Some only => Some only
  | None, None => None
  end.
End Rules.

Module PolicyFacts.

(** What a pattern means: [**] any text, [*] any text without a separator, [?]
    one byte that is no separator, anything else itself. *)
Inductive gmatch : string → string → Prop :=
| gm_end : gmatch "" ""
| gm_any s rest t : gmatch rest t → gmatch (String "*" (String "*" rest)) (s ++ t)
| gm_segment s rest t :
    contains_char "/" s = false → (∀ r, rest ≠ String "*" r) → gmatch rest t →
    gmatch (String "*" rest) (s ++ t)
| gm_one c p t : c ≠ "/"%char → gmatch p t → gmatch (String "?" p) (String c t)
| gm_byte c p t : c ≠ "*"%char → c ≠ "?"%char → gmatch p t → gmatch (String c p) (String c t).

Lemma any_suffix_true f t : any_suffix f t = true ↔ ∃ s r, t = (s ++ r)%string ∧ f r = true.
Proof.
  induction t as [|a t IH]; simpl; rewrite orb_true_iff.
  - split; [intros [?|?]; [by exists "", ""|done]|]. intros (s & r & Heq & Hf). left.
    destruct s; [|done]. by rewrite append_nil_l in Heq; subst.
  - rewrite IH. split.
    + intros [Hf|(s & r & -> & Hf)]; [by exists "", (String a t)|]. exists (String a s), r.
      by rewrite append_cons.
    + intros (s & r & Heq & Hf). destruct s as [|b s]; [rewrite append_nil_l in Heq; subst; by left|].
      rewrite append_cons in Heq. injection Heq as -> ->. right. by exists s, r.
Qed.

Lemma any_within_true f t :
  any_within f t = true ↔ ∃ s r, t = (s ++ r)%string ∧ contains_char "/" s = false ∧ f r = true.
Proof.
  unfold contains_char. induction t as [|a t IH]; simpl; rewrite orb_true_iff.
  - split; [intros [?|?]; [by exists "", ""|done]|]. intros (s & r & Heq & _ & Hf). left.
    destruct s; [|done]. by rewrite append_nil_l in Heq; subst.
  - split.
    + intros [Hf|H]; [by exists "", (String a t)|]. destruct (Ascii.eqb a "/") eqn:Ea; [done|].
      apply IH in H as (s & r & -> & Hs & Hf). exists (String a s), r. rewrite append_cons. split; [done|].
      cbn [sexists]. by rewrite Ascii.eqb_sym, Ea, Hs.
    + intros (s & r & Heq & Hs & Hf). destruct s as [|b s]; [rewrite append_nil_l in Heq; subst; by left|].
      rewrite append_cons in Heq. injection Heq as -> ->. cbn [sexists] in Hs. apply orb_false_iff in Hs as [Hb Hs].
      right. rewrite Ascii.eqb_sym, Hb. apply IH. by exists s, r.
Qed.

Lemma glob_gmatch p t : glob p t = true ↔ gmatch p t.
Proof.
  remember (String.length p) as n eqn:Hn. revert p t Hn. induction (lt_wf n) as [n _ IH]. intros p t ->.
  destruct p as [|a p]; cbn [glob].
  { rewrite eqb_true. split; [intros ->; constructor|by inversion 1]. }
  destruct (Ascii.eqb_spec a "*") as [->|Ha].
  - destruct p as [|b rest].
    + rewrite any_within_true. split.
      * intros (s & r & -> & Hs & Hf). apply gm_segment; [done|done|]. by eapply IH; [|done|exact Hf]; simpl; lia.
      * inversion 1; subst; [|done..]. exists s, t0. split_and!; [done..|]. eapply IH; [|done|done]; simpl; lia.
    + destruct (Ascii.eqb_spec b "*") as [->|Hb].
      * rewrite any_suffix_true. split.
        -- intros (s & r & -> & Hf). apply gm_any. by eapply IH; [|done|exact Hf]; simpl; lia.
        -- inversion 1 as [|s r t0 Hm|s r t0 _ Hne _| |]; subst; [|by destruct (Hne rest)|done].
           exists s, t0. split; [done|]. eapply IH; [|done|done]; simpl; lia.
      * rewrite any_within_true. split.
        -- intros (s & r & -> & Hs & Hf). apply gm_segment; [done|congruence|].
           by eapply IH; [|done|exact Hf]; simpl; lia.
        -- inversion 1 as [| |s r t0 Hs _ Hm| |]; subst; [done| |done].
           exists s, t0. split_and!; [done..|]. eapply IH; [|done|done]; simpl; lia.
  - destruct (Ascii.eqb_spec a "?") as [->|Hq]; destruct t as [|c t].
    + split; [done|]. by inversion 1.
    + rewrite andb_true_iff, negb_true_iff, Ascii.eqb_neq. split.
      * intros [Hc Hf]. apply gm_one; [done|]. by eapply IH; [|done|exact Hf]; simpl; lia.
      * inversion 1; subst; [|done]. split; [done|]. eapply IH; [|done|done]; simpl; lia.
    + split; [done|]. by inversion 1.
    + rewrite andb_true_iff, Ascii.eqb_eq. split.
      * intros [-> Hf]. apply gm_byte; [done..|]. by eapply IH; [|done|exact Hf]; simpl; lia.
      * inversion 1; subst; try done. split; [done|]. eapply IH; [|done|done]; simpl; lia.
Qed.
End PolicyFacts.

Module PolicyProps.
Import PolicyFacts.


Section Props.
Context {Uu : Uuid}.

(** One policy permits an action exactly when no rule about the agent denies
    it, and either none of those rules has an allow list or one allows it. *)
Definition permits (p : Policy) (agent : AgentRecord) (action : string) : Prop :=
  (∀ r pat, r ∈ po_rules p → covers r agent = true → pat ∈ ru_deny r → ¬ gmatch pat action) ∧
  ((∀ r, r ∈ po_rules p → covers r agent = true → ru_allow r = []) ∨
   ∃ r pat, r ∈ po_rules p ∧ covers r agent = true ∧ pat ∈ ru_allow r ∧ gmatch pat action).

Lemma any_matches_true pats action : any_matches pats action = true ↔ ∃ pat, pat ∈ pats ∧ gmatch pat action.
Proof.
  unfold any_matches. rewrite existsb_exists. setoid_rewrite <-list_elem_of_In.
  setoid_rewrite <-glob_gmatch. done.
Qed.

Lemma elem_of_filter_rules (f : Rule → bool) l r : r ∈ List.filter f l ↔ r ∈ l ∧ f r = true.
Proof. rewrite !list_elem_of_In. apply filter_In. Qed.

Lemma policy_check_permits p agent action :
  is_allowed (policy_check p agent action) = true ↔ permits p agent action.
Proof.
  unfold policy_check, permits. set (cov := List.filter (λ r, covers r agent) (po_rules p)).
  assert (∀ r, r ∈ cov ↔ r ∈ po_rules p ∧ covers r agent = true) as Hcov by (intros r; apply elem_of_filter_rules).
  destruct (List.find _ cov) as [r|] eqn:Ef.
  { apply List.find_some in Ef as [Hr Hd]. apply list_elem_of_In, Hcov in Hr as [Hr Hc].
    apply any_matches_true in Hd as (pat & Hpat & Hm). split; [done|]. intros [Hno _]. by destruct (Hno r pat). }
  assert (∀ r pat, r ∈ po_rules p → covers r agent = true → pat ∈ ru_deny r → ¬ gmatch pat action) as Hno.
  { intros r pat Hr Hc Hpat Hm. assert (r ∈ cov) as Hin by by apply Hcov.
    apply list_elem_of_In in Hin. pose proof (List.find_none _ _ Ef r Hin) as Hf. cbn beta in Hf.
    rewrite (proj2 (any_matches_true _ _)) in Hf; [done|eauto]. }
  destruct (List.filter _ cov) as [|first rest] eqn:Ew.
  { split; [|done]. intros _. split; [done|]. left. intros r Hr Hc. destruct (ru_allow r) eqn:Ea; [done|].
    assert (r ∈ List.filter (λ r, negb (length (ru_allow r) =? 0)%nat) cov) as Hin.
    { apply elem_of_filter_rules. split; [by apply Hcov|]. by rewrite Ea. }
    rewrite Ew in Hin. by apply not_elem_of_nil in Hin. }
  rewrite <-Ew in *. set (wl := List.filter _ cov) in *.
  assert (first ∈ wl) as Hfirst by (rewrite Ew; left).
  apply elem_of_filter_rules in Hfirst as [[Hfr Hfc]%Hcov Hfa].
  assert (existsb (λ r, any_matches (ru_allow r) action) wl = true ↔
          ∃ r pat, r ∈ po_rules p ∧ covers r agent = true ∧ pat ∈ ru_allow r ∧ gmatch pat action) as Hex.
  { rewrite existsb_exists. setoid_rewrite <-list_elem_of_In. setoid_rewrite any_matches_true. split.
    - intros (r & Hr & pat & Hpat & Hm). apply elem_of_filter_rules in Hr as [[? ?]%Hcov _]. by exists r, pat.
    - intros (r & pat & Hr & Hc & Hpat & Hm). exists r. split; [|by exists pat].
      apply elem_of_filter_rules. split; [by apply Hcov|]. destruct (ru_allow r); [by apply not_elem_of_nil in Hpat|done]. }
  destruct (existsb _ wl) eqn:Ex; simpl.
  - split; [|done]. intros _. split; [done|]. right. by apply Hex.
  - split; [done|]. intros [_ [Hall|Hsome]]; [|by apply Hex in Hsome].
    rewrite (Hall first Hfr Hfc) in Hfa. done.
Qed.

(** A project narrows what the host permits and never widens it: an action is
    allowed exactly when both files permit it; a quota is the smaller of the
    two; and a sender's word is treated by the stricter of the two. *)
Theorem project_only_narrows (host : Policy) (project : option Policy) (agent : AgentRecord)
    (action quota : string) :
  (is_allowed (check host project agent action) = true ↔
   permits host agent action ∧ ∀ p, project = Some p → permits p agent action) ∧
  (∀ n, capacity host project quota = Some n ↔
     (policy_capacity host quota = Some n ∨ ∃ p, project = Some p ∧ policy_capacity p quota = Some n) ∧
     (∀ h, policy_capacity host quota = Some h → (n ≤ h)%Z) ∧
     (∀ p h, project = Some p → policy_capacity p quota = Some h → (n ≤ h)%Z)) ∧
  (let strictness o := match o with Some r => trust_rank (ir_trust r) | None => 0%Z end in
   trust_rank (ir_trust (inbound host project agent)) =
   Z.max (strictness (policy_inbound host agent))
         (strictness (match project with Some p => policy_inbound p agent | None => None end))).
Proof.
  split_and!.
  - rewrite <-(policy_check_permits host). unfold check.
    destruct (policy_check host agent action) as [|rule reason]; simpl; [|by split; [|intros [? _]]].
    destruct project as [p|]; [|by split]. split.
    + intros H. split; [done|]. intros p' [= <-]. apply policy_check_permits.
      by destruct (policy_check p agent action).
    + intros [_ H]. specialize (H p eq_refl). apply policy_check_permits in H.
      by destruct (policy_check p agent action).
  - intros n. unfold capacity. destruct (policy_capacity host quota) as [h|] eqn:Eh, project as [p|]; simpl;
      [destruct (policy_capacity p quota) as [k|] eqn:Ek| |destruct (policy_capacity p quota) as [k|] eqn:Ek|].
    all: split; [intros Hn; simplify_eq|intros ([Hn|(p' & Hp & Hn)] & Hle & Hle')]; simplify_eq/=.
    all: try (split_and!; [|intros; simplify_eq; lia|intros; simplify_eq; lia]).
    all: try (pose proof (Hle _ eq_refl)); try (pose proof (Hle' _ _ eq_refl Ek)).
    all: try (f_equal; lia); try by left.
    + destruct (Z.min_spec h k) as [[? ->]|[? ->]]; [by left|]. right. by exists p.
    + right. by exists p.
  - cbv zeta. unfold inbound.
    destruct (policy_inbound host agent) as [[ht hr]|], project as [p|]; simpl;
      try destruct (policy_inbound p agent) as [[pt pr]|]; simpl; try done.
    all: try (destruct ht); try (destruct pt); try done.
Qed.
End Props.
End PolicyProps.
