(* ===== verification/Search.v ===== *)
(** * Finding cards by words, and tags

    The model of [crates/core/src/search.rs] and [crates/core/src/tag.rs]: how
    well a card answers a query, the bounded edit distance behind it, the
    ranking, and the tags of a project. *)

From Stdlib Require Import Ascii.
From S2P Require Import Prelude RustStr Order Board Task.

Local Open Scope rust_scope.

(** ** The edit distance *)

Section Distance.
Context (a b : list string) (bound : nat).

Definition at_ (l : list string) (i : nat) : string := nth i l ""%string.

(** One cell of the table, from the row before, the one before that, and the
    cells of this row to its left. *)
Definition cell (previous before current : list nat) (i j : nat) : nat :=
  let cost := if at_ a (i - 1) == at_ b (j - 1) then 0 else 1 in
  let best := Nat.min (Nat.min (nth j previous 0 + 1) (nth (j - 1) current 0 + 1))
                (nth (j - 1) previous 0 + cost) in
  if (1 <? i) && (1 <? j) && (at_ a (i - 1) == at_ b (j - 2)) && (at_ a (i - 2) == at_ b (j - 1))
  then Nat.min best (nth (j - 2) before 0 + 1) else best.

Fixpoint fill_row (previous before : list nat) (i : nat) (js : list nat) (current : list nat) : list nat :=
  match js with
  | [] => current
  | j :: js' => fill_row previous before i js' (<[j := cell previous before current i j]> current)
  end.

Definition row (previous before : list nat) (i : nat) : list nat :=
  fill_row previous before i (seq 1 (length b)) (replicate (length b + 1) i).

(** The rows, giving up when a whole row is past the bound. *)
Fixpoint rows (is_ : list nat) (previous before : list nat) : nat :=
  match is_ with
  | [] => nth (length b) previous 0
  | i :: is' =>
      let current := row previous before i in
      if forallb (λ m, bound <? m) current then bound + 1
      else rows is' current previous
  end.

Definition distance_chars : nat :=
  if bound <? Nat.max (length a - length b) (length b - length a) then bound + 1
  else rows (seq 1 (length a)) (seq 0 (length b + 1)) (replicate (length b + 1) 0).
End Distance.

Definition distance (a b : string) (bound : nat) : nat := distance_chars (chars a) (chars b) bound.

(** ** How well a card answers *)

Definition SLIP_MIN : nat := 4.
Definition TWO_SLIPS_MIN : nat := 8.

Definition matched (asked word : string) : option Z :=
  if asked == word then Some 10%Z
  else if starts_with word asked && (2 <=? chars_count asked) then Some 7%Z
  else
    let asked_len := chars_count asked in
    if SLIP_MIN <=? asked_len then
      let slips := distance asked word 2 in
      if slips =? 1 then Some 5%Z
      else if (slips =? 2) && (TWO_SLIPS_MIN <=? asked_len) then Some 3%Z
      else if (3 <=? asked_len) && contains_str asked word then Some 4%Z
      else None
    else if (3 <=? asked_len) && contains_str asked word then Some 4%Z
    else None.

(** [ad-12]: letters, a dash, digits. *)
Definition key_shaped (query : string) : bool :=
  is_some_and (λ pn, (pn.1 != ""%string) && sforall is_ascii_alphabetic pn.1
                     && (pn.2 != ""%string) && sforall is_ascii_digit pn.2) (split_once "-" query).

Section Score.
Context {U : Unicode}.

Definition search_char (c : string) : bool := is_alphanumeric c || (c == "-")%string || (c == "_")%string.

(** [text.split(f).filter(|w| !w.is_empty())] over characters. *)
Fixpoint split_words (cur : string) (cs : list string) : list string :=
  match cs with
  | [] => if cur == ""%string then [] else [cur]
  | c :: cs' =>
      if search_char c then split_words (cur +:+ c) cs'
      else app (if cur == ""%string then [] else [cur]) (split_words "" cs')
  end.

Definition words (text : string) : list string := to_lowercase <$> split_words "" (chars text).

Definition weighted (weight : Z) (text : string) : list (string * Z) := (λ w, (w, weight)) <$> words text.

Definition card_words (t : Task) : list (string * Z) :=
  app (weighted 6 (t_title t)) (app (weighted 1 (t_description t)) (app (weighted 1 (t_acceptance t))
    (app (weighted 1 (t_external_blocker t)) (app (weighted 4 (t_key t))
      ((λ g, (to_lowercase g, 3%Z)) <$> t_tags t))))).

(** [Iterator::max] on an optional maximum. *)
Definition max_Z (l : list Z) : option Z :=
  foldl (λ best x, Some (match best with Some b => Z.max b x | None => x end)) None l.

Definition best_match (ws : list (string * Z)) (asked : string) : option Z :=
  max_Z (omap (λ wn, (λ m, (m * wn.2)%Z) <$> matched asked wn.1) ws).

Fixpoint total_score (ws : list (string * Z)) (asked : list string) : option Z :=
  match asked with
  | [] => Some 0%Z
  | w :: rest =>
      match best_match ws w, total_score ws rest with
      | Some b, Some t => Some (b + t)%Z
      | _, _ => None
      end
  end.

Definition score (query : string) (t : Task) : option Z :=
  let query := to_lowercase (trim query) in
  if query == ""%string then None
  else if (t_key t != ""%string) && (to_lowercase (t_key t) == query) then Some 10000%Z
  else if t_id t == query then Some 10000%Z
  else if key_shaped query then None
  else total_score (card_words t) (words query).

(** Best first; among equals open cards before ended ones, then the most
    recently changed. *)
Definition rank_key (st : Z * Task) : Reverse Z * (bool * (Reverse Z * string)) :=
  (Rev st.1, (terminal (t_column st.2), (Rev (t_updated_at st.2), t_id st.2))).

Definition found (query : string) (ts : list Task) : list (Z * Task) :=
  omap (λ t, (λ s, (s, t)) <$> score query t) ts.

Definition rank (query : string) (ts : list Task) (limit : nat) : list Task :=
  (take limit (sort_by_key rank_key (found query ts))).*2.

(** ** Tags *)

Definition TAGS_PER_PROJECT : nat := 200.

Inductive TagColor := TGray | TRed | TOrange | TYellow | TGreen | TTeal | TBlue | TPurple.

Global Instance TagColor_eq_dec : EqDecision TagColor.
Proof. solve_decision. Defined.

Definition TagColor_ALL : list TagColor := [TGray; TRed; TOrange; TYellow; TGreen; TTeal; TBlue; TPurple].

Definition tag_color_as_str (c : TagColor) : string :=
  match c with
  | TGray => "gray" | TRed => "red" | TOrange => "orange" | TYellow => "yellow"
  | TGreen => "green" | TTeal => "teal" | TBlue => "blue" | TPurple => "purple"
  end.

Definition tag_color_parse (text : string) : option TagColor :=
  List.find (λ c, tag_color_as_str c == to_lowercase (trim text)) TagColor_ALL.

Definition tag_color_after (count : nat) : TagColor :=
  nth (1 + count `mod` (length TagColor_ALL - 1)) TagColor_ALL TGray.

Record Tag := mkTag {
  tg_project : string;
  tg_name : string;
  tg_color : TagColor;
  tg_created_by : string;
  tg_created_at : instant;
  tg_updated_at : instant;
}.

Definition tag_id (project name : string) : string := project +:+ ":" +:+ name.

Definition tag_valid (name : string) : bool :=
  (name != ""%string) && (chars_count name <=? TAG_CHARS)
  && forallb (λ c, is_alphanumeric c || (c == "-")%string || (c == "_")%string || (c == ".")%string) (chars name).

Definition tag_unknown (wanted : list string) (catalog : list Tag) : list string :=
  List.filter (λ t, negb (existsb (λ c, tg_name c == t) catalog)) wanted.
End Score.

Module SearchFacts.

(** [n] slips turn one word into the other: a letter put in, left out or
    changed, or two neighbours swapped. *)
Inductive edits : list string → list string → nat → Prop :=
| ed_nil : edits [] [] 0
| ed_keep a b x n : edits a b n → edits (app a [x]) (app b [x]) n
| ed_change a b x y n : edits a b n → edits (app a [x]) (app b [y]) (n + 1)
| ed_drop a b x n : edits a b n → edits (app a [x]) b (n + 1)
| ed_insert a b y n : edits a b n → edits a (app b [y]) (n + 1)
| ed_swap a b x y n : edits a b n → edits (app a [x; y]) (app b [y; x]) (n + 1).

(** The least number of slips. *)
Definition dist (a b : list string) (n : nat) : Prop :=
  edits a b n ∧ ∀ m, edits a b m → n ≤ m.

Lemma edits_length a b n : edits a b n → length a ≤ length b + n ∧ length b ≤ length a + n.
Proof. induction 1; rewrite ?length_app in *; simpl in *; lia. Qed.

Lemma dist_nil_l b : dist [] b (length b).
Proof.
  split; [|intros m H%edits_length; simpl in *; lia].
  induction b as [|y b IH] using rev_ind; [constructor|]. rewrite length_app. by apply ed_insert.
Qed.

Lemma dist_nil_r a : dist a [] (length a).
Proof.
  split; [|intros m H%edits_length; simpl in *; lia].
  induction a as [|x a IH] using rev_ind; [constructor|]. rewrite length_app. by apply ed_drop.
Qed.

(** Every way through a word passes through each of its prefixes at no higher
    cost: what makes giving up on a row sound, swaps included. *)
Lemma edits_prefix a b n a1 a2 :
  edits a b n → a = app a1 a2 → ∃ b1 b2 n1, b = app b1 b2 ∧ edits a1 b1 n1 ∧ n1 ≤ n.
Proof.
  intros H. revert a1 a2. induction H as [|a b x n H IH|a b x y n H IH|a b x n H IH|a b y n H IH|a b x y n H IH];
    intros a1 a2 Heq.
  - symmetry in Heq. apply app_eq_nil in Heq as [-> ->]. exists [], [], 0. repeat split; [constructor|lia].
  - destruct a2 as [|z a2 _] using rev_ind.
    + rewrite app_nil_r in Heq. subst. exists (app b [x]), [], n. rewrite app_nil_r. split_and!; [done|by constructor|lia].
    + rewrite app_assoc in Heq. apply app_inj_tail in Heq as [-> ->].
      destruct (IH a1 a2 eq_refl) as (b1 & b2 & n1 & -> & ? & ?). exists b1, (app b2 [z]), n1.
      rewrite <-app_assoc. split_and!; [done|done|lia].
  - destruct a2 as [|z a2 _] using rev_ind.
    + rewrite app_nil_r in Heq. subst. exists (app b [y]), [], (n + 1). rewrite app_nil_r. split_and!; [done|by constructor|lia].
    + rewrite app_assoc in Heq. apply app_inj_tail in Heq as [-> ->].
      destruct (IH a1 a2 eq_refl) as (b1 & b2 & n1 & -> & ? & ?). exists b1, (app b2 [y]), n1.
      rewrite <-app_assoc. split_and!; [done|done|lia].
  - destruct a2 as [|z a2 _] using rev_ind.
    + rewrite app_nil_r in Heq. subst. exists b, [], (n + 1). rewrite app_nil_r. split_and!; [done|by constructor|lia].
    + rewrite app_assoc in Heq. apply app_inj_tail in Heq as [-> ->].
      destruct (IH a1 a2 eq_refl) as (b1 & b2 & n1 & -> & ? & ?). exists b1, b2, n1. split_and!; [done|done|lia].
  - destruct (IH a1 a2 Heq) as (b1 & b2 & n1 & -> & ? & ?). exists b1, (app b2 [y]), n1.
    rewrite <-app_assoc. split_and!; [done|done|lia].
  - destruct a2 as [|z a2 _] using rev_ind.
    { rewrite app_nil_r in Heq. subst. exists (app b [y; x]), [], (n + 1). rewrite app_nil_r.
      split_and!; [done|by constructor|lia]. }
    rewrite app_assoc in Heq. change [x; y] with (app [x] [y]) in Heq. rewrite app_assoc in Heq.
    apply app_inj_tail in Heq as [Heq ->]. destruct a2 as [|w a2 _] using rev_ind.
    + rewrite app_nil_r in Heq. subst. exists b, [z; x], (n + 1). split_and!; [done|by constructor|lia].
    + rewrite app_assoc in Heq. apply app_inj_tail in Heq as [-> ->].
      destruct (IH a1 a2 eq_refl) as (b1 & b2 & n1 & -> & ? & ?). exists b1, (app b2 [z; w]), n1.
      rewrite <-app_assoc. split_and!; [done|done|lia].
Qed.

(** The recurrence of the table. *)
Lemma edits_snoc_inv a b x y n :
  edits (app a [x]) (app b [y]) n →
  (x = y ∧ edits a b n) ∨ (∃ m, n = m + 1 ∧ edits a b m) ∨
  (∃ m, n = m + 1 ∧ edits a (app b [y]) m) ∨ (∃ m, n = m + 1 ∧ edits (app a [x]) b m) ∨
  (∃ a' b' m, n = m + 1 ∧ a = app a' [y] ∧ b = app b' [x] ∧ edits a' b' m).
Proof.
  remember (app a [x]) as a0 eqn:Ha. remember (app b [y]) as b0 eqn:Hb. intros H.
  destruct H as [|a1 b1 z n H|a1 b1 z w n H|a1 b1 z n H|a1 b1 w n H|a1 b1 z w n H].
  - by destruct a.
  - apply app_inj_tail in Ha as [-> ->]. apply app_inj_tail in Hb as [-> <-]. by left.
  - apply app_inj_tail in Ha as [-> ->]. apply app_inj_tail in Hb as [-> ->]. right. left. by exists n.
  - apply app_inj_tail in Ha as [-> ->]. subst. right. right. left. by exists n.
  - apply app_inj_tail in Hb as [-> ->]. subst. right. right. right. left. by exists n.
  - change [z; w] with (app [z] [w]) in Ha. change [w; z] with (app [w] [z]) in Hb. rewrite app_assoc in Ha, Hb.
    apply app_inj_tail in Ha as [<- <-]. apply app_inj_tail in Hb as [<- <-].
    right. right. right. right. by exists a1, b1, n.
Qed.

Section Table.
Context (a b : list string).

Lemma take_snoc (l : list string) i : i < length l → take (S i) l = app (take i l) [at_ l i].
Proof.
  intros Hi. unfold at_. destruct (lookup_lt_is_Some_2 l i Hi) as [x Hx].
  rewrite (take_S_r l i x Hx). by rewrite (nth_lookup_Some l i "" x Hx).
Qed.

Definition good (i j n : nat) : Prop := dist (take i a) (take j b) n.
Definition good_row (i : nat) (r : list nat) : Prop :=
  length r = length b + 1 ∧ ∀ j, j ≤ length b → good i j (nth j r 0).

Lemma good_le i j n m : good i j n → edits (take i a) (take j b) m → n ≤ m.
Proof. intros [_ H]. apply H. Qed.

Lemma cell_edits previous before current i j :
  i < length a → j < length b → good_row i previous → (1 ≤ i → good_row (i - 1) before) →
  good (S i) j (nth j current 0) →
  edits (take (S i) a) (take (S j) b) (cell a b previous before current (S i) (S j)).
Proof.
  intros Hi Hj [_ Hp] Hb Hc. unfold cell.
  replace (S i - 1) with i by lia. replace (S j - 1) with j by lia.
  assert (edits (take (S i) a) (take (S j) b) (nth (S j) previous 0 + 1)) as E1.
  { rewrite (take_snoc a i) by done. apply ed_drop, Hp. lia. }
  assert (edits (take (S i) a) (take (S j) b) (nth j current 0 + 1)) as E2.
  { rewrite (take_snoc b j) by done. apply ed_insert, Hc. }
  assert (edits (take (S i) a) (take (S j) b)
            (nth j previous 0 + (if at_ a i == at_ b j then 0 else 1))) as E3.
  { rewrite (take_snoc a i), (take_snoc b j) by done. destruct (at_ a i == at_ b j) eqn:E.
    - split_and_bool. rewrite E, Nat.add_0_r. apply ed_keep, Hp. lia.
    - apply ed_change, Hp. lia. }
  assert (∀ x y, edits (take (S i) a) (take (S j) b) x → edits (take (S i) a) (take (S j) b) y →
            edits (take (S i) a) (take (S j) b) (Nat.min x y)) as Hmin.
  { intros x y Hx Hy. by destruct (Nat.min_spec x y) as [[_ ->]|[_ ->]]. }
  destruct (_ && _) eqn:Es; [|auto]. split_and_bool. apply Nat.ltb_lt in H. apply Nat.ltb_lt in H2.
  apply Hmin; [auto|]. replace (S i - 2) with (i - 1) in * by lia. replace (S j - 2) with (j - 1) in * by lia.
  rewrite (take_snoc a i), (take_snoc b j) by done.
  replace (take i a) with (app (take (i - 1) a) [at_ a (i - 1)])
    by (rewrite <-take_snoc by lia; f_equal; lia).
  replace (take j b) with (app (take (j - 1) b) [at_ b (j - 1)])
    by (rewrite <-take_snoc by lia; f_equal; lia).
  rewrite <-!app_assoc. simpl. rewrite H0, H1. apply ed_swap. apply Hb; lia.
Qed.

Lemma cell_least previous before current i j m :
  i < length a → j < length b → good_row i previous → (1 ≤ i → good_row (i - 1) before) →
  good (S i) j (nth j current 0) →
  edits (take (S i) a) (take (S j) b) m → cell a b previous before current (S i) (S j) ≤ m.
Proof.
  intros Hi Hj [_ Hp] Hb Hc Hm. unfold cell.
  replace (S i - 1) with i by lia. replace (S j - 1) with j by lia.
  set (cost := if at_ a i == at_ b j then 0 else 1).
  set (best := Nat.min (Nat.min (nth (S j) previous 0 + 1) (nth j current 0 + 1)) (nth j previous 0 + cost)).
  assert (∀ n, (if (1 <? S i) && (1 <? S j) && (at_ a i == at_ b (S j - 2)) && (at_ a (S i - 2) == at_ b j)
                then Nat.min best n else best) ≤ best) as Hbest by (intros n; destruct (_ && _); lia).
  pose proof Hm as Hm'. rewrite (take_snoc a i), (take_snoc b j) in Hm' by done.
  apply edits_snoc_inv in Hm' as [[Heq H]|[(m' & -> & H)|[(m' & -> & H)|[(m' & -> & H)|(a' & b' & m' & -> & Ha & Hb' & H)]]]].
  - etrans; [apply Hbest|]. unfold best, cost. rewrite Heq, eqb_refl.
    pose proof (good_le _ _ _ _ (Hp j ltac:(lia)) H). lia.
  - etrans; [apply Hbest|]. unfold best. pose proof (good_le _ _ _ _ (Hp j ltac:(lia)) H).
    assert (cost ≤ 1) by (unfold cost; destruct (_ == _); lia). lia.
  - etrans; [apply Hbest|]. unfold best. rewrite <-take_snoc in H by done.
    pose proof (good_le _ _ _ _ (Hp (S j) ltac:(lia)) H). lia.
  - etrans; [apply Hbest|]. unfold best. rewrite <-take_snoc in H by done.
    pose proof (good_le _ _ _ _ Hc H). lia.
  - assert (1 ≤ i) as Hi1 by (destruct i; [by destruct a'|lia]).
    assert (1 ≤ j) as Hj1 by (destruct j; [by destruct b'|lia]).
    replace i with (S (i - 1)) in Ha by lia. replace j with (S (j - 1)) in Hb' by lia.
    rewrite take_snoc in Ha, Hb' by lia. apply app_inj_tail in Ha as [<- Hx]. apply app_inj_tail in Hb' as [<- Hy].
    replace (S i - 2) with (i - 1) by lia. replace (S j - 2) with (j - 1) by lia.
    replace (S (i - 1)) with i in * by lia. replace (S (j - 1)) with j in * by lia.
    rewrite Hx, Hy, !eqb_refl. replace (1 <? S i) with true by (symmetry; apply Nat.ltb_lt; lia).
    replace (1 <? S j) with true by (symmetry; apply Nat.ltb_lt; lia). simpl.
    destruct (Hb Hi1) as [_ Hb2]. pose proof (good_le _ _ _ _ (Hb2 (j - 1) ltac:(lia)) H). lia.
Qed.

(** The cells left of [j] are right; filling goes on from there. *)
Lemma fill_row_good previous before i k j current :
  i < length a → good_row i previous → (1 ≤ i → good_row (i - 1) before) →
  length current = length b + 1 → 1 ≤ j → j + k = length b + 1 →
  (∀ j', j' < j → good (S i) j' (nth j' current 0)) →
  good_row (S i) (fill_row a b previous before (S i) (seq j k) current).
Proof.
  intros Hi Hp Hb. revert j current. induction k as [|k IH]; intros j current Hl Hj1 Hjk Hc; simpl.
  { split; [done|]. intros j' Hj'. apply Hc. lia. }
  apply IH; [by rewrite length_insert|lia|lia|]. intros j' Hj'.
  assert (∀ n v, nth n (<[j:=v]> current) 0 = if decide (n = j) then v else nth n current 0) as Hnth.
  { intros n v. rewrite !nth_lookup, list_lookup_insert. destruct (decide (n = j)) as [->|Hne].
    - rewrite decide_True by lia. done.
    - by rewrite decide_False by (intros [? _]; congruence). }
  rewrite Hnth. destruct (decide (j' = j)) as [->|Hne]; [|apply Hc; lia].
  destruct j as [|j]; [lia|]. split.
  - apply cell_edits; [done|lia|done|done|]. apply Hc. lia.
  - intros m. apply cell_least; [done|lia|done|done|]. apply Hc. lia.
Qed.

Lemma row_good previous before i :
  i < length a → good_row i previous → (1 ≤ i → good_row (i - 1) before) →
  good_row (S i) (row a b previous before (S i)).
Proof.
  intros Hi Hp Hb. unfold row. apply fill_row_good; [done|done|done|apply length_replicate|lia|lia|].
  intros j' Hj'. replace j' with 0 by lia. rewrite Nat.add_comm. simpl. unfold good. rewrite take_0.
  replace (S i) with (length (take (S i) a)) at 2 by (rewrite length_take; lia). apply dist_nil_r.
Qed.

(** The rows from one that is right give the distance, or past the bound when
    every way is past the bound. *)
Lemma rows_ok bound k i previous before :
  i + k = length a → good_row i previous → (1 ≤ i → good_row (i - 1) before) →
  let r := rows a b bound (seq (S i) k) previous before in
  dist a b r ∨ (bound < r ∧ ∀ n, edits a b n → bound < n).
Proof.
  revert i previous before. induction k as [|k IH]; intros i previous before Hk Hp Hb; simpl.
  { left. destruct Hp as [_ Hp]. specialize (Hp (length b) ltac:(lia)). unfold good in Hp.
    by rewrite take_ge, take_ge in Hp by lia. }
  assert (good_row (S i) (row a b previous before (S i))) as Hr by (apply row_good; [lia|done..]).
  destruct (forallb _ _) eqn:Eall.
  - right. split; [lia|]. intros n Hn.
    destruct (edits_prefix _ _ _ (take (S i) a) (drop (S i) a) Hn) as (b1 & b2 & n1 & Hbb & H1 & Hle).
    { by rewrite take_drop. }
    enough (bound < n1) by lia. rewrite forallb_forall in Eall. destruct Hr as [Hl Hr].
    assert (length b1 ≤ length b) as Hlb by (rewrite Hbb, length_app; lia).
    specialize (Hr (length b1) Hlb). unfold good in Hr.
    assert (take (length b1) b = b1) as Htk by (rewrite Hbb; apply take_app_length). rewrite Htk in Hr.
    destruct Hr as [_ Hr]. specialize (Hr n1 H1).
    specialize (Eall (nth (length b1) (row a b previous before (S i)) 0)).
    apply Nat.ltb_lt in Eall; [lia|]. apply nth_In. lia.
  - apply IH; [lia|done|]. intros _. by replace (S i - 1) with i by lia.
Qed.

Lemma first_row_good : good_row 0 (seq 0 (length b + 1)).
Proof.
  split; [apply length_seq|]. intros j Hj. rewrite seq_nth by lia. unfold good. rewrite take_0.
  replace (0 + j) with (length (take j b)) by (rewrite length_take; lia). apply dist_nil_l.
Qed.
End Table.

End SearchFacts.

Module SearchProps.
Import SearchFacts.

(** C25: Within its bound the distance is the least number of slips (a letter put
    in, left out or changed, or two neighbours swapped); past the bound, and
    only then, it answers past the bound. Neither giving up on a row nor on
    the lengths changes an answer within the bound. *)
Theorem bounded_distance_exact (a b : string) (bound n : nat) (Hn : n ≤ bound) :
  distance a b bound = n ↔ dist (chars a) (chars b) n.
Proof.
  assert (dist (chars a) (chars b) (distance a b bound) ∨
          (bound < distance a b bound ∧ ∀ m, edits (chars a) (chars b) m → bound < m)) as H.
  { unfold distance, distance_chars. destruct (_ <? _) eqn:E.
    - right. apply Nat.ltb_lt in E. split; [lia|]. intros m Hm%edits_length. lia.
    - apply (rows_ok (chars a) (chars b) bound (length (chars a)) 0); [lia|apply first_row_good|lia]. }
  split.
  - intros <-. destruct H as [H|[? _]]; [done|lia].
  - intros [Hd Hl]. destruct H as [[Hd' Hl']|[_ Hall]]; [|specialize (Hall n Hd); lia].
    apply Nat.le_antisymm; auto.
Qed.

Section Rank.
Context {U : Unicode}.

(** A search answers with the best cards: the same ones whatever order the
    cards came in, at most [limit], each of which matches, and no card left
    out ranks before one that is in. *)
Theorem rank_order_independent (query : string) (ts ts' : list Task) (limit : nat)
    (Hp : ts ≡ₚ ts') (Hid : NoDup (t_id <$> ts)) :
  rank query ts limit = rank query ts' limit ∧
  length (rank query ts limit) = Nat.min limit (length (found query ts)) ∧
  ∀ t, t ∈ rank query ts limit → t ∈ ts ∧ is_Some (score query t).
Proof.
  assert (∀ st, st ∈ found query ts → st.2 ∈ ts ∧ score query st.2 = Some st.1) as Hf.
  { intros [s t]. unfold found. rewrite list_elem_of_omap. intros (t' & Ht' & Hs).
    destruct (score query t') eqn:E; [|done]. simpl in Hs. injection Hs as -> ->. done. }
  split_and!.
  - unfold rank. f_equal. f_equal. apply sort_by_key_order_independent.
    + unfold found. by rewrite Hp.
    + intros [s t] [s' t'] Hx Hy [= Hs _ _ Hi]. apply Hf in Hx as [Hx _]. apply Hf in Hy as [Hy _].
      simpl in *. subst. f_equal. by apply (NoDup_fmap_inj_elem t_id ts).
  - unfold rank. rewrite length_fmap, length_take. unfold sort_by_key. by rewrite length_sort_by.
  - intros t ([s t'] & -> & Hin)%list_elem_of_fmap.
    apply elem_of_take in Hin as (i & Hin%list_elem_of_lookup_2 & _).
    apply elem_of_sort_by_key, Hf in Hin as [? ?]. simpl in *. by eauto.
Qed.
End Rank.

Lemma bounded_distance_exact_witness :
  distance "reveiw" "review" 2 = 1 ∧ dist (chars "reveiw") (chars "review") 1.
Proof.
  assert (distance "reveiw" "review" 2 = 1) as H by (vm_compute; reflexivity).
  split; [exact H|]. apply (bounded_distance_exact "reveiw" "review" 2 1); [lia|exact H].
Defined.
End SearchProps.
