(* ===== verification/Rules.v ===== *)
(** * Board rules and roles

    The model of [crates/core/src/rule.rs] (when a rule of a board acts on a
    card), of what the daemon does with a card when it does
    ([apply_rule] and the choice of [sweep_rules] in
    [crates/agentd/src/daemon/tasks/rules.rs]), and of
    [crates/core/src/role.rs] (the roles of a project and the tools they
    offer). *)

From Stdlib Require Import Ascii.
From stdpp Require Import pretty.
From S2P Require Import Prelude RustStr Order Board Task Agent.

Local Open Scope rust_scope.
Local Open Scope string_scope.

(** ** Rules *)

Module BoardRules.

Definition RULES_MAX : nat := 32.
Definition IDLE_DAYS_MAX : Z := 365.
Definition START_MAX : Z := 8.
Definition START_ARGS_MAX : nat := 32.

Inductive Trigger :=
| Enter (lane : string)
| IdleFor (lane : string) (days : Z).

Definition trigger_lane (t : Trigger) : string := match t with Enter l => l | IdleFor l _ => l end.

Inductive RuleAction :=
| ActComment (text : string)
| ActMove (lane : string)
| ActArchive
| ActStart (runtime : string) (args : list string) (max : Z).

Record BoardRule := mkBoardRule {
  br_id : string;
  br_project : string;
  br_board : string;
  br_name : string;
  br_trigger : Trigger;
  br_action : RuleAction;
  br_enabled : bool;
  br_created_by : string;
  br_created_at : instant;
  br_updated_at : instant;
}.

Definition no_lane (b : Board) (asked : string) : BoardError := NoLane asked (slug <$> lanes b).

Definition check_action (a : RuleAction) (l : Lane) (b : Board) : result unit BoardError :=
  match a with
  | ActComment text =>
      let count := chars_count (trim text) in
      if (count =? 0)%nat || (COMMENT_CHARS <? count)%nat
      then Err (BInvalid "a rule's comment is one to 4000 characters") else Ok ()
  | ActMove to =>
      match lane b to with
      | None => Err (no_lane b to)
      | Some to => if slug to == slug l then Err (BInvalid "a rule moves a card to another lane") else Ok ()
      end
  | ActArchive => Ok ()
  | ActStart runtime args max =>
      if (trim runtime == "")
         || negb (sforall (λ c, is_ascii_alphanumeric c || Ascii.eqb c "-" || Ascii.eqb c "_") runtime)
      then Err (BInvalid "a rule starts a runtime by its name, as `runtimes` lists it")
      else if (START_ARGS_MAX <? length args)%nat || existsb (λ a, (4096 <? byte_len a)%Z) args
      then Err (BInvalid "a rule's agent takes at most 32 arguments")
      else if negb ((1 <=? max)%Z && (max <=? START_MAX)%Z)
      then Err (BInvalid "a rule runs one to eight agents at once")
      else if terminal (category l)
      then Err (BInvalid "a rule starts agents on cards still to do, not on ended ones")
      else Ok ()
  end.

Definition rule_check (r : BoardRule) (b : Board) : result unit BoardError :=
  let name := trim (br_name r) in
  if (name == "") || (Board.NAME_CHARS <? chars_count name)%nat
  then Err (BInvalid "a rule's name is one to forty characters")
  else match lane b (trigger_lane (br_trigger r)) with
  | None => Err (no_lane b (trigger_lane (br_trigger r)))
  | Some l =>
      match br_trigger r with
      | IdleFor _ days =>
          if negb ((1 <=? days)%Z && (days <=? IDLE_DAYS_MAX)%Z)
          then Err (BInvalid "an idle rule waits one to 365 days")
          else check_action (br_action r) l b
      | Enter _ => check_action (br_action r) l b
      end
  end.

Definition rule_new (fresh project : string) (b : Board) (name : string) (trigger : Trigger)
    (action : RuleAction) (created_by : string) (now : instant) : result BoardRule BoardError :=
  let r := mkBoardRule fresh project (b_slug b) (trim name) trigger action true created_by now now in
  let? _ := rule_check r b in Ok r.

Definition on_board (r : BoardRule) (t : Task) : bool := unwrap_or MAIN (t_board t) == br_board r.

Definition days (n : Z) : duration := hours (n * 24).

Definition on_enter (r : BoardRule) (t : Task) (l : string) : bool :=
  br_enabled r && is_none (t_archived_at t) && on_board r t
  && match br_trigger r with Enter l' => l' == l | _ => false end
  && negb (existsb (eqb (br_id r)) (t_fired t)).

Definition idle_due (r : BoardRule) (t : Task) (l : string) (now : instant) : bool :=
  match br_trigger r with
  | IdleFor l' n =>
      br_enabled r && is_none (t_archived_at t) && on_board r t && (l' == l)
      && negb (existsb (eqb (br_id r)) (t_fired t))
      && (days n <=? now - in_lane_since t)%Z
  | Enter _ => false
  end.

Definition startable (t : Task) (open_blocker : string → bool) : bool :=
  is_none (t_assignee t) && is_none (t_archived_at t)
  && match t_column t with Done | Cancelled => false | _ => true end
  && (trim (t_external_blocker t) == "") && negb (existsb open_blocker (t_blocked_by t)).

(** *** What the daemon does with a card *)

Definition SWEEP_ACTIONS : nat := 50.
Definition rule_author (r : BoardRule) : string := "rule:" ++ br_name r.

(** Why an action fails: the board has no such lane, or the card refuses. *)
Inductive RuleError :=
| OfBoard (e : BoardError)
| OfTask (e : TaskError).

(** The card changes, the daemon is to start an agent on it, or nothing. *)
Inductive Acted :=
| Changed (t : Task)
| ToStart
| NotNow.

Definition fire (r : BoardRule) (t : Task) : Task := with_fired (app (t_fired t) [br_id r]) t.

(** [apply_rule] on one card. [rank] is the last rank of the lane it goes to,
    [can_start] what the daemon finds out before a start (the card may be
    started on, nobody is starting on it, the rule has agents to spare). *)
Definition apply_rule (r : BoardRule) (b : Board) (t : Task) (rank : string) (can_start : bool) (now : instant)
    : result Acted RuleError :=
  match br_action r with
  | ActComment text =>
      match comment_new t (rule_author r) text None "" now with
      | Err e => Err (OfTask e)
      | Ok _ => Ok (Changed (fire r t))
      end
  | ActMove asked =>
      match lane b asked with
      | None => Err (OfBoard (no_lane b asked))
      | Some to =>
          match move_to t (rule_author r) true to now with
          | (_, Err e) => Err (OfTask e)
          | (_, Ok false) => Ok NotNow
          | (t', Ok true) => Ok (Changed (with_rank rank t'))
          end
      end
  | ActArchive =>
      match archive t (rule_author r) true now with
      | (_, Err e) => Err (OfTask e)
      | (t', Ok _) => Ok (Changed t')
      end
  | ActStart _ _ _ => Ok (if can_start then ToStart else NotNow)
  end.

(** Whether the sweep lets a rule act on a card in [l]. *)
Definition sweep_due (r : BoardRule) (t : Task) (l : string) (open_blocker : string → bool) (now : instant) : bool :=
  match br_trigger r, br_action r with
  | IdleFor _ _, _ => idle_due r t l now
  | Enter l', ActStart _ _ _ => on_enter r t l && (l' == l) && startable t open_blocker
  | _, _ => false
  end.
End BoardRules.

(** ** Roles *)

Module Roles.

Definition ROLES_PER_PROJECT : nat := 24.
Definition DESCRIPTION_CHARS : nat := 120.
Definition ROLE_NAME_CHARS : nat := 32.
Definition TOOLS_PER_ROLE : nat := 128.
Definition TOOL_CHARS : Z := 64.

Definition ALWAYS_TOOLS : list string :=
  ["whoami"; "send_message"; "read_inbox"; "wait_for_messages"; "acknowledge_messages"; "list_agents"; "list_roles"].

Inductive RoleColor := CRed | CBlue | CGreen | CYellow | CPurple | COrange | CPink | CCyan.

Global Instance RoleColor_eq_dec : EqDecision RoleColor.
Proof. solve_decision. Defined.

Definition RoleColor_ALL : list RoleColor := [CRed; CBlue; CGreen; CYellow; CPurple; COrange; CPink; CCyan].

Definition role_color_as_str (c : RoleColor) : string :=
  match c with
  | CRed => "red" | CBlue => "blue" | CGreen => "green" | CYellow => "yellow"
  | CPurple => "purple" | COrange => "orange" | CPink => "pink" | CCyan => "cyan"
  end.

Definition role_color_after (count : nat) : RoleColor :=
  nth (count `mod` length RoleColor_ALL) RoleColor_ALL CRed.

Record RoleDef := mkRole {
  rd_project : string;
  rd_role : string;
  rd_name : string;
  rd_color : RoleColor;
  rd_description : string;
  rd_removed : bool;
  rd_tools : option (list string);
  rd_created_by : string;
  rd_created_at : instant;
  rd_updated_at : instant;
}.

Global Instance RoleDef_eq_dec : EqDecision RoleDef.
Proof. solve_decision. Defined.

Definition role_id (project role : string) : string := project ++ ":" ++ role.

Definition defaults (project : string) (at_ : instant) : list RoleDef :=
  (λ r : string * string * RoleColor * string,
     let '(role, name, color, description) := r in
     mkRole project role name color description false None "" at_ at_) <$>
  [("lead", "Lead", CPurple, "Plans the work and hands it out");
   ("implementer", "Implementer", CBlue, "Writes the changes");
   ("reviewer", "Reviewer", COrange, "Reviews changes before they merge");
   ("explorer", "Explorer", CCyan, "Researches read-only; changes nothing");
   ("tester", "Tester", CGreen, "Tests and reports")].

(** [*slot = role] in the first role of that address. *)
Fixpoint replace_role (roles : list RoleDef) (r : RoleDef) : option (list RoleDef) :=
  match roles with
  | [] => None
  | x :: rest =>
      if rd_role x == rd_role r then Some (r :: rest)
      else match replace_role rest r with Some rest' => Some (x :: rest') | None => None end
  end.

Definition catalog_step (st : list RoleDef * list RoleDef) (r : RoleDef) : list RoleDef * list RoleDef :=
  match replace_role st.1 r with
  | Some roles => (roles, st.2)
  | None => (st.1, app st.2 [r])
  end.

Definition own_key (r : RoleDef) : Z * string := (rd_created_at r, rd_role r).

Definition catalog (project : string) (stored : list RoleDef) (at_ : instant) : list RoleDef :=
  let '(roles, own) :=
    foldl catalog_step (defaults project at_, []) (List.filter (λ r, rd_project r == project) stored) in
  List.filter (λ r, negb (rd_removed r)) (app roles (sort_by_key own_key own)).

Definition addresses (project : string) (stored : list RoleDef) : nat :=
  size (list_to_set (app ["lead"; "implementer"; "reviewer"; "explorer"; "tester"]
          (rd_role <$> List.filter (λ r, rd_project r == project) stored)) : gset string).

Section Slug.
Context {U : Unicode}.

Definition role_color_parse (text : string) : option RoleColor :=
  List.find (λ c, role_color_as_str c == to_lowercase (trim text)) RoleColor_ALL.

(** [c.is_ascii_lowercase() || c.is_ascii_digit()] *)
Definition slug_char (c : string) : bool :=
  match c with String a "" => is_ascii_lowercase a || is_ascii_digit a | _ => false end.

Fixpoint role_slug_loop (slug : string) (cs : list string) : string :=
  match cs with
  | [] => slug
  | c :: cs' =>
      if slug_char c then role_slug_loop (slug ++ c) cs'
      else if (slug != "") && negb (ends_with_char "-" slug) then role_slug_loop (slug ++ "-") cs'
      else role_slug_loop slug cs'
  end.

Definition slug_from (name : string) : option string :=
  let slug := role_slug_loop "" (chars (to_lowercase (trim name))) in
  let slug := trim_end_char "-" (chars_take ROLE_CHARS (trim_end_char "-" slug)) in
  if is_ok (check_role slug) then Some slug else None.
End Slug.

Definition check_words (name description : string) : result unit string :=
  let name := trim name in
  if (name == "") || (ROLE_NAME_CHARS <? chars_count name)%nat
  then Err "a role's name is one to thirty-two characters"
  else if (DESCRIPTION_CHARS <? chars_count description)%nat
  then Err "a role's description is at most 120 characters"
  else if has_control name || has_control description
  then Err "a role's name and description are one line of text"
  else Ok ().

Definition tool_ok (tool : string) : bool :=
  (tool != "") && (byte_len tool <=? TOOL_CHARS)%Z
  && sforall (λ b, is_ascii_lowercase b || is_ascii_digit b || Ascii.eqb b "_") tool.

Fixpoint check_each_tool (tools : list string) (kept : gset string) : result (gset string) string :=
  match tools with
  | [] => Ok kept
  | tool :: rest =>
      if tool_ok (trim tool) then check_each_tool rest ({[trim tool]} ∪ kept)
      else Err "a tool's name is one to sixty-four lowercase letters, digits and underscores"
  end.

Definition check_tools (tools : list string) : result (list string) string :=
  if (TOOLS_PER_ROLE <? length tools)%nat then Err "a role names at most 128 tools"
  else let? kept := check_each_tool tools ∅ in Ok (btree_set_iter kept).

Definition tools_of (palette : list RoleDef) (role : string) : option (list string) :=
  match List.find (λ d, rd_role d == role) palette with Some d => rd_tools d | None => None end.

Fixpoint limit_loop (palette : list RoleDef) (held : list string) (allowed : gset string) : option (gset string) :=
  match held with
  | [] => Some allowed
  | role :: rest =>
      match tools_of palette role with
      | None => None
      | Some tools => limit_loop palette rest (list_to_set tools ∪ allowed)
      end
  end.

Definition tool_limit (held : list string) (palette : list RoleDef) : option (gset string) :=
  match held with
  | [] => None
  | _ => limit_loop palette held (list_to_set ALWAYS_TOOLS)
  end.
End Roles.

(** ** Facts *)

Module RulesFacts.
Import BoardRules Roles BoardFacts.

(** A card put in a lane of the board is drawn in that lane. *)
Lemma lane_of_placed b t s to l :
  lane b s = Some to → t_lane t = Some (slug to) → t_column t = category to →
  lane_of b t = Some l → l = to.
Proof.
  intros Hto Hl Hc Hlane. destruct (lane_elem _ _ _ Hto) as [Hel <-]. unfold lane_of in Hlane.
  rewrite Hl, Hc in Hlane. cbn [mbind option_bind] in Hlane. rewrite Hto, eqb_refl in Hlane.
  destruct (lanes b) as [|l0 ls]; [set_solver|]. by simplify_eq/=.
Qed.

Lemma rule_check_move r b to :
  rule_check r b = Ok tt → br_action r = ActMove to →
  ∃ l, lane b to = Some l ∧ slug l ≠ trigger_lane (br_trigger r).
Proof.
  intros Hck Ha. unfold rule_check in Hck. rewrite Ha in Hck.
  destruct (_ || _); [done|]. destruct (lane b (trigger_lane _)) as [here|] eqn:Eh; [|done].
  destruct (lane_elem _ _ _ Eh) as [_ <-].
  assert (check_action (ActMove to) here b = Ok tt) as Hc.
  { destruct (br_trigger r); [done|]. by destruct (negb _). }
  simpl in Hc. destruct (lane b to) as [l|]; [|done].
  destruct (slug l == slug here) eqn:E; [done|]. exists l. split; [done|by apply eqb_false].
Qed.

(** What keeps a rule from acting on a card in [l] at all. *)
Definition at_rest (r : BoardRule) (t : Task) (l : string) : Prop :=
  is_Some (t_archived_at t) ∨ br_id r ∈ t_fired t ∨ l ≠ trigger_lane (br_trigger r).

Lemma at_rest_not_due r t l now :
  at_rest r t l → idle_due r t l now = false ∧ on_enter r t l = false.
Proof.
  unfold at_rest, idle_due, on_enter.
  intros [[x E]|[E|E]].
  - rewrite E. split; destruct (br_trigger r); by rewrite ?andb_false_r.
  - assert (existsb (eqb (br_id r)) (t_fired t) = true) as ->.
    { apply existsb_exists. exists (br_id r). split; [by apply list_elem_of_In|apply eqb_refl]. }
    split; destruct (br_trigger r); by rewrite ?andb_false_r.
  - split; destruct (br_trigger r) as [l'|l' n]; simpl in E; rewrite ?andb_false_r; try done;
      rewrite (proj2 (eqb_false l' l)) by congruence; by rewrite ?andb_false_r.
Qed.

Lemma apply_rule_rests r b t rank can_start now t' l :
  rule_check r b = Ok tt → apply_rule r b t rank can_start now = Ok (Changed t') →
  lane_of b t' = Some l → at_rest r t' (slug l).
Proof.
  intros Hck Ha Hl. unfold apply_rule in Ha. destruct (br_action r) as [text|to| |] eqn:Eact.
  - destruct (comment_new _ _ _ _ _ _); simplify_eq. right; left. set_solver.
  - destruct (rule_check_move _ _ _ Hck Eact) as (lto & Hto & Hne). rewrite Hto in Ha.
    right; right. unfold move_to in Ha. destruct (is_some _); [done|].
    destruct (_ && is_none_or _ (t_assignee t)); [done|]. destruct (_ && is_none_or _ _); [done|].
    simplify_eq. assert (l = lto) as ->; [|done].
    eapply lane_of_placed, Hl; [exact Hto| |]; by destruct (waiting _).
  - left. unfold archive in Ha. destruct (t_archived_at t) as [at_|] eqn:Ear; simpl in Ha.
    + simplify_eq. by rewrite Ear.
    + by simplify_eq.
  - by destruct can_start.
Qed.

(** *** Roles *)

Lemma limit_loop_spec palette held allowed :
  match limit_loop palette held allowed with
  | None => Exists (λ role, tools_of palette role = None) held
  | Some ts =>
      Forall (λ role, is_Some (tools_of palette role)) held ∧
      ∀ tool, tool ∈ ts ↔ tool ∈ allowed ∨
        ∃ role tools, role ∈ held ∧ tools_of palette role = Some tools ∧ tool ∈ tools
  end.
Proof.
  revert allowed. induction held as [|role held IH]; intros allowed; simpl.
  { split; [done|]. set_solver. }
  destruct (tools_of palette role) as [tools|] eqn:E; [|by left].
  specialize (IH (list_to_set tools ∪ allowed)).
  destruct (limit_loop _ _ _) as [ts|]; [|by right]. destruct IH as [Hall Hts].
  split; [by constructor|]. intros tool. rewrite Hts, elem_of_union, elem_of_list_to_set. split.
  - intros [[Hin|Hin]|(r & tl & Hr & Hrt & Hin)]; [right; exists role, tools|by left|right; exists r, tl];
      split_and!; try done; set_solver.
  - intros [Hin|(r & tl & Hr & Hrt & Hin)]; [by auto|].
    apply elem_of_cons in Hr as [->|Hr]; [simplify_eq; by auto|].
    right. by exists r, tl.
Qed.

(** A string that opens with something other than a dash. *)
Definition headed (s : string) : Prop :=
  match s with String a _ => Ascii.eqb a "-" = false | "" => False end.

Lemma headed_app s t : headed s → headed (s ++ t).
Proof. destruct s as [|a s]; [done|]. by rewrite append_cons. Qed.

Lemma headed_trim_end s : headed s → headed (trim_end_char "-" s).
Proof. destruct s as [|a s]; [done|]. simpl. intros E. destruct (trim_end_char _ s); by rewrite ?E. Qed.

Lemma headed_stake n s : headed s → headed (stake (S n) s).
Proof. by destruct s. Qed.

Lemma trim_end_no_end c s : ends_with_char c (trim_end_char c s) = false.
Proof.
  induction s as [|a s IH]; [done|]. simpl. destruct (trim_end_char c s); [|done].
  by destruct (Ascii.eqb a c) eqn:E.
Qed.

Lemma length_trim_end c s : (String.length (trim_end_char c s) ≤ String.length s)%nat.
Proof.
  induction s as [|a s IH]; [done|]. simpl. destruct (trim_end_char c s); [destruct (Ascii.eqb a c)|];
    simpl in *; lia.
Qed.

Lemma slug_char_byte c :
  slug_char c = true → ∃ a, c = String a "" ∧ role_byte a = true ∧ Ascii.eqb a "-" = false.
Proof.
  destruct c as [|a [|]]; try done. intros H. exists a. split; [done|]. revert H.
  by destruct a as [[] [] [] [] [] [] [] []].
Qed.

Lemma role_slug_loop_bytes slug cs :
  sforall role_byte slug = true → sforall role_byte (role_slug_loop slug cs) = true.
Proof.
  revert slug. induction cs as [|c cs IH]; intros slug Hs; simpl; [done|].
  destruct (slug_char c) eqn:Ec.
  - destruct (slug_char_byte c Ec) as (a & -> & Ha & _). apply IH. rewrite sforall_app, Hs. simpl. by rewrite Ha.
  - destruct (_ && _); apply IH; [by rewrite sforall_app, Hs|done].
Qed.

Lemma role_slug_loop_keeps slug cs : headed slug → headed (role_slug_loop slug cs).
Proof.
  revert slug. induction cs as [|c cs IH]; intros slug Hs; simpl; [done|].
  destruct (slug_char c); [by apply IH, headed_app|].
  destruct (_ && _); apply IH; [by apply headed_app|done].
Qed.

Lemma role_slug_loop_spec cs :
  (Forall (λ c, slug_char c = false) cs ∧ role_slug_loop "" cs = "")
  ∨ (Exists (λ c, slug_char c = true) cs ∧ headed (role_slug_loop "" cs)).
Proof.
  induction cs as [|c cs IH]; [by left|]. simpl. destruct (slug_char c) eqn:Ec.
  - right. split; [by left|]. destruct (slug_char_byte c Ec) as (a & -> & _ & Ha).
    by apply role_slug_loop_keeps.
  - simpl. destruct IH as [[Hall ->]|[Hex Hh]]; [left; by split; [constructor|]|right; by split; [right|]].
Qed.

Lemma check_role_intro s :
  headed s → sforall role_byte s = true → (String.length s ≤ ROLE_CHARS)%nat → ends_with_char "-" s = false →
  check_role s = Ok tt.
Proof.
  intros Hh Hb Hl He. unfold check_role. rewrite Hb, He, (proj2 (Nat.ltb_ge _ _) Hl).
  destruct s as [|a s]; [done|]. simpl in Hh. unfold starts_with. cbn [strip_prefix].
  rewrite Ascii.eqb_sym in Hh. by rewrite Hh.
Qed.

(** *** The catalog *)

Lemma replace_role_spec roles r :
  NoDup (rd_role <$> roles) →
  match replace_role roles r with
  | None => rd_role r ∉ rd_role <$> roles
  | Some roles' =>
      rd_role r ∈ rd_role <$> roles ∧ rd_role <$> roles' = rd_role <$> roles ∧
      ∀ x, x ∈ roles' ↔ x = r ∨ x ∈ roles ∧ rd_role x ≠ rd_role r
  end.
Proof.
  induction roles as [|x roles IH]; intros Hnd; simpl; [set_solver|].
  csimpl in Hnd. apply NoDup_cons in Hnd as [Hx Hnd]. specialize (IH Hnd).
  destruct (rd_role x == rd_role r) eqn:E; split_and_bool.
  - split_and!; csimpl; [rewrite E; by left|by rewrite E|]. intros y. rewrite !elem_of_cons. split.
    + intros [->|Hy]; [by left|]. right. split; [by right|]. intros Ey. apply Hx. rewrite E, <-Ey.
      by apply list_elem_of_fmap_2.
    + intros [->|[[->|Hy] Hne]]; [by left|done|by right].
  - destruct (replace_role roles r) as [roles'|].
    + destruct IH as (Hin & Hr & Hel). split_and!; csimpl; [by right|by rewrite Hr|].
      intros y. rewrite !elem_of_cons, Hel. naive_solver.
    + csimpl. rewrite not_elem_of_cons. split; [congruence|done].
Qed.

(** What the two lists hold when the stored roles seen so far are [seen]. *)
Definition catalog_inv (built seen : list RoleDef) (st : list RoleDef * list RoleDef) : Prop :=
  rd_role <$> st.1 = rd_role <$> built ∧
  (∀ x, x ∈ app st.1 st.2 ↔ x ∈ seen ∨ x ∈ built ∧ rd_role x ∉ rd_role <$> seen) ∧
  NoDup (rd_role <$> app st.1 st.2).

Lemma catalog_step_inv built seen st r :
  NoDup (rd_role <$> built) → rd_role r ∉ rd_role <$> seen →
  catalog_inv built seen st → catalog_inv built (app seen [r]) (catalog_step st r).
Proof.
  destruct st as [roles own]. intros Hb Hr (Hk & Hel & Hnd). cbn [fst snd] in *.
  assert (∀ y, y ∈ app roles own → rd_role y = rd_role r → y ∈ built) as Hsame.
  { intros y Hy Ey. apply Hel in Hy as [Hy|[Hy _]]; [|done]. destruct Hr. rewrite <-Ey. by apply list_elem_of_fmap_2. }
  pose proof (replace_role_spec roles r ltac:(by rewrite Hk)) as Hrep. unfold catalog_step. cbn [fst snd].
  destruct (replace_role roles r) as [roles'|]; unfold catalog_inv; cbn [fst snd].
  - destruct Hrep as (Hin & Hk' & Hel'). split_and!; [congruence| |].
    + intros x. rewrite elem_of_app, Hel'. setoid_rewrite elem_of_app in Hel.
      rewrite fmap_app, !elem_of_app. csimpl. rewrite !list_elem_of_singleton.
      specialize (Hel x). split.
      * intros [[->|[Hx Hne]]|Hx]; [by auto| |].
        { destruct (proj1 Hel (or_introl Hx)) as [?|[? ?]]; [by auto|]. right. split; [done|]. set_solver. }
        { destruct (proj1 Hel (or_intror Hx)) as [?|[? ?]]; [by auto|]. right. split; [done|].
          intros [?|Ex]; [done|]. rewrite fmap_app in Hnd. apply NoDup_app in Hnd as (_ & Hd & _).
          apply (Hd (rd_role r) Hin). rewrite <-Ex. by apply list_elem_of_fmap_2. }
      * intros [[Hx|Hx]|[Hx Hn]].
        { destruct (proj2 Hel (or_introl Hx)) as [?|?]; [|by auto]. left. right. split; [done|].
          intros Ex. apply Hr. rewrite <-Ex. by apply list_elem_of_fmap_2. }
        { by auto. }
        { destruct (proj2 Hel (or_intror (conj Hx (λ H, Hn (or_introl H))))) as [?|?]; [|by auto].
          left. right. split; [done|]. intros Ex. apply Hn. by right. }
    + by rewrite fmap_app, Hk', <-fmap_app.
  - split_and!; [done| |].
    + intros x. rewrite (assoc_L app), elem_of_app, Hel, fmap_app, !elem_of_app. csimpl.
      rewrite !list_elem_of_singleton. split; [|naive_solver].
      intros [[?|[Hx ?]]|?]; [by auto| |by auto]. right. split; [done|]. intros [?|Ex]; [done|].
      apply Hrep. rewrite Hk, <-Ex. by apply list_elem_of_fmap_2.
    + rewrite (assoc_L app), fmap_app. csimpl. apply NoDup_app. split_and!; [done| |apply NoDup_singleton].
      intros k Hk1 ->%list_elem_of_singleton. apply list_elem_of_fmap in Hk1 as (y & Ey & Hy).
      apply Hrep. rewrite Hk, Ey. by apply list_elem_of_fmap_2, Hsame.
Qed.

Lemma catalog_fold_inv built seen rest st :
  NoDup (rd_role <$> built) → NoDup (rd_role <$> app seen rest) →
  catalog_inv built seen st → catalog_inv built (app seen rest) (foldl catalog_step st rest).
Proof.
  intros Hb. revert seen st. induction rest as [|r rest IH]; intros seen st Hnd Hinv; simpl.
  { by rewrite app_nil_r. }
  change (r :: rest) with (app [r] rest). rewrite (assoc_L app). apply IH; [by rewrite <-(assoc_L app)|].
  apply catalog_step_inv; [done| |done]. rewrite fmap_app in Hnd. csimpl in Hnd.
  apply NoDup_app in Hnd as (_ & Hd & _). intros Hin. apply (Hd _ Hin). by left.
Qed.
End RulesFacts.

(** ** Properties *)

Module RulesProps.
Import BoardRules Roles RulesFacts.

(** A rule acts once per stay: when a checked rule has changed a card of its
    board, whatever the action, the rule is neither due nor entered on the
    card where the board now draws it, at any later time, until somebody
    moves the card again. A rule cannot comment every minute, bounce a card
    between lanes or archive it twice. *)
Theorem rule_acts_once_per_stay r b t rank can_start now t' l :
  rule_check r b = Ok tt → apply_rule r b t rank can_start now = Ok (Changed t') → lane_of b t' = Some l →
  ∀ later open_blocker,
    idle_due r t' (slug l) later = false ∧ on_enter r t' (slug l) = false ∧
    sweep_due r t' (slug l) open_blocker later = false.
Proof.
  intros Hck Ha Hl later ob.
  destruct (at_rest_not_due r t' (slug l) later (apply_rule_rests _ _ _ _ _ _ _ _ Hck Ha Hl)) as [Hi He].
  split_and!; [done..|]. unfold sweep_due. rewrite Hi, He. by destruct (br_trigger r), (br_action r).
Qed.

(** A card whose record names no lane is drawn in the first lane of its
    category, and an idle rule is due on it there, but a rule that moves it
    to another lane of that same category never does: the move answers that
    nothing changed, nothing is stored, and at every later time the rule is
    due again and acts again in vain. *)
Theorem unplaced_card_is_never_moved r b t to lto l rank can_start since :
  t_lane t = None → br_action r = ActMove to → lane b to = Some lto → category lto = t_column t →
  idle_due r t l since = true →
  ∀ later, (since <= later)%Z →
    idle_due r t l later = true ∧ apply_rule r b t rank can_start later = Ok NotNow.
Proof.
  intros Hl Hact Hto Hcat Hdue later Hle. unfold idle_due in *.
  destruct (br_trigger r) as [|l' n]; [done|]. split_and_bool. split.
  - repeat (apply andb_true_intro; split); try done.
    + by rewrite (proj2 (eqb_true _ _)).
    + by apply negb_true_iff.
    + apply Z.leb_le. lia.
  - unfold apply_rule. rewrite Hact, Hto. unfold move_to.
    destruct (t_archived_at t); [done|]. by rewrite Hl, Hcat, eqb_refl.
Qed.

(** The roles of a project: every address once, the built-in roles as their
    stored record has changed them, the project's own roles beside them, and
    none that was removed. The hypothesis is the store's: a project has one
    record per address. *)
Theorem catalog_exact project stored at_ :
  NoDup (rd_role <$> List.filter (λ r, rd_project r == project) stored) →
  NoDup (rd_role <$> catalog project stored at_) ∧
  ∀ r, r ∈ catalog project stored at_ ↔
    rd_removed r = false ∧
    (r ∈ stored ∧ rd_project r = project ∨
     r ∈ defaults project at_ ∧ ∀ s, s ∈ stored → rd_project s = project → rd_role s ≠ rd_role r).
Proof.
  intros Hnd. set (mine := List.filter (λ r, rd_project r == project) stored) in *.
  assert (∀ x, x ∈ mine ↔ x ∈ stored ∧ rd_project x = project) as Hmine.
  { intros x. unfold mine. rewrite !list_elem_of_In, filter_In. by rewrite eqb_true. }
  assert (NoDup (rd_role <$> defaults project at_)) as Hb by (by apply (bool_decide_unpack _); vm_compute).
  assert (catalog_inv (defaults project at_) [] (defaults project at_, [])) as H0.
  { unfold catalog_inv. cbn [fst snd]. rewrite app_nil_r. split_and!; [done| |done]. intros x.
    split; [intros ?; right; by split; [|apply not_elem_of_nil]|by intros [[]%elem_of_nil|[? _]]]. }
  pose proof (catalog_fold_inv _ [] mine _ Hb Hnd H0) as (_ & Hel & Hcn). simpl in Hel.
  unfold catalog. fold mine. destruct (foldl catalog_step _ mine) as [roles own]. cbn [fst snd] in *.
  assert (app roles (sort_by_key own_key own) ≡ₚ app roles own) as Hp by by rewrite sort_by_key_perm.
  split.
  - assert (NoDup (rd_role <$> app roles (sort_by_key own_key own))) as Hn by by rewrite Hp.
    clear -Hn. induction (app _ _) as [|x l IH]; [done|]. csimpl in Hn. apply NoDup_cons in Hn as [Hx Hn].
    simpl. destruct (negb _); [|by apply IH]. csimpl. apply NoDup_cons. split; [|by apply IH].
    intros (y & Ey & Hy)%list_elem_of_fmap. apply Hx. rewrite Ey. apply list_elem_of_fmap_2.
    by apply list_elem_of_In, filter_In in Hy as [?%list_elem_of_In _].
  - intros r. rewrite list_elem_of_In, filter_In, <-list_elem_of_In, Hp, Hel, negb_true_iff, Hmine.
    assert (rd_role r ∉ rd_role <$> mine ↔ ∀ s, s ∈ stored → rd_project s = project → rd_role s ≠ rd_role r) as ->;
      [|naive_solver].
    rewrite list_elem_of_fmap. setoid_rewrite Hmine. naive_solver.
Qed.

(** What an agent's roles let it call: everything when it holds no role, or
    one that limits no tools; otherwise exactly the tools some role of it
    names and the tools every agent has. *)
Theorem tool_limit_exact held palette :
  match tool_limit held palette with
  | None => held = [] ∨ ∃ role, role ∈ held ∧ tools_of palette role = None
  | Some ts =>
      held ≠ [] ∧ (∀ role, role ∈ held → is_Some (tools_of palette role)) ∧
      ∀ tool, tool ∈ ts ↔ tool ∈ ALWAYS_TOOLS ∨
        ∃ role tools, role ∈ held ∧ tools_of palette role = Some tools ∧ tool ∈ tools
  end.
Proof.
  unfold tool_limit. destruct held as [|role held]; [by left|].
  pose proof (limit_loop_spec palette (role :: held) (list_to_set ALWAYS_TOOLS)) as H.
  destruct (limit_loop _ _ _) as [ts|].
  - destruct H as [Hall Hts]. split_and!; [done|by apply Forall_forall|].
    intros tool. by rewrite Hts, elem_of_list_to_set.
  - right. by apply Exists_exists in H.
Qed.

(** A role's name gives an address unless it has no letter and no digit of
    ASCII at all: whatever else it holds, and however long it is, what
    [slug_from] makes of it passes the check of a role's address. *)
Theorem slug_from_fails_only_without_letters {U : Unicode} name :
  slug_from name = None ↔ Forall (λ c, slug_char c = false) (chars (to_lowercase (trim name))).
Proof.
  unfold slug_from. set (cs := chars _). set (s := role_slug_loop "" cs).
  assert (sforall role_byte s = true) as Hb by by apply role_slug_loop_bytes.
  apply (sforall_trim_end _ "-") in Hb.
  rewrite chars_take_ascii.
  2:{ eapply sforall_impl, Hb. intros a. by destruct a as [[] [] [] [] [] [] [] []]. }
  destruct (role_slug_loop_spec cs) as [[Hall Hs]|[Hex Hh]].
  - fold s in Hs. by rewrite Hs.
  - rewrite check_role_intro.
    + split; [done|]. intros Hall. apply Exists_exists in Hex as (c & Hc & E).
      rewrite Forall_forall in Hall. by rewrite Hall in E.
    + apply headed_trim_end. change ROLE_CHARS with (S (pred ROLE_CHARS)). by apply headed_stake, headed_trim_end.
    + by apply sforall_trim_end, sforall_stake.
    + etransitivity; [apply length_trim_end|apply length_stake].
    + apply trim_end_no_end.
Qed.

(** *** Witnesses *)

Definition w_agents_board : Board :=
  Eval vm_compute in
    match from_template "p" "train" "Release train" "agents" "RT" 5 with
    | Ok b => b | Err _ => mkBoard "" "" "" "" [] "" "" "" 0 0 0 end.

Definition w_rule (action : RuleAction) : BoardRule :=
  mkBoardRule "r1" "p" "train" "stale tests" (IdleFor "testing" 2) action true "user" 0 0.

(** A card in review, in the lane its record names. *)
Definition w_review (l : option string) : Task :=
  mkTask "t1" "p" "" (Some "train") "A card" "" "" Review l "" None Normal None None "" None [] [] "user" 0 0 None
    [] None None [].

Definition w_moved : Task :=
  Eval vm_compute in
    match apply_rule (w_rule (ActMove "uat")) w_agents_board (w_review (Some "testing")) "m" false (days 3) with
    | Ok (Changed t) => t | _ => w_review None end.

Lemma rule_acts_once_per_stay_witness :
  idle_due (w_rule (ActMove "uat")) (w_review (Some "testing")) "testing" (days 3) = true ∧
  t_lane w_moved = Some "uat" ∧ idle_due (w_rule (ActMove "uat")) w_moved "uat" (days 9) = false.
Proof.
  split; [vm_compute; reflexivity|]. split; [reflexivity|].
  refine (proj1 (rule_acts_once_per_stay (w_rule (ActMove "uat")) w_agents_board (w_review (Some "testing"))
    "m" false (days 3) w_moved (lane_new "uat" "UAT" Review OHuman) _ _ _ (days 9) (λ _, false)));
    vm_compute; reflexivity.
Defined.

Lemma unplaced_card_is_never_moved_witness :
  rule_check (w_rule (ActMove "uat")) w_agents_board = Ok tt ∧
  slug <$> lane_of w_agents_board (w_review None) = Some "testing" ∧
  apply_rule (w_rule (ActMove "uat")) w_agents_board (w_review None) "m" false (days 300) = Ok NotNow.
Proof.
  split; [vm_compute; reflexivity|]. split; [vm_compute; reflexivity|].
  apply (unplaced_card_is_never_moved (w_rule (ActMove "uat")) w_agents_board (w_review None) "uat"
           (lane_new "uat" "UAT" Review OHuman) "testing" "m" false (days 3));
    (reflexivity || (vm_compute; (reflexivity || discriminate))).
Defined.

Definition w_lead : RoleDef :=
  mkRole "p" "lead" "Boss" CRed "Decides" false (Some ["assign_task"]) "user" 3 3.
Definition w_scribe : RoleDef := mkRole "p" "scribe" "Scribe" CPink "Writes it down" false None "user" 4 4.

Lemma catalog_exact_witness : w_lead ∈ catalog "p" [w_scribe; w_lead] 9.
Proof.
  apply (catalog_exact "p" [w_scribe; w_lead] 9).
  - apply (bool_decide_unpack _). vm_compute. exact I.
  - split; [reflexivity|]. left. split; [right; left|reflexivity].
Defined.
End RulesProps.
