(* ===== verification/Usage.v ===== *)
(** * Usage accounting

    The model of [crates/core/src/usage.rs], of [usage/report.rs] and of
    [usage/emission.rs]: cumulative counters and what they contribute, hourly
    buckets that know how much they do not know, the range of a query, which
    registration a sample belongs to, and the tokens of a report.

    chrono is a parameter (class [Chrono]): its reader of RFC 3339 timestamps
    and the span of instants it can represent. The shortened and the priced
    figures ([compact], [dollars]) print floating-point numbers and are left
    out. *)

From Stdlib Require Import Ascii.
From stdpp Require Import pretty.
From S2P Require Import Prelude RustStr Order.

Local Open Scope rust_scope.
Local Open Scope Z_scope.

Class Chrono := {
  parse_rfc3339 : string → option instant;
  representable : instant → bool;
}.

Definition checked_add (a b : Z) : option Z := if a + b <=? u64_max then Some (a + b) else None.
Definition checked_sub (a b : Z) : option Z := if b <=? a then Some (a - b) else None.
Definition ok_or {A E} (o : option A) (e : E) : result A E := match o with Some a => Ok a | None => Err e end.

(** ** Counters *)

Record Counters := mkCounters {
  input_tokens : option Z;
  cache_read_input_tokens : option Z;
  cache_write_input_tokens : option Z;
  output_tokens : option Z;
  reasoning_output_tokens : option Z;
}.

Global Instance Counters_eq_dec : EqDecision Counters.
Proof. solve_decision. Defined.

Definition values (c : Counters) : list (option Z) :=
  [input_tokens c; cache_read_input_tokens c; cache_write_input_tokens c; output_tokens c;
   reasoning_output_tokens c].

Definition from_values (f : nat → option Z) : Counters := mkCounters (f 0%nat) (f 1%nat) (f 2%nat) (f 3%nat) (f 4%nat).

Definition decreased (p : option Z * option Z) : bool :=
  match p with (Some now, Some old) => now <? old | _ => false end.

Definition value_at (c : Counters) (i : nat) : option Z := nth i (values c) None.

Definition delta (c previous : Counters) : option Counters :=
  if existsb decreased (combine (values c) (values previous)) then None
  else Some (from_values (λ i,
    now ← value_at c i; old ← value_at previous i; checked_sub now old)).

Record Baseline := mkBaseline { bl_at : instant; bl_counters : Counters; bl_epoch : Z }.
Record Gap := mkGap { gap_since : option instant; gap_until : instant }.
Record Observation := mkObservation {
  ob_baseline : Baseline;
  ob_contribution : option Counters;
  ob_gap : option Gap;
}.

Definition observe_cumulative (previous : option Baseline) (at_ : instant) (counters : Counters)
    (proves_zero_baseline : bool) : result (option Observation) string :=
  match previous with
  | Some p =>
      if at_ <? bl_at p then Err "cumulative snapshot precedes its durable baseline"
      else if at_ =? bl_at p then
        if counters == bl_counters p then Ok None
        else Err "cumulative snapshots disagree at the same timestamp"
      else match delta counters (bl_counters p) with
      | Some d => Ok (Some (mkObservation (mkBaseline at_ counters (bl_epoch p)) (Some d) None))
      | None =>
          let? epoch := ok_or (checked_add (bl_epoch p) 1) "counter epoch overflows" in
          Ok (Some (mkObservation (mkBaseline at_ counters epoch) None (Some (mkGap (Some (bl_at p)) at_))))
      end
  | None =>
      let b := mkBaseline at_ counters 0 in
      Ok (Some (if proves_zero_baseline then mkObservation b (Some counters) None
                else mkObservation b None (Some (mkGap None at_))))
  end.

(** ** Buckets *)

Record Total := mkTotal { sum : Z; known_samples : Z }.

Global Instance Total_eq_dec : EqDecision Total.
Proof. solve_decision. Defined.

Definition total_default : Total := mkTotal 0 0.

Inductive UsageSource := Exact | Estimated.

Record Aggregate := mkAggregate {
  samples : Z;
  totals : list Total;
  exact : option Z;
  cost : Total;
}.

Definition aggregate_default : Aggregate := mkAggregate 0 (replicate 5 total_default) (Some 0) total_default.

Inductive Coverage := Complete | Partial | UnknownCoverage.

Global Instance Coverage_eq_dec : EqDecision Coverage.
Proof. solve_decision. Defined.

Record CounterReport := mkCounterReport {
  cr_sum : option Z;
  cr_known_samples : Z;
  cr_coverage : Coverage;
}.

Definition OUT_OF_RANGE : string := "usage bucket arithmetic is out of range".

Definition inconsistent (n : Z) (t : Total) : bool :=
  (n <? known_samples t) || ((known_samples t =? 0) && negb (sum t =? 0)).

Definition aggregate_validate (a : Aggregate) : result unit string :=
  if existsb (inconsistent (samples a)) (app (totals a) [cost a])
  then Err "usage bucket coverage is inconsistent"
  else if is_some_and (λ e, samples a <? e) (exact a)
  then Err "usage bucket coverage is inconsistent"
  else Ok ().

(** Reading a stored bucket back. *)
Definition aggregate_try_from (a : Aggregate) : result Aggregate string :=
  let? _ := aggregate_validate a in Ok a.

Definition source (a : Aggregate) : option UsageSource :=
  match exact a with
  | Some e => if 0 <? samples a then Some (if e =? samples a then Exact else Estimated) else None
  | None => None
  end.

Definition merge_total (t added : Total) : result Total string :=
  let? s := ok_or (checked_add (sum t) (sum added)) OUT_OF_RANGE in
  let? k := ok_or (checked_add (known_samples t) (known_samples added)) OUT_OF_RANGE in
  Ok (mkTotal s k).

Fixpoint merge_totals (ts added : list Total) : result (list Total) string :=
  match ts, added with
  | t :: ts', u :: us' =>
      let? t' := merge_total t u in
      let? rest := merge_totals ts' us' in Ok (t' :: rest)
  | _, _ => Ok ts
  end.

Definition merge (a other : Aggregate) : result Aggregate string :=
  let? n := ok_or (checked_add (samples a) (samples other)) OUT_OF_RANGE in
  let? ts := merge_totals (totals a) (totals other) in
  let? c := merge_total (cost a) (cost other) in
  let? e := match exact a, exact other with
            | Some mine, Some theirs =>
                let? e := ok_or (checked_add mine theirs) OUT_OF_RANGE in Ok (Some e)
            | _, _ => Ok None
            end in
  let next := mkAggregate n ts e c in
  let? _ := aggregate_validate next in Ok next.

Definition change_by (remove : bool) (a b : Z) : result Z string :=
  ok_or (if remove then checked_sub a b else checked_add a b) OUT_OF_RANGE.

Definition change_total (remove : bool) (t : Total) (value : option Z) : result Total string :=
  match value with
  | None => Ok t
  | Some v =>
      let? s := change_by remove (sum t) v in
      let? k := change_by remove (known_samples t) 1 in Ok (mkTotal s k)
  end.

Fixpoint change_totals (remove : bool) (ts : list Total) (vs : list (option Z)) : result (list Total) string :=
  match ts, vs with
  | t :: ts', v :: vs' =>
      let? t' := change_total remove t v in
      let? rest := change_totals remove ts' vs' in Ok (t' :: rest)
  | _, _ => Ok ts
  end.

Definition change (a : Aggregate) (counters : Counters) (said_exact : option bool) (cost_usd_micros : option Z)
    (remove : bool) : result Aggregate string :=
  let? n := change_by remove (samples a) 1 in
  let? e := match exact a, said_exact with
            | Some count, Some true => let? c := change_by remove count 1 in Ok (Some c)
            | Some count, Some false => Ok (Some count)
            | _, _ => Ok None
            end in
  let? ts := change_totals remove (totals a) (values counters) in
  let? c := change_total remove (cost a) cost_usd_micros in
  let next := mkAggregate n ts e c in
  let? _ := aggregate_validate next in Ok next.

Definition add_priced (a : Aggregate) (c : Counters) (e : option bool) (p : option Z) := change a c e p false.
Definition remove_priced (a : Aggregate) (c : Counters) (e : option bool) (p : option Z) := change a c e p true.
Definition add (a : Aggregate) (c : Counters) (e : option bool) := change a c e None false.
Definition remove (a : Aggregate) (c : Counters) (e : option bool) := change a c e None true.

Definition price (a : Aggregate) (cost_usd_micros : Z) : result Aggregate string :=
  let? s := ok_or (checked_add (sum (cost a)) cost_usd_micros) OUT_OF_RANGE in
  let? k := ok_or (checked_add (known_samples (cost a)) 1) OUT_OF_RANGE in
  let next := mkAggregate (samples a) (totals a) (exact a) (mkTotal s k) in
  let? _ := aggregate_validate next in Ok next.

Definition report_of (n : Z) (source_complete : bool) (t : Total) : CounterReport :=
  mkCounterReport (if 0 <? known_samples t then Some (sum t) else None) (known_samples t)
    (if known_samples t =? 0 then UnknownCoverage
     else if source_complete && (known_samples t =? n) then Complete else Partial).

Definition cost_report (a : Aggregate) (source_complete : bool) : CounterReport :=
  report_of (samples a) source_complete (cost a).
Definition counters_report (a : Aggregate) (source_complete : bool) : list CounterReport :=
  report_of (samples a) source_complete <$> totals a.

(** ** The range of a query *)

Record Range := mkRange {
  as_of : instant;
  effective_since : instant;
  effective_until : instant;
  retained_since : instant;
  history_truncated : bool;
  future_until_clamped : bool;
  includes_current_hour : bool;
}.

Definition hour (at_ : instant) : instant := at_ - at_ `mod` hours 1.

Section Ranges.
Context {C : Chrono}.

Definition checked_sub_signed (at_ : instant) (d : duration) : option instant :=
  if representable (at_ - d) then Some (at_ - d) else None.
Definition checked_add_signed (at_ : instant) (d : duration) : option instant :=
  if representable (at_ + d) then Some (at_ + d) else None.

(** [Duration::try_seconds]: a duration keeps its milliseconds in an [i64]. *)
Definition try_seconds (n : Z) : option duration :=
  if (Z.abs n * 1000 <=? 2 ^ 63 - 1) then Some (seconds n) else None.

Definition unit_factor (unit_ : string) : option Z :=
  if unit_ == "s" then Some 1 else if unit_ == "m" then Some 60
  else if unit_ == "h" then Some 3600 else if unit_ == "d" then Some 86400 else None.

(** [text.split_at(text.len() - 1)] on ASCII text. *)
Fixpoint split_last (s : string) : string * string :=
  match s with
  | "" => ("", "")%string
  | String a "" => (""%string, s)
  | String a rest => let '(digits, u) := split_last rest in (String a digits, u)
  end.

Definition since (text : string) (as_of : instant) : result instant string :=
  match parse_rfc3339 text with
  | Some at_ => Ok at_
  | None =>
      if negb (is_ascii text) then Err "usage duration must use ASCII digits and s/m/h/d"
      else
        let '(digits, u) := split_last text in
        match unit_factor u with
        | None => Err "expected an RFC3339 timestamp or positive integer with s/m/h/d"
        | Some factor =>
            if (digits == "") || negb (sforall is_ascii_digit digits)
            then Err "usage duration must be a positive integer with s/m/h/d"
            else
              let n := match dec_go 0 digits with Some n => Z.of_N n * factor | None => 0 end in
              (* [parse::<i64>] and [checked_mul] fail past [i64::MAX] alike: the factor is at least one *)
              if negb ((0 <? n) && (n <=? 2 ^ 63 - 1)) then Err "usage duration is zero or overflows"
              else match try_seconds n with
              | None => Err "usage duration overflows"
              | Some d => ok_or (checked_sub_signed as_of d) "usage duration is out of range"
              end
        end
  end.

Definition range_new (since until : option instant) (as_of retained_since : instant) : result Range string :=
  let? since := match since with
                | Some s => Ok s
                | None => ok_or (checked_sub_signed as_of (hours 24)) "default usage range is out of range"
                end in
  let until := unwrap_or as_of until in
  if (until <=? since) || (as_of <? since)
  then Err "usage range must be nonempty, ordered and begin no later than now"
  else if negb (retained_since =? hour retained_since) || (hour as_of <? retained_since)
  then Err "retention boundary must be a UTC hour no later than the current hour"
  else
    let clamped := as_of <? until in
    let until := Z.min until as_of in
    if until <=? since then Err "usage range contains no elapsed time"
    else
      let start := hour since in
      let? end_ := if hour until =? until then Ok until
                   else ok_or (checked_add_signed (hour until) (hours 1)) "usage upper bound overflows" in
      let eff_since := Z.max start retained_since in
      let eff_until := Z.max end_ retained_since in
      Ok (mkRange as_of eff_since eff_until retained_since (since <? retained_since) clamped
            ((eff_since <=? hour as_of) && (hour as_of <? eff_until))).
End Ranges.

(** ** Registrations *)

Section Registrations.
Context {K : Type}.
Implicit Types regs : list (K * instant).

(** [Iterator::max] and [Iterator::min]. *)
Definition best (op : Z → Z → Z) (l : list Z) : option Z :=
  match l with [] => None | x :: l => Some (foldl op x l) end.
Definition maximum : list Z → option Z := best Z.max.
Definition minimum : list Z → option Z := best Z.min.

(** The only registration created at [t], when there is just one. *)
Definition only_at regs (t : instant) : option K :=
  match List.filter (λ r, r.2 =? t) regs with [r] => Some r.1 | _ => None end.

Definition registration_at regs (at_ : instant) : option K :=
  let current := match maximum (List.filter (λ t, t <=? at_) regs.*2) with
                 | Some t => Some t
                 | None => minimum regs.*2
                 end in
  current ≫= only_at regs.

Definition Window : Type := K * option instant * option instant.

Fixpoint windows_from regs (first : bool) (times : list instant) : list Window :=
  match times with
  | [] => []
  | t :: rest =>
      let w := match only_at regs t with
               | Some k => [(k, if first then None else Some t, head rest)]
               | None => []
               end in
      app w (windows_from regs false rest)
  end.

Definition registration_windows regs : list Window :=
  windows_from regs true (dedup (sort_by Z.leb regs.*2)).
End Registrations.

(** ** Figures as they are shown *)

Fixpoint group_digits (s : string) : string :=
  match s with
  | "" => ""
  | String c rest =>
      if negb (rest == "") && (String.length rest `mod` 3 =? 0)%nat
      then String c (String "," (group_digits rest)) else String c (group_digits rest)
  end.

Definition thousands (value : Z) : string := group_digits (pretty (Z.to_N value)).

(** ** Reports *)

Inductive Group := GAgent | GModel | GProvider | GProject | GHour | GCard | GRole.

Global Instance Group_eq_dec : EqDecision Group.
Proof. solve_decision. Defined.

Definition Group_ALL : list Group := [GAgent; GModel; GProvider; GProject; GHour; GCard; GRole].

Definition group_as_str (g : Group) : string :=
  match g with
  | GAgent => "agent" | GModel => "model" | GProvider => "provider" | GProject => "project"
  | GHour => "hour" | GCard => "card" | GRole => "role"
  end.

Definition group_parse (text : string) : option Group := List.find (λ g, group_as_str g == text) Group_ALL.

Record CounterReports := mkReports {
  rep_input : CounterReport;
  rep_cache_read : CounterReport;
  rep_cache_write : CounterReport;
  rep_output : CounterReport;
  rep_reasoning : CounterReport;
}.

Definition report_default : CounterReport := mkCounterReport None 0 UnknownCoverage.

Definition reports_new (a : Aggregate) (complete : bool) : CounterReports :=
  let r i := nth i (counters_report a complete) report_default in
  mkReports (r 0%nat) (r 1%nat) (r 2%nat) (r 3%nat) (r 4%nat).

Definition cache_read_share (n : Z) (c : CounterReports) : option Z :=
  if (n =? 0) || negb (cr_known_samples (rep_input c) =? n) || negb (cr_known_samples (rep_cache_read c) =? n)
  then None
  else
    input ← cr_sum (rep_input c);
    read ← cr_sum (rep_cache_read c);
    if input =? 0 then None else Some ((Z.min read input * 100 / input) `mod` 2 ^ 8).

Record UsageRow := mkUsageRow {
  ur_key : option string;
  ur_samples : Z;
  ur_counters : CounterReports;
}.

Record Tokens := mkTokens { tk_sum : Z; tk_partial : bool }.

Definition row_tokens (r : UsageRow) : option (string * Tokens) :=
  key ← ur_key r;
  let parts := [rep_input (ur_counters r); rep_output (ur_counters r)] in
  if forallb (λ c, is_none (cr_sum c)) parts then None
  else Some (key, mkTokens (foldl u64_saturating_add 0 (omap cr_sum parts))
                    (existsb (λ c, cr_coverage c != Complete) parts)).

Definition tokens (rows : list UsageRow) : gmap string Tokens :=
  foldl (λ m kt, <[kt.1 := kt.2]> m) ∅ (omap row_tokens rows).

Definition report_total (rows : list UsageRow) : option Tokens :=
  let ts := (btree_iter (tokens rows)).*2 in
  if (length ts =? 0)%nat then None
  else Some (mkTokens (foldl u64_saturating_add 0 (tk_sum <$> ts)) (existsb tk_partial ts)).

(** ** What was written out *)

Inductive EmissionChannel := EHook | EMcp | EChannel | EManagedInput | ENativeHook | ENativeInput | EBrowserMcp.

Record Emission := mkEmission { em_id : string; em_channel : EmissionChannel; em_bytes : Z }.

Definition emission_check (e : Emission) : result unit string :=
  if negb (byte_len (em_id e) =? 32)
     || negb (sforall (λ b, is_ascii_digit b || (is_ascii_lowercase b && is_ascii_hexdigit b)) (em_id e))
  then Err "emission id must be 32 lowercase hexadecimal characters"
  else if (em_bytes e =? 0) || (64 * 1024 * 1024 <? em_bytes e)
  then Err "emitted bytes must be between 1 and 67108864"
  else Ok ().

(** ** Facts *)

Module UsageFacts.

(** What a bucket stands for: the samples put into it. *)
Record Sample := mkSample { s_counters : Counters; s_exact : option bool; s_cost : option Z }.

Definition u64 (n : Z) : Prop := 0 ≤ n ≤ u64_max.
Definition u64_opt (o : option Z) : Prop := match o with Some n => u64 n | None => True end.
Definition sample_wf (s : Sample) : Prop := Forall u64_opt (values (s_counters s)) ∧ u64_opt (s_cost s).

(** The five counters of a sample and its price. *)
Definition columns : list (Sample → option Z) :=
  [λ s, input_tokens (s_counters s); λ s, cache_read_input_tokens (s_counters s);
   λ s, cache_write_input_tokens (s_counters s); λ s, output_tokens (s_counters s);
   λ s, reasoning_output_tokens (s_counters s)].

Definition total_of (l : list Sample) (f : Sample → option Z) : Total :=
  mkTotal (Z_sum (omap f l)) (Z.of_nat (length (omap f l))).

Definition exact_count (l : list Sample) : Z := Z.of_nat (length (List.filter (λ s, s_exact s == Some true) l)).

(** The bucket [a] stands for the samples [l]. A bucket that cannot say how
    many are exact stands for any. *)
Definition stands_for (l : list Sample) (a : Aggregate) : Prop :=
  samples a = Z.of_nat (length l) ∧ totals a = total_of l <$> columns ∧ cost a = total_of l s_cost ∧
  match exact a with
  | Some e => Forall (λ s, is_Some (s_exact s)) l ∧ e = exact_count l
  | None => True
  end.

(** The samples fit a bucket: neither their number nor a sum overflows. *)
Definition fits (l : list Sample) : Prop :=
  Z.of_nat (length l) ≤ u64_max ∧ Forall (λ f, sum (total_of l f) ≤ u64_max) (app columns [s_cost]).

Lemma values_columns s : values (s_counters s) = (λ f, f s) <$> columns.
Proof. done. Qed.

Lemma column_wf s f : sample_wf s → f ∈ app columns [s_cost] → u64_opt (f s).
Proof.
  intros [Hc Hp] [Hf|Hf]%elem_of_app; [|by apply list_elem_of_singleton in Hf as ->].
  rewrite values_columns, Forall_fmap, Forall_forall in Hc. by apply Hc.
Qed.

Lemma checked_add_Some a b c : checked_add a b = Some c ↔ a + b ≤ u64_max ∧ c = a + b.
Proof. unfold checked_add. destruct (Z.leb_spec (a + b) u64_max); naive_solver lia. Qed.

Lemma checked_sub_Some a b c : checked_sub a b = Some c ↔ b ≤ a ∧ c = a - b.
Proof. unfold checked_sub. destruct (Z.leb_spec b a); naive_solver lia. Qed.

Lemma length_omap_le {A B} (f : A → option B) (l : list A) : (length (omap f l) ≤ length l)%nat.
Proof. induction l as [|x l IH]; [done|]. csimpl. destruct (f x); simpl; lia. Qed.

Lemma total_known_le l f : known_samples (total_of l f) ≤ Z.of_nat (length l).
Proof. simpl. pose proof (length_omap_le f l). lia. Qed.

Lemma total_of_cons s l f :
  total_of (s :: l) f =
  match f s with
  | Some v => mkTotal (sum (total_of l f) + v) (known_samples (total_of l f) + 1)
  | None => total_of l f
  end.
Proof. unfold total_of. csimpl. destruct (f s); simpl; [f_equal; lia|done]. Qed.

Lemma Z_sum_app l k : Z_sum (app l k) = Z_sum l + Z_sum k.
Proof. induction l as [|x l IH]; simpl; lia. Qed.

Lemma total_of_app l k f :
  total_of (app l k) f = mkTotal (sum (total_of l f) + sum (total_of k f))
                           (known_samples (total_of l f) + known_samples (total_of k f)).
Proof. unfold total_of. rewrite omap_app, Z_sum_app, length_app. simpl. f_equal. lia. Qed.

Lemma total_sum_nonneg l f :
  Forall sample_wf l → f ∈ app columns [s_cost] → 0 ≤ sum (total_of l f).
Proof.
  intros Hl Hf. induction Hl as [|s l Hs _ IH]; [done|]. rewrite total_of_cons.
  pose proof (column_wf s f Hs Hf) as Hv. destruct (f s) as [v|]; [|done]. simpl in *. unfold u64 in Hv. lia.
Qed.

Lemma Z_sum_perm l k : l ≡ₚ k → Z_sum l = Z_sum k.
Proof. induction 1; simpl; lia. Qed.

(** What a bucket stands for is a bag: the order of the samples is forgotten. *)
Global Instance total_of_proper : Proper ((≡ₚ) ==> (=) ==> (=)) total_of.
Proof. intros l k H f ? <-. unfold total_of. by rewrite (Z_sum_perm _ _ (omap_Permutation f l k H)), H. Qed.

Global Instance exact_count_proper : Proper ((≡ₚ) ==> (=)) exact_count.
Proof.
  intros l k H. unfold exact_count. f_equal.
  induction H as [|x l k _ IH|x y l|l k m _ IH1 _ IH2]; simpl; [done| | |congruence].
  - destruct (_ == _); simpl; congruence.
  - by destruct (s_exact y == _), (s_exact x == _).
Qed.

Global Instance stands_for_proper : Proper ((≡ₚ) ==> (=) ==> impl) stands_for.
Proof.
  intros l k H a ? <- (Hn & Ht & Hc & He). unfold stands_for. split_and!.
  - by rewrite <-H.
  - rewrite Ht. apply list_fmap_ext. intros. by rewrite H.
  - by rewrite Hc, H.
  - destruct (exact a); [|done]. destruct He as [Hall ->]. split; [|by rewrite H].
    apply Forall_forall. intros s Hs. rewrite <-H in Hs. by apply (proj1 (Forall_forall _ _) Hall).
Qed.

(** *** A bucket that stands for its samples passes its own check *)

Lemma total_consistent l f : inconsistent (Z.of_nat (length l)) (total_of l f) = false.
Proof.
  unfold inconsistent. pose proof (total_known_le l f) as Hk.
  rewrite (proj2 (Z.ltb_ge _ _) Hk). simpl.
  destruct (omap f l) as [|x k] eqn:E; [done|]. by rewrite (proj2 (Z.eqb_neq _ 0)) by (simpl; lia).
Qed.

Lemma exact_count_le l : exact_count l ≤ Z.of_nat (length l).
Proof. unfold exact_count. pose proof (List.filter_length_le (λ s, s_exact s == Some true) l). lia. Qed.

Lemma stands_for_valid l a : stands_for l a → aggregate_validate a = Ok tt.
Proof.
  intros (Hn & Ht & Hc & He). unfold aggregate_validate. rewrite Ht, Hc, Hn.
  replace (existsb _ _) with false.
  - destruct (exact a) as [e|]; simpl; [|done]. destruct He as [_ ->].
    pose proof (exact_count_le l) as Hle. by rewrite (proj2 (Z.ltb_ge _ _) Hle).
  - symmetry. change [total_of l s_cost] with (total_of l <$> [s_cost]). rewrite <-fmap_app.
    generalize (app columns [s_cost]). intros cs. induction cs as [|f cs IH]; [done|]. csimpl. simpl.
    by rewrite total_consistent, IH.
Qed.

(** *** Adding *)

Lemma change_total_add s l f :
  Z.of_nat (length (s :: l)) ≤ u64_max →
  change_total false (total_of l f) (f s) =
  if sum (total_of (s :: l) f) <=? u64_max then Ok (total_of (s :: l) f)
  else match f s with Some _ => Err OUT_OF_RANGE | None => Ok (total_of (s :: l) f) end.
Proof.
  intros Hn. unfold change_total, change_by, checked_add. rewrite total_of_cons.
  destruct (f s) as [v|]; [|by destruct (_ <=? _)].
  pose proof (total_known_le l f) as Hk. cbn [sum known_samples].
  destruct (sum (total_of l f) + v <=? u64_max); cbn [ok_or]; [|done].
  rewrite length_cons in Hn.
  by rewrite (proj2 (Z.leb_le (known_samples (total_of l f) + 1) u64_max)) by lia.
Qed.

Lemma change_totals_add s l cs :
  Z.of_nat (length (s :: l)) ≤ u64_max → Forall (λ f, sum (total_of (s :: l) f) ≤ u64_max) cs →
  change_totals false (total_of l <$> cs) ((λ f, f s) <$> cs) = Ok (total_of (s :: l) <$> cs).
Proof.
  intros Hn. induction 1 as [|f cs Hf _ IH]; [done|]. csimpl. cbn [change_totals].
  by rewrite change_total_add, (proj2 (Z.leb_le _ _) Hf), IH.
Qed.

Lemma change_totals_add_Ok s l cs ts :
  Z.of_nat (length (s :: l)) ≤ u64_max → Forall (λ f, sum (total_of l f) ≤ u64_max) cs →
  change_totals false (total_of l <$> cs) ((λ f, f s) <$> cs) = Ok ts →
  Forall (λ f, sum (total_of (s :: l) f) ≤ u64_max) cs.
Proof.
  intros Hn Hfit. revert ts. induction Hfit as [|f cs Hf _ IH]; intros ts; [done|]. csimpl. cbn [change_totals].
  rewrite change_total_add by done. destruct (Z.leb_spec (sum (total_of (s :: l) f)) u64_max) as [Hle|Hgt].
  - destruct (change_totals _ _ _) as [rest|]; [|done]. intros _. constructor; [done|by eapply IH].
  - rewrite total_of_cons in Hgt. destruct (f s) eqn:Ef; [done|]. lia.
Qed.

Definition exact_said (e : option Z) (said : option bool) : option Z :=
  match e, said with Some n, Some true => Some (n + 1) | Some n, Some false => Some n | _, _ => None end.

Lemma exact_said_cons l s e :
  match e with Some e => Forall (λ s, is_Some (s_exact s)) l ∧ e = exact_count l | None => True end →
  match exact_said e (s_exact s) with
  | Some e => Forall (λ s, is_Some (s_exact s)) (s :: l) ∧ e = exact_count (s :: l)
  | None => True
  end.
Proof.
  destruct e as [n|]; simpl; [|done]. intros [Hall ->]. destruct (s_exact s) as [[]|] eqn:E; [| |done].
  - split; [by constructor|]. unfold exact_count. simpl. rewrite E, eqb_refl. simpl. lia.
  - split; [by constructor|]. unfold exact_count. simpl. by rewrite E.
Qed.

Lemma add_step l a s :
  stands_for l a → fits (s :: l) →
  ∃ a', add_priced a (s_counters s) (s_exact s) (s_cost s) = Ok a' ∧ stands_for (s :: l) a'.
Proof.
  intros (Hn & Ht & Hc & He) [Hlen [Hcols Hcost]%Forall_app]. rewrite Forall_singleton in Hcost.
  set (a' := mkAggregate (Z.of_nat (length (s :: l))) (total_of (s :: l) <$> columns)
               (exact_said (exact a) (s_exact s)) (total_of (s :: l) s_cost)).
  assert (stands_for (s :: l) a') as Hs by (split_and!; [done..|by apply exact_said_cons]).
  exists a'. split; [|done]. unfold add_priced, change.
  rewrite Hn, Ht, Hc, values_columns, change_totals_add, change_total_add by done.
  rewrite length_cons in Hlen.
  unfold change_by, checked_add. rewrite (proj2 (Z.leb_le (Z.of_nat (length l) + 1) u64_max)) by lia. cbn [ok_or].
  rewrite (proj2 (Z.leb_le _ _) Hcost).
  replace (Z.of_nat (length l) + 1) with (Z.of_nat (length (s :: l))) by (simpl; lia).
  pose proof (stands_for_valid _ _ Hs) as Hv. unfold a' in *.
  destruct (exact a) as [e|]; cbn [exact_said] in *; [|by rewrite Hv].
  destruct (s_exact s) as [[]|]; cbn [exact_said] in *; [|by rewrite Hv|by rewrite Hv].
  destruct He as [_ ->]. pose proof (exact_count_le l).
  rewrite (proj2 (Z.leb_le (exact_count l + 1) u64_max)) by lia. cbn [ok_or]. by rewrite Hv.
Qed.

Lemma add_Ok_fits l a s a' :
  stands_for l a → fits l →
  add_priced a (s_counters s) (s_exact s) (s_cost s) = Ok a' → fits (s :: l).
Proof.
  intros (Hn & Ht & Hc & He) [Hlen [Hcols Hcost]%Forall_app]. rewrite Forall_singleton in Hcost.
  unfold add_priced, change. rewrite Hn, Ht, Hc, values_columns. unfold change_by at 1.
  destruct (checked_add (Z.of_nat (length l)) 1) as [n|] eqn:En; [|done]. cbn [ok_or].
  apply checked_add_Some in En as [En _].
  assert (Z.of_nat (length (s :: l)) ≤ u64_max) as Hl by (simpl; lia).
  destruct (match exact a with Some _ => _ | None => _ end) as [e|]; [|done].
  destruct (change_totals _ _ _) as [ts|] eqn:Ets; [|done].
  rewrite (change_total_add s l s_cost Hl). intros H. split; [done|]. apply Forall_app. split.
  - by eapply change_totals_add_Ok.
  - apply Forall_singleton. destruct (Z.leb_spec (sum (total_of (s :: l) s_cost)) u64_max); [done|].
    destruct (s_cost s) eqn:Es; [done|]. rewrite total_of_cons, Es. done.
Qed.

(** *** Removing *)

Lemma change_total_remove s l f :
  0 ≤ sum (total_of l f) → change_total true (total_of (s :: l) f) (f s) = Ok (total_of l f).
Proof.
  intros Hs. rewrite total_of_cons. unfold change_total, change_by, checked_sub. destruct (f s) as [v|]; [|done].
  cbn [sum known_samples]. rewrite (proj2 (Z.leb_le v _)) by lia. cbn [ok_or].
  assert (0 ≤ known_samples (total_of l f)) by (simpl; lia).
  rewrite (proj2 (Z.leb_le 1 _)) by lia. cbn [ok_or]. destruct (total_of l f); cbn [sum known_samples].
  do 2 f_equal; lia.
Qed.

Lemma change_totals_remove s l cs :
  Forall (λ f, 0 ≤ sum (total_of l f)) cs →
  change_totals true (total_of (s :: l) <$> cs) ((λ f, f s) <$> cs) = Ok (total_of l <$> cs).
Proof.
  induction 1 as [|f cs Hf _ IH]; [done|]. csimpl. cbn [change_totals]. by rewrite change_total_remove, IH.
Qed.

Lemma remove_step l a s :
  stands_for (s :: l) a → Forall sample_wf l →
  ∃ a', remove_priced a (s_counters s) (s_exact s) (s_cost s) = Ok a' ∧ stands_for l a'.
Proof.
  intros (Hn & Ht & Hc & He) Hwf.
  assert (∀ f, f ∈ app columns [s_cost] → 0 ≤ sum (total_of l f)) as Hpos by (intros; by apply total_sum_nonneg).
  set (e' := match exact a, s_exact s with
             | Some n, Some true => Some (n - 1) | Some n, Some false => Some n | _, _ => None end).
  set (a' := mkAggregate (Z.of_nat (length l)) (total_of l <$> columns) e' (total_of l s_cost)).
  assert (∀ n, exact a = Some n → s_exact s = Some true → n = exact_count l + 1) as Htrue.
  { intros n En Es. rewrite En in He. destruct He as [_ ->]. unfold exact_count. simpl. rewrite Es, eqb_refl.
    simpl. lia. }
  assert (stands_for l a') as Hs.
  { split_and!; [done..|]. simpl. unfold e'. destruct (exact a) as [n|]; [|done]. destruct He as [Hall En].
    apply Forall_cons in Hall as [Hsay Hall]. destruct (s_exact s) as [[]|] eqn:Es; [| |done]; split; try done.
    - rewrite (Htrue n) by done. lia.
    - rewrite En. unfold exact_count. simpl. by rewrite Es. }
  exists a'. split; [|done]. unfold remove_priced, change.
  rewrite Hn, Ht, Hc, values_columns, change_totals_remove, change_total_remove.
  2: { apply Hpos. set_solver. } 2: { apply Forall_forall. intros f Hf. apply Hpos. set_solver. }
  unfold change_by, checked_sub. rewrite (proj2 (Z.leb_le 1 _)) by (simpl; lia). cbn [ok_or].
  replace (Z.of_nat (length (s :: l)) - 1) with (Z.of_nat (length l)) by (simpl; lia).
  pose proof (stands_for_valid _ _ Hs) as Hv. unfold a', e' in *.
  destruct (exact a) as [n|]; [|by rewrite Hv]. destruct (s_exact s) as [[]|]; [|by rewrite Hv..].
  rewrite (Htrue n), (proj2 (Z.leb_le 1 _)) by (try done; unfold exact_count; lia). cbn [ok_or].
  by rewrite <-(Htrue n), Hv.
Qed.

(** *** Merging *)

Lemma merge_total_app l k f :
  Z.of_nat (length (app l k)) ≤ u64_max →
  merge_total (total_of l f) (total_of k f) =
  if sum (total_of (app l k) f) <=? u64_max then Ok (total_of (app l k) f) else Err OUT_OF_RANGE.
Proof.
  intros Hn. rewrite length_app in Hn. rewrite total_of_app. unfold merge_total, checked_add.
  pose proof (total_known_le l f). pose proof (total_known_le k f). cbn [sum].
  destruct (sum (total_of l f) + sum (total_of k f) <=? u64_max); cbn [ok_or]; [|done].
  by rewrite (proj2 (Z.leb_le (known_samples (total_of l f) + known_samples (total_of k f)) u64_max)) by lia.
Qed.

Lemma merge_totals_app l k cs :
  Z.of_nat (length (app l k)) ≤ u64_max → Forall (λ f, sum (total_of (app l k) f) ≤ u64_max) cs →
  merge_totals (total_of l <$> cs) (total_of k <$> cs) = Ok (total_of (app l k) <$> cs).
Proof.
  intros Hn. induction 1 as [|f cs Hf _ IH]; [done|]. csimpl. cbn [merge_totals].
  by rewrite merge_total_app, (proj2 (Z.leb_le _ _) Hf), IH.
Qed.

Lemma merge_totals_Ok l k cs ts :
  Z.of_nat (length (app l k)) ≤ u64_max →
  merge_totals (total_of l <$> cs) (total_of k <$> cs) = Ok ts →
  Forall (λ f, sum (total_of (app l k) f) ≤ u64_max) cs.
Proof.
  intros Hn. revert ts. induction cs as [|f cs IH]; intros ts; [done|]. csimpl. cbn [merge_totals].
  rewrite merge_total_app by done. destruct (Z.leb_spec (sum (total_of (app l k) f)) u64_max) as [Hle|]; [|done].
  destruct (merge_totals _ _) as [rest|]; [|done]. intros _. constructor; [done|by eapply IH].
Qed.

Lemma exact_count_app l k : exact_count (app l k) = exact_count l + exact_count k.
Proof. unfold exact_count. rewrite List.filter_app, length_app. lia. Qed.

Definition exact_sum (a b : option Z) : option Z :=
  match a, b with Some n, Some m => Some (n + m) | _, _ => None end.

Lemma merge_step l k a b :
  stands_for l a → stands_for k b → fits (app l k) →
  ∃ c, merge a b = Ok c ∧ stands_for (app l k) c.
Proof.
  intros (Hn & Ht & Hc & He) (Hn' & Ht' & Hc' & He') [Hlen [Hcols Hcost]%Forall_app].
  rewrite Forall_singleton in Hcost.
  set (c := mkAggregate (Z.of_nat (length (app l k))) (total_of (app l k) <$> columns)
              (exact_sum (exact a) (exact b)) (total_of (app l k) s_cost)).
  assert (stands_for (app l k) c) as Hs.
  { split_and!; [done..|]. simpl. destruct (exact a) as [n|], (exact b) as [m|]; simpl; try done.
    destruct He as [Hl ->], He' as [Hk ->]. by rewrite exact_count_app, Forall_app. }
  exists c. split; [|done]. unfold merge.
  rewrite Hn, Hn', Ht, Ht', Hc, Hc', merge_totals_app, merge_total_app, (proj2 (Z.leb_le _ _) Hcost) by done.
  pose proof (stands_for_valid _ _ Hs) as Hv. unfold c in *. rewrite length_app, Nat2Z.inj_add in *.
  unfold checked_add. rewrite (proj2 (Z.leb_le (_ + _) _) Hlen). cbn [ok_or].
  destruct (exact a) as [n|], (exact b) as [m|]; cbn [exact_sum] in *; try by rewrite Hv.
  destruct He as [_ ->], He' as [_ ->]. pose proof (exact_count_le l). pose proof (exact_count_le k).
  rewrite (proj2 (Z.leb_le (exact_count l + exact_count k) _)) by lia. cbn [ok_or]. by rewrite Hv.
Qed.

Lemma merge_Ok_fits l k a b c :
  stands_for l a → stands_for k b → merge a b = Ok c → fits (app l k).
Proof.
  intros (Hn & Ht & Hc & He) (Hn' & Ht' & Hc' & He'). unfold merge. rewrite Hn, Hn', Ht, Ht', Hc, Hc'.
  destruct (checked_add (Z.of_nat (length l)) _) as [n|] eqn:En; [|done]. cbn [ok_or].
  apply checked_add_Some in En as [En _].
  assert (Z.of_nat (length (app l k)) ≤ u64_max) as Hl by (rewrite length_app; lia).
  destruct (merge_totals _ _) as [ts|] eqn:Ets; [|done]. rewrite merge_total_app by done.
  destruct (Z.leb_spec (sum (total_of (app l k) s_cost)) u64_max) as [Hle|]; [|done]. intros _.
  split; [done|]. apply Forall_app. split; [by eapply merge_totals_Ok|by apply Forall_singleton].
Qed.

(** *** Pricing *)

Definition priced (s : Sample) (p : Z) : Sample := mkSample (s_counters s) (s_exact s) (Some p).

Lemma priced_columns s p f : f ∈ columns → f (priced s p) = f s.
Proof. unfold columns. rewrite !elem_of_cons, elem_of_nil. intros; destruct_or!; by subst. Qed.

Lemma price_step l a s p a' :
  stands_for (s :: l) a → s_cost s = None → price a p = Ok a' →
  stands_for (priced s p :: l) a' ∧ sum (total_of (priced s p :: l) s_cost) ≤ u64_max.
Proof.
  intros (Hn & Ht & Hc & He) Hs. unfold price. rewrite Hc.
  assert (total_of (s :: l) s_cost = total_of l s_cost) as -> by (by rewrite total_of_cons, Hs).
  destruct (checked_add (sum _) p) as [n|] eqn:En; [|done]. cbn [ok_or].
  destruct (checked_add (known_samples _) 1) as [m|] eqn:Em; [|done]. cbn [ok_or].
  apply checked_add_Some in En as [Hle ->], Em as [_ ->].
  destruct (aggregate_validate _); [|done]. intros [= <-].
  rewrite total_of_cons. cbn [s_cost priced sum]. split; [|done].
  split_and!; [done| |by rewrite total_of_cons|].
  - cbn [totals]. rewrite Ht. done.
  - cbn [exact]. destruct (exact a); [|done]. destruct He as [Hall ->]. split.
    + apply Forall_cons in Hall as [? ?]. by constructor.
    + unfold exact_count. simpl. by destruct (_ == _).
Qed.

(** *** Histories of buckets

    Each bucket with the samples it was made of. *)
Inductive bucket : list Sample → Aggregate → Prop :=
| bucket_empty : bucket [] aggregate_default
| bucket_add l a s a' :
    bucket l a → sample_wf s → add_priced a (s_counters s) (s_exact s) (s_cost s) = Ok a' → bucket (s :: l) a'
| bucket_remove l a s a' :
    bucket (s :: l) a → remove_priced a (s_counters s) (s_exact s) (s_cost s) = Ok a' → bucket l a'
| bucket_price l a s p a' :
    bucket (s :: l) a → s_cost s = None → u64 p → price a p = Ok a' → bucket (priced s p :: l) a'
| bucket_merge l k a b c : bucket l a → bucket k b → merge a b = Ok c → bucket (app l k) c
| bucket_perm l k a : bucket l a → l ≡ₚ k → bucket k a.

Lemma fits_cons_inv s l : Forall sample_wf (s :: l) → fits (s :: l) → fits l.
Proof.
  intros [Hs Hl]%Forall_cons [Hn Hf]. split; [simpl in Hn; lia|].
  apply Forall_forall. intros f Hin. pose proof (proj1 (Forall_forall _ _) Hf f Hin) as Hle. simpl in Hle.
  pose proof (column_wf s f Hs Hin) as Hv. change (sum (total_of (s :: l) f) ≤ u64_max) in Hle.
  rewrite total_of_cons in Hle. destruct (f s) as [v|]; [|done]. simpl in *. unfold u64 in Hv. lia.
Qed.

Lemma bucket_inv l a : bucket l a → stands_for l a ∧ fits l ∧ Forall sample_wf l.
Proof.
  induction 1 as [|l a s a' _ (Hs & Hf & Hw) Hsw Ha|l a s a' _ (Hs & Hf & Hw) Ha
                 |l a s p a' _ (Hs & Hf & Hw) Hp Hu Ha|l k a b c _ (Hs & Hf & Hw) _ (Hs' & Hf' & Hw') Ha
                 |l k a _ (Hs & Hf & Hw) HP].
  - split_and!; [done| |done]. split; [done|]. repeat constructor; done.
  - pose proof (add_Ok_fits _ _ _ _ Hs Hf Ha) as Hfit. destruct (add_step _ _ s Hs Hfit) as (a'' & Ha' & Hst).
    rewrite Ha in Ha'. injection Ha' as <-. split_and!; [done..|by constructor].
  - pose proof (fits_cons_inv _ _ Hw Hf). apply Forall_cons in Hw as [? Hw].
    destruct (remove_step _ _ s Hs Hw) as (a'' & Ha' & Hst). rewrite Ha in Ha'. by injection Ha' as <-.
  - destruct (price_step _ _ _ _ _ Hs Hp Ha) as [Hst Hsum]. split_and!; [done| |].
    + destruct Hf as [Hn [Hc _]%Forall_app]. split; [done|]. apply Forall_app. split; [|by apply Forall_singleton].
      apply Forall_forall. intros f Hin. pose proof (proj1 (Forall_forall _ _) Hc f Hin) as Hle. simpl in Hle.
      change (sum (total_of (s :: l) f) ≤ u64_max) in Hle. by rewrite total_of_cons, priced_columns, <-total_of_cons.
    + apply Forall_cons in Hw as [[Hc _] Hw]. by constructor.
  - pose proof (merge_Ok_fits _ _ _ _ _ Hs Hs' Ha) as Hfit.
    destruct (merge_step _ _ _ _ Hs Hs' Hfit) as (c' & Ha' & Hst). rewrite Ha in Ha'. injection Ha' as <-.
    split_and!; [done..|by apply Forall_app].
  - split_and!; [by rewrite <-HP| |].
    + destruct Hf as [Hn Hc]. split; [by rewrite <-HP|]. eapply Forall_impl; [exact Hc|]. intros f. cbn beta. by rewrite HP.
    + apply Forall_forall. intros x Hx. rewrite <-HP in Hx. by apply (proj1 (Forall_forall _ _) Hw).
Qed.

(** *** Registrations *)

Section Best.
Context (op : Z → Z → Z) (R : relation Z) `{!PartialOrder R}.
Hypothesis op_one : ∀ a b, op a b = a ∨ op a b = b.
Hypothesis op_l : ∀ a b, R a (op a b).
Hypothesis op_r : ∀ a b, R b (op a b).

Lemma foldl_best l a :
  let m := foldl op a l in (m = a ∨ m ∈ l) ∧ R a m ∧ ∀ x, x ∈ l → R x m.
Proof.
  revert a. induction l as [|y l IH]; intros a; simpl.
  { split_and!; [by left|done|by intros ? ?%elem_of_nil]. }
  destruct (IH (op a y)) as (Hin & Ha & Hall). split_and!.
  - rewrite elem_of_cons. destruct Hin as [->|]; [|tauto]. destruct (op_one a y) as [->| ->]; tauto.
  - etransitivity; [apply op_l|done].
  - intros x [->|Hx]%elem_of_cons; [etransitivity; [apply op_r|done]|by apply Hall].
Qed.

Lemma best_spec l m : best op l = Some m ↔ m ∈ l ∧ ∀ x, x ∈ l → R x m.
Proof.
  destruct l as [|a l]; simpl.
  { split; [done|]. by intros [[]%elem_of_nil _]. }
  destruct (foldl_best l a) as (Hin & Ha & Hall). rewrite elem_of_cons. split.
  - intros [= <-]. split; [done|]. intros x [->|Hx]%elem_of_cons; [done|by apply Hall].
  - intros [Hm Hub]. f_equal. apply (anti_symm R).
    + apply Hub. rewrite elem_of_cons. naive_solver.
    + destruct Hm as [->|Hm]; [done|by apply Hall].
Qed.
End Best.

Lemma maximum_spec l m : maximum l = Some m ↔ m ∈ l ∧ ∀ x, x ∈ l → x ≤ m.
Proof. apply best_spec; [apply _|intros; lia..]. Qed.

Lemma minimum_spec l m : minimum l = Some m ↔ m ∈ l ∧ ∀ x, x ∈ l → m ≤ x.
Proof.
  assert (PartialOrder (flip Z.le)).
  { split; [split; [intros x|intros x y z]|intros x y]; unfold flip; lia. }
  apply (best_spec Z.min (flip Z.le)); intros; unfold flip; lia.
Qed.

Lemma maximum_None l : maximum l = None ↔ l = [].
Proof. by destruct l. Qed.

Section Windows.
Context {K : Type}.
Implicit Types regs : list (K * instant).

Definition window_has (w : @Window K) (at_ : instant) : Prop :=
  (∀ f, w.1.2 = Some f → f ≤ at_) ∧ (∀ u, w.2 = Some u → at_ < u).

(** The time among [times] that owns [at_]: the last not after it, or the
    first of all. *)
Definition owns (first : bool) (times : list instant) (at_ t : instant) : Prop :=
  ∃ i, times !! i = Some t ∧ ((i = 0%nat ∧ first = true) ∨ t ≤ at_) ∧ ∀ u, times !! S i = Some u → at_ < u.

Lemma windows_from_spec regs first times at_ k :
  (∃ w, w ∈ windows_from regs first times ∧ w.1.1 = k ∧ window_has w at_) ↔
  ∃ t, owns first times at_ t ∧ only_at regs t = Some k.
Proof.
  revert first. induction times as [|t rest IH]; intros first; simpl.
  { split; [by intros (w & []%elem_of_nil & _)|]. by intros (t & (i & ? & _) & _). }
  setoid_rewrite elem_of_app. split.
  - intros (w & [Hw|Hw] & Hk & Hat).
    + exists t. destruct (only_at regs t) as [k'|]; [|by apply elem_of_nil in Hw].
      apply list_elem_of_singleton in Hw as ->. simpl in Hk. subst. split; [|done].
      destruct Hat as [Hf Hu]. exists 0%nat. split_and!; [done| |].
      * destruct first; [by left|right; by apply Hf].
      * simpl. intros u Hu'. apply Hu. simpl. by destruct rest.
    + destruct (proj1 (IH false)) as (t' & (i & Hi & Hor & Hn) & Ho); [by exists w|].
      exists t'. split; [|done]. exists (S i). split_and!; [done| |done]. right. by destruct Hor as [[? ?]|].
  - intros (t' & ([|i] & Hi & Hor & Hn) & Ho); simpl in Hi.
    + simplify_eq. rewrite Ho. eexists. split; [left; by left|]. split; [done|]. split; simpl.
      * intros f Hf. destruct first; [done|]. simplify_eq. by destruct Hor as [[_ ?]|].
      * intros u Hu. apply Hn. by destruct rest.
    + destruct (proj2 (IH false)) as (w & Hw & Hk & Hat).
      { exists t'. split; [|done]. exists i. split_and!; [done| |done]. right. by destruct Hor as [[? _]|]. }
      exists w. by split; [right|].
Qed.

Lemma owns_current (l times : list instant) at_ t :
  StronglySorted (λ a b, a ≤ b ∧ a ≠ b) times → (∀ x, x ∈ times ↔ x ∈ l) →
  owns true times at_ t ↔
  match maximum (List.filter (λ t, t <=? at_) l) with Some t => Some t | None => minimum l end = Some t.
Proof.
  intros Hs Hel.
  assert (∀ x, x ∈ List.filter (λ t, t <=? at_) l ↔ x ∈ l ∧ x ≤ at_) as Hfil.
  { intros x. by rewrite list_elem_of_In, filter_In, <-list_elem_of_In, Z.leb_le. }
  assert (∀ i j a b, times !! i = Some a → times !! j = Some b → (i < j)%nat → a < b) as Hlt.
  { intros i j a b Ha Hb Hij. destruct (StronglySorted_lookup _ _ _ _ _ _ Hs Ha Hb Hij). lia. }
  split.
  - intros (i & Hi & Hor & Hn). assert (t ∈ l) as Hin by (apply Hel; by eapply list_elem_of_lookup_2).
    assert (∀ x, x ∈ l → x ≤ at_ → x ≤ t) as Hmax.
    { intros x Hx Hxa. apply Hel, list_elem_of_lookup in Hx as [j Hj].
      destruct (decide (i < j)%nat) as [Hij|Hij].
      - destruct (lookup_lt_is_Some_2 times (S i)) as [u Hu]; [apply lookup_lt_Some in Hj; lia|].
        specialize (Hn u Hu). destruct (decide (j = S i)) as [->|]; [simplify_eq; lia|].
        assert (u < x) by (eapply (Hlt (S i) j); eauto; lia). lia.
      - destruct (decide (i = j)) as [<-|]; [simplify_eq; lia|].
        assert (x < t) by (eapply (Hlt j i); eauto; lia). lia. }
    destruct (decide (t ≤ at_)) as [Hta|Hta].
    + rewrite (proj2 (maximum_spec _ t)); [done|]. split; [by apply Hfil|]. intros x [Hx ?]%Hfil. by apply Hmax.
    + destruct Hor as [[-> _]|]; [|done].
      assert (∀ x, x ∈ l → t ≤ x) as Hmin.
      { intros x Hx. apply Hel, list_elem_of_lookup in Hx as [[|j] Hj]; [simplify_eq; lia|].
        assert (t < x) by (eapply (Hlt 0%nat (S j)); eauto; lia). lia. }
      destruct (maximum _) as [m|] eqn:Em; [|by apply minimum_spec].
      apply maximum_spec in Em as [[Hm Hma]%Hfil _]. specialize (Hmin m Hm). lia.
  - destruct (maximum _) as [m|] eqn:Em.
    + intros [= <-]. apply maximum_spec in Em as [[Hm Hma]%Hfil Hall].
      apply Hel, list_elem_of_lookup in Hm as [i Hi]. exists i. split_and!; [done|by right|].
      intros u Hu. destruct (decide (u ≤ at_)) as [Hua|]; [|lia].
      assert (u ≤ m) by (apply Hall, Hfil; split; [apply Hel; by eapply list_elem_of_lookup_2|done]).
      assert (m < u) by (eapply (Hlt i (S i)); eauto; lia). lia.
    + intros [Ht Hmin]%minimum_spec. apply maximum_None in Em.
      assert (∀ x, x ∈ l → at_ < x) as Hgt.
      { intros x Hx. destruct (decide (x ≤ at_)); [|lia]. assert (x ∈ []) as []%elem_of_nil. rewrite <-Em. by apply Hfil. }
      apply Hel, list_elem_of_lookup in Ht as [i Hi]. exists i. split_and!; [done| |].
      * left. split; [|done]. destruct i as [|i]; [done|].
        destruct (lookup_lt_is_Some_2 times 0%nat) as [u Hu]; [apply lookup_lt_Some in Hi; lia|].
        assert (u < t) by (eapply (Hlt 0%nat (S i)); eauto; lia).
        assert (t ≤ u) by (apply Hmin, Hel; by eapply list_elem_of_lookup_2). lia.
      * intros u Hu. apply Hgt, Hel. by eapply list_elem_of_lookup_2.
Qed.

Lemma times_sorted (l : list instant) :
  StronglySorted (λ a b, a ≤ b ∧ a ≠ b) (dedup (sort_by Z.leb l)) ∧ ∀ x, x ∈ dedup (sort_by Z.leb l) ↔ x ∈ l.
Proof.
  split; [|intros x; by rewrite elem_of_dedup, elem_of_sort_by].
  apply dedup_strict; [intros a b; lia|].
  assert (StronglySorted (λ a b, Z.leb a b = true) (sort_by Z.leb l)) as Hs.
  { apply sort_by_sorted; [intros a b|intros a b c]; rewrite !Z.leb_le; lia. }
  clear -Hs. induction Hs as [|x k _ IH Hx]; constructor; [done|]. eapply Forall_impl; [exact Hx|].
  intros y Hy. by apply Z.leb_le.
Qed.
End Windows.

(** *** What is known *)

Lemma omap_nil_existsb (f : Sample → option Z) l : omap f l = [] ↔ existsb (λ s, is_some (f s)) l = false.
Proof.
  induction l as [|s l IH]; [done|]. csimpl. simpl. by destruct (f s); simpl.
Qed.

Lemma omap_all_known (f : Sample → option Z) l : length (omap f l) = length l ↔ ∀ s, s ∈ l → is_Some (f s).
Proof.
  induction l as [|s l IH]; csimpl.
  { split; [by intros _ s []%elem_of_nil|done]. }
  setoid_rewrite elem_of_cons. destruct (f s) as [v|] eqn:E; simpl.
  - rewrite Nat.succ_inj_wd, IH. naive_solver.
  - pose proof (length_omap_le f l). split; [lia|]. intros Hall. destruct (Hall s); [by left|congruence].
Qed.

Lemma exact_all l :
  exact_count l = Z.of_nat (length l) → ∀ s, s ∈ l → s_exact s = Some true.
Proof.
  unfold exact_count. induction l as [|x l IH]; simpl; [by intros _ s []%elem_of_nil|].
  pose proof (List.filter_length_le (λ s, s_exact s == Some true) l).
  destruct (s_exact x == Some true) eqn:E; simpl; [|lia]. split_and_bool.
  intros Hn s [->|Hs]%elem_of_cons; [done|]. apply IH; [lia|done].
Qed.

Lemma not_all_exact l :
  Forall (λ s, is_Some (s_exact s)) l → exact_count l ≠ Z.of_nat (length l) → ∃ s, s ∈ l ∧ s_exact s = Some false.
Proof.
  unfold exact_count. induction 1 as [|x l [e Hx] _ IH]; [done|]. simpl. rewrite Hx.
  destruct e; [rewrite eqb_refl; simpl|by exists x; split; [left|]].
  intros Hn. destruct IH as (s & Hs & Es); [lia|]. exists s. by split; [right|].
Qed.

(** *** Observation *)

(** A run of snapshots of one session without a gap: what each contributed,
    from one baseline to another. Exact replays change nothing. *)
Inductive run : Baseline → list Counters → Baseline → Prop :=
| run_nil b : run b [] b
| run_replay b at_ c z ds b' : observe_cumulative (Some b) at_ c z = Ok None → run b ds b' → run b ds b'
| run_step b at_ c z o d ds b' :
    observe_cumulative (Some b) at_ c z = Ok (Some o) → ob_contribution o = Some d →
    run (ob_baseline o) ds b' → run b (d :: ds) b'.

Lemma value_at_from_values f i : (i < 5)%nat → value_at (from_values f) i = f i.
Proof. intros Hi. do 5 (destruct i as [|i]; [done|]). lia. Qed.

Lemma observe_contribution b at_ c z o d :
  observe_cumulative (Some b) at_ c z = Ok (Some o) → ob_contribution o = Some d →
  bl_at b < at_ ∧ ob_baseline o = mkBaseline at_ c (bl_epoch b) ∧ ob_gap o = None ∧ delta c (bl_counters b) = Some d.
Proof.
  unfold observe_cumulative. destruct (Z.ltb_spec at_ (bl_at b)); [done|].
  destruct (Z.eqb_spec at_ (bl_at b)); [by destruct (_ == _)|].
  destruct (delta _ _) as [d'|].
  - intros [= <-]. simpl. intros [= <-]. split_and!; [lia|done..].
  - destruct (ok_or _ _); [|done]. by intros [= <-].
Qed.

Lemma delta_value c p d i v :
  (i < 5)%nat → delta c p = Some d → value_at d i = Some v →
  ∃ now old, value_at c i = Some now ∧ value_at p i = Some old ∧ 0 ≤ v ∧ now = old + v.
Proof.
  intros Hi. unfold delta. destruct (existsb _ _); [done|]. intros [= <-]. rewrite value_at_from_values by done.
  destruct (value_at c i) as [now|]; [|done]. destruct (value_at p i) as [old|]; [|done]. cbn [mbind option_bind].
  intros [Hle ->]%checked_sub_Some. exists now, old. split_and!; [done..|lia|lia].
Qed.

(** *** Hours *)

Lemma hour_le t : hour t ≤ t < hour t + hours 1.
Proof. unfold hour. pose proof (Z.mod_pos_bound t (hours 1) ltac:(done)). lia. Qed.

Lemma hour_mono a b : a ≤ b → hour a ≤ hour b.
Proof.
  intros H. unfold hour. pose proof (Z.div_mod a (hours 1) ltac:(done)).
  pose proof (Z.div_mod b (hours 1) ltac:(done)).
  pose proof (Z.div_le_mono a b (hours 1) ltac:(done) H) as Hd.
  apply (Z.mul_le_mono_nonneg_l _ _ (hours 1)) in Hd; [lia|done].
Qed.

Lemma hour_idem t : hour (hour t) = hour t.
Proof. unfold hour. rewrite Zminus_mod_idemp_r. rewrite Z.sub_diag, Z.mod_0_l by done. lia. Qed.

Lemma hour_next t : hour (hour t + hours 1) = hour t + hours 1.
Proof.
  unfold hour at 1. rewrite Z.add_mod, Z.mod_same, Z.add_0_r, Z.mod_mod by done.
  replace (hour t `mod` hours 1) with 0; [lia|]. pose proof (hour_idem t) as E. unfold hour at 1 in E. lia.
Qed.
End UsageFacts.

(** ** Properties *)

Module UsageProps.
Import UsageFacts.

(** C33: A bucket is its samples, whatever was added to it, removed from it,
    priced later and merged into it: every sum is the sum of the values its
    samples reported and every count the number of them, an unknown value is
    never a zero. A sample can be added, and two buckets merged, exactly when
    no number overflows, and a sample that is in the bucket can always be
    taken out again. *)
Theorem bucket_is_its_samples l a (Hb : bucket l a) :
  stands_for l a ∧
  (∀ s, sample_wf s →
     is_ok (add_priced a (s_counters s) (s_exact s) (s_cost s)) = true ↔ fits (s :: l)) ∧
  (∀ k b, bucket k b → is_ok (merge a b) = true ↔ fits (app l k)) ∧
  (∀ s k, l ≡ₚ s :: k →
     ∃ a', remove_priced a (s_counters s) (s_exact s) (s_cost s) = Ok a' ∧ stands_for k a').
Proof.
  destruct (bucket_inv _ _ Hb) as (Hs & Hf & Hw). split_and!; [done|..].
  - intros s _. split.
    + destruct (add_priced _ _ _ _) as [a'|] eqn:E; [|done]. intros _. by eapply add_Ok_fits.
    + intros Hfit. by destruct (add_step _ _ s Hs Hfit) as (a' & -> & _).
  - intros k b (Hs' & _ & _)%bucket_inv. split.
    + destruct (merge a b) as [c|] eqn:E; [|done]. intros _. by eapply merge_Ok_fits.
    + intros Hfit. by destruct (merge_step _ _ _ _ Hs Hs' Hfit) as (c & -> & _).
  - intros s k HP. rewrite HP in Hs. apply remove_step; [done|].
    apply Forall_forall. intros x Hx. apply (proj1 (Forall_forall _ _) Hw). rewrite HP. by right.
Qed.

(** What a bucket reports of a counter: a sum when some sample reported it
    and nothing when none did; complete only when the source is and every
    sample reported it. And its figures are called exact only when every
    sample is a provider's own, estimated only when one is known not to be. *)
Theorem report_tells_what_is_known l a f (Hb : bucket l a) (Hf : f ∈ app columns [s_cost]) (complete : bool) :
  let r := report_of (samples a) complete (total_of l f) in
  r ∈ app (counters_report a complete) [cost_report a complete] ∧
  (cr_sum r = if existsb (λ s, is_some (f s)) l then Some (Z_sum (omap f l)) else None) ∧
  (cr_coverage r = Complete ↔ complete = true ∧ l ≠ [] ∧ ∀ s, s ∈ l → is_Some (f s)) ∧
  (source a = Some Exact → l ≠ [] ∧ ∀ s, s ∈ l → s_exact s = Some true) ∧
  (source a = Some Estimated → ∃ s, s ∈ l ∧ s_exact s = Some false).
Proof.
  destruct (bucket_inv _ _ Hb) as ((Hn & Ht & Hc & He) & _ & _). intros r. split_and!.
  - unfold r, counters_report, cost_report. rewrite Ht, Hc, elem_of_app, <-list_fmap_compose.
    apply elem_of_app in Hf as [Hf|Hf].
    + left. by apply (list_elem_of_fmap_2 (report_of (samples a) complete ∘ total_of l)).
    + right. apply list_elem_of_singleton in Hf as ->. by left.
  - unfold r, report_of. cbn [cr_sum total_of sum known_samples]. pose proof (omap_nil_existsb f l) as Hnil.
    destruct (existsb _ l) eqn:E.
    + destruct (omap f l); [by discriminate (proj1 Hnil eq_refl)|done].
    + by rewrite (proj2 Hnil eq_refl).
  - unfold r, report_of. cbn [cr_coverage total_of known_samples]. rewrite Hn, <-omap_all_known.
    pose proof (length_omap_le f l). destruct (Z.eqb_spec (Z.of_nat (length (omap f l))) 0) as [E|E].
    + split; [done|]. intros (_ & Hne & Hl). destruct l; [done|]. simpl in *. lia.
    + destruct complete; simpl; [|naive_solver].
      destruct (Z.eqb_spec (Z.of_nat (length (omap f l))) (Z.of_nat (length l))); [|naive_solver lia].
      split; [|done]. intros _. split_and!; [done| |lia]. by destruct l.
  - unfold source. destruct (exact a) as [e|]; [|done]. destruct He as [_ ->]. rewrite Hn.
    destruct (Z.ltb_spec 0 (Z.of_nat (length l))); [|done]. destruct (Z.eqb_spec (exact_count l) (Z.of_nat (length l))); [|done].
    intros _. split; [by destruct l|by apply exact_all].
  - unfold source. destruct (exact a) as [e|]; [|done]. destruct He as [Hall ->]. rewrite Hn.
    destruct (0 <? _); [|done]. destruct (Z.eqb_spec (exact_count l) (Z.of_nat (length l))); [done|].
    intros _. by apply not_all_exact.
Qed.

(** Within an epoch what a session contributes adds up: over any run of
    snapshots without a gap, a counter that every contribution knows stands
    at the end where it stood plus the contributions, none of which is
    negative; the epoch stays and time only goes forward. *)
Theorem contributions_telescope b ds b' i (vs : list Z)
    (Hrun : run b ds b') (Hi : (i < 5)%nat) (Hknown : (λ d, value_at d i) <$> ds = Some <$> vs) :
  Forall (Z.le 0) vs ∧ bl_epoch b' = bl_epoch b ∧ bl_at b ≤ bl_at b' ∧
  ∀ x, value_at (bl_counters b) i = Some x → value_at (bl_counters b') i = Some (x + Z_sum vs).
Proof.
  revert vs Hknown. induction Hrun as [b|b at_ c z ds b' _ _ IH|b at_ c z o d ds b' Ho Hd _ IH]; intros vs Hknown.
  - destruct vs; [|done]. split_and!; [constructor|done|lia|]. intros x Hx. by rewrite Hx, Z.add_0_r.
  - by apply IH.
  - destruct vs as [|v vs]; [done|]. csimpl in Hknown. injection Hknown as Hv Hvs.
    destruct (IH vs Hvs) as (Hpos & He & Hat & Hval).
    destruct (observe_contribution _ _ _ _ _ _ Ho Hd) as (Hlt & Hob & _ & Hdelta).
    destruct (delta_value _ _ _ _ _ Hi Hdelta Hv) as (now & old & Hnow & Hold & Hge & ->).
    rewrite Hob in *. simpl in *. split_and!; [by constructor|done|lia|].
    intros x Hx. rewrite Hold in Hx. injection Hx as <-. rewrite (Hval _ Hnow). f_equal. lia.
Qed.

(** Which registration a sample belongs to, asked sample by sample and asked
    as spans of time, is one question: a registration is chosen for an
    instant exactly when one of its windows holds that instant. *)
Theorem windows_are_the_choice {K} (regs : list (K * instant)) at_ k :
  registration_at regs at_ = Some k ↔
  ∃ w, w ∈ registration_windows regs ∧ w.1.1 = k ∧ window_has w at_.
Proof.
  destruct (times_sorted regs.*2) as [Hs Hel]. unfold registration_windows.
  rewrite windows_from_spec. setoid_rewrite (owns_current _ _ at_ _ Hs Hel). unfold registration_at.
  destruct (match maximum _ with Some _ => _ | None => _ end) as [t|]; cbn [mbind option_bind]; naive_solver.
Qed.

(** The hours a query reads: whole hours, within what is retained, that cover
    every elapsed instant asked for and reach less than an hour past either
    end; what was cut off is said. *)
Theorem range_covers_what_was_asked {C : Chrono} s u now ret r
    (Hr : range_new (Some s) u now ret = Ok r) :
  let upto := Z.min (unwrap_or now u) now in
  hour (effective_since r) = effective_since r ∧ hour (effective_until r) = effective_until r ∧
  (∀ t, s ≤ t < upto → ret ≤ t → effective_since r ≤ t < effective_until r) ∧
  (∀ t, effective_since r ≤ t < effective_until r → ret ≤ t ∧ s - hours 1 < t < upto + hours 1) ∧
  (history_truncated r = true ↔ s < ret) ∧
  (future_until_clamped r = true ↔ ∃ u', u = Some u' ∧ now < u').
Proof.
  intros upto. unfold range_new in Hr. fold upto in Hr.
  destruct ((unwrap_or now u <=? s) || _) eqn:E0; [done|].
  destruct (negb (ret =? hour ret) || _) eqn:E1; [done|]. split_and_bool.
  destruct (upto <=? s) eqn:E2; [done|]. apply Z.leb_gt in E2.
  assert (ret = hour ret) as Hret by (by destruct (Z.eqb_spec ret (hour ret))).
  destruct (if hour upto =? upto then _ else _) as [e|] eqn:Ee; [|done].
  assert (hour e = e ∧ upto ≤ e < upto + hours 1) as [He Hbound].
  { destruct (Z.eqb_spec (hour upto) upto) as [Hu|Hu]; [simplify_eq; split; [done|]|].
    - unfold hours, seconds. lia.
    - unfold checked_add_signed in Ee. destruct (representable _); [|done]. simpl in Ee. injection Ee as <-.
      split; [apply hour_next|]. pose proof (hour_le upto). lia. }
  injection Hr as <-. cbn [effective_since effective_until history_truncated future_until_clamped].
  pose proof (hour_le s). split_and!.
  - destruct (Z.max_spec (hour s) ret) as [[_ ->]|[_ ->]]; [done|apply hour_idem].
  - by destruct (Z.max_spec e ret) as [[_ ->]|[_ ->]].
  - intros t [? ?] ?. lia.
  - intros t [? ?]. split; [lia|]. split; [lia|]. destruct (Z.max_spec e ret); lia.
  - apply Z.ltb_lt.
  - rewrite Z.ltb_lt. destruct u as [u'|]; simpl; [naive_solver|]. split; [lia|naive_solver].
Qed.

(** *** Witnesses *)

Definition w_counted (input output : Z) : Counters := mkCounters (Some input) None None (Some output) None.
Definition w_first : Sample := mkSample (w_counted 100 7) (Some true) (Some 2500).
Definition w_second : Sample := mkSample (mkCounters (Some 50) (Some 20) None None None) (Some false) None.

Definition w_one : Aggregate :=
  Eval vm_compute in
    match add_priced aggregate_default (s_counters w_first) (s_exact w_first) (s_cost w_first) with
    | Ok a => a | Err _ => aggregate_default end.
Definition w_two : Aggregate :=
  Eval vm_compute in
    match add_priced w_one (s_counters w_second) (s_exact w_second) (s_cost w_second) with
    | Ok a => a | Err _ => aggregate_default end.

Lemma w_samples_wf : sample_wf w_first ∧ sample_wf w_second.
Proof. unfold sample_wf, u64_opt, u64, u64_max; simpl. split; (split; [|try lia; done]); repeat constructor; simpl; lia. Qed.

Lemma w_bucket : bucket [w_second; w_first] w_two.
Proof.
  apply (bucket_add [w_first] w_one w_second w_two); [|apply w_samples_wf|vm_compute; reflexivity].
  apply (bucket_add [] aggregate_default w_first w_one); [apply bucket_empty|apply w_samples_wf|vm_compute; reflexivity].
Qed.

Lemma bucket_is_its_samples_witness :
  ∃ a', remove_priced w_two (s_counters w_first) (s_exact w_first) (s_cost w_first) = Ok a' ∧
        stands_for [w_second] a'.
Proof.
  apply (proj2 (proj2 (proj2 (bucket_is_its_samples [w_second; w_first] w_two w_bucket)))).
  apply Permutation_swap.
Defined.

Lemma report_tells_what_is_known_witness :
  cr_coverage (report_of 2 true (total_of [w_second; w_first] (λ s, input_tokens (s_counters s)))) = Complete ∧
  source w_two = Some Estimated.
Proof.
  split; [|vm_compute; reflexivity].
  apply (report_tells_what_is_known [w_second; w_first] w_two (λ s, input_tokens (s_counters s)) w_bucket
           ltac:(left) true).
  split; [reflexivity|]. split; [discriminate|]. intros s Hs. simpl.
  apply elem_of_cons in Hs as [->|Hs]; [by eexists|]. apply list_elem_of_singleton in Hs as ->. by eexists.
Defined.

Lemma contributions_telescope_witness :
  Some 125 = Some (100 + Z_sum [25]).
Proof.
  refine (proj2 (proj2 (proj2 (contributions_telescope (mkBaseline 0 (w_counted 100 7) 0)
    [w_counted 25 3] (mkBaseline 9 (w_counted 125 10) 0) 0 [25] _ _ _))) 100 _).
  - eapply (run_step _ 9 (w_counted 125 10) false); [vm_compute; reflexivity|reflexivity|apply run_nil].
  - lia.
  - reflexivity.
  - reflexivity.
Defined.

Definition w_chrono : Chrono := {| parse_rfc3339 := λ _, None; representable := λ _, true |}.

Definition w_range : Range :=
  Eval vm_compute in
    match range_new (C := w_chrono) (Some (hours 3 + 7)) None (hours 5 + 11) (hours 4) with
    | Ok r => r | Err _ => mkRange 0 0 0 0 false false false end.

Lemma range_covers_what_was_asked_witness :
  range_new (C := w_chrono) (Some (hours 3 + 7)) None (hours 5 + 11) (hours 4) = Ok w_range ∧
  effective_since w_range ≤ hours 5 < effective_until w_range.
Proof.
  split; [vm_compute; reflexivity|].
  apply (range_covers_what_was_asked (C := w_chrono) (hours 3 + 7) None (hours 5 + 11) (hours 4) w_range);
    vm_compute; done.
Defined.
End UsageProps.
