(* ===== verification/Journal.v ===== *)
(** * The change journal

    The model of [crates/core/src/journal.rs]: entries and the line each is
    shown as, filters, the digest a reader is handed within a budget, where a
    reader starts, and the summaries made from transcripts and paths. *)

From Stdlib Require Import Ascii.
From stdpp Require Import pretty.
From S2P Require Import Prelude RustStr Order Path Lease Agent Json.

Local Open Scope rust_scope.
Local Open Scope string_scope.

Definition PATH_CAP : nat := 200.
Definition LINE_PATHS : nat := 3.
Definition SUMMARY_FILES : nat := 5.
Definition INITIAL_ENTRIES : nat := 20.
Definition INITIAL_AGE : duration := hours 24.
Definition DONOR_MAX_AGE : duration := hours (7 * 24).
Definition SUMMARY_CHARS : nat := 280.

Inductive JournalKind := JRelease | JNote | JCommit | JJoin | JLeave | JHandoff | JReview.

Global Instance JournalKind_eq_dec : EqDecision JournalKind.
Proof. solve_decision. Defined.

Definition journal_kind_parse (s : string) : option JournalKind :=
  if s == "release" then Some JRelease else if s == "note" then Some JNote
  else if s == "commit" then Some JCommit else if s == "join" then Some JJoin
  else if s == "leave" then Some JLeave else if s == "handoff" then Some JHandoff
  else if s == "review" then Some JReview else None.

Definition journal_kind_display (k : JournalKind) : string :=
  match k with
  | JRelease => "release" | JNote => "note" | JCommit => "commit" | JJoin => "join"
  | JLeave => "leave" | JHandoff => "handoff" | JReview => "review"
  end.

Inductive SummarySource := SExplicit | STranscript | SSynthesised.

Record JournalEntry := mkEntry {
  je_project : string;
  je_seq : Z;
  je_at : instant;
  je_agent : option string;
  je_agent_name : string;
  je_branch : option string;
  je_checkout : option string;
  je_worktree : option string;
  je_kind : JournalKind;
  je_summary : string;
  je_summary_source : SummarySource;
  je_resources : list Resource.ResourceKey;
  je_paths : list string;
  je_paths_total : Z;
  je_head_before : option string;
  je_head_after : option string;
  je_changes : option (Z * Z);
}.

(** ** Failures put in words *)

(** The bytes up to the brace that closes the first one opened, with it. *)
Fixpoint balanced (depth : nat) (s : string) : option (string * string) :=
  match s with
  | "" => None
  | String a s' =>
      if Ascii.eqb a "{" then
        match balanced (S depth) s' with Some (l, r) => Some (String a l, r) | None => None end
      else if Ascii.eqb a "}" then
        if (depth =? 1)%nat then Some (String a "", s')
        else match balanced (pred depth) s' with Some (l, r) => Some (String a l, r) | None => None end
      else match balanced depth s' with Some (l, r) => Some (String a l, r) | None => None end
  end.

(** The report and what follows it: to its own closing brace, or to the first
    one when it never closes. *)
Definition cut_report (s : string) : option (string * string) :=
  match balanced 0 s with
  | Some cut => Some cut
  | None => match split_once "}" s with Some (l, r) => Some (l ++ "}", r) | None => None end
  end.

Definition report_field (dump name : string) : option (option Z) :=
  match split_str (name ++ ": ") dump with
  | None => None
  | Some (_, rest) =>
      if starts_with rest "None" then Some None
      else match strip_prefix "Some(" rest with
      | None => None
      | Some value =>
          match split_once ")" value with
          | None => None
          | Some (v, _) => match parse_i64 (trim v) with Some z => Some (Some z) | None => None end
          end
      end
  end.

Definition failure_words (dump : string) : option string :=
  match report_field dump "code", report_field dump "signal" with
  | Some (Some code), _ => Some ("it ended with exit code " ++ pretty code)
  | Some None, Some (Some signal) => Some ("it was ended by signal " ++ pretty signal)
  | Some None, Some None =>
      if contains_str "log_flushed: false" dump then Some "it could not be waited for"
      else Some "the program could not be executed (is the path right and the tool installed?)"
  | _, _ => None
  end.

Definition readable_failure (text : string) : string :=
  match split_str "ExitReport {" text with
  | None => text
  | Some (before, rest) =>
      match cut_report ("ExitReport {" ++ rest) with
      | None => text
      | Some (dump, after) =>
          match failure_words dump with Some words => before ++ words ++ after | None => text end
      end
  end.

(** ** The line of an entry *)

Definition hex_digit_of (n : N) : ascii :=
  Ascii.ascii_of_N (if (n <? 10)%N then 48 + n else 87 + n).
Fixpoint hex_go (turns : nat) (n : N) (acc : string) : string :=
  match turns with
  | O => acc
  | S turns' =>
      let acc := String (hex_digit_of (n mod 16)) acc in
      if (n / 16 =? 0)%N then acc else hex_go turns' (n / 16) acc
  end.

(** [char::escape_default] of a control character or a line separator. *)
Definition escape_default (c : string) : string :=
  if c == String "009" "" then "\t" else if c == String "010" "" then "\n"
  else if c == String "013" "" then "\r" else "\u{" ++ hex_go 8 (code_point c) "" ++ "}".

Definition line_separator (c : string) : bool :=
  (c == String "226" (String "128" (String "168" ""))) || (c == String "226" (String "128" (String "169" ""))).

Definition escape_char (c : string) : string :=
  if is_control c || line_separator c then escape_default c else c.

Definition escape_line (line : string) : string := String.concat "" (escape_char <$> chars line).

Definition who (e : JournalEntry) : string :=
  match je_branch e with Some b => je_agent_name e ++ " [" ++ b ++ "]" | None => je_agent_name e end.

Definition raw_line (e : JournalEntry) : string :=
  match je_kind e with
  | JRelease =>
      let named := take LINE_PATHS (je_paths e) in
      let more := Z.max 0 (je_paths_total e - Z.of_nat (length named)) in
      let text := if (length named =? 0)%nat then who e ++ " released"
                  else who e ++ " released " ++ join ", " named
                       ++ (if (0 <? more)%Z then " (+" ++ pretty more ++ " more)" else "") in
      match je_summary_source e with
      | SSynthesised => text
      | _ => text ++ ": " ++ quote_mark ++ je_summary e ++ quote_mark
      end
  | JNote => who e ++ " noted: " ++ quote_mark ++ je_summary e ++ quote_mark
  | JLeave => who e ++ " " ++ readable_failure (je_summary e)
  | JCommit | JJoin | JHandoff | JReview => who e ++ " " ++ je_summary e
  end.

Definition entry_line (e : JournalEntry) : string := escape_line (raw_line e).

Definition span (secs : Z) : string :=
  if (secs <? 60)%Z then pretty secs ++ "s" else if (secs <? 3600)%Z then pretty (secs / 60)%Z ++ "m"
  else if (secs <? 86400)%Z then pretty (secs / 3600)%Z ++ "h" else pretty (secs / 86400)%Z ++ "d".

(** [TimeDelta::num_seconds] rounds towards zero; the result is not negative. *)
Definition ago (now then_ : instant) : string :=
  span (Z.max 0 (Z.quot (now - then_) (seconds 1))) ++ " ago".

(** [format!("{:<n}", s)] *)
Definition pad_right (n : nat) (s : string) : string :=
  s ++ String.concat "" (replicate (n - chars_count s) " ").

Definition describe (e : JournalEntry) (now : instant) : string :=
  "- " ++ pad_right 8 (ago now (je_at e)) ++ " " ++ entry_line e.

(** ** Filters *)

Record JournalFilter := mkFilter {
  jf_agent : option string;
  jf_branch : option string;
  jf_kind : option JournalKind;
  jf_path : option string;
  jf_grep : option string;
  jf_until_seq : option Z;
}.

(** What a wanted path asks of an entry, by its components; [None] when the
    path is outside the entry's checkout. *)
Definition wanted_components (wanted : string) (e : JournalEntry) : option (list Component) :=
  match is_absolute wanted, je_checkout e with
  | true, Some checkout => path_strip_prefix wanted checkout
  | _, _ => Some (components wanted)
  end.

Definition path_matches (wanted : string) (e : JournalEntry) : bool :=
  match wanted_components wanted e with
  | None => false
  | Some relative =>
      eqb relative [] || eqb relative [CurDir]
      || existsb (λ p, is_some (strip_components relative (components p))) (je_paths e)
  end.

Section Unicode.
Context `{Unicode}.

Definition journal_matches (f : JournalFilter) (e : JournalEntry) : bool :=
  if is_some_and (λ upto, (upto <? je_seq e)%Z) (jf_until_seq f) then false
  else if is_some_and (λ agent, negb (is_some_and (λ id, starts_with id agent) (je_agent e))
                                && (je_agent_name e != agent)) (jf_agent f) then false
  else if is_some_and (λ branch, je_branch e != Some branch) (jf_branch f) then false
  else if is_some_and (λ kind, kind != je_kind e) (jf_kind f) then false
  else if is_some_and (λ wanted, negb (path_matches wanted e)) (jf_path f) then false
  else match jf_grep f with
       | Some grep =>
           (trim grep == "") || contains_str (to_lowercase (trim grep)) (to_lowercase (je_summary e))
       | None => true
       end.
End Unicode.

(** ** Digests *)

Record DigestBudget := mkBudget { max_entries : nat; max_chars : nat }.
Definition SESSION_START : DigestBudget := mkBudget 20 2000.
Definition PROMPT : DigestBudget := mkBudget 5 500.

Record Digest := mkDigest {
  dg_text : string;
  dg_head_seq : Z;
  dg_shown : nat;
  dg_collapsed : nat;
  dg_other_branches : nat;
}.

Record Reader := mkReader { rd_name : string; rd_branch : option string; rd_all_branches : bool }.

Definition keeps (r : Reader) (e : JournalEntry) : bool :=
  if rd_all_branches r || match je_kind e with JJoin | JLeave | JHandoff | JCommit => true | _ => false end
  then true
  else match rd_branch r, je_branch e with Some mine, Some theirs => mine == theirs | _, _ => true end.

Definition is_own_arrival (r : Reader) (e : JournalEntry) : bool :=
  match je_kind e with JJoin | JLeave => true | _ => false end && (je_agent_name e == rd_name r).

Definition plural (n : nat) (one many : string) : string := if (n =? 1)%nat then one else many.

Definition fresh_after (entries : list JournalEntry) (cursor : Z) : list JournalEntry :=
  List.filter (λ e, (cursor <? je_seq e)%Z) entries.

(** [iter.max().unwrap_or(default)] over sequence numbers. *)
Definition max_or (default : Z) (seqs : list Z) : Z :=
  match seqs with [] => default | s :: rest => foldl Z.max s rest end.

(** The loop over the fresh entries: those matched, and how many are elsewhere. *)
Fixpoint select (r : Reader) (fresh : list JournalEntry) : list JournalEntry * nat :=
  match fresh with
  | [] => ([], 0%nat)
  | e :: rest =>
      let '(matched, others) := select r rest in
      if is_own_arrival r e then (matched, others)
      else if keeps r e then (e :: matched, others) else (matched, S others)
  end.

Definition trailer (n : nat) : string :=
  if (n =? 0)%nat then ""
  else pretty n ++ " " ++ plural n "entry" "entries"
       ++ " on other branches: agentdocker journal --all-branches" ++ newline_str.

Definition render (cursor : Z) (now : instant) (matched : list JournalEntry) (others shown : nat) : string :=
  (if (length matched =? 0)%nat then ""
   else let collapsed := (length matched - shown)%nat in
        "Since you last looked (" ++ pretty (length matched) ++ " "
        ++ plural (length matched) "entry" "entries" ++ "):" ++ newline_str
        ++ (if (0 <? collapsed)%nat
            then ellipsis ++ " " ++ pretty collapsed ++ " earlier " ++ plural collapsed "entry" "entries"
                 ++ " (agentdocker journal --since " ++ pretty cursor ++ ")" ++ newline_str
            else "")
        ++ String.concat "" ((λ e, describe e now ++ newline_str) <$> drop collapsed matched))
  ++ trailer others.

(** The loop that folds one more entry while the text is too long. *)
Fixpoint fit_shown (text_of : nat → string) (limit shown : nat) : nat :=
  match shown with
  | S (S _ as fewer) => if (limit <? chars_count (text_of shown))%nat then fit_shown text_of limit fewer else shown
  | _ => shown
  end.

Definition cut_text (limit : nat) (text : string) : string :=
  if (limit <? chars_count text)%nat
  then chars_take (limit - 1) text ++ (if (0 <? limit)%nat then ellipsis else "")
  else text.

Definition digest (entries : list JournalEntry) (cursor : Z) (r : Reader) (b : DigestBudget)
    (now : instant) : Digest :=
  let fresh := fresh_after entries cursor in
  let head_seq := max_or cursor (je_seq <$> fresh) in
  let '(matched, others) := select r fresh in
  if (length matched =? 0)%nat && (others =? 0)%nat then mkDigest "" head_seq 0 0 0
  else
    let text_of := render cursor now matched others in
    let shown := fit_shown text_of (max_chars b) (Nat.min (length matched) (Nat.max (max_entries b) 1)) in
    mkDigest (cut_text (max_chars b) (text_of shown)) head_seq shown (length matched - shown) others.

(** ** Where a reader starts *)

Definition initial_cursor (entries : list JournalEntry) (now : instant) : Z :=
  let by_count := if (INITIAL_ENTRIES + 1 <=? length entries)%nat
                  then from_option je_seq 0%Z (entries !! (length entries - (INITIAL_ENTRIES + 1))%nat) else 0%Z in
  let by_age := max_or 0 (je_seq <$> List.filter (λ e, (INITIAL_AGE <? now - je_at e)%Z) entries) in
  Z.max by_count by_age.

Definition donates `{Uuid} (name project : string) (now : instant) (r : AgentRecord) : bool :=
  negb (is_live (r_status r)) && (s_name (r_spec r) == name)
  && is_some_and (λ p, project_id p == project) (r_project r)
  && is_some_and (λ at_, (now - at_ <=? DONOR_MAX_AGE)%Z) (r_finished_at r).

Definition cursor_donor `{Uuid} (records : list AgentRecord) (name project : string) (now : instant) :
    option AgentRecord :=
  max_by_key r_finished_at (List.filter (donates name project now) records).

(** ** Summaries *)

(** The text of links for the links, a turn for each byte. *)
Fixpoint unlink (turns : nat) (rest : string) : string :=
  match turns with
  | O => rest
  | S turns' =>
      match split_once "[" rest with
      | None => rest
      | Some (before, body) =>
          match split_str "](" body with
          | Some (text, target) =>
              match split_once ")" target with
              | Some (_, after) => before ++ text ++ unlink turns' after
              | None => before ++ "[" ++ unlink turns' body
              end
          | None => before ++ "[" ++ unlink turns' body
          end
      end
  end.

(** A list marker dropped: [- ], [* ] or a number and [. ]. *)
Definition unmarked (s : string) : string :=
  match strip_prefix "- " s with
  | Some rest => rest
  | None =>
      match strip_prefix "* " s with
      | Some rest => rest
      | None =>
          match split_str ". " s with
          | Some (number, rest) => if sforall is_ascii_digit number && (number != "") then rest else s
          | None => s
          end
      end
  end.

Definition strip_markdown_line (line : string) : string :=
  let s := trim_start (drop_prefix_char "#" (trim line)) in
  let s := trim_start (drop_prefix_char ">" s) in
  let unlinked := replace_str "![" "[" (unmarked s) in
  let out := unlink (String.length unlinked) unlinked in
  trim (replace_str "`" "" (replace_str "~~" "" (replace_str "__" "" (replace_str "**" "" out)))).

(** The lines outside fences and headings. *)
Fixpoint readable_lines (in_fence : bool) (ls : list string) : list string :=
  match ls with
  | [] => []
  | line :: rest =>
      if starts_with (trim_start line) "```" then readable_lines (negb in_fence) rest
      else if negb in_fence && negb (starts_with (trim_start line) "#") then line :: readable_lines in_fence rest
      else readable_lines in_fence rest
  end.

Definition plain_paragraph (p : string) : string :=
  join " " (List.filter (λ l, l != "") (strip_markdown_line <$> lines_of p)).

Definition first_paragraph (text : string) : option string :=
  let kept := String.concat "" ((λ l, l ++ newline_str) <$> readable_lines false (lines_of text)) in
  List.find (λ p, p != "")
    (plain_paragraph <$> split_all (String.length kept) (newline_str ++ newline_str) kept).

(** The loop over the words, [out] being what is written so far. *)
Fixpoint fill_words (out : string) (words : list string) : string :=
  match words with
  | [] => if (SUMMARY_CHARS <? chars_count out)%nat then chars_take (SUMMARY_CHARS - 1) out ++ ellipsis else out
  | word :: rest =>
      let with_ := if out == "" then chars_count word else (chars_count out + 1 + chars_count word)%nat in
      if (SUMMARY_CHARS - 1 <? with_)%nat && (out != "") then out ++ ellipsis
      else fill_words ((if out == "" then out else out ++ " ") ++ word) rest
  end.

Definition summarise_text (text : string) : option string :=
  match first_paragraph text with
  | Some paragraph => Some (fill_words "" (split_whitespace paragraph))
  | None => None
  end.

Definition is_type (v : Json) (name : string) : bool :=
  match json_get v "type" with Some t => as_str t == Some name | None => false end.

Definition event_summary (event : Json) : option string :=
  match json_get event "message" with
  | None => None
  | Some message =>
      match json_get message "content" with
      | Some (JString text) => summarise_text text
      | Some (JArray blocks) =>
          summarise_text (join (newline_str ++ newline_str)
            (omap (λ b, match json_get b "text" with Some t => as_str t | None => None end)
                  (List.filter (λ b, is_type b "text") blocks)))
      | _ => None
      end
  end.

Definition transcript_summary `{SerdeJson} (tail : string) : option string :=
  head (omap event_summary
    (List.filter (λ event, is_type event "assistant") (omap json_from_str (rev (lines_of tail))))).

(** [Vec::dedup] by the equality of paths: the first of each run. *)
Fixpoint dedup_paths (last_kept : option string) (l : list string) : list string :=
  match l with
  | [] => []
  | p :: rest => if is_some_and (λ q, path_eqb q p) last_kept then dedup_paths last_kept rest
                 else p :: dedup_paths (Some p) rest
  end.

Definition cap_paths (paths : list string) : list string * Z :=
  let paths := dedup_paths None (sort_by path_leb paths) in
  (take PATH_CAP paths, Z.of_nat (length paths)).

(** The components of two paths as long as they agree. *)
Fixpoint shared (a b : list Component) : list Component :=
  match a, b with
  | x :: a', y :: b' => if x == y then x :: shared a' b' else []
  | _, _ => []
  end.

Definition trivial_part (part : string) : bool := (part == "") || (part == ".").
Fixpoint drop_trivial (parts : list string) : list string :=
  match parts with p :: rest => if trivial_part p then drop_trivial rest else parts | [] => [] end.

(** [Path::parent], spelled as the path spells it. *)
Definition parent_of (p : string) : option string :=
  match split_char "/" p with
  | [] => None
  | first :: rest =>
      match drop_trivial (rev rest) with
      | [] => if first == "" then None else Some ""
      | _ :: before =>
          match drop_trivial before with
          | [] => Some (if first == "" then "/" else first)
          | kept => Some (join "/" (first :: rev kept))
          end
      end
  end.

Definition common_step (common : option string) (path : string) : option string :=
  let dir := unwrap_or "" (parent_of path) in
  match common with
  | None => Some dir
  | Some current => Some (path_of (shared (components current) (components dir)))
  end.
Definition common_dir (paths : list string) : option string := foldl common_step None paths.

Definition synthesise_summary (paths : list string) (total : Z) : string :=
  if (length paths =? 0)%nat then "released leases"
  else
    let total := Z.max total (Z.of_nat (length paths)) in
    let names := (λ p, unwrap_or p (file_name p)) <$> take SUMMARY_FILES paths in
    let under := match common_dir paths with
                 | Some dir => if dir == "" then "" else " under " ++ dir ++ "/"
                 | None => ""
                 end in
    "edited " ++ pretty total ++ " file" ++ (if (total =? 1)%Z then "" else "s") ++ under ++ ": "
    ++ join ", " names
    ++ (if (Z.of_nat (length names) <? total)%Z
        then " and " ++ pretty (total - Z.of_nat (length names))%Z ++ " more" else "").

(** ** Lemmas *)

Module JournalFacts.

Lemma ellipsis_char : starts_char ellipsis ∧ chars_count ellipsis = 1%nat.
Proof. done. Qed.

(** *** Escaping *)

Definition plain_char (c : string) : Prop :=
  char_shaped c = true ∧ is_control c = false ∧ line_separator c = false.

Definition printable (a : ascii) : bool := in_range 32 126 a.

Lemma printable_char a : printable a = true → plain_char (String a "").
Proof. unfold plain_char. by destruct a as [[] [] [] [] [] [] [] []]. Qed.

Lemma printable_ascii a : printable a = true → is_ascii_byte a = true.
Proof. by destruct a as [[] [] [] [] [] [] [] []]. Qed.

Lemma hex_digit_printable n : (n < 16)%N → printable (hex_digit_of n) = true.
Proof. intros Hn. destruct n as [|[[[[]|[]|]|[[]|[]|]|]|[[[]|[]|]|[[]|[]|]|]|]]; done || lia. Qed.

Lemma hex_go_printable turns n acc : sforall printable acc = true → sforall printable (hex_go turns n acc) = true.
Proof.
  revert n acc. induction turns as [|turns IH]; intros n acc Hacc; cbn [hex_go]; [done|].
  assert (sforall printable (String (hex_digit_of (n mod 16)) acc) = true).
  { simpl. rewrite hex_digit_printable, Hacc; [done|]. by apply N.mod_lt. }
  destruct (n / 16 =? 0)%N; auto.
Qed.

Lemma escape_default_printable c : sforall printable (escape_default c) = true.
Proof.
  unfold escape_default. repeat case_match; [done..|].
  by rewrite !sforall_app, hex_go_printable.
Qed.

Lemma printable_chars s : sforall printable s = true → Forall plain_char (chars s).
Proof.
  intros Hs. rewrite chars_ascii by (eapply sforall_impl; [apply printable_ascii|done]).
  induction s as [|a s IH]; simpl in *; [constructor|]. split_and_bool.
  constructor; [by apply printable_char|by apply IH].
Qed.

Lemma escape_char_plain c :
  char_shaped c = true → starts_char (escape_char c) ∧ Forall plain_char (chars (escape_char c)).
Proof.
  intros Hc. unfold escape_char. destruct (is_control c || line_separator c) eqn:E.
  - split; [|apply printable_chars, escape_default_printable].
    apply starts_char_ascii. eapply sforall_impl; [apply printable_ascii|apply escape_default_printable].
  - split_and_bool. assert (c = String.concat "" [c]) as Ec by done. rewrite Ec. split.
    + by apply starts_char_concat; repeat constructor.
    + rewrite chars_concat by by repeat constructor. by repeat constructor.
Qed.

Lemma escape_line_plain l :
  Forall (λ c, char_shaped c = true) l →
  starts_char (String.concat "" (escape_char <$> l)) ∧ Forall plain_char (chars (String.concat "" (escape_char <$> l))).
Proof.
  induction 1 as [|c l Hc _ [IH1 IH2]]; [done|]. rewrite fmap_cons, concat_cons.
  destruct (escape_char_plain c Hc). split; [by apply starts_char_app|].
  rewrite chars_app by done. by apply Forall_app.
Qed.

(** *** Digests *)

Lemma cut_text_fits limit text : (chars_count (cut_text limit text) ≤ limit)%nat.
Proof.
  unfold cut_text. destruct (limit <? chars_count text)%nat eqn:E; [|by apply Nat.ltb_ge].
  apply Nat.ltb_lt in E. destruct ellipsis_char as [Hc H1]. destruct (0 <? limit)%nat eqn:E0.
  - apply Nat.ltb_lt in E0. rewrite chars_count_app, chars_count_take, H1 by done. lia.
  - apply Nat.ltb_ge in E0. rewrite append_nil_r, chars_count_take. lia.
Qed.

Lemma cut_text_id limit text : (chars_count text ≤ limit)%nat → cut_text limit text = text.
Proof. intros Hl. unfold cut_text. by rewrite (proj2 (Nat.ltb_ge _ _)) by done. Qed.

(** The loop stops at the most entries whose text fits, and at one at the least. *)
Lemma fit_shown_spec text_of limit start :
  let shown := fit_shown text_of limit start in
  (shown ≤ start)%nat ∧ (Nat.min 1 start ≤ shown)%nat
  ∧ (∀ more, (shown < more ≤ start)%nat → (limit < chars_count (text_of more))%nat)
  ∧ ((1 < shown)%nat → (chars_count (text_of shown) ≤ limit)%nat).
Proof.
  induction start as [|[|n] IH]; cbn zeta; [cbn; split_and!; intros; lia..|].
  change (fit_shown text_of limit (S (S n)))
    with (if (limit <? chars_count (text_of (S (S n))))%nat then fit_shown text_of limit (S n) else S (S n)).
  destruct (limit <? chars_count (text_of (S (S n))))%nat eqn:E.
  - apply Nat.ltb_lt in E. destruct IH as (H1 & H2 & H3 & H4).
    split_and!; [lia|lia| |done]. intros more Hm. destruct (decide (more = S (S n))) as [->|]; [done|].
    apply H3. lia.
  - apply Nat.ltb_ge in E. split_and!; [lia|lia|intros; lia|done].
Qed.

Definition own_arrivals (r : Reader) (fresh : list JournalEntry) : nat := length (List.filter (is_own_arrival r) fresh).

Lemma select_spec r fresh :
  let '(matched, others) := select r fresh in
  matched = List.filter (λ e, negb (is_own_arrival r e) && keeps r e) fresh
  ∧ others = length (List.filter (λ e, negb (is_own_arrival r e) && negb (keeps r e)) fresh)
  ∧ (length matched + others + own_arrivals r fresh)%nat = length fresh.
Proof.
  unfold own_arrivals. induction fresh as [|e fresh IH]; simpl; [done|].
  destruct (select r fresh) as [matched others]. destruct IH as (-> & -> & IH).
  destruct (is_own_arrival r e), (keeps r e); simpl in *; split_and!; auto; lia.
Qed.

Lemma foldl_max_spec s l : (s ≤ foldl Z.max s l)%Z ∧ (∀ x, x ∈ l → (x ≤ foldl Z.max s l)%Z)
  ∧ (foldl Z.max s l = s ∨ foldl Z.max s l ∈ l).
Proof.
  revert s. induction l as [|x l IH]; intros s; simpl; [split_and!; [lia|set_solver|by left]|].
  destruct (IH (Z.max s x)) as (H1 & H2 & H3). split_and!; [lia| |].
  - intros y [->|Hy]%elem_of_cons; [lia|auto].
  - destruct H3 as [H3|H3]; [|right; by right]. rewrite H3.
    destruct (Z.max_spec s x) as [[_ ->]|[_ ->]]; [right; left|by left].
Qed.

(** The greatest, or the default when there is none. *)
Lemma max_or_spec d l : (∀ x, x ∈ l → (x ≤ max_or d l)%Z) ∧ (max_or d l ∈ l ∨ l = [] ∧ max_or d l = d).
Proof.
  destruct l as [|s l]; simpl; [split; [set_solver|by right]|].
  destruct (foldl_max_spec s l) as (H1 & H2 & H3). split.
  - intros x [->|Hx]%elem_of_cons; auto.
  - left. destruct H3 as [->|?]; [left|by right].
Qed.

Lemma head_reads_all entries cursor :
  fresh_after entries (max_or cursor (je_seq <$> fresh_after entries cursor)) = [].
Proof.
  set (top := max_or _ _). destruct (fresh_after entries top) as [|e l] eqn:E; [done|].
  assert (e ∈ fresh_after entries top) as He by (rewrite E; left).
  unfold fresh_after in He. apply list_elem_of_In, filter_In in He as [Hin Htop]. apply Z.ltb_lt in Htop.
  destruct (max_or_spec cursor (je_seq <$> fresh_after entries cursor)) as [Hle Hin']. fold top in Hle, Hin'.
  assert (cursor ≤ top)%Z as Hc.
  { destruct Hin' as [(e' & -> & He')%list_elem_of_fmap|[_ ->]]; [|lia].
    apply list_elem_of_In, filter_In in He' as [_ ?%Z.ltb_lt]. lia. }
  assert (je_seq e ≤ top)%Z; [|lia]. apply Hle, list_elem_of_fmap_2, list_elem_of_In, filter_In.
  split; [done|]. apply Z.ltb_lt. lia.
Qed.

(** *** Where a reader starts *)

Lemma max_or_lt d x l : (d < x)%Z → (max_or d l < x)%Z ↔ ∀ y, y ∈ l → (y < x)%Z.
Proof.
  intros Hd. destruct (max_or_spec d l) as [Hle Hin]. split.
  - intros Hlt y Hy. specialize (Hle y Hy). lia.
  - intros Hall. destruct Hin as [Hin|[-> ->]]; [by apply Hall|done].
Qed.

Section Sorted.
Context (entries : list JournalEntry).
Hypothesis Hsorted : StronglySorted (λ a b, (je_seq a < je_seq b)%Z) entries.

Lemma seq_order i j a b :
  entries !! i = Some a → entries !! j = Some b → (je_seq a < je_seq b)%Z ↔ (i < j)%nat.
Proof.
  intros Ha Hb. split; [|by eapply (StronglySorted_lookup (λ a b, (je_seq a < je_seq b)%Z))].
  intros Hlt. destruct (decide (i < j)%nat) as [|Hge]; [done|]. destruct (decide (i = j)) as [->|]; [simplify_eq; lia|].
  assert (je_seq b < je_seq a)%Z; [|lia].
  eapply (StronglySorted_lookup (λ a b, (je_seq a < je_seq b)%Z) entries j i); eauto with lia.
Qed.

Lemma old_before now i e :
  entries !! i = Some e →
  (∀ y, y ∈ je_seq <$> List.filter (λ e, (INITIAL_AGE <? now - je_at e)%Z) entries → (y < je_seq e)%Z)
  ↔ ∀ j e', (i ≤ j)%nat → entries !! j = Some e' → (now - je_at e' ≤ INITIAL_AGE)%Z.
Proof.
  intros He. split.
  - intros Hall j e' Hij Hj. apply Z.le_ngt. intros Hold. assert (je_seq e' < je_seq e)%Z as Hlt.
    { apply Hall, list_elem_of_fmap_2, list_elem_of_In, filter_In. split; [|by apply Z.ltb_lt].
      by eapply list_elem_of_In, list_elem_of_lookup_2. }
    rewrite (seq_order j i) in Hlt by done. lia.
  - intros Hall y (e' & -> & Hin)%list_elem_of_fmap. apply list_elem_of_In, filter_In in Hin as [Hin Hold].
    apply Z.ltb_lt in Hold. apply list_elem_of_In, list_elem_of_lookup in Hin as [j Hj].
    rewrite (seq_order j i) by done. apply Nat.lt_nge. intros Hij. specialize (Hall _ _ Hij Hj). lia.
Qed.
End Sorted.

(** *** Words *)

Lemma words_of_start cur l :
  starts_char cur → Forall (λ c, char_shaped c = true) l →
  Forall (λ w, starts_char w ∧ w ≠ "") (words_of cur l).
Proof.
  intros Hcur Hl. revert cur Hcur. induction Hl as [|c l Hc _ IH]; intros cur Hcur; simpl.
  - destruct (cur == "") eqn:E; split_and_bool; repeat constructor; done.
  - destruct (is_whitespace c).
    + apply Forall_app. split; [|by apply IH]. destruct (cur == "") eqn:E; split_and_bool; repeat constructor; done.
    + apply IH, starts_char_app; [done|]. apply (starts_char_concat [c]). by repeat constructor.
Qed.

Lemma join_snoc sep (l : list string) w : l ≠ [] → join sep (app l [w]) = join sep l ++ sep ++ w.
Proof.
  unfold join. induction l as [|x [|y l] IH]; [done|done|]. intros _.
  change (String.concat sep (app (x :: y :: l) [w])) with (x ++ sep ++ String.concat sep (app (y :: l) [w])).
  rewrite IH by done. change (String.concat sep (x :: y :: l)) with (x ++ sep ++ String.concat sep (y :: l)).
  by rewrite !append_assoc.
Qed.

(** What the words of a summary come to: as many as fit, with a mark when some are left out. *)
Definition summary_of (words : list string) (s : string) : Prop :=
  ∃ k, s = join " " (take k words) ++ (if (k <? length words)%nat then ellipsis else "")
  ∧ (chars_count s ≤ SUMMARY_CHARS)%nat
  ∧ ((k < length words)%nat → (SUMMARY_CHARS ≤ chars_count (join " " (take (S k) words)))%nat).

Lemma fill_words_spec written words :
  written ≠ [] → join " " written ≠ "" → Forall (λ w, starts_char w ∧ w ≠ "") words →
  (chars_count (join " " written) < SUMMARY_CHARS)%nat →
  summary_of (app written words) (fill_words (join " " written) words).
Proof.
  revert written. induction words as [|w words IH]; intros written Hne Hout Hw Hlen; cbn [fill_words].
  - rewrite app_nil_r, (proj2 (Nat.ltb_ge _ _)) by lia. exists (length written).
    rewrite take_ge, Nat.ltb_irrefl, append_nil_r by done. split_and!; [done|lia|lia].
  - apply Forall_cons in Hw as [[Hc Hw] Hws]. rewrite (proj2 (eqb_false _ _)) by done. rewrite andb_true_r.
    assert (chars_count (join " " written ++ " " ++ w) = chars_count (join " " written) + 1 + chars_count w)%nat as Hn.
    { rewrite !chars_count_app; [change (chars_count " ") with 1%nat; lia|done|by apply starts_char_app]. }
    destruct (SUMMARY_CHARS - 1 <? _)%nat eqn:E.
    + apply Nat.ltb_lt in E. exists (length written). rewrite take_app_length, length_app. simpl.
      rewrite (proj2 (Nat.ltb_lt _ _)) by lia. destruct ellipsis_char as [Hec H1]. split_and!; [done| |].
      * rewrite chars_count_app, H1 by done. unfold SUMMARY_CHARS in *. lia.
      * intros _. rewrite (cons_middle w written words), (app_assoc written [w] words), take_app_length'
          by (rewrite length_app; simpl; lia). rewrite join_snoc, Hn by done. unfold SUMMARY_CHARS in *. lia.
    + apply Nat.ltb_ge in E. rewrite append_assoc, <-join_snoc by done.
      rewrite (cons_middle w written words), (app_assoc written [w] words). rewrite <-join_snoc in Hn by done.
      apply IH; [by destruct written| |done|unfold SUMMARY_CHARS in *; lia].
      rewrite join_snoc by done. by destruct (join " " written).
Qed.

Lemma fill_words_fits words :
  Forall (λ w, starts_char w ∧ w ≠ "") words →
  is_some_and (λ w, chars_count w <? SUMMARY_CHARS)%nat (head words) = true →
  summary_of words (fill_words "" words).
Proof.
  destruct words as [|w words]; [done|]. intros [[Hc Hw] Hws]%Forall_cons Hlen. simpl in Hlen.
  apply Nat.ltb_lt in Hlen. cbn [fill_words]. rewrite andb_false_r, append_nil_l.
  by apply (fill_words_spec [w] words).
Qed.

End JournalFacts.

(** ** Properties *)

Module JournalProps.
Import JournalFacts.

(** the line of an entry is one line of text: whatever an agent wrote into
    a summary, a name or a path, no character of the line is a control
    character or a line separator. *)
Theorem journal_line_is_one_line e :
  Forall (λ c, is_control c = false ∧ line_separator c = false) (chars (entry_line e)).
Proof.
  eapply Forall_impl; [apply escape_line_plain, chars_shaped|]. intros c (_ & ? & ?). done.
Qed.

(** a digest accounts for everything that is new, within its budget. Its
    text is no longer than the budget; the entries shown, folded, left to other
    branches and skipped as the reader's own arrivals add up to the new ones;
    it shows as many as fit, one at the least; and a reader who moves to the
    head it names has nothing left to read. *)
Theorem digest_accounts_for_what_is_new entries cursor r b now :
  let d := digest entries cursor r b now in
  let fresh := fresh_after entries cursor in
  let matched := List.filter (λ e, negb (is_own_arrival r e) && keeps r e) fresh in
  (chars_count (dg_text d) ≤ max_chars b)%nat
  ∧ (dg_shown d + dg_collapsed d + dg_other_branches d + own_arrivals r fresh)%nat = length fresh
  ∧ (dg_shown d + dg_collapsed d)%nat = length matched
  ∧ (dg_shown d ≤ Nat.max (max_entries b) 1)%nat
  ∧ (matched ≠ [] → (1 ≤ dg_shown d)%nat)
  ∧ (∀ more, (dg_shown d < more ≤ Nat.min (length matched) (Nat.max (max_entries b) 1))%nat →
       (max_chars b < chars_count (render cursor now matched (dg_other_branches d) more))%nat)
  ∧ ((1 < dg_shown d)%nat → dg_text d = render cursor now matched (dg_other_branches d) (dg_shown d))
  ∧ fresh_after entries (dg_head_seq d) = [].
Proof.
  cbn zeta. unfold digest. pose proof (select_spec r (fresh_after entries cursor)) as Hsel.
  destruct (select r (fresh_after entries cursor)) as [matched others]. destruct Hsel as (Hm & Ho & Hsum).
  rewrite <-Hm. assert (fresh_after entries (max_or cursor (je_seq <$> fresh_after entries cursor)) = []) as Hhead.
  { apply head_reads_all. }
  destruct ((length matched =? 0)%nat && (others =? 0)%nat) eqn:E0; simpl.
  { split_and_bool. destruct matched; [|done]. rewrite Nat.eqb_eq in *. simpl in *.
    split_and!; done || apply Nat.le_0_l || (intros; lia). }
  pose proof (fit_shown_spec (render cursor now matched others) (max_chars b)
    (Nat.min (length matched) (Nat.max (max_entries b) 1))) as Hfit. cbn zeta in Hfit.
  destruct Hfit as (H1 & H2 & H3 & H4). split_and!; [apply cut_text_fits|lia..| |done| |done].
  - intros Hne. assert (length matched ≠ 0%nat) by by destruct matched. lia.
  - intros Hs. by apply cut_text_id, H4.
Qed.

(** a newcomer is told recent history. With entries in the order of their
    numbers, an entry lies after the initial cursor exactly when it is among
    the newest twenty and neither it nor any entry after it is older than a
    day. *)
Theorem newcomer_is_told_recent_history entries now i e :
  StronglySorted (λ a b, (je_seq a < je_seq b)%Z) entries →
  Forall (λ a, (0 < je_seq a)%Z) entries →
  entries !! i = Some e →
  (initial_cursor entries now < je_seq e)%Z ↔
    (length entries ≤ i + INITIAL_ENTRIES)%nat
    ∧ ∀ j e', (i ≤ j)%nat → entries !! j = Some e' → (now - je_at e' ≤ INITIAL_AGE)%Z.
Proof.
  intros Hs Hpos He. unfold initial_cursor. rewrite Z.max_lub_lt_iff.
  assert (0 < je_seq e)%Z as H0 by by eapply (Forall_lookup_1 _ _ _ _ Hpos).
  rewrite max_or_lt, (old_before entries Hs) by done. apply and_iff_compat_r. unfold INITIAL_ENTRIES.
  assert (i < length entries)%nat by by eapply lookup_lt_Some.
  destruct (20 + 1 <=? length entries)%nat eqn:E; [apply Nat.leb_le in E|apply Nat.leb_gt in E; lia].
  destruct (lookup_lt_is_Some_2 entries (length entries - (20 + 1))) as [c Hc]; [lia|].
  rewrite Hc. simpl. rewrite (seq_order entries Hs _ i) by done. lia.
Qed.

Definition w_entry (seq : Z) (at_ : instant) : JournalEntry :=
  mkEntry "p" seq at_ None "codex-1" None None None JNote "done" SExplicit [] [] 0 None None None.

Lemma newcomer_is_told_recent_history_witness :
  (initial_cursor [w_entry 1 0; w_entry 2 (hours 30)] (hours 31) < 2)%Z.
Proof.
  refine (proj2 (newcomer_is_told_recent_history [w_entry 1 0; w_entry 2 (hours 30)] (hours 31) 1
            (w_entry 2 (hours 30)) _ _ _) _).
  - repeat constructor; done.
  - repeat constructor; done.
  - done.
  - split; [unfold INITIAL_ENTRIES; simpl; lia|]. intros [|[|j]] e' Hj; [lia|intros [= <-]; done|done].
Defined.

(** a summary ends at a word. When the first word of the first paragraph is
    shorter than the limit, the summary is the longest run of its words that
    leaves room for the mark, with the mark when words are left out, and it is
    within the limit. *)
Theorem summary_ends_at_a_word text p s :
  first_paragraph text = Some p →
  is_some_and (λ w, chars_count w <? SUMMARY_CHARS)%nat (head (split_whitespace p)) = true →
  summarise_text text = Some s →
  summary_of (split_whitespace p) s.
Proof.
  intros Hp Hhead. unfold summarise_text. rewrite Hp. intros [= <-]. apply fill_words_fits; [|done].
  apply words_of_start; [done|apply chars_shaped].
Qed.

Lemma summary_ends_at_a_word_witness : summary_of ["Fixed"; "the"; "parser."] "Fixed the parser.".
Proof. by apply (summary_ends_at_a_word "Fixed **the** parser." "Fixed the parser."). Defined.

(** a summary can exceed its limit: a first word longer than the limit is
    cut when it stands alone and is kept whole when another word follows. *)
Theorem long_first_word_exceeds_the_limit :
  let long := String.concat "" (replicate 300 "a") in
  summarise_text long = Some (chars_take (SUMMARY_CHARS - 1) long ++ ellipsis)
  ∧ summarise_text (long ++ " b") = Some (long ++ ellipsis)
  ∧ (SUMMARY_CHARS < chars_count (long ++ ellipsis))%nat.
Proof. vm_compute. split_and!; [done|done|]. apply Nat.ltb_lt. vm_compute. done. Qed.
End JournalProps.
