(* ===== verification/Handoff.v ===== *)
(** * Changes, recovery and handoffs

    The models of [crates/core/src/change.rs] (who changed which file, and the
    files more than one checkout changed), [working_set.rs] (when a retained
    ledger keeps a read guard), [recovery.rs] (when a check counts as passed),
    [handoff.rs] (what one agent hands another: the capped diff and the import
    of a bundle from another host) and of [ContainerEnvironment] in
    [container.rs] (when two environments are the same for a check). *)

From Stdlib Require Import Ascii.
From S2P Require Import Prelude RustStr Order Path Lease Link Agent Json Message Journal.

Local Open Scope rust_scope.
Local Open Scope string_scope.

(** ** Environments *)

Record ContainerEnvironment := mkEnvironment {
  ce_inputs : option ImageInputs;
  ce_image_id : string;
  ce_build : string;
  ce_engine : ContainerEngine;
  ce_connection : option string;
  ce_network : ContainerNetwork;
  ce_user : option string;
  ce_env : gmap string string;
}.

Global Instance ImageInputs_eq_dec : EqDecision ImageInputs.
Proof. solve_decision. Defined.
Global Instance ContainerEngine_eq_dec : EqDecision ContainerEngine.
Proof. solve_decision. Defined.
Global Instance ContainerNetwork_eq_dec : EqDecision ContainerNetwork.
Proof. solve_decision. Defined.
Global Instance ContainerEnvironment_eq_dec : EqDecision ContainerEnvironment.
Proof. solve_decision. Defined.

Definition environment_matches (left right : option ContainerEnvironment) : bool :=
  match left, right with
  | None, None => true
  | Some a, Some b =>
      if is_some (ce_inputs a) && is_some (ce_inputs b) then
        (ce_inputs a == ce_inputs b) && (ce_image_id a == ce_image_id b) && (ce_engine a == ce_engine b)
        && (ce_network a == ce_network b) && (ce_user a == ce_user b) && (ce_env a == ce_env b)
      else left == right
  | _, _ => left == right
  end.

Definition environment_of (r : AgentRecord) : option ContainerEnvironment :=
  match r_container r with
  | None => None
  | Some c => Some (mkEnvironment (mc_inputs c) (mc_image_id c) (mc_build c) (mc_engine c) (mc_connection c)
                      (ro_network (mc_options c)) (cw_user <$> mc_workspace c) (s_env (r_spec r)))
  end.

(** ** Changes *)

Inductive ChangeKind := Created | Modified | Removed | Renamed.

Definition change_kind_display (k : ChangeKind) : string :=
  match k with Created => "created" | Modified => "modified" | Removed => "removed" | Renamed => "renamed" end.

Inductive Attribution :=
| ByAgent (agent lease : string) (note : option string)
| External.

Definition attributed (a : Attribution) : option string :=
  match a with ByAgent agent _ _ => Some agent | External => None end.

Record Change := mkChange {
  ch_seq : Z;
  ch_project : string;
  ch_checkout : option string;
  ch_worktree : option string;
  ch_path : string;
  ch_kind : ChangeKind;
  ch_at : instant;
  ch_by : Attribution;
  ch_head : option string;
}.

Record OverlapParty := mkParty {
  op_checkout : string;
  op_worktree : option string;
  op_agents : list string;
  op_changes : nat;
  op_last_at : instant;
  op_head : option string;
}.

Record Overlap := mkOverlap { ov_path : string; ov_parties : list OverlapParty }.

(** A path as the key of a [BTreeMap]: equal paths are one key, spelled as it
    was first inserted. *)
Abbreviation PathKey := (bool * list string)%type (only parsing).

(** [or_insert_with], then what one change adds to a party. *)
Definition first_party (ch : Change) (checkout : string) : OverlapParty :=
  mkParty checkout (ch_worktree ch) [] 0 (ch_at ch) (ch_head ch).

Definition note_party (ch : Change) (p : OverlapParty) : OverlapParty :=
  let newer := (op_last_at p <=? ch_at ch)%Z in
  mkParty (op_checkout p) (op_worktree p)
    (match attributed (ch_by ch) with
     | Some agent => if bool_decide (agent ∈ op_agents p) then op_agents p else app (op_agents p) [agent]
     | None => op_agents p
     end)
    (S (op_changes p))
    (if newer then ch_at ch else op_last_at p)
    (if newer then ch_head ch else op_head p).

Definition note_change (m : gmap PathKey (string * gmap PathKey OverlapParty)) (ch : Change) :=
  match ch_checkout ch with
  | None => m
  | Some checkout =>
      let '(path, parties) := unwrap_or (ch_path ch, ∅) (m !! path_components (ch_path ch)) in
      let party := unwrap_or (first_party ch checkout) (parties !! path_components checkout) in
      <[path_components (ch_path ch) := (path, <[path_components checkout := note_party ch party]> parties)]> m
  end.

(** Newest change first, then by the order of checkouts. *)
Definition party_key (p : OverlapParty) : Reverse Z * list (Z * string) :=
  (Rev (op_last_at p), path_key (op_checkout p)).

Definition changed (changes : list Change) : gmap PathKey (string * gmap PathKey OverlapParty) :=
  foldl note_change ∅ changes.

Definition overlaps_of (changes : list Change) : list Overlap :=
  (λ e, mkOverlap e.1 (sort_by_key party_key (map_to_list e.2).*2))
  <$> List.filter (λ e, (1 <? size e.2)%nat)
        (sort_by_key (λ e, path_key e.1) (map_to_list (changed changes)).*2).

(** ** Read guards *)

Record ReadMark := mkMark { rm_path : string; rm_at : instant; rm_version : string; rm_head : option string }.
Record StalePath := mkStale { sp_path : string; sp_observed : string; sp_current : option string; sp_reason : string }.

Definition stale_by_ledger (agent mark target : string) (changes : list Change) (complete : bool) : bool :=
  if (length changes =? 0)%nat || negb complete then true
  else existsb (λ ch, attributed (ch_by ch) != Some agent)
         (List.filter (λ ch, path_eqb target mark || path_starts_with (ch_path ch) target) changes).

(** ** Checks *)

Record ValidationContainer := mkValidationContainer { vc_agent : string; vc_id : string }.

Record Validation := mkValidation {
  va_id : string;
  va_agent : string;
  va_checkout : string;
  va_command : list string;
  va_started_at : instant;
  va_finished_at : instant;
  va_head : option string;
  va_before : string;
  va_after : option string;
  va_exit_code : option Z;
  va_timed_out : bool;
  va_descendants_survived : bool;
  va_log : string;
  va_environment : option ContainerEnvironment;
  va_container : option ValidationContainer;
  va_error : option string;
}.

Definition passed (v : Validation) : bool :=
  is_none (va_error v)
  && (is_none (va_environment v) || is_some (va_container v))
  && (va_exit_code v == Some 0%Z)
  && negb (va_timed_out v)
  && negb (va_descendants_survived v)
  && (va_after v == Some (va_before v)).

(** ** Bundles *)

Definition HANDOFF_SCHEMA : Z := 2.
Definition IMPORT_BYTES : Z := 8 * 1024 * 1024.
Definition DIFF_CAP : Z := 64 * 1024.
Definition BUNDLE_ROWS : Z := 1000.

Record HandoffDiff := mkDiff { hd_patch : string; hd_truncated : bool; hd_worktree : string }.

Record HandoffBundle := mkBundle {
  hb_schema : Z;
  hb_id : string;
  hb_from : string;
  hb_from_name : string;
  hb_to : option string;
  hb_project : option string;
  hb_task : string;
  hb_note : option string;
  hb_assumptions : list string;
  hb_next_steps : list string;
  hb_links : list Link;
  hb_checkout : string;
  hb_version : string;
  hb_environment : option ContainerEnvironment;
  hb_vcs : option VcsState;
  hb_leases : list Lease;
  hb_transfer_leases : bool;
  hb_read_set : list ReadMark;
  hb_changes : list Change;
  hb_diff : option HandoffDiff;
  hb_unread_inbox : list Envelope;
  hb_journal : list JournalEntry;
  hb_journal_cursor : option Z;
  hb_created_at : instant;
  hb_imported_at : option instant;
}.

Definition headline (b : HandoffBundle) (to_name : option string) : string :=
  match to_name with
  | Some name => "handed off to " ++ name ++ ": " ++ hb_task b
  | None => "exported a handoff: " ++ hb_task b
  end.

(** [… (truncated)] and a line feed. *)
Definition MARKER : string := ellipsis ++ " (truncated)" ++ newline_str.

(** [is_char_boundary] *)
Definition is_char_boundary (s : string) (i : nat) : bool :=
  if (i =? 0)%nat then true
  else match String.get i s with
       | Some a => negb (is_continuation a)
       | None => (i =? String.length s)%nat
       end.

(** The loop back to a character boundary. *)
Fixpoint boundary_before (s : string) (cut : nat) : nat :=
  match cut with
  | O => O
  | S cut' => if is_char_boundary s cut then cut else boundary_before s cut'
  end.

(** The place after the last line feed, [s[..].rfind('\n')] and one. *)
Fixpoint after_last_newline (s : string) : option nat :=
  match s with
  | "" => None
  | String a s' =>
      match after_last_newline s' with
      | Some i => Some (S i)
      | None => if Ascii.eqb a "010" then Some 1%nat else None
      end
  end.

Definition cut_at (cap : nat) (patch : string) : nat :=
  let cut := boundary_before patch (cap - String.length MARKER) in
  unwrap_or cut (after_last_newline (stake cut patch)).

Definition cap_diff_at (cap : nat) (patch worktree : string) : HandoffDiff :=
  if (String.length patch <=? cap)%nat then mkDiff patch false worktree
  else mkDiff (stake (cut_at cap patch) patch ++ MARKER) true worktree.

Definition cap_diff (patch worktree : string) : HandoffDiff := cap_diff_at (Z.to_nat DIFF_CAP) patch worktree.

Inductive ImportError := MarkOutside (path : string) | MarkReachesOut (path : string).

Definition is_normal (c : Component) : bool := match c with Normal _ => true | _ => false end.

Definition rehome (old checkout : string) (mark : ReadMark) : result ReadMark ImportError :=
  match path_strip_prefix (rm_path mark) old with
  | None => Err (MarkOutside (rm_path mark))
  | Some relative =>
      if forallb is_normal relative
      then Ok (mkMark (path_join checkout relative) (rm_at mark) (rm_version mark) (rm_head mark))
      else Err (MarkReachesOut (rm_path mark))
  end.

Fixpoint rehome_all (old checkout : string) (marks : list ReadMark) : result (list ReadMark) ImportError :=
  match marks with
  | [] => Ok []
  | mark :: rest =>
      let? m := rehome old checkout mark in
      let? ms := rehome_all old checkout rest in Ok (m :: ms)
  end.

Definition imported (b : HandoffBundle) (to checkout : string) (now : instant) : result HandoffBundle ImportError :=
  let? read_set := rehome_all (hb_checkout b) checkout (hb_read_set b) in
  Ok (mkBundle (hb_schema b) (hb_id b) (hb_from b) (hb_from_name b) (Some to) (hb_project b) (hb_task b)
        (hb_note b) (hb_assumptions b) (hb_next_steps b) (hb_links b) checkout (hb_version b)
        (hb_environment b) (hb_vcs b) (hb_leases b) false read_set (hb_changes b) (hb_diff b)
        (hb_unread_inbox b) (hb_journal b) None (hb_created_at b) (Some now)).

(** ** Lemmas *)

Module HandoffFacts.
Import PathFacts.

(** *** Environments *)

(** What two environments have to agree on: where both say what was built from
    what, everything but the build and the connection; else everything. *)
Definition environment_key (e : ContainerEnvironment) : ContainerEnvironment :=
  match ce_inputs e with
  | Some _ => mkEnvironment (ce_inputs e) (ce_image_id e) "" (ce_engine e) None (ce_network e) (ce_user e) (ce_env e)
  | None => e
  end.

Lemma environment_matches_key a b :
  environment_matches a b = true ↔ environment_key <$> a = environment_key <$> b.
Proof.
  destruct a as [[[i1|] ? ? ? ? ? ? ?]|], b as [[[i2|] ? ? ? ? ? ? ?]|]; unfold environment_matches, environment_key; simpl;
    rewrite ?andb_true_iff, ?eqb_true; split; intros H; destruct_and?; simplify_eq; try done;
    split_and?; congruence.
Qed.

(** *** Overlaps *)

(** The rows that change a path in a checkout. *)
Definition touches (p c : PathKey) (ch : Change) : bool :=
  (path_components (ch_path ch) == p) && (path_components <$> ch_checkout ch == Some c).

Definition note_row (o : option OverlapParty) (ch : Change) : option OverlapParty :=
  match ch_checkout ch with
  | Some checkout => Some (note_party ch (unwrap_or (first_party ch checkout) o))
  | None => o
  end.

(** The party of a path and a checkout, from their rows alone. *)
Definition party_of (changes : list Change) (p c : PathKey) : option OverlapParty :=
  foldl note_row None (List.filter (touches p c) changes).

Definition party_in (m : gmap PathKey (string * gmap PathKey OverlapParty)) (p c : PathKey) : option OverlapParty :=
  match m !! p with Some e => e.2 !! c | None => None end.

Lemma changed_snoc l ch : changed (app l [ch]) = note_change (changed l) ch.
Proof. unfold changed. by rewrite foldl_app. Qed.

Lemma filter_snoc {A} (f : A → bool) l x : List.filter f (app l [x]) = app (List.filter f l) (if f x then [x] else []).
Proof. rewrite List.filter_app. simpl. by destruct (f x). Qed.

Lemma party_of_snoc l ch p c :
  party_of (app l [ch]) p c = if touches p c ch then note_row (party_of l p c) ch else party_of l p c.
Proof. unfold party_of. rewrite filter_snoc. destruct (touches p c ch); [by rewrite foldl_app|by rewrite app_nil_r]. Qed.

Lemma party_in_changed changes p c : party_in (changed changes) p c = party_of changes p c.
Proof.
  induction changes as [|ch l IH] using rev_ind; [done|]. rewrite changed_snoc, party_of_snoc, <-IH.
  unfold note_change, touches, note_row, party_in. destruct (ch_checkout ch) as [co|]; simpl.
  2: { by rewrite (proj2 (eqb_false (None : option PathKey) (Some c))), andb_false_r. }
  destruct (unwrap_or _ _) as [path parties] eqn:E.
  destruct (decide (path_components (ch_path ch) = p)) as [<-|Hne].
  - rewrite lookup_insert_eq, eqb_refl. simpl. destruct (decide (path_components co = c)) as [<-|Hc].
    + rewrite lookup_insert_eq, eqb_refl. by destruct (changed l !! _); simpl in E; simplify_eq.
    + rewrite lookup_insert_ne, (proj2 (eqb_false _ _)) by congruence.
      by destruct (changed l !! _); simpl in E; simplify_eq.
  - by rewrite lookup_insert_ne, (proj2 (eqb_false _ _)) by done.
Qed.

(** A path is listed under the spelling it was first seen with. *)
Lemma changed_spelling changes p e :
  changed changes !! p = Some e → path_components e.1 = p ∧ ∃ c, is_Some (e.2 !! c).
Proof.
  revert e. induction changes as [|ch l IH] using rev_ind; intros e; [done|]. rewrite changed_snoc. unfold note_change.
  destruct (ch_checkout ch) as [co|]; [|by apply IH]. destruct (unwrap_or _ _) as [path parties] eqn:E.
  destruct (decide (path_components (ch_path ch) = p)) as [<-|Hne]; [|rewrite lookup_insert_ne by done; by apply IH].
  rewrite lookup_insert_eq. intros [= <-]. simpl. split; [|eexists; by rewrite lookup_insert_eq].
  destruct (changed l !! _) as [e'|] eqn:E'; simpl in E; simplify_eq; [|done]. by destruct (IH _ eq_refl).
Qed.
(** What a party says, of the rows it stands for. *)
Definition party_tells (rows : list Change) (c : PathKey) (p : OverlapParty) : Prop :=
  path_components (op_checkout p) = c
  ∧ op_changes p = length rows
  ∧ NoDup (op_agents p)
  ∧ (∀ a, a ∈ op_agents p ↔ ∃ r, r ∈ rows ∧ attributed (ch_by r) = Some a)
  ∧ (∀ r, r ∈ rows → (ch_at r ≤ op_last_at p)%Z)
  ∧ ∃ r, r ∈ rows ∧ ch_at r = op_last_at p ∧ ch_head r = op_head p.

Lemma note_agents ch p a :
  a ∈ op_agents (note_party ch p) ↔ a ∈ op_agents p ∨ attributed (ch_by ch) = Some a.
Proof.
  simpl. destruct (attributed (ch_by ch)) as [b|]; [|naive_solver].
  case_bool_decide; [|rewrite elem_of_app, list_elem_of_singleton]; naive_solver.
Qed.

Lemma note_agents_NoDup ch p : NoDup (op_agents p) → NoDup (op_agents (note_party ch p)).
Proof.
  simpl. intros Hnd. destruct (attributed (ch_by ch)) as [b|]; [|done]. case_bool_decide; [done|].
  apply NoDup_app. split_and!; [done| |apply NoDup_singleton]. intros x Hx ->%list_elem_of_singleton. done.
Qed.

Lemma party_tells_first ch co :
  party_tells [ch] (path_components co) (note_party ch (first_party ch co)).
Proof.
  unfold party_tells. split_and!; [done|done|apply note_agents_NoDup, NoDup_nil_2|..].
  - intros a. rewrite note_agents. simpl. setoid_rewrite list_elem_of_singleton. split; [intros [H|H]|naive_solver].
    + by apply not_elem_of_nil in H.
    + eauto.
  - simpl. rewrite Z.leb_refl. intros r ->%list_elem_of_singleton. done.
  - simpl. rewrite Z.leb_refl. exists ch. split; [by apply list_elem_of_singleton|done].
Qed.

Lemma party_tells_snoc rows c p ch :
  party_tells rows c p → party_tells (app rows [ch]) c (note_party ch p).
Proof.
  intros (Hc & Hn & Hnd & Ha & Hle & r & Hr & Hat & Hh). unfold party_tells.
  split_and!; [done|simpl; rewrite length_app; simpl; lia|by apply note_agents_NoDup| | |].
  - intros a. rewrite note_agents, Ha. setoid_rewrite elem_of_app. setoid_rewrite list_elem_of_singleton. naive_solver.
  - intros x [Hx| ->%list_elem_of_singleton]%elem_of_app; simpl.
    + specialize (Hle _ Hx). destruct (Z.leb_spec (op_last_at p) (ch_at ch)); lia.
    + destruct (Z.leb_spec (op_last_at p) (ch_at ch)); lia.
  - simpl. destruct (Z.leb_spec (op_last_at p) (ch_at ch)).
    + exists ch. split; [apply elem_of_app; right; by apply list_elem_of_singleton|done].
    + exists r. split; [apply elem_of_app; by left|done].
Qed.

Lemma party_of_spec changes p c :
  match party_of changes p c with
  | Some party => party_tells (List.filter (touches p c) changes) c party
  | None => List.filter (touches p c) changes = []
  end.
Proof.
  induction changes as [|ch l IH] using rev_ind; [done|]. rewrite party_of_snoc, filter_snoc.
  destruct (touches p c ch) eqn:Et; [|by rewrite app_nil_r].
  unfold touches in Et. split_and_bool. unfold note_row. destruct (ch_checkout ch) as [co|]; [|done]. simplify_eq/=.
  destruct (party_of l _ _) as [party|]; simpl.
  - by apply party_tells_snoc.
  - rewrite IH. apply party_tells_first.
Qed.

Lemma party_of_Some changes p c :
  is_Some (party_of changes p c) ↔ ∃ ch, ch ∈ changes ∧ touches p c ch = true.
Proof.
  pose proof (party_of_spec changes p c) as Hs. destruct (party_of changes p c) as [party|]; split; try done.
  - destruct Hs as (_ & _ & _ & _ & _ & r & Hr & _). apply list_elem_of_In, filter_In in Hr as [Hr Ht].
    exists r. split; [by apply list_elem_of_In|done].
  - intros (ch & Hin & Ht). exfalso. assert (ch ∈ List.filter (touches p c) changes) as Hf.
    { apply list_elem_of_In, filter_In. split; [by apply list_elem_of_In|done]. }
    rewrite Hs in Hf. by apply not_elem_of_nil in Hf.
Qed.

(** Two keys make a map larger than one. *)
Lemma size_two `{Countable K} {V} (m : gmap K V) :
  (1 < size m)%nat ↔ ∃ i j, i ≠ j ∧ is_Some (m !! i) ∧ is_Some (m !! j).
Proof.
  split.
  - intros Hs. rewrite <-length_map_to_list in Hs. destruct (map_to_list m) as [|[i v] [|[j w] l]] eqn:E; simpl in Hs; [lia..|].
    exists i, j. pose proof (NoDup_fst_map_to_list m) as Hnd. rewrite E in Hnd. csimpl in Hnd.
    split_and!; [inversion Hnd; set_solver|exists v|exists w]; apply elem_of_map_to_list; rewrite E; set_solver.
  - intros (i & j & Hne & [v Hv] & [w Hw]). rewrite <-(insert_delete_id m i v Hv), map_size_insert_None by apply lookup_delete_eq.
    rewrite <-(insert_delete_id (delete i m) j w), map_size_insert_None;
      [lia|apply lookup_delete_eq|by rewrite lookup_delete_ne].
Qed.

Lemma elem_of_overlaps changes o :
  o ∈ overlaps_of changes ↔
  ∃ e, changed changes !! path_components (ov_path o) = Some e ∧ (1 < size e.2)%nat
       ∧ o = mkOverlap e.1 (sort_by_key party_key (map_to_list e.2).*2).
Proof.
  unfold overlaps_of. rewrite list_elem_of_fmap. split.
  - intros (e & -> & Hin). apply list_elem_of_In, filter_In in Hin as [Hin Hs]. apply Nat.ltb_lt in Hs.
    apply list_elem_of_In in Hin. rewrite elem_of_sort_by_key in Hin. apply list_elem_of_fmap in Hin as ([p e'] & -> & Hin).
    apply elem_of_map_to_list in Hin. destruct (changed_spelling _ _ _ Hin) as [Hp _]. exists e'. simpl in *. by rewrite Hp.
  - intros (e & He & Hs & ->). exists e. split; [done|]. apply list_elem_of_In, filter_In.
    split; [|by apply Nat.ltb_lt]. apply list_elem_of_In. rewrite elem_of_sort_by_key, list_elem_of_fmap.
    eexists (_, e). split; [done|]. by apply elem_of_map_to_list.
Qed.

(** The listing is sorted by path, and a path stands in it once. *)
Lemma overlaps_sorted changes :
  StronglySorted (λ a b, cmp_le (path_key (ov_path a)) (path_key (ov_path b))) (overlaps_of changes).
Proof.
  unfold overlaps_of. set (l := sort_by_key _ _).
  assert (StronglySorted (λ a b, cmp_le (path_key a.1) (path_key b.1)) l) as Hs by apply sort_by_key_sorted.
  clearbody l. induction Hs as [|e l Hs IH He]; simpl; [constructor|].
  destruct (1 <? size e.2)%nat; [|done]. csimpl. constructor; [done|]. apply Forall_fmap. simpl.
  rewrite Forall_forall in He |- *. intros x Hx. apply He. apply list_elem_of_In, filter_In in Hx as [Hx _].
  by apply list_elem_of_In.
Qed.

(** *** The capped diff *)

Lemma boundary_before_spec s cut :
  (boundary_before s cut ≤ cut)%nat ∧ is_char_boundary s (boundary_before s cut) = true.
Proof.
  induction cut as [|cut [IH1 IH2]]; [done|]. cbn [boundary_before].
  destruct (is_char_boundary s (S cut)) eqn:E; [by rewrite E|]. split; [lia|done].
Qed.

Lemma stake_split n s : ∃ rest, s = stake n s ++ rest ∧ ((n ≤ String.length s)%nat → String.length (stake n s) = n).
Proof.
  revert s. induction n as [|n IH]; intros s.
  { exists s. split; [by destruct s|]. by destruct s. }
  destruct s as [|a s]; [exists ""; split; [done|simpl; lia]|].
  destruct (IH s) as (rest & Hs & Hl). exists rest. simpl. rewrite append_cons, <-Hs. split; [done|].
  intros Hn. f_equal. apply Hl. lia.
Qed.

Lemma boundary_starts n s rest :
  s = stake n s ++ rest → (n ≤ String.length s)%nat → is_char_boundary s n = true → rest ≠ "" → (0 < n)%nat →
  starts_char rest.
Proof.
  intros Hs Hn Hb Hr H0. unfold is_char_boundary in Hb.
  rewrite (proj2 (Nat.eqb_neq n 0)) in Hb by lia.
  assert (String.get n s = String.get 0 rest) as Hg.
  { rewrite Hs. assert (String.length (stake n s) = n) as Hl by (destruct (stake_split n s) as (? & _ & H); auto).
    revert Hl. generalize (stake n s). clear. intros t <-. induction t as [|a t IH]; [done|]. rewrite append_cons. done. }
  rewrite Hg in Hb. destruct rest as [|a rest]; [done|]. simpl in Hb. apply negb_true_iff in Hb.
  unfold starts_char. simpl. destruct (split_chars rest). by rewrite Hb.
Qed.

Lemma after_last_newline_spec s :
  match after_last_newline s with
  | Some i => ∃ before after, s = before ++ String "010" after ∧ i = S (String.length before)
  | None => contains_char "010" s = false
  end.
Proof.
  induction s as [|a s IH]; [done|]. cbn [after_last_newline]. destruct (after_last_newline s) as [i|].
  - destruct IH as (before & after & -> & ->). exists (String a before), after. by rewrite append_cons.
  - destruct (Ascii.eqb a "010") eqn:E.
    + apply Ascii.eqb_eq in E as ->. exists "", s. by rewrite append_nil_l.
    + unfold contains_char in *. cbn -[Ascii.eqb]. by rewrite Ascii.eqb_sym, E.
Qed.

Lemma stake_app s t : stake (String.length s) (s ++ t) = s.
Proof. induction s as [|a s IH]; [by destruct t|]. rewrite append_cons. simpl. by rewrite IH. Qed.

(** After a line feed of valid text a character starts. *)
Lemma starts_after_newline p r : utf8_valid (p ++ String "010" r) = true → starts_char r.
Proof.
  intros [_ Hf]%utf8_valid_chars. rewrite chars_app in Hf by (unfold starts_char; simpl; by destruct (split_chars r)).
  apply Forall_app in Hf as [_ Hf]. unfold chars, starts_char in *. simpl in Hf.
  destruct (split_chars r) as [cont cs]. simpl in *. inversion Hf as [|? ? H _]; subst.
  unfold ascii_alone in H. simpl in H. destruct cont; [done|]. naive_solver.
Qed.

(** Where the diff is cut: a character and a line start there, if a line ends
    before it at all. *)
Lemma cut_spec cap patch :
  utf8_valid patch = true → (cap ≤ String.length patch)%nat →
  ∃ rest, patch = stake (cut_at cap patch) patch ++ rest
  ∧ (String.length (stake (cut_at cap patch) patch) ≤ cap - String.length MARKER)%nat
  ∧ starts_char rest
  ∧ (ends_with_char "010" (stake (cut_at cap patch) patch) = true
     ∨ contains_char "010" (stake (cut_at cap patch) patch) = false).
Proof.
  intros Hv Hcap. unfold cut_at. set (cut := boundary_before _ _).
  destruct (boundary_before_spec patch (cap - String.length MARKER)) as [Hle Hb]. fold cut in Hle, Hb.
  destruct (stake_split cut patch) as (rest & Hs & Hl). specialize (Hl ltac:(lia)).
  pose proof (after_last_newline_spec (stake cut patch)) as Hn.
  destruct (after_last_newline (stake cut patch)) as [i|]; simpl unwrap_or.
  - destruct Hn as (before & after & Hst & ->).
    assert (patch = (before ++ String "010" "") ++ (after ++ rest)) as Hp.
    { rewrite Hs, Hst. by autorewrite with rust. }
    assert (stake (S (String.length before)) patch = before ++ String "010" "") as ->.
    { rewrite Hp at 1. replace (S (String.length before)) with (String.length (before ++ String "010" ""))
        by (rewrite length_append; simpl; lia). apply stake_app. }
    exists (after ++ rest). split_and!; [done| | |left].
    + assert (String.length (stake cut patch) ≤ cap - String.length MARKER)%nat as H by lia.
      rewrite Hst, length_append in H. rewrite length_append. simpl in *. lia.
    + apply (starts_after_newline before). rewrite Hp in Hv. by autorewrite with rust in Hv |- *.
    + clear. induction before as [|a t IH]; [done|]. rewrite append_cons. simpl. rewrite IH. by destruct t.
  - exists rest. split_and!; [done|lia| |by right]. destruct (decide (rest = "")) as [->|Hr]; [done|].
    destruct (decide (cut = 0)%nat) as [E|]; [|eapply boundary_starts; eauto; lia].
    rewrite E in Hs. assert (stake 0 patch = "") as E0 by (by destruct patch). rewrite E0, append_nil_l in Hs. subst rest.
    by apply utf8_valid_chars in Hv as [? _].
Qed.

(** *** Imports *)

(** A path that lies plainly below another: its components, and names. *)
Definition plainly_below (p base : string) (ns : list string) : Prop :=
  components p = app (components base) (Normal <$> ns) ∧ Forall name_ok ns.

Lemma all_normal cs : forallb is_normal cs = true → ∃ ns, cs = Normal <$> ns.
Proof.
  induction cs as [|[| | |n] cs IH]; simpl; try done; [by exists []|]. intros H. destruct (IH H) as [ns ->].
  by exists (n :: ns).
Qed.

Lemma rehome_spec old checkout m :
  match rehome old checkout m with
  | Ok m' => ∃ ns, plainly_below (rm_path m) old ns ∧ plainly_below (rm_path m') checkout ns
                   ∧ m' = mkMark (path_join checkout (Normal <$> ns)) (rm_at m) (rm_version m) (rm_head m)
  | Err _ => ¬ ∃ ns, plainly_below (rm_path m) old ns
  end.
Proof.
  unfold rehome, path_strip_prefix. destruct (strip_components _ _) as [rel|] eqn:E.
  - apply strip_components_Some in E as Ep. destruct (forallb is_normal rel) eqn:En.
    + destruct (all_normal _ En) as [ns ->]. exists ns. assert (Forall name_ok ns) as Hns.
      { apply Forall_forall. intros n Hn. apply (components_names (rm_path m)). rewrite Ep, elem_of_app. right.
        by apply list_elem_of_fmap_2. }
      split_and!; [done|split; [by apply components_join|done]|done].
    + intros (ns & Hp & _). rewrite Ep in Hp. apply app_inv_head in Hp as ->.
      clear -En. induction ns as [|n ns IH]; [done|]. by apply IH.
  - intros (ns & Hp & _). apply strip_components_Some in Hp. congruence.
Qed.

Lemma rehome_all_spec old checkout marks :
  match rehome_all old checkout marks with
  | Ok ms => Forall2 (λ m m', ∃ ns, plainly_below (rm_path m) old ns ∧ plainly_below (rm_path m') checkout ns
                   ∧ m' = mkMark (path_join checkout (Normal <$> ns)) (rm_at m) (rm_version m) (rm_head m)) marks ms
  | Err _ => ∃ m, m ∈ marks ∧ ¬ ∃ ns, plainly_below (rm_path m) old ns
  end.
Proof.
  induction marks as [|m marks IH]; simpl; [constructor|]. pose proof (rehome_spec old checkout m) as Hm.
  destruct (rehome old checkout m) as [m'|e]; simpl; [|exists m; split; [left|done]].
  destruct (rehome_all old checkout marks) as [ms|e]; simpl.
  - by constructor.
  - destruct IH as (x & Hx & Hn). exists x. split; [by right|done].
Qed.
End HandoffFacts.

(** ** Properties *)

Module HandoffProps.
Import PathFacts HandoffFacts.

(** The listing of overlaps is exact. A path is in it exactly when two rows
    changed it in different checkouts; its parties are the checkouts that
    changed it, each with the number of its changes, the agents they are put
    down to, each once, and the time and the head of the latest; paths are
    sorted and parties are newest first. *)
Theorem overlaps_exact changes :
  (∀ p, (∃ o, o ∈ overlaps_of changes ∧ path_components (ov_path o) = p) ↔
        ∃ a b ca cb, a ∈ changes ∧ b ∈ changes ∧ ca ≠ cb ∧ touches p ca a = true ∧ touches p cb b = true)
  ∧ (∀ o, o ∈ overlaps_of changes →
       let p := path_components (ov_path o) in
       (∀ party, party ∈ ov_parties o ↔ ∃ c, party_of changes p c = Some party)
       ∧ (∀ party, party ∈ ov_parties o →
            ∃ c, party_tells (List.filter (touches p c) changes) c party)
       ∧ StronglySorted (λ a b, cmp_le (party_key a) (party_key b)) (ov_parties o))
  ∧ StronglySorted (λ a b, cmp_le (path_key (ov_path a)) (path_key (ov_path b))) (overlaps_of changes).
Proof.
  assert (∀ o, o ∈ overlaps_of changes → ∀ party, party ∈ ov_parties o ↔
    ∃ c, party_of changes (path_components (ov_path o)) c = Some party) as Hparty.
  { intros o (e & He & _ & Ho)%elem_of_overlaps party.
    assert (ov_parties o = sort_by_key party_key (map_to_list e.2).*2) as -> by (by rewrite Ho). clear Ho.
    assert (∀ c, party_of changes (path_components (ov_path o)) c = e.2 !! c) as Hin.
    { intros c. rewrite <-party_in_changed. unfold party_in. by rewrite He. }
    rewrite elem_of_sort_by_key, list_elem_of_fmap. split.
    - intros ([c v] & -> & Hv). exists c. rewrite Hin. by apply elem_of_map_to_list.
    - intros [c Hc]. rewrite Hin in Hc. exists (c, party). split; [done|]. by apply elem_of_map_to_list. }
  split_and!; [| |apply overlaps_sorted].
  - intros p. split.
    + intros (o & (e & He & (c1 & c2 & Hne & H1 & H2)%size_two & _)%elem_of_overlaps & <-).
      assert (∀ c, is_Some (e.2 !! c) → ∃ ch, ch ∈ changes ∧ touches (path_components (ov_path o)) c ch = true) as Hrow.
      { intros c Hc. apply party_of_Some. rewrite <-party_in_changed. unfold party_in. by rewrite He. }
      destruct (Hrow _ H1) as (a & ? & ?), (Hrow _ H2) as (b & ? & ?). by exists a, b, c1, c2.
    + intros (a & b & ca & cb & Ha & Hb & Hne & Hta & Htb).
      assert (is_Some (party_in (changed changes) p ca) ∧ is_Some (party_in (changed changes) p cb)) as [H1 H2].
      { rewrite !party_in_changed, !party_of_Some. split; [by exists a|by exists b]. }
      unfold party_in in H1, H2. destruct (changed changes !! p) as [e|] eqn:He; [|by destruct H1].
      destruct (changed_spelling _ _ _ He) as [Hp _].
      exists (mkOverlap e.1 (sort_by_key party_key (map_to_list e.2).*2)). split; [|done].
      apply elem_of_overlaps. exists e. simpl. rewrite Hp. split_and!; [done| |done]. apply size_two. eauto.
  - intros o Ho. split_and!; [by apply Hparty| |].
    + intros party Hin. apply (Hparty _ Ho) in Hin as [c Hc]. exists c.
      pose proof (party_of_spec changes (path_components (ov_path o)) c) as Hs. by rewrite Hc in Hs.
    + apply elem_of_overlaps in Ho as (e & _ & _ & ->). apply sort_by_key_sorted.
Qed.

(** C27: A bundle from another host reaches no further than the checkout it is
    imported into. It is accepted exactly when every read mark lies plainly
    below the sender's checkout, and then each mark is the same names below the
    importer's; neither leases nor the journal cursor follow. *)
Theorem import_stays_inside b to checkout now :
  match imported b to checkout now with
  | Ok b' =>
      hb_checkout b' = checkout ∧ hb_to b' = Some to ∧ hb_transfer_leases b' = false
      ∧ hb_journal_cursor b' = None ∧ hb_imported_at b' = Some now
      ∧ Forall2 (λ m m', (∃ ns, plainly_below (rm_path m) (hb_checkout b) ns ∧ plainly_below (rm_path m') checkout ns)
                         ∧ rm_version m' = rm_version m ∧ rm_at m' = rm_at m ∧ rm_head m' = rm_head m)
          (hb_read_set b) (hb_read_set b')
  | Err _ => ∃ m, m ∈ hb_read_set b ∧ ¬ ∃ ns, plainly_below (rm_path m) (hb_checkout b) ns
  end.
Proof.
  unfold imported. pose proof (rehome_all_spec (hb_checkout b) checkout (hb_read_set b)) as Hs.
  destruct (rehome_all _ _ _) as [ms|e]; simpl; [|done]. split_and!; try done.
  eapply Forall2_impl; [exact Hs|]. intros m m' (ns & H1 & H2 & ->). eauto 6.
Qed.

(** A diff that is carried fits its cap. Within the cap it is carried whole;
    beyond it a part is carried that ends where a character ends, and a line
    when it holds one, with the mark. *)
Theorem capped_diff_fits patch worktree (Hv : utf8_valid patch = true) :
  let d := cap_diff patch worktree in
  (Z.of_nat (String.length (hd_patch d)) ≤ DIFF_CAP)%Z
  ∧ (hd_truncated d = false ↔ (Z.of_nat (String.length patch) ≤ DIFF_CAP)%Z)
  ∧ (hd_truncated d = false → hd_patch d = patch)
  ∧ (hd_truncated d = true → ∃ kept rest,
       patch = kept ++ rest ∧ hd_patch d = kept ++ MARKER ∧ starts_char rest
       ∧ (ends_with_char "010" kept = true ∨ contains_char "010" kept = false)).
Proof.
  cbn zeta. unfold cap_diff, cap_diff_at. set (cap := Z.to_nat DIFF_CAP).
  assert (Z.of_nat cap = DIFF_CAP ∧ (String.length MARKER ≤ cap)%nat) as [Hc Hm].
  { unfold cap. rewrite Z2Nat.id by done. split; [done|]. apply Nat2Z.inj_le. rewrite Z2Nat.id by done. done. }
  clearbody cap. destruct (Nat.leb_spec (String.length patch) cap) as [Hle|Hgt]; simpl.
  - split_and!; try done; [lia|]. split; [lia|done].
  - destruct (cut_spec cap patch Hv ltac:(lia)) as (rest & Hs & Hl & Hst & Hend). split_and!; try done.
    + rewrite length_append. lia.
    + split; [done|lia].
    + intros _. eexists _, rest. split_and!; [exact Hs|done|done|done].
Qed.

Lemma capped_diff_fits_witness :
  (Z.of_nat (String.length (hd_patch (cap_diff "+a" "/w"))) ≤ DIFF_CAP)%Z.
Proof. refine (proj1 (capped_diff_fits "+a" "/w" _)). reflexivity. Defined.

(** Two environments count as the same for a check exactly when they agree on
    what such evidence is about, and that is an equivalence. *)
Theorem environments_match_as_keys :
  (∀ a b, environment_matches a b = true ↔ environment_key <$> a = environment_key <$> b)
  ∧ Equivalence (λ a b, environment_matches a b = true).
Proof.
  split; [apply environment_matches_key|]. split.
  - intros a. by apply environment_matches_key.
  - intros a b. rewrite !environment_matches_key. congruence.
  - intros a b c. rewrite !environment_matches_key. congruence.
Qed.

(** A read guard is cleared only by a complete page that shows something, in
    which everything under the target (anywhere, when the target is what was
    read) is the agent's own. *)
Theorem guard_cleared_only_by_own_changes agent mark target changes complete :
  stale_by_ledger agent mark target changes complete = false ↔
  changes ≠ [] ∧ complete = true
  ∧ ∀ ch, ch ∈ changes → path_eqb target mark = true ∨ path_starts_with (ch_path ch) target = true →
      attributed (ch_by ch) = Some agent.
Proof.
  unfold stale_by_ledger. destruct changes as [|c l]; [simpl; naive_solver|].
  destruct complete; [|simpl; naive_solver]. cbn [length Nat.eqb orb negb]. set (k := c :: l).
  rewrite <-not_true_iff_false, existsb_exists. setoid_rewrite filter_In. setoid_rewrite <-list_elem_of_In.
  setoid_rewrite orb_true_iff. setoid_rewrite negb_true_iff. setoid_rewrite eqb_false. split.
  - intros H. split_and!; [done|done|]. intros ch Hin Hu.
    destruct (decide (attributed (ch_by ch) = Some agent)); [done|]. destruct H. eauto.
  - intros (_ & _ & H) (ch & [Hin Hu] & Hne). eauto.
Qed.
End HandoffProps.
