(* ===== verification/Wait.v ===== *)
(** * Waiting, rings of waits and what an agent is doing

    The model of [crates/core/src/wait.rs]: the queue of claims that wait for
    a resource, the search for a ring of waits and the wait it is broken at,
    what an agent is reported to be doing and for how long that stands, and
    the one line a wait for the person may show. *)

From Stdlib Require Import Ascii.
From stdpp Require Import pretty.
From S2P Require Import Prelude RustStr Order Lease Agent Memory.

Local Open Scope rust_scope.
Local Open Scope string_scope.

Definition MIN_PRIORITY : Z := -9.
Definition MAX_PRIORITY : Z := 9.
Definition valid_priority (p : Z) : bool := ((MIN_PRIORITY <=? p) && (p <=? MAX_PRIORITY))%Z.

Record Waiter := mkWaiter {
  wt_ticket : Z;
  wt_agent : string;
  wt_resource : Resource.ResourceKey;
  wt_mode : LeaseMode;
  wt_since : instant;
  wt_priority : Z;
}.

Global Instance Waiter_eq_dec : EqDecision Waiter.
Proof. solve_decision. Defined.

(** [Waiter::order] *)
Definition waiter_order (w : Waiter) : Reverse Z * Z := (Rev (wt_priority w), wt_ticket w).
Definition ahead_of (w other : Waiter) : bool :=
  match cmp (waiter_order w) (waiter_order other) with Lt => true | _ => false end.

(** One step of a ring: an agent, what it waits for, and who holds it. *)
Record Blocked := mkBlocked {
  bl_agent : string;
  bl_resource : Resource.ResourceKey;
  bl_held_by : string;
}.

(** ** The queue *)

Record WaitQueue := mkQueue {
  q_waiters : list Waiter;
  q_broken : gmap Z (list Blocked);
  q_next_ticket : Z;
}.

Definition queue_new : WaitQueue := mkQueue [] ∅ 0.

(** [partition_point] and [insert]: after the waiters that are ahead. *)
Fixpoint insert_waiter (w : Waiter) (ws : list Waiter) : list Waiter :=
  match ws with
  | x :: ws' => if ahead_of x w then x :: insert_waiter w ws' else w :: ws
  | [] => [w]
  end.

Definition queue_join (q : WaitQueue) (agent : string) (resource : Resource.ResourceKey) (mode : LeaseMode)
    (priority : Z) (now : instant) : WaitQueue * Z :=
  let ticket := q_next_ticket q in
  (mkQueue (insert_waiter (mkWaiter ticket agent resource mode now priority) (q_waiters q)) (q_broken q)
     (u64_add ticket 1), ticket).

(** [position] by ticket and [remove]. *)
Fixpoint take_out (ticket : Z) (ws : list Waiter) : option (Waiter * list Waiter) :=
  match ws with
  | [] => None
  | w :: ws' =>
      if (wt_ticket w =? ticket)%Z then Some (w, ws')
      else match take_out ticket ws' with Some (x, rest) => Some (x, w :: rest) | None => None end
  end.

Definition queue_leave (q : WaitQueue) (ticket : Z) : WaitQueue * option Waiter :=
  let broken := delete ticket (q_broken q) in
  match take_out ticket (q_waiters q) with
  | None => (mkQueue (q_waiters q) broken (q_next_ticket q), None)
  | Some (w, rest) => (mkQueue rest broken (q_next_ticket q), Some w)
  end.

Definition break_ring (q : WaitQueue) (ticket : Z) (cycle : list Blocked) : WaitQueue * option Waiter :=
  match take_out ticket (q_waiters q) with
  | None => (q, None)
  | Some (w, rest) => (mkQueue rest (<[ticket := cycle]> (q_broken q)) (q_next_ticket q), Some w)
  end.

Definition deadlocked (q : WaitQueue) (ticket : Z) : option (list Blocked) := q_broken q !! ticket.

(** [other] stands in [mine]'s way. *)
Definition waiter_blocks (other mine : Waiter) : bool :=
  Resource.overlaps (wt_resource other) (wt_resource mine)
  && ((wt_mode other == Exclusive) || (wt_mode mine == Exclusive)).

Definition queue_position (q : WaitQueue) (ticket : Z) : option nat :=
  match List.find (λ w, (wt_ticket w =? ticket)%Z) (q_waiters q) with
  | None => None
  | Some mine =>
      Some (length (List.filter (λ other, ahead_of other mine && waiter_blocks other mine) (q_waiters q)))
  end.

Definition is_next (q : WaitQueue) (ticket : Z) : bool := queue_position q ticket == Some 0%nat.

Definition waiting_for (q : WaitQueue) (agent : string) : option Waiter :=
  min_by_key wt_ticket (List.filter (λ w, wt_agent w == agent) (q_waiters q)).

(** ** Rings *)

Section Deadlock.
Context (requester : string) (holders : list (Resource.ResourceKey * string)).
Context (waiting : gmap string Resource.ResourceKey).

(** What a search ends with: whether a ring was found, the path and the agents
    seen; [None] when the turns ran out. *)
Definition Walked : Type := option (bool * list Blocked * gset string).

(** The loop over the holders, [deeper] being the search from one of them. *)
Fixpoint each_holder (deeper : string → Resource.ResourceKey → list Blocked → gset string → Walked)
    (from : string) (want : Resource.ResourceKey) (hs : list (Resource.ResourceKey * string))
    (path : list Blocked) (seen : gset string) : Walked :=
  match hs with
  | [] => Some (false, path, seen)
  | (held, holder) :: hs' =>
      if negb (Resource.overlaps held want) then each_holder deeper from want hs' path seen
      else if holder == from then each_holder deeper from want hs' path seen
      else
        let path := app path [mkBlocked from want holder] in
        if holder == requester then Some (true, path, seen)
        else if bool_decide (holder ∈ seen) then each_holder deeper from want hs' (removelast path) seen
        else
          let seen := {[ holder ]} ∪ seen in
          match waiting !! holder with
          | None => each_holder deeper from want hs' (removelast path) seen
          | Some next =>
              match deeper holder next path seen with
              | None => None
              | Some (true, path, seen) => Some (true, path, seen)
              | Some (false, path, seen) => each_holder deeper from want hs' (removelast path) seen
              end
          end
  end.

Fixpoint walk_from (turns : nat) (from : string) (want : Resource.ResourceKey) (path : list Blocked)
    (seen : gset string) : Walked :=
  match turns with
  | O => None
  | S turns' => each_holder (walk_from turns') from want holders path seen
  end.
End Deadlock.

(** [waits.iter().collect::<HashMap>()]: the last wait of an agent counts. *)
Definition waits_map (waits : list (string * Resource.ResourceKey)) : gmap string Resource.ResourceKey :=
  foldl (λ m w, <[w.1 := w.2]> m) ∅ waits.

(** One turn for each holder, and one more. *)
Definition deadlock (requester : string) (resource : Resource.ResourceKey)
    (holders : list (Resource.ResourceKey * string)) (waits : list (string * Resource.ResourceKey)) :
    option (list Blocked) :=
  match walk_from requester holders (waits_map waits) (S (length holders)) requester resource [] {[ requester ]} with
  | Some (true, path, _) => Some path
  | _ => None
  end.

(** ** Where a ring is broken *)

Record Victim := mkVictim { vi_step : nat; vi_ticket : option Z }.

(** A candidate: its step, its priority, and its ticket when it is queued. *)
Definition Candidate : Type := nat * Z * option Z.

Definition step_candidates (waiters : list Waiter) (step : nat) (b : Blocked) : list Candidate :=
  (λ w, (step, wt_priority w, Some (wt_ticket w)))
  <$> List.filter (λ w, (wt_agent w == bl_agent b) && (wt_resource w == bl_resource b)) waiters.

Fixpoint candidates_from (waiters : list Waiter) (step : nat) (cycle : list Blocked) : list Candidate :=
  match cycle with
  | [] => []
  | b :: rest => app (step_candidates waiters step b) (candidates_from waiters (S step) rest)
  end.

Definition victim_key (c : Candidate) : Reverse Z * (bool * option Z) := (Rev c.1.2, (is_none c.2, c.2)).

(** [None] would be the panic of [expect]. *)
Definition victim (cycle : list Blocked) (priority : Z) (waiters : list Waiter) : option Victim :=
  match max_by_key victim_key (app (candidates_from waiters 1 (drop 1 cycle)) [(0%nat, priority, None)]) with
  | Some (step, _, ticket) => Some (mkVictim step ticket)
  | None => None
  end.

(** ** What an agent is doing *)

Record Judged := mkJudged { jd_permille : Z }.

(** [92%], for a person. *)
Definition percent (j : Judged) : string := pretty ((Z.min (jd_permille j) 1000 + 5) / 10)%Z ++ "%".

Inductive Activity :=
| AUnknown
| AStarting
| AWorking (since : instant)
| ABlocked (resource : Resource.ResourceKey) (held_by : list string) (since : instant)
| AIdle (since : instant)
| AWaiting (since : instant) (reason : option WaitReason) (judged : option Judged) (detail : option string)
| AFinished.

Definition activity_label (a : Activity) : string :=
  match a with
  | AUnknown => "unknown" | AStarting => "starting" | AWorking _ => "working" | ABlocked _ _ _ => "blocked"
  | AIdle _ => "idle" | AWaiting _ _ _ _ => "waiting" | AFinished => "finished"
  end.

Global Instance ReportedActivity_eq_dec : EqDecision ReportedActivity.
Proof. solve_decision. Defined.
Global Instance WaitReason_eq_dec : EqDecision WaitReason.
Proof. solve_decision. Defined.

Definition outranks (a other : ActivitySource) : bool :=
  match a, other with ACodexServer, AHerdr => true | _, _ => false end.

Definition WAIT_DETAIL_CHARS : nat := 120.
Definition WAIT_DETAIL_CARRY_SECS : Z := 60.

(** ** The line of a wait *)

(** Characters that change how the text around them reads without showing
    themselves. *)
Definition invisible (c : string) : bool :=
  let n := code_point c in
  ((n =? 0xAD) || (n =? 0x34F) || (n =? 0x61C) || (n =? 0x180E)
   || ((0x200B <=? n) && (n <=? 0x200F)) || ((0x2028 <=? n) && (n <=? 0x202E))
   || ((0x2060 <=? n) && (n <=? 0x2064)) || ((0x2066 <=? n) && (n <=? 0x2069)) || (n =? 0xFEFF))%N.

Definition PATH_TOOLS : list string := ["Edit"; "Write"; "MultiEdit"; "Read"; "NotebookEdit"].
Definition SHELL_TOOLS : list string := ["Bash"; "PowerShell"].
Definition CREDENTIAL_WORDS : list string :=
  ["password"; "passwd"; "passphrase"; "secret"; "token"; "apikey"; "api_key"; "api-key"; "authorization";
   "bearer"; "credential"; "private_key"; "private-key"].
Definition CREDENTIAL_FLAG_PARTS : list string :=
  ["user"; "pass"; "pwd"; "token"; "key"; "auth"; "header"; "cookie"; "secret"; "cred"; "bearer";
   "login"; "session"; "cert"; "identity"].
Definition CREDENTIAL_FLAG_LETTERS : list ascii := ["u"; "p"; "P"; "H"; "k"; "K"]%char.
Definition SUBCOMMANDS : list (string * list string) :=
  [("cargo", ["build"; "check"; "clippy"; "test"; "run"; "fmt"; "doc"; "bench"; "install"; "update";
              "add"; "remove"; "tree"; "metadata"; "nextest"]);
   ("git", ["status"; "diff"; "log"; "show"; "add"; "commit"; "push"; "pull"; "fetch"; "merge";
            "rebase"; "checkout"; "switch"; "branch"; "stash"; "worktree"; "reset"; "restore";
            "tag"; "remote"; "clone"; "init"]);
   ("go", ["build"; "test"; "run"; "vet"; "mod"; "get"; "install"]);
   ("npm", ["install"; "ci"; "test"; "run"; "build"; "add"; "remove"; "exec"]);
   ("pnpm", ["install"; "ci"; "test"; "run"; "build"; "add"; "remove"; "exec"]);
   ("yarn", ["install"; "ci"; "test"; "run"; "build"; "add"; "remove"; "exec"])].

Definition one_of (bytes : list ascii) (a : ascii) : bool := existsb (Ascii.eqb a) bytes.

Definition tool_name (word : string) : bool :=
  (word != "") && sforall (λ a, is_ascii_alphanumeric a || one_of ["_"; "-"; "."]%char a) word.

Definition credential_flag (word : string) : bool :=
  match strip_prefix "-" word with
  | None => false
  | Some flag =>
      let name := match split_once "=" flag with Some (n, _) => n | None => flag end in
      let long := strip_prefix "-" name in
      let bare := unwrap_or name long in
      if bare == "" then false
      else existsb (λ part, contains_str part (to_ascii_lowercase bare)) CREDENTIAL_FLAG_PARTS
           || (is_none long && sexists (one_of CREDENTIAL_FLAG_LETTERS) bare)
  end.

Definition userinfo (word : string) : bool :=
  negb (contains_str "://" word)
  && is_some_and (λ lr, contains_char ":" lr.1) (rsplit_once "@" word).

(** An address without what may carry a credential. *)
Definition address (url : string) : string :=
  let url := match split_once "?" url with Some (l, _) => l | None => url end in
  let url := match split_once "#" url with Some (l, _) => l | None => url end in
  match split_str "://" url with
  | None => url
  | Some (scheme, rest) =>
      let '(authority, path) := match split_once "/" rest with Some (l, r) => (l, String "/" r) | None => (rest, "") end in
      let host := match rsplit_once "@" authority with Some (_, h) => h | None => authority end in
      scheme ++ "://" ++ host ++ path
  end.

(** The words before the first that may carry a credential. *)
Fixpoint scrub_words (words : list string) : list string :=
  match words with
  | [] => []
  | word :: rest =>
      if credential_flag word || userinfo word then []
      else (if contains_str "://" word then address word else word) :: scrub_words rest
  end.
Definition scrubbed (line : string) : string := join " " (scrub_words (split_char " " line)).

Definition plain_word (word : string) : bool :=
  (word != "")
  && sforall (λ a, is_ascii_alphanumeric a || one_of ["."; "_"; "/"; "~"; "+"; ","; ":"; "%"; "@"; "-"]%char a) word.

(** [NAME=value] before a program. *)
Definition assignment (word : string) : bool :=
  is_some_and (λ lr,
    match lr.1 with
    | String a _ => is_ascii_alphabetic a || Ascii.eqb a "_"
    | "" => false
    end && sforall (λ a, is_ascii_alphanumeric a || Ascii.eqb a "_") lr.1) (split_once "=" word).

(** [program.rsplit('/').find(|part| !part.is_empty())] *)
Definition program_name (program : string) : option string :=
  List.find (λ part, part != "") (rev (split_char "/" program)).

Definition subcommand_of (name : string) (words : list string) : option string :=
  let known := unwrap_or name (strip_suffix ".exe" name) in
  match List.find (λ ps, ps.1 == known) SUBCOMMANDS, words with
  | Some (_, subcommands), word :: _ => List.find (λ s, s == word) subcommands
  | _, _ => None
  end.

Definition command_detail (command : string) : option string :=
  if secret_like command || existsb (λ w, contains_str w (to_ascii_lowercase command)) CREDENTIAL_WORDS then None
  else match List.find (λ line, line != "") (trim <$> lines_of command) with
  | None => None
  | Some line =>
      match drop_matching assignment (split_whitespace line) with
      | [] => None
      | program :: words =>
          if starts_with program "-" || negb (plain_word program) || userinfo program then None
          else match program_name program with
          | None => None
          | Some name =>
              Some (match subcommand_of name words with
                    | Some subcommand => name ++ " " ++ subcommand
                    | None => name
                    end)
          end
      end
  end.

(** One line of the text as it is read: blanks as spaces, nothing that does not
    show, runs of spaces as one. *)
Definition clean_line (cs : list string) : string :=
  join " " (split_whitespace (String.concat ""
    (List.filter (λ c, negb (is_control c) && negb (invisible c))
       ((λ c, if is_whitespace c then " " else c) <$> cs)))).

(** [text.split(['\n', '\r'])], by characters. *)
Fixpoint split_breaks (cur : list string) (cs : list string) : list (list string) :=
  match cs with
  | [] => [rev cur]
  | c :: cs' =>
      if (c == newline_str) || (c == String carriage_return "") then rev cur :: split_breaks [] cs'
      else split_breaks (c :: cur) cs'
  end.

Definition tool_detail (tool what : string) : string :=
  let shown :=
    if bool_decide (tool ∈ PATH_TOOLS) || (tool == "WebFetch") then Some (scrubbed what)
    else if bool_decide (tool ∈ SHELL_TOOLS) then command_detail what else None in
  match shown with
  | Some what => if what == "" then tool else tool ++ ": " ++ what
  | None => tool
  end.

Definition kept_line (line : string) : option string :=
  match split_str ": " line with
  | Some (tool, what) => if tool_name tool then Some (tool_detail tool what) else command_detail line
  | None => command_detail line
  end.


Definition cut_detail (kept : string) : string :=
  if (WAIT_DETAIL_CHARS <? chars_count kept)%nat
  then trim_end (chars_take (WAIT_DETAIL_CHARS - 1) kept) ++ ellipsis else kept.

Definition wait_detail (text : string) : option string :=
  match List.find (λ line, line != "") (clean_line <$> split_breaks [] (chars text)) with
  | None => None
  | Some line =>
      if secret_like line then None
      else match kept_line line with Some kept => Some (cut_detail kept) | None => None end
  end.

(** ** Observations *)

Definition with_detail (d : option string) (o : ActivityObservation) : ActivityObservation :=
  mkObservation (ob_activity o) (ob_observed_at o) (ob_reason o) d (ob_source o).

Definition said_again (o previous : ActivityObservation) : bool :=
  (ob_activity previous == Waiting) && (ob_reason previous == ob_reason o)
  && (ob_observed_at previous <=? ob_observed_at o)%Z
  && (ob_observed_at o - ob_observed_at previous <=? seconds WAIT_DETAIL_CARRY_SECS)%Z.

Definition settled_observation (o : ActivityObservation) (previous : option ActivityObservation) : ActivityObservation :=
  if ob_activity o != Waiting then with_detail None o
  else
    let kept := with_detail (match ob_detail o with Some d => wait_detail d | None => None end) o in
    match previous with
    | Some p => if is_none (ob_detail o) && said_again o p then with_detail (ob_detail p) o else kept
    | None => kept
    end.

Definition lasts (o : ActivityObservation) : duration :=
  match ob_activity o, ob_source o with Waiting, None => hours 12 | _, _ => minutes 5 end.

Definition observed_now (o : ActivityObservation) (now : instant) : option Activity :=
  let age := (now - ob_observed_at o)%Z in
  if (age <? 0)%Z || (lasts o <=? age)%Z then None
  else Some (match ob_activity o with
             | Working => AWorking (ob_observed_at o)
             | Idle => AIdle (ob_observed_at o)
             | Waiting => AWaiting (ob_observed_at o) (ob_reason o) None (ob_detail o)
             end).

Definition keeps_off (o next : ActivityObservation) (now : instant) : bool :=
  match ob_source o, ob_source next with
  | Some standing, Some coming => outranks standing coming && is_some (observed_now o now)
  | _, _ => false
  end.

(** ** Lemmas *)

Module WaitFacts.

(** *** The queue *)

Lemma ahead_of_cmp a b : ahead_of a b = true ↔ cmp (waiter_order a) (waiter_order b) = Lt.
Proof. unfold ahead_of. by destruct (cmp _ _). Qed.

Lemma ahead_of_iff a b :
  ahead_of a b = true ↔
  (wt_priority b < wt_priority a ∨ wt_priority a = wt_priority b ∧ wt_ticket a < wt_ticket b)%Z.
Proof.
  rewrite ahead_of_cmp. unfold waiter_order. cbn. unfold prod_cmp. simpl.
  destruct (Z.compare_spec (wt_priority b) (wt_priority a)), (Z.compare_spec (wt_ticket a) (wt_ticket b));
    split; intros; try done; lia.
Qed.

Lemma ahead_of_trans a b c : ahead_of a b = true → ahead_of b c = true → ahead_of a c = true.
Proof. rewrite !ahead_of_iff. lia. Qed.

Lemma ahead_of_irrefl a : ahead_of a a = false.
Proof. apply not_true_is_false. rewrite ahead_of_iff. lia. Qed.

Definition queue_wf (q : WaitQueue) : Prop :=
  StronglySorted (λ a b, ahead_of a b = true) (q_waiters q)
  ∧ NoDup (wt_ticket <$> q_waiters q)
  ∧ (∀ w, w ∈ q_waiters q → (0 ≤ wt_ticket w < q_next_ticket q)%Z)
  ∧ (∀ t, is_Some (q_broken q !! t) → (0 ≤ t < q_next_ticket q)%Z ∧ t ∉ (wt_ticket <$> q_waiters q))
  ∧ (0 ≤ q_next_ticket q < 2 ^ 64)%Z.

Lemma insert_waiter_perm w ws : insert_waiter w ws ≡ₚ w :: ws.
Proof.
  induction ws as [|x ws IH]; simpl; [done|]. destruct (ahead_of x w); [|done]. rewrite IH. apply perm_swap.
Qed.

Lemma insert_waiter_sorted w ws :
  (∀ x, x ∈ ws → wt_ticket x ≠ wt_ticket w) → StronglySorted (λ a b, ahead_of a b = true) ws →
  StronglySorted (λ a b, ahead_of a b = true) (insert_waiter w ws).
Proof.
  intros Hne Hs. induction Hs as [|x ws Hs IH Hx]; simpl; [by repeat constructor|].
  destruct (ahead_of x w) eqn:E.
  - constructor; [apply IH; set_solver|]. rewrite insert_waiter_perm. by constructor.
  - constructor; [by constructor|]. assert (ahead_of w x = true) as Hwx.
    { apply not_true_iff_false in E. rewrite ahead_of_iff in *. assert (wt_ticket x ≠ wt_ticket w) by (apply Hne; left). lia. }
    constructor; [done|]. eapply Forall_impl; [exact Hx|]. intros y Hy. by eapply ahead_of_trans.
Qed.

Lemma take_out_Some t ws w rest :
  take_out t ws = Some (w, rest) → wt_ticket w = t ∧ ∃ l r, ws = app l (w :: r) ∧ rest = app l r.
Proof.
  revert rest. induction ws as [|x ws IH]; intros rest; simpl; [done|]. destruct (Z.eqb_spec (wt_ticket x) t).
  - intros [= <- <-]. split; [done|]. by exists [], ws.
  - destruct (take_out t ws) as [[y ys]|]; [|done]. intros [= <- <-].
    destruct (IH _ eq_refl) as (? & l & r & -> & ->). split; [done|]. by exists (x :: l), r.
Qed.

Lemma StronglySorted_remove {A} (R : relation A) l x r : StronglySorted R (app l (x :: r)) → StronglySorted R (app l r).
Proof.
  induction l as [|y l IH]; simpl; intros Hs; inversion Hs as [|? ? Hs' Hf]; subst; [done|].
  constructor; [by apply IH|]. rewrite !Forall_app, ?Forall_cons in *. naive_solver.
Qed.

Lemma take_out_wf q t w rest broken :
  queue_wf q → take_out t (q_waiters q) = Some (w, rest) →
  (∀ t', is_Some (broken !! t') → t' = t ∨ is_Some (q_broken q !! t')) →
  queue_wf (mkQueue rest broken (q_next_ticket q)).
Proof.
  intros (Hs & Hnd & Ht & Hb & Hn) (<- & l & r & Eq & ->)%take_out_Some Hbr. rewrite Eq in *.
  rewrite fmap_app, fmap_cons in Hnd. split_and!; simpl; [by eapply StronglySorted_remove| | | |lia..].
  - rewrite fmap_app. apply NoDup_app in Hnd as (H1 & H2 & H3). apply NoDup_cons in H3 as [H3 H4].
    apply NoDup_app. split_and!; [done| |done]. intros x Hx. specialize (H2 x Hx). set_solver.
  - intros x Hx. apply Ht. set_solver.
  - intros t' [->|Hold]%Hbr.
    + split; [apply (Ht w); set_solver|]. rewrite fmap_app. apply NoDup_app in Hnd as (_ & H2 & H3).
      apply NoDup_cons in H3 as [H3 _]. rewrite elem_of_app. intros [Hin|Hin]; [|done].
      apply (H2 _ Hin). left.
    + destruct (Hb _ Hold) as [H1 H2]. split; [done|]. rewrite fmap_app in *. set_solver.
Qed.

(** One thing that happens to the queue. *)
Inductive queue_step : WaitQueue → WaitQueue → Prop :=
| step_join q agent resource mode priority now :
    (q_next_ticket q + 1 < 2 ^ 64)%Z → queue_step q (queue_join q agent resource mode priority now).1
| step_leave q ticket : queue_step q (queue_leave q ticket).1
| step_break q ticket cycle : queue_step q (break_ring q ticket cycle).1.

Lemma queue_new_wf : queue_wf queue_new.
Proof. split_and!; simpl; try done; [constructor|constructor|set_solver| ]. intros t [? Ht]. done. Qed.

Lemma queue_join_wf q agent resource mode priority now :
  queue_wf q → (q_next_ticket q + 1 < 2 ^ 64)%Z → queue_wf (queue_join q agent resource mode priority now).1.
Proof.
  intros (Hs & Hnd & Ht & Hb & Hn) Hlt. unfold queue_join. simpl. set (w := mkWaiter _ _ _ _ _ _).
  assert (u64_add (q_next_ticket q) 1 = q_next_ticket q + 1)%Z as Hadd by (apply u64_wrap_small; lia).
  assert (∀ x, x ∈ q_waiters q → wt_ticket x ≠ wt_ticket w) as Hne.
  { intros x Hx. specialize (Ht x Hx). simpl. lia. }
  split_and!; cbn [q_waiters q_broken q_next_ticket]; rewrite ?Hadd; [by apply insert_waiter_sorted| | | |lia..].
  - rewrite insert_waiter_perm. csimpl. apply NoDup_cons. split; [|done].
    intros (x & Hx & Hin)%list_elem_of_fmap. by apply (Hne x Hin).
  - intros x Hx. rewrite insert_waiter_perm in Hx. apply elem_of_cons in Hx as [->|Hx]; simpl; [lia|].
    specialize (Ht x Hx). lia.
  - intros t [H1 H2]%Hb. split; [lia|]. rewrite insert_waiter_perm. csimpl. rewrite elem_of_cons. intros [->|?]; [lia|done].
Qed.

Lemma queue_step_wf q q' : queue_step q q' → queue_wf q → queue_wf q'.
Proof.
  destruct 1 as [q agent resource mode priority now Hlt|q t|q t cycle]; intros Hwf.
  - by apply queue_join_wf.
  - unfold queue_leave. destruct (take_out t (q_waiters q)) as [[w rest]|] eqn:E; simpl.
    + eapply take_out_wf; [done|done|]. intros t' [? Ht]. rewrite lookup_delete_Some in Ht. naive_solver.
    + destruct Hwf as (Hs & Hnd & Ht & Hb & Hn). split_and!; simpl; try done; try lia.
      intros t' [? Hl]. rewrite lookup_delete_Some in Hl. apply Hb. naive_solver.
  - unfold break_ring. destruct (take_out t (q_waiters q)) as [[w rest]|] eqn:E; simpl; [|done].
    eapply take_out_wf; [done|done|]. intros t' [? Ht]. rewrite lookup_insert_Some in Ht. naive_solver.
Qed.

Lemma find_ticket q w :
  queue_wf q → w ∈ q_waiters q → List.find (λ x, (wt_ticket x =? wt_ticket w)%Z) (q_waiters q) = Some w.
Proof.
  intros (_ & Hnd & _) Hin. destruct (List.find _ _) as [x|] eqn:E.
  - apply List.find_some in E as [Hx Ex%Z.eqb_eq]. apply list_elem_of_In in Hx. f_equal.
    by eapply (NoDup_fmap_inj_elem wt_ticket).
  - exfalso. eapply List.find_none in E; [|by apply list_elem_of_In]. simpl in E. by rewrite Z.eqb_refl in E.
Qed.

(** A waiter is next exactly when nobody ahead stands in its way. *)
Lemma is_next_iff q w :
  queue_wf q → w ∈ q_waiters q →
  is_next q (wt_ticket w) = true ↔ ∀ x, x ∈ q_waiters q → ahead_of x w = true → waiter_blocks x w = false.
Proof.
  intros Hwf Hin. unfold is_next, queue_position. rewrite find_ticket, eqb_true by done. split.
  - intros [= Hlen] x Hx Ha. apply nil_length_inv in Hlen. apply not_true_is_false. intros Hb.
    assert (x ∈ List.filter (λ other, ahead_of other w && waiter_blocks other w) (q_waiters q)) as Hf.
    { apply list_elem_of_In, filter_In. split; [by apply list_elem_of_In|]. by rewrite Ha, Hb. }
    rewrite Hlen in Hf. by apply not_elem_of_nil in Hf.
  - intros Hall. f_equal. apply length_zero_iff_nil. destruct (List.filter _ _) as [|x l] eqn:E; [done|].
    assert (x ∈ List.filter (λ other, ahead_of other w && waiter_blocks other w) (q_waiters q)) as Hf by (rewrite E; left).
    apply list_elem_of_In, filter_In in Hf as [Hx Hf]. apply list_elem_of_In in Hx. split_and_bool.
    by rewrite (Hall x) in *.
Qed.

(** *** Rings *)

Section Rings.
Context (requester : string) (holders : list (Resource.ResourceKey * string)).
Context (waiting : gmap string Resource.ResourceKey).

(** [h] holds something that [a], which wants [r], waits for. *)
Definition held_up (a : string) (r : Resource.ResourceKey) (h : string) : Prop :=
  ∃ held, (held, h) ∈ holders ∧ Resource.overlaps held r = true ∧ h ≠ a.

(** A way of waits back to the requester. *)
Inductive ring_path : string → Resource.ResourceKey → list Blocked → Prop :=
| ring_last a r : held_up a r requester → ring_path a r [mkBlocked a r requester]
| ring_step a r h r' p :
    held_up a r h → h ≠ requester → waiting !! h = Some r' → ring_path h r' p →
    ring_path a r (mkBlocked a r h :: p).

Definition closed_new (seen s : gset string) : Prop :=
  ∀ x r h, x ∈ s → x ∉ seen → waiting !! x = Some r → held_up x r h → h ∈ s ∧ h ≠ requester.

(** What a search from [from] over the holders [hs] ends with. *)
Definition searched (from : string) (want : Resource.ResourceKey) (hs : list (Resource.ResourceKey * string))
    (path : list Blocked) (seen : gset string) (res : Walked) : Prop :=
  match res with
  | None => False
  | Some (true, p, _) =>
      ∃ steps, p = app path steps ∧ ring_path from want steps
               ∧ head (bl_agent <$> steps) = Some from
               ∧ NoDup (drop 1 (bl_agent <$> steps)) ∧ Forall (λ a, a ∉ seen) (drop 1 (bl_agent <$> steps))
  | Some (false, p, s) =>
      p = path ∧ seen ⊆ s ∧ closed_new seen s
      ∧ ∀ held h, (held, h) ∈ hs → Resource.overlaps held want = true → h ≠ from → h ∈ s ∧ h ≠ requester
  end.

Definition holder_set : gset string := list_to_set holders.*2.

Lemma removelast_snoc {A} (l : list A) x : removelast (app l [x]) = l.
Proof. rewrite removelast_app by done. simpl. apply app_nil_r. Qed.

Lemma searched_mono from want held h hs path seen seen1 res :
  seen ⊆ seen1 → closed_new seen seen1 →
  (Resource.overlaps held want = true → h ≠ from → h ∈ seen1 ∧ h ≠ requester) →
  searched from want hs path seen1 res → searched from want ((held, h) :: hs) path seen res.
Proof.
  intros Hsub Hcl Hh. destruct res as [[[[] p] s]|]; simpl; [|intros (-> & H1 & H2 & H3)|done].
  - intros (steps & ? & ? & ? & ? & Hf). exists steps. split_and!; try done.
    eapply Forall_impl; [exact Hf|]. set_solver.
  - split_and!; [done|set_solver| |].
    + intros x r y Hx Hn Hw He. destruct (decide (x ∈ seen1)) as [Hx1|Hx1]; [|by eapply H2].
      destruct (Hcl x r y) as [? ?]; [done..|]. split; [by apply H1|done].
    + intros held' h' [[= -> ->]|Hin]%elem_of_cons Ho Hne; [|by eapply H3].
      destruct (Hh Ho Hne). split; [by apply H1|done].
Qed.

Lemma each_holder_searched n deeper from want hs path seen :
  (∀ h r path seen, requester ∈ seen → h ∈ seen → (size (holder_set ∖ seen) < n)%nat →
     searched h r holders path seen (deeper h r path seen)) →
  hs ⊆ holders → requester ∈ seen → from ∈ seen → (size (holder_set ∖ seen) < S n)%nat →
  searched from want hs path seen (each_holder requester waiting deeper from want hs path seen).
Proof.
  intros Hdeep. revert seen. induction hs as [|[held h] hs IH]; intros seen Hsub Hreq Hfrom Hsize; simpl.
  { split_and!; [done|done|by intros ? ? ? ? []|]. by intros ? ? ?%not_elem_of_nil. }
  assert (hs ⊆ holders) as Hsub' by set_solver.
  destruct (Resource.overlaps held want) eqn:Eo; simpl; [|eapply searched_mono; [done|by intros ? ? ? ? []|naive_solver congruence|by apply IH]].
  destruct (h == from) eqn:Ef; split_and_bool; [eapply searched_mono; [done|by intros ? ? ? ? []|naive_solver congruence|by apply IH]|].
  assert (held_up from want h) as Hup by (exists held; split_and!; [set_solver|done|done]).
  destruct (h == requester) eqn:Er; split_and_bool.
  { subst. eexists. split_and!; [done|by apply ring_last|done|constructor|constructor]. }
  case_bool_decide as Hseen; rewrite ?removelast_snoc; [eapply searched_mono; [done|by intros ? ? ? ? []|naive_solver congruence|by apply IH]|].
  assert (size (holder_set ∖ ({[h]} ∪ seen)) < n)%nat as Hless.
  { assert (h ∈ holder_set) by (unfold holder_set; apply elem_of_list_to_set, list_elem_of_fmap; exists (held, h); split; [done|set_solver]).
    assert (size (holder_set ∖ ({[h]} ∪ seen)) < size (holder_set ∖ seen))%nat; [|lia].
    apply subset_size. set_solver. }
  destruct (waiting !! h) as [next|] eqn:Ew.
  2: { eapply searched_mono; [| | |apply IH]; [set_solver| | |done|set_solver|set_solver|lia].
       - intros x r y Hx Hn Hw. assert (x = h) by set_solver. congruence.
       - intros _ _. split; [set_solver|done]. }
  specialize (Hdeep h next (app path [mkBlocked from want h]) ({[h]} ∪ seen) ltac:(set_solver) ltac:(set_solver) Hless).
  destruct (deeper h next _ _) as [[[[] p] s]|]; simpl in Hdeep; [| |done].
  - destruct Hdeep as (steps & -> & Hring & Hhd & Hnd & Hf). exists (mkBlocked from want h :: steps).
    destruct steps as [|b steps]; [done|]. csimpl in *. simplify_eq. rewrite drop_0 in *.
    split_and!; [by rewrite <-app_assoc|by eapply ring_step|done| |].
    + constructor; [|done]. rewrite Forall_forall in Hf. intros Hin. specialize (Hf _ Hin). set_solver.
    + constructor; [done|]. eapply Forall_impl; [exact Hf|]. set_solver.
  - destruct Hdeep as (-> & H1 & H2 & H3). rewrite removelast_snoc.
    eapply searched_mono; [| | |apply IH]; [set_solver| | |done|set_solver|set_solver|].
    + intros x r y Hx Hn Hw (held' & Hin & Ho & Hne). destruct (decide (x = h)) as [->|Hxh].
      * rewrite Ew in Hw. injection Hw as <-. by eapply H3.
      * eapply (H2 x r y); [done|set_solver|done|]. by exists held'.
    + intros _ _. split; [set_solver|done].
    + assert (size (holder_set ∖ s) ≤ size (holder_set ∖ seen))%nat; [|lia]. apply subseteq_size. set_solver.
Qed.

Lemma walk_from_searched turns from want path seen :
  requester ∈ seen → from ∈ seen → (size (holder_set ∖ seen) < turns)%nat →
  searched from want holders path seen (walk_from requester holders waiting turns from want path seen).
Proof.
  revert from want path seen. induction turns as [|turns IH]; intros from want path seen Hreq Hfrom Hsize; [lia|].
  simpl. by apply (each_holder_searched turns).
Qed.

Lemma holder_set_size : (size holder_set ≤ length holders)%nat.
Proof.
  unfold holder_set. rewrite <-(length_fmap snd holders). induction (holders.*2) as [|h l IH]; cbn [list_to_set length].
  - by rewrite size_empty.
  - rewrite size_union_alt, size_singleton.
    assert (size (list_to_set l ∖ {[h]} : gset string) ≤ size (list_to_set l : gset string))%nat; [|lia].
    apply subseteq_size. set_solver.
Qed.
End Rings.

(** The search answers with a ring exactly when there is one. *)
Lemma deadlock_search requester resource holders waits :
  match deadlock requester resource holders waits with
  | Some path => ring_path requester holders (waits_map waits) requester resource path ∧ NoDup (bl_agent <$> path)
  | None => ¬ ∃ path, ring_path requester holders (waits_map waits) requester resource path
  end.
Proof.
  unfold deadlock. pose proof (walk_from_searched requester holders (waits_map waits) (S (length holders)) requester
    resource [] {[requester]} ltac:(set_solver) ltac:(set_solver)) as Hs.
  specialize (Hs ltac:(pose proof (holder_set_size holders);
    assert (size (holder_set holders ∖ {[requester]}) ≤ size (holder_set holders))%nat
      by (apply subseteq_size; set_solver); lia)).
  destruct (walk_from _ _ _ _ _ _ _ _) as [[[[] path] s]|]; simpl in Hs; [| |done].
  - destruct Hs as (steps & -> & Hring & Hhd & Hnd & Hf). simpl. split; [done|].
    destruct steps as [|b steps]; [done|]. csimpl in *. rewrite drop_0 in *. simplify_eq.
    constructor; [|done]. rewrite Forall_forall in Hf. intros Hin. specialize (Hf _ Hin). set_solver.
  - destruct Hs as (_ & Hreq & Hcl & Hedge). intros [ring Hring].
    assert (∀ a r p, ring_path requester holders (waits_map waits) a r p →
              a ∈ s → (∀ h, held_up holders a r h → h ∈ s ∧ h ≠ requester) → False) as Hno.
    { clear ring Hring. intros a r p Hring. induction Hring as [a r Hup|a r h r' p Hup Hne Hw _ IH]; intros Ha Hall.
      - by destruct (Hall _ Hup).
      - destruct (Hall _ Hup) as [Hh _]. apply IH; [done|]. intros h' Hup'. eapply Hcl; [done| |done|done]. set_solver. }
    eapply Hno; [done|set_solver|]. intros h (held & Hin & Ho & Hne). by eapply Hedge.
Qed.

(** *** Victims *)

(** A queued wait of a later step of the ring. *)
Definition waits_at (cycle : list Blocked) (waiters : list Waiter) (i : nat) (w : Waiter) : Prop :=
  (0 < i)%nat ∧ ∃ b, cycle !! i = Some b ∧ w ∈ waiters ∧ wt_agent w = bl_agent b ∧ wt_resource w = bl_resource b.

Lemma elem_of_candidates_from waiters k cycle step p t :
  (step, p, t) ∈ candidates_from waiters k cycle ↔
  ∃ i b w, cycle !! i = Some b ∧ step = (k + i)%nat ∧ w ∈ waiters ∧ wt_agent w = bl_agent b
           ∧ wt_resource w = bl_resource b ∧ p = wt_priority w ∧ t = Some (wt_ticket w).
Proof.
  revert k. induction cycle as [|b cycle IH]; intros k; simpl.
  { split; [by intros ?%not_elem_of_nil|]. by intros (i & b & w & ? & _). }
  rewrite elem_of_app, IH. unfold step_candidates. rewrite list_elem_of_fmap. split.
  - intros [(w & [= -> -> ->] & Hin)|(i & b' & w & Hi & -> & H)].
    + apply list_elem_of_In, filter_In in Hin as [Hin Hm]. split_and_bool. apply list_elem_of_In in Hin.
      exists 0%nat, b, w. split_and!; try done.
    + exists (S i), b', w. split_and!; try naive_solver.
  - intros ([|i] & b' & w & Hi & -> & Hw & Ha & Hr & -> & ->); simplify_eq/=.
    + left. exists w. split; [by rewrite Nat.add_0_r|]. apply list_elem_of_In, filter_In.
      split; [by apply list_elem_of_In|]. by rewrite Ha, Hr, !eqb_refl.
    + right. exists i, b', w. split_and!; try done.
Qed.

Lemma elem_of_candidates waiters cycle step p t :
  (step, p, t) ∈ candidates_from waiters 1 (drop 1 cycle) ↔
  ∃ w, waits_at cycle waiters step w ∧ p = wt_priority w ∧ t = Some (wt_ticket w).
Proof.
  rewrite elem_of_candidates_from. unfold waits_at. setoid_rewrite lookup_drop. split.
  - intros (i & b & w & Hi & -> & Hw & Ha & Hr & -> & ->). exists w. split_and!; try done; [lia|]. by exists b.
  - intros (w & [Hp (b & Hi & Hw & Ha & Hr)] & -> & ->). exists (step - 1)%nat, b, w.
    split_and!; try done; [|lia]. by replace (1 + (step - 1))%nat with step by lia.
Qed.

Lemma victim_key_le a b :
  cmp_le (victim_key a) (victim_key b) ↔
  (b.1.2 < a.1.2 ∨ a.1.2 = b.1.2 ∧
     match a.2, b.2 with _, None => True | None, Some _ => False | Some x, Some y => x ≤ y end)%Z.
Proof.
  destruct a as [[? p] [x|]], b as [[? q] [y|]]; unfold cmp_le, victim_key; cbn; unfold prod_cmp; cbn; unfold prod_cmp; cbn;
    destruct (Z.compare_spec q p); try destruct (Z.compare_spec x y); split; intros; try done; try lia; naive_solver lia.
Qed.

(** There is a victim, and its ticket, if it has one, is a queued wait's. *)
Lemma victim_queued cycle priority waiters :
  ∃ v, victim cycle priority waiters = Some v
       ∧ ∀ t, vi_ticket v = Some t → ∃ w, w ∈ waiters ∧ wt_ticket w = t.
Proof.
  unfold victim. destruct (max_by_key _ _) as [[[step p] t]|] eqn:E.
  - eexists. split; [done|]. simpl. intros t' ->. apply max_by_key_Some in E as [Hin _].
    apply elem_of_app in Hin as [(w & (_ & b & _ & Hw & _) & _ & [= ->])%elem_of_candidates|Hin].
    + by exists w.
    + by apply list_elem_of_singleton in Hin.
  - apply max_by_key_None in E. by destruct (candidates_from _ _ _).
Qed.

(** *** Details *)

Lemma drop_ws_length l : (length (drop_ws l) ≤ length l)%nat.
Proof. induction l as [|c l IH]; simpl; [done|]. destruct (is_whitespace c); simpl; lia. Qed.

Lemma trim_end_count s : (chars_count (trim_end s) ≤ chars_count s)%nat.
Proof.
  unfold trim_end, chars_count. rewrite chars_concat.
  - rewrite length_rev. etrans; [apply drop_ws_length|]. by rewrite length_rev.
  - apply Forall_rev, drop_ws_shaped, Forall_rev, chars_shaped.
Qed.

Lemma cut_detail_fits kept : (chars_count (cut_detail kept) ≤ WAIT_DETAIL_CHARS)%nat.
Proof.
  unfold cut_detail. destruct (WAIT_DETAIL_CHARS <? chars_count kept)%nat eqn:E; [|by apply Nat.ltb_ge].
  rewrite chars_count_app by done. pose proof (trim_end_count (chars_take (WAIT_DETAIL_CHARS - 1) kept)) as Ht.
  rewrite chars_count_take in Ht. change (chars_count ellipsis) with 1%nat. unfold WAIT_DETAIL_CHARS in *. lia.
Qed.

Lemma existsb_false {A} (f : A → bool) l x : existsb f l = false → x ∈ l → f x = false.
Proof.
  intros Hf Hx. apply not_true_is_false. intros Hfx. apply not_true_iff_false in Hf. apply Hf, existsb_exists.
  exists x. split; [by apply list_elem_of_In|done].
Qed.

(** What a command may show: its program's name, and a subcommand of it. *)
Definition command_shows (command d : string) : Prop :=
  secret_like command = false
  ∧ (∀ w, w ∈ CREDENTIAL_WORDS → contains_str w (to_ascii_lowercase command) = false)
  ∧ ∃ program name, plain_word program = true ∧ userinfo program = false ∧ name ∈ split_char "/" program
    ∧ (d = name ∨ ∃ known subs sub, (known, subs) ∈ SUBCOMMANDS ∧ (name = known ∨ name = known ++ ".exe")
                  ∧ sub ∈ subs ∧ d = name ++ " " ++ sub).

Lemma strip_suffix_Some p s r : strip_suffix p s = Some r → s = r ++ p.
Proof.
  revert r. induction s as [|a s IH]; intros r; cbn [strip_suffix]; destruct (eqb _ p) eqn:E; split_and_bool.
  - intros [= <-]. by rewrite append_nil_l.
  - done.
  - intros [= <-]. by rewrite append_nil_l.
  - destruct (strip_suffix p s) as [t|]; [|done]. intros [= <-]. rewrite append_cons. f_equal. by apply IH.
Qed.

Lemma command_detail_shows command d : command_detail command = Some d → command_shows command d.
Proof.
  unfold command_detail. intros Hd. destruct (secret_like command || _) eqn:E0; [done|]. split_and_bool.
  destruct (List.find _ (trim <$> _)) as [line|]; [|done].
  destruct (drop_matching _ _) as [|program words]; [done|].
  destruct (starts_with program "-" || negb (plain_word program) || userinfo program) eqn:E1; [done|]. split_and_bool.
  destruct (program_name program) as [name|] eqn:En; [|done]. injection Hd as <-.
  unfold program_name in En. apply List.find_some in En as [Hn _]. rewrite <-in_rev, <-list_elem_of_In in Hn.
  split_and!; [done| |].
  - intros w Hw. by apply (existsb_false _ _ _ H0).
  - exists program, name. split_and!; [done..|]. unfold subcommand_of.
    destruct (List.find _ SUBCOMMANDS) as [[known subs]|] eqn:Es; [|by left]. destruct words as [|word words]; [by left|].
    destruct (List.find _ subs) as [sub|] eqn:Eb; [|by left]. right. exists known, subs, sub.
    apply List.find_some in Es as [Hin Hk]. apply List.find_some in Eb as [Hsub _]. simpl in Hk. split_and_bool.
    split_and!; [by apply list_elem_of_In| |by apply list_elem_of_In|done].
    destruct (strip_suffix ".exe" name) as [r|] eqn:Er; simpl in Hk; subst; [right; by apply strip_suffix_Some|by left].
Qed.

(** What a line may show. *)
Definition shown_of (line kept : string) : Prop :=
  command_shows line kept
  ∨ ∃ tool what, line = tool ++ ": " ++ what ∧ tool_name tool = true
    ∧ (kept = tool
       ∨ (tool ∈ PATH_TOOLS ∨ tool = "WebFetch") ∧ kept = tool ++ ": " ++ scrubbed what
       ∨ tool ∈ SHELL_TOOLS ∧ ∃ d, command_shows what d ∧ kept = tool ++ ": " ++ d).

Lemma split_str_Some p s l r : split_str p s = Some (l, r) → s = l ++ p ++ r.
Proof.
  revert l. induction s as [|a s IH]; intros l; cbn [split_str]; destruct (strip_prefix p _) as [rest|] eqn:E.
  - intros [= <- <-]. apply strip_prefix_Some in E. by rewrite append_nil_l.
  - done.
  - intros [= <- <-]. apply strip_prefix_Some in E. by rewrite append_nil_l.
  - destruct (split_str p s) as [[l' r']|]; [|done]. intros [= <- <-]. rewrite append_cons. f_equal. by apply IH.
Qed.

Lemma kept_line_shown line kept : kept_line line = Some kept → shown_of line kept.
Proof.
  unfold kept_line, shown_of. destruct (split_str ": " line) as [[tool what]|] eqn:E.
  2: { intros H. left. by apply command_detail_shows. }
  apply split_str_Some in E. destruct (tool_name tool) eqn:Et; [|intros H; left; by apply command_detail_shows].
  intros [= <-]. right. exists tool, what. split_and!; [done|done|]. unfold tool_detail.
  destruct (bool_decide (tool ∈ PATH_TOOLS) || (tool == "WebFetch")) eqn:Ep.
  - destruct (scrubbed what == ""); [by left|]. right. left. split; [|done].
    apply orb_true_iff in Ep as [H|H]; split_and_bool; [by left|by right].
  - destruct (bool_decide (tool ∈ SHELL_TOOLS)) eqn:Hs; [|by left]. split_and_bool. destruct (command_detail what) as [d|] eqn:Ec; [|by left].
    destruct (d == ""); [by left|]. right. right. split; [done|]. exists d. split; [by apply command_detail_shows|done].
Qed.

Lemma settled_detail o previous d :
  ob_detail (settled_observation o previous) = Some d →
  (∃ raw, ob_detail o = Some raw ∧ wait_detail raw = Some d) ∨ ∃ p, previous = Some p ∧ ob_detail p = Some d.
Proof.
  unfold settled_observation. destruct (ob_activity o != Waiting); [done|].
  assert (∀ k, ob_detail (with_detail k o) = k) as Hk by done.
  destruct previous as [p|]; [destruct (is_none (ob_detail o) && said_again o p)|]; rewrite Hk; [eauto|..];
    destruct (ob_detail o); [eauto|done|eauto|done].
Qed.
End WaitFacts.

(** ** Properties *)

Module WaitProps.
Import WaitFacts.

(** C8: The queue is served in one order. In every history of joining, leaving and
    breaking rings it is sorted by priority and then arrival, no ticket is in
    it twice and a broken wait is not in it; its first waiter is next; waiters
    that are next together do not stand in each other's way; and whoever joins
    pushes back nobody of the same or a higher priority. *)
Theorem queue_is_served_in_order q (Hq : rtc queue_step queue_new q) :
  queue_wf q
  ∧ (∀ w, head (q_waiters q) = Some w → is_next q (wt_ticket w) = true)
  ∧ (∀ a b, a ∈ q_waiters q → b ∈ q_waiters q → a ≠ b →
       is_next q (wt_ticket a) = true → is_next q (wt_ticket b) = true → waiter_blocks a b = false)
  ∧ (∀ w agent resource mode priority now,
       w ∈ q_waiters q → (priority ≤ wt_priority w)%Z → (q_next_ticket q + 1 < 2 ^ 64)%Z →
       queue_position (queue_join q agent resource mode priority now).1 (wt_ticket w) =
       queue_position q (wt_ticket w)).
Proof.
  assert (queue_wf q) as Hwf by (eapply rtc_invariant; [apply queue_step_wf|apply queue_new_wf|done]).
  split_and!; [done| | |].
  - intros w Hw. pose proof Hwf as (Hs & _). destruct (q_waiters q) as [|x ws] eqn:E; simplify_eq/=.
    apply is_next_iff; [done|rewrite E; left|]. rewrite E. intros y Hy Ha. exfalso.
    apply elem_of_cons in Hy as [->|Hy]; [by rewrite ahead_of_irrefl in Ha|]. inversion Hs as [|? ? _ Hf]; subst.
    rewrite Forall_forall in Hf. specialize (Hf y Hy). simpl in Hf. rewrite ahead_of_iff in *. lia.
  - intros a b Ha Hb Hne Hna Hnb. rewrite is_next_iff in Hna, Hnb by done.
    destruct (ahead_of a b) eqn:Eab; [by apply Hnb|]. assert (ahead_of b a = true) as Eba.
    { apply not_true_iff_false in Eab. rewrite ahead_of_iff in *. pose proof Hwf as (_ & Hnd & _).
      assert (wt_ticket a ≠ wt_ticket b) by (intros ?; apply Hne; by eapply (NoDup_fmap_inj_elem wt_ticket)). lia. }
    specialize (Hna b Hb Eba). unfold waiter_blocks in *. by rewrite ResourceFacts.overlaps_sym, orb_comm.
  - intros w agent resource mode priority now Hw Hp Hlt.
    pose proof (queue_join_wf q agent resource mode priority now Hwf Hlt) as Hwf'.
    unfold queue_position. rewrite !find_ticket; [|done|done|done|simpl; rewrite insert_waiter_perm; by right].
    f_equal. simpl. set (n := mkWaiter _ _ _ _ _ _). set (f := λ other, ahead_of other w && waiter_blocks other w).
    assert (f n = false) as Hn.
    { unfold f. assert (ahead_of n w = false) as ->; [|done]. apply not_true_is_false. rewrite ahead_of_iff. simpl.
      pose proof Hwf as (_ & _ & Ht & _). specialize (Ht w Hw). lia. }
    clearbody n. clear -Hn. induction (q_waiters q) as [|x ws IH]; simpl; [by rewrite Hn|].
    destruct (ahead_of x n); simpl; [|by rewrite Hn]. by destruct (f x); simpl; rewrite IH.
Qed.

Definition w_queue : WaitQueue :=
  (queue_join (queue_join queue_new "a" (Resource.RK "file:/x") Exclusive 0 0).1 "b" (Resource.RK "file:/x") Shared 3 1).1.

Lemma queue_is_served_in_order_witness : queue_wf w_queue.
Proof.
  refine (proj1 (queue_is_served_in_order w_queue _)).
  eapply rtc_l; [by apply step_join|]. eapply rtc_l; [by apply step_join|]. apply rtc_refl.
Defined.

(** C14: The search for a ring of waits is exact and always ends: it answers with a
    ring exactly when waiting would close one, and the answer is such a ring,
    from the requester back to it, in which no agent stands twice. *)
Theorem deadlock_exact requester resource holders waits :
  match deadlock requester resource holders waits with
  | Some path => ring_path requester holders (waits_map waits) requester resource path ∧ NoDup (bl_agent <$> path)
  | None => ¬ ∃ path, ring_path requester holders (waits_map waits) requester resource path
  end.
Proof. apply deadlock_search. Qed.

(** A ring is broken at its least wait: the lowest priority, among equals the
    latest to arrive, the claim that found the ring counting as the latest of
    all. There always is one. *)
Theorem victim_is_the_least cycle priority waiters :
  ∃ v, victim cycle priority waiters = Some v ∧
  match vi_ticket v with
  | None => vi_step v = 0%nat ∧ ∀ i w, waits_at cycle waiters i w → (priority ≤ wt_priority w)%Z
  | Some t =>
      ∃ w, waits_at cycle waiters (vi_step v) w ∧ wt_ticket w = t ∧ (wt_priority w < priority)%Z
           ∧ ∀ i w', waits_at cycle waiters i w' →
               (wt_priority w < wt_priority w' ∨ wt_priority w' = wt_priority w ∧ wt_ticket w' ≤ t)%Z
  end.
Proof.
  unfold victim. destruct (max_by_key _ _) as [[[step p] ticket]|] eqn:E.
  2: { apply max_by_key_None, app_eq_nil in E as [_ ?]. done. }
  apply max_by_key_Some in E as [Hin Hmax]. eexists. split; [done|]. simpl.
  assert (∀ i w, waits_at cycle waiters i w → cmp_le (victim_key (i, wt_priority w, Some (wt_ticket w))) (victim_key (step, p, ticket))) as Hw.
  { intros i w Hiw. apply Hmax, elem_of_app. left. apply elem_of_candidates. by exists w. }
  specialize (Hmax (0%nat, priority, None) ltac:(apply elem_of_app; right; by apply list_elem_of_singleton)).
  apply elem_of_app in Hin as [(w & Hiw & -> & ->)%elem_of_candidates|[= -> -> ->]%list_elem_of_singleton].
  - exists w. rewrite victim_key_le in Hmax. simpl in Hmax. split_and!; [done|done|naive_solver lia|].
    intros i w' Hi. specialize (Hw i w' Hi). rewrite victim_key_le in Hw. simpl in Hw. lia.
  - split; [done|]. intros i w Hi. specialize (Hw i w Hi). rewrite victim_key_le in Hw. simpl in Hw. lia.
Qed.

(** A line that is shown for a wait is short and shows no argument of a
    command. It is at most a hundred and twenty characters long; the line it
    was made from does not read like a secret; and it is a tool's name, the
    scrubbed path or address of a tool known to take one, or, of a command,
    its program's name with at most one of the subcommands written out for that
    program. *)
Theorem wait_detail_shows_little text d (Hd : wait_detail text = Some d) :
  (chars_count d ≤ WAIT_DETAIL_CHARS)%nat
  ∧ ∃ line kept, line ∈ clean_line <$> split_breaks [] (chars text) ∧ secret_like line = false
    ∧ d = cut_detail kept ∧ shown_of line kept.
Proof.
  unfold wait_detail in Hd. destruct (List.find _ _) as [line|] eqn:Ef; [|done].
  apply List.find_some in Ef as [Hin _]. apply list_elem_of_In in Hin.
  destruct (secret_like line) eqn:Es; [done|]. destruct (kept_line line) as [kept|] eqn:Ek; [|done].
  injection Hd as <-. split; [apply cut_detail_fits|]. exists line, kept. split_and!; try done.
  by apply kept_line_shown.
Qed.

Lemma wait_detail_shows_little_witness : (chars_count "Bash: cargo test" ≤ WAIT_DETAIL_CHARS)%nat.
Proof.
  refine (proj1 (wait_detail_shows_little "Bash: MODE=1 cargo test --pw hunter2" "Bash: cargo test" _)).
  vm_compute. reflexivity.
Defined.

(** Whatever is reported, a detail that is kept on a record came through that
    gate: over any run of reports, each settled after the one before it, the
    detail that stands is what the gate made of one of them. *)
Theorem kept_details_came_through reports o :
  foldl (λ previous r, Some (settled_observation r previous)) None reports = Some o →
  ∀ d, ob_detail o = Some d → ∃ r raw, r ∈ reports ∧ ob_detail r = Some raw ∧ wait_detail raw = Some d.
Proof.
  revert o. induction reports as [|r reports IH] using rev_ind; intros o; [done|].
  rewrite foldl_app. simpl. intros [= <-] d Hd.
  destruct (settled_detail _ _ _ Hd) as [(raw & Hraw & Hw)|(prev & Hprev & Hpd)].
  - exists r, raw. split_and!; [apply elem_of_app; right; by apply list_elem_of_singleton|done|done].
  - destruct (IH prev Hprev d Hpd) as (r' & raw & Hin & ? & ?). exists r', raw. split_and!; [|done|done].
    apply elem_of_app. by left.
Qed.
End WaitProps.
