(* ===== verification/Attention.v ===== *)
(** * Judging screens and where an agent stands

    [crates/core/src/judgment.rs] (what of a screen is judged, how the four
    answers are read, when they promote an agent to waiting for the person,
    when a promotion comes off), [crates/core/src/standing.rs] (one standing per
    agent, the loudest that applies), and the bookkeeping of the judge in
    [crates/agentd/src/daemon/judge.rs]: the watched screens, the passes in a row
    a source was silent, the budget of calls, the announced failures. The wording
    of the questions and the network are left out; floats are binary64. *)

From Stdlib Require Import Ascii SpecFloat.
From stdpp Require Import pretty.
From S2P Require Import Prelude RustStr Order Path Input Agent Json Memory Wait.

Local Open Scope rust_scope.

(** ** Judgments *)

Definition DEFAULT_URL : string := "https://api.typesafe.ai/v1/systemone".
Definition DEFAULT_MODEL : string := "jev-1.13.0".
Definition SCREEN_LINES : nat := 30.
Definition LINE_CHARS : nat := 300.
Definition QUIET_SECS : Z := 20.
Definition DEFAULT_CALLS_PER_MINUTE : Z := 6.
Definition MAX_CALLS_PER_MINUTE : Z := 60.
Definition DEFAULT_THRESHOLD_PERCENT : Z := 75.
Definition RUNNING_VETO : f64 := f64_half.

Inductive Judgment := Screens.
Definition JUDGMENTS : list Judgment := [Screens].
Definition judgment_as_str (j : Judgment) : string := match j with Screens => "screens" end.
Definition judgment_parse (name : string) : option Judgment :=
  List.find (λ j, judgment_as_str j == name) JUDGMENTS.

(** ** The text of a screen *)

Definition escape_char_1b : string := String "027" "".
Definition bell : string := String "007" "".
Definition backspace : string := String "008" "".
Definition tab_str : string := String "009" "".
Definition return_str : string := String "013" "".
Definition csi_9b : string := String "194" (String "155" "").
Definition st_9c : string := String "194" (String "156" "").
Definition in_code (lo hi : N) (c : string) : bool := (lo <=? code_point c)%N && (code_point c <=? hi)%N.

(** Where the loops of [strip_ansi] stand: outside any sequence, after an
    escape, and inside each of the sequences it skips. *)
Inductive ScanMode := Ground | Escaped | Csi | Osc | Intermediates.

(** [line[column] = c], or one more character at the line's end. *)
Definition draw_char (line : list string) (column : nat) (c : string) : list string :=
  if (column <? length line)%nat then <[column := c]> line else app line [c].

(** What is pushed to [out] from here on; the line still held is flushed at
    the end. *)
Fixpoint strip_from (mode : ScanMode) (line : list string) (column : nat) (rest : list string) : list string :=
  match rest with
  | [] => line
  | c :: rest =>
      match mode with
      | Csi => strip_from (if in_code 64 126 c then Ground else Csi) line column rest
      | Osc =>
          if (c == bell) || (c == st_9c) then strip_from Ground line column rest
          else if c == escape_char_1b then
            match rest with
            | n :: rest' => if n == "\" then strip_from Ground line column rest' else strip_from Osc line column rest
            | [] => line
            end
          else strip_from Osc line column rest
      | Intermediates => strip_from (if in_code 32 47 c then Intermediates else Ground) line column rest
      | Escaped =>
          strip_from (if c == "[" then Csi
                      else if existsb (eqb c) ["]"; "P"; "X"; "^"; "_"] then Osc
                      else if in_code 32 47 c then Intermediates else Ground) line column rest
      | Ground =>
          if c == escape_char_1b then strip_from Escaped line column rest
          else if c == csi_9b then strip_from Csi line column rest
          else if c == newline_str then app line (newline_str :: strip_from Ground [] 0 rest)
          else if c == return_str then strip_from Ground line 0 rest
          else if c == backspace then strip_from Ground line (column - 1) rest
          else if is_control c && (c != tab_str) then strip_from Ground line column rest
          else strip_from Ground (draw_char line column (if c == tab_str then " " else c)) (column + 1) rest
      end
  end.
Definition strip_ansi (text : string) : string := String.concat "" (strip_from Ground [] 0 (chars text)).

Fixpoint drop_blank (lines : list string) : list string :=
  match lines with
  | line :: rest => if line == "" then drop_blank rest else lines
  | [] => []
  end.

Definition judged_lines (text : string) : list string :=
  (λ line, chars_take LINE_CHARS (trim_end line)) <$> split_char "010" (strip_ansi text).
Definition screen_tail (text : string) : list string :=
  let lines := rev (drop_blank (rev (judged_lines text))) in
  drop_blank (drop (length lines - SCREEN_LINES) lines).

(** ** The answers *)

Record ScreenAnswers := mkAnswers { sa_approval : f64; sa_question : f64; sa_running : f64; sa_draft : f64 }.

Definition valid_model (name : string) : bool :=
  (name != "") && (byte_len name <=? 64)%Z
  && sforall (λ a, is_ascii_alphanumeric a || one_of ["."; "-"; "_"]%char a) name.

(** [p.is_finite() && (0.0..=1.0).contains(&p)] *)
Definition probability (p : f64) : bool :=
  f64_is_finite p && (f64_leb (f64_of_Z 0) p && f64_leb p (f64_of_Z 1)).

Definition noul (body : Json) (name : string) : result f64 string :=
  let answer := json_index (json_index body "answers") name in
  if as_str (json_index answer "type") != Some "noul"
  then Err ("the answer has no yes/no answer for `" ++ name ++ "`")%string
  else match as_f64 (json_index answer "noul") with
       | Some p => if probability p then Ok p else Err ("the answer for `" ++ name ++ "` is not a probability")%string
       | None => Err ("the answer for `" ++ name ++ "` is not a probability")%string
       end.

Definition read_answers (body : Json) : result (string * ScreenAnswers) string :=
  match as_str (json_index body "model") with
  | Some model =>
      if negb (valid_model model) then Err "the answer names no model"
      else match noul body "approval" with
      | Err e => Err e
      | Ok approval =>
      match noul body "question" with
      | Err e => Err e
      | Ok question =>
      match noul body "running" with
      | Err e => Err e
      | Ok running =>
      match noul body "draft" with
      | Err e => Err e
      | Ok draft => Ok (model, mkAnswers approval question running draft)
      end end end end
  | None => Err "the answer names no model"
  end.

(** ** The rule *)

Record Thresholds := mkThresholds { th_promote : f64; th_running_veto : f64 }.
Definition thresholds_percent (promote : Z) : Thresholds :=
  mkThresholds (f64_div (f64_of_Z promote) (f64_of_Z 100)) RUNNING_VETO.
Definition thresholds_default : Thresholds := thresholds_percent DEFAULT_THRESHOLD_PERCENT.

Inductive Outcome :=
| Promote (reason : WaitReason) (p : f64)
| Nothing.

Definition likelier (best next : WaitReason * f64) : WaitReason * f64 :=
  if f64_ltb best.2 next.2 then next else best.

Definition decide_screen (answers : ScreenAnswers) (thresholds : Thresholds) : Outcome :=
  if negb (forallb probability [sa_approval answers; sa_question answers; sa_running answers; sa_draft answers;
                                th_promote thresholds; th_running_veto thresholds])
     || f64_leb (th_running_veto thresholds) (sa_running answers)
  then Nothing
  else
    let '(reason, likeliest) :=
      foldl likelier (WPermission, sa_approval answers)
        [(WQuestion, sa_question answers); (WDraft, sa_draft answers)] in
    if f64_leb (th_promote thresholds) likeliest then Promote reason likeliest else Nothing.

(** ** Promotions *)

Definition f64_mul (a b : f64) : f64 := SFmul 53 1024 a b.

(** [p.clamp(0.0, 1.0)] *)
Definition f64_clamp01 (p : f64) : f64 :=
  if f64_ltb p (f64_of_Z 0) then f64_of_Z 0 else if f64_ltb (f64_of_Z 1) p then f64_of_Z 1 else p.

(** [p.round()] of a finite number, to the nearest whole number, a half away
    from zero. *)
Definition f64_round (p : f64) : Z :=
  match p with
  | S754_finite s m e =>
      let magnitude := if (0 <=? e)%Z then (Z.pos m * 2 ^ e)%Z else ((2 * Z.pos m + 2 ^ (- e)) / 2 ^ (1 - e))%Z in
      if s then (- magnitude)%Z else magnitude
  | _ => 0%Z
  end.

(** [x as u16] saturates. *)
Definition as_u16 (n : Z) : Z := Z.max 0 (Z.min n 65535).

Definition permille (p : f64) : Z :=
  if f64_is_finite p then as_u16 (f64_round (f64_mul (f64_clamp01 p) (f64_of_Z 1000))) else 0.

Definition judgment_stands_for (j : ScreenJudgment) (record : AgentRecord) : bool :=
  is_live (r_status record)
  && (r_process_started_at record == sj_process_started_at j)
  && is_none_or (λ o, (ob_observed_at o <=? sj_judged_at j)%Z) (r_reported_activity record).

Inductive ClearReason := ScreenChanged | ProcessChanged | ScreenUnreadable | JudgeOff.
Definition clear_reason_str (r : ClearReason) : string :=
  match r with
  | ScreenChanged => "screen_changed" | ProcessChanged => "process_changed"
  | ScreenUnreadable => "screen_unreadable" | JudgeOff => "judge_off"
  end.

Inductive Unreadable := Lost | Outage.
Definition OUTAGE_PASSES : Z := 4.

Inductive Review :=
| Stands (outages : Z)
| Clear (reason : ClearReason).

Definition review (standing : ScreenJudgment) (process : option instant) (screen : result string Unreadable)
    (outages : Z) : Review :=
  if sj_process_started_at standing != process then Clear ProcessChanged
  else match screen with
  | Ok digest => if digest != sj_screen standing then Clear ScreenChanged else Stands 0
  | Err Lost => Clear ScreenUnreadable
  | Err Outage =>
      let outages := u32_saturating_add outages 1 in
      if (OUTAGE_PASSES <=? outages)%Z then Clear ScreenUnreadable else Stands outages
  end.

Definition raise (activity : Activity) (j : ScreenJudgment) : Activity :=
  match activity with
  | AWorking _ | AIdle _ | AUnknown =>
      AWaiting (sj_since j) (Some (sj_reason j)) (Some (mkJudged (Z.min (sj_permille j) 1000))) None
  | other => other
  end.

Inductive JudgeState := JOff | JOn | JUnusable | JUnknown.
Definition judge_state_word (s : JudgeState) : string :=
  match s with JOff => "off" | JOn => "on" | JUnusable => "unusable" | JUnknown => "unknown" end.

Inductive JudgeStatus :=
| StatusOff
| StatusOn (judgments : list string) (model : string) (calls_last_minute calls_per_minute : Z) (problem : option string)
| StatusUnusable (reason : string)
| StatusUnknown.

Definition judge_summary (s : JudgeStatus) : string :=
  match s with
  | StatusOff => "off"
  | StatusOn judgments model last per problem =>
      "on: " ++ join ", " judgments ++ " with " ++ model ++ ", " ++ pretty last ++ " of " ++ pretty per
      ++ " calls in the last minute"
      ++ match problem with Some problem => "; last call " ++ problem | None => "" end
  | StatusUnusable reason => "not running: " ++ reason
  | StatusUnknown => "in a state this build does not know"
  end.

(** ** Where an agent stands *)

Inductive Need := NQuestion | NPrompt | NDelivery.
Definition need_word (n : Need) : string :=
  match n with
  | NQuestion => "needs input" | NPrompt => "waiting for you" | NDelivery => "not receiving messages"
  end.

(** Loudest first: the derived order is the order of the constructors. *)
Inductive Standing :=
| SNeedsYou (need : Need)
| SFailed
| SWorking
| SParked
| SStarting
| SFinishedUnseen
| SRunning
| SIdle
| SEnded.

Record Signals := mkSignals {
  sg_live : bool;
  sg_failed : bool;
  sg_seen : bool;
  sg_question : bool;
  sg_delivery_held : bool;
  sg_finished_unseen : bool;
  sg_activity : option Activity;
}.

Definition is_waiting (a : option Activity) : bool :=
  match a with Some (AWaiting _ _ _ _) => true | _ => false end.

Definition standing_of (s : Signals) : Standing :=
  if sg_question s then SNeedsYou NQuestion
  else if sg_live s && is_waiting (sg_activity s) then SNeedsYou NPrompt
  else if sg_delivery_held s then SNeedsYou NDelivery
  else if sg_failed s then (if sg_seen s then SEnded else SFailed)
  else if negb (sg_live s) then (if sg_finished_unseen s then SFinishedUnseen else SEnded)
  else match sg_activity s with
  | Some (AWorking _) => SWorking
  | Some (ABlocked _ _ _) => SParked
  | Some AStarting => SStarting
  | activity =>
      if sg_finished_unseen s then SFinishedUnseen
      else match activity with Some (AIdle _) => SIdle | _ => SRunning end
  end.

Definition needs_you (s : Standing) : bool := match s with SNeedsYou _ => true | _ => false end.
Definition calls_for_attention (s : Standing) : bool :=
  match s with SNeedsYou _ | SFailed | SFinishedUnseen => true | _ => false end.

Definition standing_word (s : Standing) : string :=
  match s with
  | SNeedsYou need => need_word need
  | SFailed => "failed" | SWorking => "working" | SParked => "waiting on a lease" | SStarting => "starting"
  | SFinishedUnseen => "finished since you looked" | SRunning => "running" | SIdle => "idle" | SEnded => "ended"
  end.
Definition standing_label (s : Standing) : string :=
  match s with
  | SNeedsYou _ => "Needs you"
  | SFailed => "Failed" | SWorking => "Working" | SParked => "Waiting on a lease" | SStarting => "Starting"
  | SFinishedUnseen => "Finished" | SRunning => "Running" | SIdle => "Idle" | SEnded => "Ended"
  end.

(** The derived [Ord]: a number per value, in the order of the variants. *)
Definition standing_key (s : Standing) : Z :=
  match s with
  | SNeedsYou NQuestion => 0 | SNeedsYou NPrompt => 1 | SNeedsYou NDelivery => 2
  | SFailed => 3 | SWorking => 4 | SParked => 5 | SStarting => 6 | SFinishedUnseen => 7
  | SRunning => 8 | SIdle => 9 | SEnded => 10
  end%Z.

(** ** The judge's own state *)

Definition BACKOFF : duration := seconds 60.
Definition NOTICE_EVERY : duration := seconds 60.
Definition MINUTE : duration := seconds 60.
Definition ANCESTRY : nat := 64.

(** [for _ in 0..ANCESTRY] *)
Fixpoint descends_within (turns : nat) (parents : gmap Z Z) (current ancestor : Z) : bool :=
  match turns with
  | O => false
  | S turns =>
      if (current =? ancestor)%Z then true
      else match parents !! current with
           | Some parent =>
               if ((1 <? current) && negb (parent =? current))%Z then descends_within turns parents parent ancestor
               else false
           | None => false
           end
  end.
Definition descends (parents : gmap Z Z) (agent ancestor : Z) : bool :=
  descends_within ANCESTRY parents agent ancestor.

Record Watched := mkWatched {
  wa_process : option instant;
  wa_digest : string;
  wa_changed : instant;
  wa_changed_at : instant;
  wa_settled : bool;
}.
(** [Watched::fresh]; [mono] and [now] are [Instant::now()] and [Utc::now()]. *)
Definition watched_fresh (process : option instant) (digest : string) (mono now : instant) : Watched :=
  mkWatched process digest mono now false.

Inductive Setting :=
| SetOff
| SetOn (judgments : list string) (model : string) (calls_per_minute : Z)
| SetUnusable (reason : string).

(** The judge without the constants its tests change; of the setup in force,
    its generation. *)
Record Judge := mkJudge {
  jg_setting : Setting;
  jg_running : option Z;
  jg_fingerprint : option string;
  jg_generation : Z;
  jg_screens : gmap string Watched;
  jg_outages : gmap string Z;
  jg_calls : list instant;
  jg_backoff_until : option instant;
  jg_problem : option string;
  jg_unannounced : Z;
  jg_last_reason : string;
  jg_announced : option instant;
}.
Definition judge_default : Judge := mkJudge SetOff None None 0 ∅ ∅ [] None None 0 "" None.

Definition with_calls (j : Judge) (calls : list instant) : Judge :=
  mkJudge (jg_setting j) (jg_running j) (jg_fingerprint j) (jg_generation j) (jg_screens j) (jg_outages j) calls
    (jg_backoff_until j) (jg_problem j) (jg_unannounced j) (jg_last_reason j) (jg_announced j).
Definition with_watch (j : Judge) (screens : gmap string Watched) (outages : gmap string Z) : Judge :=
  mkJudge (jg_setting j) (jg_running j) (jg_fingerprint j) (jg_generation j) screens outages (jg_calls j)
    (jg_backoff_until j) (jg_problem j) (jg_unannounced j) (jg_last_reason j) (jg_announced j).
Definition with_failure (j : Judge) (until : option instant) (problem : option string) (unannounced : Z)
    (last_reason : string) (announced : option instant) : Judge :=
  mkJudge (jg_setting j) (jg_running j) (jg_fingerprint j) (jg_generation j) (jg_screens j) (jg_outages j)
    (jg_calls j) until problem unannounced last_reason announced.

(** [Instant::duration_since] saturates at zero. *)
Definition duration_since (now at_ : instant) : duration := Z.max 0 (now - at_).

Fixpoint prune_calls (calls : list instant) (now : instant) : list instant :=
  match calls with
  | [] => []
  | at_ :: rest => if (MINUTE <=? duration_since now at_)%Z then prune_calls rest now else calls
  end.
Definition prune (j : Judge) (now : instant) : Judge := with_calls j (prune_calls (jg_calls j) now).

Definition judge_stop (j : Judge) (setting : Setting) : Judge :=
  mkJudge setting None None (jg_generation j + 1)%Z ∅ ∅ [] None None (jg_unannounced j) (jg_last_reason j)
    (jg_announced j).

Definition judge_current (j : Judge) (generation : Z) : bool :=
  is_some_and (λ running, (running =? generation)%Z) (jg_running j).

Inductive Failure :=
| Unauthorized (code : Z)
| RateLimited
| Unavailable (code : Z)
| Refused (code : Z)
| Timeout_
| Unreachable
| Malformed.

Definition failure_word (f : Failure) : string :=
  match f with
  | Unauthorized _ => "unauthorized" | RateLimited => "rate_limited" | Unavailable _ => "unavailable"
  | Refused _ => "refused" | Timeout_ => "timeout" | Unreachable => "unreachable" | Malformed => "malformed"
  end.
Definition failure_sentence (f : Failure) : string :=
  match f with
  | Unauthorized code => "was not authorized (HTTP " ++ pretty code ++ "); check the key"
  | RateLimited => "was rate limited (HTTP 429)"
  | Unavailable code => "found the service unavailable (HTTP " ++ pretty code ++ ")"
  | Refused code => "was refused (HTTP " ++ pretty code ++ ")"
  | Timeout_ => "timed out"
  | Unreachable => "could not connect"
  | Malformed => "gave an answer the contract does not have"
  end.
Definition passes (f : Failure) : bool :=
  match f with Unauthorized _ | RateLimited | Unavailable _ | Timeout_ | Unreachable => true | Refused _ | Malformed => false end.

(** [EventKind::JudgeFailed] *)
Record JudgeFailed := mkJudgeFailed { jf_reason : string; jf_failures : Z }.

Definition judge_announce (j : Judge) (now : instant) : option JudgeFailed * Judge :=
  if (jg_unannounced j =? 0)%Z || is_some_and (λ at_, (duration_since now at_ <? NOTICE_EVERY)%Z) (jg_announced j)
  then (None, j)
  else (Some (mkJudgeFailed (jg_last_reason j) (jg_unannounced j)),
        with_failure j (jg_backoff_until j) (jg_problem j) 0 (jg_last_reason j) (Some now)).

Definition judge_fail (j : Judge) (failure : Failure) (now : instant) : option JudgeFailed * Judge :=
  judge_announce (with_failure j (if passes failure then Some (now + BACKOFF)%Z else jg_backoff_until j)
              (Some (failure_sentence failure)) (jg_unannounced j + 1)%Z (failure_word failure) (jg_announced j)) now.

(** *** Asking *)

(** The guard before a call, under the lock: the calls of the last minute are
    counted at [now]. *)
Definition may_ask (j : Judge) (generation calls_per_minute : Z) (now : instant) : bool * Judge :=
  let j := prune j now in
  (judge_current j generation
   && negb (is_some_and (λ until_, (now <? until_)%Z) (jg_backoff_until j))
   && negb (calls_per_minute <=? Z.of_nat (length (jg_calls j)))%Z, j).

(** The call is counted once the screen has been found unchanged, a little
    later. *)
Definition note_call (j : Judge) (generation : Z) (now : instant) : bool * Judge :=
  if judge_current j generation then (true, with_calls j (app (jg_calls j) [now])) else (false, j).

Definition settle (j : Judge) (agent screen : string) : Judge :=
  match jg_screens j !! agent with
  | Some w =>
      if wa_digest w == screen
      then with_watch j (<[agent := mkWatched (wa_process w) (wa_digest w) (wa_changed w) (wa_changed_at w) true]>
                           (jg_screens j)) (jg_outages j)
      else j
  | None => j
  end.

(** A screen read in a pass: whether it has been quiet long enough and was not
    asked about yet, and since when it has stood. *)
Definition watch_screen (j : Judge) (quiet : duration) (agent : string) (process : option instant)
    (screen : string) (mono now : instant) : (bool * instant) * Judge :=
  let fresh := watched_fresh process screen mono now in
  let watched := unwrap_or fresh (jg_screens j !! agent) in
  let watched := if (wa_digest watched != screen) || (wa_process watched != process) then fresh else watched in
  ((negb (wa_settled watched) && (quiet <=? duration_since mono (wa_changed watched))%Z, wa_changed_at watched),
   with_watch j (<[agent := watched]> (jg_screens j)) (jg_outages j)).

(** [review_judgment], up to the clearing it answers with. *)
Definition review_judgment (j : Judge) (agent : string) (standing : ScreenJudgment) (process : option instant)
    (screen : result string Unreadable) : Review * Judge :=
  let before := unwrap_or 0%Z (jg_outages j !! agent) in
  let outages := delete agent (jg_outages j) in
  let r := review standing process screen before in
  (r, match r with
      | Stands n => if (0 <? n)%Z then with_watch j (jg_screens j) (<[agent := n]> outages)
                    else with_watch j (jg_screens j) outages
      | Clear ScreenUnreadable => with_watch j (delete agent (jg_screens j)) outages
      | Clear _ => with_watch j (jg_screens j) outages
      end).

(** Whether a judgment comes off a record: it is still the one judged from
    [screen]. *)
Definition clear_judgment (judged : option ScreenJudgment) (screen : string) : option ScreenJudgment :=
  if is_none_or (λ j, sj_screen j != screen) judged then judged else None.

(** *** Steps of a judge that stays on *)

(** A call's answer was read: the last failure is over. *)
Definition judge_answered (j : Judge) : Judge :=
  with_failure j (jg_backoff_until j) None (jg_unannounced j) (jg_last_reason j) (jg_announced j).

Inductive JudgeStep :=
| StepAsk (checked sent : instant)
| StepAnswered
| StepFailed (failure : Failure) (now : instant)
| StepAnnounce (now : instant)
| StepSettle (agent screen : string)
| StepWatch (quiet : duration) (agent : string) (process : option instant) (screen : string) (mono now : instant)
| StepReview (agent : string) (standing : ScreenJudgment) (process : option instant) (screen : result string Unreadable).

(** The calls sent and the failures announced in a step. *)
Definition judge_step (generation per_minute : Z) (j : Judge) (s : JudgeStep)
    : (list instant * list JudgeFailed) * Judge :=
  match s with
  | StepAsk checked sent =>
      let '(go, j) := may_ask j generation per_minute checked in
      if go then let '(noted, j) := note_call j generation sent in ((if noted then [sent] else [], []), j)
      else (([], []), j)
  | StepAnswered => (([], []), judge_answered j)
  | StepFailed failure now => let '(e, j) := judge_fail j failure now in (([], option_list e), j)
  | StepAnnounce now => let '(e, j) := judge_announce j now in (([], option_list e), j)
  | StepSettle agent screen => (([], []), settle j agent screen)
  | StepWatch quiet agent process screen mono now => (([], []), (watch_screen j quiet agent process screen mono now).2)
  | StepReview agent standing process screen => (([], []), (review_judgment j agent standing process screen).2)
  end.

Fixpoint judge_run (generation per_minute : Z) (j : Judge) (steps : list JudgeStep)
    : (list instant * list JudgeFailed) * Judge :=
  match steps with
  | [] => (([], []), j)
  | s :: steps =>
      let '((calls, said), j) := judge_step generation per_minute j s in
      let '((calls', said'), j) := judge_run generation per_minute j steps in
      ((app calls calls', app said said'), j)
  end.

(** ** Facts *)

Module AttentionFacts.

(** *** Probabilities are ordered as numbers *)

Definition prob_key (p : f64) : Z * (Z * Z) :=
  match p with S754_finite _ m e => (1, (e, Z.pos m))%Z | _ => (0, (0, 0))%Z end.

Lemma probability_shape p :
  probability p = true → (∃ s, p = S754_zero s) ∨ (∃ m e, p = S754_finite false m e).
Proof. destruct p as [s|s| |[] m e]; intros H; try done; eauto. Qed.

Lemma prob_compare p q :
  probability p = true → probability q = true → SFcompare p q = Some (cmp (prob_key p) (prob_key q)).
Proof.
  intros [[s ->]|(m & e & ->)]%probability_shape [[s' ->]|(m' & e' & ->)]%probability_shape; done.
Qed.

Lemma prob_leb p q :
  probability p = true → probability q = true → f64_leb p q = true ↔ cmp_le (prob_key p) (prob_key q).
Proof.
  intros Hp Hq. unfold f64_leb, SFleb, cmp_le. rewrite prob_compare by done.
  by destruct (cmp (prob_key p) (prob_key q)).
Qed.

Lemma prob_ltb p q :
  probability p = true → probability q = true → f64_ltb p q = true ↔ cmp (prob_key p) (prob_key q) = Lt.
Proof.
  intros Hp Hq. unfold f64_ltb, SFltb. rewrite prob_compare by done.
  by destruct (cmp (prob_key p) (prob_key q)).
Qed.

Lemma prob_ltb_false p q :
  probability p = true → probability q = true → f64_ltb p q = false ↔ f64_leb q p = true.
Proof.
  intros Hp Hq. rewrite prob_leb, <-not_true_iff_false, prob_ltb by done. unfold cmp_le.
  rewrite (cmp_opp (prob_key p) (prob_key q)). by destruct (cmp (prob_key p) (prob_key q)).
Qed.

Lemma prob_leb_refl p : probability p = true → f64_leb p p = true.
Proof. intros Hp. apply prob_leb; [done..|apply cmp_le_refl]. Qed.

Lemma prob_ltb_leb p q : probability p = true → probability q = true → f64_ltb p q = true → f64_leb p q = true.
Proof. intros Hp Hq. rewrite prob_ltb, prob_leb by done. unfold cmp_le. by intros ->. Qed.

Lemma prob_leb_trans p q r :
  probability p = true → probability q = true → probability r = true →
  f64_leb p q = true → f64_leb q r = true → f64_leb p r = true.
Proof. intros Hp Hq Hr. rewrite !prob_leb by done. apply cmp_le_trans. Qed.

Lemma prob_le_lt_trans p q r :
  probability p = true → probability q = true → probability r = true →
  f64_leb p q = true → f64_ltb q r = true → f64_ltb p r = true.
Proof.
  intros Hp Hq Hr Hpq Hqr. destruct (f64_ltb p r) eqn:E; [done|]. exfalso.
  apply prob_ltb_false in E; [|done..]. pose proof (prob_leb_trans r p q Hr Hp Hq E Hpq) as Hrq.
  apply prob_ltb_false in Hrq; [|done..]. congruence.
Qed.

(** *** The rule *)

Definition asked (a : ScreenAnswers) : list (WaitReason * f64) :=
  [(WPermission, sa_approval a); (WQuestion, sa_question a); (WDraft, sa_draft a)].

(** The likeliest of what was asked; of two as likely, the earlier. *)
Definition likeliest_at (l : list (WaitReason * f64)) (reason : WaitReason) (p : f64) : Prop :=
  ∃ i, l !! i = Some (reason, p)
       ∧ ∀ j r q, l !! j = Some (r, q) → f64_leb q p = true ∧ ((j < i)%nat → f64_ltb q p = true).

Lemma likeliest_snoc l b next :
  Forall (λ rp, probability rp.2 = true) (app l [next]) →
  likeliest_at l b.1 b.2 → probability b.2 = true →
  likeliest_at (app l [next]) (likelier b next).1 (likelier b next).2.
Proof.
  intros [Hl Hn%Forall_inv]%Forall_app (i & Hi & Hall) Hb. unfold likelier, likeliest_at.
  destruct (f64_ltb b.2 next.2) eqn:E.
  - exists (length l). rewrite lookup_app_r, Nat.sub_diag by lia. split; [by destruct next|].
    intros j r q [Hj|[Hlen Hj]]%lookup_app_Some.
    + assert (Hq : probability q = true) by exact (Forall_lookup_1 _ _ _ _ Hl Hj).
      apply Hall in Hj as [Hj _]. pose proof (prob_le_lt_trans q b.2 next.2 Hq Hb Hn Hj E).
      split; [by apply prob_ltb_leb|done].
    + apply list_lookup_singleton_Some in Hj as [_ ->]. simpl in *. split; [by apply prob_leb_refl|lia].
  - apply prob_ltb_false in E; [|done..]. exists i. split; [by apply lookup_app_l_Some|].
    intros j r q [Hj|[Hlen Hj]]%lookup_app_Some; [by apply (Hall j r q)|].
    apply list_lookup_singleton_Some in Hj as [_ ->]. simpl in *. split; [done|].
    intros Hlt. apply lookup_lt_Some in Hi. lia.
Qed.

Lemma likelier_prob b next :
  probability b.2 = true → probability next.2 = true → probability (likelier b next).2 = true.
Proof. unfold likelier. by destruct (f64_ltb _ _). Qed.

Lemma likeliest_fold l rest b :
  Forall (λ rp, probability rp.2 = true) (app l rest) →
  likeliest_at l b.1 b.2 → probability b.2 = true →
  likeliest_at (app l rest) (foldl likelier b rest).1 (foldl likelier b rest).2.
Proof.
  revert l b. induction rest as [|next rest IH]; intros l b Hall Hb Hp; simpl.
  { by rewrite app_nil_r. }
  rewrite (cons_middle next l rest), app_assoc in Hall |- *. assert (Hall' := Hall).
  apply Forall_app in Hall' as [Hln _]. apply IH; [done|by apply likeliest_snoc|].
  apply likelier_prob; [done|]. apply Forall_app in Hln as [_ Hn%Forall_inv]. done.
Qed.

Lemma likeliest_unique l r p r' p' : likeliest_at l r p → likeliest_at l r' p' →
  Forall (λ rp, probability rp.2 = true) l → (r, p) = (r', p').
Proof.
  intros (i & Hi & Hall) (j & Hj & Hall') Hl.
  assert (Hp : probability p = true) by exact (Forall_lookup_1 _ _ _ _ Hl Hi).
  assert (Hp' : probability p' = true) by exact (Forall_lookup_1 _ _ _ _ Hl Hj).
  destruct (lt_eq_lt_dec i j) as [[Hlt| ->]|Hlt]; [|congruence|].
  - destruct (Hall' i r p Hi) as [_ H1]. destruct (Hall j r' p' Hj) as [H2 _].
    apply prob_ltb_false in H2; [|done..]. rewrite H1 in H2 by done. done.
  - destruct (Hall j r' p' Hj) as [_ H1]. destruct (Hall' i r p Hi) as [H2 _].
    apply prob_ltb_false in H2; [|done..]. rewrite H1 in H2 by done. done.
Qed.

(** *** What is left of a screen *)

(** A character of a line as it is drawn: none that controls. *)
Definition drawn (c : string) : Prop := char_shaped c = true ∧ ascii_alone c ∧ is_control c = false.
Definition kept (c : string) : Prop := drawn c ∨ c = newline_str.

Lemma draw_char_drawn line column c : Forall drawn line → drawn c → Forall drawn (draw_char line column c).
Proof.
  intros Hl Hc. unfold draw_char. destruct (column <? length line)%nat.
  - by apply Forall_insert.
  - by apply Forall_app_2; [|apply Forall_singleton].
Qed.

Lemma drawn_kept line : Forall drawn line → Forall kept line.
Proof. intros Hl. apply (Forall_impl _ _ _ Hl). by left. Qed.

Lemma strip_from_kept rest mode line column :
  Forall (λ c, char_shaped c = true ∧ ascii_alone c) rest → Forall drawn line →
  Forall kept (strip_from mode line column rest).
Proof.
  remember (length rest) as n eqn:Hn. revert rest mode line column Hn.
  induction (lt_wf n) as [n _ IH]. intros [|c rest] mode line column -> Hr Hl; [by apply drawn_kept|].
  apply Forall_cons in Hr as [[Hc Ha] Hr]. assert (Hlt : (length rest < length (c :: rest))%nat) by (simpl; lia).
  destruct mode; simpl; [|by apply (IH _ Hlt)..| |by apply (IH _ Hlt)].
  - repeat case_match; try by apply (IH _ Hlt).
    + apply Forall_app_2; [by apply drawn_kept|]. constructor; [by right|by apply (IH _ Hlt)].
    + apply (IH _ Hlt); [done..|]. by apply draw_char_drawn.
    + apply (IH _ Hlt); [done..|]. apply draw_char_drawn; [done|].
      apply andb_false_iff in H4 as [Hcc|Ht]; [done|]. by split_and_bool.
  - destruct (_ || _); [by apply (IH _ Hlt)|]. destruct (c == escape_char_1b); [|by apply (IH _ Hlt)].
    destruct rest as [|d rest]; [by apply drawn_kept|]. destruct (d == _); [|by apply (IH _ Hlt)].
    apply Forall_cons in Hr as [_ Hr]. apply (IH (length rest)); simpl; [lia|done..].
Qed.

Lemma control_not_drawn c : is_control c = true → ¬ drawn c.
Proof. intros Hc (_ & _ & H). congruence. Qed.

Lemma strip_from_id rest line :
  Forall kept rest → strip_from Ground line (length line) rest = app line rest.
Proof.
  revert line. induction rest as [|c rest IH]; intros line Hr; [by rewrite app_nil_r|].
  apply Forall_cons in Hr as [[Hc| ->] Hr]; simpl.
  - assert (Hno : ∀ d, is_control d = true → (c == d) = false).
    { intros d Hd. apply eqb_false. intros ->. by eapply control_not_drawn. }
    rewrite !Hno by done. destruct Hc as (_ & _ & ->). simpl. unfold draw_char. rewrite Nat.ltb_irrefl.
    replace (length line + 1)%nat with (length (app line [c])) by (by rewrite length_app).
    by rewrite IH, <-app_assoc.
  - do 2 f_equal. exact (IH [] Hr).
Qed.

Lemma kept_shaped l : Forall kept l → Forall (λ c, char_shaped c = true) l.
Proof. intros Hl. apply (Forall_impl _ _ _ Hl). by intros c [[Hc _]| ->]. Qed.

Lemma stripped_chars text :
  utf8_valid text = true →
  Forall kept (strip_from Ground [] 0 (chars text))
  ∧ chars (strip_ansi text) = strip_from Ground [] 0 (chars text).
Proof.
  intros Hv. apply utf8_valid_chars in Hv as [_ Ha]. pose proof (chars_shaped text) as Hs.
  assert (Hk : Forall kept (strip_from Ground [] 0 (chars text))).
  { apply strip_from_kept; [|done]. rewrite Forall_forall in *. auto. }
  split; [done|]. by apply chars_concat, kept_shaped.
Qed.

(** Stripping a stripped text changes nothing. *)
Lemma strip_ansi_idem text : utf8_valid text = true → strip_ansi (strip_ansi text) = strip_ansi text.
Proof.
  intros [Hk Hc]%stripped_chars. unfold strip_ansi at 1. rewrite Hc. by rewrite (strip_from_id _ []).
Qed.

(** A drawn character has no newline byte. *)
Lemma drawn_no_newline c : drawn c → contains_char "010" c = false.
Proof. intros (Hs & Ha & Hc). apply shaped_without; try done. by intros ->. Qed.

Lemma split_char_prefix c x s :
  contains_char c x = false →
  ∃ w ws, split_char c s = w :: ws ∧ split_char c (x ++ s) = (x ++ w)%string :: ws.
Proof.
  destruct (split_char c s) as [|w ws] eqn:E; [by apply PathFacts.split_char_nonempty in E|].
  intros Hx. exists w, ws. split; [done|]. induction x as [|a x IH].
  - by rewrite !append_nil_l.
  - unfold contains_char in Hx. simpl in Hx. apply orb_false_iff in Hx as [Ha Hx]. rewrite !append_cons. simpl.
    rewrite IH by done. rewrite Ascii.eqb_sym, Ha. done.
Qed.

(** The lines of a kept text are strings of drawn characters. *)
Lemma kept_lines l :
  Forall kept l → Forall (λ line, ∃ cs, line = String.concat "" cs ∧ Forall drawn cs) (split_char "010" (String.concat "" l)).
Proof.
  induction 1 as [|c l [Hc| ->] Hl IH].
  - constructor; [by exists []|done].
  - rewrite concat_cons. destruct (split_char_prefix "010" c (String.concat "" l)) as (w & ws & E & ->).
    { by apply drawn_no_newline. }
    rewrite E in IH. apply Forall_cons in IH as [(cs & -> & Hcs) Hws]. constructor; [|done].
    exists (c :: cs). by rewrite concat_cons, Forall_cons.
  - rewrite concat_cons. unfold newline_str. rewrite append_cons, append_nil_l. simpl.
    constructor; [by exists []|done].
Qed.

Lemma drop_ws_suffix l : ∃ k, l = app k (drop_ws l).
Proof.
  induction l as [|c l [k IH]]; simpl; [by exists []|]. destruct (is_whitespace c); [|by exists []].
  exists (c :: k). simpl. by f_equal.
Qed.

Lemma cut_line_drawn cs :
  Forall drawn cs → Forall drawn (chars (chars_take LINE_CHARS (trim_end (String.concat "" cs)))).
Proof.
  intros Hd. assert (Hs : ∀ l, Forall drawn l → Forall (λ c, char_shaped c = true) l).
  { intros l Hl. apply (Forall_impl _ _ _ Hl). by intros c []. }
  unfold trim_end. rewrite (chars_concat cs) by auto.
  assert (Ht : Forall drawn (rev (drop_ws (rev cs)))).
  { destruct (drop_ws_suffix (rev cs)) as [k Hk]. apply Forall_rev. apply Forall_rev in Hd. rewrite Hk in Hd.
    by apply Forall_app in Hd as [_ Hd]. }
  unfold chars_take. rewrite (chars_concat (rev _)) by auto.
  rewrite chars_concat by (apply Forall_take; auto). by apply Forall_take.
Qed.

Lemma judged_line text line :
  utf8_valid text = true → line ∈ judged_lines text →
  (chars_count line ≤ LINE_CHARS)%nat ∧ has_control line = false.
Proof.
  intros [Hk _]%stripped_chars (raw & -> & Hin)%list_elem_of_fmap. split.
  { rewrite chars_count_take. lia. }
  apply kept_lines in Hk. rewrite Forall_forall in Hk. apply Hk in Hin as (cs & -> & Hd).
  apply cut_line_drawn in Hd. unfold has_control. apply not_true_iff_false. intros (c & Hc & Hcc)%existsb_exists.
  rewrite Forall_forall in Hd. apply list_elem_of_In, Hd in Hc. by apply control_not_drawn in Hc.
Qed.

Lemma drop_blank_suffix l : ∃ k, l = app k (drop_blank l).
Proof.
  induction l as [|c l [k IH]]; simpl; [by exists []|]. destruct (c == ""); [|by exists []].
  exists (c :: k). simpl. by f_equal.
Qed.

Lemma drop_blank_head l : head (drop_blank l) ≠ Some "".
Proof. induction l as [|c l IH]; simpl; [done|]. destruct (c == "") eqn:E; [done|]. simpl. split_and_bool. congruence. Qed.

Lemma elem_of_rev_iff {A} (x : A) l : x ∈ rev l ↔ x ∈ l.
Proof. by rewrite !list_elem_of_In, <-in_rev. Qed.

Lemma last_of_rev {A} (l : list A) : last (rev l) = head l.
Proof. rewrite rev_alt. apply last_reverse. Qed.

Lemma last_suffix {A} (k l : list A) : l = [] ∨ last (app k l) = last l.
Proof. rewrite last_app. destruct (last l) eqn:E; [auto|]. left. by apply last_None. Qed.

(** *** The budget *)

(** The calls of the minute that ends at [t]. *)
Definition in_minute (t : instant) (calls : list instant) : list instant :=
  List.filter (λ c, (t - MINUTE <? c)%Z && (c <=? t)%Z) calls.

Lemma prune_calls_spec calls now :
  ∃ old, calls = app old (prune_calls calls now) ∧ Forall (λ c, (c ≤ now - MINUTE)%Z) old.
Proof.
  induction calls as [|c calls (old & IH & Hold)]; simpl; [by exists []|].
  destruct (Z.leb_spec MINUTE (duration_since now c)); [|by exists []].
  exists (c :: old). split; [simpl; by f_equal|]. constructor; [|done].
  unfold duration_since, MINUTE, seconds in *. lia.
Qed.

Lemma in_minute_old t old : Forall (λ c, (c ≤ t - MINUTE)%Z) old → in_minute t old = [].
Proof.
  induction 1 as [|c old Hc _ IH]; [done|]. unfold in_minute in *. simpl.
  by rewrite (proj2 (Z.ltb_ge _ _)), IH by done.
Qed.

Lemma in_minute_length t calls : (length (in_minute t calls) ≤ length calls)%nat.
Proof. apply List.filter_length_le. Qed.

(** What holds of a judge and the calls [h] sent so far, the last counted at
    [at_]: those it has forgotten are a minute old, and no minute holds more
    than the budget. *)
Definition within (per_minute : Z) (at_ : instant) (h : list instant) (j : Judge) : Prop :=
  (∃ old, h = app old (jg_calls j) ∧ Forall (λ c, (c ≤ at_ - MINUTE)%Z) old)
  ∧ ∀ t, (Z.of_nat (length (in_minute t h)) ≤ per_minute)%Z.

Lemma within_calls per_minute at_ h j j' : jg_calls j' = jg_calls j → within per_minute at_ h j → within per_minute at_ h j'.
Proof. unfold within. by intros ->. Qed.

Lemma prune_within per_minute at_ now h j :
  (at_ ≤ now)%Z → within per_minute at_ h j → within per_minute now h (prune j now).
Proof.
  intros Hle [(old & Hh & Hold) Hw]. split; [|done].
  destruct (prune_calls_spec (jg_calls j) now) as (old' & Hc & Hold').
  exists (app old old'). simpl. rewrite <-app_assoc, <-Hc. split; [done|]. apply Forall_app_2; [|done].
  apply (Forall_impl _ _ _ Hold). intros c. lia.
Qed.

Lemma call_within per_minute at_ sent h j :
  (at_ ≤ sent)%Z → (Z.of_nat (length (jg_calls j)) < per_minute)%Z → within per_minute at_ h j →
  within per_minute at_ (app h [sent]) (with_calls j (app (jg_calls j) [sent])).
Proof.
  intros Hle Hlt [(old & Hh & Hold) Hw]. split.
  { exists old. simpl. by rewrite Hh, <-app_assoc. }
  intros t. destruct (Z.lt_ge_cases t sent) as [Ht|Ht].
  - unfold in_minute. rewrite List.filter_app. simpl.
    rewrite (proj2 (Z.leb_gt _ _) Ht), andb_false_r, app_nil_r. apply Hw.
  - rewrite Hh, <-app_assoc. unfold in_minute. rewrite List.filter_app.
    fold (in_minute t old). rewrite in_minute_old.
    + pose proof (in_minute_length t (app (jg_calls j) [sent])) as Hl. rewrite length_app in Hl. simpl in *.
      unfold in_minute in Hl. lia.
    + apply (Forall_impl _ _ _ Hold). intros c. lia.
Qed.

(** When a step's clock read comes, and what it leaves for the next. *)
Definition asks_in_order (at_ : instant) (s : JudgeStep) : Prop :=
  match s with StepAsk checked sent => (at_ ≤ checked)%Z ∧ (checked ≤ sent)%Z | _ => True end.
Definition asked_at (at_ : instant) (s : JudgeStep) : instant :=
  match s with StepAsk checked _ => checked | _ => at_ end.
Fixpoint clock_ordered (at_ : instant) (steps : list JudgeStep) : Prop :=
  match steps with
  | [] => True
  | s :: steps => asks_in_order at_ s ∧ clock_ordered (asked_at at_ s) steps
  end.

Lemma judge_announce_calls j now : jg_calls (judge_announce j now).2 = jg_calls j.
Proof. unfold judge_announce. by destruct (_ || _). Qed.

Lemma other_step_calls generation per_minute j s :
  (∀ checked sent, s ≠ StepAsk checked sent) →
  (judge_step generation per_minute j s).1.1 = [] ∧ jg_calls (judge_step generation per_minute j s).2 = jg_calls j.
Proof.
  intros Hs. destruct s as [c t| |failure now|now|agent screen|q agent process screen mono now|agent st process screen]; simpl.
  - by destruct (Hs c t).
  - done.
  - pose proof (judge_announce_calls (with_failure j (if passes failure then Some (now + BACKOFF)%Z else jg_backoff_until j)
      (Some (failure_sentence failure)) (jg_unannounced j + 1)%Z (failure_word failure) (jg_announced j)) now) as H.
    unfold judge_fail. by destruct (judge_announce _ now).
  - pose proof (judge_announce_calls j now) as H. by destruct (judge_announce j now).
  - split; [done|]. unfold settle. by repeat case_match.
  - done.
  - split; [done|]. unfold review_judgment. by repeat case_match.
Qed.

Lemma step_within generation per_minute at_ h j s :
  asks_in_order at_ s → within per_minute at_ h j →
  within per_minute (asked_at at_ s) (app h (judge_step generation per_minute j s).1.1)
    (judge_step generation per_minute j s).2.
Proof.
  destruct s as [checked sent| | | | | |]; [|intros _ Hw;
    match goal with |- context [judge_step _ _ _ ?s] =>
      destruct (other_step_calls generation per_minute j s ltac:(done)) as [-> Hc] end;
    rewrite app_nil_r; simpl; by apply (within_calls _ _ _ j)..].
  intros [Hle Hsent] Hw. apply (prune_within _ _ checked) in Hw; [|done]. unfold judge_step, may_ask, note_call.
  cbn [asked_at]. cbv zeta. generalize dependent (prune j checked). intros j1 Hw.
  destruct (judge_current j1 generation) eqn:Hc; simpl; [|by rewrite app_nil_r].
  destruct (is_some_and _ _); simpl; [by rewrite app_nil_r|].
  destruct (Z.leb_spec per_minute (Z.of_nat (length (jg_calls j1)))) as [Hb|Hb]; simpl; [by rewrite app_nil_r|].
  by apply call_within.
Qed.

Lemma run_within generation per_minute at_ h j steps :
  clock_ordered at_ steps → within per_minute at_ h j →
  ∀ t, (Z.of_nat (length (in_minute t (app h (judge_run generation per_minute j steps).1.1))) ≤ per_minute)%Z.
Proof.
  revert at_ h j. induction steps as [|s steps IH]; intros at_ h j; simpl.
  { intros _ [_ Hw]. by rewrite app_nil_r. }
  intros [Hs Hsteps] Hw. apply (step_within generation _ _ _ _ s Hs) in Hw.
  destruct (judge_step generation per_minute j s) as [[calls said] j'] eqn:E. simpl in *.
  specialize (IH _ _ _ Hsteps Hw). destruct (judge_run generation per_minute j' steps) as [[calls' said'] j''].
  simpl in *. by rewrite <-app_assoc in IH.
Qed.

(** *** Reviews *)

(** A source silent [OUTAGE_PASSES] passes in a row. *)
Definition dark (screens : list (result string Unreadable)) : Prop :=
  ∃ before after, screens = app before (app (replicate 4 (Err Outage)) after).

Lemma dark_read n x screens :
  (n < 4)%nat → x ≠ Err Outage → dark (app (replicate n (Err Outage)) (x :: screens)) ↔ dark screens.
Proof.
  intros Hn Hx. split; intros (before & after & E).
  - revert n Hn E. induction before as [|b before IH]; intros n Hn E.
    + do 4 (destruct n as [|n]; [by simplify_eq/=|]). lia.
    + destruct n as [|n]; [injection E as _ E; by exists before, after|]. injection E as _ E.
      apply (IH n); [lia|done].
  - exists (app (replicate n (Err Outage)) (x :: before)), after. by rewrite E, <-app_assoc.
Qed.

Lemma not_dark_short n : (n < 4)%nat → ¬ dark (replicate n (Err Outage)).
Proof.
  intros Hn (before & after & E). apply (f_equal length) in E. rewrite !length_app, !length_replicate in E. lia.
Qed.

Lemma dark_four n screens : (4 ≤ n)%nat → dark (app (replicate n (Err Outage)) screens).
Proof.
  intros Hn. exists [], (app (replicate (n - 4) (Err Outage)) screens).
  rewrite app_nil_l, app_assoc, <-replicate_add. by replace (4 + (n - 4))%nat with n by lia.
Qed.

(** The passes over one agent while its judgment stands: [None] once it was
    cleared. *)
Fixpoint reviewed (j : Judge) (agent : string) (standing : ScreenJudgment)
    (passes : list (option instant * result string Unreadable)) : option Judge :=
  match passes with
  | [] => Some j
  | (process, screen) :: passes =>
      match review_judgment j agent standing process screen with
      | (Stands _, j) => reviewed j agent standing passes
      | (Clear _, _) => None
      end
  end.

Definition vouched (standing : ScreenJudgment) (pass : option instant * result string Unreadable) : Prop :=
  pass.1 = sj_process_started_at standing ∧ (pass.2 = Ok (sj_screen standing) ∨ pass.2 = Err Outage).

Definition outages_of (j : Judge) (agent : string) : Z := unwrap_or 0%Z (jg_outages j !! agent).

Lemma review_judgment_stands j agent standing process screen n :
  review standing process screen (outages_of j agent) = Stands n → (0 ≤ n)%Z →
  ∃ j', review_judgment j agent standing process screen = (Stands n, j') ∧ outages_of j' agent = n.
Proof.
  intros Hr Hn. unfold review_judgment. fold (outages_of j agent). rewrite Hr. eexists. split; [done|].
  unfold outages_of. destruct (Z.ltb_spec 0 n); simpl.
  - by rewrite lookup_insert_eq.
  - rewrite lookup_delete_eq. simpl. lia.
Qed.

Lemma review_judgment_clear j agent standing process screen r :
  review standing process screen (outages_of j agent) = Clear r →
  ∃ j', review_judgment j agent standing process screen = (Clear r, j').
Proof. intros Hr. unfold review_judgment. fold (outages_of j agent). rewrite Hr. by eexists. Qed.

Lemma reviewed_exact j agent standing passes n :
  outages_of j agent = Z.of_nat n → (n < 4)%nat →
  is_some (reviewed j agent standing passes) = true
  ↔ Forall (vouched standing) passes ∧ ¬ dark (app (replicate n (Err Outage)) passes.*2).
Proof.
  revert j n. induction passes as [|[process screen] passes IH]; intros j n Hj Hn; cbn [reviewed].
  { rewrite app_nil_r. pose proof (not_dark_short n Hn). split; [done|naive_solver]. }
  rewrite Forall_cons, fmap_cons. unfold vouched at 1. cbn [fst snd].
  destruct (review standing process screen (outages_of j agent)) as [m|r] eqn:E.
  - assert (Hm : sj_process_started_at standing = process ∧
      (screen = Ok (sj_screen standing) ∧ m = 0%Z ∨ screen = Err Outage ∧ m = Z.of_nat (S n) ∧ (S n < 4)%nat)).
    { unfold review, u32_saturating_add, OUTAGE_PASSES in E. rewrite Hj in E.
      repeat case_match; split_and_bool; simplify_eq; split; auto; right; repeat split; lia. }
    destruct Hm as [Hp Hm]. destruct (review_judgment_stands j agent standing process screen m E) as (j' & -> & Hj').
    { naive_solver lia. }
    destruct Hm as [[-> ->]|(-> & -> & Hlt)].
    + rewrite (IH j' 0%nat) by (done || lia). simpl. rewrite dark_read by (done || lia). naive_solver.
    + rewrite (IH j' (S n)) by done. rewrite (replicate_S_end n), <-app_assoc. simpl. naive_solver.
  - destruct (review_judgment_clear j agent standing process screen r E) as (j' & ->). simpl. split; [done|].
    intros [[[Hp Hs] _] Hd]. exfalso. unfold review, u32_saturating_add, OUTAGE_PASSES in E. rewrite Hj in E.
    destruct Hs as [->| ->]; repeat case_match; split_and_bool; simplify_eq; try done.
    apply Hd. rewrite cons_middle, app_assoc, <-replicate_S_end. apply dark_four.
    match goal with H : (4 <=? _)%Z = true |- _ => apply Z.leb_le in H; lia end.
Qed.
End AttentionFacts.

(** ** Theorems *)

Module AttentionProps.
Import AttentionFacts.

(** The rule promotes exactly when every number is a
    probability, work is not read as running and the likeliest of an approval
    prompt, a question and a draft reaches the threshold; it then names that one,
    the earlier of two as likely, with its probability. *)
Theorem promotes_exactly_the_likeliest (a : ScreenAnswers) (t : Thresholds) (reason : WaitReason) (p : f64) :
  decide_screen a t = Promote reason p
  ↔ Forall (λ q, probability q = true)
      [sa_approval a; sa_question a; sa_running a; sa_draft a; th_promote t; th_running_veto t]
    ∧ f64_ltb (sa_running a) (th_running_veto t) = true
    ∧ likeliest_at (asked a) reason p
    ∧ f64_leb (th_promote t) p = true.
Proof.
  unfold decide_screen. destruct (forallb probability _) eqn:Hall; simpl orb.
  2:{ split; [done|]. intros [Hp _]. apply not_true_iff_false in Hall. destruct Hall.
      apply forallb_forall. intros q Hq. rewrite Forall_forall in Hp. by apply Hp, list_elem_of_In. }
  assert (Hp : Forall (λ q, probability q = true)
      [sa_approval a; sa_question a; sa_running a; sa_draft a; th_promote t; th_running_veto t]).
  { apply Forall_forall. intros q Hq. rewrite forallb_forall in Hall. by apply Hall, list_elem_of_In. }
  assert (Hp' := Hp). rewrite !Forall_cons in Hp'. destruct Hp' as (Ha & Hq & Hr & Hd & Ht & Hv & _).
  destruct (f64_leb (th_running_veto t) (sa_running a)) eqn:E.
  { apply prob_ltb_false in E; [|done..]. rewrite E. naive_solver. }
  assert (f64_ltb (sa_running a) (th_running_veto t) = true) as Hrun.
  { apply not_false_iff_true. rewrite prob_ltb_false by done. congruence. }
  assert (Hasked : Forall (λ rp : WaitReason * f64, probability rp.2 = true) (asked a)) by by repeat constructor.
  pose proof (likeliest_fold [(WPermission, sa_approval a)] [(WQuestion, sa_question a); (WDraft, sa_draft a)]
    (WPermission, sa_approval a) Hasked) as Hl.
  destruct (foldl likelier _ _) as [r q]. simpl in Hl. assert (Hlik : likeliest_at (asked a) r q).
  { apply Hl; [|done]. exists 0%nat. split; [done|]. intros [|j] r' q' Hj; simplify_eq/=. split; [by apply prob_leb_refl|lia]. }
  split.
  - destruct (f64_leb (th_promote t) q) eqn:Eq; [|done]. intros [= -> ->]. done.
  - intros (_ & _ & Hreason & Hle). assert ((r, q) = (reason, p)) as [= -> ->] by by eapply likeliest_unique.
    by rewrite Hle.
Qed.

(** What is judged of a screen is at most thirty lines of at
    most three hundred characters each, none with a control character, the first
    and the last not blank; and stripping once is enough: a stripped text strips
    to itself. *)
Theorem judged_text_is_small_and_clean (text : string) (Hv : utf8_valid text = true) :
  (length (screen_tail text) ≤ SCREEN_LINES)%nat
  ∧ Forall (λ line, (chars_count line ≤ LINE_CHARS)%nat ∧ has_control line = false) (screen_tail text)
  ∧ head (screen_tail text) ≠ Some "" ∧ last (screen_tail text) ≠ Some ""
  ∧ strip_ansi (strip_ansi text) = strip_ansi text.
Proof.
  unfold screen_tail. set (lines := rev (drop_blank (rev (judged_lines text)))).
  destruct (drop_blank_suffix (drop (length lines - SCREEN_LINES) lines)) as [k Hk].
  split; [|split; [|split; [apply drop_blank_head|split; [|by apply strip_ansi_idem]]]].
  - apply (f_equal length) in Hk. rewrite length_app, length_drop in Hk. lia.
  - apply Forall_forall. intros line Hin. apply judged_line with text; [done|].
    assert (Hd : line ∈ drop (length lines - SCREEN_LINES) lines) by (rewrite Hk; set_solver).
    apply subseteq_drop in Hd. unfold lines in Hd. rewrite elem_of_rev_iff in Hd.
    destruct (drop_blank_suffix (rev (judged_lines text))) as [k' Hk'].
    apply elem_of_rev_iff. rewrite Hk'. set_solver.
  - destruct (last_suffix k (drop_blank (drop (length lines - SCREEN_LINES) lines))) as [->|<-]; [done|].
    rewrite <-Hk. destruct (last_suffix (take (length lines - SCREEN_LINES) lines)
      (drop (length lines - SCREEN_LINES) lines)) as [->|<-]; [done|].
    rewrite take_drop. unfold lines. rewrite last_of_rev. apply drop_blank_head.
Qed.

Lemma judged_text_is_small_and_clean_witness :
  screen_tail ("> " ++ String "027" "[1mrun it?" ++ newline_str) = ["> run it?"]
  ∧ (length (screen_tail ("> " ++ String "027" "[1mrun it?" ++ newline_str)) ≤ SCREEN_LINES)%nat.
Proof.
  split; [reflexivity|].
  exact (proj1 (judged_text_is_small_and_clean ("> " ++ String "027" "[1mrun it?" ++ newline_str) eq_refl)).
Defined.

(** C39: Over any sequence of passes, a promotion stands exactly as
    long as every pass names its process, every screen read is the judged one,
    none was lost for the agent's own reason, and the agent's source was never
    silent four passes in a row. *)
Theorem promotion_stands_exactly_while_vouched (j : Judge) (agent : string) (standing : ScreenJudgment)
    (passes : list (option instant * result string Unreadable)) (Hnew : jg_outages j !! agent = None) :
  is_some (reviewed j agent standing passes) = true
  ↔ Forall (vouched standing) passes ∧ ¬ dark passes.*2.
Proof. apply (reviewed_exact j agent standing passes 0); [|lia]. unfold outages_of. by rewrite Hnew. Qed.

Lemma promotion_stands_exactly_while_vouched_witness :
  is_some (reviewed judge_default "a" (mkJudgment WDraft 900 0 0 None "d" "m")
             [(None, Err Outage); (None, Ok "d"); (None, Err Outage); (None, Err Outage); (None, Err Outage)]) = true
  ∧ ¬ dark ([Err Outage; Ok "d"; Err Outage; Err Outage; Err Outage] : list (result string Unreadable)).
Proof.
  split; [reflexivity|].
  refine (proj2 (proj1 (promotion_stands_exactly_while_vouched judge_default "a" (mkJudgment WDraft 900 0 0 None "d" "m")
    [(None, Err Outage); (None, Ok "d"); (None, Err Outage); (None, Err Outage); (None, Err Outage)] _) _));
    [apply lookup_empty|reflexivity].
Defined.

(** While the judge stays on, whatever it watches, settles,
    reviews and fails at in between, no minute holds more calls than its budget. *)
Theorem calls_stay_within_the_budget (generation per_minute start : Z) (j : Judge) (steps : list JudgeStep)
    (Hbudget : (0 ≤ per_minute)%Z) (Hfresh : jg_calls j = []) (Hclock : clock_ordered start steps) :
  ∀ t, (Z.of_nat (length (in_minute t (judge_run generation per_minute j steps).1.1)) ≤ per_minute)%Z.
Proof.
  apply (run_within generation per_minute start [] j steps Hclock). split; [|done].
  exists []. by rewrite Hfresh.
Qed.

Lemma calls_stay_within_the_budget_witness :
  let j := mkJudge (SetOn ["screens"] "m" 1) (Some 1%Z) None 1 ∅ ∅ [] None None 0 "" None in
  let steps := [StepAsk 0 (seconds 1); StepAsk (seconds 2) (seconds 2); StepAsk (seconds 61) (seconds 61)] in
  (judge_run 1 1 j steps).1.1 = [seconds 1; seconds 61]
  ∧ ∀ t, (Z.of_nat (length (in_minute t (judge_run 1 1 j steps).1.1)) ≤ 1)%Z.
Proof.
  intros j steps. split; [reflexivity|].
  apply (calls_stay_within_the_budget 1 1 0 j steps); [lia|reflexivity|]. cbv. repeat split; discriminate.
Defined.

(** Applying a promotion never makes an agent quieter: whatever
    else is known of it, its standing with the promotion comes no later in the
    attention order, and a live agent that was working, idle or unknown then needs
    the person. *)
Theorem promotion_only_makes_louder (s : Signals) (a : Activity) (j : ScreenJudgment) :
  let before := mkSignals (sg_live s) (sg_failed s) (sg_seen s) (sg_question s) (sg_delivery_held s)
                  (sg_finished_unseen s) (Some a) in
  let after := mkSignals (sg_live s) (sg_failed s) (sg_seen s) (sg_question s) (sg_delivery_held s)
                 (sg_finished_unseen s) (Some (raise a j)) in
  (standing_key (standing_of after) ≤ standing_key (standing_of before))%Z
  ∧ needs_you (standing_of after)
    = needs_you (standing_of before)
      || (sg_live s && existsb (eqb (activity_label a)) ["working"; "idle"; "unknown"]).
Proof.
  destruct s as [live failed seen question held finished activity]. simpl.
  destruct question, live, held, a; simpl; try (split; [lia|done]); destruct failed, seen, finished; simpl; split; done || lia.
Qed.
End AttentionProps.
