(* ===== verification/Claims.v ===== *)
(** * Claims: leases, waits and rings together

    How the daemon answers a claim, as
    [crates/agentd/src/daemon/leases.rs] and [daemon/waiting.rs] do it: one
    attempt under the state lock (whether the agent may claim at all, whose turn
    it is, the lease table, the durable commit, the rings a wait would close, the
    place in the queue), the wake that decides what a wait ends with, the guard
    that gives a place up, renewing and releasing; and, from
    [crates/agentd/src/daemon.rs], how a write commits before memory moves. Claims
    of many agents interleave hold by hold ([sys_step]).

    Outside the model, and arguments of an attempt ([AttemptEnv]): the clock, the
    fresh lease id, the ledger's watermark, a pause and a quota's capacity; and in
    the store, what each write answers. A release's journal entry is left out. *)

From Stdlib Require Import Ascii.
From stdpp Require Import pretty.
From S2P Require Import Prelude RustStr Order Lease Input Agent Registry Memory Wait Attention.

Local Open Scope rust_scope.

(** ** Writing before memory moves *)

Inductive WaitOutcome := WClaimed | WTimeout | WCancelled | WDeadlock.

Inductive ClaimEvent :=
| LeaseClaimed (lease : Lease)
| LeaseRenewed (lease : Lease)
| LeaseReleased (lease : Lease)
| LeaseExpired (lease : Lease)
| LeaseConflict (resource : Resource.ResourceKey) (requester : string) (held_by : list string)
| LeaseWaiting (resource : Resource.ResourceKey) (requester : string) (position : nat)
| LeaseWaitEnded (resource : Resource.ResourceKey) (requester : string) (outcome : WaitOutcome)
| LeaseDeadlock (cycle : list Blocked) (victim : option Blocked).

(** The store and the fence: [so_answers] is what the next writes answer, a
    write past its end landing. *)
Record Storage := mkStorage {
  so_error : bool;
  so_fenced : bool;
  so_skipped : bool;
  so_answers : list bool;
}.

(** The parts of the daemon's state a claim reads or changes, with the events
    published so far. *)
Record State := mkState {
  c_registry : Registry;
  c_leases : LeaseTable.t;
  c_waiting : WaitQueue;
  c_store : Storage;
  c_events : list ClaimEvent;
}.

Definition with_registry (st : State) (r : Registry) : State :=
  mkState r (c_leases st) (c_waiting st) (c_store st) (c_events st).
Definition with_leases (st : State) (l : LeaseTable.t) : State :=
  mkState (c_registry st) l (c_waiting st) (c_store st) (c_events st).
Definition with_waiting (st : State) (q : WaitQueue) : State :=
  mkState (c_registry st) (c_leases st) q (c_store st) (c_events st).
Definition with_store (st : State) (s : Storage) : State :=
  mkState (c_registry st) (c_leases st) (c_waiting st) s (c_events st).
Definition publish (st : State) (events : list ClaimEvent) : State :=
  mkState (c_registry st) (c_leases st) (c_waiting st) (c_store st) (app (c_events st) events).

Inductive Persisted := Committed | Skipped | FailedWrite.
Global Instance Persisted_eq_dec : EqDecision Persisted.
Proof. solve_decision. Defined.

Definition persist (st : State) : Persisted * State :=
  let s := c_store st in
  if so_error s then (FailedWrite, st)
  else if so_fenced s then (Skipped, with_store st (mkStorage (so_error s) (so_fenced s) true (so_answers s)))
  else match so_answers s with
  | false :: rest => (FailedWrite, with_store st (mkStorage true (so_fenced s) (so_skipped s) rest))
  | answers => (Committed, with_store st (mkStorage (so_error s) (so_fenced s) false (drop 1 answers)))
  end.

Definition commit (st : State) (events : list ClaimEvent) (apply : State → State) : Persisted * State :=
  match persist st with
  | (Committed, st) => (Committed, publish (apply st) events)
  | (p, st) => (p, st)
  end.

(** [write_failure().is_some()]: the storage failed, or a fence skipped the
    last write and still stands. *)
Definition write_failure (st : State) : bool :=
  so_error (c_store st) || (so_skipped (c_store st) && so_fenced (c_store st)).

Definition emit (st : State) (e : ClaimEvent) : State := (commit st [e] (λ st, st)).2.

Definition set_record (st : State) (holder : string) (record : AgentRecord) : State :=
  with_registry st (Reg.get_mut (c_registry st) holder (λ _, record)).1.

Definition touch_agent (st : State) (holder : string) (now : instant) : State :=
  match Reg.get (c_registry st) holder with
  | None => st
  | Some record =>
      let record := with_times record (r_started_at record) (r_finished_at record) now in
      match persist st with
      | (Committed, st) => set_record st holder record
      | (_, st) => st
      end
  end.

(** The record is there: an attempt has looked it up in the same hold. *)
Definition commit_lease_activity (st : State) (holder : string) (lease : option Lease)
    (kind : option ClaimEvent) (now : instant) : bool * State :=
  match Reg.get (c_registry st) holder with
  | None => (false, st)
  | Some record =>
      let record := with_times record (r_started_at record) (r_finished_at record) now in
      let '(p, st) := commit st (option_list kind) (λ st,
        let st := set_record st holder record in
        match lease with Some lease => with_leases st (LeaseTable.restore (c_leases st) lease) | None => st end) in
      (p == Committed, st)
  end.

(** ** The place in the queue *)

Record Waiting := mkWaiting {
  wg_ticket : option Z;
  wg_resource : Resource.ResourceKey;
  wg_requester : string;
}.

Definition waiting_new (requester : string) (resource : Resource.ResourceKey) : Waiting :=
  mkWaiting None resource requester.

Definition follow (w : Waiting) (requester : string) : Waiting :=
  if is_none (wg_ticket w) then mkWaiting (wg_ticket w) (wg_resource w) requester else w.

Definition join_locked (w : Waiting) (st : State) (mode : LeaseMode) (priority : Z) (now : instant) : Waiting * State :=
  match wg_ticket w with
  | Some _ => (w, st)
  | None =>
      let '(q, ticket) := queue_join (c_waiting st) (wg_requester w) (wg_resource w) mode priority now in
      let st := with_waiting st q in
      let position := unwrap_or 0%nat (queue_position q ticket) in
      (mkWaiting (Some ticket) (wg_resource w) (wg_requester w),
       emit st (LeaseWaiting (wg_resource w) (wg_requester w) position))
  end.

Definition never_started (w : Waiting) (st : State) (outcome : WaitOutcome) : State :=
  emit st (LeaseWaitEnded (wg_resource w) (wg_requester w) outcome).

Definition end_locked (w : Waiting) (st : State) (outcome : WaitOutcome) : Waiting * State :=
  match wg_ticket w with
  | None => (w, st)
  | Some ticket =>
      let w := mkWaiting None (wg_resource w) (wg_requester w) in
      match queue_leave (c_waiting st) ticket with
      | (q, None) => (w, with_waiting st q)
      | (q, Some _) => (w, emit (with_waiting st q) (LeaseWaitEnded (wg_resource w) (wg_requester w) outcome))
      end
  end.

Definition waiting_deadlocked (w : Waiting) (st : State) : option (list Blocked * (Waiting * State)) :=
  match wg_ticket w with
  | None => None
  | Some ticket =>
      match deadlocked (c_waiting st) ticket with
      | None => None
      | Some cycle =>
          Some (cycle, (mkWaiting None (wg_resource w) (wg_requester w),
                        with_waiting st (queue_leave (c_waiting st) ticket).1))
      end
  end.

(** ** Rings *)

Section Ops.
Context {HO : HashOrder string Lease}.

Definition may_attempt (st : State) (ticket : option Z) : bool := is_none_or (is_next (c_waiting st)) ticket.

Definition held_pairs (st : State) : list (Resource.ResourceKey * string) :=
  (λ l, (resource l, holder l)) <$> LeaseTable.all (c_leases st).
Definition wait_pairs (st : State) : list (string * Resource.ResourceKey) :=
  (λ w, (wt_agent w, wt_resource w)) <$> q_waiters (c_waiting st).

Definition state_deadlock (st : State) (requester : string) (resource : Resource.ResourceKey)
    : option (list Blocked) :=
  deadlock requester resource (held_pairs st) (wait_pairs st).

(** The loop of [break_rings], one turn per queued wait and one more; [None]
    when the turns run out or the victim is missing. *)
Fixpoint break_rings_within (turns : nat) (st : State) (requester : string) (resource : Resource.ResourceKey)
    (priority : Z) : option (option (list Blocked) * State) :=
  match turns with
  | O => None
  | S turns =>
      match state_deadlock st requester resource with
      | None => Some (None, st)
      | Some cycle =>
          match victim cycle priority (q_waiters (c_waiting st)) with
          | None => None
          | Some v =>
              let '(st, ended) :=
                match vi_ticket v with
                | Some ticket => let '(q, ended) := break_ring (c_waiting st) ticket cycle in (with_waiting st q, ended)
                | None => (st, None)
                end in
              let step := if is_some ended then vi_step v else 0%nat in
              let st := emit st (LeaseDeadlock cycle (cycle !! step)) in
              match ended with
              | None => Some (Some cycle, st)
              | Some waiter =>
                  let st := emit st (LeaseWaitEnded (wt_resource waiter) (wt_agent waiter) WDeadlock) in
                  break_rings_within turns st requester resource priority
              end
          end
      end
  end.
Definition break_rings (st : State) : string → Resource.ResourceKey → Z → option (option (list Blocked) * State) :=
  break_rings_within (S (length (q_waiters (c_waiting st)))) st.

(** ** One attempt *)

Definition MAX_LEASE_TTL_SECS : Z := 24 * 60 * 60.
Definition MAX_WAIT_SECS : Z := 600.
Definition lease_ttl (secs : Z) : duration := seconds (Z.min secs MAX_LEASE_TTL_SECS).

(** What a claim asks for; the resource as [localise] made it. *)
Record ClaimArgs := mkArgs {
  ca_resource : Resource.ResourceKey;
  ca_mode : LeaseMode;
  ca_amount : option Z;
  ca_ttl_secs : Z;
  ca_note : option string;
  ca_wait_secs : Z;
  ca_priority : Z;
  ca_automatic : bool;
}.

Record AttemptEnv := mkAttemptEnv {
  ae_now : instant;
  ae_fresh : string;
  ae_watermark : option Z;
  ae_pause : option string;
  ae_capacity : option Z;
}.

Inductive ClaimAnswer :=
| AnsLease (lease : Lease)
| AnsNotRunning
| AnsWriteFailure
| AnsPaused (reason : string)
| AnsQuota (message : string) (capacity committed requested : Z)
| AnsLeaseError (e : LeaseError)
| AnsConflict (message : string) (held_by : list Lease)
| AnsDeadlock (message : string) (cycle : list Blocked) (held_by : list Lease)
| AnsTransferring
| AnsPanic.

Definition describe_cycle (cycle : list Blocked) : string :=
  join "; " ((λ step, (short (bl_agent step) ++ " waits for " ++ Resource.as_str (bl_resource step)
                       ++ " held by " ++ short (bl_held_by step))%string) <$> cycle).

(** [name (id; mode on resource)] *)
Definition holder_words (st : State) (l : Lease) : string :=
  let name := match Reg.get (c_registry st) (holder l) with
              | Some a => if s_name (r_spec a) == "" then "an unknown agent" else s_name (r_spec a)
              | None => "an unknown agent"
              end in
  name ++ " (" ++ short (holder l) ++ "; " ++ mode_str (mode l) ++ " on " ++ Resource.as_str (resource l) ++ ")".

Definition ended_by_deadlock (st : State) (res : Resource.ResourceKey) (cycle : list Blocked) : ClaimAnswer :=
  AnsDeadlock ("the wait for " ++ Resource.as_str res ++ " was ended to break a deadlock: " ++ describe_cycle cycle)%string
    cycle (LeaseTable.holders_of (c_leases st) res).

(** [expire_leases_at]: memory first, then a write for each. *)
Definition expire_leases_at (st : State) (now : instant) : State :=
  if so_fenced (c_store st) then st
  else let '(tb, expired) := LeaseTable.expire (c_leases st) now in
       foldl (λ st lease, emit st (LeaseExpired lease)) (with_leases st tb) expired.

(** What a hold leaves behind while the claim goes on. *)
Record Attempt := mkAttempt {
  at_state : State;
  at_waiting : Waiting;
  at_holder : string;
  at_reported : bool;
}.

(** The checks before the table is asked: the agent runs, the record that
    stays claims, writes land, the project is not paused, what has expired is
    gone. *)
Definition admit_attempt (a : Attempt) (env : AttemptEnv) : Attempt * option ClaimAnswer :=
  let st := at_state a in
  match Reg.get (c_registry st) (at_holder a) with
  | None => (a, Some AnsNotRunning)
  | Some record =>
      if r_status record != Running then (a, Some AnsNotRunning)
      else
        let a := if r_id record != at_holder a
                 then mkAttempt st (follow (at_waiting a) (r_id record)) (r_id record) (at_reported a) else a in
        if write_failure st then (a, Some AnsWriteFailure)
        else match ae_pause env with
        | Some reason => (a, Some (AnsPaused reason))
        | None =>
            let a := mkAttempt (expire_leases_at st (ae_now env)) (at_waiting a) (at_holder a) (at_reported a) in
            (a, if write_failure (at_state a) then Some AnsWriteFailure else None)
        end
  end.

(** Whether a quota has no room for what is asked. *)
Definition quota_attempt (st : State) (holder : string) (args : ClaimArgs) (env : AttemptEnv)
    : State * option ClaimAnswer :=
  if Resource.kind (ca_resource args) != "quota" then (st, None)
  else match ae_capacity env with
  | None => (st, None)
  | Some capacity =>
      let want := unwrap_or 1%Z (ca_amount args) in
      let committed := LeaseTable.committed (c_leases st) (ca_resource args) in
      if (u64_saturating_add committed want <=? capacity)%Z then (st, None)
      else
        let st := touch_agent st holder (ae_now env) in
        if write_failure st then (st, Some AnsWriteFailure)
        else (st, Some (AnsQuota
                (Resource.as_str (ca_resource args) ++ " has " ++ pretty (Z.max 0 (capacity - committed)) ++ " of "
                 ++ pretty capacity ++ " left and " ++ pretty want ++ " was asked for")%string
                capacity committed want))
  end.

Definition claim_request (holder : string) (args : ClaimArgs) : ClaimRequest :=
  mkClaim (ca_resource args) holder (if Resource.kind (ca_resource args) == "quota" then Shared else ca_mode args)
    (lease_ttl (ca_ttl_secs args)) (ca_note args) (ca_automatic args).

(** The table is asked on a copy, and only when it is this claim's turn. *)
Definition ask_table (st : State) (ticket : option Z) (holder : string) (args : ClaimArgs) (env : AttemptEnv)
    : result Claimed LeaseError :=
  if may_attempt st ticket
  then (LeaseTable.claim_as (c_leases st) (claim_request holder args) (ae_fresh env) (ae_now env)).2
  else Err (Conflict (ca_resource args) (LeaseTable.holders_of (c_leases st) (ca_resource args))).

(** The lease as it is kept: with the ledger's boundary and a quota's amount. *)
Definition kept_lease (c : Claimed) (args : ClaimArgs) (env : AttemptEnv) : Lease :=
  match c with
  | Renewed l => l
  | New l =>
      {| id := id l; resource := resource l; holder := Lease.holder l; mode := mode l; acquired_at := acquired_at l;
         held_since_field := held_since_field l; change_seq := ae_watermark env; expires_at := expires_at l;
         note := note l;
         amount := if Resource.kind (resource l) == "quota" then unwrap_or 1%Z (ca_amount args) else amount l;
         automatic := automatic l |}
  end.

Definition grant (st : State) (holder : string) (c : Claimed) (args : ClaimArgs) (env : AttemptEnv)
    : State * ClaimAnswer :=
  let lease := kept_lease c args env in
  let event := match c with New _ => LeaseClaimed lease | Renewed _ => LeaseRenewed lease end in
  let '(kept, st) := commit_lease_activity st holder (Some lease) (Some event) (ae_now env) in
  (st, if kept then AnsLease lease else AnsWriteFailure).

(** What the attempt decided: to answer now, giving the place up with this
    outcome, or to wait with the conflict to report. *)
Definition AttemptDecision : Type := result (string * list Lease) (ClaimAnswer * WaitOutcome).

(** A conflict: said once, then the wait begins unless it would close a ring
    that only this claim can break. *)
Definition meet_conflict (a : Attempt) (args : ClaimArgs) (env : AttemptEnv) (held_by : list Lease)
    : Attempt * AttemptDecision :=
  let st := at_state a in
  let message := (Resource.as_str (ca_resource args) ++ " is held by " ++ join ", " (holder_words st <$> held_by))%string in
  let conflict := if at_reported a then None
                  else Some (LeaseConflict (ca_resource args) (at_holder a) (Lease.holder <$> held_by)) in
  let '(kept, st) := commit_lease_activity st (at_holder a) None conflict (ae_now env) in
  if negb kept then (mkAttempt st (at_waiting a) (at_holder a) (at_reported a), Err (AnsWriteFailure, WCancelled))
  else
    if (0 <? ca_wait_secs args)%Z && is_none (wg_ticket (at_waiting a)) then
      match break_rings st (at_holder a) (ca_resource args) (ca_priority args) with
      | None => (mkAttempt st (at_waiting a) (at_holder a) true, Err (AnsPanic, WCancelled))
      | Some (Some cycle, st) =>
          let st := never_started (at_waiting a) st WDeadlock in
          (mkAttempt st (at_waiting a) (at_holder a) true,
           Err (AnsDeadlock ("waiting for " ++ Resource.as_str (ca_resource args) ++ " would deadlock: "
                             ++ describe_cycle cycle)%string cycle held_by, WDeadlock))
      | Some (None, st) =>
          let '(w, st) := join_locked (at_waiting a) st (ca_mode args) (ca_priority args) (ae_now env) in
          (mkAttempt st w (at_holder a) true, Ok (message, held_by))
      end
    else (mkAttempt st (at_waiting a) (at_holder a) true, Ok (message, held_by)).

(** The labelled block ['attempt]. *)
Definition decide_attempt (a : Attempt) (args : ClaimArgs) (env : AttemptEnv) : Attempt * AttemptDecision :=
  match admit_attempt a env with
  | (a, Some answer) => (a, Err (answer, WCancelled))
  | (a, None) =>
      match quota_attempt (at_state a) (at_holder a) args env with
      | (st, Some answer) => (mkAttempt st (at_waiting a) (at_holder a) (at_reported a), Err (answer, WCancelled))
      | (st, None) =>
          let a := mkAttempt st (at_waiting a) (at_holder a) (at_reported a) in
          match ask_table st (wg_ticket (at_waiting a)) (at_holder a) args env with
          | Ok c =>
              let '(st, answer) := grant st (at_holder a) c args env in
              (mkAttempt st (at_waiting a) (at_holder a) (at_reported a),
               Err (answer, match answer with AnsLease _ => WClaimed | _ => WCancelled end))
          | Err (Conflict _ held_by) => meet_conflict a args env held_by
          | Err other => (a, Err (AnsLeaseError other, WCancelled))
          end
      end
  end.

(** The whole hold of an attempt: a ring broken at this wait first; whatever
    is answered gives the place up. *)
Definition claim_attempt (a : Attempt) (args : ClaimArgs) (env : AttemptEnv)
    : Attempt * result (string * list Lease) ClaimAnswer :=
  match waiting_deadlocked (at_waiting a) (at_state a) with
  | Some (cycle, (w, st)) =>
      (mkAttempt st w (at_holder a) (at_reported a), Err (ended_by_deadlock st (ca_resource args) cycle))
  | None =>
      match decide_attempt a args env with
      | (a, Ok conflict) =>
          (a, if (ca_wait_secs args =? 0)%Z then Err (AnsConflict conflict.1 conflict.2) else Ok conflict)
      | (a, Err (answer, outcome)) =>
          let '(w, st) := end_locked (at_waiting a) (at_state a) outcome in
          (mkAttempt st w (at_holder a) (at_reported a), Err answer)
      end
  end.

(** The hold after a wake: a ring broken at this wait, then the deadline, then
    a handover that refuses another attempt ([readmitted = false]). *)
Definition claim_wake (a : Attempt) (args : ClaimArgs) (conflict : string * list Lease) (woke readmitted : bool)
    : Attempt * option ClaimAnswer :=
  match waiting_deadlocked (at_waiting a) (at_state a) with
  | Some (cycle, (w, st)) =>
      (mkAttempt st w (at_holder a) (at_reported a), Some (ended_by_deadlock st (ca_resource args) cycle))
  | None =>
      if negb woke then
        let '(w, st) := end_locked (at_waiting a) (at_state a) WTimeout in
        (mkAttempt st w (at_holder a) (at_reported a), Some (AnsConflict conflict.1 conflict.2))
      else if readmitted then (a, None)
      else
        let '(w, st) := end_locked (at_waiting a) (at_state a) WCancelled in
        (mkAttempt st w (at_holder a) (at_reported a), Some AnsTransferring)
  end.

(** The events that wake a wait for [res]. *)
Definition wakes (res : Resource.ResourceKey) (e : ClaimEvent) : bool :=
  match e with
  | LeaseReleased lease | LeaseExpired lease => Resource.overlaps (resource lease) res
  | LeaseWaitEnded freed _ _ => Resource.overlaps freed res
  | _ => false
  end.

(** ** Renewing and releasing *)

Definition TASK_LEASE_SECS : Z := 4 * 60 * 60.

Definition renew_lease (st : State) (holder lease : string) (ttl_secs : Z) (now : instant) : State * ClaimAnswer :=
  if negb (is_some_and (λ a, r_status a == Running) (Reg.get (c_registry st) holder)) then (st, AnsNotRunning)
  else
    let st := expire_leases_at st now in
    if write_failure st then (st, AnsWriteFailure)
    else
      let card := is_some_and (λ l, starts_with (Resource.as_str (resource l)) "task:")
                    (LeaseTable.get (c_leases st) lease) in
      let ttl_secs := if card then Z.max ttl_secs TASK_LEASE_SECS else ttl_secs in
      match (LeaseTable.renew (c_leases st) lease holder (lease_ttl ttl_secs) now).2 with
      | Err e => (st, AnsLeaseError e)
      | Ok l =>
          let '(kept, st) := commit_lease_activity st holder (Some l) (Some (LeaseRenewed l)) now in
          (st, if kept then AnsLease l else AnsWriteFailure)
      end.

(** [finish_release] of leases that are held, without the journal. *)
Definition finish_release (st : State) (released : list Lease) : State :=
  if (length released =? 0)%nat then st
  else (commit st (LeaseReleased <$> released) (λ st,
          foldl (λ st l, with_leases st (LeaseTable.release (c_leases st) (id l) (Lease.holder l)).1) st released)).2.

Definition release_lease (st : State) (holder lease : string) : State * result Lease LeaseError :=
  match (LeaseTable.release (c_leases st) lease holder).2 with
  | Ok l => (finish_release st [l], Ok l)
  | Err e => (st, Err e)
  end.

Definition release_all_leases (st : State) (holder : string) (only_automatic : bool) : State * list Lease :=
  let released := List.filter (λ l, negb only_automatic || automatic l) (LeaseTable.by_holder (c_leases st) holder) in
  (finish_release st released, released).

(** ** What an agent is doing *)

Definition ACTIVE_WINDOW : duration := minutes 2.

Definition reports_turns (record : AgentRecord) : bool :=
  is_some_and (λ hooks, Some (ac_process_started_at hooks) == r_process_started_at record)
    (r_adapter_contacts record !! Hooks).

Definition recorded_activity_of (st : State) (record : AgentRecord) (now : instant) : Activity :=
  if negb (is_live (r_status record)) then AFinished
  else if r_status record == Created then AStarting
  else match waiting_for (c_waiting st) (r_id record) with
  | Some waiter =>
      ABlocked (wt_resource waiter) (Lease.holder <$> LeaseTable.holders_of (c_leases st) (wt_resource waiter))
        (wt_since waiter)
  | None =>
      let stands o :=
        reports_turns record
        || (is_some (ob_source o) && is_some (observed_now o now))
        || (r_last_seen record <=? ob_observed_at o)%Z
        || (r_last_seen record =? r_created_at record)%Z in
      match r_reported_activity record with
      | Some o =>
          if stands o then unwrap_or AUnknown (observed_now o now)
          else if reports_turns record then AUnknown
          else if (r_created_at record <? r_last_seen record)%Z && (now - r_last_seen record <? ACTIVE_WINDOW)%Z
          then AWorking (r_last_seen record) else AUnknown
      | None =>
          if reports_turns record then AUnknown
          else if (r_created_at record <? r_last_seen record)%Z && (now - r_last_seen record <? ACTIVE_WINDOW)%Z
          then AWorking (r_last_seen record) else AUnknown
      end
  end.

Definition activity_of (st : State) (record : AgentRecord) (now : instant) : Activity :=
  let recorded := recorded_activity_of st record now in
  match r_judged record with
  | Some j => if judgment_stands_for j record then raise recorded j else recorded
  | None => recorded
  end.

Definition with_activity (r : AgentRecord) (seen : instant) (o : option ActivityObservation) : AgentRecord :=
  mkRecord
    (r_id r) (r_spec r) (r_status r) (r_host r) (r_pid r) (r_process_started_at r) (r_process_group r)
    (r_managed r) (r_session r) (r_terminal r) (r_restarts r) (r_stop_requested r)
    (r_container r) (r_owner r) (r_project r) (r_vcs r) (r_created_at r) (r_started_at r)
    (r_finished_at r) seen o (r_input_delivery r)
    (r_provider_availability r) (r_adapter_contacts r) (r_queue_read r) (r_session_contact r)
    (r_input_binding r) (r_legacy_offers r) (r_judged r) (r_thread r).

Inductive ActivityAnswer := ActOk | ActStale | ActNotFound | ActFinished | ActWriteFailure.

(** [State::record_activity]; its event is not among those a claim publishes,
    so the log stays as it is. *)
Definition record_activity (st : State) (agent : string) (o : ActivityObservation) (now : instant)
    : State * ActivityAnswer :=
  if is_none (observed_now o now) then (st, ActStale)
  else match Reg.get (c_registry st) agent with
  | None => (st, ActNotFound)
  | Some record =>
      if negb (is_live (r_status record)) then (st, ActFinished)
      else if is_some_and (λ previous, (ob_observed_at o <=? ob_observed_at previous)%Z || keeps_off previous o now)
                (r_reported_activity record)
      then (st, ActOk)
      else
        let o := settled_observation o (r_reported_activity record) in
        let seen := if is_none (ob_source o) then Z.max (r_last_seen record) (ob_observed_at o) else r_last_seen record in
        let st := (commit st [] (λ st, set_record st agent (with_activity record seen (Some o)))).2 in
        (st, if write_failure st then ActWriteFailure else ActOk)
  end.

(** The listing's order: what somebody has to act on first. *)
Definition activity_rank (a : Activity) : Z :=
  match a with
  | AWaiting _ _ _ _ | ABlocked _ _ _ => 0 | AWorking _ => 1 | AStarting => 2 | AIdle _ => 3 | AUnknown => 4 | AFinished => 5
  end.
End Ops.

(** ** Many claims at once *)

(** Between its holds a claim either attempts next or sleeps until it is woken
    or its deadline comes, with the conflict it will report. *)
Inductive Phase :=
| Attempting
| Asleep (conflict : string * list Lease).

Record OpenClaim := mkOpen {
  oc_args : ClaimArgs;
  oc_waiting : Waiting;
  oc_holder : string;
  oc_reported : bool;
  oc_phase : Phase;
}.

Record Sys := mkSys {
  sys_state : State;
  sys_claims : gmap nat OpenClaim;
}.

Definition attempt_of (s : Sys) (c : OpenClaim) : Attempt :=
  mkAttempt (sys_state s) (oc_waiting c) (oc_holder c) (oc_reported c).
Definition open_of (c : OpenClaim) (a : Attempt) (phase : Phase) : OpenClaim :=
  mkOpen (oc_args c) (at_waiting a) (at_holder a) (at_reported a) phase.

Section System.
Context {HO : HashOrder string Lease}.

(** A claim's turn to attempt. *)
Definition sys_attempt (s : Sys) (i : nat) (c : OpenClaim) (env : AttemptEnv) : Sys :=
  match claim_attempt (attempt_of s c) (oc_args c) env with
  | (a, Ok conflict) => mkSys (at_state a) (<[i := open_of c a (Asleep conflict)]> (sys_claims s))
  | (a, Err _) => mkSys (at_state a) (delete i (sys_claims s))
  end.

(** A claim is woken, or its deadline comes. *)
Definition sys_wake (s : Sys) (i : nat) (c : OpenClaim) (conflict : string * list Lease) (woke readmitted : bool) : Sys :=
  match claim_wake (attempt_of s c) (oc_args c) conflict woke readmitted with
  | (a, None) => mkSys (at_state a) (<[i := open_of c a Attempting]> (sys_claims s))
  | (a, Some _) => mkSys (at_state a) (delete i (sys_claims s))
  end.

(** A claim whose client goes away. *)
Definition sys_drop (s : Sys) (i : nat) (c : OpenClaim) : Sys :=
  mkSys (end_locked (oc_waiting c) (sys_state s) WCancelled).2 (delete i (sys_claims s)).

(** An agent's record is its own: no alias leads away from it. *)
Definition canonical (r : Registry) (agent : string) : Prop :=
  Reg.canonical_id r agent = agent ∧ ∀ record, Reg.get r agent = Some record → r_id record = agent.

(** The steps. Each agent has one claim open at a time, a fresh lease id is
    fresh, and the tickets have not run out. *)
Inductive sys_step : Sys → Sys → Prop :=
| sys_open s i agent args :
    sys_claims s !! i = None → canonical (c_registry (sys_state s)) agent →
    (∀ j c, sys_claims s !! j = Some c → oc_holder c ≠ agent) →
    sys_step s (mkSys (sys_state s)
      (<[i := mkOpen args (waiting_new agent (ca_resource args)) agent false Attempting]> (sys_claims s)))
| sys_try s i c env :
    sys_claims s !! i = Some c → oc_phase c = Attempting →
    LeaseTable.get (c_leases (sys_state s)) (ae_fresh env) = None →
    (q_next_ticket (c_waiting (sys_state s)) + 1 < 2 ^ 64)%Z →
    sys_step s (sys_attempt s i c env)
| sys_woken s i c conflict woke readmitted :
    sys_claims s !! i = Some c → oc_phase c = Asleep conflict →
    sys_step s (sys_wake s i c conflict woke readmitted)
| sys_gone s i c : sys_claims s !! i = Some c → sys_step s (sys_drop s i c)
| sys_renew s agent lease ttl now :
    sys_step s (mkSys (renew_lease (sys_state s) agent lease ttl now).1 (sys_claims s))
| sys_release s agent lease :
    sys_step s (mkSys (release_lease (sys_state s) agent lease).1 (sys_claims s))
| sys_release_all s agent automatic :
    sys_step s (mkSys (release_all_leases (sys_state s) agent automatic).1 (sys_claims s))
| sys_expire s now : sys_step s (mkSys (expire_leases_at (sys_state s) now) (sys_claims s)).
End System.

(** ** Facts *)

Module ClaimsFacts.
Import WaitFacts.

(** *** The graph of waits *)

(** [x] waits for something that overlaps what [y] holds. *)
Definition waits_on (tb : LeaseTable.t) (q : WaitQueue) (x y : string) : Prop :=
  ∃ w k l, w ∈ q_waiters q ∧ LeaseTable.leases tb !! k = Some l ∧ Resource.overlaps (resource l) (wt_resource w) = true
           ∧ wt_agent w = x ∧ holder l = y ∧ y ≠ x.

Definition no_ring (tb : LeaseTable.t) (q : WaitQueue) : Prop := ∀ a, ¬ tc (waits_on tb q) a a.

Definition waits_in (q : WaitQueue) (a : string) : Prop := ∃ w, w ∈ q_waiters q ∧ wt_agent w = a.

(** Every lease of the one table is held in the other, or by somebody who does
    not wait. *)
Definition covered (tb tb' : LeaseTable.t) (q : WaitQueue) : Prop :=
  ∀ k' l', LeaseTable.leases tb' !! k' = Some l' →
    (∃ k l, LeaseTable.leases tb !! k = Some l ∧ resource l = resource l' ∧ holder l = holder l')
    ∨ ¬ waits_in q (holder l').

Lemma waits_on_source tb q x y : waits_on tb q x y → waits_in q x.
Proof. intros (w & k & l & Hw & _ & _ & Ha & _). by exists w. Qed.

Lemma tc_source tb q x y : tc (waits_on tb q) x y → waits_in q x.
Proof. destruct 1; by eapply waits_on_source. Qed.

Lemma waits_on_covered tb tb' q q' x y :
  covered tb tb' q' → q_waiters q' ⊆ q_waiters q → waits_in q' y → waits_on tb' q' x y → waits_on tb q x y.
Proof.
  intros Hc Hq Hy (w & k & l' & Hw & Hl & Ho & Hx & Hh & Hne). subst y.
  destruct (Hc k l' Hl) as [(k0 & l & Hl0 & Hr & Hh)|Hn]; [|done].
  exists w, k0, l. rewrite Hr, Hh. split_and!; try done. by apply Hq.
Qed.

(** Fewer waits, and no lease for a waiting agent that was not there: no ring
    forms. *)
Lemma no_ring_covered tb tb' q q' :
  covered tb tb' q' → q_waiters q' ⊆ q_waiters q → no_ring tb q → no_ring tb' q'.
Proof.
  intros Hc Hq Hno a Ha. apply (Hno a).
  enough (∀ x y, tc (waits_on tb' q') x y → waits_in q' y → tc (waits_on tb q) x y) as Hall.
  { apply Hall; [done|by eapply tc_source]. }
  induction 1 as [x y Hxy|x y z Hxy Hyz IH]; intros Hw.
  - apply tc_once. by eapply waits_on_covered.
  - eapply tc_l; [|by apply IH]. eapply waits_on_covered; [done..|by eapply tc_source|done].
Qed.

Lemma covered_sub tb tb' q :
  (∀ k l, LeaseTable.leases tb' !! k = Some l → LeaseTable.leases tb !! k = Some l) → covered tb tb' q.
Proof. intros Hs k l Hl. left. exists k, l. by split; [apply Hs|]. Qed.

(** A way back to [a] goes from [a] along steps that do not start at [a]. *)
Lemma tc_first_return (R : relation string) a :
  tc R a a → ∃ b, R a b ∧ rtc (λ x y, x ≠ a ∧ R x y) b a.
Proof.
  enough (∀ x y, tc R x y → y = a →
    (∃ b, R a b ∧ rtc (λ x y, x ≠ a ∧ R x y) b a) ∨ (x ≠ a ∧ rtc (λ x y, x ≠ a ∧ R x y) x a)) as Hall.
  { intros H. destruct (Hall a a H eq_refl) as [?|[? _]]; done. }
  induction 1 as [x y Hxy|x z y Hxz Hzy IH]; intros ->.
  - destruct (decide (x = a)) as [->|Hne].
    + left. exists a. split; [done|apply rtc_refl].
    + right. split; [done|]. by apply rtc_once.
  - destruct (IH eq_refl) as [Hl|[Hz Hr]]; [by left|]. destruct (decide (x = a)) as [->|Hne].
    + left. by exists z.
    + right. split; [done|]. by eapply rtc_l.
Qed.

(** One more source of steps: a ring is an old one or goes through it. *)
Lemma tc_new_source (R R' : relation string) a :
  (∀ x y, R' x y → x ≠ a → R x y) →
  ∀ x y, tc R' x y → tc R x y ∨ (rtc R' x a ∧ tc R' a y).
Proof.
  intros HR. induction 1 as [x y Hxy|x z y Hxz Hzy IH].
  - destruct (decide (x = a)) as [->|Hne]; [|left; apply tc_once; auto].
    right. split; [apply rtc_refl|by apply tc_once].
  - destruct (decide (x = a)) as [->|Hne].
    + right. split; [apply rtc_refl|by eapply tc_l].
    + destruct IH as [Hl|[Hz Ha]].
      * left. eapply tc_l; [by apply HR|done].
      * right. split; [by eapply rtc_l|done].
Qed.

(** *** The two lists the search is given *)

Section Lists.
Context {HO : HashOrder string Lease}.

Lemma elem_of_table tb l : l ∈ LeaseTable.all tb ↔ ∃ k, LeaseTable.leases tb !! k = Some l.
Proof.
  unfold LeaseTable.all, LeaseTable.sorted. rewrite sort_by_perm, list_elem_of_filter, elem_of_hm_values. naive_solver.
Qed.

Lemma held_up_iff st a r h :
  held_up (held_pairs st) a r h ↔
  ∃ k l, LeaseTable.leases (c_leases st) !! k = Some l ∧ Resource.overlaps (resource l) r = true ∧ holder l = h ∧ h ≠ a.
Proof.
  unfold held_up, held_pairs. split.
  - intros (held & Hin & Ho & Hne). apply list_elem_of_fmap in Hin as (l & [= -> ->] & [k Hk]%elem_of_table).
    by exists k, l.
  - intros (k & l & Hk & Ho & <- & Hne). exists (resource l). split_and!; try done.
    apply list_elem_of_fmap. exists l. split; [done|]. apply elem_of_table. by exists k.
Qed.

Definition one_wait_each (q : WaitQueue) : Prop := NoDup (wt_agent <$> q_waiters q).

Lemma waits_map_lookup ws (m : gmap string Resource.ResourceKey) a r :
  NoDup (wt_agent <$> ws) → (∀ w, w ∈ ws → m !! wt_agent w = None) →
  foldl (λ m w, <[w.1 := w.2]> m) m ((λ w, (wt_agent w, wt_resource w)) <$> ws) !! a = Some r
  ↔ m !! a = Some r ∨ ∃ w, w ∈ ws ∧ wt_agent w = a ∧ wt_resource w = r.
Proof.
  revert m. induction ws as [|w ws IH]; intros m Hnd Hm; simpl.
  { split; [by left|]. intros [?|(w & Hw & _)]; [done|]. by apply not_elem_of_nil in Hw. }
  rewrite fmap_cons, NoDup_cons in Hnd. destruct Hnd as [Hw Hnd]. rewrite IH; [|done|].
  - rewrite lookup_insert_Some. setoid_rewrite elem_of_cons. split.
    + intros [[[<- <-]|[Hne Ha]]|(x & Hx & Hxa & Hxr)]; [right; exists w; auto|by left|right; exists x; auto].
    + intros [Ha|(x & [->|Hx] & Hxa & Hxr)]; [|by left; left|right; by exists x].
      left. right. split; [|done]. intros <-. rewrite Hm in Ha by left. done.
  - intros x Hx. rewrite lookup_insert_ne; [by apply Hm; right|]. intros E. apply Hw. rewrite E.
    by apply list_elem_of_fmap_2.
Qed.

Lemma wait_pairs_lookup st a r :
  one_wait_each (c_waiting st) →
  waits_map (wait_pairs st) !! a = Some r ↔ ∃ w, w ∈ q_waiters (c_waiting st) ∧ wt_agent w = a ∧ wt_resource w = r.
Proof.
  intros Hnd. unfold waits_map, wait_pairs. rewrite waits_map_lookup; [|done|by intros; apply lookup_empty].
  rewrite lookup_empty. naive_solver.
Qed.
End Lists.

(** *** Joining without closing a ring *)

Section Join.
Context {HO : HashOrder string Lease} (st : State) (X : string) (r : Resource.ResourceKey).
Context (mode : LeaseMode) (priority : Z) (now : instant).
Let q := c_waiting st.
Let q' := (queue_join q X r mode priority now).1.
Hypothesis Hone : one_wait_each q.
Hypothesis Hnew : ¬ waits_in q X.

Lemma elem_of_join x : x ∈ q_waiters q' ↔ x = mkWaiter (q_next_ticket q) X r mode now priority ∨ x ∈ q_waiters q.
Proof. unfold q', queue_join. simpl. by rewrite insert_waiter_perm, elem_of_cons. Qed.

Lemma join_other x y : waits_on (c_leases st) q' x y → x ≠ X → waits_on (c_leases st) q x y.
Proof.
  intros (w & k & l & [->|Hw]%elem_of_join & H) Hne; [naive_solver|]. by exists w, k, l.
Qed.

Lemma join_own y : waits_on (c_leases st) q' X y → held_up (held_pairs st) X r y.
Proof.
  intros (w & k & l & [->|Hw]%elem_of_join & Hl & Ho & Ha & Hh & Hne).
  - apply held_up_iff. by exists k, l.
  - destruct Hnew. by exists w.
Qed.

Lemma way_back_ring b z :
  rtc (λ x y, x ≠ X ∧ waits_on (c_leases st) q' x y) b z → z = X → b ≠ X →
  ∃ rb path, waits_map (wait_pairs st) !! b = Some rb
             ∧ ring_path X (held_pairs st) (waits_map (wait_pairs st)) b rb path.
Proof.
  induction 1 as [b|b c z [Hb Hbc] Hcz IH]; intros -> Hne; [done|].
  destruct (join_other b c Hbc Hb) as (w & k & l & Hw & Hl & Ho & Ha & Hh & Hcb).
  assert (waits_map (wait_pairs st) !! b = Some (wt_resource w)) as Hwb.
  { apply wait_pairs_lookup; [done|]. by exists w. }
  assert (held_up (held_pairs st) b (wt_resource w) c) as Hup by (apply held_up_iff; by exists k, l).
  exists (wt_resource w). destruct (decide (c = X)) as [->|Hc].
  - exists [mkBlocked b (wt_resource w) X]. split; [done|]. by constructor.
  - destruct (IH eq_refl Hc) as (rc & path & Hwc & Hp). exists (mkBlocked b (wt_resource w) c :: path).
    split; [done|]. by eapply ring_step.
Qed.

Lemma no_ring_join :
  state_deadlock st X r = None → no_ring (c_leases st) q → no_ring (c_leases st) q'.
Proof.
  intros Hd Hno a Ha.
  destruct (tc_new_source _ _ X join_other a a Ha) as [Hold|[Hax Hxa]]; [by apply (Hno a)|].
  assert (tc (waits_on (c_leases st) q') X X) as Hx by by eapply tc_rtc_r.
  apply tc_first_return in Hx as (b & Hb & Hback). pose proof (deadlock_search X r (held_pairs st) (wait_pairs st)) as Hs.
  unfold state_deadlock in Hd. rewrite Hd in Hs. apply Hs.
  assert (b ≠ X) as Hne. { intros ->. by destruct Hb as (? & ? & ? & ? & ? & ? & ? & ? & ?). }
  destruct (way_back_ring b X Hback eq_refl Hne) as (rb & path & Hwb & Hp).
  exists (mkBlocked X r b :: path). eapply ring_step; [by apply join_own|done..].
Qed.
End Join.

(** *** What the writes leave alone *)

(** The same leases and queue; of the agents, only what is in their records. *)
Definition reg_kept (r r' : Registry) : Prop :=
  aliases r' = aliases r ∧ ∀ k, r_id <$> agents r' !! k = r_id <$> agents r !! k.

Lemma reg_kept_refl r : reg_kept r r.
Proof. done. Qed.
Lemma reg_kept_trans r1 r2 r3 : reg_kept r1 r2 → reg_kept r2 r3 → reg_kept r1 r3.
Proof. intros [Ha Hk] [Ha' Hk']. split; [congruence|]. intros k. by rewrite Hk', Hk. Qed.

Lemma canonical_kept r r' a : reg_kept r r' → canonical r a → canonical r' a.
Proof.
  intros [Ha Hk] [Hc Hr]. assert (Reg.canonical_id r' a = a) as Hc'.
  { unfold Reg.canonical_id in *. by rewrite Ha. }
  split; [done|]. intros record. unfold Reg.get in *. rewrite Hc'. rewrite Hc in Hr. intros E.
  specialize (Hk a). rewrite E in Hk. destruct (agents r !! a) as [old|]; [|done]. injection Hk as ->. by apply Hr.
Qed.

Lemma persist_frame st :
  c_leases (persist st).2 = c_leases st ∧ c_waiting (persist st).2 = c_waiting st
  ∧ c_registry (persist st).2 = c_registry st
  ∧ so_fenced (c_store (persist st).2) = so_fenced (c_store st)
  ∧ ((persist st).1 = Committed → so_fenced (c_store st) = false).
Proof. unfold persist. repeat case_match; simpl; split_and!; try done; congruence. Qed.

Lemma emit_frame st e :
  c_leases (emit st e) = c_leases st ∧ c_waiting (emit st e) = c_waiting st ∧ c_registry (emit st e) = c_registry st
  ∧ so_fenced (c_store (emit st e)) = so_fenced (c_store st).
Proof.
  pose proof (persist_frame st) as Hp. unfold emit, commit. destruct (persist st) as [[] st']; simpl in *; naive_solver.
Qed.

Lemma emits_frame {A} (f : A → ClaimEvent) l st :
  c_leases (foldl (λ st x, emit st (f x)) st l) = c_leases st
  ∧ c_waiting (foldl (λ st x, emit st (f x)) st l) = c_waiting st
  ∧ c_registry (foldl (λ st x, emit st (f x)) st l) = c_registry st
  ∧ so_fenced (c_store (foldl (λ st x, emit st (f x)) st l)) = so_fenced (c_store st).
Proof.
  revert st. induction l as [|x l IH]; intros st; simpl; [done|]. destruct (IH (emit st (f x))) as (-> & -> & -> & ->).
  apply emit_frame.
Qed.

Lemma set_record_kept st h old new :
  Reg.get (c_registry st) h = Some old → r_id new = r_id old → reg_kept (c_registry st) (c_registry (set_record st h new)).
Proof.
  unfold Reg.get, set_record, Reg.get_mut. simpl. intros E Hid. rewrite E. simpl. split; [done|]. intros k. simpl.
  destruct (decide (k = Reg.canonical_id (c_registry st) h)) as [->|Hne].
  - rewrite lookup_insert_eq, E. simpl. by rewrite Hid.
  - by rewrite lookup_insert_ne.
Qed.

Lemma commit_lease_activity_spec st h lease kind now b st' :
  commit_lease_activity st h lease kind now = (b, st') →
  c_waiting st' = c_waiting st ∧ reg_kept (c_registry st) (c_registry st')
  ∧ so_fenced (c_store st') = so_fenced (c_store st)
  ∧ if b then so_fenced (c_store st) = false
              ∧ c_leases st' = match lease with Some l => LeaseTable.restore (c_leases st) l | None => c_leases st end
    else c_leases st' = c_leases st.
Proof.
  unfold commit_lease_activity. destruct (Reg.get (c_registry st) h) as [record|] eqn:E; [|by intros [= <- <-]].
  pose proof (persist_frame st) as (Hl & Hw & Hr & Hf & Hc). unfold commit.
  destruct (persist st) as [p st1]; simpl in *. rewrite <-Hr in E.
  destruct p; intros [= <- <-]; [|by rewrite Hl, Hw, Hr, Hf..].
  assert (reg_kept (c_registry st) (c_registry (set_record st1 h
    (with_times record (r_started_at record) (r_finished_at record) now)))) as Hk.
  { rewrite <-Hr. by apply (set_record_kept st1 h record). }
  destruct lease; simpl in *; rewrite ?Hl, ?Hw; split_and!; auto.
Qed.

Lemma touch_agent_frame st h now :
  c_leases (touch_agent st h now) = c_leases st ∧ c_waiting (touch_agent st h now) = c_waiting st
  ∧ reg_kept (c_registry st) (c_registry (touch_agent st h now)).
Proof.
  unfold touch_agent. destruct (Reg.get (c_registry st) h) as [record|] eqn:E; [|done].
  pose proof (persist_frame st) as (Hl & Hw & Hr & _). destruct (persist st) as [[] st1]; simpl in *; [|by rewrite Hl, Hw, Hr..].
  split_and!; [done..|]. rewrite <-Hr in E |- *. by apply (set_record_kept st1 h record).
Qed.

Section WithOrder.
Context {HO : HashOrder string Lease}.

Lemma expire_leases_at_frame st now :
  c_waiting (expire_leases_at st now) = c_waiting st ∧ c_registry (expire_leases_at st now) = c_registry st
  ∧ so_fenced (c_store (expire_leases_at st now)) = so_fenced (c_store st)
  ∧ c_leases (expire_leases_at st now)
    = if so_fenced (c_store st) then c_leases st else (LeaseTable.expire (c_leases st) now).1.
Proof.
  unfold expire_leases_at. destruct (so_fenced (c_store st)) eqn:E; [done|].
  destruct (LeaseTable.expire (c_leases st) now) as [tb expired].
  destruct (emits_frame LeaseExpired expired (with_leases st tb)) as (-> & -> & -> & ->). done.
Qed.

(** What one hold may do to the table: leases it had stay or go, and what is
    new is for [h]. *)
Definition grows_for (h : string) (tb tb' : LeaseTable.t) : Prop :=
  ∀ k' l', LeaseTable.leases tb' !! k' = Some l' →
    (∃ k l, LeaseTable.leases tb !! k = Some l ∧ resource l = resource l' ∧ holder l = holder l') ∨ holder l' = h.

Lemma grows_sub h tb tb' :
  (∀ k l, LeaseTable.leases tb' !! k = Some l → LeaseTable.leases tb !! k = Some l) → grows_for h tb tb'.
Proof. intros Hs k l Hl. left. exists k, l. by split; [apply Hs|]. Qed.

Lemma grows_restore h tb tb1 l :
  (∀ k l, LeaseTable.leases tb1 !! k = Some l → LeaseTable.leases tb !! k = Some l) → holder l = h →
  grows_for h tb (LeaseTable.restore tb1 l).
Proof.
  intros Hs Hh k l'. unfold LeaseTable.restore. simpl. rewrite lookup_insert_Some. intros [[_ <-]|[_ Hl]].
  - by right.
  - left. exists k, l'. by split; [apply Hs|].
Qed.

Lemma expired_sub st now k l :
  LeaseFacts.wf (c_leases st) →
  LeaseTable.leases (c_leases (expire_leases_at st now)) !! k = Some l → LeaseTable.leases (c_leases st) !! k = Some l.
Proof.
  intros Hwf. destruct (expire_leases_at_frame st now) as (_ & _ & _ & ->). destruct (so_fenced _); [done|].
  intros [? _]%LeaseFacts.lookup_expire; [done|apply Hwf].
Qed.

Lemma expired_wf st now : LeaseFacts.wf (c_leases st) → LeaseFacts.wf (c_leases (expire_leases_at st now)).
Proof. intros Hwf. eapply LeaseFacts.wf_subset; [|done]. intros k l. by apply expired_sub. Qed.

Lemma expired_gone st now k l :
  LeaseFacts.wf (c_leases st) → so_fenced (c_store st) = false →
  LeaseTable.leases (c_leases (expire_leases_at st now)) !! k = Some l → (now < expires_at l)%Z.
Proof.
  intros Hwf Hf. destruct (expire_leases_at_frame st now) as (_ & _ & _ & ->). rewrite Hf.
  by intros [_ ?]%LeaseFacts.lookup_expire; [|apply Hwf].
Qed.

(** Keeping the lease a claim was granted, in a table with nothing expired. *)
Lemma restore_claimed tb h args env c :
  LeaseFacts.wf tb → LeaseTable.leases tb !! ae_fresh env = None →
  (∀ k l, LeaseTable.leases tb !! k = Some l → (ae_now env < expires_at l)%Z) →
  (LeaseTable.claim_as tb (claim_request h args) (ae_fresh env) (ae_now env)).2 = Ok c →
  LeaseFacts.wf (LeaseTable.restore tb (kept_lease c args env)) ∧ holder (kept_lease c args env) = h.
Proof.
  intros Hwf Hfresh Hlive.
  destruct (LeaseFacts.claim_as_outcome tb (claim_request h args) (ae_fresh env) (ae_now env) (proj1 Hwf))
    as [k l Hl He Ho|Hnone Hun|held Hno]; intros [= <-].
  - assert (id l = k) as <- by by apply Hwf. split; [|by destruct Ho].
    apply (LeaseFacts.wf_update tb (id l) l); done.
  - split; [|done]. apply (LeaseFacts.wf_insert tb (kept_lease (New (LeaseFacts.fresh_lease (claim_request h args)
      (ae_fresh env) (ae_now env))) args env)); [done|].
    intros k b Hne Hb. apply LeaseFacts.compatible_sym, LeaseFacts.blocks_false. apply (Hun k b Hb). by eapply Hlive.
Qed.

Lemma grant_spec st h c args env st' answer :
  LeaseFacts.wf (c_leases st) → LeaseTable.leases (c_leases st) !! ae_fresh env = None →
  (so_fenced (c_store st) = false →
     ∀ k l, LeaseTable.leases (c_leases st) !! k = Some l → (ae_now env < expires_at l)%Z) →
  (LeaseTable.claim_as (c_leases st) (claim_request h args) (ae_fresh env) (ae_now env)).2 = Ok c →
  grant st h c args env = (st', answer) →
  c_waiting st' = c_waiting st ∧ reg_kept (c_registry st) (c_registry st')
  ∧ LeaseFacts.wf (c_leases st') ∧ grows_for h (c_leases st) (c_leases st').
Proof.
  intros Hwf Hfresh Hlive Hc. unfold grant. destruct (commit_lease_activity _ _ _ _ _) as [b st1] eqn:E.
  apply commit_lease_activity_spec in E as (Hw & Hr & Hf & Hl). intros [= <- _]. split_and!; [done..| |].
  - destruct b; [|by rewrite Hl]. destruct Hl as [Hnf ->]. by apply (restore_claimed _ h); [..|apply Hlive|].
  - destruct b; [|rewrite Hl; by apply grows_sub]. destruct Hl as [Hnf ->]. apply grows_restore; [done|].
    by apply (restore_claimed (c_leases st)); [..|apply Hlive|].
Qed.

(** *** Breaking rings *)

Lemma take_out_is_Some ws w : w ∈ ws → is_Some (take_out (wt_ticket w) ws).
Proof.
  induction ws as [|y ws IH]; intros Hw; simpl; [by apply not_elem_of_nil in Hw|].
  destruct (Z.eqb_spec (wt_ticket y) (wt_ticket w)); [done|]. apply elem_of_cons in Hw as [->|Hw]; [done|].
  destruct (IH Hw) as [[] ->]. done.
Qed.

Definition broke (q q' : WaitQueue) : Prop := rtc (λ q q', ∃ t c, q' = (break_ring q t c).1) q q'.

Lemma break_rings_spec turns st X r priority :
  (length (q_waiters (c_waiting st)) < turns)%nat →
  ∃ out st', break_rings_within turns st X r priority = Some (out, st')
             ∧ c_leases st' = c_leases st ∧ c_registry st' = c_registry st
             ∧ broke (c_waiting st) (c_waiting st')
             ∧ (out = None → state_deadlock st' X r = None).
Proof.
  revert st. induction turns as [|turns IH]; intros st Hlen; [lia|]. cbn [break_rings_within].
  destruct (state_deadlock st X r) as [cycle|] eqn:Ed.
  2:{ exists None, st. split_and!; try done. apply rtc_refl. }
  destruct (victim_queued cycle priority (q_waiters (c_waiting st))) as (v & -> & Hv).
  destruct (vi_ticket v) as [t|] eqn:Et.
  2:{ simpl. eexists (Some cycle), _. split; [done|]. destruct (emit_frame st (LeaseDeadlock cycle (cycle !! 0%nat))) as (-> & -> & -> & _).
      split_and!; try done. apply rtc_refl. }
  destruct (Hv t eq_refl) as (w & Hw & Hwt). unfold break_ring.
  destruct (take_out_is_Some (q_waiters (c_waiting st)) w Hw) as [[x rest] Ex]. rewrite Hwt in Ex. rewrite Ex.
  simpl. set (st1 := with_waiting st _).
  destruct (emit_frame st1 (LeaseDeadlock cycle (cycle !! vi_step v))) as (Hl1 & Hw1 & Hr1 & _).
  set (st2 := emit st1 (LeaseDeadlock cycle (cycle !! vi_step v))) in *.
  destruct (emit_frame st2 (LeaseWaitEnded (wt_resource x) (wt_agent x) WDeadlock)) as (Hl2 & Hw2 & Hr2 & _).
  assert (Hsmall : (length rest < length (q_waiters (c_waiting st)))%nat).
  { apply take_out_Some in Ex as (_ & l & r' & -> & ->). rewrite !length_app. simpl. lia. }
  destruct (IH (emit st2 (LeaseWaitEnded (wt_resource x) (wt_agent x) WDeadlock))) as (out & st' & -> & Hl & Hr & Hb & Ho).
  { rewrite Hw2, Hw1. simpl. lia. }
  exists out, st'. rewrite Hl, Hr, Hl2, Hr2, Hl1, Hr1. split_and!; try done. eapply rtc_l; [|done].
  exists t, cycle. rewrite Hw2, Hw1. unfold break_ring. by rewrite Ex.
Qed.
End WithOrder.

(** *** Places *)

(** The tickets of a queue: those that wait, and those ended to break a ring
    whose claims have not been told yet. *)
Definition places (q : WaitQueue) : gset Z := list_to_set (wt_ticket <$> q_waiters q) ∪ dom (q_broken q).
Definition own (w : Waiting) : gset Z := match wg_ticket w with Some t => {[ t ]} | None => ∅ end.

Lemma elem_of_places q t :
  t ∈ places q ↔ (∃ w, w ∈ q_waiters q ∧ wt_ticket w = t) ∨ is_Some (q_broken q !! t).
Proof. unfold places. rewrite elem_of_union, elem_of_list_to_set, list_elem_of_fmap, elem_of_dom. naive_solver. Qed.

Lemma places_leave q t : queue_wf q → places (queue_leave q t).1 = places q ∖ {[ t ]}.
Proof.
  intros (_ & Hnd & _). unfold queue_leave. destruct (take_out t (q_waiters q)) as [[w rest]|] eqn:E; unfold places; simpl.
  - apply take_out_Some in E as (<- & l & r & Eq & ->). rewrite Eq in *. rewrite fmap_app, fmap_cons in *.
    apply NoDup_app in Hnd as (_ & H2 & H3). apply NoDup_cons in H3 as [H3 _]. rewrite dom_delete_L. set_solver.
  - assert (t ∉ wt_ticket <$> q_waiters q).
    { intros (w & -> & Hw)%list_elem_of_fmap. apply take_out_is_Some in Hw as [? ?]. congruence. }
    rewrite dom_delete_L. set_solver.
Qed.

Lemma places_break q t c : places (break_ring q t c).1 = places q.
Proof.
  unfold break_ring. destruct (take_out t (q_waiters q)) as [[w rest]|] eqn:E; unfold places; simpl; [|done].
  apply take_out_Some in E as (<- & l & r & -> & ->). rewrite !fmap_app, fmap_cons, dom_insert_L. set_solver.
Qed.

Lemma places_join q a r m p now : places (queue_join q a r m p now).1 = {[ q_next_ticket q ]} ∪ places q.
Proof. unfold queue_join, places. simpl. rewrite insert_waiter_perm. csimpl. set_solver. Qed.

Lemma leave_sub q t : q_waiters (queue_leave q t).1 ⊆ q_waiters q.
Proof.
  unfold queue_leave. destruct (take_out t (q_waiters q)) as [[w rest]|] eqn:E; simpl; [|done].
  apply take_out_Some in E as (_ & l & r & -> & ->). set_solver.
Qed.

Lemma left_gone q w t : queue_wf q → w ∈ q_waiters (queue_leave q t).1 → wt_ticket w ≠ t.
Proof.
  intros Hwf Hw <-. pose proof (places_leave q (wt_ticket w) Hwf) as Hp.
  assert (wt_ticket w ∈ places (queue_leave q (wt_ticket w)).1) as Hin by (apply elem_of_places; left; by exists w).
  rewrite Hp in Hin. set_solver.
Qed.

Lemma leave_wf q t : queue_wf q → queue_wf (queue_leave q t).1.
Proof. apply queue_step_wf, step_leave. Qed.

Lemma broke_facts q q' :
  broke q q' → queue_wf q →
  queue_wf q' ∧ places q' = places q ∧ q_waiters q' ⊆ q_waiters q ∧ q_next_ticket q' = q_next_ticket q
  ∧ (one_wait_each q → one_wait_each q').
Proof.
  induction 1 as [q|q1 q2 q3 (t & c & ->) _ IH]; intros Hwf; [done|].
  destruct IH as (Hwf' & Hp & Hs & Hn & Ho); [by eapply queue_step_wf; [apply step_break|]|].
  assert (q_waiters (break_ring q1 t c).1 ⊆ q_waiters q1 ∧ q_next_ticket (break_ring q1 t c).1 = q_next_ticket q1
          ∧ (one_wait_each q1 → one_wait_each (break_ring q1 t c).1)) as (Hs1 & Hn1 & Ho1).
  { unfold break_ring. destruct (take_out t (q_waiters q1)) as [[w rest]|] eqn:E; simpl; [|done].
    apply take_out_Some in E as (_ & l & r & Eq & ->). unfold one_wait_each. rewrite Eq. split_and!; [set_solver|done|].
    simpl. rewrite !fmap_app, fmap_cons. intros (H1 & H2 & H3)%NoDup_app. apply NoDup_cons in H3 as [H3 H4].
    apply NoDup_app. split_and!; [done| |done]. set_solver. }
  rewrite places_break in Hp. split_and!; [done|done|set_solver|congruence|auto].
Qed.

(** *** What one hold of a claim does *)

Record held_on (st : State) (w : Waiting) (st' : State) (w' : Waiting) : Prop := {
  ho_leases : LeaseFacts.wf (c_leases st');
  ho_queue : queue_wf (c_waiting st');
  ho_no_ring : no_ring (c_leases st') (c_waiting st');
  ho_registry : reg_kept (c_registry st) (c_registry st');
  ho_same : wg_requester w' = wg_requester w ∧ wg_resource w' = wg_resource w;
  ho_places : places (c_waiting st') = places (c_waiting st) ∖ own w ∪ own w';
  ho_own : own w' ⊆ own w ∨ own w' = {[ q_next_ticket (c_waiting st) ]};
  ho_waiters : ∀ x, x ∈ q_waiters (c_waiting st') →
    x ∈ q_waiters (c_waiting st)
    ∨ (wg_ticket w' = Some (wt_ticket x) ∧ wt_agent x = wg_requester w ∧ wt_resource x = wg_resource w);
}.

(** A claim that holds the lock, in a state where all is well. *)
Record ready (st : State) (w : Waiting) (X : string) : Prop := {
  rd_leases : LeaseFacts.wf (c_leases st);
  rd_queue : queue_wf (c_waiting st);
  rd_no_ring : no_ring (c_leases st) (c_waiting st);
  rd_one : one_wait_each (c_waiting st);
  rd_canonical : canonical (c_registry st) X;
  rd_requester : wg_requester w = X;
  rd_own : own w ⊆ places (c_waiting st);
  rd_mine : ∀ x, x ∈ q_waiters (c_waiting st) → wt_agent x = X → wg_ticket w = Some (wt_ticket x);
}.

(** What the hold has done so far: nothing to the queue, and to the leases
    what [grows_for] says. *)
Record so_far (st : State) (X : string) (st' : State) : Prop := {
  sf_waiting : c_waiting st' = c_waiting st;
  sf_registry : reg_kept (c_registry st) (c_registry st');
  sf_leases : LeaseFacts.wf (c_leases st');
  sf_grows : grows_for X (c_leases st) (c_leases st');
}.

Lemma end_locked_frame w st outcome :
  let '(w', st') := end_locked w st outcome in
  wg_ticket w' = None ∧ wg_requester w' = wg_requester w ∧ wg_resource w' = wg_resource w
  ∧ c_leases st' = c_leases st ∧ c_registry st' = c_registry st
  ∧ c_waiting st' = match wg_ticket w with Some t => (queue_leave (c_waiting st) t).1 | None => c_waiting st end.
Proof.
  unfold end_locked. destruct (wg_ticket w) as [t|] eqn:E; [|done].
  destruct (queue_leave (c_waiting st) t) as [q []]; simpl; [|done].
  destruct (emit_frame (with_waiting st q) (LeaseWaitEnded (wg_resource w) (wg_requester w) outcome)) as (-> & -> & -> & _).
  done.
Qed.

Lemma no_ring_so_far st w X st' q' :
  ready st w X → so_far st X st' → q_waiters q' ⊆ q_waiters (c_waiting st) → ¬ waits_in q' X →
  no_ring (c_leases st') q'.
Proof.
  intros Hrd Hsf Hs Hx. eapply (no_ring_covered (c_leases st)); [|done|apply Hrd]. intros k l Hkl.
  destruct (sf_grows _ _ _ Hsf k l Hkl) as [?| ->]; [by left|by right].
Qed.

(** The place is given up. *)
Lemma given_up st w X st' w' st'' :
  ready st w X → so_far st X st' →
  wg_ticket w' = None → wg_requester w' = wg_requester w → wg_resource w' = wg_resource w →
  c_leases st'' = c_leases st' → c_registry st'' = c_registry st' →
  c_waiting st'' = match wg_ticket w with Some t => (queue_leave (c_waiting st') t).1 | None => c_waiting st' end →
  held_on st w st'' w'.
Proof.
  intros Hrd Hsf Ht Hr Hs El Er Ew. rewrite (sf_waiting _ _ _ Hsf) in Ew.
  assert (q_waiters (c_waiting st'') ⊆ q_waiters (c_waiting st) ∧ queue_wf (c_waiting st'')
          ∧ places (c_waiting st'') = places (c_waiting st) ∖ own w ∧ ¬ waits_in (c_waiting st'') X) as (Hsub & Hq & Hp & Hx).
  { pose proof (rd_queue _ _ _ Hrd) as Hq. rewrite Ew. unfold own. destruct (wg_ticket w) as [t|] eqn:E.
    - split_and!; [apply leave_sub|by apply leave_wf|by apply places_leave|].
      intros (x & Hx & Ha). pose proof (left_gone _ _ _ Hq Hx). apply leave_sub in Hx.
      pose proof (rd_mine _ _ _ Hrd x Hx Ha). congruence.
    - split_and!; [done|done|set_solver|]. intros (x & Hx & Ha). pose proof (rd_mine _ _ _ Hrd x Hx Ha). congruence. }
  split; rewrite ?El, ?Er; [apply Hsf|done| |apply Hsf|done| | |].
  - by apply (no_ring_so_far st w X).
  - assert (own w' = ∅) as -> by (unfold own; by rewrite Ht). rewrite Hp. set_solver.
  - left. assert (own w' = ∅) as -> by (unfold own; by rewrite Ht). set_solver.
  - intros x Hin. left. by apply Hsub.
Qed.

(** The claim keeps its place, or its lack of one. *)
Lemma place_kept st w X st' :
  ready st w X → so_far st X st' →
  (∀ k l, LeaseTable.leases (c_leases st') !! k = Some l → LeaseTable.leases (c_leases st) !! k = Some l) →
  held_on st w st' w.
Proof.
  intros Hrd Hsf Hsub. split; rewrite ?(sf_waiting _ _ _ Hsf); [apply Hsf|apply Hrd| |apply Hsf|done| | |].
  - eapply no_ring_covered; [by apply covered_sub|done|apply Hrd].
  - pose proof (rd_own _ _ _ Hrd). apply set_eq. intros t. rewrite elem_of_union, elem_of_difference.
    destruct (decide (t ∈ own w)); set_solver.
  - by left.
  - by left.
Qed.

Definition table_sub (tb tb' : LeaseTable.t) : Prop :=
  ∀ k l, LeaseTable.leases tb' !! k = Some l → LeaseTable.leases tb !! k = Some l.

Section Attempts.
Context {HO : HashOrder string Lease}.

(** A claim without a place that breaks rings, and then is refused or joins. *)
Lemma rings_broken st w X st1 st2 :
  ready st w X → so_far st X st1 → table_sub (c_leases st) (c_leases st1) → wg_ticket w = None →
  c_leases st2 = c_leases st1 → c_registry st2 = c_registry st1 → broke (c_waiting st1) (c_waiting st2) →
  held_on st w st2 w ∧ one_wait_each (c_waiting st2) ∧ ¬ waits_in (c_waiting st2) X
  ∧ q_next_ticket (c_waiting st2) = q_next_ticket (c_waiting st).
Proof.
  intros Hrd Hsf Hsub Ht El Er Hb. rewrite (sf_waiting _ _ _ Hsf) in Hb.
  destruct (broke_facts _ _ Hb (rd_queue _ _ _ Hrd)) as (Hq & Hp & Hs & Hn & Ho).
  assert (own w = ∅) as How by (unfold own; by rewrite Ht).
  split_and!; [|apply Ho, Hrd| |done].
  - split; rewrite ?El, ?Er; [apply Hsf|done| |apply Hsf|done| |by left|].
    + eapply no_ring_covered; [by apply covered_sub|done|apply Hrd].
    + rewrite Hp, How. set_solver.
    + intros x Hx. left. by apply Hs.
  - intros (x & Hx & Ha). apply Hs in Hx. pose proof (rd_mine _ _ _ Hrd x Hx Ha). congruence.
Qed.

Lemma join_locked_frame w st m p now :
  wg_ticket w = None →
  (join_locked w st m p now).1 = mkWaiting (Some (q_next_ticket (c_waiting st))) (wg_resource w) (wg_requester w)
  ∧ c_waiting (join_locked w st m p now).2 = (queue_join (c_waiting st) (wg_requester w) (wg_resource w) m p now).1
  ∧ c_leases (join_locked w st m p now).2 = c_leases st ∧ c_registry (join_locked w st m p now).2 = c_registry st.
Proof.
  intros Ht. unfold join_locked. rewrite Ht. simpl. split; [done|].
  match goal with |- context [emit ?s ?e] => destruct (emit_frame s e) as (-> & -> & -> & _) end. done.
Qed.

Lemma joined st w X st2 m p now :
  ready st w X → held_on st w st2 w → one_wait_each (c_waiting st2) → ¬ waits_in (c_waiting st2) X →
  wg_ticket w = None → q_next_ticket (c_waiting st2) = q_next_ticket (c_waiting st) →
  (q_next_ticket (c_waiting st) + 1 < 2 ^ 64)%Z → state_deadlock st2 X (wg_resource w) = None →
  held_on st w (join_locked w st2 m p now).2 (join_locked w st2 m p now).1.
Proof.
  intros Hrd Hh Hone Hx Ht Hn Hlt Hd. destruct (join_locked_frame w st2 m p now Ht) as (Ew & Eq & El & Er).
  pose proof (rd_requester _ _ _ Hrd) as Hreq. rewrite Hreq in *.
  assert (own w = ∅) as How by (unfold own; by rewrite Ht).
  split; rewrite ?El, ?Er, ?Ew, ?Eq; [apply Hh| | |apply Hh|by split| | |].
  - apply queue_join_wf; [apply Hh|]. by rewrite Hn.
  - apply no_ring_join; [done..|apply Hh].
  - rewrite places_join, (ho_places _ _ _ _ Hh), How. unfold own. simpl. set_solver.
  - right. unfold own. simpl. by rewrite Hn.
  - intros x [->|Hin]%elem_of_join; [right; simpl; by split_and!|].
    destruct (ho_waiters _ _ _ _ Hh x Hin) as [?|(E & _)]; [by left|congruence].
Qed.

Lemma admit_attempt_spec a env X a' o :
  canonical (c_registry (at_state a)) X → at_holder a = X → LeaseFacts.wf (c_leases (at_state a)) →
  admit_attempt a env = (a', o) →
  at_waiting a' = at_waiting a ∧ at_holder a' = X
  ∧ (at_state a' = at_state a ∧ is_Some o ∨ at_state a' = expire_leases_at (at_state a) (ae_now env)).
Proof.
  intros [_ Hid] <- Hwf. unfold admit_attempt. destruct (Reg.get _ _) as [record|] eqn:E; [|intros [= <- <-]; eauto].
  destruct (r_status record != Running); [intros [= <- <-]; eauto|].
  rewrite (Hid record eq_refl), (proj2 (eqb_true _ _) eq_refl). simpl.
  destruct (write_failure (at_state a)); [intros [= <- <-]; eauto|].
  destruct (ae_pause env); intros [= <- <-]; eauto.
Qed.

Lemma expired_so_far st w X now : ready st w X → so_far st X (expire_leases_at st now).
Proof.
  intros Hrd. destruct (expire_leases_at_frame st now) as (Hw & Hr & _ & _). split; [done|by rewrite Hr| |].
  - apply expired_wf, Hrd.
  - apply grows_sub. intros k l. apply expired_sub, Hrd.
Qed.

Lemma so_far_refl st w X : ready st w X → so_far st X st.
Proof. intros Hrd. split; [done|done|apply Hrd|by apply grows_sub]. Qed.

Lemma quota_attempt_spec st X args env st' o :
  quota_attempt st X args env = (st', o) →
  c_waiting st' = c_waiting st ∧ c_leases st' = c_leases st ∧ reg_kept (c_registry st) (c_registry st')
  ∧ (o = None → st' = st).
Proof.
  unfold quota_attempt. destruct (_ != _); [by intros [= <- <-]|]. destruct (ae_capacity env); [|by intros [= <- <-]].
  destruct (_ <=? _)%Z; [by intros [= <- <-]|]. destruct (touch_agent_frame st X (ae_now env)) as (H1 & H2 & H3).
  destruct (write_failure _); by intros [= <- <-].
Qed.

Lemma so_far_trans st X st1 st2 :
  so_far st X st1 → c_waiting st2 = c_waiting st1 → c_leases st2 = c_leases st1 →
  reg_kept (c_registry st1) (c_registry st2) → so_far st X st2.
Proof.
  intros [Hw Hr Hl Hg] Ew El Er. split; rewrite ?Ew, ?El; [done| |done|done]. by eapply reg_kept_trans.
Qed.

(** A conflict met by a claim that has asked the table. *)
Lemma meet_conflict_effect st w X a args env held_by a' d :
  ready st w X → so_far st X (at_state a) → table_sub (c_leases st) (c_leases (at_state a)) →
  at_waiting a = w → at_holder a = X → wg_resource w = ca_resource args →
  (q_next_ticket (c_waiting st) + 1 < 2 ^ 64)%Z → (is_Some (wg_ticket w) → (0 < ca_wait_secs args)%Z) →
  meet_conflict a args env held_by = (a', d) →
  at_holder a' = X
  ∧ match d with
    | Ok _ => held_on st w (at_state a') (at_waiting a')
              ∧ (is_Some (wg_ticket (at_waiting a')) → (0 < ca_wait_secs args)%Z)
    | Err (answer, _) =>
        at_waiting a' = w ∧ answer ≠ AnsPanic
        ∧ (so_far st X (at_state a') ∨ wg_ticket w = None ∧ held_on st w (at_state a') w)
    end.
Proof.
  intros Hrd Hsf Hsub <- <- Hres Hlt Hwait. unfold meet_conflict.
  destruct (commit_lease_activity _ _ _ _ _) as [kept st1] eqn:E. apply commit_lease_activity_spec in E as (Ew & Er & _ & El).
  assert (c_leases st1 = c_leases (at_state a)) as El1 by (destruct kept; naive_solver).
  assert (so_far st (at_holder a) st1) as Hsf1 by by eapply so_far_trans.
  destruct kept; simpl; [|intros [= <- <-]; simpl; split_and!; try done; by left].
  destruct (Z.ltb_spec 0 (ca_wait_secs args)) as [Hpos|Hz]; simpl.
  2:{ intros [= <- <-]. simpl. split_and!; [done| |done]. apply (place_kept st _ (at_holder a)); [done..|]. by rewrite El1. }
  destruct (wg_ticket (at_waiting a)) as [t|] eqn:Et; simpl.
  { intros [= <- <-]. simpl. split_and!; [done| |done]. apply (place_kept st _ (at_holder a)); [done..|]. by rewrite El1. }
  destruct (break_rings_spec (S (length (q_waiters (c_waiting st1)))) st1 (at_holder a) (ca_resource args) (ca_priority args))
    as (out & st2 & Hb & El2 & Er2 & Hbr & Hout); [lia|].
  unfold break_rings. rewrite Hb.
  destruct (rings_broken st (at_waiting a) (at_holder a) st1 st2) as (Hh & Hone & Hx & Hn); [done|done|by rewrite El1|done..|].
  destruct out as [cycle|].
  - intros [= <- <-]. simpl. split_and!; try done. right. split; [done|]. unfold never_started.
    destruct (emit_frame st2 (LeaseWaitEnded (wg_resource (at_waiting a)) (wg_requester (at_waiting a)) WDeadlock)) as (F1 & F2 & F3 & _).
    destruct Hh. by split; rewrite ?F1, ?F2, ?F3.
  - destruct (join_locked (at_waiting a) st2 _ _ _) as [w' st3] eqn:Ej. intros [= <- <-]. simpl. split_and!; [done| |done].
    pose proof (joined st (at_waiting a) (at_holder a) st2 (ca_mode args) (ca_priority args) (ae_now env)) as Hj.
    rewrite Ej in Hj. apply Hj; try done. rewrite Hres. by apply Hout.
Qed.

(** What the labelled block leaves. *)
Definition decided (st : State) (w : Waiting) (X : string) (args : ClaimArgs) (a' : Attempt) (d : AttemptDecision) : Prop :=
  at_holder a' = X
  ∧ match d with
    | Ok _ => held_on st w (at_state a') (at_waiting a')
              ∧ (is_Some (wg_ticket (at_waiting a')) → (0 < ca_wait_secs args)%Z)
    | Err (answer, _) =>
        at_waiting a' = w ∧ answer ≠ AnsPanic
        ∧ (so_far st X (at_state a') ∨ wg_ticket w = None ∧ held_on st w (at_state a') w)
    end.

Record well_asked (st : State) (w : Waiting) (args : ClaimArgs) (env : AttemptEnv) : Prop := {
  wa_resource : wg_resource w = ca_resource args;
  wa_fresh : LeaseTable.get (c_leases st) (ae_fresh env) = None;
  wa_tickets : (q_next_ticket (c_waiting st) + 1 < 2 ^ 64)%Z;
  wa_waits : is_Some (wg_ticket w) → (0 < ca_wait_secs args)%Z;
}.

(** The table is asked once what has expired is gone. *)
Lemma grant_so_far st w X args env c st3 answer :
  let st1 := expire_leases_at st (ae_now env) in
  ready st w X → well_asked st w args env → ask_table st1 (wg_ticket w) X args env = Ok c →
  grant st1 X c args env = (st3, answer) → so_far st X st3.
Proof.
  intros st1 Hrd Hask Et Eg. pose proof (expired_so_far st w X (ae_now env) Hrd) as Hsf1. fold st1 in Hsf1.
  assert (table_sub (c_leases st) (c_leases st1)) as Hsub by (intros k l; apply expired_sub, Hrd).
  assert (LeaseTable.leases (c_leases st1) !! ae_fresh env = None) as Hfresh.
  { apply eq_None_not_Some. intros [l Hl%Hsub]. pose proof (wa_fresh _ _ _ _ Hask) as Hf. unfold LeaseTable.get in Hf. congruence. }
  assert (so_fenced (c_store st1) = false →
    ∀ k l, LeaseTable.leases (c_leases st1) !! k = Some l → (ae_now env < expires_at l)%Z) as Hlive.
  { destruct (expire_leases_at_frame st (ae_now env)) as (_ & _ & Hff & _). unfold st1. rewrite Hff.
    intros Hf k l. apply expired_gone; [apply Hrd|done]. }
  unfold ask_table in Et. destruct (may_attempt _ _); [|done].
  destruct (grant_spec _ _ _ _ _ _ _ (sf_leases _ _ _ Hsf1) Hfresh Hlive Et Eg) as (Ew & Er & Hwf & Hg).
  split; [rewrite Ew; apply Hsf1|eapply reg_kept_trans; [apply Hsf1|done]|done|].
  intros k l Hl. destruct (Hg k l Hl) as [(k0 & l0 & Hl0 & E1 & E2)|?]; [|by right].
  left. exists k0, l0. by split; [apply Hsub|].
Qed.

Lemma ask_table_error st ticket X args env e :
  LeaseFacts.wf (c_leases st) → ask_table st ticket X args env = Err e → ∃ r held_by, e = Conflict r held_by.
Proof.
  intros Hwf. unfold ask_table. destruct (may_attempt _ _); [|intros [= <-]; eauto].
  destruct (LeaseFacts.claim_as_outcome (c_leases st) (claim_request X args) (ae_fresh env) (ae_now env) (proj1 Hwf));
    intros; simplify_eq/=; eauto.
Qed.

Lemma decide_attempt_effect a args env X a' d :
  ready (at_state a) (at_waiting a) X → well_asked (at_state a) (at_waiting a) args env → at_holder a = X →
  decide_attempt a args env = (a', d) → decided (at_state a) (at_waiting a) X args a' d.
Proof.
  intros Hrd Hask HX. unfold decide_attempt. destruct (admit_attempt a env) as [a1 o] eqn:Ea.
  destruct (admit_attempt_spec a env X a1 o) as (Hw1 & HX1 & Hst1); [apply Hrd|done|apply Hrd|done|].
  assert (so_far (at_state a) X (at_state a1)) as Hsf1.
  { destruct Hst1 as [[-> _]| ->]; [by eapply so_far_refl|by eapply expired_so_far]. }
  destruct o as [answer|].
  { intros [= <- <-]. split; [done|]. split_and!; [done| |by left].
    unfold admit_attempt in Ea. repeat case_match; by simplify_eq. }
  destruct Hst1 as [[_ [? [=]]]|Hst1].
  destruct (quota_attempt (at_state a1) (at_holder a1) args env) as [st2 o] eqn:Eq.
  destruct (quota_attempt_spec _ _ _ _ _ _ Eq) as (Ew2 & El2 & Er2 & Hsame).
  destruct o as [answer|].
  { intros [= <- <-]. simpl. split; [done|]. split_and!; [done| |left; by eapply so_far_trans].
    unfold quota_attempt in Eq. repeat case_match; by simplify_eq. }
  rewrite (Hsame eq_refl). cbn [at_waiting at_holder at_state]. rewrite HX1, Hw1. destruct (ask_table _ _ _ _ _) as [c|e] eqn:Et.
  - destruct (grant (at_state a1) X c args env) as [st3 answer] eqn:Eg. intros [= <- <-].
    split; [done|]. simpl. split_and!; [done| |].
    { unfold grant in Eg. repeat case_match; by simplify_eq. }
    left. rewrite Hst1 in Et, Eg. by eapply grant_so_far.
  - destruct (ask_table_error _ _ _ _ _ _ (sf_leases _ _ _ Hsf1) Et) as (r & held_by & ->). intros Hm.
    eapply (meet_conflict_effect (at_state a) (at_waiting a) X); [done| | | | | | | |done]; try done; try apply Hask.
    simpl. rewrite Hst1. intros k l. apply expired_sub, Hrd.
Qed.

(** The whole hold of an attempt. *)
Lemma claim_attempt_effect a args env X a' d :
  ready (at_state a) (at_waiting a) X → well_asked (at_state a) (at_waiting a) args env → at_holder a = X →
  claim_attempt a args env = (a', d) →
  at_holder a' = X ∧ held_on (at_state a) (at_waiting a) (at_state a') (at_waiting a')
  ∧ match d with
    | Ok _ => is_Some (wg_ticket (at_waiting a')) → (0 < ca_wait_secs args)%Z
    | Err answer => wg_ticket (at_waiting a') = None ∧ answer ≠ AnsPanic
    end.
Proof.
  intros Hrd Hask HX. unfold claim_attempt. destruct (waiting_deadlocked _ _) as [[cycle [w st]]|] eqn:Ed.
  { intros [= <- <-]. simpl. unfold waiting_deadlocked in Ed. destruct (wg_ticket (at_waiting a)) as [t|] eqn:Et; [|done].
    destruct (deadlocked _ t); [|done]. injection Ed as <- <- <-. split_and!; [done| |done|done].
    eapply (given_up _ _ X (at_state a)); try done; [by eapply so_far_refl|]. by rewrite Et. }
  destruct (decide_attempt a args env) as [a1 d1] eqn:E. apply (decide_attempt_effect _ _ _ X) in E as [HX1 Hd]; [|done..].
  destruct d1 as [conflict|[answer outcome]].
  - intros [= <- <-]. destruct Hd as [Hh Hwait]. split_and!; [done|done|].
    destruct (Z.eqb_spec (ca_wait_secs args) 0) as [Hz|Hz]; [|done]. split; [|done].
    destruct (wg_ticket (at_waiting a1)); [|done]. specialize (Hwait ltac:(done)). lia.
  - destruct Hd as (Hw & Hp & Hd). pose proof (end_locked_frame (at_waiting a1) (at_state a1) outcome) as Hf.
    destruct (end_locked _ _ _) as [w st]. intros [= <- <-]. simpl. destruct Hf as (Ht & Hr & Hs & El & Er & Ew).
    split_and!; [done| |done|done]. rewrite Hw in *. destruct Hd as [Hsf|[Hnone Hh]].
    + by eapply (given_up _ _ X (at_state a1)).
    + rewrite Hnone in Ew. destruct Hh. assert (w = at_waiting a) as ->.
      { destruct w, (at_waiting a); by simplify_eq/=. }
      by split; rewrite ?El, ?Er, ?Ew.
Qed.

Lemma claim_wake_effect a args conflict woke readmitted X a' o :
  ready (at_state a) (at_waiting a) X → at_holder a = X →
  claim_wake a args conflict woke readmitted = (a', o) →
  at_holder a' = X ∧ held_on (at_state a) (at_waiting a) (at_state a') (at_waiting a')
  ∧ match o with None => a' = a | Some _ => wg_ticket (at_waiting a') = None end.
Proof.
  intros Hrd HX. unfold claim_wake. destruct (waiting_deadlocked _ _) as [[cycle [w st]]|] eqn:Ed.
  { intros [= <- <-]. simpl. unfold waiting_deadlocked in Ed. destruct (wg_ticket (at_waiting a)) as [t|] eqn:Et; [|done].
    destruct (deadlocked _ t); [|done]. injection Ed as <- <- <-. split_and!; [done| |done].
    eapply (given_up _ _ X (at_state a)); try done; [by eapply so_far_refl|]. by rewrite Et. }
  assert (∀ outcome, held_on (at_state a) (at_waiting a) (end_locked (at_waiting a) (at_state a) outcome).2
            (end_locked (at_waiting a) (at_state a) outcome).1
          ∧ wg_ticket (end_locked (at_waiting a) (at_state a) outcome).1 = None) as Hend.
  { intros outcome. pose proof (end_locked_frame (at_waiting a) (at_state a) outcome) as Hf.
    destruct (end_locked _ _ _) as [w st]. destruct Hf as (Ht & Hr & Hs & El & Er & Ew). simpl. split; [|done].
    by eapply (given_up _ _ X (at_state a)); [|eapply so_far_refl|..]. }
  destruct woke; simpl; [destruct readmitted|].
  - intros [= <- <-]. split_and!; [done| |done]. by eapply place_kept; [|eapply so_far_refl|].
  - specialize (Hend WCancelled). destruct (end_locked _ _ _). by intros [= <- <-].
  - specialize (Hend WTimeout). destruct (end_locked _ _ _). by intros [= <- <-].
Qed.
End Attempts.

(** *** The invariant of the whole *)

Record inv (s : Sys) : Prop := {
  iv_leases : LeaseFacts.wf (c_leases (sys_state s));
  iv_queue : queue_wf (c_waiting (sys_state s));
  iv_no_ring : no_ring (c_leases (sys_state s)) (c_waiting (sys_state s));
  iv_claims : ∀ i c, sys_claims s !! i = Some c →
    canonical (c_registry (sys_state s)) (oc_holder c) ∧ wg_requester (oc_waiting c) = oc_holder c
    ∧ wg_resource (oc_waiting c) = ca_resource (oc_args c)
    ∧ (is_Some (wg_ticket (oc_waiting c)) → (0 < ca_wait_secs (oc_args c))%Z);
  iv_one : ∀ i j c d, sys_claims s !! i = Some c → sys_claims s !! j = Some d → oc_holder c = oc_holder d → i = j;
  iv_places : ∀ t, t ∈ places (c_waiting (sys_state s)) ↔
    ∃ i c, sys_claims s !! i = Some c ∧ wg_ticket (oc_waiting c) = Some t;
  iv_tickets : ∀ i j c d t, sys_claims s !! i = Some c → sys_claims s !! j = Some d →
    wg_ticket (oc_waiting c) = Some t → wg_ticket (oc_waiting d) = Some t → i = j;
  iv_waiters : ∀ x, x ∈ q_waiters (c_waiting (sys_state s)) →
    ∃ i c, sys_claims s !! i = Some c ∧ wg_ticket (oc_waiting c) = Some (wt_ticket x)
           ∧ wt_agent x = oc_holder c ∧ wt_resource x = wg_resource (oc_waiting c);
}.

Lemma NoDup_fmap_via {A B C} (f : A → B) (g : A → C) l :
  NoDup (f <$> l) → (∀ x y, x ∈ l → y ∈ l → g x = g y → f x = f y) → NoDup (g <$> l).
Proof.
  induction l as [|x l IH]; [constructor|]. rewrite !fmap_cons, !NoDup_cons. intros [Hx Hnd] Hinj. split.
  - intros (y & Hy & Hin)%list_elem_of_fmap. apply Hx. rewrite (Hinj x y); [by apply list_elem_of_fmap_2|left|by right|done].
  - apply IH; [done|]. intros y z Hy Hz. apply Hinj; by right.
Qed.

Lemma inv_mine s i c x :
  inv s → sys_claims s !! i = Some c → x ∈ q_waiters (c_waiting (sys_state s)) → wt_agent x = oc_holder c →
  wg_ticket (oc_waiting c) = Some (wt_ticket x).
Proof.
  intros Hinv Hc Hx Ha. destruct (iv_waiters s Hinv x Hx) as (j & d & Hd & Ht & Hda & _).
  assert (i = j) as <- by (eapply (iv_one s Hinv); [done..|congruence]). congruence.
Qed.

Lemma inv_one_wait s : inv s → one_wait_each (c_waiting (sys_state s)).
Proof.
  intros Hinv. pose proof (iv_queue s Hinv) as (_ & Hnd & _). eapply NoDup_fmap_via; [exact Hnd|].
  intros x y Hx Hy Ha. destruct (iv_waiters s Hinv x Hx) as (j & d & Hd & Ht & Hda & _).
  pose proof (inv_mine s j d y Hinv Hd Hy ltac:(congruence)). congruence.
Qed.

Lemma inv_ready s i c : inv s → sys_claims s !! i = Some c → ready (sys_state s) (oc_waiting c) (oc_holder c).
Proof.
  intros Hinv Hc. destruct (iv_claims s Hinv i c Hc) as (Hcan & Hreq & _). split; try by apply Hinv.
  - by apply inv_one_wait.
  - done.
  - done.
  - intros t Ht. apply (iv_places s Hinv). exists i, c. split; [done|]. unfold own in Ht.
    destruct (wg_ticket _); set_solver.
  - intros x Hx Ha. by eapply inv_mine.
Qed.

Lemma elem_of_own w t : t ∈ own w ↔ wg_ticket w = Some t.
Proof. unfold own. destruct (wg_ticket w); [rewrite elem_of_singleton; naive_solver|set_solver]. Qed.

(** A ticket of the hold's claim afterwards belongs to no other claim. *)
Lemma own_apart s i c st' w' j d t :
  inv s → sys_claims s !! i = Some c → held_on (sys_state s) (oc_waiting c) st' w' →
  sys_claims s !! j = Some d → wg_ticket (oc_waiting d) = Some t → wg_ticket w' = Some t → j = i.
Proof.
  intros Hinv Hc Hh Hd Ht Ht'. apply elem_of_own in Ht'. destruct (ho_own _ _ _ _ Hh) as [Hsub|Hnew].
  - apply Hsub, elem_of_own in Ht'. by eapply (iv_tickets s Hinv).
  - exfalso. rewrite Hnew, elem_of_singleton in Ht'. subst t. pose proof (iv_queue s Hinv) as (_ & _ & Hlt & Hbr & _).
    assert (q_next_ticket (c_waiting (sys_state s)) ∈ places (c_waiting (sys_state s))) as [(w & Hw & E)|Hb]%elem_of_places.
    { apply (iv_places s Hinv). by exists j, d. }
    + specialize (Hlt w Hw). lia.
    + destruct (Hbr _ Hb) as [? _]. lia.
Qed.

Section Preserved.
Context (s : Sys) (i : nat) (c : OpenClaim) (st' : State) (w' : Waiting).
Hypothesis Hinv : inv s.
Hypothesis Hc : sys_claims s !! i = Some c.
Hypothesis Hh : held_on (sys_state s) (oc_waiting c) st' w'.

Lemma other_place t :
  t ∈ places (c_waiting (sys_state s)) ∖ own (oc_waiting c) ↔
  ∃ j d, j ≠ i ∧ sys_claims s !! j = Some d ∧ wg_ticket (oc_waiting d) = Some t.
Proof.
  rewrite elem_of_difference, elem_of_own, (iv_places s Hinv). split.
  - intros [(j & d & Hd & Ht) Hn]. exists j, d. split_and!; try done. intros ->. congruence.
  - intros (j & d & Hne & Hd & Ht). split; [by exists j, d|]. intros Hct. apply Hne. by eapply (iv_tickets s Hinv).
Qed.

Lemma inv_insert c' :
  oc_waiting c' = w' → oc_holder c' = oc_holder c → oc_args c' = oc_args c →
  (is_Some (wg_ticket w') → (0 < ca_wait_secs (oc_args c))%Z) →
  inv (mkSys st' (<[i := c']> (sys_claims s))).
Proof.
  intros Ew Ho Ea Hw. destruct (ho_same _ _ _ _ Hh) as [Hreq Hres].
  split; simpl; try apply Hh; setoid_rewrite lookup_insert_Some.
  - intros j d [[<- <-]|[Hne Hd]].
    + destruct (iv_claims s Hinv i c Hc) as (H1 & H2 & H3 & _). rewrite Ew, Ho, Ea, Hreq, Hres.
      split_and!; [by eapply canonical_kept; [apply Hh|]|done..].
    + destruct (iv_claims s Hinv j d Hd) as (H1 & H2). split; [by eapply canonical_kept; [apply Hh|]|done].
  - intros j k d e [[<- <-]|[Hj Hd]] [[<- <-]|[Hk He]]; rewrite ?Ho; intros E; try done;
      by eapply (iv_one s Hinv).
  - intros t. rewrite (ho_places _ _ _ _ Hh), elem_of_union, other_place, elem_of_own. split.
    + intros [(j & d & Hne & Hd & Ht)|Ht]; [exists j, d; naive_solver|]. exists i, c'. rewrite Ew. naive_solver.
    + intros (j & d & [[<- <-]|[Hne Hd]] & Ht); [right; congruence|left; exists j, d; naive_solver].
  - intros j k d e t [[<- <-]|[Hj Hd]] [[<- <-]|[Hk He]]; rewrite ?Ew; intros Ht Ht'; try done.
    + symmetry. by eapply own_apart.
    + by eapply own_apart.
    + by eapply (iv_tickets s Hinv).
  - intros x Hx. destruct (ho_waiters _ _ _ _ Hh x Hx) as [Hold|(Ht & Ha & Hr)].
    + destruct (iv_waiters s Hinv x Hold) as (j & d & Hd & Ht & Hda & Hdr). destruct (decide (j = i)) as [->|Hne].
      * assert (d = c) as -> by congruence. exists i, c'. rewrite Ew, Ho, Hres. split_and!; [naive_solver| |done|done].
        assert (wt_ticket x ∈ places (c_waiting st')) as Hp by (apply elem_of_places; left; by exists x).
        rewrite (ho_places _ _ _ _ Hh), elem_of_union, elem_of_difference, !elem_of_own in Hp. naive_solver.
      * exists j, d. naive_solver.
    + exists i, c'. rewrite Ew, Ho, Hres. split_and!; [naive_solver|done| |done].
      rewrite Ha. apply (iv_claims s Hinv i c Hc).
Qed.

Lemma inv_delete : wg_ticket w' = None → inv (mkSys st' (delete i (sys_claims s))).
Proof.
  intros Hnone. assert (own w' = ∅) as How by (unfold own; by rewrite Hnone).
  split; simpl; try apply Hh; setoid_rewrite lookup_delete_Some.
  - intros j d [Hne Hd]. destruct (iv_claims s Hinv j d Hd) as (H1 & H2). split; [by eapply canonical_kept; [apply Hh|]|done].
  - intros j k d e [_ Hd] [_ He]. by apply (iv_one s Hinv).
  - intros t. rewrite (ho_places _ _ _ _ Hh), How, union_empty_r_L, other_place. naive_solver.
  - intros j k d e t [_ Hd] [_ He]. by apply (iv_tickets s Hinv j k d e).
  - intros x Hx. assert (wt_ticket x ∈ places (c_waiting st')) as Hp by (apply elem_of_places; left; by exists x).
    rewrite (ho_places _ _ _ _ Hh), How, union_empty_r_L, other_place in Hp. destruct Hp as (j & d & Hne & Hd & Ht).
    destruct (ho_waiters _ _ _ _ Hh x Hx) as [Hold|(Hw & _)]; [|congruence].
    destruct (iv_waiters s Hinv x Hold) as (k & e & He & Hte & Hrest). exists k, e.
    assert (k = j) as -> by by eapply (iv_tickets s Hinv). naive_solver.
Qed.
End Preserved.

(** *** Every step keeps it *)

(** Leases come off or are renewed, and the queue is as it was. *)
Lemma inv_calm s st' :
  inv s → c_waiting st' = c_waiting (sys_state s) → reg_kept (c_registry (sys_state s)) (c_registry st') →
  LeaseFacts.wf (c_leases st') →
  (∀ k' l', LeaseTable.leases (c_leases st') !! k' = Some l' →
     ∃ k l, LeaseTable.leases (c_leases (sys_state s)) !! k = Some l ∧ resource l = resource l' ∧ holder l = holder l') →
  inv (mkSys st' (sys_claims s)).
Proof.
  intros Hinv Hw Hr Hwf Hcov. split; simpl; rewrite ?Hw; try apply Hinv; [done| |].
  - eapply no_ring_covered; [|done|apply Hinv]. intros k l Hl. left. by apply Hcov in Hl.
  - intros i c Hc. destruct (iv_claims s Hinv i c Hc) as [Hcan Hrest]. split; [by eapply canonical_kept|done].
Qed.

Lemma inv_sub s st' :
  inv s → c_waiting st' = c_waiting (sys_state s) → reg_kept (c_registry (sys_state s)) (c_registry st') →
  table_sub (c_leases (sys_state s)) (c_leases st') → inv (mkSys st' (sys_claims s)).
Proof.
  intros Hinv Hw Hr Hs. apply inv_calm; try done.
  - eapply LeaseFacts.wf_subset; [exact Hs|apply Hinv].
  - intros k l Hl. exists k, l. by split; [apply Hs|].
Qed.

Lemma table_sub_refl tb : table_sub tb tb.
Proof. by intros k l. Qed.

Lemma release_sub tb i h : table_sub tb (LeaseTable.release tb i h).1.
Proof.
  unfold LeaseTable.release. destruct (LeaseTable.owned tb i h); intros k l; simpl; [|done].
  by intros [_ ?]%lookup_delete_Some.
Qed.

Lemma releases_frame released st :
  let st' := foldl (λ st l, with_leases st (LeaseTable.release (c_leases st) (id l) (holder l)).1) st released in
  c_waiting st' = c_waiting st ∧ c_registry st' = c_registry st ∧ table_sub (c_leases st) (c_leases st').
Proof.
  simpl. revert st. induction released as [|x l IH]; intros st; simpl; [by split_and!; [..|apply table_sub_refl]|].
  destruct (IH (with_leases st (LeaseTable.release (c_leases st) (id x) (holder x)).1)) as (-> & -> & Hs).
  split_and!; [done..|]. intros k y Hy. by apply (release_sub (c_leases st) (id x) (holder x)), Hs.
Qed.

Lemma finish_release_frame st released :
  c_waiting (finish_release st released) = c_waiting st ∧ c_registry (finish_release st released) = c_registry st
  ∧ table_sub (c_leases st) (c_leases (finish_release st released)).
Proof.
  pose proof (table_sub_refl (c_leases st)) as Hrefl.
  unfold finish_release. destruct (_ =? _)%nat; [done|]. unfold commit.
  pose proof (persist_frame st) as (Hl & Hw & Hr & _). destruct (persist st) as [[] st1]; simpl in *.
  - destruct (releases_frame released st1) as (H1 & H2 & H3). rewrite H1, H2, Hw, Hr, <-Hl. done.
  - rewrite Hw, Hr, Hl. done.
  - rewrite Hw, Hr, Hl. done.
Qed.

Section Steps.
Context {HO : HashOrder string Lease}.

Lemma inv_expire s now : inv s → inv (mkSys (expire_leases_at (sys_state s) now) (sys_claims s)).
Proof.
  intros Hinv. destruct (expire_leases_at_frame (sys_state s) now) as (Hw & Hr & _).
  apply inv_sub; [done|done|by rewrite Hr|]. intros k l. apply expired_sub, Hinv.
Qed.

Lemma inv_renew s h lease ttl now : inv s → inv (mkSys (renew_lease (sys_state s) h lease ttl now).1 (sys_claims s)).
Proof.
  intros Hinv. unfold renew_lease. destruct (negb _); [by destruct s|]. apply (inv_expire s now) in Hinv.
  set (st := expire_leases_at (sys_state s) now) in *. destruct (write_failure st); [done|].
  unfold LeaseTable.renew. destruct (LeaseTable.owned _ _ _) as [l|e] eqn:Eo; simpl; [|done].
  apply LeaseFacts.owned_Ok in Eo as [Hl Hh]. apply LeaseFacts.lookup_expire in Hl as [Hl _]; [|apply (iv_leases _ Hinv)].
  destruct (commit_lease_activity _ _ _ _ _) as [b st1] eqn:E. apply commit_lease_activity_spec in E as (Ew & Er & _ & El).
  simpl. destruct b; [destruct El as [_ El]|].
  - assert (id l = lease) as Hid by by apply (iv_leases _ Hinv).
    apply (inv_calm (mkSys st (sys_claims s))); [done..| |]; simpl; rewrite El; unfold LeaseTable.restore; simpl.
    + eapply (LeaseFacts.wf_update (c_leases st) (id l) l); try done; [apply (iv_leases _ Hinv)|congruence].
    + intros k' l'. rewrite lookup_insert_Some. intros [[_ <-]|[_ Hl']]; simpl; eauto.
  - apply (inv_sub (mkSys st (sys_claims s))); simpl; [done..|]. rewrite El. apply table_sub_refl.
Qed.

Lemma inv_step s s' : sys_step s s' → inv s → inv s'.
Proof.
  destruct 1 as [s i X args Hi Hcan Hone|s i c env Hc _ Hf Hlt|s i c conflict woke re Hc _|s i c Hc|s h lease ttl now|s h lease|s h auto|s now];
    intros Hinv.
  - split; simpl; try apply Hinv; setoid_rewrite lookup_insert_Some.
    + intros j d [[<- <-]|[Hne Hd]]; [|exact (iv_claims s Hinv j d Hd)]. simpl. split_and!; try done.
    + intros j k d e [[<- <-]|[Hj Hd]] [[<- <-]|[Hk He]]; simpl; intros E; try done.
      * by destruct (Hone k e He).
      * by destruct (Hone j d Hd).
      * by eapply (iv_one s Hinv).
    + intros t. rewrite (iv_places s Hinv). split.
      * intros (j & d & Hd & Ht). exists j, d. split; [|done]. right. split; [|done]. intros ->. congruence.
      * intros (j & d & [[<- <-]|[Hne Hd]] & Ht); [done|by exists j, d].
    + intros j k d e t [[<- <-]|[Hj Hd]] [[<- <-]|[Hk He]]; simpl; intros Ht Ht'; try done. by eapply (iv_tickets s Hinv).
    + intros x Hx. destruct (iv_waiters s Hinv x Hx) as (j & d & Hd & Hrest). exists j, d. split; [|done].
      right. split; [|done]. intros ->. congruence.
  - pose proof (inv_ready s i c Hinv Hc) as Hrd. destruct (iv_claims s Hinv i c Hc) as (_ & _ & Hres & Hw).
    unfold sys_attempt. destruct (claim_attempt _ _ _) as [a d] eqn:E.
    apply (claim_attempt_effect _ _ _ (oc_holder c)) in E as (HX & Hh & Hd); [|done|by split|done].
    destruct d; [by eapply inv_insert|by eapply inv_delete; [..|apply Hd]].
  - pose proof (inv_ready s i c Hinv Hc) as Hrd. destruct (iv_claims s Hinv i c Hc) as (_ & _ & Hres & Hw).
    unfold sys_wake. destruct (claim_wake _ _ _ _ _) as [a o] eqn:E.
    apply (claim_wake_effect _ _ _ _ _ (oc_holder c)) in E as (HX & Hh & Ho); [|done..].
    destruct o; [by eapply inv_delete|]. eapply inv_insert; [done..|]. by rewrite Ho.
  - pose proof (inv_ready s i c Hinv Hc) as Hrd. unfold sys_drop.
    pose proof (end_locked_frame (oc_waiting c) (sys_state s) WCancelled) as Hf. destruct (end_locked _ _ _) as [w st].
    destruct Hf as (Ht & Hr & Hs & El & Er & Ew). eapply inv_delete; [done|done| |exact Ht].
    by eapply (given_up _ _ (oc_holder c) (sys_state s)); [|eapply so_far_refl|..].
  - by apply inv_renew.
  - unfold release_lease. destruct (LeaseTable.release _ _ _) as [tb [l|e]]; simpl; [|by destruct s].
    destruct (finish_release_frame (sys_state s) [l]) as (Hw & Hr & Hs). apply inv_sub; [done|done|by rewrite Hr|done].
  - unfold release_all_leases. simpl.
    match goal with |- context [finish_release _ ?r] => destruct (finish_release_frame (sys_state s) r) as (Hw & Hr & Hs) end.
    apply inv_sub; [done|done|by rewrite Hr|done].
  - by apply inv_expire.
Qed.
End Steps.
End ClaimsFacts.

(** ** Theorems *)

Module ClaimsProps.
Import WaitFacts ClaimsFacts.

Definition sys_start (r : Registry) (store : Storage) : Sys :=
  mkSys (mkState r LeaseTable.new queue_new store []) ∅.

Lemma inv_start r store : inv (sys_start r store).
Proof.
  split; simpl.
  - apply LeaseFacts.wf_new.
  - apply queue_new_wf.
  - intros a Ha. apply tc_source in Ha as (w & Hw & _). by apply not_elem_of_nil in Hw.
  - by intros i c ?%lookup_empty_Some.
  - by intros i j c d ?%lookup_empty_Some.
  - intros t. rewrite elem_of_places. simpl. split; [|intros (? & ? & ?%lookup_empty_Some & _); done].
    intros [(w & Hw & _)|[? Ht]]; [by apply not_elem_of_nil in Hw|done].
  - by intros i j c d t ?%lookup_empty_Some.
  - by intros x ?%not_elem_of_nil.
Qed.

Lemma inv_reachable {HO : HashOrder string Lease} r store s : rtc sys_step (sys_start r store) s → inv s.
Proof. apply rtc_invariant; [intros ? ?; apply inv_step|apply inv_start]. Qed.


(** C15: However they interleave, the queue is exactly the open claims
    that wait: every ticket that waits, or was ended to break a ring, belongs to
    one open claim, every ticket an open claim has is one of those, and a queued
    wait is for its claim's agent and resource. So a claim that was answered or
    whose client went away never holds up the queue. *)
Theorem places_belong_to_open_claims {HO : HashOrder string Lease} r store s
    (Hs : rtc sys_step (sys_start r store) s) :
  (∀ t, (∃ w, w ∈ q_waiters (c_waiting (sys_state s)) ∧ wt_ticket w = t)
        ∨ is_Some (deadlocked (c_waiting (sys_state s)) t)
        ↔ ∃ i c, sys_claims s !! i = Some c ∧ wg_ticket (oc_waiting c) = Some t)
  ∧ (∀ i j c d t, sys_claims s !! i = Some c → sys_claims s !! j = Some d →
       wg_ticket (oc_waiting c) = Some t → wg_ticket (oc_waiting d) = Some t → i = j)
  ∧ (∀ i c w, sys_claims s !! i = Some c → w ∈ q_waiters (c_waiting (sys_state s)) →
       wg_ticket (oc_waiting c) = Some (wt_ticket w) →
       wt_agent w = oc_holder c ∧ wt_resource w = ca_resource (oc_args c)).
Proof.
  apply inv_reachable in Hs as Hinv. split_and!.
  - intros t. rewrite <-(iv_places s Hinv), elem_of_places. done.
  - apply Hinv.
  - intros i c w Hc Hw Ht. destruct (iv_waiters s Hinv w Hw) as (j & d & Hd & Htd & Ha & Hr).
    assert (j = i) as -> by by eapply (iv_tickets s Hinv). assert (d = c) as -> by congruence.
    destruct (iv_claims s Hinv i c Hc) as (_ & _ & Hres & _). split; congruence.
Qed.

(** C23: Breaking rings ends and works: within one turn per queued wait
    and one more, the search has no ring left through the claim, or the claim
    itself was chosen to give way; and the only waits it ended are queued ones,
    each remembered as broken. *)
Theorem breaking_rings_ends {HO : HashOrder string Lease} st X res priority (Hq : queue_wf (c_waiting st)) :
  ∃ out st', break_rings st X res priority = Some (out, st')
    ∧ (out = None → ¬ ∃ path, ring_path X (held_pairs st') (waits_map (wait_pairs st')) X res path)
    ∧ c_leases st' = c_leases st
    ∧ (∀ w, w ∈ q_waiters (c_waiting st') → w ∈ q_waiters (c_waiting st))
    ∧ (∀ w, w ∈ q_waiters (c_waiting st) →
         w ∈ q_waiters (c_waiting st') ∨ is_Some (deadlocked (c_waiting st') (wt_ticket w))).
Proof.
  destruct (break_rings_spec (S (length (q_waiters (c_waiting st)))) st X res priority) as (out & st' & E & El & _ & Hb & Ho); [lia|].
  exists out, st'. destruct (broke_facts _ _ Hb Hq) as (Hq' & Hp & Hs & _). split_and!; [done| |done|done|].
  - intros ->. pose proof (deadlock_search X res (held_pairs st') (wait_pairs st')) as Hd.
    specialize (Ho eq_refl). unfold state_deadlock in Ho. by rewrite Ho in Hd.
  - intros w Hw. assert (wt_ticket w ∈ places (c_waiting st')) as [(x & Hx & Ht)|Hbr]%elem_of_places.
    { rewrite Hp. apply elem_of_places. left. by exists w. }
    + left. apply Hs in Hx as Hx'. pose proof Hq as (_ & Hnd & _).
      assert (x = w) as -> by by eapply (NoDup_fmap_inj_elem wt_ticket). done.
    + by right.
Qed.

(** *** Runs *)

Definition w_agent (name : string) : AgentRecord :=
  with_status (record_new name (mkSpec name "" None None [] None ∅ ∅ false false false false RNo []) false 0) Running.
Definition w_registry : Registry :=
  mkRegistry (list_to_map ((λ n, (n, w_agent n)) <$> ["a"; "b"; "c"])) ∅ ∅ ∅ ∅.
Definition w_args (res : string) (m : LeaseMode) : ClaimArgs := mkArgs (Resource.RK res) m None 300 None 60 0 false.
Definition w_env (fresh : string) : AttemptEnv := mkAttemptEnv 1 fresh None None None.
Definition w_open (s : Sys) (i : nat) (agent : string) (args : ClaimArgs) : Sys :=
  mkSys (sys_state s) (<[i := mkOpen args (waiting_new agent (ca_resource args)) agent false Attempting]> (sys_claims s)).
Definition w_try (s : Sys) (i : nat) (fresh : string) : Sys :=
  match sys_claims s !! i with Some c => sys_attempt (HO := canonical_order) s i c (w_env fresh) | None => s end.

(** [a] holds [x], [b] waits for it. *)
Definition w_start : Sys := sys_start w_registry (mkStorage false false false []).
Definition w_held : Sys := w_try (w_open w_start 0 "a" (w_args "path:/x" Exclusive)) 0 "l1".
Definition w_waiting : Sys := w_try (w_open w_held 1 "b" (w_args "path:/x" Exclusive)) 1 "l2".

(** The goals of a step on a concrete state. *)
Ltac run_step :=
  first [ reflexivity
        | split; [reflexivity|]; intros record E; vm_compute in E; by injection E as <-
        | intros j c Hc; vm_compute in Hc; repeat (destruct j as [|j]; try discriminate Hc);
          try (injection Hc as <-); discriminate ].

Lemma w_waiting_reachable : rtc (sys_step (HO := canonical_order)) w_start w_waiting.
Proof.
  eapply rtc_l; [apply (sys_open w_start 0 "a" (w_args "path:/x" Exclusive)); run_step|].
  eapply rtc_l; [eapply (sys_try _ 0 _ (w_env "l1")); run_step|].
  change (rtc (sys_step (HO := canonical_order)) w_held w_waiting).
  eapply rtc_l; [apply (sys_open w_held 1 "b" (w_args "path:/x" Exclusive)); run_step|].
  eapply rtc_l; [eapply (sys_try _ 1 _ (w_env "l2")); run_step|].
  apply rtc_refl.
Qed.


Lemma places_belong_to_open_claims_witness :
  ∃ i c, sys_claims w_waiting !! i = Some c ∧ wg_ticket (oc_waiting c) = Some 0%Z.
Proof.
  apply (proj1 (proj1 (places_belong_to_open_claims (HO := canonical_order) w_registry (mkStorage false false false [])
    w_waiting w_waiting_reachable) 0%Z)).
  left. exists (mkWaiter 0 "b" (Resource.RK "path:/x") Exclusive 1 0). split; [vm_compute; left|reflexivity].
Defined.

Lemma breaking_rings_ends_witness :
  ∃ out st', break_rings (HO := canonical_order) (sys_state w_waiting) "c" (Resource.RK "path:/x") 0 = Some (out, st')
             ∧ c_leases st' = c_leases (sys_state w_waiting).
Proof.
  destruct (breaking_rings_ends (HO := canonical_order) (sys_state w_waiting) "c" (Resource.RK "path:/x") 0
    (iv_queue _ (inv_reachable _ _ _ w_waiting_reachable))) as (out & st' & E & _ & El & _).
  exists out, st'. split; [exact E|exact El].
Defined.

(** A claim that has not waited yet is not held back by those who have: after
    [a] releases, [c] asks for the first time and is granted what [b] still waits
    for. *)
Definition w_released : Sys :=
  mkSys (release_lease (sys_state w_waiting) "a" "l1").1 (sys_claims w_waiting).
Definition w_overtaken : Sys := w_try (w_open w_released 2 "c" (w_args "path:/x" Exclusive)) 2 "l3".

Lemma newcomer_overtakes_a_waiter :
  (holder <$> LeaseTable.all (HO := canonical_order) (c_leases (sys_state w_overtaken))) = ["c"]
  ∧ (wt_agent <$> q_waiters (c_waiting (sys_state w_overtaken))) = ["b"].
Proof. split; vm_compute; reflexivity. Qed.

(** The search for rings does not look at modes: [a], which holds [z], asks to
    share [r]. Only [c]'s exclusive lease is in its way, but [b] shares something
    under [r] and waits for [z], so [a] is refused as deadlocked. *)
Definition w_sharing : Sys :=
  let s := w_try (w_open w_start 0 "a" (w_args "path:/z" Exclusive)) 0 "l1" in
  let s := w_try (w_open s 1 "c" (w_args "path:/r/c" Exclusive)) 1 "l2" in
  let s := w_try (w_open s 2 "b" (w_args "path:/r/b" Shared)) 2 "l3" in
  w_try (w_open s 3 "b" (w_args "path:/z" Exclusive)) 3 "l4".

Lemma shared_holder_counts_as_blocking :
  let res := Resource.RK "path:/r" in
  let ls := LeaseTable.all (HO := canonical_order) (c_leases (sys_state w_sharing)) in
  (holder <$> List.filter (λ l, blocks l "a" Shared res) ls) = ["c"]
  ∧ ∃ message, (claim_attempt (HO := canonical_order)
                  (mkAttempt (sys_state w_sharing) (waiting_new "a" res) "a" false) (w_args "path:/r" Shared) (w_env "l5")).2
       = Err (AnsDeadlock message [mkBlocked "a" res "b"; mkBlocked "b" (Resource.RK "path:/z") "a"]
                (List.filter (λ l, blocks l "a" Shared res) ls)).
Proof. split; [vm_compute; reflexivity|]. eexists. vm_compute. reflexivity. Qed.
End ClaimsProps.
