(* ===== verification/Review.v ===== *)
(** * Reviews and plans

    [crates/core/src/review.rs]: what an agent changed on its branch, as git's
    output reads, and everything that stops a merge;
    [crates/core/src/plan.rs]: a project's plans and files. Running git is the
    daemon's. *)

From Stdlib Require Import Ascii.
From stdpp Require Import pretty.
From S2P Require Import Prelude RustStr Path.

Local Open Scope rust_scope.

(** ** Reviews *)

Definition PATCH_LIMIT : Z := 512 * 1024.
Definition LIST_LIMIT : nat := 200.

Inductive Operation := OMerge | ORebase | OCherryPick | ORevert | OBisect | OOther.
Global Instance Operation_eq_dec : EqDecision Operation.
Proof. solve_decision. Defined.

Definition operation_named (o : Operation) : string :=
  match o with
  | OMerge => "a merge" | ORebase => "a rebase" | OCherryPick => "a cherry-pick" | ORevert => "a revert"
  | OBisect => "a bisect" | OOther => "a git operation"
  end.

Definition from_markers (exists_ : string → bool) : option Operation :=
  if exists_ "rebase-merge" || exists_ "rebase-apply" then Some ORebase
  else if exists_ "MERGE_HEAD" then Some OMerge
  else if exists_ "CHERRY_PICK_HEAD" then Some OCherryPick
  else if exists_ "REVERT_HEAD" then Some ORevert
  else if exists_ "BISECT_LOG" then Some OBisect
  else if exists_ "sequencer" then Some OOther
  else None.

Record Commit := mkCommit { cm_sha : string; cm_subject : string }.
Record File := mkFile { fi_path : string; fi_status : string; fi_added : option Z; fi_removed : option Z }.
Global Instance Commit_eq_dec : EqDecision Commit.
Proof. solve_decision. Defined.

Record Review := mkReview {
  rv_agent : string;
  rv_checkout : string;
  rv_branch : option string;
  rv_head : option string;
  rv_target_checkout : string;
  rv_target : option string;
  rv_merge_base : option string;
  rv_commits : list Commit;
  rv_files : list File;
  rv_patch : string;
  rv_truncated : bool;
  rv_uncommitted : list string;
  rv_target_dirty : list string;
  rv_conflicts : list string;
  rv_held : list (string * string);
  rv_in_progress : option Operation;
}.
Definition review_default : Review := mkReview "" "" None None "" None None [] [] "" false [] [] [] [] None.

Inductive Blocker :=
| SameCheckout
| NoBranch
| InProgress (o : Operation)
| NothingToMerge
| Uncommitted (n : nat)
| TargetDirty (n : nat)
| Conflicts (n : nat)
| Held (n : nat).

Definition files_word (n : nat) : string := if (n =? 1)%nat then "1 file" else pretty (N.of_nat n) ++ " files".

Definition blocker_label (b : Blocker) (target : string) : string :=
  match b with
  | SameCheckout => "works directly on " ++ target ++ " in the main folder; its changes are there already"
  | NoBranch => "no branch is checked out to merge into or from"
  | InProgress o => "the main folder is in the middle of " ++ operation_named o ++ "; finish or abort it there first"
  | NothingToMerge => "nothing on its branch that " ++ target ++ " does not have"
  | Uncommitted n => files_word n ++ " not committed yet"
  | TargetDirty n => target ++ " has " ++ files_word n ++ " changed and not committed"
  | Conflicts n => "would conflict in " ++ files_word n
  | Held n => files_word n ++ " in the main folder held by another agent"
  end.

(** [blockers.push(blocker)] unless the list is empty. *)
Definition unless_empty {A} (l : list A) (b : nat → Blocker) : list Blocker :=
  match l with [] => [] | _ => [b (length l)] end.

Definition blockers (r : Review) : list Blocker :=
  if path_eqb (rv_checkout r) (rv_target_checkout r) && (rv_branch r == rv_target r) then [SameCheckout]
  else match rv_in_progress r with
  | Some o => [InProgress o]
  | None =>
      if is_none (rv_branch r) || is_none (rv_target r) then [NoBranch]
      else app (match rv_commits r with [] => [NothingToMerge] | _ => [] end)
             (app (unless_empty (rv_uncommitted r) Uncommitted)
                (app (unless_empty (rv_target_dirty r) TargetDirty)
                   (app (unless_empty (rv_conflicts r) Conflicts) (unless_empty (rv_held r) Held))))
  end.

Definition totals (r : Review) : Z * Z :=
  foldl (λ ar f, (u64_add ar.1 (unwrap_or 0%Z (fi_added f)), u64_add ar.2 (unwrap_or 0%Z (fi_removed f)))) (0, 0)%Z (rv_files r).

(** ** Git's output *)

Definition unit_separator : ascii := "031".

Definition parse_commit (line : string) : option Commit :=
  match split_once unit_separator line with
  | Some (sha, subject) => Some (mkCommit (trim sha) subject)
  | None => None
  end.
Definition parse_log (text : string) : list Commit := take LIST_LIMIT (omap parse_commit (lines_of text)).

(** [s.rsplit_once(p)], as what comes before and after the last occurrence. *)
Fixpoint rsplit_str (p s : string) : option (string * string) :=
  match s with
  | "" => match strip_prefix p "" with Some rest => Some ("", rest) | None => None end
  | String a s' =>
      match rsplit_str p s' with
      | Some (l, r) => Some (String a l, r)
      | None => match strip_prefix p s with Some rest => Some ("", rest) | None => None end
      end
  end.

Definition renamed_to (path : string) : string :=
  match rsplit_str " => " path with
  | Some (_, new) => if contains_char "{" path then path else new
  | None => path
  end.

(** [line.splitn(3, '\t')], all three there. *)
Definition parse_numstat (line : string) : option (string * (option Z * option Z)) :=
  match split_once "009" line with
  | None => None
  | Some (added, rest) =>
      match split_once "009" rest with
      | None => None
      | Some (removed, path) => Some (renamed_to path, (parse_usize added, parse_usize removed))
      end
  end.
Definition numstat_counts (numstat : string) : gmap string (option Z * option Z) :=
  foldl (λ m kv, <[kv.1 := kv.2]> m) ∅ (omap parse_numstat (lines_of numstat)).

Definition parse_name_status (counts : gmap string (option Z * option Z)) (line : string) : option File :=
  let fields := split_char "009" line in
  match head fields, last fields with
  | Some first, Some path =>
      match chars first with
      | [] => None
      | status :: _ =>
          let '(added, removed) := unwrap_or (None, None) (counts !! path) in
          Some (mkFile path status added removed)
      end
  | _, _ => None
  end.
Definition parse_files (name_status numstat : string) : list File :=
  take LIST_LIMIT (omap (parse_name_status (numstat_counts numstat)) (lines_of name_status)).

(** [line[3..]]: [None] where the fourth byte is inside a character, the
    panic of the slice. *)
Definition slice_from_3 (line : string) : option string :=
  match line with
  | String _ (String _ (String _ (String d rest))) => if is_continuation d then None else Some (String d rest)
  | _ => None
  end.
Definition porcelain_line (line : string) : bool :=
  (3 <? byte_len line)%Z && negb (starts_with line "??") && negb (starts_with line "!!").
Definition parse_porcelain (text : string) : option (list string) :=
  mapM slice_from_3 (take LIST_LIMIT (List.filter porcelain_line (lines_of text))).

Fixpoint take_until_blank (lines : list string) : list string :=
  match lines with
  | line :: rest => if line == "" then [] else line :: take_until_blank rest
  | [] => []
  end.
Definition parse_conflicts (text : string) : list string :=
  take LIST_LIMIT (take_until_blank (drop 1 (lines_of text))).

(** ** Plans and files *)

Definition PLAN_TITLE_CHARS : nat := 200.
Definition PLAN_BODY_BYTES : Z := 512 * 1024.
Definition PLANS_PER_PROJECT : nat := 500.
Definition FILE_BYTES : Z := 4 * 1024 * 1024.
Definition FILES_PER_PROJECT : nat := 500.
Definition FILE_NAME_CHARS : nat := 200.

Inductive PlanStatus := PDraft | PActive | PDone | PArchived.
Definition PLAN_STATUSES : list PlanStatus := [PDraft; PActive; PDone; PArchived].
Definition plan_status_str (s : PlanStatus) : string :=
  match s with PDraft => "draft" | PActive => "active" | PDone => "done" | PArchived => "archived" end.
Definition plan_status_label (s : PlanStatus) : string :=
  match s with PDraft => "Draft" | PActive => "Active" | PDone => "Done" | PArchived => "Archived" end.

Section Plans.
Context {U : Unicode}.

Definition plan_status_parse (text : string) : option PlanStatus :=
  List.find (λ s, plan_status_str s == to_lowercase (trim text)) PLAN_STATUSES.

Record Plan := mkPlan {
  pl_id : string;
  pl_project : string;
  pl_title : string;
  pl_body : string;
  pl_status : PlanStatus;
  pl_created_by : string;
  pl_created_at : instant;
  pl_updated_at : instant;
}.

Definition plan_check (p : Plan) : result unit string :=
  let title := trim (pl_title p) in
  if (title == "") || (PLAN_TITLE_CHARS <? chars_count title)%nat then Err "a plan's title is one to 200 characters"
  else if (PLAN_BODY_BYTES <? byte_len (pl_body p))%Z then Err "a plan is at most 512 KiB of Markdown"
  else Ok tt.

(** [Plan::new]; [id] is the first twelve digits of a fresh uuid. *)
Definition plan_new (id project title body created_by : string) (now : instant) : result Plan string :=
  let plan := mkPlan id project (trim title) body PDraft created_by now now in
  match plan_check plan with Ok _ => Ok plan | Err e => Err e end.

Definition plan_summary (p : Plan) : Plan :=
  mkPlan (pl_id p) (pl_project p) (pl_title p) "" (pl_status p) (pl_created_by p) (pl_created_at p) (pl_updated_at p).

Record ProjectFile := mkProjectFile {
  pf_id : string;
  pf_project : string;
  pf_name : string;
  pf_media_type : string;
  pf_size : Z;
  pf_sha256 : string;
  pf_tasks : list string;
  pf_created_by : string;
  pf_created_at : instant;
  pf_updated_at : instant;
}.

Definition valid_file_name (name : string) : bool :=
  let name := trim name in
  (name != "") && (chars_count name <=? FILE_NAME_CHARS)%nat && (name != ".") && (name != "..")
  && negb (existsb (λ c, (c == "/") || (c == "\") || is_control c) (chars name)).

Definition media_type_of (name : string) : string :=
  let ext := match rsplit_once "." (to_lowercase name) with Some (_, e) => e | None => "" end in
  if existsb (eqb ext) ["md"; "markdown"] then "text/markdown"
  else if existsb (eqb ext) ["txt"; "log"] then "text/plain"
  else if ext == "json" then "application/json"
  else if existsb (eqb ext) ["yaml"; "yml"] then "application/yaml"
  else if ext == "toml" then "application/toml"
  else if ext == "csv" then "text/csv"
  else if existsb (eqb ext) ["html"; "htm"] then "text/html"
  else if existsb (eqb ext) ["rs"; "py"; "go"; "js"; "ts"; "tsx"; "sh"; "c"; "h"; "swift"; "java"; "kt"; "rb"; "sql"]
  then "text/plain"
  else if ext == "png" then "image/png"
  else if existsb (eqb ext) ["jpg"; "jpeg"] then "image/jpeg"
  else if ext == "gif" then "image/gif"
  else if ext == "svg" then "image/svg+xml"
  else if ext == "pdf" then "application/pdf"
  else "application/octet-stream".

Definition is_text_media (media_type : string) : bool :=
  starts_with media_type "text/"
  || existsb (eqb media_type) ["application/json"; "application/yaml"; "application/toml"; "image/svg+xml"].
End Plans.

(** ** Facts *)

Module ReviewFacts.

Definition newline_ended (ls : list string) : string := String.concat "" ((λ l, (l ++ newline_str)%string) <$> ls).

(** A line as [lines] gives it back. *)
Definition plain_line (l : string) : Prop := contains_char "010" l = false ∧ strip_last_cr l = l.

Lemma split_newline_ended ls rest :
  Forall plain_line ls →
  split_char "010" (newline_ended ls ++ rest) = app ls (split_char "010" rest).
Proof.
  unfold newline_ended. induction 1 as [|l ls [Hl _] _ IH]; [by rewrite append_nil_l|].
  rewrite fmap_cons, concat_cons, !append_assoc. unfold newline_str at 1. rewrite append_cons, append_nil_l.
  by rewrite PathFacts.split_char_app, PathFacts.split_char_none, IH.
Qed.

Lemma removelast_app_nonempty {A} (l k : list A) : k ≠ [] → removelast (app l k) = app l (removelast k).
Proof. intros Hk. by apply removelast_app. Qed.

(** The lines of a text that begins with whole lines. *)
Lemma lines_of_ended ls rest : Forall plain_line ls → lines_of (newline_ended ls ++ rest) = app ls (lines_of rest).
Proof.
  intros Hls. unfold lines_of. rewrite split_newline_ended by done. pose proof (PathFacts.split_char_nonempty "010" rest) as Hne.
  rewrite removelast_app_nonempty, fmap_app, <-app_assoc by done. f_equal.
  - induction Hls as [|l ls [_ Hl] _ IH]; [done|]. csimpl. by rewrite Hl, IH.
  - f_equal. rewrite last_app. destruct (last (split_char "010" rest)) eqn:E; [done|]. by apply last_None in E.
Qed.

Definition commit_line (c : Commit) : string := cm_sha c ++ String unit_separator (cm_subject c).
Definition commit_ok (c : Commit) : Prop :=
  trim (cm_sha c) = cm_sha c ∧ contains_char unit_separator (cm_sha c) = false ∧ plain_line (commit_line c).

Lemma split_once_first c s t : contains_char c s = false → split_once c (s ++ String c t) = Some (s, t).
Proof.
  unfold contains_char. induction s as [|a s IH]; rewrite ?append_nil_l, ?append_cons; simpl.
  - by rewrite Ascii.eqb_refl.
  - intros [Ha Hs]%orb_false_iff. by rewrite Ascii.eqb_sym, Ha, IH.
Qed.

Lemma parse_commit_line c : commit_ok c → parse_commit (commit_line c) = Some c.
Proof.
  intros (Ht & Hu & _). unfold parse_commit, commit_line. rewrite split_once_first, Ht by done. by destruct c.
Qed.

Lemma take_until_blank_app paths rest :
  Forall (λ l, l ≠ "") paths → take_until_blank (app paths ("" :: rest)) = paths.
Proof. induction 1 as [|l ls Hl _ IH]; simpl; [done|]. by rewrite (proj2 (eqb_false _ _) Hl), IH. Qed.

Lemma trim_incl name c : c ∈ chars (trim name) → c ∈ chars name.
Proof.
  rewrite chars_trim. unfold trim_chars. rewrite list_elem_of_In, <-in_rev, <-list_elem_of_In.
  assert (∀ l : list string, c ∈ drop_ws l → c ∈ l) as Hd.
  { induction l as [|x l IH]; simpl; [done|]. destruct (is_whitespace x); [|done]. intros ?%IH. by right. }
  intros Hc%Hd. rewrite list_elem_of_In, <-in_rev, <-list_elem_of_In in Hc. by apply Hd.
Qed.

Lemma trim_concat name : trim name = String.concat "" (chars (trim name)).
Proof. by rewrite chars_trim. Qed.
End ReviewFacts.

(** ** Theorems *)

Module ReviewProps.
Import ReviewFacts.

(** A merge can be made exactly when nothing is in its way: the
    agent does not already work on the target in the main checkout, no git
    operation is under way there, both branches are checked out, the branch has
    commits the target has not, nothing is uncommitted on either side, nothing
    would conflict and nobody holds a path of it. *)
Theorem merge_can_be_made_iff_clean (r : Review) :
  blockers r = [] ↔
  (path_eqb (rv_checkout r) (rv_target_checkout r) = false ∨ rv_branch r ≠ rv_target r)
  ∧ rv_in_progress r = None ∧ is_Some (rv_branch r) ∧ is_Some (rv_target r)
  ∧ rv_commits r ≠ [] ∧ rv_uncommitted r = [] ∧ rv_target_dirty r = [] ∧ rv_conflicts r = [] ∧ rv_held r = [].
Proof.
  unfold blockers, unless_empty. destruct (path_eqb _ _), (rv_branch r == rv_target r) eqn:E, (rv_in_progress r),
    (rv_branch r), (rv_target r), (rv_commits r), (rv_uncommitted r), (rv_target_dirty r), (rv_conflicts r), (rv_held r);
    simpl; split_and_bool; naive_solver.
Qed.



(** A name the project can keep names one entry of the directory it
    is kept in: joined to any directory it adds exactly one component, and never
    leaves it. *)
Theorem kept_file_name_is_one_component (dir name : string) (Hutf : utf8_valid name = true)
    (Hname : valid_file_name name = true) :
  components (path_join dir [Normal (trim name)]) = app (components dir) [Normal (trim name)].
Proof.
  apply (PathFacts.components_join dir [trim name]). constructor; [|constructor].
  unfold valid_file_name in Hname. split_and_bool. split_and!; try done.
  apply utf8_valid_chars in Hutf as [_ Halone]. rewrite trim_concat. apply concat_without; [done|].
  apply Forall_forall. intros c Hc. pose proof (chars_shaped (trim name)) as Hs.
  rewrite Forall_forall in Hs, Halone. split_and!; [by apply Hs|by apply Halone, trim_incl|]. intros ->.
  match goal with H : existsb _ _ = false |- _ =>
    apply not_true_iff_false in H; destruct H; apply existsb_exists; exists "/"; split; [by apply list_elem_of_In|done] end.
Qed.

Lemma kept_file_name_is_one_component_witness :
  components (path_join "/files" [Normal (trim " notes.md ")]) = app (components "/files") [Normal (trim " notes.md ")].
Proof. apply (kept_file_name_is_one_component "/files" " notes.md "); reflexivity. Defined.

(** A rename inside a directory loses its counts: numstat writes it
    with braces, and that is never the path name-status gives. *)
Lemma renamed_in_directory_loses_counts :
  parse_files (newline_ended [("R090" ++ String "009" "src/old.rs" ++ String "009" "src/new.rs")%string])
    (newline_ended [("7" ++ String "009" "2" ++ String "009" "src/{old.rs => new.rs}")%string])
  = [mkFile "src/new.rs" "R" None None]
  ∧ parse_files (newline_ended [("R090" ++ String "009" "old.rs" ++ String "009" "new.rs")%string])
      (newline_ended [("7" ++ String "009" "2" ++ String "009" "old.rs => new.rs")%string])
    = [mkFile "new.rs" "R" (Some 7%Z) (Some 2%Z)].
Proof. split; vm_compute; reflexivity. Qed.
End ReviewProps.
