(* ===== verification/Contest.v ===== *)
(** * Contests

    [crates/core/src/contest.rs]: several agents attempt one task under a measure
    declared before anyone starts; and how an entry is taken and a contest closed
    in [crates/agentd/src/daemon/contests.rs] ([submit_entry], [close_contest]),
    without the channel, the journal and the store. A validation is that of
    [Handoff]; scores are binary64. *)

From Stdlib Require Import Ascii SpecFloat.
From stdpp Require Import pretty.
From S2P Require Import Prelude RustStr Order Json Memory Handoff.

Local Open Scope rust_scope.

(** ** The measure *)

Inductive Measure :=
| ValidationSeconds
| Reported (name : string).

Definition measure_name (m : Measure) : string :=
  match m with ValidationSeconds => "validation seconds" | Reported name => name end.
Definition measured (m : Measure) : bool := match m with ValidationSeconds => true | Reported _ => false end.

Inductive Direction := Lower | Higher.

Record Metric := mkMetric { me_measure : Measure; me_direction : Direction; me_noise : f64 }.

Definition is_lower (d : Direction) : bool := match d with Lower => true | Higher => false end.

Definition beats (m : Metric) (a b : f64) : bool :=
  Bool.eqb (f64_ltb (me_noise m) (f64_sub b a)) (is_lower (me_direction m))
  && f64_ltb (me_noise m) (f64_abs (f64_sub a b)).
Definition ties (m : Metric) (a b : f64) : bool := f64_leb (f64_abs (f64_sub a b)) (me_noise m).

(** ** Contests *)

Record Entry := mkEntry {
  en_agent : string;
  en_checkout : string;
  en_head : option string;
  en_validation : string;
  en_score : f64;
  en_submitted_at : instant;
}.

Inductive ContestStanding :=
| CsOpen (entrants entries : nat)
| CsLeader (agent : string) (score : f64) (margin : option f64)
| CsTied (agents : list string) (score : f64)
| CsSettled (winner : string) (resolution : option string).

Record Contest := mkContest {
  co_id : string;
  co_project : string;
  co_task : string;
  co_metric : Metric;
  co_opened_by : string;
  co_opened_at : instant;
  co_entrants : list string;
  co_entries : list Entry;
  co_channel : option string;
  co_closed_at : option instant;
  co_winner : option string;
  co_resolution : option string;
}.

Inductive EntryError := EClosed | ENotEntered | EProvenance (why : string) | EFailed.
Definition entry_error_display (e : EntryError) : string :=
  match e with
  | EClosed => "the contest is closed"
  | ENotEntered => "this agent is not in the contest"
  | EProvenance why => "the evidence does not match the entry: " ++ why
  | EFailed => "the validation did not pass, so the entry cannot be ranked"
  end.

(** [Contest::new]; [id] is the one [ContestId::generate] made. *)
Definition contest_new (id project task : string) (metric : Metric) (opened_by : string) (entrants : list string)
    (now : instant) : Contest :=
  mkContest id project task metric opened_by now entrants [] None None None None.

Definition contest_is_open (c : Contest) : bool := is_none (co_closed_at c).
Definition contest_has (c : Contest) (agent : string) : bool := existsb (eqb agent) (co_entrants c).

Definition with_entrants (c : Contest) (entrants : list string) (entries : list Entry) : Contest :=
  mkContest (co_id c) (co_project c) (co_task c) (co_metric c) (co_opened_by c) (co_opened_at c) entrants entries
    (co_channel c) (co_closed_at c) (co_winner c) (co_resolution c).

Definition contest_enter (c : Contest) (agent : string) : Contest * bool :=
  if negb (contest_is_open c) || contest_has c agent then (c, false)
  else (with_entrants c (app (co_entrants c) [agent]) (co_entries c), true).

(** The entry of an agent replaced, or one more. *)
Fixpoint put_entry (e : Entry) (es : list Entry) : list Entry :=
  match es with
  | [] => [e]
  | x :: rest => if en_agent x == en_agent e then e :: rest else x :: put_entry e rest
  end.

Definition contest_submit (c : Contest) (e : Entry) (validation_passed : bool) : Contest * result unit EntryError :=
  if negb (contest_is_open c) then (c, Err EClosed)
  else if negb (contest_has c (en_agent e)) then (c, Err ENotEntered)
  else if negb validation_passed then (c, Err EFailed)
  else (with_entrants c (co_entrants c) (put_entry e (co_entries c)), Ok tt).

Definition entry_of (c : Contest) (agent : string) : option Entry :=
  List.find (λ e, en_agent e == agent) (co_entries c).

(** [partial_cmp], equal where it says nothing; reversed where more is better;
    then the older first. *)
Definition entry_cmp (d : Direction) (a b : Entry) : comparison :=
  let by_score := match SFcompare (en_score a) (en_score b) with Some c => c | None => Eq end in
  match (if is_lower d then by_score else CompOpp by_score) with
  | Eq => Z.compare (en_submitted_at a) (en_submitted_at b)
  | c => c
  end.
Definition entry_leb (d : Direction) (a b : Entry) : bool :=
  match entry_cmp d a b with Gt => false | _ => true end.
Definition ranked (c : Contest) : list Entry := sort_by (entry_leb (me_direction (co_metric c))) (co_entries c).

Definition contest_standing (c : Contest) : ContestStanding :=
  match co_winner c with
  | Some winner => CsSettled winner (co_resolution c)
  | None =>
      match ranked c with
      | [] => CsOpen (length (co_entrants c)) 0
      | best :: rest =>
          let tied := en_agent <$> List.filter (λ e, ties (co_metric c) (en_score e) (en_score best)) (best :: rest) in
          if (1 <? length tied)%nat then CsTied tied (en_score best)
          else CsLeader (en_agent best) (en_score best)
                 ((λ next, f64_abs (f64_sub (en_score next) (en_score best))) <$> head rest)
      end
  end.

(** U+2014 *)
Definition em_dash : string := String "226" (String "128" (String "148" "")).
Definition contest_line (c : Contest) : string :=
  co_id c ++ " [" ++ (if contest_is_open c then "open" else "closed") ++ "] " ++ co_task c ++ " " ++ em_dash ++ " by "
  ++ measure_name (me_measure (co_metric c)) ++ " (" ++ pretty (N.of_nat (length (co_entrants c))) ++ " entrant(s), "
  ++ pretty (N.of_nat (length (co_entries c))) ++ " entry(ies))".

(** ** As the daemon takes entries and closes *)

Definition describe_failure (v : Validation) : string :=
  match va_error v with
  | Some error => error
  | None =>
      if va_timed_out v then "it timed out"
      else if va_descendants_survived v then "child processes were still running when it finished"
      else if va_after v != Some (va_before v) then "the code changed while it ran"
      else match va_exit_code v with
           | Some code => "it exited " ++ pretty code
           | None => "it did not exit cleanly"
           end
  end.

(** [(finished - started).num_milliseconds() as f64 / 1000.0] *)
Definition validation_score (v : Validation) : f64 :=
  f64_div (f64_of_Z (Z.quot (va_finished_at v - va_started_at v) 1_000_000)) (f64_of_Z 1000).

Inductive SubmitError :=
| NotYours (agent : string)
| DidNotPass (why : string)
| NotANumber
| NoScore (name : string)
| NotTaken (e : EntryError).

Definition submit_entry (c : Contest) (agent validation : string) (evidence : Validation) (reported : option f64)
    (now : instant) : Contest * option SubmitError :=
  if va_agent evidence != agent then (c, Some (NotYours (va_agent evidence)))
  else if negb (passed evidence) then (c, Some (DidNotPass (describe_failure evidence)))
  else
    match (match me_measure (co_metric c) with
           | ValidationSeconds => Ok (validation_score evidence)
           | Reported name =>
               match reported with
               | Some score => if f64_is_finite score then Ok score else Err NotANumber
               | None => Err (NoScore name)
               end
           end) with
    | Err e => (c, Some e)
    | Ok score =>
        match contest_submit c (mkEntry agent (va_checkout evidence) (va_head evidence) validation score now) true with
        | (c, Ok _) => (c, None)
        | (c, Err e) => (c, Some (NotTaken e))
        end
    end.

Inductive CloseError := AlreadyClosed | NotAParty | StillTied (n : nat) | NothingToDecide | NoPassingEntry.

Definition close_contest (c : Contest) (closer : string) (winner resolution : option string) (now : instant)
    : Contest * option CloseError :=
  if negb (contest_is_open c) then (c, Some AlreadyClosed)
  else if negb (contest_has c closer) && (co_opened_by c != closer) then (c, Some NotAParty)
  else
    match (match winner with
           | Some w => Ok w
           | None => match contest_standing c with
                     | CsLeader agent _ _ => Ok agent
                     | CsTied agents _ => Err (StillTied (length agents))
                     | _ => Err NothingToDecide
                     end
           end) with
    | Err e => (c, Some e)
    | Ok w =>
        if is_none (entry_of c w) then (c, Some NoPassingEntry)
        else (mkContest (co_id c) (co_project c) (co_task c) (co_metric c) (co_opened_by c) (co_opened_at c)
                (co_entrants c) (co_entries c) (co_channel c) (Some now) (Some w) resolution, None)
    end.

(** ** Facts *)

Module ContestFacts.

(** *** Ranking *)

(** The order of finite scores, both zeros alike. *)
Definition score_key (f : f64) : Z * (Z * Z) :=
  match f with
  | S754_finite true m e => (-1, (- e, - Z.pos m))%Z
  | S754_finite false m e => (1, (e, Z.pos m))%Z
  | _ => (0, (0, 0))%Z
  end.

Lemma score_compare a b :
  f64_is_finite a = true → f64_is_finite b = true → SFcompare a b = Some (cmp (score_key a) (score_key b)).
Proof.
  destruct a as [sa|sa| |sa ma ea], b as [sb|sb| |sb mb eb]; try done; intros _ _; [by destruct sb|by destruct sa|].
  destruct sa, sb; try done. cbn. unfold prod_cmp. cbn. unfold prod_cmp. cbn.
  rewrite Z.compare_opp. destruct (ea ?= eb)%Z eqn:E.
  - apply Z.compare_eq_iff in E as ->. rewrite Z.compare_refl. done.
  - rewrite Z.compare_antisym, E. done.
  - rewrite Z.compare_antisym, E. done.
Qed.

Definition negated (k : Z * (Z * Z)) : Z * (Z * Z) := (- k.1, (- k.2.1, - k.2.2))%Z.

Lemma cmp_negated a b : cmp (negated a) (negated b) = CompOpp (cmp a b).
Proof.
  destruct a as [a1 [a2 a3]], b as [b1 [b2 b3]]. cbn. unfold prod_cmp. cbn. unfold prod_cmp. cbn.
  rewrite !Z.compare_opp, (Z.compare_antisym a1 b1), (Z.compare_antisym a2 b2), (Z.compare_antisym a3 b3).
  by destruct (a1 ?= b1)%Z; simpl; [destruct (a2 ?= b2)%Z|..].
Qed.

Definition entry_rank (d : Direction) (e : Entry) : (Z * (Z * Z)) * Z :=
  (if is_lower d then score_key (en_score e) else negated (score_key (en_score e)), en_submitted_at e).

Definition finite_scores (es : list Entry) : Prop := Forall (λ e, f64_is_finite (en_score e) = true) es.

Lemma entry_leb_key d a b :
  f64_is_finite (en_score a) = true → f64_is_finite (en_score b) = true →
  entry_leb d a b = key_leb (entry_rank d) a b.
Proof.
  intros Ha Hb. assert (∀ (k l : Z * (Z * Z)) (x y : Z),
    cmp (k, x) (l, y) = match cmp k l with Eq => Z.compare x y | c => c end) as Hpair by done.
  unfold entry_leb, entry_cmp, key_leb, entry_rank. rewrite Hpair, score_compare by done.
  destruct d; cbn [is_lower]; [done|]. by rewrite cmp_negated.
Qed.

Lemma sort_by_ext {A} (f g : A → A → bool) l :
  (∀ x y, x ∈ l → y ∈ l → f x y = g x y) → sort_by f l = sort_by g l.
Proof.
  induction l as [|x l IH]; intros He; [done|].
  change (insert_by f x (sort_by f l) = insert_by g x (sort_by g l)). rewrite IH by (intros; apply He; by right).
  assert (∀ k, k ⊆ l → insert_by f x k = insert_by g x k) as Hi.
  { induction k as [|y k IHk]; intros Hk; [done|]. simpl. rewrite (He x y) by set_solver. rewrite IHk by set_solver. done. }
  apply Hi. intros y. by rewrite elem_of_sort_by.
Qed.

(** Best first: nobody stands before one that ranks above it. *)
Lemma ranked_sorted c :
  finite_scores (co_entries c) →
  StronglySorted (λ a b, cmp_le (entry_rank (me_direction (co_metric c)) a) (entry_rank (me_direction (co_metric c)) b)) (ranked c).
Proof.
  intros Hf. unfold ranked. rewrite (sort_by_ext _ (key_leb (entry_rank (me_direction (co_metric c))))).
  - apply sort_by_key_sorted.
  - intros x y Hx Hy. unfold finite_scores in Hf. rewrite Forall_forall in Hf. by apply entry_leb_key; apply Hf.
Qed.

(** *** Entries *)

Lemma elem_of_put_entry e es x : x ∈ put_entry e es → x = e ∨ x ∈ es.
Proof.
  induction es as [|y es IH]; simpl; [set_solver|]. destruct (en_agent y == en_agent e); [set_solver|].
  rewrite !elem_of_cons. naive_solver.
Qed.

Lemma put_entry_agents e es a : a ∈ en_agent <$> put_entry e es ↔ a = en_agent e ∨ a ∈ en_agent <$> es.
Proof.
  induction es as [|y es IH]; csimpl; [set_solver|]. destruct (en_agent y == en_agent e) eqn:E; split_and_bool; csimpl.
  - rewrite !elem_of_cons, E. naive_solver.
  - rewrite !elem_of_cons, IH. naive_solver.
Qed.

Lemma put_entry_NoDup e es : NoDup (en_agent <$> es) → NoDup (en_agent <$> put_entry e es).
Proof.
  induction es as [|y es IH]; csimpl; [by intros; apply NoDup_singleton|]. rewrite NoDup_cons. intros [Hy Hes].
  destruct (en_agent y == en_agent e) eqn:E; split_and_bool; csimpl; apply NoDup_cons.
  - by rewrite <-E.
  - rewrite put_entry_agents. split; [naive_solver|auto].
Qed.

(** The evidence an entry was taken on. *)
Definition evidenced (m : Metric) (e : Entry) : Prop :=
  ∃ v, passed v = true ∧ va_agent v = en_agent e ∧ en_checkout e = va_checkout v ∧ en_head e = va_head v
       ∧ if measured (me_measure m) then en_score e = validation_score v else f64_is_finite (en_score e) = true.

Record fair (m : Metric) (c : Contest) : Prop := {
  fa_metric : co_metric c = m;
  fa_one : NoDup (en_agent <$> co_entries c);
  fa_entered : ∀ e, e ∈ co_entries c → en_agent e ∈ co_entrants c;
  fa_evidence : ∀ e, e ∈ co_entries c → evidenced m e;
  fa_winner : ∀ w, co_winner c = Some w → ∃ e, e ∈ co_entries c ∧ en_agent e = w;
  fa_closed : is_Some (co_winner c) ↔ is_Some (co_closed_at c);
}.

(** One thing that happens to a contest. *)
Inductive contest_step : Contest → Contest → Prop :=
| step_enter c agent : contest_step c (contest_enter c agent).1
| step_submit c agent validation evidence reported now :
    contest_step c (submit_entry c agent validation evidence reported now).1
| step_close c closer winner resolution now : contest_step c (close_contest c closer winner resolution now).1.

Lemma fair_enter m c agent : fair m c → fair m (contest_enter c agent).1.
Proof.
  intros [H1 H2 H3 H4 H5 H6]. unfold contest_enter. destruct (negb _ || _); [by split|]. split; simpl; try done.
  intros e He. apply elem_of_app. left. by apply H3.
Qed.

Lemma contest_has_elem c a : contest_has c a = true ↔ a ∈ co_entrants c.
Proof.
  unfold contest_has. rewrite existsb_exists, list_elem_of_In. split.
  - intros (x & Hx & E). split_and_bool. by subst.
  - intros Ha. exists a. split; [done|]. by apply eqb_true.
Qed.

Lemma fair_submit m c agent validation v reported now :
  fair m c → fair m (submit_entry c agent validation v reported now).1.
Proof.
  intros Hf. pose proof Hf as [H1 H2 H3 H4 H5 H6]. unfold submit_entry.
  destruct (va_agent v == agent) eqn:Ea; simpl; [|done]. destruct (passed v) eqn:Ep; simpl; [|done]. split_and_bool.
  destruct (match me_measure (co_metric c) with ValidationSeconds => _ | Reported _ => _ end) as [score|e] eqn:Es; [|done].
  set (e := mkEntry _ _ _ _ _ _). unfold contest_submit. destruct (contest_is_open c) eqn:Eo; simpl; [|done].
  destruct (contest_has c agent) eqn:Eh; simpl; [|done]. apply contest_has_elem in Eh.
  assert (evidenced m e) as He.
  { exists v. rewrite <-H1. split_and!; try done. destruct (me_measure (co_metric c)); simpl; [by simplify_eq|].
    destruct reported as [r|]; [|done]. by destruct (f64_is_finite r) eqn:Er; simplify_eq. }
  split; simpl; [done|by apply put_entry_NoDup| | | |done].
  - intros x [->|Hx]%elem_of_put_entry; [done|by apply H3].
  - intros x [->|Hx]%elem_of_put_entry; [done|by apply H4].
  - intros w (x & Hx & <-)%H5. assert (en_agent x ∈ en_agent <$> put_entry e (co_entries c)) as Hin.
    { apply put_entry_agents. right. by apply list_elem_of_fmap_2. }
    apply list_elem_of_fmap in Hin as (y & Hy & Hin). by exists y.
Qed.

Lemma fair_close m c closer winner resolution now : fair m c → fair m (close_contest c closer winner resolution now).1.
Proof.
  intros Hf. pose proof Hf as [H1 H2 H3 H4 H5 H6]. unfold close_contest.
  destruct (negb (contest_is_open c)); [done|]. destruct (negb _ && _); [done|].
  destruct (match winner with Some w => Ok w | None => _ end) as [w|e]; [|done].
  destruct (entry_of c w) as [e|] eqn:E; simpl; [|done]. split; simpl; try done.
  intros w' [= <-]. unfold entry_of in E. apply List.find_some in E as [Hin Ea]. split_and_bool.
  exists e. split; [by apply list_elem_of_In|done].
Qed.

Lemma fair_new id project task m opened_by entrants now : fair m (contest_new id project task m opened_by entrants now).
Proof.
  split; simpl; [done|constructor| | |done|].
  - intros e He. by apply not_elem_of_nil in He.
  - intros e He. by apply not_elem_of_nil in He.
  - split; by intros [].
Qed.
End ContestFacts.

(** ** Theorems *)

Module ContestProps.
Import ContestFacts.


(** What a contest says of itself is what its entries say: while
    nobody decided, it is open when there is no entry; otherwise the best is an
    entry that no other ranks above, a tie is between everyone within the noise of
    it and at least two are, and a leader has nobody else within the noise. *)
Theorem standing_is_what_the_entries_say c (Hw : co_winner c = None) (Hf : finite_scores (co_entries c)) :
  let d := me_direction (co_metric c) in
  match contest_standing c with
  | CsOpen entrants entries => co_entries c = [] ∧ entrants = length (co_entrants c) ∧ entries = 0%nat
  | CsTied agents score =>
      ∃ best rest, co_entries c ≡ₚ best :: rest ∧ en_score best = score
        ∧ (∀ e, e ∈ co_entries c → cmp_le (entry_rank d best) (entry_rank d e))
        ∧ agents ≡ₚ en_agent <$> List.filter (λ e, ties (co_metric c) (en_score e) score) (co_entries c)
        ∧ (2 ≤ length agents)%nat
  | CsLeader agent score _ =>
      ∃ best rest, co_entries c ≡ₚ best :: rest ∧ en_agent best = agent ∧ en_score best = score
        ∧ (∀ e, e ∈ co_entries c → cmp_le (entry_rank d best) (entry_rank d e))
        ∧ (ties (co_metric c) score score = true → ∀ e, e ∈ rest → ties (co_metric c) (en_score e) score = false)
  | CsSettled _ _ => False
  end.
Proof.
  intros d. unfold contest_standing. rewrite Hw. pose proof (ranked_sorted c Hf) as Hs. fold d in Hs.
  assert (ranked c ≡ₚ co_entries c) as Hp by apply sort_by_perm.
  destruct (ranked c) as [|best rest]; [by apply Permutation_nil_l in Hp|].
  assert (∀ e, e ∈ co_entries c → cmp_le (entry_rank d best) (entry_rank d e)) as Hbest.
  { intros e He. rewrite <-Hp in He. inversion Hs as [|? ? _ Hall]; subst. apply elem_of_cons in He as [->|He].
    - apply cmp_le_refl.
    - rewrite Forall_forall in Hall. by apply Hall. }
  destruct (Nat.ltb_spec 1 (length (en_agent <$> List.filter (λ e, ties (co_metric c) (en_score e) (en_score best)) (best :: rest))))
    as [Hlen|Hlen].
  - exists best, rest. split_and!; [done|done|done| |done]. by apply fmap_Permutation, MemoryFacts.list_filter_perm.
  - exists best, rest. split_and!; try done. intros Hself e He. simpl in Hlen. rewrite Hself in Hlen. csimpl in Hlen.
    apply not_true_is_false. intros Ht. rewrite length_fmap in Hlen.
    assert (e ∈ List.filter (λ e, ties (co_metric c) (en_score e) (en_score best)) rest) as Hin.
    { apply list_elem_of_In, filter_In. split; [by apply list_elem_of_In|done]. }
    destruct (List.filter _ rest); [by apply not_elem_of_nil in Hin|]. simpl in Hlen. lia.
Qed.

Definition w_metric : Metric := mkMetric ValidationSeconds Lower (f64_of_Z 0).
Definition w_validation (agent : string) (ms : Z) : Validation :=
  mkValidation "v" agent "/w" ["make"] 0 (ms * 1_000_000) None "t" (Some "t") (Some 0%Z) false false "" None None None.
Definition w_contest : Contest :=
  (close_contest (submit_entry (contest_enter (contest_new "c" "p" "faster" w_metric "a" ["a"] 0) "b").1
                    "b" "v" (w_validation "b" 1500) None 1).1 "a" None None 2).1.


Definition w_two : Contest :=
  (submit_entry (submit_entry (contest_new "c" "p" "faster" w_metric "a" ["a"; "b"] 0)
     "a" "v" (w_validation "a" 2000) None 1).1 "b" "w" (w_validation "b" 1500) None 2).1.

Lemma standing_is_what_the_entries_say_witness :
  ∃ best rest, co_entries w_two ≡ₚ best :: rest ∧ en_agent best = "b".
Proof.
  pose proof (standing_is_what_the_entries_say w_two eq_refl ltac:(repeat constructor)) as H. vm_compute in H.
  destruct H as (best & rest & Hp & Ha & _). exists best, rest. split; [exact Hp|exact Ha].
Defined.
End ContestProps.
