(* ===== verification/Handover.v ===== *)
(** * Handing coordination over to a successor

    How a running daemon gives the database to the process that replaces it: the
    transfer row of the store ([crates/agentd/src/store.rs], [offer_transfer],
    [readdress_transfer], [settle_transfer]), the fence and the count of admitted
    requests ([crates/agentd/src/daemon.rs]: [handle_authorized],
    [readmit_locked], [offer_transfer], [readdress_offer], [abort_transfer],
    [persist]), and the protocol of the two processes
    ([crates/agentd/src/daemon/reload.rs]: [replace], [accept_transfer], the
    check of a handover). Any number of processes run over one database and may
    die at any point ([handover_step]).

    Outside the model, and arguments of the operations: the clock, the fresh
    transfer id, whether a statement of the store succeeds, how many events the
    recovery of an opening daemon writes, and whether a process can be spawned
    and sent its descriptors. The check of the candidate's build is left out. *)

From S2P Require Import Prelude.

Local Open Scope rust_scope.

(** ** The database *)

Inductive TransferState := Offered | Accepted | Aborted.
Global Instance TransferState_eq_dec : EqDecision TransferState.
Proof. solve_decision. Defined.

Record Transfer := mkTransfer {
  tr_id : string;
  tr_predecessor_pid : Z;
  tr_successor_pid : option Z;
  tr_state : TransferState;
  tr_offered_at : instant;
  tr_settled_at : option instant;
}.

(** The events of a transfer; any other is [OtherEvent]. *)
Inductive TransferEvent :=
| DaemonTransferOffered (transfer : string) (successor_pid : Z)
| DaemonTransferReaddressed (transfer : string) (successor_pid : Z)
| DaemonTransferAborted (transfer reason : string)
| DaemonTransferAccepted (transfer : string)
| OtherEvent.

(** The row of the coordinator and the numbered events, those pruned since
    included: the table's sequence remembers their numbers. *)
Record Database := mkDatabase {
  db_transfer : option Transfer;
  db_events : list (Z * TransferEvent);
}.

Definition max_event_seq (d : Database) : Z := foldr Z.max 0%Z (db_events d).*1.

(** A number is taken once: it is the table's key. *)
Definition append_event (d : Database) (e : Z * TransferEvent) : option Database :=
  if bool_decide (e.1 ∈ (db_events d).*1) then None
  else Some (mkDatabase (db_transfer d) (app (db_events d) [e])).

Fixpoint append_events (d : Database) (es : list (Z * TransferEvent)) : option Database :=
  match es with
  | [] => Some d
  | e :: es => match append_event d e with Some d => append_events d es | None => None end
  end.

(** The three operations on the row, each one transaction: [None] when a
    statement fails and nothing is kept, else whether the row was ours to
    change. *)
Definition put_row (d : Database) (t : Transfer) (e : Z * TransferEvent) : option (bool * Database) :=
  match append_event (mkDatabase (Some t) (db_events d)) e with
  | Some d => Some (true, d)
  | None => None
  end.

Definition store_offer (ok : bool) (d : Database) (t : Transfer) (e : Z * TransferEvent) : option (bool * Database) :=
  if negb ok then None
  else match db_transfer d with
  | Some current =>
      if (tr_state current == Offered) && (tr_id current != tr_id t) then Some (false, d) else put_row d t e
  | None => put_row d t e
  end.

Definition store_readdress (ok : bool) (d : Database) (id : string) (successor : Z) (e : Z * TransferEvent)
    : option (bool * Database) :=
  if negb ok then None
  else match db_transfer d with
  | None => Some (false, d)
  | Some current =>
      if (tr_id current != id) || (tr_state current != Offered) then Some (false, d)
      else put_row d (mkTransfer (tr_id current) (tr_predecessor_pid current) (Some successor) (tr_state current)
                        (tr_offered_at current) (tr_settled_at current)) e
  end.

Definition store_settle (ok : bool) (d : Database) (id : string) (successor : option Z) (to : TransferState)
    (settled_at : instant) (e : Z * TransferEvent) : option (bool * Database) :=
  if negb ok then None
  else match db_transfer d with
  | None => Some (false, d)
  | Some current =>
      if (tr_id current != id) || (tr_state current != Offered) then Some (false, d)
      else if is_some_and (λ pid, tr_successor_pid current != Some pid) successor then Some (false, d)
      else put_row d (mkTransfer (tr_id current) (tr_predecessor_pid current) (tr_successor_pid current) to
                        (tr_offered_at current) (Some settled_at)) e
  end.

(** ** One process *)

Inductive Coordination := Serving | Quiescing (transfer : string) | Transferred (transfer : string).
Global Instance Coordination_eq_dec : EqDecision Coordination.
Proof. solve_decision. Defined.

(** Of the daemon's state: who may write, the latched storage failure, a write
    the fence skipped, the admitted requests still executing, the next event
    number and the recovery writes held back, as the events each writes. *)
Record Process := mkProcess {
  pr_coordination : Coordination;
  pr_storage_error : bool;
  pr_skipped_write : bool;
  pr_in_flight : Z;
  pr_next_seq : Z;
  pr_deferred : list (list TransferEvent);
  pr_owner_successor : option Z;
}.

Definition with_coordination (c : Coordination) (p : Process) : Process :=
  mkProcess c (pr_storage_error p) (pr_skipped_write p) (pr_in_flight p) (pr_next_seq p) (pr_deferred p) (pr_owner_successor p).
Definition with_flight (n : Z) (p : Process) : Process :=
  mkProcess (pr_coordination p) (pr_storage_error p) (pr_skipped_write p) n (pr_next_seq p) (pr_deferred p) (pr_owner_successor p).
Definition with_seq (n : Z) (p : Process) : Process :=
  mkProcess (pr_coordination p) (pr_storage_error p) (pr_skipped_write p) (pr_in_flight p) n (pr_deferred p) (pr_owner_successor p).
Definition with_failed (p : Process) : Process :=
  mkProcess (pr_coordination p) true (pr_skipped_write p) (pr_in_flight p) (pr_next_seq p) (pr_deferred p) (pr_owner_successor p).
Definition with_skipped (b : bool) (p : Process) : Process :=
  mkProcess (pr_coordination p) (pr_storage_error p) b (pr_in_flight p) (pr_next_seq p) (pr_deferred p) (pr_owner_successor p).
Definition with_deferred (l : list (list TransferEvent)) (p : Process) : Process :=
  mkProcess (pr_coordination p) (pr_storage_error p) (pr_skipped_write p) (pr_in_flight p) (pr_next_seq p) l (pr_owner_successor p).
Definition with_owner_successor (s : option Z) (p : Process) : Process :=
  mkProcess (pr_coordination p) (pr_storage_error p) (pr_skipped_write p) (pr_in_flight p) (pr_next_seq p) (pr_deferred p) s.

Definition fenced (p : Process) : bool := pr_coordination p != Serving.

(** [write_failure]: a latched failure, or a skip while the fence stands. *)
Definition refuses_writes (p : Process) : bool := pr_storage_error p || (pr_skipped_write p && fenced p).

(** *** Admission *)

(** [handle_authorized] up to the handler: [None] is a refusal. A request that
    writes is counted. *)
Definition admit_request (mutates : bool) (p : Process) : option Process :=
  if pr_storage_error p then None
  else if mutates then if fenced p then None else Some (with_flight (pr_in_flight p + 1)%Z p)
  else Some p.

Definition admit_background (p : Process) : option Process := admit_request true p.

Definition readmit_locked (p : Process) : option Process :=
  if fenced p then None else Some (with_flight (pr_in_flight p + 1)%Z p).

(** The place is given back. *)
Definition drop_in_flight (p : Process) : Process := with_flight (Z.max 0 (pr_in_flight p - 1)) p.

(** *** Writing *)

Fixpoint numbered (seq : Z) (kinds : list TransferEvent) : list (Z * TransferEvent) :=
  match kinds with [] => [] | k :: kinds => (seq, k) :: numbered (seq + 1)%Z kinds end.

Inductive Landed := LandedCommitted | LandedSkipped | LandedFailed.

(** [commit] over [persist]. *)
Definition commit_kinds (ok : bool) (p : Process) (d : Database) (kinds : list TransferEvent)
    : Landed * Process * Database :=
  if pr_storage_error p then (LandedFailed, p, d)
  else if fenced p then (LandedSkipped, with_skipped true p, d)
  else match (if ok then append_events d (numbered (pr_next_seq p) kinds) else None) with
  | None => (LandedFailed, with_failed p, d)
  | Some d => (LandedCommitted, with_seq (pr_next_seq p + Z.of_nat (length kinds))%Z (with_skipped false p), d)
  end.

(** *** The transfer *)

Inductive OfferError := OfferWriteFailure | OfferConflict | OfferBackpressure (in_flight : Z).

Definition offer_transfer (ok : bool) (p : Process) (d : Database) (pid : Z) (id : string) (successor_pid : Z)
    (now : instant) : result Transfer OfferError * Process * Database :=
  if refuses_writes p then (Err OfferWriteFailure, p, d)
  else if fenced p then (Err OfferConflict, p, d)
  else if (0 <? pr_in_flight p)%Z then (Err (OfferBackpressure (pr_in_flight p)), p, d)
  else
    let t := mkTransfer id pid (Some successor_pid) Offered now None in
    match store_offer ok d t (pr_next_seq p, DaemonTransferOffered id successor_pid) with
    | Some (true, d) => (Ok t, with_coordination (Quiescing id) (with_seq (pr_next_seq p + 1)%Z p), d)
    | Some (false, d) => (Err OfferConflict, p, d)
    | None => (Err OfferWriteFailure, with_failed p, d)
    end.

(** [born]: whether the successor's start could be read. *)
Definition readdress_offer (ok : bool) (p : Process) (d : Database) (transfer : string) (successor_pid : Z) (born : bool)
    : bool * Process * Database :=
  match pr_coordination p with
  | Quiescing current =>
      if current != transfer then (false, p, d)
      else match store_readdress ok d transfer successor_pid
                   (pr_next_seq p, DaemonTransferReaddressed transfer successor_pid) with
      | Some (true, d) =>
          (true, with_owner_successor (if born then Some successor_pid else None) (with_seq (pr_next_seq p + 1)%Z p), d)
      | Some (false, d) => (false, p, d)
      | None => (false, p, d)
      end
  | _ => (false, p, d)
  end.

Definition abort_transfer (ok : bool) (p : Process) (d : Database) (reason : string) (now : instant)
    : bool * Process * Database :=
  let p := with_owner_successor None p in
  match pr_coordination p with
  | Quiescing transfer =>
      match store_settle ok d transfer None Aborted now (pr_next_seq p, DaemonTransferAborted transfer reason) with
      | Some (true, d) =>
          (true, with_seq (pr_next_seq p + 1)%Z (with_skipped false (with_coordination Serving p)), d)
      | Some (false, d) => (false, with_coordination (Transferred transfer) p, d)
      | None => (false, p, d)
      end
  | _ => (negb (fenced p), p, d)
  end.

(** The recovery held back runs in order; a failure latches and ends it. *)
Fixpoint run_deferred (oks : list bool) (p : Process) (d : Database) (writes : list (list TransferEvent))
    : Process * Database :=
  match writes with
  | [] => (p, d)
  | kinds :: writes =>
      match commit_kinds (default true (head oks)) p d kinds with
      | (LandedFailed, p, d) => (p, d)
      | (_, p, d) => run_deferred (tail oks) p d writes
      end
  end.

Definition accept_transfer (ok : bool) (oks : list bool) (p : Process) (d : Database) (pid : Z) (transfer : string)
    (now : instant) : bool * Process * Database :=
  match store_settle ok d transfer (Some pid) Accepted now (pr_next_seq p, DaemonTransferAccepted transfer) with
  | Some (true, d) =>
      let deferred := pr_deferred p in
      let p := with_deferred [] (with_coordination Serving (with_seq (pr_next_seq p + 1)%Z p)) in
      let '(p, d) := run_deferred oks p d deferred in (true, p, d)
  | Some (false, d) => (false, p, d)
  | None => (false, p, d)
  end.

(** *** Opening *)

(** The recovery of an opening daemon, write by write; [None] when one fails
    and the daemon does not come up. *)
Fixpoint recover (oks : list bool) (seq : Z) (d : Database) (writes : list (list TransferEvent)) : option Z * Database :=
  match writes with
  | [] => (Some seq, d)
  | kinds :: writes =>
      match (if default true (head oks) then append_events d (numbered seq kinds) else None) with
      | Some d => recover (tail oks) (seq + Z.of_nat (length kinds))%Z d writes
      | None => (None, d)
      end
  end.

(** [with_store]: an offer in the database fences this process, and its
    recovery waits. *)
Definition open_daemon (oks : list bool) (d : Database) (writes : list (list TransferEvent))
    : option Process * Database :=
  let seq := (max_event_seq d + 1)%Z in
  match db_transfer d with
  | Some t =>
      if tr_state t == Offered
      then (Some (mkProcess (Quiescing (tr_id t)) false false 0 seq writes None), d)
      else match recover oks seq d writes with
           | (Some seq, d) => (Some (mkProcess Serving false false 0 seq [] None), d)
           | (None, d) => (None, d)
           end
  | None => match recover oks seq d writes with
            | (Some seq, d) => (Some (mkProcess Serving false false 0 seq [] None), d)
            | (None, d) => (None, d)
            end
  end.

(** *** What is handed over *)

Definition FORMAT : Z := 2.

Record Terminal := mkTerminal { te_agent : string; te_fd : nat }.
Record Adopted := mkAdopted { ad_agent : string; ad_pid : Z; ad_started_at : option instant }.

Record Handover := mkHandover {
  ho_format : Z;
  ho_transfer : string;
  ho_listener : nat;
  ho_lock : nat;
  ho_restricted : option nat;
  ho_home : string;
  ho_socket : string;
  ho_terminals : list Terminal;
  ho_adopted : list Adopted;
}.

Inductive HandoverError :=
| WrongFormat (format : Z)
| MissingDescriptor (index arrived : nat)
| SharedDescriptor
| SharedAgent
| UnverifiedProcess (pid : Z).

Definition named_descriptors (h : Handover) : list nat :=
  app [ho_listener h; ho_lock h] (app (option_list (ho_restricted h)) (te_fd <$> ho_terminals h)).

(** [accept] of [reload.rs], once the map is read: [arrived] descriptors came
    with it. *)
Definition check_handover (h : Handover) (arrived : nat) : result unit HandoverError :=
  if ho_format h != FORMAT then Err (WrongFormat (ho_format h))
  else match List.find (λ index, arrived <=? index) (named_descriptors h) with
  | Some index => Err (MissingDescriptor index arrived)
  | None =>
      if negb (bool_decide (NoDup (named_descriptors h))) then Err SharedDescriptor
      else if negb (bool_decide (NoDup (te_agent <$> ho_terminals h))) then Err SharedAgent
      else match List.find (λ a, is_none (ad_started_at a)) (ho_adopted h) with
           | Some a => Err (UnverifiedProcess (ad_pid a))
           | None => Ok tt
           end
  end.

(** ** The processes together *)

(** Where a process is in [replace], or as the successor in [main]: [Idle]
    otherwise. [Doubting]: the successor is silent and the store was asked;
    [Withdrawing]: it has been killed and the offer is to be aborted. *)
Inductive ReloadPhase :=
| Idle
| Offering (transfer : string)
| Spawning (transfer : string) (successor : Z)
| Addressed (transfer : string) (successor : Z)
| Awaiting (transfer : string) (successor : Z)
| Doubting (transfer : string) (successor : Z)
| Withdrawing (transfer : string)
| Taking (transfer : string).

(** A process: started as a successor and waiting for what it is sent, or
    running. One that runs, or has been sent the handover, holds the lock of the
    home. *)
Inductive Live :=
| Spawned (handed : option string)
| Running (p : Process) (phase : ReloadPhase).

Record World := mkWorld { w_database : Database; w_live : gmap Z Live }.

Definition world_start : World := mkWorld (mkDatabase None []) ∅.

Definition set_live (w : World) (d : Database) (pid : Z) (l : Live) : World := mkWorld d (<[pid := l]> (w_live w)).

(** An ordinary daemon takes the lock itself. *)
Definition vacant (w : World) : Prop := ∀ pid l, w_live w !! pid = Some l → l = Spawned None.

(** A transfer id is drawn at random. *)
Definition fresh_transfer (w : World) (id : string) : Prop :=
  (∀ t, db_transfer (w_database w) = Some t → tr_id t ≠ id)
  ∧ ∀ pid p ph, w_live w !! pid = Some (Running p ph) → pr_coordination p ≠ Quiescing id.

(** A daemon started with nobody before it. *)
Definition start_daemon (oks : list bool) (w : World) (pid : Z) (writes : list (list TransferEvent)) : World :=
  match open_daemon oks (w_database w) writes with
  | (Some p, d) => set_live w d pid (Running p Idle)
  | (None, d) => mkWorld d (w_live w)
  end.

(** The successor takes what it was sent and opens; then it accepts, or exits. *)
Definition open_successor (oks : list bool) (w : World) (pid : Z) (transfer : string) (writes : list (list TransferEvent)) : World :=
  match open_daemon oks (w_database w) writes with
  | (Some p, d) => set_live w d pid (Running p (Taking transfer))
  | (None, d) => mkWorld d (delete pid (w_live w))
  end.

Definition accept_or_exit (ok : bool) (oks : list bool) (w : World) (pid : Z) (p : Process) (transfer : string) (now : instant) : World :=
  match accept_transfer ok oks p (w_database w) pid transfer now with
  | (true, p, d) => set_live w d pid (Running p Idle)
  | (false, _, d) => mkWorld d (delete pid (w_live w))
  end.

Definition begin_reload (ok : bool) (w : World) (pid : Z) (p : Process) (id : string) (now : instant) : World :=
  match offer_transfer ok p (w_database w) pid id pid now with
  | (Ok _, p, d) => set_live w d pid (Running p (Offering id))
  | (Err _, p, d) => set_live w d pid (Running p Idle)
  end.

Definition kill_child (w : World) (pid : Z) (p : Process) (transfer : string) (child : Z) : World :=
  mkWorld (w_database w) (<[pid := Running p (Withdrawing transfer)]> (delete child (w_live w))).

Definition name_successor (ok born : bool) (w : World) (pid : Z) (p : Process) (transfer : string) (child : Z) : World :=
  match readdress_offer ok p (w_database w) transfer child born with
  | (true, p, d) => set_live w d pid (Running p (Addressed transfer child))
  | (false, p, d) => kill_child (mkWorld d (w_live w)) pid p transfer child
  end.

(** The successor did not say it serves: what does the store say? *)
Definition doubt (readable : bool) (w : World) (pid : Z) (p : Process) (transfer : string) (child : Z) : World :=
  match (if readable then db_transfer (w_database w) else None) with
  | Some t =>
      if (tr_id t == transfer) && (tr_state t == Accepted)
      then mkWorld (w_database w) (delete pid (w_live w))
      else set_live w (w_database w) pid (Running p (Doubting transfer child))
  | None => set_live w (w_database w) pid (Running p (Doubting transfer child))
  end.

Definition withdraw (ok : bool) (w : World) (pid : Z) (p : Process) (reason : string) (now : instant) : World :=
  let '(_, p, d) := abort_transfer ok p (w_database w) reason now in set_live w d pid (Running p Idle).

(** A write of any request or tick. *)
Definition write (ok : bool) (w : World) (pid : Z) (p : Process) (ph : ReloadPhase) (kinds : list TransferEvent) : World :=
  let '(_, p, d) := commit_kinds ok p (w_database w) kinds in set_live w d pid (Running p ph).

(** The steps; a process may end at any time ([handover_gone]), which is also
    how a predecessor leaves once its successor serves. [handover_unheard]: the
    task that waits for the successor's word could not be joined, and [replace]
    returns with the offer open. *)
Inductive handover_step : World → World → Prop :=
| handover_start w pid writes oks :
    w_live w !! pid = None → vacant w → handover_step w (start_daemon oks w pid writes)
| handover_admit w pid p ph mutates p' :
    w_live w !! pid = Some (Running p ph) → admit_request mutates p = Some p' →
    handover_step w (set_live w (w_database w) pid (Running p' ph))
| handover_readmit w pid p ph p' :
    w_live w !! pid = Some (Running p ph) → readmit_locked p = Some p' →
    handover_step w (set_live w (w_database w) pid (Running p' ph))
| handover_finish w pid p ph :
    w_live w !! pid = Some (Running p ph) → (0 < pr_in_flight p)%Z →
    handover_step w (set_live w (w_database w) pid (Running (drop_in_flight p) ph))
| handover_write w pid p ph kinds ok :
    w_live w !! pid = Some (Running p ph) → handover_step w (write ok w pid p ph kinds)
| handover_defer w pid p ph kinds :
    w_live w !! pid = Some (Running p ph) → fenced p = true →
    handover_step w (set_live w (w_database w) pid (Running (with_deferred (app (pr_deferred p) [kinds]) p) ph))
| handover_offer w pid p id now ok :
    w_live w !! pid = Some (Running p Idle) → fresh_transfer w id →
    handover_step w (begin_reload ok w pid p id now)
| handover_spawn w pid p t child :
    w_live w !! pid = Some (Running p (Offering t)) → w_live w !! child = None →
    handover_step w (mkWorld (w_database w) (<[child := Spawned None]> (<[pid := Running p (Spawning t child)]> (w_live w))))
| handover_no_spawn w pid p t :
    w_live w !! pid = Some (Running p (Offering t)) →
    handover_step w (set_live w (w_database w) pid (Running p (Withdrawing t)))
| handover_readdress w pid p t child ok born :
    w_live w !! pid = Some (Running p (Spawning t child)) →
    handover_step w (name_successor ok born w pid p t child)
| handover_send w pid p t child :
    w_live w !! pid = Some (Running p (Addressed t child)) → w_live w !! child = Some (Spawned None) →
    handover_step w (mkWorld (w_database w)
      (<[child := Spawned (Some t)]> (<[pid := Running p (Awaiting t child)]> (w_live w))))
| handover_no_send w pid p t child :
    w_live w !! pid = Some (Running p (Addressed t child)) →
    handover_step w (kill_child w pid p t child)
| handover_take w pid t writes oks :
    w_live w !! pid = Some (Spawned (Some t)) → handover_step w (open_successor oks w pid t writes)
| handover_accept w pid p t now ok oks :
    w_live w !! pid = Some (Running p (Taking t)) → handover_step w (accept_or_exit ok oks w pid p t now)
| handover_silent w pid p t child readable :
    w_live w !! pid = Some (Running p (Awaiting t child)) → handover_step w (doubt readable w pid p t child)
| handover_unheard w pid p t child :
    w_live w !! pid = Some (Running p (Awaiting t child)) →
    handover_step w (set_live w (w_database w) pid (Running p Idle))
| handover_kill w pid p t child :
    w_live w !! pid = Some (Running p (Doubting t child)) → handover_step w (kill_child w pid p t child)
| handover_abort w pid p t reason now ok :
    w_live w !! pid = Some (Running p (Withdrawing t)) → handover_step w (withdraw ok w pid p reason now)
| handover_gone w pid : handover_step w (mkWorld (w_database w) (delete pid (w_live w))).

(** ** Facts *)

Module HandoverFacts.

Definition offered (d : Database) (t : string) : Prop :=
  ∃ tr, db_transfer d = Some tr ∧ tr_id tr = t ∧ tr_state tr = Offered.
Definition offered_to (d : Database) (t : string) (pid : Z) : Prop :=
  ∃ tr, db_transfer d = Some tr ∧ tr_id tr = t ∧ tr_state tr = Offered ∧ tr_successor_pid tr = Some pid.

Definition next_number (d : Database) : Z := (Z.of_nat (length (db_events d)) + 1)%Z.

(** Events are numbered from one without a hole. *)
Definition log_whole (d : Database) : Prop := (db_events d).*1 = seqZ 1 (Z.of_nat (length (db_events d))).

(** *** The log *)

Lemma offered_to_offered d t pid : offered_to d t pid → offered d t.
Proof. intros (tr & ? & ? & ? & _). by exists tr. Qed.

Lemma offered_unique d t t' : offered d t → offered d t' → t = t'.
Proof. intros (tr & E & <- & _) (tr' & E' & <- & _). congruence. Qed.

Lemma length_numbered seq kinds : length (numbered seq kinds) = length kinds.
Proof. revert seq. induction kinds as [|k ks IH]; intros seq; simpl; auto. Qed.

Lemma foldr_max_seqZ n m : (0 ≤ m)%Z → foldr Z.max m (seqZ 1 (Z.of_nat n)) = Z.max m (Z.of_nat n).
Proof.
  revert m. induction n as [|n IH]; intros m Hm; [rewrite seqZ_nil by lia; simpl; lia|].
  rewrite seqZ_S, foldr_app, IH by (simpl; lia). simpl. lia.
Qed.

Lemma log_whole_max d : log_whole d → (max_event_seq d + 1)%Z = next_number d.
Proof. unfold log_whole, max_event_seq, next_number. intros ->. rewrite foldr_max_seqZ by lia. lia. Qed.

(** The next number is always free. *)
Lemma append_next d e : log_whole d → e.1 = next_number d →
  ∃ d', append_event d e = Some d' ∧ db_transfer d' = db_transfer d ∧ log_whole d' ∧ next_number d' = (next_number d + 1)%Z.
Proof.
  unfold log_whole, next_number, append_event. intros Hl He. rewrite bool_decide_eq_false_2.
  - eexists; split; [done|]. simpl. rewrite fmap_app, Hl, length_app. simpl. split_and!; [done| |lia].
    rewrite He. replace (length (db_events d) + 1)%nat with (S (length (db_events d))) by lia. rewrite seqZ_S. simpl.
    f_equal. f_equal. lia.
  - rewrite Hl, elem_of_seqZ. lia.
Qed.

Lemma append_numbered d kinds d' : log_whole d → append_events d (numbered (next_number d) kinds) = Some d' →
  db_transfer d' = db_transfer d ∧ log_whole d' ∧ next_number d' = (next_number d + Z.of_nat (length kinds))%Z.
Proof.
  revert d. induction kinds as [|k ks IH]; intros d Hl; simpl.
  - intros [= <-]. split_and!; [done..|lia].
  - destruct (append_next d (next_number d, k)) as (d1 & -> & Ht & Hl1 & Hn); [done..|].
    rewrite <- Hn. intros (Ht' & Hl' & Hn')%IH; [|done]. rewrite Ht', Ht, Hn'. split_and!; [done..|lia].
Qed.

(** Every row operation that lands takes the next number. *)
Lemma put_row_spec d t e b d' : log_whole d → e.1 = next_number d → put_row d t e = Some (b, d') →
  b = true ∧ db_transfer d' = Some t ∧ log_whole d' ∧ next_number d' = (next_number d + 1)%Z.
Proof.
  unfold put_row. intros Hl He.
  destruct (append_next (mkDatabase (Some t) (db_events d)) e) as (d1 & -> & Ht & Hl' & Hn); [done..|].
  intros [= <- <-]. done.
Qed.

(** *** The invariant *)

Definition handing (t : string) (ph : ReloadPhase) : Prop :=
  match ph with
  | Offering t' | Spawning t' _ | Addressed t' _ | Awaiting t' _ | Doubting t' _ | Withdrawing t' => t' = t
  | Idle | Taking _ => False
  end.
Definition awaits (t : string) (pid : Z) (ph : ReloadPhase) : Prop := ph = Awaiting t pid ∨ ph = Doubting t pid.

(** Who may come to write: the one that serves, or whose offer is open; and who
    may accept. *)
Definition authority (d : Database) (l : Live) : Prop :=
  match l with
  | Running p ph => pr_coordination p = Serving ∨ ∃ t, offered d t ∧ handing t ph
  | Spawned _ => False
  end.
Definition taking (t : string) (l : Live) : Prop :=
  match l with Spawned (Some t') | Running _ (Taking t') => t' = t | _ => False end.

Definition phase_ok (d : Database) (pid : Z) (p : Process) (ph : ReloadPhase) : Prop :=
  match ph with
  | Idle => True
  | Offering t | Spawning t _ =>
      pr_coordination p = Quiescing t ∧ offered d t ∧ pr_next_seq p = next_number d
  | Addressed t child => pr_coordination p = Quiescing t ∧ offered_to d t child ∧ pr_next_seq p = next_number d
  | Awaiting t _ | Doubting t _ | Withdrawing t =>
      pr_coordination p = Quiescing t ∧ (offered d t → pr_next_seq p = next_number d)
  | Taking t => pr_coordination p = Quiescing t ∧ offered_to d t pid ∧ pr_next_seq p = next_number d
  end.

Definition live_ok (d : Database) (pid : Z) (l : Live) : Prop :=
  match l with
  | Spawned None => True
  | Spawned (Some t) => offered_to d t pid
  | Running p ph =>
      ((0 ≤ pr_in_flight p)%Z ∧ (fenced p = true → pr_in_flight p = 0%Z))
      ∧ (pr_coordination p = Serving → pr_next_seq p = next_number d ∧ (∀ t, ¬ offered d t) ∧ ph = Idle)
      ∧ phase_ok d pid p ph
  end.

Record hinv (w : World) : Prop := {
  iv_log : log_whole (w_database w);
  iv_live pid l : w_live w !! pid = Some l → live_ok (w_database w) pid l;
  iv_one a b la lb : w_live w !! a = Some la → w_live w !! b = Some lb →
    authority (w_database w) la → authority (w_database w) lb → a = b;
  iv_taker a b la lb t t' : w_live w !! a = Some la → w_live w !! b = Some lb → taking t la → taking t' lb → a = b;
  iv_pair a b p ph lb t : w_live w !! a = Some (Running p ph) → w_live w !! b = Some lb →
    authority (w_database w) (Running p ph) → taking t lb → awaits t b ph;
}.

Lemma hinv_start : hinv world_start.
Proof. split; simpl; intros; by simplify_map_eq. Qed.

(** One process becomes [l'], the rest stays or goes. *)
Lemma hinv_change w d' m' pid l' : hinv w → log_whole d' → live_ok d' pid l' →
  (∀ r l, m' !! r = Some l → r = pid ∧ l = l' ∨ r ≠ pid ∧ w_live w !! r = Some l) →
  (∀ r l, m' !! r = Some l → r ≠ pid →
     live_ok d' r l ∧ (authority d' l → authority (w_database w) l ∧ ¬ authority d' l')
     ∧ (∀ t t', taking t l → ¬ taking t' l')
     ∧ (∀ t p ph, l' = Running p ph → authority d' l' → taking t l → awaits t r ph)
     ∧ (∀ t p ph, l = Running p ph → authority d' l → taking t l' → awaits t pid ph)) →
  (∀ t p ph, l' = Running p ph → authority d' l' → taking t l' → awaits t pid ph) →
  hinv (mkWorld d' m').
Proof.
  intros Hw Hl Hok Hm Ho Hself. split; simpl.
  - done.
  - intros r l Hr. destruct (Hm r l Hr) as [[-> ->]|[Hne _]]; [done|]. by apply (Ho r l).
  - intros a b la lb Ha Hb Aa Ab.
    destruct (Hm a la Ha) as [[-> ->]|[Na La]], (Hm b lb Hb) as [[-> ->]|[Nb Lb]]; [done| | |].
    + destruct (Ho b lb Hb Nb) as (_ & H & _). by destruct (H Ab).
    + destruct (Ho a la Ha Na) as (_ & H & _). by destruct (H Aa).
    + destruct (Ho a la Ha Na) as (_ & H & _), (Ho b lb Hb Nb) as (_ & H' & _).
      eapply (iv_one w Hw); [exact La|exact Lb|by apply H|by apply H'].
  - intros a b la lb t t' Ha Hb Ta Tb.
    destruct (Hm a la Ha) as [[-> ->]|[Na La]], (Hm b lb Hb) as [[-> ->]|[Nb Lb]]; [done| | |].
    + destruct (Ho b lb Hb Nb) as (_ & _ & H & _). by destruct (H _ _ Tb Ta).
    + destruct (Ho a la Ha Na) as (_ & _ & H & _). by destruct (H _ _ Ta Tb).
    + by eapply (iv_taker w Hw).
  - intros a b p ph lb t Ha Hb Aa Tb.
    destruct (Hm a _ Ha) as [[-> El]|[Na La]], (Hm b lb Hb) as [[-> Eb]|[Nb Lb]]; subst.
    + by eapply Hself.
    + destruct (Ho b lb Hb Nb) as (_ & _ & _ & H & _). by eapply H.
    + destruct (Ho a _ Ha Na) as (_ & _ & _ & _ & H). by eapply H.
    + destruct (Ho a _ Ha Na) as (_ & H & _). eapply (iv_pair w Hw); [done..|by apply H|done].
Qed.

Lemma hinv_delete w pid : hinv w → hinv (mkWorld (w_database w) (delete pid (w_live w))).
Proof.
  intros Hw. split; simpl.
  - apply Hw.
  - intros r l [_ Hr]%lookup_delete_Some. by apply Hw.
  - intros a b la lb [_ Ha]%lookup_delete_Some [_ Hb]%lookup_delete_Some. by eapply (iv_one w Hw).
  - intros a b la lb t t' [_ Ha]%lookup_delete_Some [_ Hb]%lookup_delete_Some. by eapply (iv_taker w Hw).
  - intros a b p ph lb t [_ Ha]%lookup_delete_Some [_ Hb]%lookup_delete_Some. by eapply (iv_pair w Hw).
Qed.

Lemma set_live_cases (w : World) pid l' r l :
  <[pid := l']> (w_live w) !! r = Some l → r = pid ∧ l = l' ∨ r ≠ pid ∧ w_live w !! r = Some l.
Proof. intros [[-> ->]|[? ?]]%lookup_insert_Some; auto. Qed.

(** No write: the process keeps no more authority than it had. *)
Lemma hinv_calm w pid l l' : hinv w → w_live w !! pid = Some l → live_ok (w_database w) pid l' →
  (authority (w_database w) l' → authority (w_database w) l) →
  (∀ t, taking t l' → taking t l) →
  (∀ t b p ph p' ph', l = Running p ph → l' = Running p' ph' → awaits t b ph → authority (w_database w) l' → awaits t b ph') →
  hinv (set_live w (w_database w) pid l').
Proof.
  intros Hw Hp Hok Ha Ht Hs. eapply hinv_change; [exact Hw|apply Hw|exact Hok|apply set_live_cases| |].
  - intros r l1 [[-> _]|[_ Hr]]%set_live_cases Hne; [done|]. split_and!.
    + by apply Hw.
    + intros A1. split; [done|]. intros A'. apply Hne. by eapply (iv_one w Hw); eauto.
    + intros t t' T1 T'%Ht. apply Hne. by eapply (iv_taker w Hw); eauto.
    + intros t p ph -> A' T1. destruct l as [h|p0 ph0]; [by apply Ha in A'|].
      eapply Hs; [done..| |done]. eapply (iv_pair w Hw); eauto.
    + intros t p ph -> A1 T'%Ht. by eapply (iv_pair w Hw); eauto.
  - intros t p ph -> A' T'. destruct l as [h|p0 ph0]; [by apply Ha in A'|].
    eapply Hs; [done..| |done]. eapply (iv_pair w Hw); eauto.
Qed.

(** Whoever neither has authority nor is to accept is left alone by a write. *)
Lemma bystander d d' r l : live_ok d r l → (∀ t, ¬ taking t l) →
  (∀ p ph, l = Running p ph → authority d l → ∃ t b, awaits t b ph) →
  (∀ t p ph, l = Running p ph → handing t ph → ¬ offered d' t) →
  live_ok d' r l ∧ ¬ authority d' l.
Proof.
  intros Hok Ht Ha Hd. destruct l as [[t|]|p ph]; [by destruct (Ht t)|by split; [|intros []]|].
  destruct Hok as (Hf & Hs & Hph). specialize (Ha p ph eq_refl).
  assert (Hns : pr_coordination p ≠ Serving).
  { intros E. destruct Ha as (t & b & Haw); [by left|]. destruct Hs as (_ & _ & ->); [done|]. by destruct Haw. }
  split.
  - split_and!; [apply Hf..|done|].
    destruct ph as [|t|t q|t q|t q|t q|t|t]; simpl in Hph |- *; try done.
    1-2: destruct Hph as (? & Ho & ?), Ha as (? & ? & []); [right; by exists t|..]; done.
    1: destruct Hph as (? & Ho%offered_to_offered & ?), Ha as (? & ? & []); [right; by exists t|..]; done.
    1-3: destruct Hph as (? & _); split; [done|]; intros Ho; by destruct (Hd t p _ eq_refl eq_refl Ho).
    by destruct (Ht t).
  - intros [E|(t & Ho & Hh)]; [done|]. by destruct (Hd t p ph eq_refl Hh).
Qed.

(** A write of the process that may. *)
Lemma hinv_write w d' pid l l' : hinv w → w_live w !! pid = Some l → log_whole d' → live_ok d' pid l' →
  authority (w_database w) l ∨ (∃ t, taking t l) →
  (∀ t, ¬ taking t l') →
  (∀ p ph t b, l = Running p ph → awaits t b ph → False) →
  (∀ r p ph t, r ≠ pid → w_live w !! r = Some (Running p ph) → handing t ph → ¬ offered d' t) →
  hinv (set_live w d' pid l').
Proof.
  intros Hw Hp Hl Hok Hauth Ht' Hnaw Hd.
  assert (Hby : ∀ r l1, r ≠ pid → w_live w !! r = Some l1 → (∀ t, ¬ taking t l1) ∧ live_ok d' r l1 ∧ ¬ authority d' l1).
  { intros r l1 Hne Hr.
    assert (Hnt : ∀ t, ¬ taking t l1).
    { intros t T1. destruct Hauth as [A|[t' T]].
      - destruct l as [h|p ph]; [done|]. eapply (Hnaw p ph t r eq_refl). by eapply (iv_pair w Hw); eauto.
      - apply Hne. by eapply (iv_taker w Hw); eauto. }
    split; [done|]. eapply bystander; [by apply (iv_live w Hw)|done| |by intros; subst; eapply Hd].
    intros p ph -> A1. destruct Hauth as [A|[t' T]].
    - destruct Hne. by eapply (iv_one w Hw); eauto.
    - exists t', pid. by eapply (iv_pair w Hw); eauto. }
  eapply hinv_change; [exact Hw|exact Hl|exact Hok|apply set_live_cases| |].
  - intros r l1 [[-> _]|[_ Hr]]%set_live_cases Hne; [done|]. destruct (Hby r l1 Hne Hr) as (Hnt & Ho1 & Hna).
    split_and!; [done|by intros|by intros ? ? ?%Hnt|by intros ? ? ? _ _ ?%Hnt|by intros].
  - intros t p ph _ _ T. by destruct (Ht' t).
Qed.

(** *** The operations *)

Definition same_fence (p p' : Process) : Prop :=
  pr_coordination p' = pr_coordination p ∧ pr_next_seq p' = pr_next_seq p
  ∧ (0 ≤ pr_in_flight p')%Z ∧ (fenced p = true → pr_in_flight p' = 0%Z).

Lemma fenced_serving p : fenced p = false ↔ pr_coordination p = Serving.
Proof. unfold fenced. by rewrite negb_false_iff, eqb_true. Qed.

Lemma not_offered d : (∀ t, db_transfer d = Some t → tr_state t ≠ Offered) → ∀ t, ¬ offered d t.
Proof. intros H t (tr & E & _ & Hs). by apply (H tr). Qed.

Lemma offered_same d d' t : db_transfer d' = db_transfer d → offered d' t ↔ offered d t.
Proof. unfold offered. by intros ->. Qed.

Lemma offered_row d tr t : db_transfer d = Some tr → offered d t → tr_id tr = t ∧ tr_state tr = Offered.
Proof. intros E (tr' & E' & ? & ?). by simplify_eq. Qed.

(** A process that stays where it is keeps what holds of it. *)
Lemma live_same d pid p p' ph : live_ok d pid (Running p ph) → same_fence p p' → live_ok d pid (Running p' ph).
Proof.
  intros (_ & Hs & Hph) (Ec & En & H0 & Hf). unfold live_ok, fenced. rewrite Ec, En. split_and!; [done|done|exact Hs|].
  destruct ph; simpl in *; by rewrite ?Ec, ?En.
Qed.

Lemma hinv_same w pid p p' ph : hinv w → w_live w !! pid = Some (Running p ph) → same_fence p p' →
  hinv (set_live w (w_database w) pid (Running p' ph)).
Proof.
  intros Hw Hp Hs. pose proof (iv_live w Hw pid _ Hp) as Hok. eapply hinv_calm; [done|exact Hp|by eapply live_same|..].
  - destruct Hs as (Ec & _). simpl. by rewrite Ec.
  - intros t. by destruct ph.
  - intros t b q qh q' qh'. congruence.
Qed.

Lemma commit_kinds_spec ok p d kinds r p' d' : log_whole d → (0 ≤ pr_in_flight p)%Z ∧ (fenced p = true → pr_in_flight p = 0%Z) →
  (pr_coordination p = Serving → pr_next_seq p = next_number d) →
  commit_kinds ok p d kinds = (r, p', d') →
  d' = d ∧ same_fence p p'
  ∨ pr_coordination p = Serving ∧ pr_coordination p' = Serving ∧ pr_in_flight p' = pr_in_flight p
    ∧ db_transfer d' = db_transfer d ∧ log_whole d' ∧ pr_next_seq p' = next_number d'.
Proof.
  intros Hl [H0 Hf] Hn. unfold commit_kinds.
  destruct (pr_storage_error p); [intros [= _ <- <-]; by left|].
  destruct (fenced p) eqn:Ef; [intros [= _ <- <-]; left; split; [done|]; by split_and!; simpl; auto|].
  pose proof Ef as Es. apply fenced_serving in Es.
  destruct (if ok then append_events d (numbered (pr_next_seq p) kinds) else None) as [d1|] eqn:E.
  - destruct ok; [|done]. rewrite Hn in E by done.
    destruct (append_numbered d kinds d1 Hl E) as (Ht & Hl' & Hn').
    intros [= _ <- <-]. right. simpl. rewrite Hn by done. done.
  - intros [= _ <- <-]. left. split; [done|]. split_and!; simpl; [done..|].
    intros Hc. congruence.
Qed.

Lemma hinv_commit w pid p ph ok kinds : hinv w → w_live w !! pid = Some (Running p ph) → hinv (write ok w pid p ph kinds).
Proof.
  intros Hw Hp. destruct (iv_live w Hw pid _ Hp) as (Hf & Hs & Hph). unfold write.
  destruct (commit_kinds ok p (w_database w) kinds) as [[r p'] d'] eqn:E.
  apply commit_kinds_spec in E as [[-> Hsame]|(Ec & Ec' & Ei & Ht & Hl & Hn)]; [by eapply hinv_same| |apply Hw|done|].
  - destruct (Hs Ec) as (Hseq & Hno & ->). eapply hinv_write; [done|exact Hp|done|..].
    + unfold live_ok. rewrite Ei. unfold fenced. rewrite Ec'. split_and!; [apply Hf|done| |done].
      intros _. split_and!; [done| |done]. intros t. rewrite (offered_same _ _ t Ht). apply Hno.
    + left. by left.
    + by intros t [].
    + intros q qh t b [= <- <-] []; done.
    + intros r' q qh t _ _ _. rewrite (offered_same _ _ t Ht). apply Hno.
  - intros Ec. by apply Hs.
Qed.

Lemma run_deferred_spec oks p d writes p' d' : log_whole d → pr_coordination p = Serving → (0 ≤ pr_in_flight p)%Z →
  pr_next_seq p = next_number d → run_deferred oks p d writes = (p', d') →
  pr_coordination p' = Serving ∧ (0 ≤ pr_in_flight p')%Z ∧ db_transfer d' = db_transfer d ∧ log_whole d'
  ∧ pr_next_seq p' = next_number d'.
Proof.
  revert oks p d. induction writes as [|kinds ws IH]; intros oks p d Hl Ec H0 Hn; simpl; [intros [= <- <-]; done|].
  assert (Hf : fenced p = false) by by apply fenced_serving.
  destruct (commit_kinds (default true (head oks)) p d kinds) as [[r p1] d1] eqn:E.
  apply commit_kinds_spec in E; [|done|by rewrite Hf|done].
  assert (H1 : pr_coordination p1 = Serving ∧ (0 ≤ pr_in_flight p1)%Z ∧ db_transfer d1 = db_transfer d ∧ log_whole d1
               ∧ pr_next_seq p1 = next_number d1).
  { destruct E as [[-> (-> & -> & ? & _)]|(_ & -> & -> & ? & ? & ?)]; done. }
  destruct H1 as (Ec1 & H01 & Ht1 & Hl1 & Hn1).
  destruct r; [intros Er; apply IH in Er as (? & ? & Ht & ? & ?); [|done..]; rewrite Ht, Ht1; done..|].
  intros [= <- <-]. done.
Qed.

Lemma recover_spec oks d writes o d' : log_whole d → recover oks (next_number d) d writes = (o, d') →
  db_transfer d' = db_transfer d ∧ log_whole d' ∧ (∀ seq, o = Some seq → seq = next_number d').
Proof.
  revert oks d. induction writes as [|kinds ws IH]; intros oks d Hl; simpl.
  - intros [= <- <-]. split_and!; [done..|congruence].
  - destruct (if default true (head oks) then append_events d (numbered (next_number d) kinds) else None) as [d1|] eqn:E.
    + destruct (default true (head oks)); [|done]. destruct (append_numbered d kinds d1 Hl E) as (Ht & Hl1 & Hn).
      rewrite <- Hn. intros (Ht' & ? & ?)%IH; [|done]. by rewrite Ht', Ht.
    + intros [= <- <-]. done.
Qed.

(** A process opens fenced exactly when a transfer is offered. *)
Lemma open_daemon_spec oks d writes o d' : log_whole d → open_daemon oks d writes = (o, d') →
  db_transfer d' = db_transfer d ∧ log_whole d'
  ∧ ∀ p, o = Some p → pr_in_flight p = 0%Z ∧ pr_next_seq p = next_number d'
      ∧ ((∃ t, offered d t ∧ pr_coordination p = Quiescing t ∧ d' = d)
         ∨ (∀ t, ¬ offered d t) ∧ pr_coordination p = Serving).
Proof.
  intros Hl. unfold open_daemon. rewrite (log_whole_max d Hl).
  assert (Hrec : (∀ t, ¬ offered d t) →
    match recover oks (next_number d) d writes with
    | (Some seq, d) => (Some (mkProcess Serving false false 0 seq [] None), d)
    | (None, d) => (None, d)
    end = (o, d') → db_transfer d' = db_transfer d ∧ log_whole d' ∧
    ∀ p, o = Some p → pr_in_flight p = 0%Z ∧ pr_next_seq p = next_number d' ∧ pr_coordination p = Serving).
  { intros Hno. destruct (recover oks (next_number d) d writes) as [o1 d1] eqn:Er.
    apply recover_spec in Er as (Ht & Hl1 & Hn); [|done].
    destruct o1 as [seq|]; intros [= <- <-]; split_and!; try done. intros p [= <-]. simpl. by rewrite (Hn seq). }
  assert (Hserve : (∀ t, ¬ offered d t) → db_transfer d' = db_transfer d ∧ log_whole d' ∧
    (∀ p, o = Some p → pr_in_flight p = 0%Z ∧ pr_next_seq p = next_number d' ∧ pr_coordination p = Serving) →
    db_transfer d' = db_transfer d ∧ log_whole d' ∧ ∀ p, o = Some p → pr_in_flight p = 0%Z ∧ pr_next_seq p = next_number d'
      ∧ ((∃ t, offered d t ∧ pr_coordination p = Quiescing t ∧ d' = d)
         ∨ (∀ t, ¬ offered d t) ∧ pr_coordination p = Serving)).
  { intros Hno (? & ? & Hp). split_and!; [done..|]. intros p (? & ? & ?)%Hp. split_and!; [done..|]. by right. }
  destruct (db_transfer d) as [tr|] eqn:Et; [destruct (tr_state tr == Offered) eqn:Es|].
  - apply (proj1 (eqb_true _ _)) in Es. intros [= <- <-]. split_and!; [done..|]. intros p [= <-]. simpl. split_and!; [done..|].
    left. exists (tr_id tr). split; [|done]. exists tr. done.
  - apply (proj1 (eqb_false _ _)) in Es. assert (Hno : ∀ t, ¬ offered d t).
    { apply not_offered. intros. by simplify_eq. }
    intros E. by apply Hserve, Hrec.
  - assert (Hno : ∀ t, ¬ offered d t). { apply not_offered. intros. by simplify_eq. }
    intros E. by apply Hserve, Hrec.
Qed.

Lemma open_daemon_offered oks d writes t : log_whole d → offered d t →
  open_daemon oks d writes = (Some (mkProcess (Quiescing t) false false 0 (next_number d) writes None), d).
Proof.
  intros Hl (tr & E & <- & Hs). unfold open_daemon. rewrite E, (proj2 (eqb_true _ _) Hs), (log_whole_max d Hl). done.
Qed.

Lemma open_daemon_settled oks d writes : log_whole d → (∀ t, ¬ offered d t) →
  open_daemon oks d writes =
    (let '(o, d) := recover oks (next_number d) d writes in
     (match o with Some seq => Some (mkProcess Serving false false 0 seq [] None) | None => None end, d)).
Proof.
  intros Hl Hno. unfold open_daemon. rewrite (log_whole_max d Hl).
  destruct (db_transfer d) as [tr|] eqn:Et; [destruct (tr_state tr == Offered) eqn:Es|].
  - apply (proj1 (eqb_true _ _)) in Es. destruct (Hno (tr_id tr)). exists tr. done.
  - by destruct (recover _ _ _ _) as [[|] ?].
  - by destruct (recover _ _ _ _) as [[|] ?].
Qed.

(** What a row operation that lands leaves. *)
Lemma store_offer_spec ok d t e b d' : log_whole d → e.1 = next_number d → store_offer ok d t e = Some (b, d') →
  if b then db_transfer d' = Some t ∧ log_whole d' ∧ next_number d' = (next_number d + 1)%Z else d' = d.
Proof.
  intros Hl He. unfold store_offer. destruct ok; [|done]. simpl.
  destruct (db_transfer d) as [cur|]; [destruct (_ && _); [by intros [= <- <-]|]|];
    intros (-> & ? & ? & ?)%put_row_spec; done.
Qed.

Lemma store_readdress_spec ok d id q e b d' : log_whole d → e.1 = next_number d →
  store_readdress ok d id q e = Some (b, d') →
  if b then offered d id ∧ offered_to d' id q ∧ log_whole d' ∧ next_number d' = (next_number d + 1)%Z else d' = d.
Proof.
  intros Hl He. unfold store_readdress. destruct ok; [|done]. simpl.
  destruct (db_transfer d) as [cur|] eqn:E; [|by intros [= <- <-]].
  destruct (tr_id cur != id) eqn:Ei; [by intros [= <- <-]|]. apply negb_false_iff, (proj1 (eqb_true _ _)) in Ei.
  destruct (tr_state cur != Offered) eqn:Es; [by intros [= <- <-]|]. apply negb_false_iff, (proj1 (eqb_true _ _)) in Es.
  simpl. intros (-> & ? & ? & ?)%put_row_spec; [|done..].
  split_and!; [by exists cur|by eexists; split; [done|]|done..].
Qed.

Lemma store_settle_spec ok d id who to now e b d' : log_whole d → (offered d id → e.1 = next_number d) → to ≠ Offered →
  store_settle ok d id who to now e = Some (b, d') →
  if b then offered d id ∧ (∀ t, ¬ offered d' t) ∧ log_whole d' ∧ next_number d' = (next_number d + 1)%Z else d' = d.
Proof.
  intros Hl He Hto. unfold store_settle. destruct ok; [|done]. simpl.
  destruct (db_transfer d) as [cur|] eqn:E; [|by intros [= <- <-]].
  destruct (tr_id cur != id) eqn:Ei; [by intros [= <- <-]|]. apply negb_false_iff, (proj1 (eqb_true _ _)) in Ei.
  destruct (tr_state cur != Offered) eqn:Es; [by intros [= <- <-]|]. apply negb_false_iff, (proj1 (eqb_true _ _)) in Es.
  simpl. destruct (is_some_and _ who); [by intros [= <- <-]|].
  assert (Ho : offered d id) by by exists cur.
  intros (-> & Ht & ? & ?)%put_row_spec; [|done|by apply He].
  split_and!; [done| |done..]. apply not_offered. intros t. simpl in Ht. rewrite Ht. by intros [= <-].
Qed.

(** *** The steps keep the invariant *)

Lemma handing_quiescing d pid p ph t : phase_ok d pid p ph → handing t ph → pr_coordination p = Quiescing t.
Proof. by destruct ph; simpl; intros H E; destruct H; subst. Qed.

Lemma hinv_started w pid writes oks : hinv w → vacant w → hinv (start_daemon oks w pid writes).
Proof.
  intros Hw Hv. unfold start_daemon. destruct (open_daemon oks (w_database w) writes) as [o d'] eqn:E.
  apply open_daemon_spec in E as (Ht & Hl & Hp); [|apply Hw].
  destruct o as [p|].
  - destruct (Hp p eq_refl) as (Ei & Hn & Hc). eapply hinv_change; [done|done| |apply set_live_cases| |by intros].
    + simpl. rewrite Ei. split_and!; [done..| |done]. intros Ec.
      destruct Hc as [(t & _ & Hc & _)|[Hno _]]; [congruence|]. split_and!; [done| |done].
      intros t. rewrite (offered_same _ _ t Ht). apply Hno.
    + intros r l [[-> _]|[_ Hr]]%set_live_cases Hne; [done|]. apply Hv in Hr as ->. split_and!; simpl; by intros.
  - split; simpl; [done| | | |]; intros; repeat match goal with H : w_live w !! _ = Some _ |- _ => apply Hv in H; subst end; done.
Qed.

Lemma hinv_spawned w child : hinv w → hinv (set_live w (w_database w) child (Spawned None)).
Proof.
  intros Hw. eapply (hinv_change w _ _ child (Spawned None)); [done|apply Hw|done|apply set_live_cases| |by intros].
  intros r l [[-> _]|[_ Hr]]%set_live_cases Hne; [done|]. split_and!; [by apply Hw|by intros; split; [|intros []]|by intros ? ? _ []|by intros|by intros].
Qed.

Lemma hinv_take w pid t writes oks : hinv w → w_live w !! pid = Some (Spawned (Some t)) → hinv (open_successor oks w pid t writes).
Proof.
  intros Hw Hp. pose proof (iv_live w Hw pid _ Hp) as Ho. simpl in Ho. unfold open_successor.
  rewrite (open_daemon_offered oks _ writes t); [|apply Hw|by eapply offered_to_offered].
  eapply hinv_calm; [done|exact Hp|split_and!; simpl; done|..].
  - intros [Hc|(t' & _ & [])]; done.
  - done.
  - by intros.
Qed.

Lemma hinv_accept w pid p t now ok oks : hinv w → w_live w !! pid = Some (Running p (Taking t)) →
  hinv (accept_or_exit ok oks w pid p t now).
Proof.
  intros Hw Hp. destruct (iv_live w Hw pid _ Hp) as ([H0 Hf] & _ & Hc & Ho & Hn). unfold accept_or_exit, accept_transfer.
  destruct (store_settle _ _ _ _ _ _ _) as [[b d1]|] eqn:E; [|by apply hinv_delete].
  apply store_settle_spec in E as E'; [|apply Hw|done..]. destruct b; [|subst d1; by apply hinv_delete].
  destruct E' as (_ & Hno & Hl & Hn1).
  destruct (run_deferred oks _ d1 _) as [p' d'] eqn:Er.
  apply run_deferred_spec in Er as (Ec & H0' & Ht & Hl' & Hn'); [|done..|simpl; lia].
  assert (Hno' : ∀ t, ¬ offered d' t). { intros t'. rewrite (offered_same _ _ t' Ht). apply Hno. }
  eapply hinv_write; [done|exact Hp|done|..].
  - split_and!; [done| |done|done]. unfold fenced. by rewrite Ec.
  - right. by exists t.
  - by intros t' [].
  - intros ? ? ? ? [= <- <-] []; done.
  - intros. apply Hno'.
Qed.

Lemma hinv_offer w pid p id now ok : hinv w → w_live w !! pid = Some (Running p Idle) → fresh_transfer w id →
  hinv (begin_reload ok w pid p id now).
Proof.
  intros Hw Hp [_ Hfresh]. destruct (iv_live w Hw pid _ Hp) as ([H0 Hf] & Hs & _).
  assert (Hsame : ∀ p', pr_coordination p' = pr_coordination p → pr_next_seq p' = pr_next_seq p →
    pr_in_flight p' = pr_in_flight p → hinv (set_live w (w_database w) pid (Running p' Idle))).
  { intros p' Hc Hn Hi. eapply hinv_same; [done|exact Hp|]. unfold same_fence. by rewrite Hi. }
  unfold begin_reload, offer_transfer. destruct (refuses_writes p); [by apply Hsame|].
  destruct (fenced p) eqn:Ef; [by apply Hsame|]. destruct (Hs (proj1 (fenced_serving p) Ef)) as (Hn & Hno & _).
  destruct (0 <? pr_in_flight p)%Z eqn:Ei; [by apply Hsame|]. apply Z.ltb_ge in Ei.
  destruct (store_offer _ _ _ _) as [[b d1]|] eqn:E; [|by apply Hsame].
  apply store_offer_spec in E; [|apply Hw|done]. destruct b; [|subst d1; by apply Hsame].
  destruct E as (Ht & Hl & Hn1).
  assert (Ho : offered d1 id) by (by eexists; split; [exact Ht|]).
  eapply hinv_write; [done|exact Hp|done|..].
  - split_and!; [done|simpl; intros; lia|done|split_and!; simpl; [done..|lia]].
  - left. left. by apply fenced_serving.
  - by intros t' [].
  - intros ? ? ? ? [= <- <-] []; done.
  - intros r q ph t Hne Hr Hh Ho'. rewrite <- (offered_unique _ _ _ Ho Ho') in Hh. apply (Hfresh r q ph Hr).
    destruct (iv_live w Hw r _ Hr) as (_ & _ & Hph). by eapply handing_quiescing.
Qed.

(** The child is gone and the offer is to be withdrawn. *)
Lemma hinv_kill w pid p ph t child : hinv w → w_live w !! pid = Some (Running p ph) → handing t ph →
  (∀ t' b, awaits t' b ph → b = child) → hinv (kill_child w pid p t child).
Proof.
  intros Hw Hp Hh Hb. destruct (iv_live w Hw pid _ Hp) as (Hf & Hs & Hph).
  pose proof (handing_quiescing _ _ _ _ _ Hph Hh) as Hc.
  assert (Hm : ∀ r l, <[pid := Running p (Withdrawing t)]> (delete child (w_live w)) !! r = Some l →
    r = pid ∧ l = Running p (Withdrawing t) ∨ r ≠ pid ∧ w_live w !! r = Some l ∧ r ≠ child).
  { intros r l [[-> <-]|[? [? ?]%lookup_delete_Some]]%lookup_insert_Some; auto. }
  assert (Ha : authority (w_database w) (Running p (Withdrawing t)) → authority (w_database w) (Running p ph)).
  { intros [?|(t' & Ho & Hh')]; [by left|]. right. simpl in Hh'. subst. by exists t'. }
  eapply (hinv_change w _ _ pid (Running p (Withdrawing t))); [done|apply Hw| | | |].
  - split_and!; [apply Hf|apply Hf|rewrite Hc; done|]. split; [done|].
    intros Ho. destruct ph; simpl in Hph, Hh; subst; try done; by apply Hph.
  - intros r l [?|(? & ? & _)]%Hm; auto.
  - intros r l [[-> _]|(_ & Hr & Hrc)]%Hm Hne; [done|]. split_and!; [by apply Hw| |by intros ? ? _ []| |by intros ? ? ? _ _ []].
    + intros A. split; [done|]. intros A'%Ha. apply Hne. by eapply (iv_one w Hw); eauto.
    + intros t' q qh [= <- <-] A'%Ha T. destruct Hrc. eapply Hb. by eapply (iv_pair w Hw); eauto.
  - intros t' q qh _ _ [].
Qed.

Lemma hinv_readdress w pid p t child ok born : hinv w → w_live w !! pid = Some (Running p (Spawning t child)) →
  hinv (name_successor ok born w pid p t child).
Proof.
  intros Hw Hp. destruct (iv_live w Hw pid _ Hp) as ([H0 Hf] & Hs & Hc & Ho & Hn).
  assert (Hk : hinv (kill_child w pid p t child)).
  { eapply hinv_kill; [done|exact Hp|done|]. intros t' b []; done. }
  assert (Hk' : hinv (kill_child (mkWorld (w_database w) (w_live w)) pid p t child)) by by destruct w.
  unfold name_successor, readdress_offer. rewrite Hc. rewrite (proj2 (eqb_true t t) eq_refl). simpl.
  destruct (store_readdress _ _ _ _ _) as [[b d1]|] eqn:E; [|done].
  apply store_readdress_spec in E; [|apply Hw|done]. destruct b; [|by subst d1].
  destruct E as (_ & Ho1 & Hl1 & Hn1). eapply hinv_write; [done|exact Hp|done|..].
  - split_and!; [done|by simpl; intros; apply Hf; unfold fenced; rewrite Hc|simpl; by rewrite Hc|].
    split_and!; simpl; [done..|lia].
  - left. right. by exists t.
  - by intros t' [].
  - intros ? ? ? ? [= <- <-] []; done.
  - intros r q ph t' Hne Hr Hh Ho'. apply Hne. eapply (iv_one w Hw); [exact Hr|exact Hp|..]; right; [|by exists t].
    exists t'. by rewrite (offered_unique _ _ _ Ho' (offered_to_offered _ _ _ Ho1)) in *.
Qed.

Lemma hinv_send w pid p t child : hinv w → w_live w !! pid = Some (Running p (Addressed t child)) →
  w_live w !! child = Some (Spawned None) →
  hinv (mkWorld (w_database w) (<[child := Spawned (Some t)]> (<[pid := Running p (Awaiting t child)]> (w_live w)))).
Proof.
  intros Hw Hp Hch. destruct (iv_live w Hw pid _ Hp) as (Hf & Hs & Hc & Ho & Hn).
  assert (Hne : child ≠ pid) by congruence.
  set (w1 := set_live w (w_database w) pid (Running p (Awaiting t child))).
  assert (Hw1 : hinv w1).
  { eapply hinv_calm; [done|exact Hp|..].
    - split_and!; [apply Hf|apply Hf|simpl; by rewrite Hc|done].
    - intros _. right. exists t. split; [by eapply offered_to_offered|done].
    - by intros t' [].
    - intros ? ? ? ? ? ? [= <- <-] _ []; done. }
  assert (Hp1 : w_live w1 !! pid = Some (Running p (Awaiting t child))) by apply lookup_insert_eq.
  assert (Ha : authority (w_database w1) (Running p (Awaiting t child))).
  { right. exists t. split; [by eapply offered_to_offered|done]. }
  change (hinv (set_live w1 (w_database w1) child (Spawned (Some t)))).
  eapply (hinv_change w1 _ _ child (Spawned (Some t))); [done|apply Hw1|done|apply set_live_cases| |by intros].
  intros r l [[-> _]|[_ Hr]]%set_live_cases Hrc; [done|]. split_and!.
  - by apply Hw1.
  - intros A. split; [done|intros []].
  - intros t1 t2 T _. apply Hrc. destruct (iv_pair w1 Hw1 _ _ _ _ _ _ Hp1 Hr Ha T) as [E|E]; congruence.
  - by intros.
  - intros t1 q qh -> A <-. assert (r = pid) as -> by (by eapply (iv_one w1 Hw1); eauto).
    rewrite Hp1 in Hr. injection Hr as <- <-. by left.
Qed.

(** Whoever stays fenced may leave the protocol. *)
Lemma hinv_idle w pid p ph p' : hinv w → w_live w !! pid = Some (Running p ph) → pr_in_flight p' = 0%Z →
  pr_coordination p' ≠ Serving → hinv (set_live w (w_database w) pid (Running p' Idle)).
Proof.
  intros Hw Hp Hi Hc. eapply hinv_calm; [done|exact Hp|..].
  - split_and!; [simpl; lia|done|done|done].
  - intros [?|(? & _ & [])]; done.
  - by intros t' [].
  - intros ? ? ? ? ? ? _ [= <- <-] _ [?|(? & _ & [])]; done.
Qed.

Lemma hinv_withdraw w pid p t reason now ok : hinv w → w_live w !! pid = Some (Running p (Withdrawing t)) →
  hinv (withdraw ok w pid p reason now).
Proof.
  intros Hw Hp. destruct (iv_live w Hw pid _ Hp) as ([H0 Hf] & Hs & Hc & Hn).
  assert (Hf0 : pr_in_flight p = 0%Z). { apply Hf. unfold fenced. by rewrite Hc. }
  unfold withdraw, abort_transfer. simpl. rewrite Hc.
  destruct (store_settle _ _ _ _ _ _ _) as [[b d1]|] eqn:E; [|eapply hinv_idle; [done|exact Hp|done|simpl; by rewrite Hc]].
  apply store_settle_spec in E; [|apply Hw|done..]. destruct b; [|subst d1; by eapply hinv_idle].
  destruct E as (Ho & Hno & Hl & Hn1). specialize (Hn Ho). eapply hinv_write; [done|exact Hp|done|..].
  - split_and!; [simpl; lia|done| |done]. intros _. split_and!; [simpl; lia|done..].
  - left. right. by exists t.
  - by intros t' [].
  - intros ? ? ? ? [= <- <-] []; done.
  - intros. apply Hno.
Qed.

Lemma hinv_doubt readable w pid p t child : hinv w → w_live w !! pid = Some (Running p (Awaiting t child)) →
  hinv (doubt readable w pid p t child).
Proof.
  intros Hw Hp. destruct (iv_live w Hw pid _ Hp) as (Hf & Hs & Hc & Hn).
  assert (Hd : hinv (set_live w (w_database w) pid (Running p (Doubting t child)))).
  { eapply hinv_calm; [done|exact Hp|..].
    - split_and!; [apply Hf|apply Hf|simpl; by rewrite Hc|done].
    - intros [?|(t' & Ho & Hh)]; [by left|right; by exists t'].
    - by intros t' [].
    - intros ? ? ? ? ? ? [= <- <-] [= <- <-] [E|E] _; [|done]. injection E as -> ->. by right. }
  unfold doubt. destruct (if readable then _ else _) as [tr|]; [|done]. destruct (_ && _); [by apply hinv_delete|done].
Qed.

Lemma hinv_step w w' : handover_step w w' → hinv w → hinv w'.
Proof.
  intros Hst Hw.
  assert (Hf : ∀ pid p ph, w_live w !! pid = Some (Running p ph) → (0 ≤ pr_in_flight p)%Z ∧ (fenced p = true → pr_in_flight p = 0%Z)).
  { intros pid p ph Hp. by destruct (iv_live w Hw pid _ Hp). }
  destruct Hst as [w pid writes oks _ Hv|w pid p ph m p' Hp Ha|w pid p ph p' Hp Ha|w pid p ph Hp Hi|w pid p ph kinds ok Hp
    |w pid p ph kinds Hp Hd|w pid p id now ok Hp Hid|w pid p t child Hp Hch|w pid p t Hp|w pid p t child ok born Hp
    |w pid p t child Hp Hch|w pid p t child Hp|w pid t writes oks Hp|w pid p t now ok oks Hp|w pid p t child readable Hp
    |w pid p t child Hp|w pid p t child Hp|w pid p t reason now ok Hp|w pid].
  - by apply hinv_started.
  - destruct (Hf _ _ _ Hp). eapply hinv_same; [done|exact Hp|]. unfold admit_request in Ha.
    destruct (pr_storage_error p), m; try done; [|by simplify_eq].
    destruct (fenced p) eqn:Ef; [done|]. injection Ha as <-. unfold same_fence. rewrite Ef. split_and!; simpl; [done|done|lia|done].
  - destruct (Hf _ _ _ Hp). eapply hinv_same; [done|exact Hp|]. unfold readmit_locked in Ha.
    destruct (fenced p) eqn:Ef; [done|]. injection Ha as <-. unfold same_fence. rewrite Ef. split_and!; simpl; [done|done|lia|done].
  - destruct (Hf _ _ _ Hp) as [_ H0]. eapply hinv_same; [done|exact Hp|]. split_and!; simpl; [done|done|lia|].
    intros E. specialize (H0 E). lia.
  - by apply hinv_commit.
  - destruct (Hf _ _ _ Hp). eapply hinv_same; [done|exact Hp|]. by split_and!; simpl.
  - by apply hinv_offer.
  - destruct (iv_live w Hw pid _ Hp) as (Hf' & Hs & Hc & Ho & Hn).
    apply (hinv_spawned (set_live w (w_database w) pid (Running p (Spawning t child)))).
    eapply hinv_calm; [done|exact Hp|by split_and!; [apply Hf'|apply Hf'|simpl; rewrite Hc|]|..].
    + intros [?|(t' & ? & Hh)]; [by left|right; by exists t'].
    + by intros t' [].
    + intros ? ? ? ? ? ? [= <- <-] _ []; done.
  - destruct (iv_live w Hw pid _ Hp) as (Hf' & Hs & Hc & Ho & Hn).
    eapply hinv_calm; [done|exact Hp|by split_and!; [apply Hf'|apply Hf'|simpl; rewrite Hc|]|..].
    + intros [?|(t' & ? & Hh)]; [by left|right; by exists t'].
    + by intros t' [].
    + intros ? ? ? ? ? ? [= <- <-] _ []; done.
  - by apply hinv_readdress.
  - by apply hinv_send.
  - eapply hinv_kill; [done|exact Hp|done|]. intros t' b []; done.
  - by apply hinv_take.
  - by apply hinv_accept.
  - by apply hinv_doubt.
  - destruct (iv_live w Hw pid _ Hp) as (Hf' & Hs & Hc & _). eapply hinv_idle; [done|exact Hp| |by rewrite Hc].
    apply Hf'. unfold fenced. by rewrite Hc.
  - eapply hinv_kill; [done|exact Hp|done|]. intros t' b [E|E]; congruence.
  - by eapply hinv_withdraw.
  - by apply hinv_delete.
Qed.

Lemma hinv_reachable w : rtc handover_step world_start w → hinv w.
Proof.
  intros H. remember world_start as w0 eqn:E. assert (H0 : hinv w0) by (subst; apply hinv_start). clear E.
  induction H as [|x y z Hxy _ IH]; [done|]. apply IH. by eapply hinv_step.
Qed.

(** *** Recovery held back and run later *)

(** An open offer settles for whoever may settle it. *)
Lemma settle_lands d tr who to now e : log_whole d → db_transfer d = Some tr → tr_state tr = Offered →
  (∀ pid, who = Some pid → tr_successor_pid tr = Some pid) → e.1 = next_number d →
  ∃ d', store_settle true d (tr_id tr) who to now e = Some (true, d').
Proof.
  intros Hl E Hs Hwho He. unfold store_settle, put_row. simpl.
  rewrite E, (proj2 (eqb_true _ _) eq_refl), (proj2 (eqb_true _ _) Hs). simpl.
  replace (is_some_and _ who) with false.
  - destruct (append_next (mkDatabase (Some (mkTransfer (tr_id tr) (tr_predecessor_pid tr) (tr_successor_pid tr) to
      (tr_offered_at tr) (Some now))) (db_events d)) e) as (d1 & -> & _); [done..|]. by exists d1.
  - destruct who as [pid|]; simpl; [|done]. by rewrite (Hwho pid eq_refl), (proj2 (eqb_true _ _) eq_refl).
Qed.

Lemma run_deferred_recover oks p d writes : pr_coordination p = Serving → pr_storage_error p = false → pr_skipped_write p = false →
  (run_deferred oks p d writes).2 = (recover oks (pr_next_seq p) d writes).2
  ∧ ∀ seq, (recover oks (pr_next_seq p) d writes).1 = Some seq → (run_deferred oks p d writes).1 = with_seq seq p.
Proof.
  revert oks p d. induction writes as [|kinds ws IH]; intros oks p d Hc He Hk; simpl.
  - split; [done|]. intros seq [= <-]. by destruct p.
  - unfold commit_kinds. rewrite He, (proj2 (fenced_serving p) Hc).
    destruct (if default true (head oks) then append_events d (numbered (pr_next_seq p) kinds) else None) as [d1|]; [|done].
    set (p1 := with_seq _ _). destruct (IH (tail oks) p1 d1) as [Hd Hp]; [done..|]. simpl in Hd, Hp. split; [done|].
    intros seq Hs. rewrite (Hp seq Hs). destruct p; simpl in *; by subst.
Qed.

(** *** An offer nobody is left to settle *)

Definition abandoned (d : Database) (w : World) : Prop :=
  w_database w = d ∧ ∀ pid l, w_live w !! pid = Some l → l = Spawned None ∨ ∃ p, l = Running p Idle ∧ fenced p = true.

Lemma abandoned_set d w pid p : abandoned d w → fenced p = true → abandoned d (set_live w (w_database w) pid (Running p Idle)).
Proof.
  intros [Hd Hw] Hp. split; [done|]. intros r l [[-> ->]|[_ Hr]]%set_live_cases; [right; by exists p|by apply (Hw r)].
Qed.

Lemma abandoned_step d t w w' : offered d t → handover_step w w' → abandoned d w → abandoned d w'.
Proof.
  intros Ho Hst Hw. pose proof Hw as [Hd Hl].
  assert (Hrun : ∀ pid p ph, w_live w !! pid = Some (Running p ph) → ph = Idle ∧ fenced p = true).
  { intros pid p ph [E|(q & E & Hq)]%Hl; [done|]. by simplify_eq. }
  destruct Hst as [w pid writes oks _ Hv|w pid p ph m p' Hp Ha|w pid p ph p' Hp Ha|w pid p ph Hp Hi|w pid p ph kinds ok Hp
    |w pid p ph kinds Hp Hf|w pid p id now ok Hp Hid|w pid p t1 child Hp Hch|w pid p t1 Hp|w pid p t1 child ok born Hp
    |w pid p t1 child Hp Hch|w pid p t1 child Hp|w pid t1 writes oks Hp|w pid p t1 now ok oks Hp|w pid p t1 child readable Hp
    |w pid p t1 child Hp|w pid p t1 child Hp|w pid p t1 reason now ok Hp|w pid];
    try (by destruct (Hrun _ _ _ Hp)).
  - unfold start_daemon, open_daemon. rewrite Hd. destruct Ho as (tr & E & _ & Es). rewrite E, (proj2 (eqb_true _ _) Es).
    rewrite <- Hd. by apply abandoned_set.
  - destruct (Hrun _ _ _ Hp) as [-> Hf]. apply abandoned_set; [done|]. unfold admit_request in Ha. rewrite Hf in Ha.
    destruct (pr_storage_error p), m; by simplify_eq.
  - destruct (Hrun _ _ _ Hp) as [_ Hf]. unfold readmit_locked in Ha. by rewrite Hf in Ha.
  - destruct (Hrun _ _ _ Hp) as [-> Hf]. by apply abandoned_set.
  - destruct (Hrun _ _ _ Hp) as [-> Hf]. unfold write, commit_kinds. rewrite Hf.
    destruct (pr_storage_error p); by apply abandoned_set.
  - destruct (Hrun _ _ _ Hp) as [-> _]. by apply abandoned_set.
  - destruct (Hrun _ _ _ Hp) as [_ Hf]. unfold begin_reload, offer_transfer. rewrite Hf.
    destruct (refuses_writes p); by apply abandoned_set.
  - by destruct (Hl _ _ Hp) as [|(? & ? & _)].
  - split; [done|]. simpl. intros r l [_ Hr]%lookup_delete_Some. by apply (Hl r).
Qed.

Lemma abandoned_for_good d t w w' : offered d t → rtc handover_step w w' → abandoned d w → abandoned d w'.
Proof. intros Ho. induction 1 as [|x y z Hxy _ IH]; [done|]. intros H. apply IH. by eapply abandoned_step. Qed.

(** *** An offer its maker can take back *)

Lemma withdrawn_serves w pid p t reason now : hinv w → w_live w !! pid = Some (Running p (Withdrawing t)) →
  offered (w_database w) t → ∃ p', w_live (withdraw true w pid p reason now) !! pid = Some (Running p' Idle) ∧ fenced p' = false
    ∧ pr_storage_error p' = pr_storage_error p.
Proof.
  intros Hw Hp Ho. destruct (iv_live w Hw pid _ Hp) as (_ & _ & Hc & Hn). unfold withdraw, abort_transfer. simpl. rewrite Hc.
  pose proof (Hn Ho) as He. destruct Ho as (tr & E & <- & Hs).
  destruct (settle_lands (w_database w) tr None Aborted now (pr_next_seq p, DaemonTransferAborted (tr_id tr) reason))
    as [d' ->]; [apply Hw|done..|].
  eexists. split_and!; [apply lookup_insert_eq|done..].
Qed.

(** From any place before the successor accepts, a way to withdraw. *)
Lemma handing_withdraws w pid p ph t : w_live w !! pid = Some (Running p ph) → handing t ph → offered (w_database w) t →
  pr_coordination p = Quiescing t →
  ∃ w', rtc handover_step w w' ∧ w_live w' !! pid = Some (Running p (Withdrawing t)) ∧ w_database w' = w_database w.
Proof.
  intros Hp Hh Ho Hc. assert (Hk : ∀ w child, w_live (kill_child w pid p t child) !! pid = Some (Running p (Withdrawing t))).
  { intros. apply lookup_insert_eq. }
  destruct ph as [|t1|t1 q|t1 q|t1 q|t1 q|t1|t1]; simpl in Hh; try done; subst t1.
  - eexists. split_and!; [apply rtc_once; by eapply handover_no_spawn|apply lookup_insert_eq|done].
  - eexists. split_and!; [apply rtc_once; eapply (handover_readdress w pid p t q false true); done|..];
      unfold name_successor, readdress_offer; rewrite Hc, (proj2 (eqb_true _ _) eq_refl); [apply Hk|done].
  - eexists. split_and!; [apply rtc_once; by eapply handover_no_send|apply Hk|done].
  - assert (Hd : doubt true w pid p t q = set_live w (w_database w) pid (Running p (Doubting t q))).
    { destruct Ho as (tr & E & _ & Hs). unfold doubt. rewrite E, Hs. simpl. by rewrite andb_false_r. }
    eexists. split_and!; [eapply rtc_l; [by eapply (handover_silent w pid p t q true)|]|apply Hk|].
    + rewrite Hd. apply rtc_once. eapply handover_kill. apply lookup_insert_eq.
    + done.
  - eexists. split_and!; [apply rtc_once; by eapply handover_kill|apply Hk|done].
  - exists w. split_and!; [done|exact Hp|done].
Qed.

End HandoverFacts.

(** ** Properties *)

Module HandoverProps.
Import HandoverFacts.

Definition serves (w : World) (pid : Z) : Prop := ∃ p ph, w_live w !! pid = Some (Running p ph) ∧ fenced p = false.

(** A process at a place, for the concrete runs. *)
Definition proc (w : World) (pid : Z) : Process :=
  match w_live w !! pid with Some (Running p _) => p | _ => mkProcess Serving false false 0 0 [] None end.

Definition w_started := start_daemon [] world_start 1 [[OtherEvent]].
Definition w_offered := begin_reload true w_started 1 (proc w_started 1) "t" 5%Z.
Definition w_spawned := mkWorld (w_database w_offered)
  (<[2%Z := Spawned None]> (<[1%Z := Running (proc w_offered 1) (Spawning "t" 2)]> (w_live w_offered))).
Definition w_addressed := name_successor true true w_spawned 1 (proc w_spawned 1) "t" 2.
Definition w_sent := mkWorld (w_database w_addressed)
  (<[2%Z := Spawned (Some "t"%string)]> (<[1%Z := Running (proc w_addressed 1) (Awaiting "t" 2)]> (w_live w_addressed))).
Definition w_taken := open_successor [] w_sent 2 "t" [[OtherEvent; OtherEvent]].
Definition w_accepted := accept_or_exit true [] w_taken 2 (proc w_taken 2) "t" 9%Z.

Lemma w_offered_reached : rtc handover_step world_start w_offered.
Proof.
  eapply rtc_l; [apply (handover_start world_start 1 [[OtherEvent]] []); [done|intros pid l H; done]|].
  apply rtc_once. eapply handover_offer; [vm_compute; reflexivity|].
  split; [vm_compute; discriminate|].
  intros pid p ph H Hc. change (w_live w_started) with (<[1%Z := Running (proc w_started 1) Idle]> (∅ : gmap Z Live)) in H.
  apply lookup_insert_Some in H as [[<- [= <- <-]]|[_ H]]; [by vm_compute in Hc|done].
Qed.

Lemma w_sent_reached : rtc handover_step world_start w_sent.
Proof.
  etrans; [apply w_offered_reached|].
  eapply rtc_l; [apply (handover_spawn w_offered 1 (proc w_offered 1) "t" 2); vm_compute; reflexivity|].
  eapply rtc_l; [apply (handover_readdress w_spawned 1 (proc w_spawned 1) "t" 2 true true); vm_compute; reflexivity|].
  apply rtc_once. apply (handover_send w_addressed 1 (proc w_addressed 1) "t" 2); vm_compute; reflexivity.
Qed.

Lemma w_accepted_reached : rtc handover_step world_start w_accepted.
Proof.
  etrans; [apply w_sent_reached|].
  eapply rtc_l; [apply (handover_take w_sent 2 "t" [[OtherEvent; OtherEvent]] []); vm_compute; reflexivity|].
  apply rtc_once. apply (handover_accept w_taken 2 (proc w_taken 2) "t" 9 true []). vm_compute. reflexivity.
Qed.

(** C3: Over one database, whatever the processes do and wherever they die: at
    most one of them serves, none serves while a transfer is offered, a fenced
    one has no admitted request still executing, and the events are numbered
    from one without a hole or a number used twice. *)
Theorem one_coordinator w : rtc handover_step world_start w →
  (∀ a b, serves w a → serves w b → a = b)
  ∧ (∀ t a, offered (w_database w) t → ¬ serves w a)
  ∧ (∀ a p ph, w_live w !! a = Some (Running p ph) → fenced p = true → pr_in_flight p = 0%Z)
  ∧ (db_events (w_database w)).*1 = seqZ 1 (Z.of_nat (length (db_events (w_database w)))).
Proof.
  intros Hw%hinv_reachable. split_and!; [| | |apply Hw].
  - intros a b (p & ph & Ha & Hp) (q & qh & Hb & Hq). eapply (iv_one w Hw); [exact Ha|exact Hb|..]; left; by apply fenced_serving.
  - intros t a Ho (p & ph & Ha & Hp%fenced_serving). destruct (iv_live w Hw a _ Ha) as (_ & Hs & _).
    by destruct (Hs Hp) as (_ & Hno & _); destruct (Hno t).
  - intros a p ph Ha. destruct (iv_live w Hw a _ Ha) as ((_ & Hf) & _). exact Hf.
Qed.

Lemma one_coordinator_witness :
  rtc handover_step world_start w_accepted ∧ fenced (proc w_accepted 2) = false ∧ fenced (proc w_accepted 1) = true
  ∧ (db_events (w_database w_accepted)).*1 = [1%Z; 2%Z; 3%Z; 4%Z; 5%Z; 6%Z]
  ∧ (∀ a b, serves w_accepted a → serves w_accepted b → a = b).
Proof.
  split_and!; [apply w_accepted_reached|vm_compute; reflexivity..|]. apply one_coordinator, w_accepted_reached.
Defined.



(** While the process that offered the transfer lives and the offer is open,
    it can take authority back from wherever it is: some continuation has it
    serving again, without having latched a failure. *)
Theorem open_offer_can_be_taken_back w pid p ph t : rtc handover_step world_start w →
  w_live w !! pid = Some (Running p ph) → handing t ph → offered (w_database w) t →
  ∃ w' p', rtc handover_step w w' ∧ w_live w' !! pid = Some (Running p' Idle) ∧ fenced p' = false
    ∧ pr_storage_error p' = pr_storage_error p.
Proof.
  intros Hr Hp Hh Ho. pose proof (hinv_reachable w Hr) as Hw. destruct (iv_live w Hw pid _ Hp) as (_ & _ & Hph).
  destruct (handing_withdraws w pid p ph t Hp Hh Ho (handing_quiescing _ _ _ _ _ Hph Hh)) as (w1 & Hst & Hp1 & Hd).
  assert (Hw1 : hinv w1) by (apply hinv_reachable; by etrans).
  destruct (withdrawn_serves w1 pid p t "failed" 0 Hw1 Hp1) as (p' & Hp' & Hf & He); [by rewrite Hd|].
  exists (withdraw true w1 pid p "failed" 0), p'. split; [|done]. etrans; [exact Hst|]. apply rtc_once. by eapply handover_abort.
Qed.

Lemma open_offer_can_be_taken_back_witness :
  ∃ w' p', rtc handover_step w_sent w' ∧ w_live w' !! 1%Z = Some (Running p' Idle) ∧ fenced p' = false
    ∧ pr_storage_error p' = false.
Proof.
  apply (open_offer_can_be_taken_back w_sent 1 (proc w_sent 1) (Awaiting "t" 2) "t" w_sent_reached);
    [vm_compute; reflexivity|reflexivity|]. eexists. vm_compute. split_and!; reflexivity.
Defined.

(** C37: Nobody settles the offer of a process that died: once no process is left,
    the row still offered, every daemon started over the database is fenced
    and refuses every request that writes, and the database never changes
    again, whatever is done. *)
Theorem dead_offer_fences_for_good w t w' : offered (w_database w) t → w_live w = ∅ → rtc handover_step w w' →
  w_database w' = w_database w
  ∧ ∀ pid p ph, w_live w' !! pid = Some (Running p ph) → fenced p = true ∧ admit_request true p = None.
Proof.
  intros Ho Hn Hst. destruct (abandoned_for_good (w_database w) t w w' Ho Hst) as [Hd Hl].
  { split; [done|]. intros pid l. by rewrite Hn. }
  split; [done|]. intros pid p ph [E|(q & [= <- _] & Hf)]%Hl; [done|]. split; [done|]. unfold admit_request. rewrite Hf.
  by destruct (pr_storage_error p).
Qed.

Definition w_dead := mkWorld (w_database w_offered) (delete 1%Z (w_live w_offered)).
Definition w_restarted := start_daemon [] w_dead 3 [[OtherEvent]].

Lemma dead_offer_fences_for_good_witness :
  rtc handover_step world_start w_dead ∧ w_database w_restarted = w_database w_dead
  ∧ (fenced (proc w_restarted 3) = true ∧ admit_request true (proc w_restarted 3) = None).
Proof.
  assert (Hst : rtc handover_step w_dead w_restarted).
  { apply rtc_once. apply (handover_start w_dead 3 [[OtherEvent]] []); [vm_compute; reflexivity|]. intros pid l H. done. }
  destruct (dead_offer_fences_for_good w_dead "t" w_restarted) as [Hd Hl];
    [eexists; vm_compute; split_and!; reflexivity|vm_compute; reflexivity|exact Hst|].
  split_and!; [etrans; [apply w_offered_reached|]; apply rtc_once, handover_gone|exact Hd|..];
    apply (Hl 3%Z (proc w_restarted 3) Idle); vm_compute; reflexivity.
Defined.

(** The store is asked before the successor is killed: one that accepts in
    between is killed serving, the abort finds the offer settled, and nobody
    serves though nothing failed. *)
Definition w_doubted := doubt true w_sent 1 (proc w_sent 1) "t" 2.
Definition w_late := accept_or_exit true [] (open_successor [] w_doubted 2 "t" []) 2 (proc (open_successor [] w_doubted 2 "t" []) 2) "t" 9%Z.
Definition w_killed := kill_child w_late 1 (proc w_late 1) "t" 2.
Definition w_nobody := withdraw true w_killed 1 (proc w_killed 1) "no word" 10%Z.

Example killed_while_serving :
  rtc handover_step world_start w_nobody ∧ fenced (proc w_late 2) = false
  ∧ w_live w_nobody = {[1%Z := Running (proc w_nobody 1) Idle]} ∧ pr_coordination (proc w_nobody 1) = Transferred "t".
Proof.
  split_and!; [|vm_compute; reflexivity..]. etrans; [apply w_sent_reached|].
  eapply rtc_l; [apply (handover_silent w_sent 1 (proc w_sent 1) "t" 2 true); vm_compute; reflexivity|].
  eapply rtc_l; [apply (handover_take w_doubted 2 "t" [] []); vm_compute; reflexivity|].
  eapply rtc_l; [apply (handover_accept (open_successor [] w_doubted 2 "t" []) 2 (proc (open_successor [] w_doubted 2 "t" []) 2) "t" 9 true []);
    vm_compute; reflexivity|].
  eapply rtc_l; [apply (handover_kill w_late 1 (proc w_late 1) "t" 2); vm_compute; reflexivity|].
  apply rtc_once. apply (handover_abort w_killed 1 (proc w_killed 1) "t" "no word" 10 true). vm_compute. reflexivity.
Qed.

Lemma find_none_Forall {A} (f : A → bool) l : List.find f l = None ↔ Forall (λ x, f x = false) l.
Proof.
  induction l as [|x l IH]; simpl; [by split|]. rewrite Forall_cons. destruct (f x); [by split; [|intros []]|]. rewrite IH. naive_solver.
Qed.

(** A successor takes what it was sent exactly when it is whole: every
    descriptor it is told of arrived and stands for one thing, a terminal
    belongs to one agent, and every process it adopts is known by its start. *)
Lemma check_handover_ok h arrived : check_handover h arrived = Ok tt ↔
  ho_format h = FORMAT ∧ Forall (λ i, i < arrived)%nat (named_descriptors h) ∧ NoDup (named_descriptors h)
  ∧ NoDup (te_agent <$> ho_terminals h) ∧ Forall (λ a, is_Some (ad_started_at a)) (ho_adopted h).
Proof.
  assert (Hi : List.find (λ index, arrived <=? index) (named_descriptors h) = None ↔ Forall (λ i, i < arrived)%nat (named_descriptors h)).
  { rewrite find_none_Forall. apply Forall_iff. intros i. apply Nat.leb_gt. }
  assert (Ha : List.find (λ a, is_none (ad_started_at a)) (ho_adopted h) = None ↔ Forall (λ a, is_Some (ad_started_at a)) (ho_adopted h)).
  { rewrite find_none_Forall. apply Forall_iff. intros a. destruct (ad_started_at a); simpl; split; intros H; try done; by destruct H. }
  rewrite <- Hi, <- Ha. unfold check_handover. destruct (decide (ho_format h = FORMAT)) as [Ef|Ef].
  - rewrite (proj2 (eqb_true _ _) Ef). cbn [negb].
    destruct (List.find _ (named_descriptors h)); [by split; [|intros (_ & ? & _)]|].
    case_bool_decide; simpl; [|by split; [|intros (_ & _ & ? & _)]].
    case_bool_decide; simpl; [|by split; [|intros (_ & _ & _ & ? & _)]].
    destruct (List.find _ (ho_adopted h)); [by split; [|intros (_ & _ & _ & _ & ?)]|done].
  - rewrite (proj2 (eqb_false _ _) Ef). by split; [|intros [? _]].
Qed.

End HandoverProps.
