(* ===== verification/Mail.v ===== *)
(** * The message path

    How the daemon takes a message and keeps it until it is taken, as
    [crates/agentd/src/daemon.rs] ([publish_routed], [catch_up], the restoring of
    queues), [daemon/humans.rs] (questions opened, answered, expired, stale and
    cancelled; the answer kept for a waiting [ask]), [daemon/inbound.rs] (messages
    held for the person), [daemon/inbox.rs] (reading and acknowledging),
    [daemon/conversations.rs] ([mark_read]) and [store.rs] (the rows of the
    queues) do it. The store has its contents here, and every write of it may
    fail; any request may come next ([mail_step]).

    Outside the model, and arguments of the operations: the clock, read once in a
    request, fresh ids, who is resolved and allowed, the members of a room, the
    archive. A room, journal entry or lease staged with a message, the topic log,
    the record of deliveries and notifications are left out. *)

From Stdlib Require Import Ascii.
From S2P Require Import Prelude RustStr Order Link Input Agent Json Permissions Elicitation Url Message Registry Readiness Claims.

Local Open Scope rust_scope.
Local Open Scope string_scope.

Definition INBOX_CAPACITY : nat := Z.to_nat 1000.
Definition INBOX_BYTES : Z := (4 * 1024 * 1024)%Z.
Definition MAX_QUESTIONS : nat := Z.to_nat 512.
Definition CATCH_UP_WINDOW : duration := hours 1.
Definition DEFAULT_ANSWERER : string := "agentd".
Definition EXPIRY : string := "expiry".

(** [message_bytes]: the length of the envelope's JSON, the largest number when
    it has none. *)
Class EnvelopeSize := {
  message_bytes : Envelope → Z;
  message_bytes_range : ∀ e, (0 ≤ message_bytes e ≤ u64_max)%Z;
}.

(** [QuestionAnswer::payload] and [from_payload], and the fields a form
    serialises to, over serde. *)
Class AnswerJson := {
  answer_payload : QuestionAnswer → Json;
  answer_from_payload : Json → QuestionAnswer;
  form_fields : QuestionForm → list (string * Json);
}.

Inductive AnswerRoute := ToolResult | Queue.

Inductive MailEvent :=
| MessageSent (message from : string) (to : Destination) (kind : string)
| QuestionOpened (question : string) (expires_at : instant)
| QuestionClosed (question : string) (answer : option string)
| QuestionStale (question : string) (action : StaleAction)
| QuestionCancelled (question agent : string)
| MessageHeld (message question from : string) (to : Destination) (rule : string)
| HeldMessageReleased (message question by_ : string)
| HeldMessageDropped (message question by_ : string)
| InboxAcknowledged (agent : string) (messages : list string)
| ConversationRead (reader conversation : string) (through : Z)
| MessagesCaughtUp (agent : string) (messages : list string)
| AnswerRouted (question answer : string) (route : AnswerRoute).

(** ** The store *)

(** The rows of the queues in the order of their numbers, and the documents of
    the two kinds this path writes. *)
Record Disk := mkDisk {
  dk_inbox : list (string * Envelope);
  dk_questions : gmap string Question;
  dk_held : gmap string HeldMessage;
}.

Definition inbox_rows (d : Disk) (agent : string) : list Envelope := (filter (λ r, r.1 = agent) (dk_inbox d)).*2.

Definition insert_inbox (d : Disk) (agent : string) (message : Envelope) : option Disk :=
  if (length (inbox_rows d agent) <? INBOX_CAPACITY)%nat
  then Some (mkDisk (app (dk_inbox d) [(agent, message)]) (dk_questions d) (dk_held d))
  else None.

(** One transaction: all rows or none. *)
Fixpoint insert_rows (d : Disk) (l : list (string * Envelope)) : option Disk :=
  match l with
  | [] => Some d
  | (agent, message) :: l => match insert_inbox d agent message with Some d => insert_rows d l | None => None end
  end.

Definition delete_rows (d : Disk) (agent : string) (messages : list string) : Disk :=
  mkDisk (filter (λ r, ¬ (r.1 = agent ∧ e_id r.2 ∈ messages)) (dk_inbox d)) (dk_questions d) (dk_held d).

Definition put_question (d : Disk) (q : Question) : Disk :=
  mkDisk (dk_inbox d) (<[q_id q := q]> (dk_questions d)) (dk_held d).
Definition delete_questions (d : Disk) (ids : list string) : Disk :=
  mkDisk (dk_inbox d) (foldr delete (dk_questions d) ids) (dk_held d).
Definition delete_held (d : Disk) (ids : list string) : Disk :=
  mkDisk (dk_inbox d) (dk_questions d) (foldr delete (dk_held d) ids).

(** A held message's document, put or deleted with a message, the event that
    says so, and the card it closes. *)
Record DocumentTransition := mkDocument {
  do_id : string;
  do_value : option HeldMessage;
  do_event : MailEvent;
  do_closes : option string;
}.

Definition write_document (d : Disk) (t : DocumentTransition) : Disk :=
  mkDisk (dk_inbox d) (dk_questions d)
    (match do_value t with Some h => <[do_id t := h]> (dk_held d) | None => delete (do_id t) (dk_held d) end).

Definition publish_message (d : Disk) (message : Envelope) (recipients : list string) (question : option Question)
    (closed : list string) (document : option DocumentTransition) : option Disk :=
  match insert_rows d ((λ r, (r, message)) <$> recipients) with
  | None => None
  | Some d =>
      let d := match document with Some t => write_document d t | None => d end in
      let d := match question with Some q => put_question d q | None => d end in
      Some (delete_questions d closed)
  end.

(** ** The state *)

Record Mail := mkMail {
  m_registry : Registry;
  m_rooms : gmap string (list string);
  m_inboxes : gmap string (list Envelope);
  m_bytes : gmap string Z;
  m_questions : gmap string Question;
  m_held : gmap string HeldMessage;
  m_waiters : gset string;
  m_held_answers : gmap string string;
  m_blocked : gset string;
  m_storage : Storage;
  m_disk : Disk;
  m_events : list MailEvent;
}.

Definition set_registry (r : Registry) (m : Mail) : Mail :=
  mkMail r (m_rooms m) (m_inboxes m) (m_bytes m) (m_questions m) (m_held m) (m_waiters m) (m_held_answers m) (m_blocked m)
    (m_storage m) (m_disk m) (m_events m).
Definition set_queue (agent : string) (q : list Envelope) (bytes : Z) (m : Mail) : Mail :=
  mkMail (m_registry m) (m_rooms m) (<[agent := q]> (m_inboxes m)) (<[agent := bytes]> (m_bytes m)) (m_questions m) (m_held m)
    (m_waiters m) (m_held_answers m) (m_blocked m) (m_storage m) (m_disk m) (m_events m).
Definition set_questions (q : gmap string Question) (m : Mail) : Mail :=
  mkMail (m_registry m) (m_rooms m) (m_inboxes m) (m_bytes m) q (m_held m) (m_waiters m) (m_held_answers m) (m_blocked m)
    (m_storage m) (m_disk m) (m_events m).
Definition set_held (h : gmap string HeldMessage) (m : Mail) : Mail :=
  mkMail (m_registry m) (m_rooms m) (m_inboxes m) (m_bytes m) (m_questions m) h (m_waiters m) (m_held_answers m) (m_blocked m)
    (m_storage m) (m_disk m) (m_events m).
Definition set_waiting (w : gset string) (h : gmap string string) (m : Mail) : Mail :=
  mkMail (m_registry m) (m_rooms m) (m_inboxes m) (m_bytes m) (m_questions m) (m_held m) w h (m_blocked m)
    (m_storage m) (m_disk m) (m_events m).
Definition set_blocked (b : gset string) (m : Mail) : Mail :=
  mkMail (m_registry m) (m_rooms m) (m_inboxes m) (m_bytes m) (m_questions m) (m_held m) (m_waiters m) (m_held_answers m) b
    (m_storage m) (m_disk m) (m_events m).
Definition set_store (s : Storage) (d : Disk) (m : Mail) : Mail :=
  mkMail (m_registry m) (m_rooms m) (m_inboxes m) (m_bytes m) (m_questions m) (m_held m) (m_waiters m) (m_held_answers m)
    (m_blocked m) s d (m_events m).
Definition go_out (events : list MailEvent) (m : Mail) : Mail :=
  mkMail (m_registry m) (m_rooms m) (m_inboxes m) (m_bytes m) (m_questions m) (m_held m) (m_waiters m) (m_held_answers m)
    (m_blocked m) (m_storage m) (m_disk m) (app (m_events m) events).

Definition queue_of (m : Mail) (agent : string) : list Envelope := default [] (m_inboxes m !! agent).
Definition bytes_of (m : Mail) (agent : string) : Z := default 0%Z (m_bytes m !! agent).

(** [commit] over [persist]: the write lands, then memory moves and the events
    go out; a write that does not land leaves memory, and one that fails latches. *)
Definition mail_commit (m : Mail) (events : list MailEvent) (write : Disk → option Disk) (apply : Mail → Mail)
    : Persisted * Mail :=
  let s := m_storage m in
  if so_error s then (FailedWrite, m)
  else if so_fenced s then (Skipped, set_store (mkStorage (so_error s) (so_fenced s) true (so_answers s)) (m_disk m) m)
  else
    match (match so_answers s with false :: _ => None | _ => write (m_disk m) end) with
    | None => (FailedWrite, set_store (mkStorage true (so_fenced s) (so_skipped s) (drop 1 (so_answers s))) (m_disk m) m)
    | Some d =>
        (Committed, go_out events (apply (set_store (mkStorage (so_error s) (so_fenced s) false (drop 1 (so_answers s))) d m)))
    end.

Definition mail_failing (m : Mail) : bool :=
  so_error (m_storage m) || (so_skipped (m_storage m) && so_fenced (m_storage m)).

Definition mail_emit (m : Mail) (e : MailEvent) : Mail := (mail_commit m [e] Some (λ m, m)).2.

(** The answers; [MFailure] is what [write_failure] says, and [MNotFound] also a
    refusal of the registry. *)
Inductive MailAnswer :=
| Sent (message : string)
| Held (message question : string)
| Messages (messages : list Envelope)
| MOk
| MFailure
| MNotFound
| MForbidden
| MInvalid
| MUnavailable
| MConflict
| MBackpressure (agent : string).

Section Mail.
Context {HO : HashOrder string AgentRecord} {V5 : Uuid} {U : Unicode}.
Context {SJ : SerdeJson} {FF : FormFormats} {HA : HttpAuthority} {ES : EnvelopeSize} {AJ : AnswerJson}.

(** ** Publishing *)

Definition is_human (r : AgentRecord) : bool := s_runtime (r_spec r) == HUMAN_RUNTIME.
Definition is_human_id (m : Mail) (id : string) : bool := (id == HUMAN) || is_some_and is_human (Reg.get (m_registry m) id).

Definition put_to (m : Mail) (q : Question) (who : string) : bool :=
  let record := Reg.get (m_registry m) who in
  let project := match record with Some r => project_id <$> r_project r | None => None end in
  addressed_to q who project
  || (is_some_and is_human record && match q_to q with DProject _ => true | _ => false end).

Definition recipients_of (m : Mail) (e : Envelope) : list string :=
  dedup (sort_by_key (λ id : string, id)
    match e_to e with
    | DAgent id => [id]
    | DBroadcast => r_id <$> filter (λ a, r_id a ≠ e_from e) (Reg.live (m_registry m))
    | DProject project =>
        r_id <$> filter (λ a, r_id a ≠ e_from e ∧ project_id <$> r_project a = Some project) (Reg.live (m_registry m))
    | DChannel id => filter (λ a, a ≠ e_from e) (default [] (m_rooms m !! id))
    | DTopic _ => []
    end).

(** The question a message closes. *)
Definition closed_by (m : Mail) (e : Envelope) (default_for : option string) : option string :=
  match default_for with
  | Some q => if is_some (m_questions m !! q) then Some q else None
  | None =>
      match e_reply_to e with
      | None => None
      | Some id =>
          match m_questions m !! id with
          | None => None
          | Some pending =>
              if (e_to e == DAgent (q_from pending)) && put_to m pending (e_from e) then Some (q_id pending) else None
          end
      end
  end.

(** A reviewed request takes only what its presentation permits. *)
Definition refused_by_presentation (p : option QuestionPresentation) (payload : Json) : bool :=
  match p with
  | Some p =>
      match p with
      | McpUrlCard _ _ _ _ | McpFormCard _ _ _ =>
          negb match payload with
               | JObject [(key, JString value)] => (key == "text") && permits_answer p value
               | _ => false
               end
      | _ => false
      end
  | None => false
  end.

Definition strip_claims (payload : Json) : Json :=
  match payload with
  | JObject entries => JObject (filter (λ e, e.1 ∉ ["choices"; "other"; "default"]) entries)
  | _ => payload
  end.

(** The payload of the answer that closes [q]; [None] when its choices do not
    fit. *)
Definition answered_payload (q : Question) (payload : Json) : option Json :=
  if (length (qf_options (q_form q)) =? 0)%nat then Some (strip_claims payload)
  else
    let given := answer_from_payload payload in
    match answer_resolve (q_form q) (qa_text given) (qa_choices given) (qa_other given) (qa_note given) with
    | Ok answer => Some (answer_payload answer)
    | Err _ => None
    end.

Definition with_payload (e : Envelope) (kind : string) (payload : Json) : Envelope :=
  mkEnvelope (e_id e) (e_from e) (e_to e) kind payload (e_reply_to e) (e_sent_at e) (e_links e).

(** The envelope as it goes out, or the refusal. *)
Definition routed_envelope (m : Mail) (e : Envelope) (default_for closed : option string) : option Envelope :=
  match closed with
  | None => Some e
  | Some id =>
      match m_questions m !! id with
      | None => Some (with_payload e "answer" (if is_none default_for then strip_claims (e_payload e) else e_payload e))
      | Some q =>
          if refused_by_presentation (q_presentation q) (e_payload e) then None
          else match default_for with
          | Some _ => Some (with_payload e "answer" (e_payload e))
          | None => with_payload e "answer" <$> answered_payload q (e_payload e)
          end
      end
  end.

Definition no_room (m : Mail) (bytes : Z) (id : string) : bool :=
  (INBOX_CAPACITY <=? length (queue_of m id))%nat || (INBOX_BYTES <? u64_saturating_add (bytes_of m id) bytes)%Z.

Definition enqueue (e : Envelope) (bytes : Z) (m : Mail) (id : string) : Mail :=
  set_queue id (app (queue_of m id) [e]) (u64_add (bytes_of m id) bytes) m.

Definition delete_open (ids : list string) (m : Mail) : Mail := set_questions (foldr delete (m_questions m) ids) m.

(** What the commit of a message changes in memory. *)
Definition publish_apply (now : instant) (e : Envelope) (recipients : list string) (question : option Question)
    (closing : list string) (m : Mail) : Mail :=
  let m := foldl (enqueue e (message_bytes e)) m recipients in
  let m := if is_some (Reg.get (m_registry m) (e_from e)) then set_registry (Reg.touch (m_registry m) (e_from e) now).1 m else m in
  let m := match question with Some q => set_questions (<[q_id q := q]> (m_questions m)) m | None => m end in
  delete_open closing m.

Definition sent_events (m : Mail) (e : Envelope) (question : option Question) (document : option DocumentTransition)
    (default_for closed settled : option string) : list MailEvent :=
  app (match document with Some t => [do_event t] | None => [] end)
  (app (match default_for with
        | Some id => match m_questions m !! id with Some q => [QuestionStale (q_id q) (qf_stale_action (q_form q))] | None => [] end
        | None => []
        end)
  (app (match settled with Some id => [QuestionClosed id None] | None => [] end)
  (app [MessageSent (e_id e) (e_from e) (e_to e) (e_kind e)]
  (app (match question with Some q => [QuestionOpened (q_id q) (q_expires_at q)] | None => [] end)
       (match closed with Some id => [QuestionClosed id (Some (e_id e))] | None => [] end))))).

(** The route of the answer that closed [closed]. *)
Definition route_answer (m : Mail) (closed : option string) (answer : string) (held : bool) : Mail :=
  match closed with
  | None => m
  | Some question =>
      if held then set_waiting (m_waiters m) (<[answer := question]> (m_held_answers m)) m
      else mail_emit m (AnswerRouted question answer Queue)
  end.

(** [publish_routed] once the sweep is done. *)
Definition publish_settled (m : Mail) (now : instant) (e : Envelope) (question : option Question)
    (document : option DocumentTransition) (default_for : option string) : MailAnswer * Mail :=
  if is_some question && (MAX_QUESTIONS <=? size (m_questions m))%nat then (MUnavailable, m)
  else
    let recipients := recipients_of m e in
    let closed := closed_by m e default_for in
    match routed_envelope m e default_for closed with
    | None => (MInvalid, m)
    | Some e =>
        let held := match closed with Some q => bool_decide (q ∈ m_waiters m) | None => false end in
        match List.find (no_room m (message_bytes e)) recipients with
        | Some full => (MBackpressure full, m)
        | None =>
            let settled := match document with
                           | Some t => match do_closes t with
                                       | Some id => if is_some (m_questions m !! id) then Some id else None
                                       | None => None
                                       end
                           | None => None
                           end in
            let closing := app (option_list closed) (option_list settled) in
            let m := (mail_commit m (sent_events m e question document default_for closed settled)
                        (λ d, publish_message d e recipients question closing document)
                        (publish_apply now e recipients question closing)).2 in
            if mail_failing m then (MFailure, m)
            else (Sent (e_id e), route_answer m closed (e_id e) held)
        end
    end.

(** ** Questions that end by themselves *)

Definition publish_default_answer (m : Mail) (now : instant) (e : Envelope) (question : string) : MailAnswer * Mail :=
  if mail_failing m then (MFailure, m) else publish_settled m now e None None (Some question).

Definition due_ids (m : Mail) (due : Question → bool) : list string :=
  sort_by_key (λ id : string, id) (map_to_list (filter (λ kv, due kv.2 = true) (m_questions m))).*1.

Definition close_expired_questions (m : Mail) (now : instant) : Mail :=
  let expired := due_ids m (λ q, question_expired q now) in
  if (length expired =? 0)%nat || so_error (m_storage m) then m
  else
    let held := omap (λ id, (λ h, (id, e_id (h_envelope h))) <$> m_held m !! id) expired in
    (mail_commit m (app ((λ id, QuestionClosed id None) <$> expired) ((λ h, HeldMessageDropped h.2 h.1 EXPIRY) <$> held))
       (λ d, Some (delete_held (delete_questions d expired) held.*1))
       (λ m, set_held (foldr delete (m_held m) expired)
               (set_blocked (m_blocked m ∖ list_to_set expired) (delete_open expired m)))).2.

Definition note_default (m : Mail) (question : string) (refused : bool) : Mail :=
  set_blocked (if refused then {[ question ]} ∪ m_blocked m else m_blocked m ∖ {[ question ]}) m.

Definition mark_stale (q : Question) (now : instant) : Question :=
  mkQuestion (q_id q) (q_from q) (q_to q) (q_text q) (q_presentation q) (q_asked_at q) (q_expires_at q) (q_form q) (Some now).

(** The answer a question gives itself; [id] is the fresh id of the message. *)
Definition default_answer (q : Question) (label id : string) (now : instant) : option Envelope :=
  match (match answer_resolve (q_form q) label [label] None None with
         | Ok a => Some a
         | Err _ => match answer_resolve (q_form q) label [] None None with Ok a => Some a | Err _ => None end
         end) with
  | Some a =>
      Some (envelope_new id DEFAULT_ANSWERER (DAgent (q_from q)) "answer"
              (answer_payload (mkAnswer (qa_text a) (qa_choices a) (qa_other a) (qa_note a) true)) (Some (q_id q)) now)
  | None => None
  end.

Definition stale_due (now : instant) (q : Question) : bool :=
  is_none (q_stale_since q) && negb (question_expired q now) && is_some_and (λ at_, at_ <=? now)%Z (stale_at q).

(** One due question; [fresh] draws the id of a default answer. *)
Definition stale_one (fresh : string → string) (now : instant) (m : Mail) (id : string) : Mail :=
  match m_questions m !! id with
  | None => m
  | Some q =>
      if is_some (q_stale_since q) then m
      else match qf_stale_action (q_form q) with
      | KeepWaiting =>
          (mail_commit m [QuestionStale (q_id q) KeepWaiting] (λ d, Some (put_question d (mark_stale q now)))
             (λ m, set_questions (<[q_id q := mark_stale q now]> (m_questions m)) m)).2
      | AnswerDefault label =>
          match default_answer q label (fresh id) now with
          | Some e =>
              let '(r, m) := publish_default_answer m now e (q_id q) in
              note_default m (q_id q) (match r with Sent _ => false | _ => true end)
          | None => note_default m (q_id q) true
          end
      | Withdraw =>
          (mail_commit m [QuestionStale (q_id q) Withdraw; QuestionClosed (q_id q) None]
             (λ d, Some (delete_questions d [q_id q])) (delete_open [q_id q])).2
      end
  end.

Fixpoint stale_each (fresh : string → string) (now : instant) (m : Mail) (ids : list string) : Mail :=
  match ids with
  | [] => m
  | id :: ids =>
      let m := stale_one fresh now m id in
      if so_error (m_storage m) then m else stale_each fresh now m ids
  end.

Definition stale_questions (fresh : string → string) (m : Mail) (now : instant) : Mail :=
  let m := set_blocked (filter (λ id, is_Some (m_questions m !! id)) (m_blocked m)) m in
  if so_error (m_storage m) then m else stale_each fresh now m (due_ids m (stale_due now)).

Definition expire_questions (fresh : string → string) (m : Mail) (now : instant) : Mail :=
  stale_questions fresh (close_expired_questions m now) now.

(** [publish_with_channel] without a staged room. *)
Definition publish_routed (fresh : string → string) (m : Mail) (now : instant) (e : Envelope) (question : option Question)
    (document : option DocumentTransition) : MailAnswer * Mail :=
  if mail_failing m then (MFailure, m)
  else
    let m := expire_questions fresh m now in
    if mail_failing m then (MFailure, m) else publish_settled m now e question document None.

(** ** Asking and answering *)

Definition question_payload (q : Question) : Json :=
  JObject (sort_by_key fst (("text", JString (prompt q)) :: form_fields (q_form q))).

Definition open_question (fresh : string → string) (m : Mail) (now : instant) (id from : string) (to : Destination) (text : string)
    (presentation : option QuestionPresentation) (timeout : Z) (f : QuestionForm) : MailAnswer * Mail :=
  if trim text == "" then (MInvalid, m)
  else if is_some_and (λ p, negb (Message.valid_for p text)) presentation then (MInvalid, m)
  else if (match Message.validate f timeout with Ok _ => false | Err _ => true end) then (MInvalid, m)
  else if is_some presentation && negb (length (qf_options f) =? 0)%nat then (MInvalid, m)
  else match to with
  | DAgent _ | DProject _ | DBroadcast =>
      let q := mkQuestion id from to text presentation now (now + seconds timeout)%Z f None in
      publish_routed fresh m now (envelope_new id from to "question" (question_payload q) None now) (Some q) None
  | _ => (MInvalid, m)
  end.

(** [ask] as far as its wait: the question, and its waiter in the same hold. *)
Definition ask (fresh : string → string) (m : Mail) (now : instant) (id from : string) (to : Destination) (text : string)
    (timeout : Z) (f : QuestionForm) : MailAnswer * Mail :=
  match open_question fresh m now id from to text None timeout f with
  | (Sent message, m) => (Sent message, set_waiting ({[ message ]} ∪ m_waiters m) (m_held_answers m) m)
  | r => r
  end.

(** The wait ends: what is still held goes to the queue. *)
Definition release_answer (question : string) (m : Mail) (answer : string) : Mail :=
  mail_emit (set_waiting (m_waiters m) (delete answer (m_held_answers m)) m) (AnswerRouted question answer Queue).

Definition waiter_ended (m : Mail) (question : string) : Mail :=
  let m := set_waiting (m_waiters m ∖ {[ question ]}) (m_held_answers m) m in
  foldl (release_answer question) m (map_to_list (filter (λ kv, kv.2 = question) (m_held_answers m))).*1.

(** The ask took its answer; [noted] is the record [note_legacy_offers] writes
    for the asker, if it writes one. *)
Definition answer_handed_over (m : Mail) (asker question answer : string) (noted : option (AgentRecord → AgentRecord)) : bool * Mail :=
  if is_none (m_held_answers m !! answer) then (true, m)
  else match Reg.resolve (m_registry m) asker with
  | Err _ => (false, m)
  | Ok id =>
      let m := match noted with
               | Some f => (mail_commit m [] Some (λ m, set_registry (Reg.get_mut (m_registry m) id f).1 m)).2
               | None => m
               end in
      if so_error (m_storage m) then (false, m)
      else
        let m := mail_emit m (AnswerRouted question answer ToolResult) in
        if so_error (m_storage m) then (false, m)
        else (true, set_waiting (m_waiters m) (delete answer (m_held_answers m)) m)
  end.

(** ** Messages held for the person *)

Definition drop_held (m : Mail) (dropped : list (string * string)) (by_ : string) (closing : option MailEvent) : Mail :=
  if (length dropped =? 0)%nat then m
  else
    (mail_commit m (app (option_list closing) ((λ d, HeldMessageDropped d.2 d.1 by_) <$> dropped))
       (λ d, Some (delete_held (delete_questions d dropped.*1) dropped.*1))
       (λ m, set_held (foldr delete (m_held m) dropped.*1) (delete_open dropped.*1 m))).2.

(** [card] is the fresh id of the question; [to] what it calls the
    destination. *)
Definition hold_message (fresh : string → string) (m : Mail) (now : instant) (e : Envelope) (rule card to : string) : MailAnswer * Mail :=
  if mail_failing m then (MFailure, m)
  else
    let '(name, runtime) := match Reg.get (m_registry m) (e_from e) with
                            | Some r => (s_name (r_spec r), s_runtime (r_spec r))
                            | None => (e_from e, "unknown runtime")
                            end in
    let human := match List.find is_human (Reg.live (m_registry m)) with Some r => r_id r | None => HUMAN end in
    let q := held_question card e name runtime to human rule now in
    let held := mkHeld card e rule now in
    match publish_routed fresh m now
            (envelope_new card (q_from q) (q_to q) "question" (JObject [("text", JString (q_text q))]) None now) (Some q)
            (Some (mkDocument card (Some held) (MessageHeld (e_id e) card (e_from e) (e_to e) rule) None)) with
    | (Sent _, m) => (Held (e_id e) card, set_held (<[card := held]> (m_held m)) m)
    | r => r
    end.

Definition settle_held (fresh : string → string) (m : Mail) (now : instant) (question : string) (decision : HeldDecision) (by_ : string)
    : MailAnswer * Mail :=
  if mail_failing m then (MFailure, m)
  else match m_held m !! question with
  | None => (MNotFound, m)
  | Some held =>
      match decision with
      | HRelease =>
          match publish_routed fresh m now (h_envelope held) None
                  (Some (mkDocument question None (HeldMessageReleased (e_id (h_envelope held)) question by_) (Some question))) with
          | (Sent id, m) => (Sent id, set_held (delete question (m_held m)) m)
          | r => r
          end
      | HDrop =>
          let m := drop_held m [(question, e_id (h_envelope held))] by_ (Some (QuestionClosed question None)) in
          (if mail_failing m then MFailure else MOk, m)
      end
  end.

Definition decide_held (fresh : string → string) (m : Mail) (now : instant) (from question text : string) : MailAnswer * Mail :=
  match (match Reg.resolve (m_registry m) from with
         | Ok id => Some id
         | Err (NotFound _) => if from == HUMAN then Some HUMAN else None
         | Err _ => None
         end) with
  | None => (MNotFound, m)
  | Some by_ =>
      if negb (is_human_id m by_) then (MForbidden, m)
      else match held_parse text with
      | None => (MInvalid, m)
      | Some decision => settle_held fresh m now question decision by_
      end
  end.

(** [id] is the answer's fresh id; [sender] and [to] are what [endpoints]
    resolved; [allowed] is the policy's word on the send. *)
Definition answer (fresh : string → string) (m : Mail) (now : instant) (id message from sender : string) (to : Destination) (allowed : bool)
    (text : string) (choices : list string) (other note : option string) : MailAnswer * Mail :=
  match m_questions m !! message with
  | None => (MNotFound, m)
  | Some q =>
      if question_expired q now then (MNotFound, m)
      else if is_some (m_held m !! message) then decide_held fresh m now from message text
      else
        let m := expire_questions fresh m now in
        if mail_failing m then (MFailure, m)
        else if is_none (m_questions m !! message) then (MNotFound, m)
        else if negb (put_to m q sender) then (MForbidden, m)
        else if is_some (Reg.get (m_registry m) sender) && negb allowed then (MForbidden, m)
        else match answer_resolve (q_form q) text choices other note with
        | Err _ => (MInvalid, m)
        | Ok a => publish_routed fresh m now (envelope_new id sender to "answer" (answer_payload a) (Some message) now) None None
        end
  end.

Definition cancel_question (m : Mail) (reference message : string) : MailAnswer * Mail :=
  match Reg.resolve (m_registry m) reference with
  | Err _ => (MNotFound, m)
  | Ok agent =>
      if mail_failing m then (MFailure, m)
      else match m_questions m !! message with
      | None => (MOk, m)
      | Some q =>
          if q_from q != agent then (MForbidden, m)
          else
            let m := match m_held m !! message with
                     | Some held => drop_held m [(message, e_id (h_envelope held))] agent (Some (QuestionCancelled message agent))
                     | None => (mail_commit m [QuestionCancelled message agent] (λ d, Some (delete_questions d [message]))
                                  (delete_open [message])).2
                     end in
            (if mail_failing m then MFailure else MOk, m)
      end
  end.

(** ** Reading *)

Definition read_by (now : instant) (r : AgentRecord) : AgentRecord :=
  mkRecord
    (r_id r) (r_spec r) (r_status r) (r_host r) (r_pid r) (r_process_started_at r)
    (r_process_group r) (r_managed r) (r_session r) (r_terminal r) (r_restarts r)
    (r_stop_requested r) (r_container r) (r_owner r) (r_project r) (r_vcs r) (r_created_at r)
    (r_started_at r) (r_finished_at r) now (r_reported_activity r) (r_input_delivery r)
    (r_provider_availability r) (r_adapter_contacts r)
    (match r_process_started_at r with Some born => Some (mkContact born now) | None => r_queue_read r end)
    (r_session_contact r) (r_input_binding r) (r_legacy_offers r) (r_judged r) (r_thread r).

Definition touch_reader (m : Mail) (id : string) (now : instant) : Mail :=
  if is_some (Reg.get (m_registry m) id)
  then (mail_commit m [] Some (λ m, set_registry (Reg.get_mut (m_registry m) id (read_by now)).1 m)).2
  else m.

(** What is taken off a queue, and off its bytes, one message at a time. *)
Definition take_off (messages : list string) (m : Mail) (id : string) : Mail :=
  if is_some (m_inboxes m !! id)
  then set_queue id (filter (λ e, e_id e ∉ messages) (queue_of m id))
         (foldl (λ b e, if bool_decide (e_id e ∈ messages) then u64_saturating_sub b (message_bytes e) else b)
            (bytes_of m id) (queue_of m id)) m
  else m.

(** The ids of the queue that are wanted, each once. *)
Fixpoint wanted_of (wanted : list string) (seen : list string) (queue : list Envelope) : list string :=
  match queue with
  | [] => []
  | e :: queue =>
      if bool_decide (e_id e ∈ wanted) && negb (bool_decide (e_id e ∈ seen))
      then e_id e :: wanted_of wanted (e_id e :: seen) queue
      else wanted_of wanted seen queue
  end.

Definition ack_inbox (m : Mail) (reference : string) (messages : list string) (now : instant) : MailAnswer * Mail :=
  match Reg.resolve (m_registry m) reference with
  | Err _ => (MNotFound, m)
  | Ok id =>
      let m := touch_reader m id now in
      let messages := wanted_of messages [] (queue_of m id) in
      if (length messages =? 0)%nat then (MOk, m)
      else
        let m := (mail_commit m [InboxAcknowledged id messages] (λ d, Some (delete_rows d id messages))
                    (λ m, take_off messages m id)).2 in
        (if mail_failing m then MFailure else MOk, m)
  end.

(** The messages before the first one held for a waiting ask. *)
Fixpoint take_unheld (held : gmap string string) (queue : list Envelope) : list Envelope :=
  match queue with
  | [] => []
  | e :: queue => if is_some (held !! e_id e) then [] else e :: take_unheld held queue
  end.

Definition read_inbox (m : Mail) (id : string) (drain : bool) (now : instant) : MailAnswer * Mail :=
  if so_error (m_storage m) then (MFailure, m)
  else
    let messages := take_unheld (m_held_answers m) (queue_of m id) in
    if drain && negb (length messages =? 0)%nat
    then match ack_inbox m id (e_id <$> messages) now with
         | (MOk, m) => (Messages messages, m)
         | r => r
         end
    else (Messages messages, m).

Definition inbox (m : Mail) (reference : string) (drain : bool) (now : instant) : MailAnswer * Mail :=
  match Reg.resolve (m_registry m) reference with
  | Err _ => (MNotFound, m)
  | Ok id =>
      if drain && is_some_and (λ r, is_some (provider_block r (Reg.all (m_registry m)))) (Reg.get (m_registry m) id)
      then (MConflict, m)
      else read_inbox (touch_reader m id now) id drain now
  end.

(** [mark_read] where the cursor moves; [covered] are the ids of the
    conversation up to it, none when the queue has an owner. *)
Definition mark_read (m : Mail) (reader conversation : string) (through : Z) (covered : list string) : MailAnswer * Mail :=
  let acknowledged := e_id <$> filter (λ e, e_id e ∈ covered) (queue_of m reader) in
  match mail_commit m [ConversationRead reader conversation through] (λ d, Some (delete_rows d reader acknowledged))
          (λ m, if (length acknowledged =? 0)%nat then m else take_off acknowledged m reader) with
  | (Committed, m) => (MOk, m)
  | (_, m) => (MFailure, m)
  end.

(** ** Catching up *)

(** The loop over the archive; [reserved] are the kinds of pause notices. *)
Fixpoint caught_up (m : Mail) (since : instant) (reserved : string → bool) (queued : list string) (count : nat) (bytes : Z)
    (recent : list Envelope) : list Envelope :=
  match recent with
  | [] => []
  | e :: recent =>
      if (e_sent_at e <? since)%Z || reserved (e_kind e) || bool_decide (e_id e ∈ queued) || negb (is_human_id m (e_from e))
      then caught_up m since reserved queued count bytes recent
      else if (INBOX_CAPACITY <=? count)%nat || (INBOX_BYTES <? u64_add bytes (message_bytes e))%Z then []
      else e :: caught_up m since reserved queued (count + 1) (u64_add bytes (message_bytes e)) recent
  end.

Definition twin (reg : Registry) (record : AgentRecord) : bool :=
  let session := match label record "session_id" with Some id => if id != "" then Some id else None | None => None end in
  existsb (λ other, (r_id other != r_id record)
    && (is_some_and (λ id, label other "session_id" == Some id) session
        || is_some_and (λ pid, (r_pid other == Some pid) && (r_process_started_at other == r_process_started_at record)) (r_pid record)))
    (Reg.all reg).

Definition catch_up (m : Mail) (record : AgentRecord) (reserved : string → bool) (recent : list Envelope) (now : instant) : Mail :=
  if is_human record || mail_failing m || is_none (r_project record) || twin (m_registry m) record then m
  else
    let id := r_id record in
    let messages := caught_up m (now - CATCH_UP_WINDOW)%Z reserved (e_id <$> queue_of m id) (length (queue_of m id)) (bytes_of m id) recent in
    if (length messages =? 0)%nat then m
    else (mail_commit m [MessagesCaughtUp id (e_id <$> messages)] (λ d, insert_rows d ((λ e, (id, e)) <$> messages))
            (λ m, foldl (λ m e, enqueue e (message_bytes e) m id) m messages)).2.

(** ** Starting again *)

Definition load_bytes (queue : list Envelope) : Z := foldl (λ n e, u64_saturating_add n (message_bytes e)) 0%Z queue.

Definition load_inboxes (d : Disk) : gmap string (list Envelope) :=
  foldl (λ q r, <[r.1 := app (default [] (q !! r.1)) [r.2]]> q) ∅ (dk_inbox d).

(** [with_store], the parts of this path, when no transfer is offered: queues
    from their rows, questions without the expired, held messages without those
    whose card is gone. [answers] is what the writes of this start, and those
    after it, answer; [None]: the daemon does not come up. *)
Definition restore_mail (m : Mail) (answers : list bool) (now : instant) : option Mail :=
  let d := m_disk m in
  let expired := due_ids (set_questions (dk_questions d) m) (λ q, question_expired q now) in
  let questions := foldr delete (dk_questions d) expired in
  let orphaned := (map_to_list (filter (λ kv, is_none (questions !! kv.1) = true) (dk_held d))) in
  match answers with
  | false :: _ => None
  | _ =>
      if (MAX_QUESTIONS <? size questions)%nat then None
      else match (if (length orphaned =? 0)%nat then [] else drop 1 answers) with
      | false :: _ => None
      | _ =>
          let held := foldr delete (dk_held d) orphaned.*1 in
          Some (mkMail (m_registry m) (m_rooms m) (load_inboxes d) (load_bytes <$> load_inboxes d) questions held ∅ ∅ ∅
                  (mkStorage false false false (drop (if (length orphaned =? 0)%nat then 1 else 2) answers)) (mkDisk (dk_inbox d) questions held)
                  (app (m_events m)
                     (app ((λ id, QuestionClosed id None) <$> expired)
                          ((λ kv, HeldMessageDropped (e_id (h_envelope kv.2)) kv.1 EXPIRY) <$> orphaned))))
      end
  end.

(** ** Any request may come next *)

(** What a running daemon does; the argument is the id a question is opened
    under. Ids are drawn at random: one just drawn names nothing yet. What other
    parts of the daemon do, [mail_elsewhere]: records and rooms change, the fence
    goes up or down, a write of theirs fails. *)
Inductive mail_act : option string → Mail → Mail → Prop :=
| mail_send m fresh now e : mail_act None m (publish_routed fresh m now e None None).2
| mail_post_question m fresh now id from to text presentation timeout f :
    m_questions m !! id = None → mail_act (Some id) m (open_question fresh m now id from to text presentation timeout f).2
| mail_ask m fresh now id from to text timeout f :
    m_questions m !! id = None → mail_act (Some id) m (ask fresh m now id from to text timeout f).2
| mail_handed_over m asker question answer noted : mail_act None m (answer_handed_over m asker question answer noted).2
| mail_wait_over m question : mail_act None m (waiter_ended m question)
| mail_answer m fresh now id message from sender to allowed text choices other note :
    mail_act None m (answer fresh m now id message from sender to allowed text choices other note).2
| mail_cancel m reference message : mail_act None m (cancel_question m reference message).2
| mail_hold m fresh now e rule card to :
    m_questions m !! card = None → m_held m !! card = None → e_reply_to e ≠ Some card →
    mail_act (Some card) m (hold_message fresh m now e rule card to).2
| mail_sweep m fresh now : mail_act None m (expire_questions fresh m now)
| mail_ack m reference messages now : mail_act None m (ack_inbox m reference messages now).2
| mail_inbox m reference drain now : mail_act None m (inbox m reference drain now).2
| mail_read m reader conversation through covered : mail_act None m (mark_read m reader conversation through covered).2
| mail_catch_up m record reserved recent now :
    (∀ e, e ∈ recent → (message_bytes e < 2 ^ 63)%Z) → mail_act None m (catch_up m record reserved recent now)
| mail_elsewhere m registry rooms s :
    (so_error (m_storage m) = true → so_error s = true) →
    mail_act None m (mkMail registry rooms (m_inboxes m) (m_bytes m) (m_questions m) (m_held m) (m_waiters m) (m_held_answers m)
                   (m_blocked m) s (m_disk m) (m_events m)).

Inductive mail_step : Mail → Mail → Prop :=
| mail_acts new m m' : mail_act new m m' → mail_step m m'
| mail_restart m answers now m' : restore_mail m answers now = Some m' → mail_step m m'.

(** A daemon that has never had any mail. *)
Definition mail_start (registry : Registry) (rooms : gmap string (list string)) (answers : list bool) : Mail :=
  mkMail registry rooms ∅ ∅ ∅ ∅ ∅ ∅ ∅ (mkStorage false false false answers) (mkDisk [] ∅ ∅) [].

End Mail.

(** ** Facts *)

Module MailFacts.

(** *** Counting events *)

Definition opening (e : MailEvent) : option string := match e with QuestionOpened q _ => Some q | _ => None end.
Definition closing (e : MailEvent) : option string :=
  match e with QuestionClosed q _ | QuestionCancelled q _ => Some q | _ => None end.
Definition holding (e : MailEvent) : option string := match e with MessageHeld _ q _ _ _ => Some q | _ => None end.
Definition settling (e : MailEvent) : option string :=
  match e with HeldMessageReleased _ q _ | HeldMessageDropped _ q _ => Some q | _ => None end.

Definition times (f : MailEvent → option string) (id : string) (es : list MailEvent) : nat :=
  length (filter (λ e, f e = Some id) es).

Lemma times_app f id es es' : times f id (app es es') = (times f id es + times f id es')%nat.
Proof. unfold times. by rewrite filter_app, length_app. Qed.

Lemma times_nil f id : times f id [] = 0%nat.
Proof. done. Qed.

Lemma times_cons f id e es : times f id (e :: es) = ((if decide (f e = Some id) then 1 else 0) + times f id es)%nat.
Proof. unfold times. rewrite filter_cons. by destruct (decide _). Qed.

Definition present {A} (m : gmap string A) (id : string) : nat := if is_some (m !! id) then 1 else 0.

(** One event for each of a list of ids. *)
Lemma times_fmap {A} f (g : A → MailEvent) (h : A → string) id l : (∀ x, f (g x) = Some (h x)) →
  NoDup (h <$> l) → times f id (g <$> l) = if decide (id ∈ h <$> l) then 1%nat else 0%nat.
Proof.
  intros Hf. induction l as [|x l IH]; [done|]. csimpl. intros [Hx Hl]%NoDup_cons. rewrite times_cons, Hf, IH by done.
  destruct (decide (Some (h x) = Some id)) as [[= <-]|Hn].
  - rewrite (decide_False (P := h x ∈ h <$> l)) by done. rewrite decide_True by by left. done.
  - destruct (decide (id ∈ h <$> l)) as [Hin|Hin].
    + rewrite decide_True by by right. done.
    + rewrite decide_False; [done|]. intros [->|?]%elem_of_cons; [by destruct Hn|done].
Qed.

Lemma times_none {A} f (g : A → MailEvent) id l : (∀ x, f (g x) = None) → times f id (g <$> l) = 0%nat.
Proof. intros Hf. induction l as [|x l IH]; [done|]. csimpl. rewrite times_cons, Hf, IH. done. Qed.

(** *** Deleting keys *)

Lemma lookup_foldr_delete {A} (m : gmap string A) ids k :
  foldr delete m ids !! k = if decide (k ∈ ids) then None else m !! k.
Proof.
  induction ids as [|i ids IH]; simpl; [done|]. destruct (decide (k = i)) as [->|Hne].
  - rewrite lookup_delete_eq, decide_True by by left. done.
  - rewrite lookup_delete_ne, IH by done. destruct (decide (k ∈ ids)) as [?|Hn].
    + rewrite decide_True by by right. done.
    + rewrite decide_False; [done|]. by intros [?|?]%elem_of_cons.
Qed.

Lemma size_foldr_delete {A} (m : gmap string A) ids : (size (foldr delete m ids) ≤ size m)%nat.
Proof.
  induction ids as [|i ids IH]; simpl; [done|]. rewrite map_size_delete. destruct (foldr delete m ids !! i); simpl; lia.
Qed.

Lemma present_foldr_delete {A} (m : gmap string A) ids id : (∀ i, i ∈ ids → is_Some (m !! i)) →
  present m id = (present (foldr delete m ids) id + if decide (id ∈ ids) then 1 else 0)%nat.
Proof.
  intros Hin. unfold present. rewrite lookup_foldr_delete. destruct (decide (id ∈ ids)) as [H|H]; [|lia].
  destruct (Hin id H) as [x ->]. done.
Qed.

(** *** Rows and queues *)

Definition for_agent (agent : string) (l : list (string * Envelope)) : list Envelope := (filter (λ r, r.1 = agent) l).*2.

Lemma for_agent_app id l l' : for_agent id (app l l') = app (for_agent id l) (for_agent id l').
Proof. unfold for_agent. by rewrite filter_app, fmap_app. Qed.

Lemma for_agent_cons id a e l : for_agent id ((a, e) :: l) = if decide (a = id) then e :: for_agent id l else for_agent id l.
Proof. unfold for_agent. rewrite filter_cons. simpl. by destruct (decide (a = id)). Qed.

Lemma for_agent_each id e rs : NoDup rs →
  for_agent id ((λ r, (r, e)) <$> rs) = if decide (id ∈ rs) then [e] else [].
Proof.
  induction rs as [|r rs IH]; [done|]. csimpl. intros [Hr Hnd]%NoDup_cons. rewrite for_agent_cons, IH by done.
  destruct (decide (r = id)) as [->|Hne].
  - rewrite (decide_False (P := id ∈ rs)) by done. rewrite decide_True by by left. done.
  - destruct (decide (id ∈ rs)) as [?|Hn].
    + rewrite decide_True by by right. done.
    + rewrite decide_False; [done|]. by intros [->|?]%elem_of_cons.
Qed.

Lemma for_agent_one id a es : for_agent id ((λ e, (a, e)) <$> es) = if decide (a = id) then es else [].
Proof.
  induction es as [|e es IH]; csimpl; [by destruct (decide _)|]. rewrite for_agent_cons, IH. by destruct (decide (a = id)).
Qed.

Lemma insert_rows_spec d l d' : insert_rows d l = Some d' →
  dk_questions d' = dk_questions d ∧ dk_held d' = dk_held d ∧ dk_inbox d' = app (dk_inbox d) l.
Proof.
  revert d. induction l as [|[a e] l IH]; intros d; simpl.
  - intros [= <-]. by rewrite app_nil_r.
  - unfold insert_inbox. destruct (_ <? _)%nat; [|done]. intros (-> & -> & ->)%IH. simpl. by rewrite <- app_assoc.
Qed.

Lemma rows_delete d agent ids id : inbox_rows (delete_rows d agent ids) id =
  if decide (id = agent) then filter (λ e, e_id e ∉ ids) (inbox_rows d id) else inbox_rows d id.
Proof.
  unfold inbox_rows, delete_rows. simpl. induction (dk_inbox d) as [|[a e] l IH]; [by destruct (decide _)|].
  rewrite (filter_cons _ (a, e)), (filter_cons (λ r, r.1 = id) (a, e)). simpl.
  destruct (decide (¬ (a = agent ∧ e_id e ∈ ids))) as [Hk|Hk]; [rewrite filter_cons; simpl|];
    destruct (decide (a = id)) as [->|Hid]; csimpl; rewrite IH; destruct (decide (id = agent)) as [->|Hne]; try done.
  - rewrite filter_cons, decide_True; [done|]. naive_solver.
  - rewrite filter_cons, decide_False; [done|]. intros H. apply Hk. naive_solver.
  - destruct Hk. naive_solver.
Qed.

Section Facts.
Context {HO : HashOrder string AgentRecord} {V5 : Uuid} {U : Unicode}.
Context {SJ : SerdeJson} {FF : FormFormats} {HA : HttpAuthority} {ES : EnvelopeSize} {AJ : AnswerJson}.

Definition weight (l : list Envelope) : Z := Z_sum (message_bytes <$> l).

Lemma weight_app l l' : weight (app l l') = (weight l + weight l')%Z.
Proof. unfold weight, Z_sum. induction l as [|e l IH]; csimpl; [lia|]. rewrite IH. lia. Qed.

Lemma weight_nonneg l : (0 ≤ weight l)%Z.
Proof. induction l as [|e l IH]; [done|]. unfold weight in *. csimpl. pose proof (message_bytes_range e). lia. Qed.

(** *** The invariant *)

Record mail_ok (m : Mail) : Prop := {
  mo_queue id : queue_of m id = inbox_rows (m_disk m) id;
  mo_bytes id : bytes_of m id = weight (queue_of m id);
  mo_room id : (length (queue_of m id) ≤ INBOX_CAPACITY)%nat ∧ (bytes_of m id ≤ INBOX_BYTES)%Z;
  mo_questions : dk_questions (m_disk m) = m_questions m;
  mo_keys k q : m_questions m !! k = Some q → q_id q = k;
  mo_size : (size (m_questions m) ≤ MAX_QUESTIONS)%nat;
  mo_waiting a q : m_held_answers m !! a = Some q → q ∈ m_waiters m;
  mo_account id : times opening id (m_events m) = (times closing id (m_events m) + present (m_questions m) id)%nat;
}.

Record held_ok (m : Mail) : Prop := {
  ho_disk : dk_held (m_disk m) = m_held m;
  ho_reply q h : m_held m !! q = Some h → e_reply_to (h_envelope h) ≠ Some q;
  ho_account id : times holding id (m_events m) = (times settling id (m_events m) + present (m_held m) id)%nat;
}.

(** Nothing of the mail differs. *)
Record same_mail (m m' : Mail) : Prop := {
  sm_inboxes : m_inboxes m' = m_inboxes m;
  sm_bytes : m_bytes m' = m_bytes m;
  sm_questions : m_questions m' = m_questions m;
  sm_held : m_held m' = m_held m;
  sm_waiters : m_waiters m' = m_waiters m;
  sm_answers : m_held_answers m' = m_held_answers m;
  sm_disk : m_disk m' = m_disk m;
  sm_events : m_events m' = m_events m;
}.

Lemma same_mail_refl m : same_mail m m.
Proof. by split. Qed.

Lemma same_queue m m' id : same_mail m m' → queue_of m' id = queue_of m id.
Proof. intros H. unfold queue_of. by rewrite (sm_inboxes m m' H). Qed.
Lemma same_bytes m m' id : same_mail m m' → bytes_of m' id = bytes_of m id.
Proof. intros H. unfold bytes_of. by rewrite (sm_bytes m m' H). Qed.

Lemma same_ok m m' : same_mail m m' → mail_ok m → mail_ok m'.
Proof.
  intros Hs [Hq Hb Hr Hd Hk Hz Hw Ha]. pose proof Hs as [Ei Eb Eq Eh Ew Ea Ed Ee].
  split; rewrite ?Eq, ?Ed, ?Ee, ?Ea, ?Ew; try done; intros id; rewrite ?(same_bytes m m'), ?(same_queue m m') by done; done.
Qed.

Lemma same_held m m' : same_mail m m' → held_ok m → held_ok m'.
Proof. intros [_ _ _ Eh _ _ Ed Ee] [Hd Hr Ha]. split; rewrite ?Eh, ?Ed, ?Ee; done. Qed.

(** *** The commit *)

Definition stored (m : Mail) (s : Storage) (d : Disk) : Mail := set_store s d m.

Lemma commit_cases m events write apply p m' : mail_commit m events write apply = (p, m') →
  (p = Committed ∧ ∃ s d, write (m_disk m) = Some d ∧ m' = go_out events (apply (set_store s d m))
     ∧ so_error s = false ∧ so_skipped s = false)
  ∨ (p ≠ Committed ∧ same_mail m m' ∧ mail_failing m' = true ∧ m_registry m' = m_registry m).
Proof.
  unfold mail_commit. destruct (so_error (m_storage m)) eqn:Ee.
  { intros [= <- <-]. right. split_and!; [done|apply same_mail_refl|unfold mail_failing; by rewrite Ee|done]. }
  destruct (so_fenced (m_storage m)) eqn:Ef.
  { intros [= <- <-]. right. split_and!; [done|by split|done|done]. }
  destruct (match so_answers (m_storage m) with false :: _ => None | _ => write (m_disk m) end) as [d|] eqn:Ew.
  - intros [= <- <-]. left. split; [done|]. eexists _, d. split_and!; [|done..].
    by destruct (so_answers (m_storage m)) as [|[] ?].
  - intros [= <- <-]. right. split_and!; [done|by split|done|done].
Qed.

(** What holds of a state whether or not a write lands. *)
Lemma commit_either (P : Mail → Prop) m events write apply :
  (∀ m', same_mail m m' → mail_failing m' = true → m_registry m' = m_registry m → P m') →
  (∀ s d, write (m_disk m) = Some d → so_error s = false → so_skipped s = false → P (go_out events (apply (set_store s d m)))) →
  P (mail_commit m events write apply).2.
Proof.
  intros Hf Hc. destruct (mail_commit m events write apply) as [p m'] eqn:E.
  apply commit_cases in E as [(_ & s & d & Hw & -> & ? & ?)|(_ & Hs & Hfail & Hr)]; [by apply Hc|by apply Hf].
Qed.

Lemma emit_routed m q a route : same_mail m (mail_emit m (AnswerRouted q a route))
  ∨ ∃ m1, same_mail m m1 ∧ mail_emit m (AnswerRouted q a route) = go_out [AnswerRouted q a route] m1.
Proof.
  unfold mail_emit. apply commit_either; [by left|]. intros s d [= <-] _ _. right. eexists. split; [|done]. by split.
Qed.

(** Events that neither open nor close anything. *)
Definition neutral (es : list MailEvent) : Prop :=
  ∀ id, times opening id es = 0%nat ∧ times closing id es = 0%nat ∧ times holding id es = 0%nat ∧ times settling id es = 0%nat.

Lemma announce_ok m es : neutral es → mail_ok m → mail_ok (go_out es m).
Proof.
  intros Hn [Hq Hb Hr Hd Hk Hz Hw Ha]. split; try done. intros id. simpl. rewrite !times_app.
  destruct (Hn id) as (-> & -> & _). specialize (Ha id). lia.
Qed.

Lemma announce_held m es : neutral es → held_ok m → held_ok (go_out es m).
Proof.
  intros Hn [Hd Hr Ha]. split; try done. intros id. simpl. rewrite !times_app.
  destruct (Hn id) as (_ & _ & -> & ->). specialize (Ha id). lia.
Qed.

Lemma neutral_one e : opening e = None → closing e = None → holding e = None → settling e = None → neutral [e].
Proof. intros Ho Hc Hh Hs id. rewrite !times_cons, Ho, Hc, Hh, Hs. done. Qed.

(** *** Putting in queues *)

Definition enqueue_rows (m : Mail) (l : list (string * Envelope)) : Mail :=
  foldl (λ m r, enqueue r.2 (message_bytes r.2) m r.1) m l.

Lemma enqueue_each e m rs : foldl (enqueue e (message_bytes e)) m rs = enqueue_rows m ((λ r, (r, e)) <$> rs).
Proof. unfold enqueue_rows. revert m. induction rs as [|r rs IH]; intros m; csimpl; [done|]. apply IH. Qed.

Lemma enqueue_one id m es : foldl (λ m e, enqueue e (message_bytes e) m id) m es = enqueue_rows m ((λ e, (id, e)) <$> es).
Proof. unfold enqueue_rows. revert m. induction es as [|e es IH]; intros m; csimpl; [done|]. apply IH. Qed.

Lemma queue_of_set m a q b id : queue_of (set_queue a q b m) id = if decide (a = id) then q else queue_of m id.
Proof. unfold queue_of. simpl. destruct (decide (a = id)) as [->|?]; [by rewrite lookup_insert_eq|by rewrite lookup_insert_ne]. Qed.
Lemma bytes_of_set m a q b id : bytes_of (set_queue a q b m) id = if decide (a = id) then b else bytes_of m id.
Proof. unfold bytes_of. simpl. destruct (decide (a = id)) as [->|?]; [by rewrite lookup_insert_eq|by rewrite lookup_insert_ne]. Qed.

(** Only queues and their bytes differ. *)
Definition besides_queues (m m' : Mail) : Prop :=
  m_registry m' = m_registry m ∧ m_questions m' = m_questions m ∧ m_held m' = m_held m ∧ m_waiters m' = m_waiters m
  ∧ m_held_answers m' = m_held_answers m ∧ m_disk m' = m_disk m ∧ m_events m' = m_events m ∧ m_storage m' = m_storage m.

Lemma enqueue_rows_spec l m :
  (∀ id, (0 ≤ bytes_of m id)%Z ∧ (bytes_of m id + weight (for_agent id l) ≤ INBOX_BYTES)%Z) →
  (∀ id, queue_of (enqueue_rows m l) id = app (queue_of m id) (for_agent id l)
     ∧ bytes_of (enqueue_rows m l) id = (bytes_of m id + weight (for_agent id l))%Z)
  ∧ besides_queues m (enqueue_rows m l).
Proof.
  revert m. induction l as [|[a e] l IH]; intros m Hfit.
  { split; [|done]. intros id. change (enqueue_rows m []) with m. unfold for_agent. simpl.
    rewrite app_nil_r. split; [done|]. unfold weight. simpl. lia. }
  change (enqueue_rows m ((a, e) :: l)) with (enqueue_rows (enqueue e (message_bytes e) m a) l).
  set (m1 := enqueue e (message_bytes e) m a).
  assert (Hb : ∀ id, bytes_of m1 id = if decide (a = id) then (bytes_of m id + message_bytes e)%Z else bytes_of m id).
  { intros id. unfold m1, enqueue. rewrite bytes_of_set. destruct (decide (a = id)) as [->|]; [|done].
    unfold u64_add. rewrite u64_wrap_small; [done|]. pose proof (message_bytes_range e). destruct (Hfit id) as [H0 H1].
    rewrite for_agent_cons, decide_True in H1 by done. pose proof (weight_nonneg (for_agent id l)).
    change (weight (e :: for_agent id l)) with (message_bytes e + weight (for_agent id l))%Z in H1.
    unfold INBOX_BYTES in H1. lia. }
  destruct (IH m1) as [Hq Hr].
  { intros id. rewrite Hb. destruct (Hfit id) as [H0 H1]. rewrite for_agent_cons in H1.
    pose proof (message_bytes_range e). destruct (decide (a = id)); [|lia].
    change (weight (e :: for_agent id l)) with (message_bytes e + weight (for_agent id l))%Z in H1. lia. }
  split; [|done]. intros id. destruct (Hq id) as [-> ->]. rewrite Hb, for_agent_cons.
  unfold m1, enqueue. rewrite queue_of_set. destruct (decide (a = id)) as [->|]; [|done].
  rewrite <- app_assoc. split; [done|]. change (weight (e :: for_agent id l)) with (message_bytes e + weight (for_agent id l))%Z. lia.
Qed.

(** *** Publishing *)

Lemma NoDup_recipients m e : NoDup (recipients_of m e).
Proof.
  unfold recipients_of. eapply strict_NoDup, dedup_strict, sort_by_key_sorted. intros a b ??. by apply cmp_le_antisym.
Qed.

Lemma closed_by_open m e dfor q : mail_ok m → closed_by m e dfor = Some q →
  is_Some (m_questions m !! q) ∧ (dfor = None → e_reply_to e = Some q).
Proof.
  intros Hm. unfold closed_by. destruct dfor as [d|].
  - destruct (m_questions m !! d) eqn:E; simpl; [|done]. intros [= <-]. by rewrite E.
  - destruct (e_reply_to e) as [id|]; [|done]. destruct (m_questions m !! id) as [p|] eqn:E; [|done].
    destruct (_ && _); [|done]. intros [= <-]. rewrite (mo_keys m Hm id p E). by rewrite E.
Qed.

Lemma routed_id m e dfor c e' : routed_envelope m e dfor c = Some e' → e_id e' = e_id e ∧ e_reply_to e' = e_reply_to e.
Proof.
  unfold routed_envelope. destruct c as [id|]; [|by intros [= <-]]. destruct (m_questions m !! id) as [q|]; [|by intros [= <-]].
  destruct (refused_by_presentation _ _); [done|]. destruct dfor; [by intros [= <-]|]. intros (p & _ & ->)%fmap_Some. done.
Qed.

(** The questions once a message went out. *)
Definition questions_after (question : option Question) (closing : list string) (qs : gmap string Question) : gmap string Question :=
  foldr delete (match question with Some q => <[q_id q := q]> qs | None => qs end) closing.

Definition held_after (document : option DocumentTransition) (hs : gmap string HeldMessage) : gmap string HeldMessage :=
  match document with
  | Some t => match do_value t with Some h => <[do_id t := h]> hs | None => delete (do_id t) hs end
  | None => hs
  end.

Lemma publish_message_spec d e rs question closing document d' :
  publish_message d e rs question closing document = Some d' →
  dk_inbox d' = app (dk_inbox d) ((λ r, (r, e)) <$> rs) ∧ dk_questions d' = questions_after question closing (dk_questions d)
  ∧ dk_held d' = held_after document (dk_held d).
Proof.
  unfold publish_message. destruct (insert_rows d _) as [d1|] eqn:E; [|done].
  apply insert_rows_spec in E as (Eq & Eh & Ei). intros [= <-]. unfold questions_after, held_after.
  destruct document as [t|], question as [q|]; simpl; rewrite ?Eq, ?Eh, ?Ei; done.
Qed.

Lemma publish_apply_storage now e rs question closing m : m_storage (publish_apply now e rs question closing m) = m_storage m.
Proof.
  unfold publish_apply, delete_open.
  assert (H : m_storage (foldl (enqueue e (message_bytes e)) m rs) = m_storage m).
  { revert m. induction rs as [|r rs IH]; intros m; [done|]. simpl. by rewrite IH. }
  destruct question; simpl; destruct (is_some _); done.
Qed.

Lemma publish_apply_spec now e rs question closing m : NoDup rs →
  (∀ id, (0 ≤ bytes_of m id)%Z ∧ (bytes_of m id ≤ INBOX_BYTES)%Z) →
  (∀ id, id ∈ rs → (bytes_of m id + message_bytes e ≤ INBOX_BYTES)%Z) →
  let m' := publish_apply now e rs question closing m in
  (∀ id, queue_of m' id = app (queue_of m id) (if decide (id ∈ rs) then [e] else [])
     ∧ bytes_of m' id = (bytes_of m id + weight (if decide (id ∈ rs) then [e] else []))%Z)
  ∧ m_questions m' = questions_after question closing (m_questions m)
  ∧ m_held m' = m_held m ∧ m_waiters m' = m_waiters m ∧ m_held_answers m' = m_held_answers m
  ∧ m_disk m' = m_disk m ∧ m_events m' = m_events m ∧ m_storage m' = m_storage m.
Proof.
  intros Hnd Hb Hfit. unfold publish_apply. rewrite enqueue_each.
  destruct (enqueue_rows_spec ((λ r, (r, e)) <$> rs) m) as [Hq (Hr & Eq & Eh & Ew & Ea & Ed & Ee & Es)].
  { intros id. rewrite for_agent_each by done. destruct (Hb id). split; [done|].
    destruct (decide (id ∈ rs)) as [Hin|]; unfold weight; simpl; [specialize (Hfit id Hin)|]; lia. }
  set (m1 := enqueue_rows m _) in *.
  set (m2 := if is_some (Reg.get (m_registry m1) (e_from e)) then _ else m1).
  assert (H2 : m_inboxes m2 = m_inboxes m1 ∧ m_bytes m2 = m_bytes m1 ∧ m_questions m2 = m_questions m1 ∧ m_held m2 = m_held m1
    ∧ m_waiters m2 = m_waiters m1 ∧ m_held_answers m2 = m_held_answers m1 ∧ m_disk m2 = m_disk m1 ∧ m_events m2 = m_events m1
    ∧ m_storage m2 = m_storage m1) by (unfold m2; destruct (is_some _); done).
  destruct H2 as (I2 & B2 & Q2 & Hd2 & W2 & A2 & D2 & E2 & S2).
  split_and!; simpl; [|unfold questions_after; destruct question; simpl; by rewrite ?Q2, ?Eq|..];
    try (destruct question; simpl; congruence).
  intros id. destruct (Hq id) as [Hqi Hbi]. rewrite for_agent_each in Hqi, Hbi by done. rewrite <- Hqi, <- Hbi.
  unfold queue_of, bytes_of. destruct question; simpl; by rewrite I2, B2.
Qed.

Definition doc_ok (doc : option DocumentTransition) (e : Envelope) : Prop :=
  ∀ t, doc = Some t → opening (do_event t) = None ∧ closing (do_event t) = None
    ∧ ∀ c, do_closes t = Some c → e_reply_to e ≠ Some c.

Definition doc_events (doc : option DocumentTransition) : list MailEvent := match doc with Some t => [do_event t] | None => [] end.

(** The balance of questions when a message goes out. *)
Lemma account_after qs question closing' id : (∀ q, question = Some q → qs !! q_id q = None) →
  NoDup closing' → (∀ i, i ∈ closing' → is_Some (qs !! i)) →
  ((match question with Some q => if decide (q_id q = id) then 1 else 0 | None => 0 end) + present qs id
   = present (questions_after question closing' qs) id + if decide (id ∈ closing') then 1 else 0)%nat.
Proof.
  intros Hfresh Hnd Hin. unfold questions_after. rewrite <- present_foldr_delete.
  - destruct question as [q|]; [|done]. unfold present. destruct (decide (q_id q = id)) as [<-|Hne].
    + by rewrite lookup_insert_eq, (Hfresh q eq_refl).
    + by rewrite lookup_insert_ne.
  - intros i [x Hx]%Hin. destruct question as [q|]; [|by exists x]. destruct (decide (q_id q = i)) as [<-|Hne].
    + rewrite lookup_insert_eq. by eexists.
    + rewrite lookup_insert_ne by done. by exists x.
Qed.

Lemma sent_events_times m e question doc dfor closed settled id : doc_ok doc e →
  let es := sent_events m e question doc dfor closed settled in
  times opening id es = match question with Some q => if decide (q_id q = id) then 1%nat else 0%nat | None => 0%nat end
  ∧ times closing id es = (times closing id (match closed with Some c => [QuestionClosed c (Some (e_id e))] | None => [] end)
                           + times closing id (match settled with Some c => [QuestionClosed c None] | None => [] end))%nat
  ∧ times holding id es = times holding id (doc_events doc) ∧ times settling id es = times settling id (doc_events doc).
Proof.
  intros Hdoc. unfold sent_events, doc_events. rewrite !times_app.
  assert (Hd : times opening id (match doc with Some t => [do_event t] | None => [] end) = 0%nat
    ∧ times closing id (match doc with Some t => [do_event t] | None => [] end) = 0%nat).
  { destruct doc as [t|]; [|done]. destruct (Hdoc t eq_refl) as (Ho & Hc & _). by rewrite !times_cons, Ho, Hc. }
  destruct Hd as [-> ->].
  set (st := match dfor with Some _ => _ | None => _ end).
  assert (Hs : neutral st).
  { unfold st. destruct dfor as [d|]; [|by intros ?]. destruct (m_questions m !! d); [|by intros ?]. by apply neutral_one. }
  destruct (Hs id) as (-> & -> & -> & ->).
  split_and!; destruct question as [q|], closed as [c|], settled as [c'|]; rewrite ?times_cons, ?times_nil; simpl;
    repeat (destruct (decide (Some _ = Some _)) as [E|E]); repeat (destruct (decide (_ = id))); try congruence; try lia.
Qed.

(** The closures of one message are of different questions. *)
Lemma closing_ids closed settled a id : (∀ c, closed = Some c → settled ≠ Some c) →
  NoDup (app (option_list closed) (option_list settled))
  ∧ (times closing id (match closed with Some c => [QuestionClosed c a] | None => [] end)
     + times closing id (match settled with Some c => [QuestionClosed c None] | None => [] end)
     = if decide (id ∈ app (option_list closed) (option_list settled)) then 1 else 0)%nat.
Proof.
  intros Hne. destruct closed as [c|], settled as [c'|]; cbn [option_list app]; rewrite ?times_cons, ?times_nil; cbn [closing].
  - assert (c ≠ c') by (intros ->; by apply (Hne c' eq_refl)).
    split; [apply NoDup_cons; split; [set_solver|apply NoDup_singleton]|].
    destruct (decide (Some c = Some id)) as [[= ->]|], (decide (Some c' = Some id)) as [[= ->]|];
      [done|rewrite decide_True by set_solver..|rewrite decide_False by set_solver]; done.
  - split; [apply NoDup_singleton|]. destruct (decide (Some c = Some id)) as [[= ->]|];
      [rewrite decide_True by set_solver|rewrite decide_False by set_solver]; done.
  - split; [apply NoDup_singleton|]. destruct (decide (Some c' = Some id)) as [[= ->]|];
      [rewrite decide_True by set_solver|rewrite decide_False by set_solver]; done.
  - split; [constructor|]. by rewrite decide_False by set_solver.
Qed.

(** A committed message. *)
Lemma published_ok m now e rs question doc dfor closed settled s d :
  mail_ok m → NoDup rs → (∀ id, id ∈ rs → no_room m (message_bytes e) id = false) →
  (∀ q, question = Some q → m_questions m !! q_id q = None ∧ (size (m_questions m) < MAX_QUESTIONS)%nat) →
  doc_ok doc e → (∀ c, closed = Some c → is_Some (m_questions m !! c) ∧ settled ≠ Some c) →
  (∀ c, settled = Some c → is_Some (m_questions m !! c)) →
  let closing := app (option_list closed) (option_list settled) in
  publish_message (m_disk m) e rs question closing doc = Some d →
  let m' := go_out (sent_events m e question doc dfor closed settled)
              (publish_apply now e rs question closing (set_store s d m)) in
  mail_ok m' ∧ (∀ id, queue_of m' id = app (queue_of m id) (if decide (id ∈ rs) then [e] else []))
  ∧ m_questions m' = questions_after question closing (m_questions m)
  ∧ m_held m' = m_held m ∧ m_waiters m' = m_waiters m ∧ m_held_answers m' = m_held_answers m
  ∧ m_disk m' = d ∧ m_storage m' = s ∧ m_events m' = app (m_events m) (sent_events m e question doc dfor closed settled).
Proof.
  intros Hm Hnd Hroom Hq Hdoc Hcl Hse closing0 Hw m'.
  apply publish_message_spec in Hw as (Di & Dq & Dh).
  assert (Hfit : ∀ id, id ∈ rs → (length (queue_of m id) < INBOX_CAPACITY)%nat ∧ (bytes_of m id + message_bytes e ≤ INBOX_BYTES)%Z).
  { intros id Hin. specialize (Hroom id Hin). unfold no_room, u64_saturating_add in Hroom. apply orb_false_iff in Hroom as [H1 H2].
    apply Nat.leb_gt in H1. apply Z.ltb_ge in H2. unfold INBOX_BYTES, u64_max in *. lia. }
  assert (Hpos : ∀ id, (0 ≤ bytes_of m id ≤ INBOX_BYTES)%Z).
  { intros id. split; [rewrite (mo_bytes m Hm); apply weight_nonneg|apply (mo_room m Hm)]. }
  destruct (publish_apply_spec now e rs question closing0 (set_store s d m)) as (Hqb & Eq & Eh & Ew & Ea & Ed & Ee & Es);
    [done|exact Hpos|intros id Hin; by apply Hfit|].
  destruct (closing_ids closed settled (Some (e_id e)) "") as [Hndc _]; [intros c Hc; by apply Hcl|].
  assert (Hin : ∀ i, i ∈ closing0 → is_Some (m_questions m !! i)).
  { intros i [Hi|Hi]%elem_of_app.
    - apply Hcl. destruct closed; simpl in Hi; [|by apply not_elem_of_nil in Hi]. by apply list_elem_of_singleton in Hi as ->.
    - apply Hse. destruct settled; simpl in Hi; [|by apply not_elem_of_nil in Hi]. by apply list_elem_of_singleton in Hi as ->. }
  assert (Hfresh : ∀ q, question = Some q → m_questions m !! q_id q = None) by (intros q E; by apply Hq).
  assert (Hqueue : ∀ id, queue_of m' id = app (queue_of m id) (if decide (id ∈ rs) then [e] else [])) by (intros id; apply Hqb).
  assert (Hbytes : ∀ id, bytes_of m' id = (bytes_of m id + weight (if decide (id ∈ rs) then [e] else []))%Z) by (intros id; apply Hqb).
  assert (Ed' : m_disk m' = d) by exact Ed. assert (Eq' : m_questions m' = questions_after question closing0 (m_questions m)) by exact Eq.
  assert (Ea' : m_held_answers m' = m_held_answers m) by exact Ea. assert (Ew' : m_waiters m' = m_waiters m) by exact Ew.
  assert (Eh' : m_held m' = m_held m) by exact Eh. assert (Es' : m_storage m' = s) by exact Es.
  assert (Ee' : m_events m' = app (m_events m) (sent_events m e question doc dfor closed settled)).
  { unfold m'. cbn [go_out m_events]. by rewrite Ee. }
  clearbody m'. split; [|split_and!; done]. split.
  - intros id. rewrite Hqueue, (mo_queue m Hm), Ed'. change (inbox_rows ?d id) with (for_agent id (dk_inbox d)).
    rewrite Di, for_agent_app, for_agent_each by done. done.
  - intros id. rewrite Hqueue, Hbytes, weight_app, (mo_bytes m Hm). done.
  - intros id. rewrite Hqueue, Hbytes, length_app. destruct (decide (id ∈ rs)) as [Hr|Hr].
    + destruct (Hfit id Hr). unfold weight. simpl. lia.
    + destruct (mo_room m Hm id). unfold weight. simpl. lia.
  - by rewrite Ed', Eq', Dq, (mo_questions m Hm).
  - intros k q. rewrite Eq'. unfold questions_after. rewrite lookup_foldr_delete.
    destruct (decide (k ∈ closing0)); [done|]. destruct question as [q0|]; [|apply (mo_keys m Hm)].
    intros [[<- <-]|[_ H]]%lookup_insert_Some; [done|by apply (mo_keys m Hm)].
  - rewrite Eq'. unfold questions_after. etrans; [apply size_foldr_delete|].
    destruct question as [q0|]; [|apply Hm]. destruct (Hq q0 eq_refl) as [Hn Hlt]. rewrite map_size_insert_None by done. lia.
  - rewrite Ea', Ew'. apply Hm.
  - intros id. rewrite Ee', Eq', !times_app.
    destruct (sent_events_times m e question doc dfor closed settled id Hdoc) as (-> & -> & _).
    destruct (closing_ids closed settled (Some (e_id e)) id) as [_ ->]; [intros c Hc; by apply Hcl|].
    pose proof (account_after (m_questions m) question closing0 id Hfresh Hndc Hin). fold closing0.
    pose proof (mo_account m Hm id). lia.
Qed.

(** Memory and store but for who waits for an answer and the events. *)
Record same_but (m m' : Mail) : Prop := {
  sb_inboxes : m_inboxes m' = m_inboxes m;
  sb_questions : m_questions m' = m_questions m;
  sb_held : m_held m' = m_held m;
  sb_waiters : m_waiters m' = m_waiters m;
  sb_disk : m_disk m' = m_disk m;
  sb_events : ∃ es, neutral es ∧ m_events m' = app (m_events m) es;
}.

Lemma route_ok m closed a held : mail_ok m → (∀ q, held = true → closed = Some q → q ∈ m_waiters m) →
  mail_ok (route_answer m closed a held) ∧ same_but m (route_answer m closed a held).
Proof.
  intros Hm Hh. assert (Hself : same_but m m).
  { split; try done. exists []. split; [by intros ?|by rewrite app_nil_r]. }
  unfold route_answer. destruct closed as [q|]; [|done]. destruct held.
  - split.
    + destruct Hm as [Hq Hb Hr Hd Hk Hz Hw Ha]. split; try done. intros a' q'. simpl.
      intros [[<- <-]|[_ ?]]%lookup_insert_Some; [by apply Hh|by apply (Hw a')].
    + split; try done. exists []. split; [by intros ?|by rewrite app_nil_r].
  - destruct (emit_routed m q a Queue) as [Hs|(m1 & Hs & ->)].
    + split; [by eapply same_ok|]. destruct Hs. split; try done. exists []. split; [by intros ?|by rewrite app_nil_r].
    + split; [apply announce_ok; [by apply neutral_one|by eapply same_ok]|]. destruct Hs. split; try done.
      eexists. split; [|simpl; by f_equal]. by apply neutral_one.
Qed.

(** What one publication does. *)
Record published (m m' : Mail) (e e' : Envelope) (doc : option DocumentTransition) (rs : list string) : Prop := {
  pb_queue id : queue_of m' id = app (queue_of m id) (if decide (id ∈ rs) then [e'] else []);
  pb_id : e_id e' = e_id e;
  pb_held : dk_held (m_disk m') = held_after doc (dk_held (m_disk m));
  pb_events : ∃ es, m_events m' = app (m_events m) es
    ∧ ∀ id, times holding id es = times holding id (doc_events doc) ∧ times settling id es = times settling id (doc_events doc);
}.

(** How a publication goes: refused or failed, with nothing changed, or
    committed. *)
Lemma publish_settled_cases m now e question doc dfor r m' : mail_ok m →
  (∀ q, question = Some q → m_questions m !! q_id q = None) → doc_ok doc e → (∀ q, dfor = Some q → doc = None) →
  publish_settled m now e question doc dfor = (r, m') →
  (same_mail m m' ∧ ∀ id, r ≠ Sent id) ∨ ∃ m1 e' s d closed settled, closed = closed_by m e dfor
    ∧ routed_envelope m e dfor closed = Some e' ∧ (∀ c, settled = Some c → is_Some (m_questions m !! c))
    ∧ (∀ c, closed = Some c → settled ≠ Some c)
    ∧ publish_message (m_disk m) e' (recipients_of m e) question (app (option_list closed) (option_list settled)) doc = Some d
    ∧ (∀ id, id ∈ recipients_of m e → no_room m (message_bytes e') id = false)
    ∧ (∀ q, question = Some q → (size (m_questions m) < MAX_QUESTIONS)%nat)
    ∧ m1 = go_out (sent_events m e' question doc dfor closed settled)
             (publish_apply now e' (recipients_of m e) question (app (option_list closed) (option_list settled)) (set_store s d m))
    ∧ r = Sent (e_id e) ∧ m' = route_answer m1 closed (e_id e') (match closed with Some q => bool_decide (q ∈ m_waiters m) | None => false end).
Proof.
  intros Hm Hfresh Hdoc Hdf Hp.
  unfold publish_settled in Hp.
  destruct (is_some question && _) eqn:Eq; [injection Hp as <- <-; left; split; [apply same_mail_refl|done]|].
  destruct (routed_envelope m e dfor (closed_by m e dfor)) as [e'|] eqn:Er;
    [|injection Hp as <- <-; left; split; [apply same_mail_refl|done]].
  destruct (List.find _ (recipients_of m e)) as [full|] eqn:Ef; [injection Hp as <- <-; left; split; [apply same_mail_refl|done]|].
  revert Hp. set (settled := match doc with Some t => _ | None => None end). intros Hp.
  assert (Hset : ∀ c, settled = Some c → is_Some (m_questions m !! c) ∧ ∃ t, doc = Some t ∧ do_closes t = Some c).
  { intros c. unfold settled. destruct doc as [t|]; [|done]. destruct (do_closes t) as [c'|] eqn:Ec; [|done].
    destruct (m_questions m !! c') eqn:Eo; simpl; [|done]. intros [= <-]. split; [by rewrite Eo|by exists t]. }
  destruct (mail_commit m _ _ _) as [pr m1] eqn:Ecm. simpl in Hp.
  apply commit_cases in Ecm as [(_ & s & d & Hw & -> & Hse & Hsk)|(_ & Hs & Hfail & _)].
  + right. set (m1 := go_out _ _) in *.
    assert (Hst : mail_failing m1 = false).
    { unfold mail_failing. replace (m_storage m1) with s by (symmetry; apply publish_apply_storage). by rewrite Hse, Hsk. }
    rewrite Hst in Hp. injection Hp as <- <-.
    exists m1, e', s, d, (closed_by m e dfor), settled. split_and!; try done.
    * intros c Hc. by apply Hset.
    * intros c Hc Hc'. destruct (Hset c Hc') as (_ & t & Ht & Hcl). destruct (closed_by_open m e dfor c Hm Hc) as [_ Hrep].
      destruct dfor as [q|]; [by rewrite (Hdf q eq_refl) in Ht|]. destruct (Hdoc t Ht) as (_ & _ & Hn). by destruct (Hn c Hcl); apply Hrep.
    * intros id Hin. apply (List.find_none _ _ Ef). by apply list_elem_of_In.
    * intros q ->. cbn [is_some andb] in Eq. by apply Nat.leb_gt in Eq.
    * by destruct (routed_id _ _ _ _ _ Er) as [-> _].
  + rewrite Hfail in Hp. injection Hp as <- <-. by left.
Qed.

Lemma publish_settled_spec m now e question doc dfor r m' : mail_ok m →
  (∀ q, question = Some q → m_questions m !! q_id q = None) → doc_ok doc e → (∀ q, dfor = Some q → doc = None) →
  publish_settled m now e question doc dfor = (r, m') →
  mail_ok m' ∧ m_held m' = m_held m ∧ m_waiters m' = m_waiters m
  ∧ (∀ id, m_questions m !! id = None → (∀ q, question = Some q → q_id q ≠ id) → m_questions m' !! id = None)
  ∧ ((∃ e', r = Sent (e_id e) ∧ routed_envelope m e dfor (closed_by m e dfor) = Some e'
        ∧ published m m' e e' doc (recipients_of m e))
     ∨ (∀ id, r ≠ Sent id) ∧ same_mail m m').
Proof.
  intros Hm Hfresh Hdoc Hdf Hp. apply publish_settled_cases in Hp; [|done..]. revert Hp.
  intros [[Hs Hr]|(m1 & e' & s & d & closed & settled & -> & Er & Hse & Hne & Hw & Hroom & Hsz & -> & -> & ->)].
  { split_and!; [by eapply same_ok|apply Hs|apply Hs| |by right]. intros id. by rewrite (sm_questions m m' Hs). }
  destruct (routed_id _ _ _ _ _ Er) as (Eid & Erep).
  destruct (published_ok m now e' (recipients_of m e) question doc dfor (closed_by m e dfor) settled s d) as
    (Hok & Hq & Eq & Eh & Ew & Ea & Ed & _ & Ee); [done|apply NoDup_recipients|done| | | |done|done|].
  { intros q Hqq. split; [by apply Hfresh|by eapply Hsz]. }
  { intros t Ht. destruct (Hdoc t Ht) as (? & ? & ?). by rewrite Erep. }
  { intros c Hc. split; [by eapply closed_by_open|by apply Hne]. }
  set (m1 := go_out _ _) in *.
  destruct (route_ok m1 (closed_by m e dfor) (e_id e')
    (match closed_by m e dfor with Some q => bool_decide (q ∈ m_waiters m) | None => false end)) as [Hok' [Ri Rq Rh Rw Rd (es & Hn & Re)]];
    [done|intros q Hb Hc; rewrite Hc in Hb; apply bool_decide_eq_true in Hb; by rewrite Ew|].
  split_and!; [done|by rewrite Rh|by rewrite Rw| |left; exists e'; split_and!; [done..|]].
  + intros id Hnone Hnew. rewrite Rq, Eq. unfold questions_after. rewrite lookup_foldr_delete.
    destruct (decide _); [done|]. destruct question as [q|]; [|done]. rewrite lookup_insert_ne; [done|by apply Hnew].
  + split; [|done|by rewrite Rd, Ed; apply publish_message_spec in Hw as (_ & _ & ->)|].
    * intros id. rewrite <- Hq. unfold queue_of. by rewrite Ri.
    * eexists. split; [rewrite Re, Ee, <- app_assoc; done|]. intros id. rewrite !times_app.
      destruct (Hn id) as (_ & _ & -> & ->).
      assert (Hdoc' : doc_ok doc e'). { intros t Ht. rewrite Erep. by apply Hdoc. }
      destruct (sent_events_times m e' question doc dfor (closed_by m e dfor) settled id Hdoc') as (_ & _ & -> & ->). lia.
Qed.

(** *** What every operation keeps *)

(** Nothing leaves a queue, no closed question opens, but for [new]. *)
Record moved (new : option string) (m m' : Mail) : Prop := {
  mv_ok : mail_ok m';
  mv_held : held_ok m';
  mv_queue id : queue_of m id `prefix_of` queue_of m' id;
  mv_events : m_events m `prefix_of` m_events m';
  mv_open id : m_questions m !! id = None → new ≠ Some id → m_questions m' !! id = None;
}.

Lemma moved_same new m m' : mail_ok m → held_ok m → same_mail m m' → moved new m m'.
Proof.
  intros Hm Hh Hs. split; [by eapply same_ok|by eapply same_held| | |].
  - intros id. by rewrite (same_queue m m' id Hs).
  - by rewrite (sm_events m m' Hs).
  - intros id. by rewrite (sm_questions m m' Hs).
Qed.

Lemma moved_trans new m1 m2 m3 : moved None m1 m2 → moved new m2 m3 → moved new m1 m3.
Proof.
  intros [_ _ Hq He Ho] [Hk Hh Hq' He' Ho']. split; [done|done|intros id; etrans; [apply Hq|apply Hq']|etrans; [exact He|exact He']|].
  intros id Hn Hne. apply Ho'; [|done]. by apply Ho.
Qed.

(** A commit that changes only questions and held messages. *)
Lemma moved_documents es m m' : mail_ok m → held_ok m →
  m_inboxes m' = m_inboxes m ∧ m_bytes m' = m_bytes m ∧ m_waiters m' = m_waiters m ∧ m_held_answers m' = m_held_answers m
  ∧ m_events m' = app (m_events m) es →
  dk_inbox (m_disk m') = dk_inbox (m_disk m) → dk_questions (m_disk m') = m_questions m' → dk_held (m_disk m') = m_held m' →
  (∀ k q, m_questions m' !! k = Some q → q_id q = k ∧ is_Some (m_questions m !! k)) →
  (size (m_questions m') ≤ size (m_questions m))%nat →
  (∀ k h, m_held m' !! k = Some h → m_held m !! k = Some h) →
  (∀ id, (times opening id es + present (m_questions m) id = times closing id es + present (m_questions m') id)%nat
         ∧ (times holding id es + present (m_held m) id = times settling id es + present (m_held m') id)%nat) →
  moved None m m'.
Proof.
  intros Hm Hh (Fi & Fb & Ew & Ea & Ee) Hi Hq Hd Hk Hsz Hheld Ha.
  assert (Eq : ∀ id, queue_of m' id = queue_of m id) by (intros id; unfold queue_of; by rewrite Fi).
  assert (Eb : ∀ id, bytes_of m' id = bytes_of m id) by (intros id; unfold bytes_of; by rewrite Fb).
  split; [split|split| | |].
  - intros id. rewrite Eq, (mo_queue m Hm). unfold inbox_rows. by rewrite Hi.
  - intros id. rewrite Eb, Eq. apply Hm.
  - intros id. rewrite Eb, Eq. apply Hm.
  - done.
  - intros k q H. by apply Hk.
  - pose proof (mo_size m Hm). lia.
  - rewrite Ea, Ew. apply Hm.
  - intros id. rewrite Ee, !times_app. destruct (Ha id) as [H _]. pose proof (mo_account m Hm id). lia.
  - done.
  - intros q h H%Hheld. by apply (ho_reply m Hh).
  - intros id. rewrite Ee, !times_app. destruct (Ha id) as [_ H]. pose proof (ho_account m Hh id). lia.
  - intros id. by rewrite Eq.
  - rewrite Ee. by eexists.
  - intros id Hn _. destruct (m_questions m' !! id) as [q|] eqn:E; [|done]. apply Hk in E as [_ [? ?]]. congruence.
Qed.

(** *** Questions that expire *)

Lemma due_ids_spec m due : NoDup (due_ids m due)
  ∧ ∀ id, id ∈ due_ids m due ↔ ∃ q, m_questions m !! id = Some q ∧ due q = true.
Proof.
  unfold due_ids. split.
  - rewrite sort_by_key_perm. apply NoDup_fst_map_to_list.
  - intros id. rewrite elem_of_sort_by_key, list_elem_of_fmap. split.
    + intros ([k q] & -> & H%elem_of_map_to_list). apply map_lookup_filter_Some in H as [? ?]. by exists q.
    + intros (q & Hq & Hd). exists (id, q). split; [done|]. apply elem_of_map_to_list, map_lookup_filter_Some. done.
Qed.

Lemma omap_held (hs : gmap string HeldMessage) (ids : list string) :
  (omap (λ id, (λ h, (id, e_id (h_envelope h))) <$> hs !! id) ids).*1 = filter (λ id, is_Some (hs !! id)) ids.
Proof.
  induction ids as [|i ids IH]; [done|]. csimpl. rewrite filter_cons. destruct (hs !! i) as [h|] eqn:E; csimpl.
  - by f_equal.
  - done.
Qed.

Lemma foldr_delete_filter {A} (hs : gmap string A) ids :
  foldr delete hs (filter (λ id, is_Some (hs !! id)) ids) = foldr delete hs ids.
Proof.
  apply map_eq. intros k. rewrite !lookup_foldr_delete. destruct (decide (k ∈ ids)) as [H|H].
  - destruct (hs !! k) eqn:E; [|by destruct (decide _)]. rewrite decide_True; [done|]. apply list_elem_of_filter. by rewrite E.
  - rewrite decide_False; [done|]. by intros [_ ?]%list_elem_of_filter.
Qed.

Lemma close_expired_moved m now : mail_ok m → held_ok m → moved None m (close_expired_questions m now).
Proof.
  intros Hm Hh. unfold close_expired_questions.
  destruct (due_ids_spec m (λ q, question_expired q now)) as [Hnd Hdue]. set (expired := due_ids m _) in *.
  destruct (_ || _); [by apply moved_same|].
  set (held := omap _ expired).
  apply commit_either; [intros; by apply moved_same|]. intros s d [= <-] _ _.
  assert (Eh : foldr delete (m_held m) held.*1 = foldr delete (m_held m) expired).
  { unfold held. rewrite omap_held. apply foldr_delete_filter. }
  assert (Hheld : ∀ i, i ∈ held.*1 → is_Some (m_held m !! i)).
  { intros i. unfold held. rewrite omap_held. by intros [? _]%list_elem_of_filter. }
  eapply moved_documents; [done|done|done|done| | | | | |].
  - simpl. by rewrite (mo_questions m Hm).
  - simpl. rewrite (ho_disk m Hh). exact Eh.
  - intros k q. simpl. rewrite lookup_foldr_delete. destruct (decide _); [done|]. intros H. split; [by apply (mo_keys m Hm)|by eexists].
  - simpl. apply size_foldr_delete.
  - intros k h. simpl. rewrite lookup_foldr_delete. by destruct (decide _).
  - intros id. rewrite !times_app. simpl. split.
    + rewrite (times_none opening _ id expired), (times_none opening _ id held), (times_none closing _ id held) by done.
      rewrite (times_fmap closing _ (λ x, x)) by (try done; by rewrite list_fmap_id). rewrite list_fmap_id.
      rewrite (present_foldr_delete (m_questions m) expired id); [lia|]. intros i (q & Hq & _)%Hdue. by eexists.
    + rewrite (times_none holding _ id expired), (times_none holding _ id held), (times_none settling _ id expired) by done.
      rewrite (times_fmap settling _ fst); [|done|unfold held; rewrite omap_held; by apply NoDup_filter].
      rewrite <- Eh, (present_foldr_delete (m_held m) held.*1 id) by done. lia.
Qed.

(** *** The sweep *)

Lemma publish_plain_moved m now e question dfor r m' : mail_ok m → held_ok m →
  (∀ q, question = Some q → m_questions m !! q_id q = None) →
  publish_settled m now e question None dfor = (r, m') → moved (q_id <$> question) m m' ∧ m_held m' = m_held m.
Proof.
  intros Hm Hh Hq Hp. apply publish_settled_spec in Hp as (Hok & Eh & _ & Ho & Hcase); [|done..].
  destruct Hcase as [(e' & _ & _ & [Pq _ Ph (es & Ee & Hes)])|[_ Hs]]; [|split; [by apply moved_same|done]].
  split; [|done]. split; [done| | | |].
  - split; [by rewrite Ph, Eh, (ho_disk m Hh)|rewrite Eh; apply Hh|]. intros id. rewrite Ee, !times_app, Eh.
    destruct (Hes id) as [-> ->]. pose proof (ho_account m Hh id). unfold doc_events. rewrite !times_nil. lia.
  - intros id. rewrite Pq. by eexists.
  - rewrite Ee. by eexists.
  - intros id Hn Hne. apply Ho; [done|]. intros q -> <-. by destruct Hne.
Qed.

Lemma blocked_same b m : same_mail m (set_blocked b m).
Proof. by split. Qed.

Lemma moved_then_same new m m1 m2 : moved new m m1 → same_mail m1 m2 → moved new m m2.
Proof.
  intros [Hok Hh Hq He Ho] Hs. split; [by eapply same_ok|by eapply same_held| | |].
  - intros id. rewrite (same_queue m1 m2 id Hs). apply Hq.
  - by rewrite (sm_events m1 m2 Hs).
  - intros id. rewrite (sm_questions m1 m2 Hs). apply Ho.
Qed.

(** One open question closed, by one event. *)
Lemma moved_closed es m m1 s id : mail_ok m → held_ok m → is_Some (m_questions m !! id) →
  (∀ k, times opening k es = 0%nat ∧ times closing k es = (if decide (k ∈ [id]) then 1%nat else 0%nat)
        ∧ times holding k es = 0%nat ∧ times settling k es = 0%nat) →
  m1 = go_out es (delete_open [id] (set_store s (delete_questions (m_disk m) [id]) m)) → moved None m m1.
Proof.
  intros Hm Hh Hq Hes ->. eapply (moved_documents es); [done|done|done|done| | | | | |].
  - simpl. by rewrite (mo_questions m Hm).
  - apply Hh.
  - intros k q. simpl. intros [_ H]%lookup_delete_Some. split; [by apply (mo_keys m Hm)|by eexists].
  - apply (size_foldr_delete (m_questions m) [id]).
  - done.
  - intros k. destruct (Hes k) as (-> & -> & -> & ->). split; [|simpl; lia].
    pose proof (present_foldr_delete (m_questions m) [id] k) as H. simpl in *. rewrite H; [lia|]. by intros i ->%list_elem_of_singleton.
Qed.

Lemma times_one_closing e c id : closing e = Some c → times closing id [e] = if decide (id ∈ [c]) then 1%nat else 0%nat.
Proof.
  intros Hc. rewrite times_cons, Hc, times_nil. destruct (decide (Some c = Some id)) as [[= ->]|Hne].
  - by rewrite decide_True by by left.
  - rewrite decide_False; [done|]. intros ->%list_elem_of_singleton. by destruct Hne.
Qed.

Lemma stale_one_moved fresh now m id : mail_ok m → held_ok m →
  moved None m (stale_one fresh now m id) ∧ m_held (stale_one fresh now m id) = m_held m.
Proof.
  intros Hm Hh. unfold stale_one. destruct (m_questions m !! id) as [q|] eqn:Eq; [|by split; [apply moved_same|]].
  pose proof (mo_keys m Hm id q Eq) as Hid. destruct (is_some (q_stale_since q)); [by split; [apply moved_same|]|].
  destruct (qf_stale_action (q_form q)) as [|label|].
  - apply commit_either; [intros m' Hs _ _; split; [by apply moved_same|apply Hs]|]. intros s d [= <-] _ _. split; [|done].
    eapply (moved_documents [QuestionStale (q_id q) KeepWaiting]); [done|done|done|done| | | | | |].
    + simpl. by rewrite (mo_questions m Hm).
    + apply Hh.
    + intros k q'. simpl. intros [[<- <-]|[_ H]]%lookup_insert_Some; [split; [done|]|split; [by apply (mo_keys m Hm)|by eexists]].
      rewrite Hid, Eq. by eexists.
    + simpl. rewrite map_size_insert_Some; [done|]. rewrite Hid, Eq. by eexists.
    + done.
    + intros k. split; [|done]. rewrite !times_cons. simpl. unfold present. simpl.
      destruct (decide (q_id q = k)) as [<-|]; [by rewrite lookup_insert_eq, Hid, Eq|by rewrite lookup_insert_ne].
  - destruct (default_answer q label (fresh id) now) as [e|]; [|split; [apply moved_same; [done|done|apply blocked_same]|done]].
    destruct (publish_default_answer m now e (q_id q)) as [r m1] eqn:Ep. unfold publish_default_answer in Ep.
    assert (H : moved None m m1 ∧ m_held m1 = m_held m).
    { destruct (mail_failing m); [injection Ep as <- <-; split; [apply moved_same; [done..|apply same_mail_refl]|done]|].
      by apply publish_plain_moved in Ep. }
    destruct H as [H Ehd]. split; [|done]. eapply moved_then_same; [exact H|apply blocked_same].
  - apply commit_either; [intros m' Hs _ _; split; [by apply moved_same|apply Hs]|]. intros s d [= <-] _ _. split; [|done].
    eapply (moved_closed _ _ _ _ (q_id q)); [done|done|rewrite Hid, Eq; by eexists| |done].
    intros k. split_and!; [done| |done..]. by apply (times_one_closing (QuestionClosed (q_id q) None)).
Qed.

Lemma stale_each_moved fresh now m ids : mail_ok m → held_ok m →
  moved None m (stale_each fresh now m ids) ∧ m_held (stale_each fresh now m ids) = m_held m.
Proof.
  revert m. induction ids as [|id ids IH]; intros m Hm Hh; simpl; [split; [by apply moved_same|done]|].
  destruct (stale_one_moved fresh now m id Hm Hh) as [H1 E1]. destruct (so_error _); [done|].
  destruct (IH (stale_one fresh now m id)) as [H2 E2]; [apply H1..|]. split; [by eapply moved_trans|congruence].
Qed.

Lemma stale_questions_moved fresh m now : mail_ok m → held_ok m →
  moved None m (stale_questions fresh m now) ∧ m_held (stale_questions fresh m now) = m_held m.
Proof.
  intros Hm Hh. unfold stale_questions. set (m1 := set_blocked _ m).
  assert (H1 : moved None m m1) by (apply moved_same; [done..|apply blocked_same]).
  destruct (so_error _); [done|]. destruct (stale_each_moved fresh now m1 (due_ids m1 (stale_due now))) as [H2 E2]; [apply H1..|].
  split; [by eapply moved_trans|done].
Qed.

Lemma expire_moved fresh m now : mail_ok m → held_ok m → moved None m (expire_questions fresh m now).
Proof.
  intros Hm Hh. pose proof (close_expired_moved m now Hm Hh) as H1. unfold expire_questions.
  eapply moved_trans; [exact H1|]. apply stale_questions_moved; apply H1.
Qed.

(** A held message whose card has not expired outlives the sweep. *)
Lemma expire_keeps_held fresh m now id : mail_ok m → held_ok m →
  (∀ q, m_questions m !! id = Some q → question_expired q now = false) →
  m_held (expire_questions fresh m now) !! id = m_held m !! id.
Proof.
  intros Hm Hh Hq. pose proof (close_expired_moved m now Hm Hh) as H1. unfold expire_questions.
  destruct (stale_questions_moved fresh (close_expired_questions m now) now) as [_ ->]; [apply H1..|].
  unfold close_expired_questions. destruct (due_ids_spec m (λ q, question_expired q now)) as [_ Hdue].
  set (expired := due_ids m _) in *. destruct (_ || _); [done|].
  apply commit_either; [intros m' Hs _ _; by rewrite (sm_held m m' Hs)|]. intros s d _ _ _. simpl.
  rewrite lookup_foldr_delete, decide_False; [done|]. intros (q & E & Hd)%Hdue. by rewrite (Hq q E) in Hd.
Qed.

Lemma publish_routed_moved fresh m now e question r m' : mail_ok m → held_ok m →
  (∀ q, question = Some q → m_questions m !! q_id q = None) →
  publish_routed fresh m now e question None = (r, m') → moved (q_id <$> question) m m'.
Proof.
  intros Hm Hh Hq. unfold publish_routed. destruct (mail_failing m); [intros [= <- <-]; by apply moved_same|].
  pose proof (expire_moved fresh m now Hm Hh) as H1. destruct (mail_failing _).
  - intros [= <- <-]. destruct H1 as [? ? ? ? Ho]. split; try done. intros id Hn _. by apply Ho.
  - intros Hp. eapply moved_trans; [exact H1|]. apply publish_plain_moved in Hp; [apply Hp|apply H1..|].
    intros q E. apply (mv_open None _ _ H1); [by apply Hq|done].
Qed.

(** *** Taking messages off *)

Definition without (ids : list string) (l : list Envelope) : list Envelope := filter (λ e, e_id e ∉ ids) l.

Lemma take_off_bytes ids l c : (0 ≤ c)%Z →
  foldl (λ b e, if bool_decide (e_id e ∈ ids) then u64_saturating_sub b (message_bytes e) else b) (weight l + c)%Z l
  = (weight (without ids l) + c)%Z.
Proof.
  unfold without. revert c. induction l as [|e l IH]; intros c Hc; [done|]. cbn [foldl]. rewrite filter_cons.
  change (weight (e :: l)) with (message_bytes e + weight l)%Z.
  pose proof (message_bytes_range e). pose proof (weight_nonneg l).
  case_bool_decide as Hin.
  - rewrite decide_False by naive_solver. unfold u64_saturating_sub.
    replace (Z.max 0 (message_bytes e + weight l + c - message_bytes e)) with (weight l + c)%Z by lia. by apply IH.
  - rewrite decide_True by done. change (weight (e :: ?l')) with (message_bytes e + weight l')%Z.
    replace (message_bytes e + weight l + c)%Z with (weight l + (message_bytes e + c))%Z by lia. rewrite IH by lia. lia.
Qed.

Lemma weight_without ids l : (weight (without ids l) ≤ weight l)%Z.
Proof.
  unfold without. induction l as [|e l IH]; [done|]. rewrite filter_cons. change (weight (e :: l)) with (message_bytes e + weight l)%Z.
  pose proof (message_bytes_range e). destruct (decide _); [|lia]. change (weight (e :: ?l')) with (message_bytes e + weight l')%Z. lia.
Qed.

Lemma without_nil l : without [] l = l.
Proof.
  unfold without. induction l as [|e l IH]; [done|]. rewrite filter_cons, decide_True by apply not_elem_of_nil. by f_equal.
Qed.

Lemma take_off_spec ids m id : mail_ok m →
  (∀ k, queue_of (take_off ids m id) k = if decide (id = k) then without ids (queue_of m k) else queue_of m k)
  ∧ (∀ k, bytes_of (take_off ids m id) k = if decide (id = k) then weight (without ids (queue_of m k)) else bytes_of m k)
  ∧ besides_queues m (take_off ids m id).
Proof.
  intros Hm. unfold take_off. destruct (m_inboxes m !! id) as [l|] eqn:E; cbn [is_some].
  - split_and!; [| |done].
    + intros k. rewrite queue_of_set. by destruct (decide (id = k)) as [->|].
    + intros k. rewrite bytes_of_set. destruct (decide (id = k)) as [->|]; [|done]. rewrite (mo_bytes m Hm k).
      pose proof (take_off_bytes ids (queue_of m k) 0 ltac:(lia)) as H. by rewrite !Z.add_0_r in H.
  - assert (Hq : queue_of m id = []) by (unfold queue_of; by rewrite E).
    split_and!; [| |done]; intros k; (destruct (decide (id = k)) as [<-|]; [|done]).
    + by rewrite Hq.
    + rewrite (mo_bytes m Hm id), Hq. done.
Qed.

(** Messages leave one queue and nothing else happens. *)
Lemma taken_ok ids id es m m' : mail_ok m → held_ok m → neutral es →
  (∀ k, queue_of m' k = if decide (id = k) then without ids (queue_of m k) else queue_of m k) →
  (∀ k, bytes_of m' k = if decide (id = k) then weight (without ids (queue_of m k)) else bytes_of m k) →
  m_disk m' = delete_rows (m_disk m) id ids →
  m_questions m' = m_questions m ∧ m_held m' = m_held m ∧ m_waiters m' = m_waiters m ∧ m_held_answers m' = m_held_answers m
  ∧ m_events m' = app (m_events m) es →
  mail_ok m' ∧ held_ok m'.
Proof.
  intros Hm Hh Hn Hq Hb Hd (Eq & Eh & Ew & Ea & Ee). split; split.
  - intros k. rewrite Hq, Hd, rows_delete, (mo_queue m Hm k). destruct (decide (id = k)) as [->|]; [by rewrite decide_True|].
    by rewrite decide_False.
  - intros k. rewrite Hq, Hb, (mo_bytes m Hm k). by destruct (decide (id = k)).
  - intros k. rewrite Hq, Hb. destruct (mo_room m Hm k) as [Hl Hby]. destruct (decide (id = k)) as [->|]; [|done].
    rewrite (mo_bytes m Hm k) in Hby. pose proof (weight_without ids (queue_of m k)). split; [|lia].
    etrans; [|exact Hl]. unfold without. apply length_filter.
  - rewrite Hd, Eq. apply Hm.
  - rewrite Eq. apply Hm.
  - rewrite Eq. apply Hm.
  - rewrite Ea, Ew. apply Hm.
  - intros k. rewrite Ee, Eq, !times_app. destruct (Hn k) as (-> & -> & _). pose proof (mo_account m Hm k). lia.
  - rewrite Hd, Eh. apply Hh.
  - rewrite Eh. apply Hh.
  - intros k. rewrite Ee, Eh, !times_app. destruct (Hn k) as (_ & _ & -> & ->). pose proof (ho_account m Hh k). lia.
Qed.

Lemma touch_reader_same m id now : same_mail m (touch_reader m id now).
Proof.
  unfold touch_reader. destruct (is_some _); [|apply same_mail_refl]. apply commit_either; [done|].
  intros s d [= <-] _ _. split; try done. simpl. by rewrite app_nil_r.
Qed.

(** How a step changes the queues: what leaves is said to leave. *)
Record kept (new : option string) (m m' : Mail) : Prop := {
  kp_ok : mail_ok m';
  kp_held : held_ok m';
  kp_queue id : ∃ gone tail, queue_of m' id = app (without gone (queue_of m id)) tail
    ∧ (gone = [] ∨ ∃ es, m_events m' = app (m_events m) es
                    ∧ (InboxAcknowledged id gone ∈ es ∨ ∃ c t, ConversationRead id c t ∈ es));
  kp_events : m_events m `prefix_of` m_events m';
  kp_open id : m_questions m !! id = None → new ≠ Some id → m_questions m' !! id = None;
}.

Lemma moved_kept new m m' : moved new m m' → kept new m m'.
Proof.
  intros [? ? Hq He Ho]. split; try done. intros id. destruct (Hq id) as [tail ->]. exists [], tail.
  rewrite without_nil. split; [done|by left].
Qed.

Lemma kept_after_same new m m1 m' : same_mail m m1 → kept new m1 m' → kept new m m'.
Proof.
  intros Hs [? ? Hq He Ho]. split; [done|done| | |].
  - intros id. specialize (Hq id). by rewrite (same_queue m m1 id Hs), (sm_events m m1 Hs) in Hq.
  - by rewrite <- (sm_events m m1 Hs).
  - intros id. specialize (Ho id). by rewrite (sm_questions m m1 Hs) in Ho.
Qed.

(** A commit that takes messages off a queue, and says so. *)
Lemma commit_taken new m ids id e (f : Mail → Mail) : mail_ok m → held_ok m → neutral [e] →
  (ids = [] ∨ e = InboxAcknowledged id ids ∨ ∃ c t, e = ConversationRead id c t) →
  (∀ m, f m = take_off ids m id ∨ ids = [] ∧ f m = m) →
  kept new m (mail_commit m [e] (λ d, Some (delete_rows d id ids)) f).2.
Proof.
  intros Hm Hh Hn He Hf. apply commit_either; [intros; by apply moved_kept, moved_same|].
  intros s d [= <-] _ _. set (m0 := set_store s _ m). set (m' := go_out [e] (f m0)).
  assert (H : (∀ k, queue_of m' k = if decide (id = k) then without ids (queue_of m k) else queue_of m k)
    ∧ (∀ k, bytes_of m' k = if decide (id = k) then weight (without ids (queue_of m k)) else bytes_of m k)
    ∧ besides_queues m0 (f m0)).
  { assert (Ht : (∀ k, queue_of (take_off ids m id) k = if decide (id = k) then without ids (queue_of m k) else queue_of m k)
      ∧ (∀ k, bytes_of (take_off ids m id) k = if decide (id = k) then weight (without ids (queue_of m k)) else bytes_of m k)
      ∧ besides_queues m (take_off ids m id)) by by apply take_off_spec.
    unfold m'. destruct (Hf m0) as [E|[-> E]]; rewrite E.
    - destruct Ht as (Hq & Hb & _). split_and!; [intros k; rewrite <- Hq|intros k; rewrite <- Hb|];
        unfold m0, take_off; simpl; by destruct (m_inboxes m !! id).
    - split_and!; [| |done]; intros k; destruct (decide (id = k)); rewrite ?without_nil; try done. apply (mo_bytes m Hm). }
  destruct H as (Hq & Hb & (_ & Fq & Fh & Fw & Fa & Fd & Fe & _)).
  assert (Ee : m_events m' = app (m_events m) [e]) by (unfold m'; cbn [go_out m_events]; by rewrite Fe).
  assert (Eq : m_questions m' = m_questions m) by exact Fq.
  destruct (taken_ok ids id [e] m m') as [Hok Hh']; [done|done|done|done|done|exact Fd|split_and!; done|].
  split; [done|done| | |].
  - intros k. rewrite Hq. destruct (decide (id = k)) as [<-|].
    + exists ids, []. rewrite app_nil_r. split; [done|]. destruct He as [?|He]; [by left|]. right. exists [e]. split; [done|].
      destruct He as [->|(c & t & ->)]; [left; by left|right; exists c, t; by left].
    + exists [], []. rewrite app_nil_r, without_nil. split; [done|by left].
  - rewrite Ee. by eexists.
  - intros k. by rewrite Eq.
Qed.

(** *** Reading *)

Lemma ack_kept m reference messages now : mail_ok m → held_ok m → kept None m (ack_inbox m reference messages now).2.
Proof.
  intros Hm Hh. unfold ack_inbox. destruct (Reg.resolve (m_registry m) reference) as [id|]; [|by apply moved_kept, moved_same].
  pose proof (touch_reader_same m id now) as Hs. set (m1 := touch_reader m id now) in *.
  set (ids := wanted_of messages [] (queue_of m1 id)).
  destruct (length ids =? 0)%nat; [by apply moved_kept, moved_same|].
  eapply kept_after_same; [exact Hs|]. apply commit_taken; [by eapply same_ok|by eapply same_held|by apply neutral_one|by right; left|by left].
Qed.

Lemma read_inbox_kept m id drain now : mail_ok m → held_ok m → kept None m (read_inbox m id drain now).2.
Proof.
  intros Hm Hh. unfold read_inbox. destruct (so_error _); [by apply moved_kept, moved_same|].
  destruct (drain && _); [|by apply moved_kept, moved_same].
  pose proof (ack_kept m id (e_id <$> take_unheld (m_held_answers m) (queue_of m id)) now Hm Hh) as H.
  destruct (ack_inbox _ _ _ _) as [[] m1]; exact H.
Qed.

Lemma inbox_kept m reference drain now : mail_ok m → held_ok m → kept None m (inbox m reference drain now).2.
Proof.
  intros Hm Hh. unfold inbox. destruct (Reg.resolve (m_registry m) reference) as [id|]; [|by apply moved_kept, moved_same].
  destruct (drain && _); [by apply moved_kept, moved_same|]. pose proof (touch_reader_same m id now) as Hs.
  eapply kept_after_same; [exact Hs|]. apply read_inbox_kept; [by eapply same_ok|by eapply same_held].
Qed.

Lemma mark_read_kept m reader c t covered : mail_ok m → held_ok m → kept None m (mark_read m reader c t covered).2.
Proof.
  intros Hm Hh. unfold mark_read. set (ids := e_id <$> _). set (f := λ m, if (length ids =? 0)%nat then m else take_off ids m reader).
  pose proof (commit_taken None m ids reader (ConversationRead reader c t) f Hm Hh) as H.
  destruct (mail_commit m _ _ f) as [pr m1]. simpl in H.
  replace (match pr with Committed => (MOk, m1) | _ => (MFailure, m1) end).2 with m1 by by destruct pr.
  apply H; [by apply neutral_one|right; right; by eexists _, _|]. intros m0. unfold f.
  destruct ids as [|x ids]; [by right|by left].
Qed.

(** *** Catching up *)

Lemma caught_up_fits m since reserved queued count bytes recent : (0 ≤ bytes ≤ INBOX_BYTES)%Z → (count ≤ INBOX_CAPACITY)%nat →
  (∀ e, e ∈ recent → (message_bytes e < 2 ^ 63)%Z) →
  let l := caught_up m since reserved queued count bytes recent in
  (count + length l ≤ INBOX_CAPACITY)%nat ∧ (bytes + weight l ≤ INBOX_BYTES)%Z.
Proof.
  revert count bytes. induction recent as [|e recent IH]; intros count bytes Hb Hc Hsz; cbn [caught_up].
  { unfold weight. cbn. lia. }
  assert (Hsz' : ∀ e', e' ∈ recent → (message_bytes e' < 2 ^ 63)%Z) by (intros e' H; apply Hsz; by right).
  destruct (_ || _ || _ || _); [by apply IH|].
  destruct (_ || _) eqn:E; [unfold weight; cbn; lia|]. apply orb_false_iff in E as [E1 E2].
  apply Nat.leb_gt in E1. apply Z.ltb_ge in E2. pose proof (message_bytes_range e). pose proof (Hsz e ltac:(by left)).
  assert (Eu : u64_add bytes (message_bytes e) = (bytes + message_bytes e)%Z).
  { apply u64_wrap_small. unfold INBOX_BYTES in Hb. lia. }
  rewrite Eu in E2 |- *. destruct (IH (count + 1)%nat (bytes + message_bytes e)%Z) as [H1 H2]; [lia|lia|done|].
  cbn [length]. change (weight (e :: ?l)) with (message_bytes e + weight l)%Z. lia.
Qed.

Lemma catch_up_moved m record reserved recent now : mail_ok m → held_ok m → (∀ e, e ∈ recent → (message_bytes e < 2 ^ 63)%Z) →
  moved None m (catch_up m record reserved recent now).
Proof.
  intros Hm Hh Hsz. unfold catch_up. destruct (_ || _ || _ || _); [by apply moved_same|].
  set (id := r_id record). set (l := caught_up m _ _ _ _ _ _).
  destruct (length l =? 0)%nat; [by apply moved_same|]. apply commit_either; [intros; by apply moved_same|].
  intros s d Hd _ _. apply insert_rows_spec in Hd as (Dq & Dh & Di). rewrite enqueue_one.
  destruct (mo_room m Hm id) as [Hlen Hby]. pose proof (weight_nonneg (queue_of m id)) as Hw0.
  destruct (caught_up_fits m (now - CATCH_UP_WINDOW)%Z reserved (e_id <$> queue_of m id) (length (queue_of m id)) (bytes_of m id) recent)
    as [Hc Hb]; [rewrite (mo_bytes m Hm) in *; lia|done|done|]. fold l in Hc, Hb.
  destruct (enqueue_rows_spec ((λ e, (id, e)) <$> l) (set_store s d m)) as [Hq (_ & Eq & Eh & Ew & Ea & Ed & Ee & _)].
  { intros k. rewrite for_agent_one. change (bytes_of (set_store s d m) k) with (bytes_of m k).
    rewrite (mo_bytes m Hm k). pose proof (weight_nonneg (queue_of m k)). split; [done|]. rewrite <- (mo_bytes m Hm k).
    destruct (decide (id = k)) as [<-|]; [done|]. unfold weight at 1. cbn. pose proof (proj2 (mo_room m Hm k)). lia. }
  set (m1 := enqueue_rows _ _) in *. set (m' := go_out _ m1).
  assert (Hq' : ∀ k, queue_of m' k = app (queue_of m k) (if decide (id = k) then l else [])).
  { intros k. rewrite <- (for_agent_one k id l). apply Hq. }
  assert (Hb' : ∀ k, bytes_of m' k = (bytes_of m k + weight (if decide (id = k) then l else []))%Z).
  { intros k. rewrite <- (for_agent_one k id l). apply Hq. }
  assert (Ee' : m_events m' = app (m_events m) [MessagesCaughtUp id (e_id <$> l)]) by (unfold m'; cbn [go_out m_events]; by rewrite Ee).
  assert (Eq' : m_questions m' = m_questions m) by exact Eq. assert (Eh' : m_held m' = m_held m) by exact Eh.
  assert (Ew' : m_waiters m' = m_waiters m) by exact Ew. assert (Ea' : m_held_answers m' = m_held_answers m) by exact Ea.
  assert (Ed' : m_disk m' = d) by exact Ed.
  assert (Hn : neutral [MessagesCaughtUp id (e_id <$> l)]) by by apply neutral_one.
  clearbody m'. split; [split|split| | |].
  - intros k. rewrite Hq', Ed', (mo_queue m Hm). change (inbox_rows ?d k) with (for_agent k (dk_inbox d)).
    by rewrite Di, for_agent_app, for_agent_one.
  - intros k. by rewrite Hq', Hb', weight_app, (mo_bytes m Hm).
  - intros k. rewrite Hq', Hb', length_app. destruct (decide (id = k)) as [<-|]; [done|].
    destruct (mo_room m Hm k). unfold weight. cbn. lia.
  - by rewrite Ed', Eq', Dq, (mo_questions m Hm).
  - rewrite Eq'. apply Hm.
  - rewrite Eq'. apply Hm.
  - rewrite Ea', Ew'. apply Hm.
  - intros k. rewrite Ee', Eq', !times_app. destruct (Hn k) as (-> & -> & _). pose proof (mo_account m Hm k). lia.
  - by rewrite Ed', Eh', Dh, (ho_disk m Hh).
  - rewrite Eh'. apply Hh.
  - intros k. rewrite Ee', Eh', !times_app. destruct (Hn k) as (_ & _ & -> & ->). pose proof (ho_account m Hh k). lia.
  - intros k. rewrite Hq'. by eexists.
  - rewrite Ee'. by eexists.
  - intros k. by rewrite Eq'.
Qed.

(** *** Messages held for the person *)

Lemma set_held_ok h m : mail_ok m → mail_ok (set_held h m).
Proof. by intros [Hq Hb Hr Hd Hk Hz Hw Ha]; split. Qed.

Lemma drop_held_moved m q message by_ e : mail_ok m → held_ok m → is_Some (m_questions m !! q) → is_Some (m_held m !! q) →
  opening e = None → closing e = Some q → holding e = None → settling e = None →
  moved None m (drop_held m [(q, message)] by_ (Some e)).
Proof.
  intros Hm Hh Hq Hheld Ho Hc Hho Hse. unfold drop_held. cbn [length Nat.eqb].
  apply commit_either; [intros; by apply moved_same|]. intros s d [= <-] _ _.
  eapply moved_documents; [done|done|done|done| | | | | |].
  - simpl. by rewrite (mo_questions m Hm).
  - simpl. by rewrite (ho_disk m Hh).
  - intros k q'. simpl. intros [_ H]%lookup_delete_Some. split; [by apply (mo_keys m Hm)|by eexists].
  - apply (size_foldr_delete (m_questions m) [q]).
  - intros k h. simpl. by intros [_ H]%lookup_delete_Some.
  - intros k. cbn [option_list app fmap list_fmap fst snd]. rewrite !(times_cons _ k e), Ho, Hc, Hho, Hse. simpl.
    rewrite !times_cons, !times_nil. simpl.
    pose proof (present_foldr_delete (m_questions m) [q] k) as H1. pose proof (present_foldr_delete (m_held m) [q] k) as H2.
    simpl in H1, H2. rewrite H1, H2 by (by intros i ->%list_elem_of_singleton).
    destruct (decide (Some q = Some k)) as [[= ->]|Hne].
    + rewrite decide_True by by left. lia.
    + rewrite decide_False; [lia|]. intros ->%list_elem_of_singleton. by destruct Hne.
Qed.

Lemma expire_held_None fresh m now id : mail_ok m → held_ok m → m_held m !! id = None →
  m_held (expire_questions fresh m now) !! id = None.
Proof.
  intros Hm Hh Hn. pose proof (close_expired_moved m now Hm Hh) as H1. unfold expire_questions.
  destruct (stale_questions_moved fresh (close_expired_questions m now) now) as [_ ->]; [apply H1..|].
  unfold close_expired_questions. destruct (_ || _); [done|].
  apply commit_either; [intros m' Hs _ _; by rewrite (sm_held m m' Hs)|]. intros s d _ _ _. simpl.
  rewrite lookup_foldr_delete. by destruct (decide _).
Qed.

(** A message that goes out with a document: the memory of held messages
    follows. *)
Lemma publish_document_moved fresh m now e question t (f : gmap string HeldMessage → gmap string HeldMessage) r m' :
  mail_ok m → held_ok m → (∀ q, question = Some q → m_questions m !! q_id q = None) → doc_ok (Some t) e →
  (∀ hs, hs = m_held (expire_questions fresh m now) → held_after (Some t) hs = f hs
     ∧ (∀ k h, f hs !! k = Some h → hs !! k = Some h ∨ e_reply_to (h_envelope h) ≠ Some k)
     ∧ ∀ id, (times holding id [do_event t] + present hs id = times settling id [do_event t] + present (f hs) id)%nat) →
  publish_routed fresh m now e question (Some t) = (r, m') →
  moved (q_id <$> question) m (match r with Sent _ => set_held (f (m_held m')) m' | _ => m' end).
Proof.
  intros Hm Hh Hq Hdoc Hf Hp. unfold publish_routed in Hp.
  pose proof (expire_moved fresh m now Hm Hh) as H1. set (m1 := expire_questions fresh m now) in *.
  assert (Hweak : moved (q_id <$> question) m m1).
  { destruct H1 as [? ? ? ? Ho]. split; try done. intros id Hn _. by apply Ho. }
  destruct (mail_failing m); [injection Hp as <- <-; by apply moved_same|].
  destruct (mail_failing m1); [injection Hp as <- <-; done|].
  apply publish_settled_spec in Hp as (Hok & Eh & _ & Ho & Hcase); [|apply H1| |done|done].
  2: { intros q E. apply (mv_open None _ _ H1); [by apply Hq|done]. }
  assert (Hh1 : held_ok m1) by apply H1.
  destruct (Hf (m_held m1) eq_refl) as (Hfa & Hrep & Hacc).
  destruct Hcase as [(e' & -> & _ & [Pq _ Ph (es & Ee & Hes)])|[Hr Hs]].
  - eapply moved_trans; [exact H1|]. split; [by apply set_held_ok|split| | |].
    + simpl. by rewrite Ph, (ho_disk m1 Hh1), Hfa, Eh.
    + simpl. rewrite Eh. intros k h [H|H]%Hrep; [by apply (ho_reply m1 Hh1)|done].
    + intros id. simpl. rewrite Ee, Eh, !times_app. destruct (Hes id) as [-> ->]. unfold doc_events.
      pose proof (ho_account m1 Hh1 id). specialize (Hacc id). lia.
    + intros id. change (queue_of (set_held ?h m') id) with (queue_of m' id). rewrite Pq. by eexists.
    + simpl. rewrite Ee. by eexists.
    + intros id Hn Hne. simpl. apply Ho; [done|]. intros q -> <-. by destruct Hne.
  - replace (match r with Sent _ => _ | _ => m' end) with m' by (destruct r; try done; by destruct (Hr message)).
    eapply moved_then_same; [exact Hweak|exact Hs].
Qed.

Lemma hold_message_moved fresh m now e rule card to : mail_ok m → held_ok m →
  m_questions m !! card = None → m_held m !! card = None → e_reply_to e ≠ Some card →
  moved (Some card) m (hold_message fresh m now e rule card to).2.
Proof.
  intros Hm Hh Hq Hc Hr. unfold hold_message. destruct (mail_failing m); [by apply moved_same|].
  destruct (match Reg.get _ _ with Some r => _ | None => _ end) as [name runtime].
  set (q := held_question _ _ _ _ _ _ _ _). set (t := mkDocument _ _ _ _). set (env := envelope_new _ _ _ _ _ _ _).
  destruct (publish_routed fresh m now env (Some q) (Some t)) as [r m'] eqn:Ep.
  assert (H : moved (q_id <$> Some q) m (match r with Sent _ => set_held (<[card := mkHeld card e rule now]> (m_held m')) m' | _ => m' end)).
  { eapply (publish_document_moved fresh m now env (Some q) t (λ hs, <[card := mkHeld card e rule now]> hs)); [done|done| | | |exact Ep].
    - intros q' [= <-]. exact Hq.
    - intros t' [= <-]. done.
    - intros hs ->. split_and!; [done| |].
      + intros k h [[<- <-]|[_ ?]]%lookup_insert_Some; [by right|by left].
      + intros id. rewrite !times_cons, !times_nil. simpl. unfold present.
        destruct (decide (Some card = Some id)) as [[= <-]|Hne].
        * by rewrite lookup_insert_eq, (expire_held_None fresh m now card).
        * rewrite lookup_insert_ne by congruence. lia. }
  destruct r; exact H.
Qed.

Lemma settle_held_moved fresh m now q decision by_ pending : mail_ok m → held_ok m →
  m_questions m !! q = Some pending → question_expired pending now = false →
  moved None m (settle_held fresh m now q decision by_).2.
Proof.
  intros Hm Hh Hq Hex. unfold settle_held. destruct (mail_failing m); [by apply moved_same|].
  destruct (m_held m !! q) as [h|] eqn:E; [|by apply moved_same]. destruct decision.
  - set (t := mkDocument _ _ _ _). destruct (publish_routed fresh m now (h_envelope h) None (Some t)) as [r m'] eqn:Ep.
    assert (H : moved None m (match r with Sent _ => set_held (delete q (m_held m')) m' | _ => m' end)).
    { eapply (publish_document_moved fresh m now (h_envelope h) None t (delete q)); [done|done|done| | |exact Ep].
      - intros t' [= <-]. split_and!; [done..|]. intros c [= <-]. by apply (ho_reply m Hh).
      - intros hs ->. split_and!; [done| |].
        + intros k h' [_ ?]%lookup_delete_Some. by left.
        + intros id. rewrite !times_cons, !times_nil. simpl. unfold present.
          destruct (decide (Some q = Some id)) as [[= <-]|Hne].
          * rewrite lookup_delete_eq, expire_keeps_held, E; [done|done|done|]. intros q' Hq'. by simplify_eq.
          * rewrite lookup_delete_ne by congruence. lia. }
    destruct r; exact H.
  - simpl. apply drop_held_moved; try done; by eexists.
Qed.

(** *** Asking, answering, waiting *)

Lemma open_question_moved fresh m now id from to text p timeout f : mail_ok m → held_ok m → m_questions m !! id = None →
  moved (Some id) m (open_question fresh m now id from to text p timeout f).2.
Proof.
  intros Hm Hh Hn. unfold open_question.
  do 4 match goal with |- context [if ?c then (MInvalid, m) else _] => destruct c; [by apply moved_same|] end.
  assert (H : ∀ e q, q_id q = id → moved (Some id) m (publish_routed fresh m now e (Some q) None).2).
  { intros e q <-. destruct (publish_routed _ _ _ _ _ _) as [r m'] eqn:E. apply publish_routed_moved in E; [done..|]. by intros ? [= <-]. }
  destruct to; [apply H; done|by apply moved_same|apply H; done|by apply moved_same|apply H; done].
Qed.

(** Who waits for an answer, and the answers kept for them. *)
Lemma set_waiting_ok w h m : (∀ a q, h !! a = Some q → q ∈ w) → mail_ok m → mail_ok (set_waiting w h m).
Proof. intros Hw [Hq Hb Hr Hd Hk Hz _ Ha]. by split. Qed.

Lemma moved_waiting new m m' w h : moved new m m' → (∀ a q, h !! a = Some q → q ∈ w) → moved new m (set_waiting w h m').
Proof.
  intros [Hok [Hd Hr Ha] Hq He Ho] Hw. split; [by apply set_waiting_ok|by split|done|done|done].
Qed.

Lemma ask_moved fresh m now id from to text timeout f : mail_ok m → held_ok m → m_questions m !! id = None →
  moved (Some id) m (ask fresh m now id from to text timeout f).2.
Proof.
  intros Hm Hh Hn. unfold ask. pose proof (open_question_moved fresh m now id from to text None timeout f Hm Hh Hn) as H.
  destruct (open_question _ _ _ _ _ _ _ _ _ _) as [[] m']; simpl in H; try exact H.
  apply moved_waiting; [done|]. intros a q Hq. apply elem_of_union_r. by apply (mo_waiting m' (mv_ok _ _ _ H) a).
Qed.

Lemma emit_moved m q a route : mail_ok m → held_ok m → moved None m (mail_emit m (AnswerRouted q a route)).
Proof.
  intros Hm Hh. destruct (emit_routed m q a route) as [Hs|(m1 & Hs & ->)]; [by apply moved_same|].
  assert (Hn : neutral [AnswerRouted q a route]) by by apply neutral_one.
  destruct (moved_same None m m1 Hm Hh Hs) as [Hok Hh1 Hq He Ho].
  split; [by apply announce_ok|by apply announce_held|done| |done]. simpl. etrans; [exact He|by eexists].
Qed.

Lemma handed_over_moved m asker q a noted : mail_ok m → held_ok m → moved None m (answer_handed_over m asker q a noted).2.
Proof.
  intros Hm Hh. unfold answer_handed_over. destruct (is_none _); [by apply moved_same|].
  destruct (Reg.resolve (m_registry m) asker) as [id|]; [|by apply moved_same].
  set (m1 := match noted with Some f => _ | None => m end).
  assert (Hs : same_mail m m1).
  { unfold m1. destruct noted; [|apply same_mail_refl]. apply commit_either; [done|]. intros s d [= <-] _ _.
    split; try done. simpl. by rewrite app_nil_r. }
  assert (H1 : moved None m m1) by by apply moved_same. destruct (so_error (m_storage m1)); [done|].
  assert (H2 : moved None m (mail_emit m1 (AnswerRouted q a ToolResult))) by (eapply moved_trans; [exact H1|apply emit_moved; apply H1]).
  destruct (so_error _); [done|]. apply moved_waiting; [done|]. intros a' q' [_ H]%lookup_delete_Some.
  by apply (mo_waiting _ (mv_ok _ _ _ H2) a').
Qed.

Lemma release_answers q l m : let m' := foldl (release_answer q) m l in
  m_inboxes m' = m_inboxes m ∧ m_bytes m' = m_bytes m ∧ m_questions m' = m_questions m ∧ m_held m' = m_held m
  ∧ m_waiters m' = m_waiters m ∧ m_disk m' = m_disk m
  ∧ (∀ k x, m_held_answers m' !! k = Some x → (k ∉ l) ∧ m_held_answers m !! k = Some x)
  ∧ ∃ es, neutral es ∧ m_events m' = app (m_events m) es.
Proof.
  revert m. induction l as [|a l IH]; intros m; cbn [foldl].
  { split_and!; try done; [intros; split; [apply not_elem_of_nil|done]|]. exists []. split; [by intros ?|by rewrite app_nil_r]. }
  set (m1 := release_answer q m a). set (m0 := set_waiting (m_waiters m) (delete a (m_held_answers m)) m).
  assert (H1 : m_inboxes m1 = m_inboxes m ∧ m_bytes m1 = m_bytes m ∧ m_questions m1 = m_questions m ∧ m_held m1 = m_held m
    ∧ m_waiters m1 = m_waiters m ∧ m_disk m1 = m_disk m ∧ m_held_answers m1 = delete a (m_held_answers m)
    ∧ ∃ es, neutral es ∧ m_events m1 = app (m_events m) es).
  { unfold m1, release_answer. fold m0. destruct (emit_routed m0 q a Queue) as [[]|(m2 & [] & ->)]; split_and!; try done.
    - exists []. split; [by intros ?|by rewrite app_nil_r].
    - eexists. split; [|simpl; by f_equal]. by apply neutral_one. }
  destruct H1 as (? & ? & ? & ? & ? & ? & Ea & es1 & Hn1 & Ee1).
  destruct (IH m1) as (-> & -> & -> & -> & -> & -> & Hk & es2 & Hn2 & ->). split_and!; try done.
  - intros k x [Hl Hx]%Hk. rewrite Ea in Hx. apply lookup_delete_Some in Hx as [Hne Hx]. split; [|done].
    by intros [->|?]%elem_of_cons.
  - exists (app es1 es2). rewrite Ee1, app_assoc. split; [|done]. intros id. rewrite !times_app.
    destruct (Hn1 id) as (-> & -> & -> & ->), (Hn2 id) as (-> & -> & -> & ->). done.
Qed.

Lemma waiter_ended_moved m q : mail_ok m → held_ok m → moved None m (waiter_ended m q).
Proof.
  intros Hm Hh. unfold waiter_ended. set (m0 := set_waiting _ _ m). set (l := (map_to_list _).*1).
  destruct (release_answers q l m0) as (Ei & Eb & Eq & Eh & Ew & Ed & Ha & es & Hn & Ee).
  set (m1 := foldl _ m0 l) in *.
  destruct Hm as [Hq Hb Hr Hd Hk Hz Hw Hacc], Hh as [Hdk Hrep Hhacc].
  assert (Qq : ∀ id, queue_of m1 id = queue_of m id) by (intros id; unfold queue_of; by rewrite Ei).
  assert (Qb : ∀ id, bytes_of m1 id = bytes_of m id) by (intros id; unfold bytes_of; by rewrite Eb).
  simpl in Eq, Eh, Ew, Ed, Ee. split; [split|split| | |].
  - intros id. rewrite Qq, Ed. apply Hq.
  - intros id. rewrite Qb, Qq. apply Hb.
  - intros id. rewrite Qb, Qq. apply Hr.
  - by rewrite Ed, Eq.
  - by rewrite Eq.
  - by rewrite Eq.
  - intros a x [Hl H]%Ha. simpl in H. rewrite Ew. apply elem_of_difference. split; [by apply (Hw a)|].
    intros ->%elem_of_singleton. apply Hl. unfold l. apply list_elem_of_fmap. exists (a, q). split; [done|].
    apply elem_of_map_to_list, map_lookup_filter_Some. done.
  - intros id. rewrite Ee, Eq, !times_app. destruct (Hn id) as (-> & -> & _). specialize (Hacc id). lia.
  - by rewrite Ed, Eh.
  - by rewrite Eh.
  - intros id. rewrite Ee, Eh, !times_app. destruct (Hn id) as (_ & _ & -> & ->). specialize (Hhacc id). lia.
  - intros id. by rewrite Qq.
  - rewrite Ee. by eexists.
  - intros id. by rewrite Eq.
Qed.

Lemma answer_moved fresh m now id message from sender to allowed text choices other note : mail_ok m → held_ok m →
  moved None m (answer fresh m now id message from sender to allowed text choices other note).2.
Proof.
  intros Hm Hh. unfold answer. destruct (m_questions m !! message) as [q|] eqn:E; [|by apply moved_same].
  destruct (question_expired q now) eqn:Ex; [by apply moved_same|]. destruct (is_some (m_held m !! message)).
  - unfold decide_held.
    match goal with |- context [match ?w with Some _ => _ | None => (MNotFound, m) end] => destruct w as [by_|] end; [|by apply moved_same].
    destruct (negb _); [by apply moved_same|]. destruct (held_parse text) as [decision|]; [|by apply moved_same].
    by eapply settle_held_moved.
  - pose proof (expire_moved fresh m now Hm Hh) as H1. set (m1 := expire_questions fresh m now) in *.
    do 4 match goal with |- context [if ?c then (_, m1) else _] => destruct c; [done|] end.
    destruct (answer_resolve _ _ _ _ _) as [a|]; [|done]. eapply moved_trans; [exact H1|].
    destruct (publish_routed _ _ _ _ _ _) as [r m'] eqn:Ep. by apply publish_routed_moved in Ep; [|apply H1..|].
Qed.

Lemma cancel_moved m reference message : mail_ok m → held_ok m → moved None m (cancel_question m reference message).2.
Proof.
  intros Hm Hh. unfold cancel_question. destruct (Reg.resolve (m_registry m) reference) as [agent|]; [|by apply moved_same].
  destruct (mail_failing m); [by apply moved_same|]. destruct (m_questions m !! message) as [q|] eqn:E; [|by apply moved_same].
  destruct (q_from q != agent); [by apply moved_same|]. destruct (m_held m !! message) as [h|] eqn:Eh; cbn [snd].
  - by apply drop_held_moved.
  - apply commit_either; [intros; by apply moved_same|]. intros s d [= <-] _ _.
    eapply (moved_closed _ _ _ _ message); [done|done|by rewrite E| |done].
    intros k. split_and!; [done| |done..]. by apply times_one_closing.
Qed.

(** *** Starting again *)

Lemma load_inboxes_spec (l : list (string * Envelope)) id (q0 : gmap string (list Envelope)) :
  default [] (foldl (λ q r, <[r.1 := app (default [] (q !! r.1)) [r.2]]> q) q0 l !! id)
  = app (default [] (q0 !! id)) (for_agent id l).
Proof.
  revert q0. induction l as [|[a e] l IH]; intros q0; cbn [foldl]; [by rewrite app_nil_r|].
  rewrite IH, for_agent_cons. simpl. destruct (decide (a = id)) as [->|Hne].
  - rewrite lookup_insert_eq. simpl. by rewrite <- app_assoc.
  - by rewrite lookup_insert_ne.
Qed.

Lemma load_bytes_weight l : (weight l ≤ INBOX_BYTES)%Z → load_bytes l = weight l.
Proof.
  unfold load_bytes.
  assert (H : ∀ n, (0 ≤ n)%Z → (n + weight l ≤ INBOX_BYTES)%Z →
    foldl (λ n e, u64_saturating_add n (message_bytes e)) n l = (n + weight l)%Z).
  { induction l as [|e l IH]; intros n Hn Hb; cbn [foldl]; [unfold weight; cbn; lia|].
    change (weight (e :: l)) with (message_bytes e + weight l)%Z in *. pose proof (message_bytes_range e). pose proof (weight_nonneg l).
    unfold u64_saturating_add at 2. unfold INBOX_BYTES, u64_max in *. rewrite Z.min_r by lia. rewrite IH by lia. lia. }
  intros Hb. by rewrite H by lia.
Qed.

Lemma restore_shape m answers now m' : mail_ok m → held_ok m → restore_mail m answers now = Some m' →
  ∃ s expired qs orphaned, expired = due_ids m (λ q, question_expired q now) ∧ qs = foldr delete (m_questions m) expired
    ∧ orphaned = map_to_list (filter (λ kv, is_none (qs !! kv.1) = true) (m_held m))
    ∧ m' = mkMail (m_registry m) (m_rooms m) (load_inboxes (m_disk m)) (load_bytes <$> load_inboxes (m_disk m)) qs
             (foldr delete (m_held m) orphaned.*1) ∅ ∅ ∅ s (mkDisk (dk_inbox (m_disk m)) qs (foldr delete (m_held m) orphaned.*1))
             (app (m_events m) (app ((λ id, QuestionClosed id None) <$> expired)
                ((λ kv, HeldMessageDropped (e_id (h_envelope kv.2)) kv.1 EXPIRY) <$> orphaned))).
Proof.
  intros Hm Hh. unfold restore_mail. rewrite (mo_questions m Hm), (ho_disk m Hh).
  replace (set_questions (m_questions m) m) with m by by destruct m.
  destruct answers as [|[] answers]; [| |done]; (destruct (_ <? _)%nat; [done|]);
    (match goal with |- context [match ?c with [] => _ | _ => _ end] => destruct c as [|[] ?]; [| |done] end);
    intros [= <-]; by eexists _, _, _, _.
Qed.

Lemma restore_moved m answers now m' : mail_ok m → held_ok m → restore_mail m answers now = Some m' → moved None m m'.
Proof.
  intros Hm Hh Hr. destruct (restore_shape m answers now m' Hm Hh Hr) as (s & expired & qs & orphaned & Ee & Eq & Eo & ->). clear Hr.
  destruct (due_ids_spec m (λ q, question_expired q now)) as [Hnd Hdue]. rewrite <- Ee in Hnd, Hdue. clear Ee.
  set (hs := foldr delete (m_held m) orphaned.*1). set (m' := mkMail _ _ _ _ _ _ _ _ _ _ _ _).
  assert (Hq : ∀ id, queue_of m' id = queue_of m id).
  { intros id. rewrite (mo_queue m Hm id). unfold queue_of. simpl. unfold load_inboxes. rewrite load_inboxes_spec. done. }
  assert (Hb : ∀ id, bytes_of m' id = weight (queue_of m id)).
  { intros id. unfold bytes_of. cbn [m_bytes m']. rewrite lookup_fmap. specialize (Hq id). unfold queue_of in Hq at 1. simpl in Hq.
    destruct (load_inboxes (m_disk m) !! id) as [l|]; simpl in *; [|by rewrite <- Hq].
    rewrite <- Hq. apply load_bytes_weight. rewrite Hq, <- (mo_bytes m Hm). apply (mo_room m Hm). }
  assert (Hqs : ∀ k q, qs !! k = Some q → m_questions m !! k = Some q).
  { intros k q. rewrite Eq, lookup_foldr_delete. by destruct (decide _). }
  assert (Ho : ∀ i, i ∈ orphaned.*1 → is_Some (m_held m !! i)).
  { intros i ([k h] & -> & H)%list_elem_of_fmap. rewrite Eo, elem_of_map_to_list in H. apply map_lookup_filter_Some in H as [H _]. by eexists. }
  split; [split|split| | |].
  - intros id. rewrite Hq. apply Hm.
  - intros id. by rewrite Hb, Hq.
  - intros id. rewrite Hb, Hq, <- (mo_bytes m Hm). apply Hm.
  - done.
  - intros k q H%Hqs. by apply (mo_keys m Hm).
  - cbn [m_questions m']. rewrite Eq. pose proof (size_foldr_delete (m_questions m) expired). pose proof (mo_size m Hm). lia.
  - intros a q. cbn [m_held_answers m']. by rewrite lookup_empty.
  - intros id. cbn [m_events m_questions m']. rewrite !times_app.
    rewrite (times_none opening _ id expired), (times_none opening _ id orphaned), (times_none closing _ id orphaned) by done.
    rewrite (times_fmap closing _ (λ x, x)) by (try done; by rewrite list_fmap_id). rewrite list_fmap_id, Eq.
    pose proof (mo_account m Hm id) as Hacc.
    rewrite (present_foldr_delete (m_questions m) expired id) in Hacc; [lia|]. intros i (q & E & _)%Hdue. by eexists.
  - done.
  - intros q h. cbn [m_held m']. unfold hs. rewrite lookup_foldr_delete. destruct (decide _); [done|]. apply (ho_reply m Hh).
  - intros id. cbn [m_events m_held m']. rewrite !times_app.
    rewrite (times_none holding _ id expired), (times_none holding _ id orphaned), (times_none settling _ id expired) by done.
    rewrite (times_fmap settling _ fst); [|done|rewrite Eo; apply NoDup_fst_map_to_list].
    pose proof (ho_account m Hh id) as Hacc. rewrite (present_foldr_delete (m_held m) orphaned.*1 id Ho) in Hacc. unfold hs. lia.
  - intros id. by rewrite Hq.
  - cbn [m_events m']. by eexists.
  - intros id Hn _. cbn [m_questions m']. rewrite Eq, lookup_foldr_delete. by destruct (decide _).
Qed.

Lemma act_kept new m m' : mail_act new m m' → mail_ok m → held_ok m → kept new m m'.
Proof.
  intros Hst Hm Hh. destruct Hst as [m fresh now e|m fresh now id from to text p timeout f Hn|m fresh now id from to text timeout f Hn
    |m asker q a noted|m q|m fresh now id message from sender to allowed text choices other note|m reference message
    |m fresh now e rule card to Hq Hc Hr|m fresh now|m reference ids now|m reference drain now|m reader c t covered
    |m record reserved recent now Hsz|m reg rooms s Hs].
  - apply moved_kept. destruct (publish_routed _ _ _ _ _ _) as [r m'] eqn:E. by apply publish_routed_moved in E.
  - apply moved_kept. by apply open_question_moved.
  - apply moved_kept. by apply ask_moved.
  - apply moved_kept. by apply handed_over_moved.
  - apply moved_kept. by apply waiter_ended_moved.
  - apply moved_kept. by apply answer_moved.
  - apply moved_kept. by apply cancel_moved.
  - apply moved_kept. by apply hold_message_moved.
  - apply moved_kept. by apply expire_moved.
  - by apply ack_kept.
  - by apply inbox_kept.
  - by apply mark_read_kept.
  - apply moved_kept. by apply catch_up_moved.
  - apply moved_kept, moved_same; [done..|]. by split.
Qed.

Lemma step_kept m m' : mail_step m m' → mail_ok m → held_ok m → ∃ new, kept new m m'.
Proof.
  intros [new m1 m2 Hact|m1 answers now m2 Hr] Hm Hh; [exists new; by apply act_kept|exists None].
  apply moved_kept. by eapply restore_moved.
Qed.

Lemma start_ok registry rooms answers : mail_ok (mail_start registry rooms answers) ∧ held_ok (mail_start registry rooms answers).
Proof.
  assert (Hq : ∀ id, queue_of (mail_start registry rooms answers) id = []) by (intros id; unfold queue_of; cbn [mail_start m_inboxes]; by rewrite lookup_empty).
  assert (Hb : ∀ id, bytes_of (mail_start registry rooms answers) id = 0%Z) by (intros id; unfold bytes_of; cbn [mail_start m_bytes]; by rewrite lookup_empty).
  split; split; intros *; rewrite ?Hq, ?Hb; try done.
  - split; [apply Nat.le_0_l|done].
  - cbn [mail_start m_questions]. rewrite map_size_empty. apply Nat.le_0_l.
Qed.

Lemma reachable_ok registry rooms answers m : rtc mail_step (mail_start registry rooms answers) m → mail_ok m ∧ held_ok m.
Proof.
  intros H. remember (mail_start registry rooms answers) as m0 eqn:E.
  assert (H0 : mail_ok m0 ∧ held_ok m0) by (subst; apply start_ok). clear E.
  induction H as [|x y z Hxy _ IH]; [done|]. apply IH. destruct (step_kept x y Hxy) as [new []]; [apply H0..|done].
Qed.

(** *** A held message whose card is gone *)

Lemma enqueue_rows_held l m : m_held (enqueue_rows m l) = m_held m.
Proof. unfold enqueue_rows. revert m. induction l as [|r l IH]; intros m; [done|]. cbn [foldl]. by rewrite IH. Qed.

Lemma publish_apply_held now e rs question closing m : m_held (publish_apply now e rs question closing m) = m_held m.
Proof.
  unfold publish_apply, delete_open.
  pose proof (enqueue_rows_held ((λ r, (r, e)) <$> rs) m) as H. rewrite <- enqueue_each in H.
  destruct question; simpl; destruct (is_some _); done.
Qed.

Lemma emit_held m e : m_held (mail_emit m e) = m_held m.
Proof. unfold mail_emit. apply commit_either; [intros m' Hs _ _; apply Hs|done]. Qed.

Lemma publish_settled_held m now e question doc dfor : m_held (publish_settled m now e question doc dfor).2 = m_held m.
Proof.
  unfold publish_settled. destruct (_ && _); [done|]. destruct (routed_envelope _ _ _ _) as [e'|]; [|done].
  destruct (List.find _ _); [done|]. set (m1 := (mail_commit _ _ _ _).2).
  assert (H : m_held m1 = m_held m).
  { unfold m1. apply commit_either; [intros m' Hs _ _; apply Hs|]. intros s d _ _ _. apply (publish_apply_held _ _ _ _ _ (set_store s d m)). }
  destruct (mail_failing m1); [done|]. simpl. unfold route_answer. destruct (closed_by m e dfor); [|done].
  destruct (bool_decide _); [done|]. by rewrite emit_held.
Qed.

Lemma publish_routed_held fresh m now e question doc c : mail_ok m → held_ok m → m_questions m !! c = None →
  m_held (publish_routed fresh m now e question doc).2 !! c = m_held m !! c.
Proof.
  intros Hm Hh Hc. unfold publish_routed. destruct (mail_failing m); [done|].
  assert (H : m_held (expire_questions fresh m now) !! c = m_held m !! c) by (apply expire_keeps_held; [done..|congruence]).
  destruct (mail_failing _); [done|]. by rewrite publish_settled_held.
Qed.

Lemma drop_held_other m q message by_ closing c : c ≠ q → m_held (drop_held m [(q, message)] by_ closing) !! c = m_held m !! c.
Proof.
  intros Hne. unfold drop_held. cbn [length Nat.eqb]. apply commit_either; [intros m' Hs _ _; by rewrite (sm_held m m' Hs)|].
  intros s d _ _ _. simpl. by rewrite lookup_delete_ne.
Qed.

Lemma answer_held fresh m now id message from sender to allowed text choices other note c : mail_ok m → held_ok m →
  m_questions m !! c = None → m_held (answer fresh m now id message from sender to allowed text choices other note).2 !! c = m_held m !! c.
Proof.
  intros Hm Hh Hc. unfold answer. destruct (m_questions m !! message) as [q|] eqn:E; [|done].
  assert (Hne : c ≠ message) by congruence.
  destruct (question_expired q now); [done|]. destruct (is_some (m_held m !! message)).
  - unfold decide_held.
    match goal with |- context [match ?w with Some _ => _ | None => (MNotFound, m) end] => destruct w as [by_|] end; [|done].
    destruct (negb _); [done|]. destruct (held_parse text) as [decision|]; [|done].
    unfold settle_held. destruct (mail_failing m); [done|]. destruct (m_held m !! message) as [h|]; [|done].
    destruct decision; [|by apply drop_held_other].
    set (t := mkDocument _ _ _ _). pose proof (publish_routed_held fresh m now (h_envelope h) None (Some t) c Hm Hh Hc) as H.
    destruct (publish_routed _ _ _ _ _ _) as [[] m']; simpl in *; try done. by rewrite lookup_delete_ne.
  - pose proof (expire_moved fresh m now Hm Hh) as H1.
    assert (H : m_held (expire_questions fresh m now) !! c = m_held m !! c) by (apply expire_keeps_held; [done..|congruence]).
    set (m1 := expire_questions fresh m now) in *.
    do 4 match goal with |- context [if ?c then (_, m1) else _] => destruct c; [done|] end.
    destruct (answer_resolve _ _ _ _ _) as [a|]; [|done]. rewrite publish_routed_held; [done|apply H1..|]. by apply (mv_open None m m1 H1).
Qed.

Lemma open_question_held fresh m now id from to text p timeout f c : mail_ok m → held_ok m → m_questions m !! c = None →
  m_held (open_question fresh m now id from to text p timeout f).2 !! c = m_held m !! c.
Proof.
  intros Hm Hh Hc. unfold open_question.
  do 4 match goal with |- context [if ?b then (MInvalid, m) else _] => destruct b; [done|] end.
  destruct to; try done; by apply publish_routed_held.
Qed.

Lemma take_off_held ids m id : m_held (take_off ids m id) = m_held m.
Proof. unfold take_off. by destruct (is_some _). Qed.

Lemma ack_held m reference messages now : m_held (ack_inbox m reference messages now).2 = m_held m.
Proof.
  unfold ack_inbox. destruct (Reg.resolve (m_registry m) reference) as [id|]; [|done].
  pose proof (sm_held _ _ (touch_reader_same m id now)) as Hs. destruct (_ =? _)%nat; [done|]. simpl. rewrite <- Hs.
  apply commit_either; [intros m' Hs' _ _; apply Hs'|]. intros s d _ _ _. simpl. by rewrite take_off_held.
Qed.

Lemma act_held new m m' c : mail_act new m m' → mail_ok m → held_ok m → m_questions m !! c = None → new ≠ Some c →
  m_held m' !! c = m_held m !! c.
Proof.
  intros Hst Hm Hh Hc Hnew. destruct Hst as [m fresh now e|m fresh now id from to text p timeout f Hn
    |m fresh now id from to text timeout f Hn
    |m asker q a noted|m q|m fresh now id message from sender to allowed text choices other note|m reference message
    |m fresh now e rule card to Hq Hca Hr|m fresh now|m reference ids now|m reference drain now|m reader cv t covered
    |m record reserved recent now Hsz|m reg rooms s Hs].
  - by apply publish_routed_held.
  - by apply open_question_held.
  - unfold ask. pose proof (open_question_held fresh m now id from to text None timeout f c Hm Hh Hc) as H.
    destruct (open_question _ _ _ _ _ _ _ _ _ _) as [[] m']; exact H.
  - unfold answer_handed_over. destruct (is_none _); [done|]. destruct (Reg.resolve (m_registry m) asker) as [id|]; [|done].
    set (m1 := match noted with Some f => _ | None => m end).
    assert (H : m_held m1 = m_held m).
    { unfold m1. destruct noted; [|done]. apply commit_either; [intros m' Hs _ _; apply Hs|done]. }
    destruct (so_error (m_storage m1)); cbn [snd]; [by rewrite H|].
    destruct (so_error _); cbn [snd set_waiting m_held]; by rewrite emit_held, H.
  - unfold waiter_ended. set (m0 := set_waiting _ _ m). set (l := (map_to_list _).*1).
    destruct (release_answers q l m0) as (_ & _ & _ & H & _). by rewrite H.
  - by apply answer_held.
  - unfold cancel_question. destruct (Reg.resolve (m_registry m) reference) as [agent|]; [|done]. destruct (mail_failing m); [done|].
    destruct (m_questions m !! message) as [q|] eqn:E; [|done]. destruct (q_from q != agent); [done|].
    destruct (m_held m !! message) as [h|]; cbn [snd]; [apply drop_held_other; congruence|].
    apply commit_either; [intros m' Hs _ _; by rewrite (sm_held m m' Hs)|done].
  - unfold hold_message. destruct (mail_failing m); [done|]. destruct (match Reg.get _ _ with Some r => _ | None => _ end) as [name runtime].
    set (q := held_question _ _ _ _ _ _ _ _). set (t := mkDocument _ _ _ _). set (env := envelope_new _ _ _ _ _ _ _).
    pose proof (publish_routed_held fresh m now env (Some q) (Some t) c Hm Hh Hc) as H.
    destruct (publish_routed _ _ _ _ _ _) as [[] m']; simpl in *; try done. rewrite lookup_insert_ne; [done|congruence].
  - apply expire_keeps_held; [done..|congruence].
  - by rewrite ack_held.
  - unfold inbox. destruct (Reg.resolve (m_registry m) reference) as [id|]; [|done]. destruct (drain && _); [done|].
    pose proof (sm_held _ _ (touch_reader_same m id now)) as Hs. unfold read_inbox. destruct (so_error _); [cbn [snd]; by rewrite Hs|].
    destruct (drain && _); [|cbn [snd]; by rewrite Hs].
    match goal with |- context [ack_inbox ?m1 ?r ?i ?n] => pose proof (ack_held m1 r i n) as Ha; destruct (ack_inbox m1 r i n) as [[] m'] end;
      simpl in *; by rewrite Ha, Hs.
  - unfold mark_read. set (ids := e_id <$> _). set (f := λ m, if (length ids =? 0)%nat then m else take_off ids m reader).
    assert (H : m_held (mail_commit m [ConversationRead reader cv t] (λ d, Some (delete_rows d reader ids)) f).2 = m_held m).
    { apply commit_either; [intros m' Hs _ _; apply Hs|]. intros s d _ _ _. simpl. unfold f.
      destruct (length ids =? 0)%nat; [done|]. by rewrite take_off_held. }
    destruct (mail_commit _ _ _ f) as [[] m']; simpl in *; by rewrite H.
  - unfold catch_up. destruct (_ || _ || _ || _); [done|]. destruct (_ =? _)%nat; [done|].
    apply commit_either; [intros m' Hs _ _; by rewrite (sm_held m m' Hs)|]. intros s d _ _ _. rewrite enqueue_one.
    by rewrite (enqueue_rows_held _ (set_store s d m) : m_held (go_out _ _) = _).
  - done.
Qed.

(** Steps that draw some other id. *)
Definition other_acts (c : string) (m m' : Mail) : Prop := ∃ new, new ≠ Some c ∧ mail_act new m m'.

Lemma stranded_stays c h m m' : mail_ok m → held_ok m → m_held m !! c = Some h → m_questions m !! c = None →
  rtc (other_acts c) m m' → m_held m' !! c = Some h ∧ m_questions m' !! c = None.
Proof.
  intros Hm Hh Hc Hq Hst. induction Hst as [m|m1 m2 m3 (new & Hn & Hact) _ IH]; [done|].
  destruct (act_kept new m1 m2 Hact Hm Hh) as [Hm2 Hh2 _ _ Ho]. apply IH; [done..| |by apply Ho].
  by rewrite (act_held new m1 m2 c Hact Hm Hh Hq Hn).
Qed.

End Facts.

End MailFacts.

(** ** Properties *)

Module MailProps.
Import MailFacts.

Section Properties.
Context {HO : HashOrder string AgentRecord} {V5 : Uuid} {U : Unicode}.
Context {SJ : SerdeJson} {FF : FormFormats} {HA : HttpAuthority} {ES : EnvelopeSize} {AJ : AnswerJson}.




(** C20: A message goes to every one of its recipients, once and at the end of the
    queue, or, refused or with its write failing, to none: then no queue, question,
    held message, stored row or event differs from what the sweep before it left. *)
Theorem send_is_all_or_nothing registry rooms answers fresh m now e r m' :
  rtc mail_step (mail_start registry rooms answers) m → mail_failing m = false →
  publish_routed fresh m now e None None = (r, m') →
  let m1 := expire_questions fresh m now in
  (∃ e', r = Sent (e_id e) ∧ routed_envelope m1 e None (closed_by m1 e None) = Some e' ∧ e_id e' = e_id e
     ∧ ∀ id, queue_of m' id = app (queue_of m1 id) (if decide (id ∈ recipients_of m1 e) then [e'] else []))
  ∨ (∀ id, r ≠ Sent id) ∧ same_mail m1 m'.
Proof.
  intros [Hm Hh]%reachable_ok Hf Hp m1. unfold publish_routed in Hp. rewrite Hf in Hp. fold m1 in Hp.
  pose proof (expire_moved fresh m now Hm Hh) as H1. fold m1 in H1.
  destruct (mail_failing m1); [injection Hp as <- <-; right; split; [done|apply same_mail_refl]|].
  apply publish_settled_spec in Hp as (_ & _ & _ & _ & [(e' & -> & Hr & [Hq Hid _ _])|?]); [|by right|apply H1|done..].
  left. by exists e'.
Qed.


End Properties.

(** *** A run: a message of [a] is held for the person [h], who writes to [a]
    in reply to the card. *)

#[local] Instance run_order : HashOrder string AgentRecord := canonical_order.
#[local] Instance run_uuid : Uuid := {| new_v5_url := λ root, root |}.
#[local] Instance run_unicode : Unicode := ascii_unicode.
#[local] Instance run_serde : SerdeJson := ElicitationProps.w_serde.
#[local] Instance run_formats : FormFormats := ElicitationProps.w_formats.
#[local] Instance run_authority : HttpAuthority := UrlProps.w_authority.
Definition run_bytes (e : Envelope) : Z := Z.min u64_max (100 + Z.of_nat (String.length (e_id e))).
Lemma run_bytes_range e : (0 ≤ run_bytes e ≤ u64_max)%Z.
Proof. unfold run_bytes, u64_max. lia. Qed.
#[local] Instance run_size : EnvelopeSize := {| message_bytes := run_bytes; message_bytes_range := run_bytes_range |}.
#[local] Instance run_answers : AnswerJson :=
  {| answer_payload := λ a, JObject [("text", JString (qa_text a))];
     answer_from_payload := λ j, mkAnswer (match json_get j "text" with Some (JString t) => t | _ => "" end) [] None None false;
     form_fields := λ _, [] |}.

Definition run_agent (name runtime : string) : AgentRecord :=
  with_status (record_new name (mkSpec name runtime None None [] None ∅ ∅ false false false false RNo []) false 0) Running.
Definition run_registry : Registry :=
  mkRegistry (<["a" := run_agent "a" "remote"]> (<["h" := run_agent "h" HUMAN_RUNTIME]> ∅)) ∅ ∅ ∅ ∅.
Definition run_ids (id : string) : string := "default-" ++ id.
Definition run_start : Mail := mail_start run_registry ∅ [].
Definition run_note (id from to : string) (reply_to : option string) (now : instant) : Envelope :=
  envelope_new id from (DAgent to) "note" (JObject [("text", JString "hello")]) reply_to now.
Definition run_held : Mail := (hold_message run_ids run_start 10 (run_note "m" "a" "b" None 10) "inbound" "c" "b").2.
Definition run_reply : Envelope := run_note "r" "h" "a" (Some "c") 20.
Definition run_replied : Mail := (publish_routed run_ids run_held 20 run_reply None None).2.
Definition run_acked : Mail := (ack_inbox run_replied "a" ["r"] 30).2.
Definition run_swept : Mail := expire_questions run_ids run_replied (30 * HELD_FOR)%Z.

Lemma run_replied_reached : rtc mail_step (mail_start run_registry ∅ []) run_replied.
Proof.
  apply (rtc_l _ _ run_held).
  - refine (mail_acts (Some "c") _ _ (mail_hold run_start run_ids 10 (run_note "m" "a" "b" None 10) "inbound" "c" "b" _ _ _)); done.
  - apply rtc_once. exact (mail_acts None _ _ (mail_send run_held run_ids 20 run_reply)).
Qed.




Lemma send_is_all_or_nothing_witness :
  (∃ e', Sent "r" = Sent (e_id run_reply) ∧ queue_of run_replied "a" = app (queue_of (expire_questions run_ids run_held 20) "a") [e']).
Proof.
  destruct (send_is_all_or_nothing run_registry ∅ [] run_ids run_held 20 run_reply (Sent "r") run_replied) as [(e' & Hr & _ & _ & Hq)|[Hr _]].
  - apply rtc_once.
    refine (mail_acts (Some "c") _ _ (mail_hold run_start run_ids 10 (run_note "m" "a" "b" None 10) "inbound" "c" "b" _ _ _)); done.
  - vm_compute. reflexivity.
  - vm_compute. reflexivity.
  - exists e'. split; [exact Hr|]. exact (Hq "a").
  - exfalso. by apply (Hr "r").
Defined.


End MailProps.
